(* ===== verification/_CoqProject ===== *)
-Q . S2P
Prelude.v
Monad.v
StdMap.v
Character.v
Cstring.v
Diagnostic.v
Syntaxes.v
SyntaxVisitor.v
Utils.v
Files.v
DiagnosticsGenerator.v
TestDefinition.v
Command.v
HttpHeaders.v
HttpScanner.v
HttpParser.v
HttpWriter.v
MemoryPool.v
TextWriter.v
TextAnnotater.v
TestCaseScanner.v
Scanner.v
Parser.v
ValueText.v
Schema.v
SchemaChecks.v
Executor.v
Baseline.v
HttpServer.v
TcpClient.v
HttpTests.v
TestProgram.v
UtilsProperties.v
FilesProperties.v
MemoryFiles.v
DiagnosticsGeneratorProperties.v
CommandProperties.v
TextAnnotaterProperties.v
TestDefinitionProperties.v
TestCaseText.v
TestCaseScannerProperties.v
BaselineProperties.v
BaselineExamples.v
TestProgramProperties.v
TestCaseExpansion.v
TestCaseFiles.v
ScannerSpec.v
ParserSpec.v
ValueSafety.v
SchemaInvariant.v
SchemaRules.v
FieldSafety.v
SchemaSafety.v
SchemaChecksSpec.v
SchemaFrames.v
ExecutorRules.v
ExecutorValues.v
ExecutorSelections.v
ExecutorDefinitions.v
ExecutorProperties.v
SchemaProperties.v
LexerText.v
ScannerProperties.v
SchemaText.v
Reading.v
SchemaTypes.v
SchemaFields.v
SchemaParts.v
SchemaRoundTrip.v
SchemaVerdict.v
QueryText.v
QueryReading.v
QueryRoundTrip.v
WriterProperties.v
HttpSafety.v
HttpText.v
HttpProperties.v
HttpWriterProperties.v
HttpServerProperties.v
MemoryPoolProperties.v
