(* ===== verification/Prelude.v ===== *)
(** * Flashpoint: a verification development

    Flashpoint is a GraphQL gateway in C++.  It reads an HTTP request from a TLS
    connection, parses it, executes the GraphQL query of its body against a
    schema, and forwards the selected fields to backend servers.  This library
    models the program as state-passing functions that can be evaluated and
    proves what its parts guarantee, and where they fail.

    ** The parts and how they interact

    - The GraphQL scanner ([program/graphql/graphql_scanner.h], [.cpp]) turns
      UTF-32 text into tokens and keeps the table of line starts.
    - The parser base ([graphql_parser.h], [graphql_parser_impl.h],
      [program/diagnostic_impl.h]) wraps the scanner with expectations, recovery
      and diagnostics; the schema parser and the executor derive from it.
    - The schema parser ([graphql_schema.h], [.cpp]) parses type definitions on
      a heap of nodes and then checks the references between them.
    - The executor ([graphql_executor.h], [.cpp]) copies the tables of a schema
      and parses and checks a query against them in one pass; it shares the
      schema's nodes and writes the list flags of its types.
    - The text writer ([lib/text_writer.*]) prints values in diagnostics.
    - The HTTP scanner, parser and writer ([program/http_scanner.*],
      [http_parser.*], [http_response.*]) read requests and write them.
    - The memory pool ([lib/memory_pool.*]) gives each request a ticket.
    - The gateway ([program/http_server.*]) composes them in the callbacks of
      libuv: [on_read] calls [ParseRequest], which runs the HTTP parser, takes a
      ticket, builds the schema and executes the query.
    - The test program ([src/test.cpp], [src/test/*]): the command line parser
      ([lib/command.*]) chooses what [BaselineTestRunner] does; the scanner of
      test cases reads the test files, each test parses a schema, executes a
      query, writes both with their diagnostics through the text annotater
      ([lib/text_annotater.*]) and compares the text with a reference file; the
      suites ([test_definition.*]) run the tests and print the statistics.
    - [lib/utils.*] has the string, file and process functions they share, and
      [tasks/generate_diagnostics.cpp] writes the tables of diagnostics from
      JSON files.

    ** How the code is modelled

    Monad.v: an operation is a function from the object's state to an [outcome]:
    [Ok], [Throw] (a C++ exception, with the state at the throw), [Undefined]
    (behaviour the C++ standard leaves undefined: a read out of bounds, a null
    or dangling pointer, an object used at another class) and [OutOfFuel].
    [wp ub m Q X s] says that [m] does not run out of fuel, returns in [Q] or
    throws in [X], and is undefined only if [ub].  With [ub] false a theorem
    excludes undefined behaviour; with [ub] true it leaves it open and is about
    termination and results.  A class that derives from another has the state of
    its base as a component ([Has], and the brackets that lift an operation).
    A [std::map] is the sorted association list its iterator walks (StdMap.v);
    a [std::string] is a list of bytes and a [Glib::ustring] a list of code
    points (Prelude.v, Cstring.v, with the C library functions the code calls).
    Integers are [nat] where they only count and [Z] with the wrap-around
    written out where the width matters.  Nodes that are shared and mutated
    (types, declarations) live on an explicit heap and are reached by index;
    other nodes are values.  Fresh memory is taken to be zero.

    Definitions, one file per part, named as in the code:
    - Character.v ([lib/character.h]), Diagnostic.v ([graphql_diagnostics.*],
      [program/diagnostic.*], [lib/types.h]), Syntaxes.v ([graphql_syntaxes.h]);
    - Scanner.v, Parser.v: [GraphQlScanner], [GraphQlParser];
    - Schema.v: the parse phase of [GraphQlSchema]; SchemaChecks.v: the checks
      after it and the constructor;
    - Executor.v: [GraphQlExecutor], from [add_schema] to [Execute];
    - TextWriter.v: [TextWriter], with its saved texts and placeholders;
    - HttpHeaders.v, HttpScanner.v, HttpParser.v: the HTTP enumerations,
      [HttpScanner] on a buffer of signed bytes, [HttpParser];
    - HttpWriter.v: [HttpWriter] over a class [Transport] of the calls of libuv
      and OpenSSL it makes;
    - MemoryPool.v: [MemoryPool] and its tickets, with [size_t] arithmetic;
    - HttpServer.v: the gateway, its set-up ([Listen], [SetSecurityContext]), its
      callbacks and [Close], over classes [Platform] and [Setup] of the calls of
      libuv, OpenSSL and jsoncpp; TcpClient.v: [program/tcp_client.*] and
      [lib/tcp_client_raw.*] over classes [Streams] and [Sockets];
    - SyntaxVisitor.v: the classes of nodes and their [accept]
      ([graphql_syntaxes.cpp]);
    - Utils.v, Files.v: [lib/utils.*], the latter over a class [FileSystem] of
      the operations of Boost, the glob library and [popen];
    - Command.v, TextAnnotater.v (with [test/diagnostic_writer.*]);
    - TestCaseScanner.v, TestDefinition.v, Baseline.v, HttpTests.v:
      [test_case_scanner.*], [test_definition.*] and [baseline_test_runner.*],
      whose HTTP tests are over a class [Curl]; TestProgram.v: [src/test.cpp] and
      the [main] of [program.cpp];
    - DiagnosticsGenerator.v: [tasks/generate_diagnostics.cpp].

    Parameters are the regular expressions and paths of Boost, the file system,
    the clock, [std::sort] (a class whose law is the standard's), [fork], libcurl,
    libuv, OpenSSL and jsoncpp.  MemoryFiles.v has concrete functions for the
    expressions the program uses and a file system in memory; the witnesses run
    on them.

    ** Fuel and bounds

    A [while] loop of the code is [loop] with fuel from the state it starts in,
    and a recursive function a [Fixpoint] on fuel.  The scanners, the parsers
    and the executor take as fuel the number of characters that are left plus
    two: each iteration and each nested call takes a token, so that this is
    enough, which every safety theorem proves ([wp] excludes [OutOfFuel]).
    [Allocate] takes the number of free blocks.  [check_recursive_directives] is
    the exception: it does not end, and the theorem says that no fuel is enough.
    Theorems on HTTP buffers ask for eight bytes behind the request and sizes
    below [2^31], since the code reads ahead and counts in [int].

    ** What the theorems show

    - ScannerSpec.v, LexerText.v, ScannerProperties.v: taking tokens terminates
      inside the source; any list of lexemes is printed and scanned back;
      keywords agree with a table; look-ahead restores the state; recovery
      stops; locations agree with a linear definition.
    - ParserSpec.v, ValueSafety.v, SchemaInvariant.v, SchemaRules.v,
      FieldSafety.v, SchemaSafety.v: [schema_ok], the invariant of the heap and
      the tables, is kept by every operation; SchemaProperties.v: parsing any
      document is safe and leaves well-formed tables.
    - SchemaChecksSpec.v, SchemaFrames.v, SchemaProperties.v: what
      each check reports, exactly: implementations, unions, values, directives,
      root types, duplicates; and that the search for recursive directives diverges.
    - SchemaText.v, Reading.v, SchemaTypes.v, SchemaFields.v,
      SchemaParts.v, SchemaRoundTrip.v: documents of type definitions as data,
      their lexemes, and that parsing a rendering of them describes the document;
      [at_lexemes] says what is left to read and gives the state up to the
      scanner, and each operation of the parser has a rule for it.
    - SchemaVerdict.v: [valid_document], and that the constructor reports nothing
      on the text of a document exactly when it is valid: the composition of the
      round trip with the checks, over what each of them keeps (SchemaFrames.v).
    - ExecutorRules.v, ExecutorValues.v, ExecutorSelections.v,
      ExecutorDefinitions.v, ExecutorProperties.v: [fits], [set_ok] and
      [executable_ok] say when a value, a selection set and a query are well
      formed against the schema.  Execution terminates, a query without a new
      diagnostic is well formed, and the schema is left as it was up to list
      flags.
    - QueryText.v, QueryReading.v, QueryRoundTrip.v: queries as data, their lexemes,
      when they are valid for a document of type definitions, and that executing a
      rendering of a valid one on the schema of the document gives it back without a
      diagnostic: the composition of both parsers.
    - ValueText.v, WriterProperties.v: printing.
    - HttpSafety.v, HttpText.v, HttpProperties.v: parsing any bytes is safe;
      printed requests are parsed back; what is rejected.
    - HttpWriterProperties.v: the writer refines a stream of bytes.
    - MemoryPoolProperties.v: what [Allocate] returns, and that objects of the
      pool do not overlap under any sequence of operations.
    - HttpServerProperties.v: a request becomes the result of its query; from the
      bytes of a client to the hosts that are asked for, over the round trips of
      HTTP, schemas and queries; what holds in every state the callbacks get to, in any
      order; the pool is used up; what is sent for a field; which of the signals the
      set-up asks for are watched.  TcpClient.v has the lemmas
      on the clients beside their definitions: what is received, which ports are
      connected to, and that a client reads once.
    - UtilsProperties.v, FilesProperties.v, CommandProperties.v: splitting,
      replacing and joining; files and folders; a printed command line is read
      back.
    - TextAnnotaterProperties.v: the text of an annotated source.
    - TestCaseText.v, TestCaseScannerProperties.v, TestCaseExpansion.v,
      TestCaseFiles.v: scanning a test file is safe, a printed one is read back,
      and [@foreach] expands to the product of the rows.
    - TestDefinitionProperties.v, BaselineProperties.v, BaselineExamples.v: what
      running the suites does; the verdict of the GraphQL tests and their
      acceptance; TestProgramProperties.v: what [main] does.
    - DiagnosticsGeneratorProperties.v: the files
      that are generated, and the run on the JSON files of the repository.

    The definitions were also run on the reference files of the repository's
    test cases ([program/graphql/tests/references]): 676 of 677 schema documents
    and 102 of 103 queries give the diagnostics of the reference; the two others
    are references without a current test case.

    ** Not modelled

    - The benchmarks: [stream_write.cpp] uses functions it does not declare, and
      the other one times allocations of strings.  The vendored glob library.
    - The addresses of the nodes of the parsers: the pool is modelled on its own,
      and the parsers allocate on their heaps.
    - Output to [std::cout] and [std::cerr], and the [double] of a float value,
      which is stored and never read.

    ** Plan

    Input objects in the verdict on values; directives and descriptions in the round
    trip of schemas; variables and directives in the round trip of queries. *)
From stdpp Require Export base tactics list strings numbers.
From Stdlib Require Export Lia.

(** ** Options and lists *)

Create HintDb flash.

(** A C++ [std::string] and a [Glib::ustring] are both lists of code units:
    bytes for the former, Unicode code points for the latter. *)
Definition char32 := Z.
Definition ustring := list Z.

Definition ascii_code (c : Ascii.ascii) : Z := Z.of_N (Ascii.N_of_ascii c).

(** The code units of a string literal. *)
Fixpoint u (s : string) : ustring :=
  match s with
  | EmptyString => []
  | String c s' => ascii_code c :: u s'
  end.

(** [strcmp (value + k) literal == 0]-style tests on lists. *)
Definition ustring_eqb (a b : ustring) : bool := bool_decide (a = b).

(** Longest prefix whose elements satisfy [f], and what follows it. *)
Fixpoint take_while {A} (f : A → bool) (l : list A) : list A :=
  match l with
  | [] => []
  | x :: l' => if f x then x :: take_while f l' else []
  end.

Lemma take_while_app {A} (f : A → bool) (l k : list A) :
  forallb f l = true →
  (∀ x k', k = x :: k' → f x = false) →
  take_while f (l ++ k) = l.
Proof.
  induction l as [|x l IH]; simpl; intros Hl Hk.
  - destruct k as [|y k']; [done|]. simpl. by rewrite (Hk y k').
  - apply andb_prop in Hl as [-> Hl]. by rewrite IH.
Qed.

Lemma take_while_prefix {A} (f : A → bool) (l : list A) :
  take_while f l `prefix_of` l.
Proof.
  induction l as [|x l IH]; simpl; [done|].
  destruct (f x); [by apply prefix_cons | apply prefix_nil].
Qed.

Lemma take_while_forallb {A} (f : A → bool) (l : list A) :
  forallb f (take_while f l) = true.
Proof.
  induction l as [|x l IH]; simpl; [done|].
  destruct (f x) eqn:E; simpl; [by rewrite E | done].
Qed.

(** [substr (i, n)] of a string, in range: at most [n] units from index [i]. *)
Definition substr {A} (i n : nat) (l : list A) : list A := take n (drop i l).

Lemma substr_app_mid {A} (pre mid post : list A) i n :
  i = length pre → n = length mid → substr i n (pre ++ mid ++ post) = mid.
Proof.
  intros -> ->. unfold substr. by rewrite drop_app_length, take_app_length.
Qed.

Lemma lookup_app_mid {A} (pre post : list A) x :
  (pre ++ x :: post) !! length pre = Some x.
Proof. by rewrite lookup_app_r, Nat.sub_diag. Qed.

Lemma Forall_elem {A} (P : A → Prop) l x : Forall P l → x ∈ l → P x.
Proof. intros Hl Hx. by eapply list.Forall_forall in Hx. Qed.

(** 32-bit truncation ([unsigned int] parameters fed with [std::size_t]). *)
Definition u32 (n : nat) : nat := N.to_nat (N.of_nat n mod 4294967296).

Lemma u32_small n : (N.of_nat n < 4294967296)%N → u32 n = n.
Proof. intros H. unfold u32. rewrite N.mod_small by done. lia. Qed.

(** Destruct the scrutinee of the match or conditional in the goal. *)
Ltac case_goal :=
  match goal with
  | |- context [match ?x with _ => _ end] =>
      lazymatch x with
      | context [match _ with _ => _ end] => fail
      | _ => destruct x eqn:?
      end
  end.

(** Turn boolean comparisons of the context into propositions. *)
Ltac bool_hyps :=
  repeat match goal with
  | H : negb _ = true |- _ => apply negb_true_iff in H
  | H : negb _ = false |- _ => apply negb_false_iff in H
  | H : (_ && _) = true |- _ => apply andb_prop in H as [??]
  | H : (_ || _) = false |- _ => apply orb_false_elim in H as [??]
  | H : (_ <? _)%nat = true |- _ => apply Nat.ltb_lt in H
  | H : (_ <? _)%nat = false |- _ => apply Nat.ltb_ge in H
  | H : (_ <=? _)%nat = true |- _ => apply Nat.leb_le in H
  | H : (_ <=? _)%nat = false |- _ => apply Nat.leb_gt in H
  | H : (_ =? _)%Z = true |- _ => apply Z.eqb_eq in H
  | H : (_ =? _)%Z = false |- _ => apply Z.eqb_neq in H
  | H : (_ <? _)%Z = true |- _ => apply Z.ltb_lt in H
  | H : (_ <? _)%Z = false |- _ => apply Z.ltb_ge in H
  | H : (_ <=? _)%Z = true |- _ => apply Z.leb_le in H
  | H : (_ <=? _)%Z = false |- _ => apply Z.leb_gt in H
  end.
