(* ===== verification/Monad.v ===== *)
(** * Effects: state, C++ exceptions, undefined behaviour and fuel

    Every stateful operation of the program is a function from the state it is
    run in to an [outcome].  [Throw] is a C++ exception with the state at the
    throw, [Undefined] an execution whose behaviour the C++ standard leaves
    undefined (a read out of bounds, a null pointer dereference, a pointer
    used at another type), and [OutOfFuel] a loop or recursion that was not
    given enough iterations.  [wp] is the weakest precondition the theorems of
    the development are stated with. *)
From S2P Require Import Prelude.

Inductive exn :=
  | std_logic_error (what : ustring)
  | std_domain_error (what : ustring)
  | std_invalid_argument (what : ustring)
  | std_out_of_range
  | std_bad_array_new_length
  | InvalidStringException
  | BaselineAssertionError (what : ustring)
  | std_runtime_error
  | std_future_error
  | filesystem_error.

Inductive outcome (S A : Type) :=
  | Ok (a : A) (s : S)
  | Throw (e : exn) (s : S)
  | Undefined
  | OutOfFuel.
Arguments Ok {_ _} _ _.
Arguments Throw {_ _} _ _.
Arguments Undefined {_ _}.
Arguments OutOfFuel {_ _}.

Definition M (S A : Type) : Type := S → outcome S A.

#[export] Instance M_ret S : MRet (M S) := λ A a s, Ok a s.
#[export] Instance M_bind S : MBind (M S) := λ A B k m s,
  match m s with
  | Ok a s' => k a s'
  | Throw e s' => Throw e s'
  | Undefined => Undefined
  | OutOfFuel => OutOfFuel
  end.

Definition get {S} : M S S := λ s, Ok s s.
Definition gets {S A} (f : S → A) : M S A := λ s, Ok (f s) s.
Definition modify {S} (f : S → S) : M S unit := λ s, Ok tt (f s).
Definition throw {S A} (e : exn) : M S A := λ s, Throw e s.
Definition undefined {S A} : M S A := λ _, Undefined.
Definition out_of_fuel {S A} : M S A := λ _, OutOfFuel.
Definition when {S} (b : bool) (m : M S unit) : M S unit :=
  if b then m else mret tt.

(** Dereferencing a pointer: null or dangling is undefined behaviour. *)
Definition deref {S A} (p : option A) : M S A :=
  match p with Some a => mret a | None => undefined end.

(** [try { m } catch (const E&) { h }], [h] deciding on the exception. *)
Definition try_catch {S A} (m : M S A) (h : exn → option (M S A)) : M S A := λ s,
  match m s with
  | Throw e s' => match h e with Some k => k s' | None => Throw e s' end
  | o => o
  end.

(** [while (true)] with an early exit: [body] returns [inl] to iterate and
    [inr] to leave the loop. *)
Fixpoint loop {S A B} (fuel : nat) (body : A → M S (A + B)) (a : A) : M S B :=
  match fuel with
  | O => out_of_fuel
  | S fuel' =>
      r ← body a;
      match r with
      | inl a' => loop fuel' body a'
      | inr b => mret b
      end
  end.

(** [return m] from inside a loop. *)
Definition finish {S A B} (m : M S B) : M S (A + B) :=
  b ← m;
  mret (inr b).

Section iteration.
Context {S A B : Type}.

Section fixed_body.
Context (body : A → M S unit) (body_break : A → M S bool) (body_acc : B → A → M S B).

Fixpoint iter_list (l : list A) : M S unit :=
  match l with
  | [] => mret tt
  | x :: l' => body x;; iter_list l'
  end.

Fixpoint iter_break (l : list A) : M S unit :=
  match l with
  | [] => mret tt
  | x :: l' =>
      b ← body_break x;
      if (b : bool) then mret tt else iter_break l'
  end.

Fixpoint iter_acc (l : list A) (b : B) : M S B :=
  match l with
  | [] => mret b
  | x :: l' => b' ← body_acc b x; iter_acc l' b'
  end.
End fixed_body.
End iteration.

(** [for (x : l) body x]. *)
Abbreviation for_each l body := (iter_list body l) (only parsing).
(** [for (x : l)] whose body returns [true] for [break]. *)
Abbreviation for_each_break l body := (iter_break body l) (only parsing).
(** [for (x : l)] with a local variable that starts as [b]. *)
Abbreviation fold_each l body b := (iter_acc body l b) (only parsing).

(** ** Sub-objects

    [Has P S] says that every object of type [S] has a base or member
    sub-object of type [P]; [zoom] runs an operation of the sub-object. *)
Class Has (P S : Type) := {
  sub : S → P;
  put_sub : P → S → S;
  sub_put : ∀ p s, sub (put_sub p s) = p;
  put_sub_id : ∀ s, put_sub (sub s) s = s;
  put_put : ∀ p q s, put_sub p (put_sub q s) = put_sub p s
}.

Definition zoom {P S A} `{Has P S} (m : M P A) : M S A := λ s,
  match m (sub s) with
  | Ok a p => Ok a (put_sub p s)
  | Throw e p => Throw e (put_sub p s)
  | Undefined => Undefined
  | OutOfFuel => OutOfFuel
  end.

(** The result of an object that is a local variable, and the object. *)
Definition local_object {T S A} (r : outcome S A) : M T (A * S) := λ t,
  match r with
  | Ok a s => Ok (a, s) t
  | Throw e _ => Throw e t
  | Undefined => Undefined
  | OutOfFuel => OutOfFuel
  end.

(** ** Weakest preconditions

    [wp ub m Q X s]: run from [s], [m] terminates within its fuel, with a
    result and state in [Q] or an exception in [X]; undefined behaviour is
    possible only if [ub]. *)
Definition wp {S A} (ub : Prop) (m : M S A) (Q : A → S → Prop)
    (X : exn → S → Prop) (s : S) : Prop :=
  match m s with
  | Ok a s' => Q a s'
  | Throw e s' => X e s'
  | Undefined => ub
  | OutOfFuel => False
  end.

Section wp_rules.
Context {S : Type} (ub : Prop).

Lemma wp_mono {A} (m : M S A) Q Q' X X' s :
  wp ub m Q X s →
  (∀ a s', Q a s' → Q' a s') →
  (∀ e s', X e s' → X' e s') →
  wp ub m Q' X' s.
Proof. unfold wp. destruct (m s); eauto. Qed.

Lemma wp_weaken_ub (ub' : Prop) {A} (m : M S A) Q X s :
  (ub' → ub) → wp ub' m Q X s → wp ub m Q X s.
Proof. unfold wp. destruct (m s); tauto. Qed.

Lemma wp_ret {A} (a : A) (Q : A → S → Prop) X s :
  Q a s → wp ub (mret a) Q X s.
Proof. done. Qed.

Lemma wp_bind {A B} (m : M S A) (k : A → M S B) Q X s :
  wp ub m (λ a s', wp ub (k a) Q X s') X s → wp ub (m ≫= k) Q X s.
Proof. unfold wp, mbind, M_bind. by destruct (m s). Qed.

Lemma wp_unbind {A B} (m : M S A) (k : A → M S B) Q X s :
  wp ub (m ≫= k) Q X s → wp ub m (λ a s', wp ub (k a) Q X s') X s.
Proof. unfold wp, mbind, M_bind. by destruct (m s). Qed.

Lemma wp_get Q X (s : S) : Q s s → wp ub get Q X s.
Proof. done. Qed.

Lemma wp_gets {A} (f : S → A) Q X s : Q (f s) s → wp ub (gets f) Q X s.
Proof. done. Qed.

Lemma wp_modify (f : S → S) Q X s : Q tt (f s) → wp ub (modify f) Q X s.
Proof. done. Qed.

Lemma wp_throw {A} e (Q : A → S → Prop) X s : X e s → wp ub (throw e) Q X s.
Proof. done. Qed.

Lemma wp_undefined {A} (Q : A → S → Prop) X s : ub → wp ub undefined Q X s.
Proof. done. Qed.

Lemma wp_when b (m : M S unit) Q X s :
  (b = true → wp ub m Q X s) → (b = false → Q tt s) → wp ub (when b m) Q X s.
Proof. destruct b; simpl; eauto using wp_ret. Qed.

Lemma wp_deref {A} (p : option A) (Q : A → S → Prop) X s :
  (∀ a, p = Some a → Q a s) → (p = None → ub) → wp ub (deref p) Q X s.
Proof. destruct p; simpl; [intros H _; by apply H | intros _ H; by apply H]. Qed.

Lemma wp_try_catch {A} (m : M S A) h Q X s :
  wp ub m Q (λ e s', match h e with Some k => wp ub k Q X s' | None => X e s' end) s →
  wp ub (try_catch m h) Q X s.
Proof. unfold wp, try_catch. destruct (m s) as [|e s'| |]; try done. by destruct (h e). Qed.

(** Loop rule: an invariant and a natural measure that every further
    iteration decreases; any fuel above the measure is enough. *)
Lemma wp_loop {A B} (I : A → S → Prop) (μ : A → S → nat)
    (body : A → M S (A + B)) Q X fuel a s :
  I a s →
  (μ a s < fuel)%nat →
  (∀ a s, I a s →
    wp ub (body a) (λ r s',
      match r with
      | inl a' => I a' s' ∧ (μ a' s' < μ a s)%nat
      | inr b => Q b s'
      end) X s) →
  wp ub (loop fuel body a) Q X s.
Proof.
  intros HI Hμ Hbody. revert a s HI Hμ.
  induction fuel as [|fuel IH]; intros a s HI Hμ; [lia|].
  simpl. apply wp_bind. eapply wp_mono; [by apply Hbody| |done].
  intros [a'|b] s'; [|by intros; apply wp_ret].
  intros [HI' Hlt]. apply IH; [done|lia].
Qed.

Lemma wp_for_each {A} (I : list A → S → Prop) (l : list A) body Q X s :
  I l s →
  (∀ x l' s, I (x :: l') s → wp ub (body x) (λ _ s', I l' s') X s) →
  (∀ s, I [] s → Q tt s) →
  wp ub (for_each l body) Q X s.
Proof.
  intros HI Hbody HQ. revert s HI.
  induction l as [|x l IH]; intros s HI; simpl; [apply wp_ret; eauto|].
  apply wp_bind. eapply wp_mono; [by apply Hbody|by eauto|done].
Qed.

Lemma wp_for_each_break {A} (I : list A → S → Prop) (l : list A) body Q X s :
  I l s →
  (∀ x l' s, I (x :: l') s →
    wp ub (body x) (λ (b : bool) s', if b then Q tt s' else I l' s') X s) →
  (∀ s, I [] s → Q tt s) →
  wp ub (for_each_break l body) Q X s.
Proof.
  intros HI Hbody HQ. revert s HI.
  induction l as [|x l IH]; intros s HI; simpl; [apply wp_ret; eauto|].
  apply wp_bind. eapply wp_mono; [by apply Hbody| |done].
  intros [] s' H; [by apply wp_ret|by apply IH].
Qed.

Lemma wp_fold_each {A B} (I : list A → B → S → Prop) (l : list A) body b Q X s :
  I l b s →
  (∀ x l' b s, I (x :: l') b s → wp ub (body b x) (λ b' s', I l' b' s') X s) →
  (∀ b s, I [] b s → Q b s) →
  wp ub (fold_each l body b) Q X s.
Proof.
  intros HI Hbody HQ. revert b s HI.
  induction l as [|x l IH]; intros b s HI; simpl; [apply wp_ret; eauto|].
  apply wp_bind. eapply wp_mono; [by apply Hbody|by eauto|done].
Qed.

Lemma wp_zoom {P A} `{Has P S} (m : M P A) Q X (s : S) :
  wp ub m (λ a p, Q a (put_sub p s)) (λ e p, X e (put_sub p s)) (sub s) →
  wp ub (zoom m) Q X s.
Proof. unfold wp, zoom. by destruct (m (sub s)). Qed.

Lemma wp_and {A} (m : M S A) Q1 X1 Q2 X2 s :
  wp ub m Q1 X1 s → wp ub m Q2 X2 s →
  wp ub m (λ a s', Q1 a s' ∧ Q2 a s') (λ e s', X1 e s' ∧ X2 e s') s.
Proof. unfold wp. by destruct (m s). Qed.

Lemma wp_if {A} (b : bool) (m1 m2 : M S A) Q X s :
  (b = true → wp ub m1 Q X s) → (b = false → wp ub m2 Q X s) →
  wp ub (if b then m1 else m2) Q X s.
Proof. destruct b; eauto. Qed.
End wp_rules.

(** What a [wp] says of a run that is known to succeed. *)
Lemma wp_ok {S A} ub (m : M S A) Q X s a s' :
  wp ub m Q X s → m s = Ok a s' → Q a s'.
Proof. unfold wp. intros Hwp Hm. by rewrite Hm in Hwp. Qed.

Lemma wp_defined {S A} (m : M S A) Q X s :
  wp False m Q X s → (∃ a s', m s = Ok a s' ∧ Q a s') ∨ (∃ e s', m s = Throw e s' ∧ X e s').
Proof. unfold wp. destruct (m s); naive_solver. Qed.

(** Undefined behaviour left open, a run still ends. *)
Lemma wp_ends {S A} ub (m : M S A) Q X s :
  wp ub m Q X s →
  (∃ a s', m s = Ok a s' ∧ Q a s') ∨ (∃ e s', m s = Throw e s' ∧ X e s') ∨ m s = Undefined.
Proof. unfold wp. destruct (m s); naive_solver. Qed.

(** No exception either: the run returns. *)
Lemma wp_total {S A} (m : M S A) Q s :
  wp False m Q (λ _ _, False) s → ∃ a s', m s = Ok a s' ∧ Q a s'.
Proof. unfold wp. destruct (m s); naive_solver. Qed.

Lemma wp_intro_ok {S A} ub (m : M S A) (Q : A → S → Prop) X s a s' :
  m s = Ok a s' → Q a s' → wp ub m Q X s.
Proof. unfold wp. by intros ->. Qed.

Lemma wp_intro_undefined {S A} (ub : Prop) (m : M S A) (Q : A → S → Prop) X s :
  m s = Undefined → ub → wp ub m Q X s.
Proof. unfold wp. by intros ->. Qed.

Lemma wp_eq {S A} ub (m m' : M S A) (Q : A → S → Prop) X s :
  m s = m' s → wp ub m Q X s → wp ub m' Q X s.
Proof. unfold wp. by intros ->. Qed.

Lemma wp_modified {S} ub (m : M S unit) (f : S → S) (Q : unit → S → Prop) X s :
  m s = Ok tt (f s) → Q tt (f s) → wp ub m Q X s.
Proof. apply wp_intro_ok. Qed.

(** ** Runs *)

Section runs.
Context {S A B : Type}.

Lemma run_bind (m : M S A) (k : A → M S B) a s s' : m s = Ok a s' → (m ≫= k) s = k a s'.
Proof. unfold mbind, M_bind. by intros ->. Qed.

Lemma run_bind_fuel (m : M S A) (k : A → M S B) s : m s = OutOfFuel → (m ≫= k) s = OutOfFuel.
Proof. unfold mbind, M_bind. by intros ->. Qed.

Lemma run_bind_throw (m : M S A) (k : A → M S B) e s s' :
  m s = Throw e s' → (m ≫= k) s = Throw e s'.
Proof. unfold mbind, M_bind. by intros ->. Qed.

Lemma run_bind_ok (m : M S A) (k : A → M S B) s b s' :
  (m ≫= k) s = Ok b s' → ∃ a s1, m s = Ok a s1 ∧ k a s1 = Ok b s'.
Proof. unfold mbind, M_bind. destruct (m s) as [a s1| | |]; [eauto|done..]. Qed.
End runs.

Lemma run_zoom {P S A} `{Has P S} (m : M P A) (s : S) a p :
  m (sub s) = Ok a p → zoom m s = Ok a (put_sub p s).
Proof. unfold zoom. by intros ->. Qed.

Lemma run_zoom_bind {P S A B C} `{Has P S} (m : M P A) (f : A → M P B) (k : B → M S C) (s : S) :
  (zoom m ≫= λ a, zoom (f a) ≫= k) s = (zoom (m ≫= f) ≫= k) s.
Proof.
  unfold zoom, mbind, M_bind. destruct (m (sub s)) as [a p|e p| |]; [|done..].
  rewrite sub_put. destruct (f a p) as [b p'|e p'| |]; [|by rewrite put_put|done..].
  by rewrite put_put.
Qed.

Lemma run_local {T S A} (r : outcome S A) a s (t : T) :
  r = Ok a s → local_object r t = Ok (a, s) t.
Proof. unfold local_object. by intros ->. Qed.

Lemma run_local_ok {T S A} (r : outcome S A) a s (t t' : T) :
  local_object r t = Ok (a, s) t' → r = Ok a s ∧ t' = t.
Proof. unfold local_object. by destruct r; intros [=]; subst. Qed.

(** A loop gets to the first element its body does not return on. *)
Lemma run_for_each {S A} (body : A → M S unit) pre x post s :
  Forall (λ y, body y s = Ok tt s) pre →
  for_each (pre ++ x :: post) body s = for_each (x :: post) body s.
Proof.
  induction pre as [|y pre IH]; simpl; [done|]. intros [Hy Hpre]%list.Forall_cons.
  by rewrite (run_bind _ _ _ _ _ Hy), IH.
Qed.

(** A run without undefined behaviour has what is known of it with some. *)
Lemma wp_and_defined {S A} ub (m : M S A) Q X Q' X' s :
  wp False m Q X s → wp ub m Q' X' s →
  wp False m (λ a s', Q a s' ∧ Q' a s') (λ e s', X e s' ∧ X' e s') s.
Proof. unfold wp. by destruct (m s). Qed.

(** From here on, proofs about programs go through the rules. *)
#[global] Opaque wp.

(** One step of a weakest-precondition proof. *)
Ltac wp_step :=
  lazymatch goal with
  | |- wp _ (mret _) _ _ _ => apply wp_ret
  | |- wp _ (_ ≫= _) _ _ _ => apply wp_bind
  | |- wp _ get _ _ _ => apply wp_get
  | |- wp _ (gets _) _ _ _ => apply wp_gets
  | |- wp _ (modify _) _ _ _ => apply wp_modify
  | |- wp _ (throw _) _ _ _ => apply wp_throw
  | |- wp _ undefined _ _ _ => apply wp_undefined
  | |- wp _ (when _ _) _ _ _ => apply wp_when; intros ?
  | |- wp _ (if _ then _ else _) _ _ _ => apply wp_if; intros ?
  | |- wp _ (zoom _) _ _ _ => apply wp_zoom
  end.

(** Use a specification lemma for the operation at the head. *)
Ltac wp_call lem :=
  lazymatch goal with
  | |- wp _ (_ ≫= _) _ _ _ => apply wp_bind
  | _ => idtac
  end; eapply wp_mono; [eapply lem | cbv beta | cbv beta].
