(* ===== verification/StdMap.v ===== *)
(** * [std::map] and [std::set]

    A [std::map<K, V>] is kept as the association list its iterator walks:
    keys strictly increasing.  [emplace] leaves a map that has the key alone,
    [insert_or_assign] is [m[k] = v]. *)
From S2P Require Import Prelude.

Class KeyOrder (K : Type) := {
  key_eq_dec :: EqDecision K;
  key_ltb : K → K → bool;
  key_ltb_irrefl : ∀ k, key_ltb k k = false;
  key_ltb_trans : ∀ a b c, key_ltb a b = true → key_ltb b c = true → key_ltb a c = true;
  key_ltb_total : ∀ a b, key_ltb a b = false → a = b ∨ key_ltb b a = true
}.

#[export] Instance nat_order : KeyOrder nat.
Proof. refine {| key_ltb := Nat.ltb |}; intros; rewrite ?Nat.ltb_lt, ?Nat.ltb_ge in *; lia. Defined.

#[export] Instance Z_order : KeyOrder Z.
Proof. refine {| key_ltb := Z.ltb |}; intros; rewrite ?Z.ltb_lt, ?Z.ltb_ge in *; lia. Defined.

(** Lexicographic order of code units, which is [strcmp] order. *)
Fixpoint ustring_ltb (a b : ustring) : bool :=
  match a, b with
  | _, [] => false
  | [], _ :: _ => true
  | x :: a', y :: b' => (x <? y)%Z || ((x =? y)%Z && ustring_ltb a' b')
  end.

#[export] Instance ustring_order : KeyOrder ustring.
Proof.
  refine {| key_ltb := ustring_ltb |}.
  - induction k as [|x k IH]; simpl; [done|]. rewrite Z.ltb_irrefl, IH. by rewrite andb_false_r.
  - induction a as [|x a IH]; intros [|y b] [|z c]; simpl; try done.
    rewrite !orb_true_iff, !andb_true_iff, !Z.ltb_lt, !Z.eqb_eq.
    intros [?|[-> ?]] [?|[-> ?]]; [left; lia|left; lia|left; lia|right; eauto].
  - induction a as [|x a IH]; intros [|y b]; simpl; auto; try done.
    rewrite orb_false_iff, andb_false_iff, orb_true_iff, andb_true_iff, Z.ltb_ge, Z.eqb_neq, Z.ltb_lt, Z.eqb_eq.
    intros [? [?|Hr]]; [right; left; lia|].
    destruct (Z.eq_dec x y) as [->|]; [|right; left; lia].
    destruct (IH _ Hr) as [->|?]; auto.
Defined.

Section std_map.
Context {K V : Type} `{KeyOrder K}.

Definition std_map : Type := list (K * V).

Fixpoint find (k : K) (m : std_map) : option V :=
  match m with
  | [] => None
  | (k', v) :: m' => if decide (k = k') then Some v else find k m'
  end.

Definition contains (k : K) (m : std_map) : bool :=
  match find k m with Some _ => true | None => false end.

(** Insertion at the sorted position of an absent key. *)
Fixpoint insert_sorted (k : K) (v : V) (m : std_map) : std_map :=
  match m with
  | [] => [(k, v)]
  | (k', v') :: m' =>
      if key_ltb k k' then (k, v) :: m else (k', v') :: insert_sorted k v m'
  end.

Definition emplace (k : K) (v : V) (m : std_map) : std_map :=
  if contains k m then m else insert_sorted k v m.

Fixpoint assign (k : K) (v : V) (m : std_map) : std_map :=
  match m with
  | [] => []
  | (k', v') :: m' =>
      if decide (k = k') then (k', v) :: m' else (k', v') :: assign k v m'
  end.

Definition insert_or_assign (k : K) (v : V) (m : std_map) : std_map :=
  if contains k m then assign k v m else insert_sorted k v m.

Definition erase (k : K) (m : std_map) : std_map :=
  base.filter (λ p, p.1 ≠ k) m.

Definition keys (m : std_map) : list K := m.*1.

Fixpoint sorted_from (lo : option K) (m : std_map) : Prop :=
  match m with
  | [] => True
  | (k, _) :: m' =>
      match lo with Some l => key_ltb l k = true | None => True end ∧ sorted_from (Some k) m'
  end.

(** The class invariant of a [std::map]. *)
Definition sorted (m : std_map) : Prop := sorted_from None m.
End std_map.
Arguments std_map : clear implicits.

Section std_map_facts.
Context {K V : Type} `{KeyOrder K}.
Implicit Types (m : std_map K V) (k : K) (v : V).

Lemma find_insert_sorted k k' v m :
  find k m = None →
  find k' (insert_sorted k v m) = if decide (k' = k) then Some v else find k' m.
Proof.
  induction m as [|[k0 v0] m IH]; simpl; intros Hk.
  - by case_decide.
  - destruct (decide (k = k0)); [done|].
    destruct (key_ltb k k0); simpl; [by repeat case_decide|].
    rewrite IH by done. repeat case_decide; congruence.
Qed.

Lemma find_emplace k k' v m :
  find k' (emplace k v m) =
    if decide (k' = k) then Some (default v (find k m)) else find k' m.
Proof.
  unfold emplace, contains. destruct (find k m) eqn:E.
  - case_decide; subst; simpl; [by rewrite E|done].
  - rewrite find_insert_sorted by done. done.
Qed.

(** [emplace] never changes what a key is bound to. *)
Lemma find_emplace_Some k k' v v' m :
  find k' m = Some v' → find k' (emplace k v m) = Some v'.
Proof. intros E. rewrite find_emplace. case_decide; subst; by rewrite ?E. Qed.

Lemma find_emplace_inv k k' v v' m :
  find k' (emplace k v m) = Some v' →
  find k' m = Some v' ∨ (k' = k ∧ v' = v ∧ find k m = None).
Proof.
  rewrite find_emplace. case_decide as Hk; [subst|auto].
  destruct (find k m); simpl; intros [= ->]; auto.
Qed.

Lemma find_assign k k' v m :
  find k' (assign k v m) =
    if decide (k' = k) then (match find k m with Some _ => Some v | None => None end)
    else find k' m.
Proof.
  induction m as [|[k0 v0] m IH]; simpl; [by case_decide|].
  destruct (decide (k = k0)); simpl; repeat case_decide; subst; try congruence; auto;
    rewrite IH; repeat case_decide; congruence.
Qed.

Lemma find_insert_or_assign k k' v m :
  find k' (insert_or_assign k v m) = if decide (k' = k) then Some v else find k' m.
Proof.
  unfold insert_or_assign, contains. destruct (find k m) eqn:E.
  - rewrite find_assign, E. done.
  - by rewrite find_insert_sorted.
Qed.

Lemma find_Some_elem k v m : find k m = Some v → (k, v) ∈ m.
Proof.
  induction m as [|[k0 v0] m IH]; simpl; [done|].
  case_decide; [intros [= ->]; subst; left|right; auto].
Qed.

Lemma sorted_from_weaken a b m :
  key_ltb a b = true → sorted_from (Some b) m → sorted_from (Some a) m.
Proof.
  destruct m as [|[k v] m]; simpl; [done|]. intros ? [? ?]. eauto using key_ltb_trans.
Qed.

Lemma sorted_from_find_None lo m :
  sorted_from (Some lo) m → find lo m = None.
Proof.
  revert lo. induction m as [|[k v] m IH]; intros lo; simpl; [done|].
  intros [Hlt Hs]. case_decide; [subst; by rewrite key_ltb_irrefl in Hlt|].
  eapply IH, sorted_from_weaken; eauto.
Qed.

(** In a sorted map an entry is what [find] returns. *)
Lemma sorted_elem_find lo k v m :
  sorted_from lo m → (k, v) ∈ m → find k m = Some v.
Proof.
  revert lo. induction m as [|[k0 v0] m IH]; intros lo; simpl.
  - intros _ Hin. by apply elem_of_nil in Hin.
  - intros [_ Hs] [[= -> ->]|Hin]%elem_of_cons; [by case_decide|].
    case_decide; subst; [|eauto].
    pose proof (sorted_from_find_None _ _ Hs) as Hn.
    by rewrite (IH _ Hs Hin) in Hn.
Qed.

Lemma sorted_insert_sorted lo k v m :
  match lo with Some l => key_ltb l k = true | None => True end →
  find k m = None → sorted_from lo m → sorted_from lo (insert_sorted k v m).
Proof.
  revert lo. induction m as [|[k0 v0] m IH]; intros lo Hlo; simpl; [done|].
  destruct (decide (k = k0)); [done|]. intros Hn [Hk0 Hs].
  destruct (key_ltb k k0) eqn:E; simpl; [done|].
  split; [done|]. apply IH; [|done|done].
  by destruct (key_ltb_total _ _ E).
Qed.

Lemma sorted_emplace k v m : sorted m → sorted (emplace k v m).
Proof.
  unfold sorted, emplace, contains. intros Hs.
  destruct (find k m) eqn:E; [done|]. by apply sorted_insert_sorted.
Qed.

Lemma sorted_assign lo k v m : sorted_from lo m → sorted_from lo (assign k v m).
Proof.
  revert lo. induction m as [|[k0 v0] m IH]; intros lo; simpl; [done|].
  intros [? ?]. case_decide; simpl; eauto.
Qed.

Lemma sorted_insert_or_assign k v m : sorted m → sorted (insert_or_assign k v m).
Proof.
  unfold sorted, insert_or_assign, contains. intros Hs.
  destruct (find k m) eqn:E; [by apply sorted_assign|by apply sorted_insert_sorted].
Qed.
Lemma Forall_insert_sorted (P : K * V → Prop) k v m :
  P (k, v) → Forall P m → Forall P (insert_sorted k v m).
Proof.
  intros Hkv Hm. induction Hm as [|[k' v'] m Hk' Hm IH]; simpl; [auto|].
  destruct (key_ltb k k'); auto.
Qed.

Lemma Forall_emplace (P : K * V → Prop) k v m :
  P (k, v) → Forall P m → Forall P (emplace k v m).
Proof. intros. unfold emplace. case_match; auto using Forall_insert_sorted. Qed.
End std_map_facts.

#[export] Hint Resolve sorted_emplace sorted_insert_or_assign : flash.
