(* ===== verification/Character.v ===== *)
(** * [lib/character.h]: the [Character] enumeration

    One constant per enumerator, under its name in the source; the enumerators
    named [_] and [$] are [Underscore] and [Dollar], which have the same value. *)
From S2P Require Import Prelude.
Local Open Scope Z_scope.

Module Character.
Definition NullCharacter : char32 := 0x00.
Definition _0 : char32 := 0x30.
Definition _1 : char32 := 0x31.
Definition _2 : char32 := 0x32.
Definition _3 : char32 := 0x33.
Definition _4 : char32 := 0x34.
Definition _5 : char32 := 0x35.
Definition _6 : char32 := 0x36.
Definition _7 : char32 := 0x37.
Definition _8 : char32 := 0x38.
Definition _9 : char32 := 0x39.
Definition a : char32 := 0x61.
Definition b : char32 := 0x62.
Definition c : char32 := 0x63.
Definition d : char32 := 0x64.
Definition e : char32 := 0x65.
Definition f : char32 := 0x66.
Definition g : char32 := 0x67.
Definition h : char32 := 0x68.
Definition i : char32 := 0x69.
Definition j : char32 := 0x6a.
Definition k : char32 := 0x6b.
Definition l : char32 := 0x6c.
Definition m : char32 := 0x6d.
Definition n : char32 := 0x6e.
Definition o : char32 := 0x6f.
Definition p : char32 := 0x70.
Definition q : char32 := 0x71.
Definition r : char32 := 0x72.
Definition s : char32 := 0x73.
Definition t : char32 := 0x74.
Definition u : char32 := 0x75.
Definition v : char32 := 0x76.
Definition w : char32 := 0x77.
Definition x : char32 := 0x78.
Definition y : char32 := 0x79.
Definition z : char32 := 0x7a.
Definition A : char32 := 0x41.
Definition B : char32 := 0x42.
Definition C : char32 := 0x43.
Definition D : char32 := 0x44.
Definition E : char32 := 0x45.
Definition F : char32 := 0x46.
Definition G : char32 := 0x47.
Definition H : char32 := 0x48.
Definition I : char32 := 0x49.
Definition J : char32 := 0x4a.
Definition K : char32 := 0x4b.
Definition L : char32 := 0x4c.
Definition M : char32 := 0x4d.
Definition N : char32 := 0x4e.
Definition O : char32 := 0x4f.
Definition P : char32 := 0x50.
Definition Q : char32 := 0x51.
Definition R : char32 := 0x52.
Definition S : char32 := 0x53.
Definition T : char32 := 0x54.
Definition U : char32 := 0x55.
Definition V : char32 := 0x56.
Definition W : char32 := 0x57.
Definition X : char32 := 0x58.
Definition Y : char32 := 0x59.
Definition Z : char32 := 0x5a.
Definition Ampersand : char32 := 0x26.
Definition Asterisk : char32 := 0x2a.
Definition At : char32 := 0x40.
Definition Backslash : char32 := 0x5c.
Definition Backspace : char32 := 0x08.
Definition Backtick : char32 := 0x60.
Definition Pipe : char32 := 0x7c.
Definition Caret : char32 := 0x5e.
Definition CarriageReturn : char32 := 0x0d.
Definition CloseBrace : char32 := 0x7d.
Definition CloseBracket : char32 := 0x5d.
Definition CloseParen : char32 := 0x29.
Definition Colon : char32 := 0x3a.
Definition Comma : char32 := 0x2c.
Definition Dot : char32 := 0x2e.
Definition DoubleQuote : char32 := 0x22.
Definition Equal : char32 := 0x3d.
Definition Exclamation : char32 := 0x21.
Definition FormFeed : char32 := 0x0c.
Definition Dollar : char32 := 0x24.
Definition GreaterThan : char32 := 0x3e.
Definition Hash : char32 := 0x23.
Definition HorizontalTab : char32 := 0x09.
Definition LessThan : char32 := 0x3c.
Definition NewLine : char32 := 0x0a.
Definition Minus : char32 := 0x2d.
Definition Dash : char32 := Minus.
Definition OpenBrace : char32 := 0x7b.
Definition OpenBracket : char32 := 0x5b.
Definition OpenParen : char32 := 0x28.
Definition Percent : char32 := 0x25.
Definition Plus : char32 := 0x2b.
Definition Question : char32 := 0x3f.
Definition Semicolon : char32 := 0x3b.
Definition SingleQuote : char32 := 0x27.
Definition Slash : char32 := 0x2f.
Definition Space : char32 := 0x20.
Definition Tab : char32 := 0x09.
Definition Tilde : char32 := 0x7e.
Definition Underscore : char32 := 0x5f.
Definition VerticalTab : char32 := 0x0b.
Definition MaxAsciiCharacter : char32 := 0x7f.
Definition ByteOrderMark : char32 := 0xfeff.
Definition End : char32 := 0xffff.
End Character.
