(* ===== verification/Cstring.v ===== *)
(** * Strings: UTF-8, C strings and the C library functions on them

    A [Glib::ustring] is indexed by code point and stored in UTF-8; [c_str]
    gives the bytes.  [strcmp], [atoi], [isalnum] and the like are modelled as
    the C library defines them in the "C" locale. *)
From S2P Require Import Prelude Character.
Local Open Scope Z_scope.

(** UTF-8 bytes of one code point. *)
Definition utf8_char (c : char32) : list Z :=
  if c <? 0x80 then [c]
  else if c <? 0x800 then
    [Z.lor 0xc0 (Z.shiftr c 6); Z.lor 0x80 (Z.land c 0x3f)]
  else if c <? 0x10000 then
    [Z.lor 0xe0 (Z.shiftr c 12); Z.lor 0x80 (Z.land (Z.shiftr c 6) 0x3f);
     Z.lor 0x80 (Z.land c 0x3f)]
  else
    [Z.lor 0xf0 (Z.shiftr c 18); Z.lor 0x80 (Z.land (Z.shiftr c 12) 0x3f);
     Z.lor 0x80 (Z.land (Z.shiftr c 6) 0x3f); Z.lor 0x80 (Z.land c 0x3f)].

(** The bytes [value.c_str()] points to. *)
Definition raw (value : ustring) : list Z := flat_map utf8_char value.

(** A C string is what precedes the first NUL. *)
Definition c_str {A} (bytes : list A) (is_nul : A → bool) : list A :=
  take_while (λ b, negb (is_nul b)) bytes.
Definition c_string (bytes : list Z) : list Z := c_str bytes (Z.eqb 0).

(** [p[i]] inside a NUL-terminated buffer. *)
Definition byte_at (bytes : list Z) (i : nat) : Z := nth i bytes 0.

(** [strcmp(value + k, literal) == 0]. *)
Definition strcmp_eq (bytes : list Z) (k : nat) (literal : string) : bool :=
  bool_decide (c_string (drop k bytes) = u literal).

Definition is_ascii (c : char32) : bool := (0 <? c) && (c <? 0x80).

Lemma raw_ascii value : forallb is_ascii value = true → raw value = value.
Proof.
  induction value as [|c value IH]; simpl; [done|].
  rewrite andb_true_iff. intros [Hc Hv]. rewrite IH by done.
  unfold is_ascii in Hc. rewrite andb_true_iff in Hc. destruct Hc as [_ Hc].
  unfold utf8_char. by rewrite Hc.
Qed.

Lemma c_string_ascii value : forallb is_ascii value = true → c_string value = value.
Proof.
  unfold c_string, c_str. intros Hv. rewrite <- (app_nil_r value) at 1.
  apply take_while_app; [|by intros ? ? ?].
  induction value as [|c value IH]; cbn [forallb] in *; [done|].
  rewrite andb_true_iff in Hv. destruct Hv as [Hc Hv]. rewrite IH by done.
  unfold is_ascii in Hc. rewrite andb_true_iff, Z.ltb_lt in Hc.
  rewrite andb_true_r. apply negb_true_iff, Z.eqb_neq. lia.
Qed.

Lemma forallb_drop {A} (f : A → bool) k l : forallb f l = true → forallb f (drop k l) = true.
Proof.
  rewrite !forallb_forall. intros H x Hin. apply H.
  rewrite <- (take_drop k l). apply in_or_app. by right.
Qed.

(** ** Character classes of the "C" locale, on [char] values *)
Definition isdigit (c : Z) : bool := (Character._0 <=? c) && (c <=? Character._9).
Definition isupper (c : Z) : bool := (Character.A <=? c) && (c <=? Character.Z).
Definition islower (c : Z) : bool := (Character.a <=? c) && (c <=? Character.z).
Definition isalnum (c : Z) : bool := isdigit c || isupper c || islower c.
Definition isxdigit (c : Z) : bool :=
  isdigit c || ((Character.a <=? c) && (c <=? Character.f))
  || ((Character.A <=? c) && (c <=? Character.F)).
Definition tolower (c : Z) : Z := if isupper c then c + 32 else c.

(** ** [atoi] and [std::to_string] *)
Definition isspace (c : Z) : bool := (c =? 32) || ((9 <=? c) && (c <=? 13)).

Definition digits_value (ds : list Z) : Z :=
  fold_left (λ acc d, acc * 10 + (d - Character._0)) ds 0.

Definition clamp64 (z : Z) : Z :=
  Z.max (-9223372036854775808) (Z.min 9223372036854775807 z).

(** Reduction to a signed [w]-bit integer. *)
Definition to_signed (w z : Z) : Z :=
  let r := z mod 2 ^ w in if r <? 2 ^ (w - 1) then r else r - 2 ^ w.

Fixpoint skip_space (s : list Z) : list Z :=
  match s with
  | c :: s' => if isspace c then skip_space s' else s
  | [] => []
  end.

(** [strtoll (s, NULL, 10)], saturating. *)
Definition strtoll (s : list Z) : Z :=
  match skip_space s with
  | c :: s' =>
      if c =? Character.Minus then clamp64 (- digits_value (take_while isdigit s'))
      else if c =? Character.Plus then clamp64 (digits_value (take_while isdigit s'))
      else clamp64 (digits_value (take_while isdigit (c :: s')))
  | [] => 0
  end.

Definition atoll (s : list Z) : Z := strtoll s.
(** glibc's [atoi]: [(int) strtol (s, NULL, 10)]. *)
Definition atoi (s : list Z) : Z := to_signed 32 (strtoll s).

(** Decimal digits of a natural number; [fuel] bounds their number. *)
Fixpoint decimal_digits (fuel : nat) (n : Z) (acc : list Z) : list Z :=
  match fuel with
  | O => acc
  | S fuel' =>
      let acc' := (Character._0 + n mod 10) :: acc in
      if n <? 10 then acc' else decimal_digits fuel' (n / 10) acc'
  end.

(** [std::to_string] of a 64-bit integer: at most twenty digits. *)
Definition to_string (n : Z) : ustring :=
  if n <? 0 then Character.Minus :: decimal_digits 20 (- n) [] else decimal_digits 20 n [].

Lemma to_signed_small w z :
  0 < w → - 2 ^ (w - 1) <= z < 2 ^ (w - 1) → to_signed w z = z.
Proof.
  intros Hw Hz. unfold to_signed.
  assert (Hp : 2 ^ w = 2 * 2 ^ (w - 1)) by (rewrite <- Z.pow_succ_r by lia; f_equal; lia).
  destruct (Z.ltb_spec (z mod 2 ^ w) (2 ^ (w - 1))) as [Hlt|Hge].
  - destruct (Z.lt_ge_cases z 0).
    + rewrite (Z.mod_eq z (2 ^ w)) in * by lia.
      assert (z / 2 ^ w = -1) by (symmetry; apply Z.div_unique with (r := z + 2 ^ w); lia). lia.
    + apply Z.mod_small. lia.
  - destruct (Z.lt_ge_cases z 0).
    + rewrite (Z.mod_eq z (2 ^ w)) by lia.
      assert (z / 2 ^ w = -1) by (symmetry; apply Z.div_unique with (r := z + 2 ^ w); lia). lia.
    + rewrite Z.mod_small in Hge by lia. lia.
Qed.

Lemma isdigit_digit n : 0 <= n < 10 → isdigit (Character._0 + n) = true.
Proof. unfold isdigit, Character._0, Character._9. rewrite andb_true_iff, !Z.leb_le. lia. Qed.

(** Printing then reading digits. *)
Lemma decimal_digits_spec fuel n acc :
  0 <= n < 10 ^ Z.of_nat fuel → (0 < fuel)%nat →
  forallb isdigit acc = true →
  let ds := decimal_digits fuel n acc in
  forallb isdigit ds = true ∧
  ∀ a, fold_left (λ acc d, acc * 10 + (d - Character._0)) ds a =
    fold_left (λ acc d, acc * 10 + (d - Character._0)) acc (a * 10 ^ (Z.of_nat (length ds - length acc)) + n)
    ∧ (length acc < length ds)%nat.
Proof.
  revert n acc. induction fuel as [|fuel IH]; intros n acc Hn Hf Hacc; [lia|].
  cbn [decimal_digits].
  assert (Hmod : 0 <= n mod 10 < 10) by (apply Z.mod_pos_bound; lia).
  assert (Hacc' : forallb isdigit ((Character._0 + n mod 10) :: acc) = true).
  { simpl. by rewrite isdigit_digit. }
  destruct (Z.ltb_spec n 10) as [Hlt|Hge].
  - cbv zeta. split; [done|]. intros a. simpl.
    replace (S (length acc) - length acc)%nat with 1%nat by lia.
    rewrite (Z.mod_small n 10) by lia. split; [f_equal; lia|lia].
  - assert (Hfuel : (0 < fuel)%nat).
    { destruct fuel; [simpl in Hn; lia|lia]. }
    assert (Hdiv : 0 <= n / 10 < 10 ^ Z.of_nat fuel).
    { split; [apply Z.div_pos; lia|]. apply Z.div_lt_upper_bound; [lia|].
      rewrite <- Z.pow_succ_r by lia. replace (Z.succ (Z.of_nat fuel)) with (Z.of_nat (S fuel)) by lia. lia. }
    destruct (IH (n / 10) _ Hdiv Hfuel Hacc') as [Hd Hv]. split; [done|].
    intros a. destruct (Hv a) as [Hva Hlen]. simpl in Hlen. split; [|lia].
    rewrite Hva. simpl. f_equal.
    set (L := length (decimal_digits _ _ _)) in *.
    replace (Z.of_nat (L - length acc)) with (Z.succ (Z.of_nat (L - S (length acc)))) by lia.
    rewrite Z.pow_succ_r by lia.
    pose proof (Z.div_mod n 10). lia.
Qed.

Lemma forallb_take_while {A} (f : A → bool) l : forallb f l = true → take_while f l = l.
Proof.
  intros H. rewrite <- (app_nil_r l) at 1. apply take_while_app; [done|by intros ? ? ?].
Qed.

Lemma isdigit_not_space c : isdigit c = true → isspace c = false ∧ (c =? Character.Minus) = false ∧ (c =? Character.Plus) = false.
Proof.
  unfold isdigit, isspace, Character._0, Character._9, Character.Minus, Character.Plus.
  rewrite andb_true_iff, orb_false_iff, andb_false_iff, !Z.leb_le, !Z.eqb_neq, !Z.leb_gt. lia.
Qed.

(** [atoi] reads back what [std::to_string] prints, on every [int]. *)
Lemma atoi_to_string n : - 2 ^ 31 <= n < 2 ^ 31 → atoi (to_string n) = n.
Proof.
  intros Hn. unfold atoi.
  enough (strtoll (to_string n) = n) as -> by (apply to_signed_small; lia).
  unfold to_string, strtoll, clamp64.
  destruct (Z.ltb_spec n 0) as [Hneg|Hpos].
  - assert (Hs : skip_space (Character.Minus :: decimal_digits 20 (- n) [])
      = Character.Minus :: decimal_digits 20 (- n) []) by done.
    rewrite Hs, Z.eqb_refl.
    destruct (decimal_digits_spec 20 (- n) []) as [Hd Hv]; [lia|lia|done|].
    rewrite forallb_take_while by done. unfold digits_value.
    destruct (Hv 0) as [-> _]. cbn [fold_left]. rewrite Z.mul_0_l. lia.
  - destruct (decimal_digits_spec 20 n []) as [Hd Hv]; [lia|lia|done|].
    destruct (decimal_digits 20 n []) as [|c ds] eqn:E.
    { destruct (Hv 0) as [_ Hlen]. simpl in Hlen. lia. }
    pose proof Hd as Hd'. cbn [forallb] in Hd'. rewrite andb_true_iff in Hd'. destruct Hd' as [Hc _].
    destruct (isdigit_not_space c Hc) as (H1 & H2 & H3). cbn [skip_space].
    rewrite H1, H2, H3. rewrite forallb_take_while by done. unfold digits_value.
    destruct (Hv 0) as [-> _]. cbn [fold_left]. rewrite Z.mul_0_l. lia.
Qed.
