(* ===== verification/Diagnostic.v ===== *)
(** * Diagnostics ([program/diagnostic.h], [program/diagnostic.cpp],
    [program/graphql/graphql_diagnostics.cpp] and [lib/types.h])

    A template of the class [D] is a constructor.  A [DiagnosticMessage] keeps
    the template, the arguments it was created with and the location; its text
    is [message], computed from them by [boost::regex_replace], which is not
    part of the repository and hence a parameter. *)
From S2P Require Import Prelude.

(** The templates, in the order of the generated file. *)
Inductive D :=
  | A_schema_definition_can_only_contain_query_mutation_and_subscription_fields
  | Cannot_add_an_output_type_to_an_input_location
  | Cannot_add_an_input_type_to_an_output_location
  | Cannot_annotate_with_a_type_that_recursively_references_the_directive_0
  | Cannot_select_fields_on_a_scalar_field_0
  | Directive_cannot_reference_itself
  | Duplicate_argument_0
  | Duplicate_field_0
  | Duplicate_fragment_0
  | Duplicate_type_0
  | Expected_0_but_got_1
  | Expected_0_but_instead_reached_the_end_of_document
  | Expected_at_least_a_field_inline_fragment_or_fragment_spread
  | Expected_directive_location_but_instead_reached_the_end_of_document
  | Expected_directive_location
  | Expected_enum_value_but_instead_got_0
  | Expected_field_definition
  | Expected_field_inline_fragment_or_fragment_spread
  | Expected_fragment_spread_or_inline_fragment
  | Expected_name_of_argument
  | Expected_name_of_interface
  | Expected_name_of_object
  | Expected_name_but_instead_got_0
  | Expected_object_field_name
  | Expected_operation_definition_or_fragment_definition
  | Expected_type_annotation_instead_got_0
  | Expected_type_definition
  | Expected_type_name_instead_got_0
  | Expected_value_instead_got_0
  | Field_0_does_not_exist_on_type_1
  | Fragment_0_is_not_defined
  | Interface_0_is_not_defined
  | Invalid_Unicode_escape_sequence
  | Missing_required_argument_0
  | Missing_required_field_0
  | Mutations_are_not_supported
  | No_query_root_operation_type_defined
  | Only_objects_are_allowed_as_members_in_a_union
  | Subscriptions_are_not_supported
  | The_directive_0_does_not_support_the_location_1
  | The_field_0_in_interface_1_is_not_implemented
  | The_object_0_does_not_implement_the_interface_1
  | The_object_0_does_not_match_the_object_1
  | The_type_0_is_not_an_object
  | The_type_0_is_not_member_of_the_union_1
  | The_value_0_is_not_assignable_to_type_1
  | Type_0_does_not_match_type_1_from_the_interface_2
  | Type_0_is_not_assignable_to_type_1
  | Type_0_is_not_defined
  | Type_conditions_are_only_applicable_inside_object_interfaces_and_unions
  | Undefined_directive_0
  | Undefined_enum_value_0
  | Unexpected_end_of_implementations
  | Unknown_argument_0
  | Unterminated_string_value.

(** Position of an enumerator in its declaration, which is its value. *)
Definition D_index (x : D) : nat :=
  match x with
  | A_schema_definition_can_only_contain_query_mutation_and_subscription_fields => 0
  | Cannot_add_an_output_type_to_an_input_location => 1
  | Cannot_add_an_input_type_to_an_output_location => 2
  | Cannot_annotate_with_a_type_that_recursively_references_the_directive_0 => 3
  | Cannot_select_fields_on_a_scalar_field_0 => 4
  | Directive_cannot_reference_itself => 5
  | Duplicate_argument_0 => 6
  | Duplicate_field_0 => 7
  | Duplicate_fragment_0 => 8
  | Duplicate_type_0 => 9
  | Expected_0_but_got_1 => 10
  | Expected_0_but_instead_reached_the_end_of_document => 11
  | Expected_at_least_a_field_inline_fragment_or_fragment_spread => 12
  | Expected_directive_location_but_instead_reached_the_end_of_document => 13
  | Expected_directive_location => 14
  | Expected_enum_value_but_instead_got_0 => 15
  | Expected_field_definition => 16
  | Expected_field_inline_fragment_or_fragment_spread => 17
  | Expected_fragment_spread_or_inline_fragment => 18
  | Expected_name_of_argument => 19
  | Expected_name_of_interface => 20
  | Expected_name_of_object => 21
  | Expected_name_but_instead_got_0 => 22
  | Expected_object_field_name => 23
  | Expected_operation_definition_or_fragment_definition => 24
  | Expected_type_annotation_instead_got_0 => 25
  | Expected_type_definition => 26
  | Expected_type_name_instead_got_0 => 27
  | Expected_value_instead_got_0 => 28
  | Field_0_does_not_exist_on_type_1 => 29
  | Fragment_0_is_not_defined => 30
  | Interface_0_is_not_defined => 31
  | Invalid_Unicode_escape_sequence => 32
  | Missing_required_argument_0 => 33
  | Missing_required_field_0 => 34
  | Mutations_are_not_supported => 35
  | No_query_root_operation_type_defined => 36
  | Only_objects_are_allowed_as_members_in_a_union => 37
  | Subscriptions_are_not_supported => 38
  | The_directive_0_does_not_support_the_location_1 => 39
  | The_field_0_in_interface_1_is_not_implemented => 40
  | The_object_0_does_not_implement_the_interface_1 => 41
  | The_object_0_does_not_match_the_object_1 => 42
  | The_type_0_is_not_an_object => 43
  | The_type_0_is_not_member_of_the_union_1 => 44
  | The_value_0_is_not_assignable_to_type_1 => 45
  | Type_0_does_not_match_type_1_from_the_interface_2 => 46
  | Type_0_is_not_assignable_to_type_1 => 47
  | Type_0_is_not_defined => 48
  | Type_conditions_are_only_applicable_inside_object_interfaces_and_unions => 49
  | Undefined_directive_0 => 50
  | Undefined_enum_value_0 => 51
  | Unexpected_end_of_implementations => 52
  | Unknown_argument_0 => 53
  | Unterminated_string_value => 54
  end.

Definition D_all : list D :=
  [A_schema_definition_can_only_contain_query_mutation_and_subscription_fields;
      Cannot_add_an_output_type_to_an_input_location;
      Cannot_add_an_input_type_to_an_output_location;
      Cannot_annotate_with_a_type_that_recursively_references_the_directive_0;
      Cannot_select_fields_on_a_scalar_field_0; Directive_cannot_reference_itself;
      Duplicate_argument_0; Duplicate_field_0; Duplicate_fragment_0; Duplicate_type_0;
      Expected_0_but_got_1; Expected_0_but_instead_reached_the_end_of_document;
      Expected_at_least_a_field_inline_fragment_or_fragment_spread;
      Expected_directive_location_but_instead_reached_the_end_of_document;
      Expected_directive_location; Expected_enum_value_but_instead_got_0;
      Expected_field_definition; Expected_field_inline_fragment_or_fragment_spread;
      Expected_fragment_spread_or_inline_fragment; Expected_name_of_argument;
      Expected_name_of_interface; Expected_name_of_object; Expected_name_but_instead_got_0;
      Expected_object_field_name; Expected_operation_definition_or_fragment_definition;
      Expected_type_annotation_instead_got_0; Expected_type_definition;
      Expected_type_name_instead_got_0; Expected_value_instead_got_0;
      Field_0_does_not_exist_on_type_1; Fragment_0_is_not_defined; Interface_0_is_not_defined;
      Invalid_Unicode_escape_sequence; Missing_required_argument_0; Missing_required_field_0;
      Mutations_are_not_supported; No_query_root_operation_type_defined;
      Only_objects_are_allowed_as_members_in_a_union; Subscriptions_are_not_supported;
      The_directive_0_does_not_support_the_location_1;
      The_field_0_in_interface_1_is_not_implemented;
      The_object_0_does_not_implement_the_interface_1; The_object_0_does_not_match_the_object_1;
      The_type_0_is_not_an_object; The_type_0_is_not_member_of_the_union_1;
      The_value_0_is_not_assignable_to_type_1; Type_0_does_not_match_type_1_from_the_interface_2;
      Type_0_is_not_assignable_to_type_1; Type_0_is_not_defined;
      Type_conditions_are_only_applicable_inside_object_interfaces_and_unions;
      Undefined_directive_0; Undefined_enum_value_0; Unexpected_end_of_implementations;
      Unknown_argument_0; Unterminated_string_value].

Lemma D_all_index x : D_all !! D_index x = Some x.
Proof. by destruct x. Qed.

#[export] Instance D_eq_dec : EqDecision D.
Proof.
  refine (λ x y, cast_if (decide (D_index x = D_index y))).
  - pose proof (D_all_index x). pose proof (D_all_index y). congruence.
  - congruence.
Defined.

Definition message_template (d : D) : ustring :=
  match d with
  | A_schema_definition_can_only_contain_query_mutation_and_subscription_fields =>
      u "A schema definition can only contain 'query', 'mutation' and 'subscription' fields."
  | Cannot_add_an_output_type_to_an_input_location =>
      u "Cannot add an (output) type to an input location."
  | Cannot_add_an_input_type_to_an_output_location =>
      u "Cannot add an input type to an output location."
  | Cannot_annotate_with_a_type_that_recursively_references_the_directive_0 =>
      u "Cannot annotate with a type that recursively references the directive '{0}'."
  | Cannot_select_fields_on_a_scalar_field_0 =>
      u "Cannot select fields on a scalar field '{0}'."
  | Directive_cannot_reference_itself =>
      u "Directive cannot reference itself."
  | Duplicate_argument_0 =>
      u "Duplicate argument '{0}'."
  | Duplicate_field_0 =>
      u "Duplicate field '{0}'."
  | Duplicate_fragment_0 =>
      u "Duplicate fragment '{0}'."
  | Duplicate_type_0 =>
      u "Duplicate type '{0}'."
  | Expected_0_but_got_1 =>
      u "Expected '{0}', but got '{1}'."
  | Expected_0_but_instead_reached_the_end_of_document =>
      u "Expected '{0}', but instead reached the end of document."
  | Expected_at_least_a_field_inline_fragment_or_fragment_spread =>
      u "Expected at least a field, inline fragment or fragment spread."
  | Expected_directive_location_but_instead_reached_the_end_of_document =>
      u "Expected directive location, but instead reached the end of document."
  | Expected_directive_location =>
      u "Expected directive location."
  | Expected_enum_value_but_instead_got_0 =>
      u "Expected enum value, but instead got '{0}'."
  | Expected_field_definition =>
      u "Expected field definition."
  | Expected_field_inline_fragment_or_fragment_spread =>
      u "Expected field, inline fragment or fragment spread."
  | Expected_fragment_spread_or_inline_fragment =>
      u "Expected fragment spread or inline fragment."
  | Expected_name_of_argument =>
      u "Expected name of argument."
  | Expected_name_of_interface =>
      u "Expected name of interface."
  | Expected_name_of_object =>
      u "Expected name of object"
  | Expected_name_but_instead_got_0 =>
      u "Expected name, but instead got '{0}'."
  | Expected_object_field_name =>
      u "Expected object field name."
  | Expected_operation_definition_or_fragment_definition =>
      u "Expected operation definition or fragment definition."
  | Expected_type_annotation_instead_got_0 =>
      u "Expected type annotation, instead got '{0}'."
  | Expected_type_definition =>
      u "Expected type definition."
  | Expected_type_name_instead_got_0 =>
      u "Expected type name, instead got '{0}'."
  | Expected_value_instead_got_0 =>
      u "Expected value, instead got '{0}'."
  | Field_0_does_not_exist_on_type_1 =>
      u "Field '{0}' does not exist on type '{1}'."
  | Fragment_0_is_not_defined =>
      u "Fragment '{0}' is not defined."
  | Interface_0_is_not_defined =>
      u "Interface '{0}' is not defined."
  | Invalid_Unicode_escape_sequence =>
      u "Invalid Unicode escape sequence."
  | Missing_required_argument_0 =>
      u "Missing required argument '{0}'."
  | Missing_required_field_0 =>
      u "Missing required field '{0}'."
  | Mutations_are_not_supported =>
      u "Mutations are not supported."
  | No_query_root_operation_type_defined =>
      u "No query root operation type defined."
  | Only_objects_are_allowed_as_members_in_a_union =>
      u "Only objects are allowed as members in a union."
  | Subscriptions_are_not_supported =>
      u "Subscriptions are not supported."
  | The_directive_0_does_not_support_the_location_1 =>
      u "The directive '{0}' does not support the location '{1}'."
  | The_field_0_in_interface_1_is_not_implemented =>
      u "The field '{0}' in interface '{1}' is not implemented."
  | The_object_0_does_not_implement_the_interface_1 =>
      u "The object '{0}' does not implement the interface '{1}'."
  | The_object_0_does_not_match_the_object_1 =>
      u "The object '{0}' does not match the object '{1}'."
  | The_type_0_is_not_an_object =>
      u "The type '{0}' is not an object."
  | The_type_0_is_not_member_of_the_union_1 =>
      u "The type '{0}' is not member of the union '{1}'."
  | The_value_0_is_not_assignable_to_type_1 =>
      u "The value '{0}' is not assignable to type '{1}'."
  | Type_0_does_not_match_type_1_from_the_interface_2 =>
      u "Type '{0}' does not match type '{1}' from the interface '{2}'."
  | Type_0_is_not_assignable_to_type_1 =>
      u "Type '{0}' is not assignable to type '{1}'."
  | Type_0_is_not_defined =>
      u "Type '{0}' is not defined."
  | Type_conditions_are_only_applicable_inside_object_interfaces_and_unions =>
      u "Type conditions are only applicable inside object, interfaces and unions."
  | Undefined_directive_0 =>
      u "Undefined directive '{0}'."
  | Undefined_enum_value_0 =>
      u "Undefined enum value '{0}'."
  | Unexpected_end_of_implementations =>
      u "Unexpected end of implementations."
  | Unknown_argument_0 =>
      u "Unknown argument '{0}'."
  | Unterminated_string_value =>
      u "Unterminated string value."
  end.

Lemma message_template_inj d d' : message_template d = message_template d' → d = d'.
Proof.
  intros E.
  assert (Hd : ∀ x, list_find (λ d, message_template d = message_template x) D_all = Some (D_index
      x, x)).
  { intros x. destruct x; vm_compute; reflexivity. }
  pose proof (Hd d) as H1. rewrite E, (Hd d') in H1. congruence.
Qed.

(** [struct Location]. *)
Record Location := mkLocation {
  loc_line : nat;
  loc_column : nat;
  loc_length : nat;
  end_of_source : bool
}.

#[export] Instance Location_eq_dec : EqDecision Location.
Proof. solve_decision. Defined.

(** [struct DiagnosticMessage]. *)
Record DiagnosticMessage := mkDiagnosticMessage {
  _template : D;
  arguments : list ustring;
  location : Location
}.

#[export] Instance DiagnosticMessage_eq_dec : EqDecision DiagnosticMessage.
Proof. solve_decision. Defined.

(** [create_diagnostic], all four overloads: one argument list. *)
Definition create_diagnostic (location : Location) (d : D) (args : list ustring) :
    DiagnosticMessage :=
  mkDiagnosticMessage d args location.

Section message.
(** [boost::regex_replace(text, boost::regex(pattern), replacement)]. *)
Variable regex_replace : ustring → ustring → ustring → ustring.

(** The patterns [\{0\}], [\{1\}] and [\{2\}], replaced one after the other. *)
Fixpoint replace_placeholders (i : Z) (text : ustring) (args : list ustring) : ustring :=
  match args with
  | [] => text
  | arg :: args' =>
      replace_placeholders (i + 1)%Z
        (regex_replace text (u "\{" ++ [48 + i]%Z ++ u "\}") arg) args'
  end.

(** [DiagnosticMessage::message]. *)
Definition message (m : DiagnosticMessage) : ustring :=
  replace_placeholders 0 (message_template (_template m)) (arguments m).
End message.
