(* ===== verification/Syntaxes.v ===== *)
(** * The syntax tree ([program/graphql/graphql_syntaxes.h])

    Nodes that the program mutates after sharing them, or reaches through
    more than one pointer (types, declarations, schema definitions), live in
    a heap and are named by a [ptr]; a node that is complete before the first
    pointer to it is stored (names, values, arguments, directives, field and
    argument definitions) is kept by value.  A null pointer is [None].

    Nodes are allocated in the memory pool, whose pages come from [malloc] and
    are never cleared by the program.  The members a constructor leaves
    unset are modelled as the zero-filled memory of a fresh pool: null
    pointers, false, the first enumerator. *)
From S2P Require Import Prelude Diagnostic StdMap.

Definition ptr := nat.

(** [enum class SyntaxKind] *)
Inductive SyntaxKind :=
  | S_None
  | S_Argument
  | S_Arguments
  | S_ArgumentsDefinition
  | S_Directive
  | S_DirectiveDefinition
  | S_EnumTypeDefinition
  | S_FieldsDefinition
  | S_FieldDefinition
  | S_FragmentDefinition
  | S_FragmentSpread
  | S_InlineFragment
  | S_InputFieldsDefinition
  | S_InputFieldDefinition
  | S_InputValueDefinition
  | S_InputObject
  | S_Interface
  | S_Implementations
  | S_Name
  | S_Field
  | S_Object
  | S_OperationDefinition
  | S_QueryDocument
  | S_Schema
  | S_SchemaDocument
  | S_SelectionSet
  | S_Type
  | S_Union
  | S_VariableDefinition
  | S_VariableDefinitions
  | S_NullValue
  | S_BooleanValue
  | S_IntValue
  | S_FloatValue
  | S_EnumValue
  | S_StringValue
  | S_ObjectField
  | S_ObjectValue
  | S_ListValue.

(** Position of an enumerator in its declaration, which is its value. *)
Definition SyntaxKind_index (x : SyntaxKind) : nat :=
  match x with
  | S_None => 0
  | S_Argument => 1
  | S_Arguments => 2
  | S_ArgumentsDefinition => 3
  | S_Directive => 4
  | S_DirectiveDefinition => 5
  | S_EnumTypeDefinition => 6
  | S_FieldsDefinition => 7
  | S_FieldDefinition => 8
  | S_FragmentDefinition => 9
  | S_FragmentSpread => 10
  | S_InlineFragment => 11
  | S_InputFieldsDefinition => 12
  | S_InputFieldDefinition => 13
  | S_InputValueDefinition => 14
  | S_InputObject => 15
  | S_Interface => 16
  | S_Implementations => 17
  | S_Name => 18
  | S_Field => 19
  | S_Object => 20
  | S_OperationDefinition => 21
  | S_QueryDocument => 22
  | S_Schema => 23
  | S_SchemaDocument => 24
  | S_SelectionSet => 25
  | S_Type => 26
  | S_Union => 27
  | S_VariableDefinition => 28
  | S_VariableDefinitions => 29
  | S_NullValue => 30
  | S_BooleanValue => 31
  | S_IntValue => 32
  | S_FloatValue => 33
  | S_EnumValue => 34
  | S_StringValue => 35
  | S_ObjectField => 36
  | S_ObjectValue => 37
  | S_ListValue => 38
  end.

Definition SyntaxKind_all : list SyntaxKind :=
  [S_None; S_Argument; S_Arguments; S_ArgumentsDefinition; S_Directive; S_DirectiveDefinition;
      S_EnumTypeDefinition; S_FieldsDefinition; S_FieldDefinition; S_FragmentDefinition;
      S_FragmentSpread; S_InlineFragment; S_InputFieldsDefinition; S_InputFieldDefinition;
      S_InputValueDefinition; S_InputObject; S_Interface; S_Implementations; S_Name; S_Field;
      S_Object; S_OperationDefinition; S_QueryDocument; S_Schema; S_SchemaDocument; S_SelectionSet;
      S_Type; S_Union; S_VariableDefinition; S_VariableDefinitions; S_NullValue; S_BooleanValue;
      S_IntValue; S_FloatValue; S_EnumValue; S_StringValue; S_ObjectField; S_ObjectValue;
      S_ListValue].

Lemma SyntaxKind_all_index x : SyntaxKind_all !! SyntaxKind_index x = Some x.
Proof. by destruct x. Qed.

#[export] Instance SyntaxKind_eq_dec : EqDecision SyntaxKind.
Proof.
  refine (λ x y, cast_if (decide (SyntaxKind_index x = SyntaxKind_index y))).
  - pose proof (SyntaxKind_all_index x). pose proof (SyntaxKind_all_index y). congruence.
  - congruence.
Defined.

(** The combined enumerators. *)
Definition SyntaxKind_value (k : SyntaxKind) : Z := Z.of_nat (SyntaxKind_index k).
Definition S_InputTypeWithDirectives : Z :=
  Z.lor (SyntaxKind_value S_InputObject) (SyntaxKind_value S_EnumTypeDefinition).
Definition S_InputType : Z :=
  Z.lor (SyntaxKind_value S_InputObject) (SyntaxKind_value S_EnumTypeDefinition).

(** [enum class DirectiveLocation] *)
Module DirectiveLocation.
Inductive t :=
  | Unknown
  | EndOfDocument
  | EXECUTABLE_DIRECTIVE_LOCATION_START
  | QUERY
  | MUTATION
  | SUBSCRIPTION
  | FIELD
  | FRAGMENT_DEFINITION
  | FRAGMENT_SPREAD
  | INLINE_FRAGMENT
  | EXECUTABLE_DIRECTIVE_LOCATION_START_END
  | TYPE_SYSTEM_DIRECTIVE_LOCATION_START
  | SCHEMA
  | SCALAR
  | OBJECT
  | FIELD_DEFINITION
  | ARGUMENT_DEFINITION
  | INTERFACE
  | UNION
  | ENUM
  | ENUM_VALUE
  | INPUT_OBJECT
  | INPUT_FIELD_DEFINITION
  | TYPE_SYSTEM_DIRECTIVE_LOCATION_END.

(** Position of an enumerator in its declaration, which is its value. *)
Definition index (x : t) : nat :=
  match x with
  | Unknown => 0
  | EndOfDocument => 1
  | EXECUTABLE_DIRECTIVE_LOCATION_START => 2
  | QUERY => 3
  | MUTATION => 4
  | SUBSCRIPTION => 5
  | FIELD => 6
  | FRAGMENT_DEFINITION => 7
  | FRAGMENT_SPREAD => 8
  | INLINE_FRAGMENT => 9
  | EXECUTABLE_DIRECTIVE_LOCATION_START_END => 10
  | TYPE_SYSTEM_DIRECTIVE_LOCATION_START => 11
  | SCHEMA => 12
  | SCALAR => 13
  | OBJECT => 14
  | FIELD_DEFINITION => 15
  | ARGUMENT_DEFINITION => 16
  | INTERFACE => 17
  | UNION => 18
  | ENUM => 19
  | ENUM_VALUE => 20
  | INPUT_OBJECT => 21
  | INPUT_FIELD_DEFINITION => 22
  | TYPE_SYSTEM_DIRECTIVE_LOCATION_END => 23
  end.

Definition all : list t :=
  [Unknown; EndOfDocument; EXECUTABLE_DIRECTIVE_LOCATION_START; QUERY; MUTATION; SUBSCRIPTION;
      FIELD; FRAGMENT_DEFINITION; FRAGMENT_SPREAD; INLINE_FRAGMENT;
      EXECUTABLE_DIRECTIVE_LOCATION_START_END; TYPE_SYSTEM_DIRECTIVE_LOCATION_START; SCHEMA;
      SCALAR; OBJECT; FIELD_DEFINITION; ARGUMENT_DEFINITION; INTERFACE; UNION; ENUM; ENUM_VALUE;
      INPUT_OBJECT; INPUT_FIELD_DEFINITION; TYPE_SYSTEM_DIRECTIVE_LOCATION_END].

Lemma DirectiveLocation_all_index x : all !! index x = Some x.
Proof. by destruct x. Qed.

#[global] Instance eq_dec : EqDecision t.
Proof.
  refine (λ x y, cast_if (decide (index x = index y))).
  - pose proof (DirectiveLocation_all_index x). pose proof (DirectiveLocation_all_index y). congruence.
  - congruence.
Defined.

End DirectiveLocation.

(** [directiveLocationToString]; [None] where [at] throws. *)
Definition directiveLocationToString (l : DirectiveLocation.t) : option ustring :=
  match l with
  | DirectiveLocation.QUERY => Some (u "QUERY")
  | DirectiveLocation.MUTATION => Some (u "MUTATION")
  | DirectiveLocation.SUBSCRIPTION => Some (u "SUBSCRIPTION")
  | DirectiveLocation.FIELD => Some (u "FIELD")
  | DirectiveLocation.FRAGMENT_DEFINITION => Some (u "FRAGMENT_DEFINITION")
  | DirectiveLocation.FRAGMENT_SPREAD => Some (u "FRAGMENT_SPREAD")
  | DirectiveLocation.INLINE_FRAGMENT => Some (u "INLINE_FRAGMENT")
  | DirectiveLocation.SCHEMA => Some (u "SCHEMA")
  | DirectiveLocation.SCALAR => Some (u "SCALAR")
  | DirectiveLocation.OBJECT => Some (u "OBJECT")
  | DirectiveLocation.FIELD_DEFINITION => Some (u "FIELD_DEFINITION")
  | DirectiveLocation.ARGUMENT_DEFINITION => Some (u "ARGUMENT_DEFINITION")
  | DirectiveLocation.INTERFACE => Some (u "INTERFACE")
  | DirectiveLocation.UNION => Some (u "UNION")
  | DirectiveLocation.ENUM => Some (u "ENUM")
  | DirectiveLocation.ENUM_VALUE => Some (u "ENUM_VALUE")
  | DirectiveLocation.INPUT_OBJECT => Some (u "INPUT_OBJECT")
  | DirectiveLocation.INPUT_FIELD_DEFINITION => Some (u "INPUT_FIELD_DEFINITION")
  | _ => None
  end.

(** [enum class TypeEnum]: the single bits; the unions are masks below. *)
Inductive TypeEnum :=
  | T_None
  | T_Int
  | T_String
  | T_Float
  | T_Boolean
  | T_ID
  | T_Enum
  | T_Object
  | T_Interface
  | T_Union.

#[export] Instance TypeEnum_eq_dec : EqDecision TypeEnum.
Proof. solve_decision. Defined.

Definition TypeEnum_value (t : TypeEnum) : Z :=
  match t with
  | T_None => 0
  | T_Int => Z.shiftl 1 1
  | T_String => Z.shiftl 1 2
  | T_Float => Z.shiftl 1 3
  | T_Boolean => Z.shiftl 1 4
  | T_ID => Z.shiftl 1 5
  | T_Enum => Z.shiftl 1 6
  | T_Object => Z.shiftl 1 7
  | T_Interface => Z.shiftl 1 8
  | T_Union => Z.shiftl 1 9
  end%Z.

Definition T_StringType : Z := Z.lor (TypeEnum_value T_String) (TypeEnum_value T_ID).
Definition T_IntegerType : Z := Z.lor (TypeEnum_value T_Int) (TypeEnum_value T_ID).
Definition T_ScalarType : Z :=
  Z.lor (Z.lor (Z.lor (Z.lor (TypeEnum_value T_Int) (TypeEnum_value T_String)) (TypeEnum_value T_Float))
    (TypeEnum_value T_Boolean)) (TypeEnum_value T_ID).
Definition T_ObjectType : Z :=
  Z.lor (Z.lor (TypeEnum_value T_Object) (TypeEnum_value T_Union)) (TypeEnum_value T_Interface).
Definition T_SymbolicType : Z := Z.lor (TypeEnum_value T_Enum) (TypeEnum_value T_Object).

(** [(t & mask) != T_None]. *)
Definition type_in (t : TypeEnum) (mask : Z) : bool :=
  negb (Z.land (TypeEnum_value t) mask =? 0)%Z.

(** [enum class TypeModifier], the type of [Type::modifiers], which is never assigned or
    read: [NonNull] is no bit, as zero is shifted, and [NonNullList] is [List]. *)
Definition TypeModifier_NonNull : Z := Z.shiftl 0 1.
Definition TypeModifier_List : Z := Z.shiftl 1 1.
Definition TypeModifier_NonNullList : Z := Z.lor TypeModifier_NonNull TypeModifier_List.

Example non_null_list_is_list : TypeModifier_NonNullList = TypeModifier_List.
Proof. reflexivity. Qed.

(** [enum class SymbolKind]: the single bits, and the masks. *)
Inductive SymbolKind :=
  | SL_None
  | SL_InputObject
  | SL_Object
  | SL_Interface
  | SL_Enum
  | SL_Union.

#[export] Instance SymbolKind_eq_dec : EqDecision SymbolKind.
Proof. solve_decision. Defined.

Definition SymbolKind_value (k : SymbolKind) : Z :=
  match k with
  | SL_None => 0
  | SL_InputObject => Z.shiftl 1 1
  | SL_Object => Z.shiftl 1 2
  | SL_Interface => Z.shiftl 1 3
  | SL_Enum => Z.shiftl 1 4
  | SL_Union => Z.shiftl 1 5
  end%Z.

Definition SymbolKind_Input : Z :=
  Z.lor (SymbolKind_value SL_Enum) (SymbolKind_value SL_InputObject).
Definition SymbolKind_Output : Z :=
  Z.lor (Z.lor (Z.lor (SymbolKind_value SL_Object) (SymbolKind_value SL_Interface))
    (SymbolKind_value SL_Enum)) (SymbolKind_value SL_Union).

(** [(k & mask) > SL_None]. *)
Definition symbol_in (k : SymbolKind) (mask : Z) : bool :=
  (0 <? Z.land (SymbolKind_value k) mask)%Z.

(** [struct Syntax]; the constructors take [unsigned int] positions. *)
Record Syntax := mkSyntax {
  kind : SyntaxKind;
  start : nat;
  end_ : nat
}.

Definition new_Syntax (k : SyntaxKind) (start_ end_of : nat) : Syntax :=
  mkSyntax k (u32 start_) (u32 end_of).

Definition set_start (v : nat) (x : Syntax) : Syntax := mkSyntax (kind x) v (end_ x).
Definition set_end (v : nat) (x : Syntax) : Syntax := mkSyntax (kind x) (start x) v.

(** [struct Name]; [description] is never assigned. *)
Record Name := mkName {
  name_syntax : Syntax;
  identifier : ustring
}.

(** ** Values *)

(** [struct Value] and its derived classes.  The [double] of a [FloatValue],
    [atof] of the token's text, is read nowhere and left out. *)
Inductive Value :=
  | NullValue (s : Syntax)
  | FloatValue (s : Syntax) (string : ustring)
  | IntValue (s : Syntax) (value : Z)
  | StringValue (s : Syntax) (value : ustring)
  | BooleanValue (s : Syntax) (value : bool)
  | EnumValue (s : Syntax) (value : ustring)
  | ObjectValue (s : Syntax) (object_fields : list ObjectField)
  | ListValue (s : Syntax) (values : list Value)
with ObjectField :=
  | mkObjectField (s : Syntax) (name : Name) (value : option Value).

Definition value_syntax (v : Value) : Syntax :=
  match v with
  | NullValue s | FloatValue s _ | IntValue s _ | StringValue s _ | BooleanValue s _
  | EnumValue s _ | ObjectValue s _ | ListValue s _ => s
  end.

Definition field_syntax (f : ObjectField) : Syntax := let 'mkObjectField s _ _ := f in s.
Definition field_name (f : ObjectField) : Name := let 'mkObjectField _ n _ := f in n.
Definition field_value (f : ObjectField) : option Value := let 'mkObjectField _ _ v := f in v.

(** ** Arguments and directives *)

(** [struct Argument] and [struct Directive].  The directives of an argument
    are parsed by the executor only; [arguments] of a directive points to a map
    that is set before the directive is stored. *)
Inductive Argument :=
  | mkArgument (argument_syntax_ : Syntax) (argument_name_ : Name) (argument_value_ : option Value)
      (argument_directives_ : list (ustring * Directive))
with Directive :=
  | mkDirective (directive_syntax_ : Syntax) (directive_name_ : Name)
      (directive_arguments_ : list (ustring * Argument)) (directive_parent_ : option ptr)
      (directive_location_ : DirectiveLocation.t).

Definition argument_syntax (a : Argument) : Syntax := let 'mkArgument s _ _ _ := a in s.
Definition argument_name (a : Argument) : Name := let 'mkArgument _ n _ _ := a in n.
Definition argument_value (a : Argument) : option Value := let 'mkArgument _ _ v _ := a in v.
Definition argument_directives (a : Argument) : std_map ustring Directive :=
  let 'mkArgument _ _ _ d := a in d.

Definition directive_syntax (d : Directive) : Syntax := let 'mkDirective s _ _ _ _ := d in s.
Definition directive_name (d : Directive) : Name := let 'mkDirective _ n _ _ _ := d in n.
Definition directive_arguments (d : Directive) : std_map ustring Argument :=
  let 'mkDirective _ _ a _ _ := d in a.
Definition directive_parent (d : Directive) : option ptr := let 'mkDirective _ _ _ p _ := d in p.
Definition directive_location (d : Directive) : DirectiveLocation.t :=
  let 'mkDirective _ _ _ _ l := d in l.

(** ** Definitions inside declarations *)

(** [struct InputValueDefinition]; [default_value] is never assigned. *)
Record InputValueDefinition := mkInputValueDefinition {
  ivd_syntax : Syntax;
  ivd_name : Name;
  ivd_description : ustring;
  ivd_type : option ptr;
  ivd_directives : std_map ustring Directive
}.

(** [struct FieldDefinition]. *)
Record FieldDefinition := mkFieldDefinition {
  fd_syntax : Syntax;
  fd_name : Name;
  fd_description : ustring;
  fd_type : ptr;
  fd_arguments : std_map ustring InputValueDefinition;
  fd_directives : std_map ustring Directive
}.

(** [struct InputFieldDefinition]. *)
Record InputFieldDefinition := mkInputFieldDefinition {
  ifd_syntax : Syntax;
  ifd_name : Name;
  ifd_type : ptr;
  ifd_directives : std_map ustring Directive
}.

(** [struct EnumValueDefinition]. *)
Record EnumValueDefinition := mkEnumValueDefinition {
  evd_name : Name;
  evd_description : ustring;
  evd_directives : std_map ustring Directive
}.

(** [struct Implementations]. *)
Record Implementations := mkImplementations {
  implementations_syntax : Syntax;
  implementations : std_map ustring Name
}.

(** ** Heap nodes *)

(** [struct Type]; [modifiers] is never read or written. *)
Record Type_ := mkType {
  type_syntax : Syntax;
  type : TypeEnum;
  is_non_null : bool;
  is_list_type : bool;
  is_non_null_list : bool;
  in_input_location : bool;
  type_name : option Name;
  type_parent : option ptr
}.

Definition set_type_syntax (v : Syntax) (x : Type_) : Type_ :=
  mkType v (type x) (is_non_null x) (is_list_type x) (is_non_null_list x) (in_input_location x)
      (type_name x) (type_parent x).
Definition set_type (v : TypeEnum) (x : Type_) : Type_ :=
  mkType (type_syntax x) v (is_non_null x) (is_list_type x) (is_non_null_list x) (in_input_location
      x) (type_name x) (type_parent x).
Definition set_is_non_null (v : bool) (x : Type_) : Type_ :=
  mkType (type_syntax x) (type x) v (is_list_type x) (is_non_null_list x) (in_input_location x)
      (type_name x) (type_parent x).
Definition set_is_list_type (v : bool) (x : Type_) : Type_ :=
  mkType (type_syntax x) (type x) (is_non_null x) v (is_non_null_list x) (in_input_location x)
      (type_name x) (type_parent x).
Definition set_is_non_null_list (v : bool) (x : Type_) : Type_ :=
  mkType (type_syntax x) (type x) (is_non_null x) (is_list_type x) v (in_input_location x)
      (type_name x) (type_parent x).
Definition set_in_input_location (v : bool) (x : Type_) : Type_ :=
  mkType (type_syntax x) (type x) (is_non_null x) (is_list_type x) (is_non_null_list x) v
      (type_name x) (type_parent x).
Definition set_type_name (v : option Name) (x : Type_) : Type_ :=
  mkType (type_syntax x) (type x) (is_non_null x) (is_list_type x) (is_non_null_list x)
      (in_input_location x) v (type_parent x).
Definition set_type_parent (v : option ptr) (x : Type_) : Type_ :=
  mkType (type_syntax x) (type x) (is_non_null x) (is_list_type x) (is_non_null_list x)
      (in_input_location x) (type_name x) v.

(** The members of [struct ObjectLike] and [struct Object]; an [Interface] has no
    [implementations]. *)
Record ObjectLike := mkObjectLike {
  fields : option (std_map ustring FieldDefinition);
  ol_directives : std_map ustring Directive;
  object_implementations : option Implementations
}.

Definition set_fields (v : option (std_map ustring FieldDefinition)) (x : ObjectLike) : ObjectLike
    :=
  mkObjectLike v (ol_directives x) (object_implementations x).
Definition set_ol_directives (v : std_map ustring Directive) (x : ObjectLike) : ObjectLike :=
  mkObjectLike (fields x) v (object_implementations x).
Definition set_object_implementations (v : option Implementations) (x : ObjectLike) : ObjectLike :=
  mkObjectLike (fields x) (ol_directives x) v.

(** [struct InputObject]. *)
Record InputObject := mkInputObject {
  io_directives : std_map ustring Directive;
  io_fields : option (std_map ustring InputFieldDefinition);
  required_fields : list ustring
}.

Definition set_io_directives (v : std_map ustring Directive) (x : InputObject) : InputObject :=
  mkInputObject v (io_fields x) (required_fields x).
Definition set_io_fields (v : option (std_map ustring InputFieldDefinition)) (x : InputObject) :
    InputObject :=
  mkInputObject (io_directives x) v (required_fields x).
Definition set_required_fields (v : list ustring) (x : InputObject) : InputObject :=
  mkInputObject (io_directives x) (io_fields x) v.

(** [struct EnumTypeDefinition]. *)
Record EnumTypeDefinition := mkEnumTypeDefinition {
  enum_directives : std_map ustring Directive;
  enum_values : std_map ustring EnumValueDefinition
}.

Definition set_enum_directives (v : std_map ustring Directive) (x : EnumTypeDefinition) :
    EnumTypeDefinition :=
  mkEnumTypeDefinition v (enum_values x).
Definition set_enum_values (v : std_map ustring EnumValueDefinition) (x : EnumTypeDefinition) :
    EnumTypeDefinition :=
  mkEnumTypeDefinition (enum_directives x) v.

(** [struct UnionTypeDefinition]. *)
Record UnionTypeDefinition := mkUnionTypeDefinition {
  members : std_map ustring Name;
  union_directives : std_map ustring Directive
}.

Definition set_members (v : std_map ustring Name) (x : UnionTypeDefinition) : UnionTypeDefinition :=
  mkUnionTypeDefinition v (union_directives x).
Definition set_union_directives (v : std_map ustring Directive) (x : UnionTypeDefinition) :
    UnionTypeDefinition :=
  mkUnionTypeDefinition (members x) v.

(** [struct DirectiveDefinition]; [locations] is a [std::set], used for membership only. *)
Record DirectiveDefinition := mkDirectiveDefinition {
  dd_arguments : std_map ustring InputValueDefinition;
  locations : list DirectiveLocation.t
}.

Definition set_dd_arguments (v : std_map ustring InputValueDefinition) (x : DirectiveDefinition) :
    DirectiveDefinition :=
  mkDirectiveDefinition v (locations x).
Definition set_locations (v : list DirectiveLocation.t) (x : DirectiveDefinition) :
    DirectiveDefinition :=
  mkDirectiveDefinition (dd_arguments x) v.

(** [struct Schema]. *)
Record Schema := mkSchema {
  schema_directives : std_map ustring Directive;
  schema_query : option Name;
  schema_mutation : option Name;
  schema_subscription : option Name;
  query_object : option ptr;
  mutation_object : option ptr;
  subscription_object : option ptr;
  query_key : option Name;
  mutation_key : option Name;
  subscription_key : option Name
}.

Definition set_schema_directives (v : std_map ustring Directive) (x : Schema) : Schema :=
  mkSchema v (schema_query x) (schema_mutation x) (schema_subscription x) (query_object x)
      (mutation_object x) (subscription_object x) (query_key x) (mutation_key x) (subscription_key
      x).
Definition set_schema_query (v : option Name) (x : Schema) : Schema :=
  mkSchema (schema_directives x) v (schema_mutation x) (schema_subscription x) (query_object x)
      (mutation_object x) (subscription_object x) (query_key x) (mutation_key x) (subscription_key
      x).
Definition set_schema_mutation (v : option Name) (x : Schema) : Schema :=
  mkSchema (schema_directives x) (schema_query x) v (schema_subscription x) (query_object x)
      (mutation_object x) (subscription_object x) (query_key x) (mutation_key x) (subscription_key
      x).
Definition set_schema_subscription (v : option Name) (x : Schema) : Schema :=
  mkSchema (schema_directives x) (schema_query x) (schema_mutation x) v (query_object x)
      (mutation_object x) (subscription_object x) (query_key x) (mutation_key x) (subscription_key
      x).
Definition set_query_object (v : option ptr) (x : Schema) : Schema :=
  mkSchema (schema_directives x) (schema_query x) (schema_mutation x) (schema_subscription x) v
      (mutation_object x) (subscription_object x) (query_key x) (mutation_key x) (subscription_key
      x).
Definition set_mutation_object (v : option ptr) (x : Schema) : Schema :=
  mkSchema (schema_directives x) (schema_query x) (schema_mutation x) (schema_subscription x)
      (query_object x) v (subscription_object x) (query_key x) (mutation_key x) (subscription_key
      x).
Definition set_subscription_object (v : option ptr) (x : Schema) : Schema :=
  mkSchema (schema_directives x) (schema_query x) (schema_mutation x) (schema_subscription x)
      (query_object x) (mutation_object x) v (query_key x) (mutation_key x) (subscription_key x).
Definition set_query_key (v : option Name) (x : Schema) : Schema :=
  mkSchema (schema_directives x) (schema_query x) (schema_mutation x) (schema_subscription x)
      (query_object x) (mutation_object x) (subscription_object x) v (mutation_key x)
      (subscription_key x).
Definition set_mutation_key (v : option Name) (x : Schema) : Schema :=
  mkSchema (schema_directives x) (schema_query x) (schema_mutation x) (schema_subscription x)
      (query_object x) (mutation_object x) (subscription_object x) (query_key x) v
      (subscription_key x).
Definition set_subscription_key (v : option Name) (x : Schema) : Schema :=
  mkSchema (schema_directives x) (schema_query x) (schema_mutation x) (schema_subscription x)
      (query_object x) (mutation_object x) (subscription_object x) (query_key x) (mutation_key x) v.

(** The class a heap node was allocated as, with its own members. *)
Inductive Body :=
  | BObject (o : ObjectLike)
  | BInterface (o : ObjectLike)
  | BInputObject (o : InputObject)
  | BEnum (e : EnumTypeDefinition)
  | BUnion (v : UnionTypeDefinition)
  | BDirectiveDefinition (d : DirectiveDefinition)
  | BSchema (s : Schema).

(** A [Declaration] with the members of its dynamic class.  A [Schema] has no
    name and no description. *)
Record Declaration := mkDeclaration {
  decl_syntax : Syntax;
  decl_name : option Name;
  decl_description : ustring;
  body : Body
}.

Definition set_decl_syntax (v : Syntax) (x : Declaration) : Declaration :=
  mkDeclaration v (decl_name x) (decl_description x) (body x).
Definition set_decl_name (v : option Name) (x : Declaration) : Declaration :=
  mkDeclaration (decl_syntax x) v (decl_description x) (body x).
Definition set_decl_description (v : ustring) (x : Declaration) : Declaration :=
  mkDeclaration (decl_syntax x) (decl_name x) v (body x).
Definition set_body (v : Body) (x : Declaration) : Declaration :=
  mkDeclaration (decl_syntax x) (decl_name x) (decl_description x) v.

(** A heap cell: types and declarations are separate allocations. *)
Inductive Node :=
  | NType (t : Type_)
  | NDecl (d : Declaration).

(** The dynamic class of a declaration, as its [SyntaxKind]. *)
Definition body_kind (b : Body) : SyntaxKind :=
  match b with
  | BObject _ => S_Object
  | BInterface _ => S_Interface
  | BInputObject _ => S_InputObject
  | BEnum _ => S_EnumTypeDefinition
  | BUnion _ => S_Union
  | BDirectiveDefinition _ => S_DirectiveDefinition
  | BSchema _ => S_Schema
  end.

(** The symbol kind a declaration is registered under. *)
Definition body_symbol (b : Body) : SymbolKind :=
  match b with
  | BObject _ => SL_Object
  | BInterface _ => SL_Interface
  | BInputObject _ => SL_InputObject
  | BEnum _ => SL_Enum
  | BUnion _ => SL_Union
  | BDirectiveDefinition _ | BSchema _ => SL_None
  end.

(** [struct Symbol]; [name] points to an identifier that never changes. *)
Record Symbol := mkSymbol {
  symbol_name : ustring;
  declaration : ptr;
  symbol_kind : SymbolKind
}.

(** Members of a freshly allocated node: the zero-filled memory. *)
Definition new_ObjectLike : ObjectLike := mkObjectLike None [] None.
Definition new_InputObject : InputObject := mkInputObject [] None [].
Definition new_EnumTypeDefinition : EnumTypeDefinition := mkEnumTypeDefinition [] [].
Definition new_UnionTypeDefinition : UnionTypeDefinition := mkUnionTypeDefinition [] [].
Definition new_DirectiveDefinition : DirectiveDefinition := mkDirectiveDefinition [] [].
Definition new_Schema : Schema := mkSchema [] None None None None None None None None None.
Definition new_Type (s : Syntax) : Type_ := mkType s T_None false false false false None None.
Definition new_Declaration (s : Syntax) (b : Body) : Declaration := mkDeclaration s None [] b.
