(* ===== verification/SyntaxVisitor.v ===== *)
(** * Visitors of the syntax tree ([graphql_syntaxes.h], [graphql_syntaxes.cpp])

    A node is visited by double dispatch: [accept] is virtual, and its body,
    [visitor->visit (this)], is resolved over the overloads of [visit] at the class
    [accept] is defined in.  Both are computed here from the derivation of the
    classes, as the language does it.  No code of the program calls [accept]. *)
From S2P Require Import Prelude Monad Syntaxes.

(** ** The classes of nodes *)

Module NodeClass.
Inductive t :=
  | Syntax | Name | Declaration | InputType | InputValueDefinition | ArgumentsDefinition
  | FieldDefinition | InputFieldDefinition | InputFieldsDefinition | Implementations
  | ObjectLike | Object | InputObject | Interface | UnionTypeDefinition
  | DirectiveDefinition | EnumValueDefinition | EnumTypeDefinition | Type_ | NamedType
  | Value | NullValue | FloatValue | IntValue | StringValue | BooleanValue | EnumValue
  | ObjectField | ObjectValue | ListValue | VariableDefinition | VariableDefinitions
  | Argument | Arguments | Directive | Directives | Selection | Field | FragmentSpread
  | InlineFragment | SelectionSet | FragmentDefinition | OperationDefinition
  | ExecutableDefinition | Schema | SchemaDocument.

#[global] Instance eq_dec : EqDecision t.
Proof. solve_decision. Defined.

(** The base class. *)
Definition base (c : t) : option t :=
  match c with
  | Syntax => None
  | EnumValueDefinition => Some Name
  | InputType | InputValueDefinition | FieldDefinition | ObjectLike | UnionTypeDefinition
  | DirectiveDefinition => Some Declaration
  | InputFieldDefinition | InputObject | EnumTypeDefinition => Some InputType
  | Object | Interface => Some ObjectLike
  | NullValue | FloatValue | IntValue | StringValue | BooleanValue | EnumValue
  | ObjectValue | ListValue => Some Value
  | Field | FragmentSpread | InlineFragment => Some Selection
  | _ => Some Syntax
  end.

(** The classes [accept] is declared in, beside the pure one of [Syntax]. *)
Definition declares_accept (c : t) : bool :=
  match c with
  | Syntax | Declaration | InputType | ObjectLike | NamedType | Selection => false
  | _ => true
  end.

(** The definitions of [accept]. *)
Definition accept_definitions : list t :=
  [Argument; Arguments; ArgumentsDefinition; InputValueDefinition; InputFieldDefinition;
   InputFieldsDefinition; InputObject; Directive; DirectiveDefinition; EnumTypeDefinition;
   FragmentSpread; Name; Value; Type_; IntValue; NullValue; FloatValue; EnumValue;
   EnumValueDefinition; StringValue; BooleanValue; ObjectField; ObjectValue; ListValue;
   VariableDefinition; VariableDefinitions; Field; InlineFragment; SelectionSet;
   OperationDefinition; FragmentDefinition; ExecutableDefinition; SchemaDocument; Object;
   Interface; Implementations; FieldDefinition; UnionTypeDefinition; Schema].

(** The overloads of [GraphQlSyntaxVisitor::visit]. *)
Definition visit_overloads : list t :=
  [Argument; Arguments; ArgumentsDefinition; InputValueDefinition; Name; Value; Type_;
   IntValue; NullValue; FloatValue; StringValue; BooleanValue; EnumValue; ObjectField;
   ObjectValue; ListValue; VariableDefinition; VariableDefinitions; Field; SelectionSet;
   Selection; OperationDefinition; FragmentDefinition; ExecutableDefinition; SchemaDocument;
   Implementations; Object; InputObject; Interface; Directive; DirectiveDefinition;
   EnumTypeDefinition; EnumValueDefinition; FieldDefinition; InputFieldDefinition;
   InputFieldsDefinition; UnionTypeDefinition; FragmentSpread; Schema].
End NodeClass.

(** The nearest class from [c] on, in the derivation, with [f]; the longest one has
    four classes. *)
Fixpoint nearest (fuel : nat) (f : NodeClass.t → bool) (c : NodeClass.t) : option NodeClass.t :=
  if f c then Some c else
  match fuel, NodeClass.base c with
  | S fuel', Some b => nearest fuel' f b
  | _, _ => None
  end.

Definition nearest_class : (NodeClass.t → bool) → NodeClass.t → option NodeClass.t := nearest 3.

(** A conversion to the nearest base is the better one. *)
Definition resolve_visit : NodeClass.t → option NodeClass.t :=
  nearest_class (λ c, bool_decide (c ∈ NodeClass.visit_overloads)).

(** The class whose [accept] overrides. *)
Definition overrider : NodeClass.t → option NodeClass.t :=
  nearest_class NodeClass.declares_accept.

(** A class with the pure [accept] of [Syntax] has no objects. *)
Definition is_abstract (c : NodeClass.t) : bool := bool_decide (overrider c = None).

Class GraphQlSyntaxVisitor (S : Type) := {
  visit : NodeClass.t → ptr → M S unit
}.

(** [node->accept (visitor)] at the class of [node]; a class whose [accept] has no
    definition cannot be linked. *)
Definition accept {S} `{GraphQlSyntaxVisitor S} (c : NodeClass.t) (node : ptr) : M S unit :=
  k ← deref (overrider c);
  if bool_decide (k ∈ NodeClass.accept_definitions) then
    overload ← deref (resolve_visit k);
    visit overload node
  else undefined.

(** A node is visited as what it is, with one exception: [visit] has no overload for
    inline fragments, which are visited as selections. *)
Lemma accept_visits {S} `{GraphQlSyntaxVisitor S} c node s :
  is_abstract c = false → c ≠ NodeClass.Directives →
  accept c node s =
    visit (if decide (c = NodeClass.InlineFragment) then NodeClass.Selection else c) node s.
Proof. by destruct c. Qed.

(** Every overload is that of a class, and only that of [Selection] is of a class
    without objects. *)
Lemma overloads_exact c :
  c ∈ NodeClass.visit_overloads ↔
  (is_abstract c = false ∧ c ≠ NodeClass.Directives ∧ c ≠ NodeClass.InlineFragment) ∨
  c = NodeClass.Selection.
Proof.
  rewrite <- (bool_decide_spec (c ∈ NodeClass.visit_overloads)).
  destruct c; vm_compute; (split; [intros []; first [by right|by left]|]);
    try done; intros [(? & ? & ?)|?]; done.
Qed.
