(* ===== verification/Utils.v ===== *)
(** * String functions ([lib/utils.h], [lib/utils.cpp])

    The functions on strings of the library, over the operations of
    [std::string] and [std::getline] they use.  Its other functions are calls of
    the file system, of processes and of Boost. *)
From S2P Require Import Prelude Monad Character StdMap.

(** ** [std::string] *)

Definition starts_with (pattern s : list Z) : bool := bool_decide (take (length pattern) s = pattern).

(** The first place of the pattern in a string. *)
Fixpoint search (pattern s : list Z) : option nat :=
  if starts_with pattern s then Some 0
  else match s with
  | [] => None
  | _ :: s' => S <$> search pattern s'
  end.

(** [s.find (pattern, pos)]; nothing is [npos]. *)
Definition string_find (s pattern : list Z) (pos : nat) : option nat :=
  if (pos <=? length s)%nat then Nat.add pos <$> search pattern (drop pos s) else None.

(** [s.find_last_of (c)]. *)
Fixpoint find_last_of (c : Z) (s : list Z) : option nat :=
  match s with
  | [] => None
  | x :: s' =>
      match find_last_of c s' with
      | Some i => Some (S i)
      | None => if (x =? c)%Z then Some 0 else None
      end
  end.

(** [s.replace (pos, n, to)], for a [pos] in the string. *)
Definition string_replace (s : list Z) (pos n : nat) (to : list Z) : list Z :=
  take pos s ++ to ++ drop (pos + n) s.

(** What [std::getline] reads from a stream, one item after the other: a
    delimiter at the end of the text does not start another item. *)
Fixpoint getlines (delimiter : Z) (s : list Z) : list (list Z) :=
  match s with
  | [] => []
  | c :: s' =>
      if (c =? delimiter)%Z then [] :: getlines delimiter s'
      else match getlines delimiter s' with
      | [] => [[c]]
      | item :: items => (c :: item) :: items
      end
  end.

(** What is left in the item when [std::getline] fails: the text after the last
    delimiter. *)
Fixpoint last_item (delimiter : Z) (item s : list Z) : list Z :=
  match s with
  | [] => item
  | c :: s' => last_item delimiter (if (c =? delimiter)%Z then [] else item ++ [c]) s'
  end.

(** ** The functions *)

(** [substr (0, npos)] is the whole string. *)
Definition folder_path (path : list Z) : list Z :=
  match find_last_of Character.Slash path with
  | Some i => take i path
  | None => path
  end.

(** One turn of the loop of [replace_all]. *)
Definition replace_step {S} (from to : list Z) :
    list Z * nat → M S (list Z * nat + list Z) :=
  λ '(str, start_pos),
    match string_find str from start_pos with
    | None => mret (inr str)
    | Some start_pos => mret (inl (string_replace str start_pos (length from) to,
        (start_pos + length to)%nat))
    end.

Definition replace_all_fuel {S} (fuel : nat) (str from to : list Z) : M S (list Z) :=
  loop fuel (replace_step from to) (str, 0).

(** Each replacement takes a character of what is left of the string. *)
Definition replace_all {S} (str from to : list Z) : M S (list Z) :=
  replace_all_fuel (2 + length str) str from to.

Fixpoint join_from (delimiter : list Z) (vec : list (list Z)) : list Z :=
  match vec with
  | [] => []
  | item :: rest => delimiter ++ item ++ join_from delimiter rest
  end.

Definition join_vector (vec : list (list Z)) (delimiter : list Z) : list Z :=
  match vec with
  | [] => []
  | item :: rest => item ++ join_from delimiter rest
  end.

(** [split_string] with a [char]. *)
Definition split_string (s : list Z) (delimiter : Z) : list (list Z) := getlines delimiter s.

(** [split_string] with a string: [s.substr (prev_pos, pos - prev_pos)] throws
    where [prev_pos] is behind the string; the length wraps around. *)
Definition string_substr {S} (s : list Z) (pos : nat) (n : Z) : M S (list Z) :=
  if (pos <=? length s)%nat then mret (substr pos (Z.to_nat (n mod 2 ^ 64)) s)
  else throw std_out_of_range.

Definition split_step {S} (s delimiter : list Z) :
    list (list Z) * nat * nat → M S (list (list Z) * nat * nat + list (list Z)) :=
  λ '(elements, prev_pos, pos),
    match string_find s delimiter pos with
    | Some pos =>
        element ← string_substr s prev_pos (Z.of_nat pos - Z.of_nat prev_pos);
        mret (inl (elements ++ [element], (pos + length delimiter)%nat, pos))
    | None =>
        element ← string_substr s prev_pos (2 ^ 64 - 1 - Z.of_nat prev_pos);
        mret (inr (elements ++ [element]))
    end.

Definition split_string_fuel {S} (fuel : nat) (s delimiter : list Z) : M S (list (list Z)) :=
  loop fuel (split_step s delimiter) ([], 0, 0).

(** [reverse_map]: the first key of a value wins. *)
Definition reverse_map {K V} `{KeyOrder V} (input : std_map K V) : std_map V K :=
  fold_left (λ output '(k, v), emplace v k output) input [].
