(* ===== verification/Files.v ===== *)
(** * Files ([lib/utils.h], [lib/utils.cpp])

    The functions of the library on files, folders and processes.  The paths and
    the file system are those of Boost, the listing of a pattern is the glob
    library's: they are the parameters [Paths] and [FileSystem], whose operations
    run on the state [F] of the file system.  What is printed is not modelled. *)
From S2P Require Import Prelude Monad Character Cstring Utils.

#[local] Arguments u : simpl never.

(** ** Parameters *)

(** [boost::filesystem::path]: from a string, [string ()], [operator/] and
    [filename ()]. *)
Class Paths := {
  path : Type;
  path_of : list Z → path;
  path_string : path → list Z;
  path_div : path → path → path;
  path_filename : path → path
}.

(** The operations of the file system; [filesystem_error] is their exception. *)
Class FileSystem (F : Type) `{Paths} := {
  exists_ : path → M F bool;
  is_directory : path → M F bool;
  create_directory : path → M F bool;
  create_directories : path → M F unit;
  remove : path → M F unit;
  remove_all : path → M F unit;
  copy_file : path → path → M F unit;
  directory_entries : path → M F (list path);
  weakly_canonical : path → M F path;
  program_location : M F path;
  (* an [std::ifstream]: nothing where it does not open; an [std::ofstream] *)
  stream_content : path → M F (option (list Z));
  stream_write : path → list Z → M F unit;
  (* the names of a [glob::Glob]; what a process of [popen] writes *)
  glob_names : list Z → M F (list (list Z));
  popen : list Z → M F (option (list Z))
}.

Declare Scope path_scope.
Delimit Scope path_scope with path.
Infix "/" := path_div : path_scope.

(** [path] from a literal. *)
Definition literal_path `{Paths} (text : String.string) : path := path_of (u text).

(** ** UTF-8 *)

Definition continuation (b : Z) : bool := ((0x80 <=? b) && (b <? 0xc0))%Z.

(** The characters of a [Glib::ustring] made of bytes; other bytes than a UTF-8
    text's are left undefined by Glib. *)
Fixpoint utf8_decode (bytes : list Z) : option ustring :=
  match bytes with
  | [] => Some []
  | a :: r =>
      if (a <? 0x80)%Z then cons a <$> utf8_decode r
      else if ((0xc0 <=? a) && (a <? 0xe0))%Z then
        match r with
        | b :: r =>
            if continuation b then
              cons ((a - 0xc0) * 64 + (b - 0x80))%Z <$> utf8_decode r
            else None
        | _ => None
        end
      else if ((0xe0 <=? a) && (a <? 0xf0))%Z then
        match r with
        | b :: c :: r =>
            if continuation b && continuation c then
              cons (((a - 0xe0) * 64 + (b - 0x80)) * 64 + (c - 0x80))%Z <$> utf8_decode r
            else None
        | _ => None
        end
      else if ((0xf0 <=? a) && (a <? 0xf8))%Z then
        match r with
        | b :: c :: d :: r =>
            if continuation b && continuation c && continuation d then
              cons ((((a - 0xf0) * 64 + (b - 0x80)) * 64 + (c - 0x80)) * 64 + (d - 0x80))%Z
                <$> utf8_decode r
            else None
        | _ => None
        end
      else None
  end.

Section files.
Context {F : Type} `{FileSystem F}.

(** ** Files *)

Definition path_exists (p : path) : M F bool := exists_ p.

(** The content, which a NUL follows. *)
Definition read_file (filename : path) : M F (list Z) :=
  content ← stream_content filename;
  match content with
  | Some content => mret content
  | None => throw (std_logic_error (u "Unable to open file" ++ path_string filename))
  end.

(** [strlen (content)] bytes. *)
Definition write_file (filename : path) (content : list Z) : M F unit :=
  stream_write filename (c_string content).

Definition remove_folder (p : path) : M F unit := remove_all p.

Definition create_folder (folder : path) : M F unit := create_directories folder.

(** [Glib::ustring] of a file's content. *)
Definition read_ustring (filename : path) : M F ustring :=
  content ← read_file filename;
  deref (utf8_decode (c_string content)).

(** ** Folders *)

Definition catch_filesystem_error {A} (m handler : M F A) : M F A :=
  try_catch m (λ e, match e with filesystem_error => Some handler | _ => None end).

(** The first [try] of [copy_folder]: may the folder be copied? *)
Definition begin_copy (source destination : path) : M F bool :=
  catch_filesystem_error (
    found ← exists_ source;
    folder ← (if (found : bool) then is_directory source else mret false);
    if negb folder then mret false else
    there ← exists_ destination;
    if (there : bool) then mret false else
    create_directory destination) (mret false).

(** The result says whether a folder inside could not be copied; an exception of
    a file is only printed. *)
Fixpoint copy_folder (fuel : nat) (source destination : path) : M F bool :=
  match fuel with
  | O => out_of_fuel
  | S fuel' =>
      may_copy ← begin_copy source destination;
      if negb (may_copy : bool) then mret false else
      files ← directory_entries source;
      (fix copy_files (files : list path) : M F bool :=
        match files with
        | [] => mret true
        | file :: files' =>
            copied ← catch_filesystem_error (
              folder ← is_directory file;
              if (folder : bool) then
                copy_folder fuel' file (destination / path_filename file)%path
              else copy_file file (destination / path_filename file)%path;; mret true)
              (mret true);
            if negb (copied : bool) then mret false else copy_files files'
        end) files
  end.

(** ** Paths *)

Definition find_files (pattern : path) : M F (list (list Z)) :=
  names ← glob_names (path_string pattern);
  mret (map (λ name, folder_path (path_string pattern) ++ [Character.Slash] ++ name) names).

(** [find_files (pattern, cwd)]; [front] and [back] of an empty string are
    undefined. *)
Definition find_files_in (pattern : path) (cwd : list Z) : M F (list (list Z)) :=
  front ← deref (head cwd);
  if negb (front =? Character.Slash)%Z then
    throw (std_invalid_argument (u "Utils::find_files: Current working directory 'p_cwd', must be an absolute path. Got '"
      ++ cwd ++ u "'."))
  else
    back ← deref (list.last cwd);
    let cwd := if negb (back =? Character.Slash)%Z then cwd ++ [Character.Slash] else cwd in
    find_files (path_of cwd / pattern)%path.

Definition resolve_paths (path1 path2 : path) : M F path :=
  weakly_canonical (path1 / path2)%path.

Definition resolve_paths_3 (path1 path2 path3 : path) : M F path :=
  weakly_canonical (path1 / path2 / path3)%path.

Definition root_dir : M F path :=
  location ← program_location;
  resolved ← resolve_paths location (literal_path "../../");
  weakly_canonical resolved.

Definition root_path (p : path) : M F path :=
  root ← root_dir;
  weakly_canonical (root / p)%path.

(** [Debug::fail]. *)
Definition Debug_fail (err : list Z) : M F unit := throw (std_logic_error err).

(** ** Processes *)

Definition execute_command (command : list Z) : M F (list Z) :=
  output ← popen command;
  match output with
  | Some output => mret output
  | None => throw std_runtime_error
  end.

Definition execute_command_in (command cwd : list Z) : M F (list Z) :=
  execute_command (u "cd " ++ cwd ++ u " && " ++ command).
End files.
