(* ===== verification/DiagnosticsGenerator.v ===== *)
(** * The generator of the diagnostics ([tasks/generate_diagnostics.cpp])

    The task that writes [graphql_diagnostics.h] and [.cpp], and those of the test
    cases, from the keys of a JSON file.  Boost's regular expressions and jsoncpp are
    parameters. *)
From S2P Require Import Prelude Monad Character Cstring Utils Files.

#[local] Arguments u : simpl never.

Definition text_line (text : list Z) : list Z := text ++ [Character.NewLine].

(** A double quote, and a text between two of them. *)
Definition in_quotes (text : list Z) : list Z :=
  [Character.DoubleQuote] ++ text ++ [Character.DoubleQuote].

(** ** The templates *)

Definition start_wrap_header_template : list Z :=
  text_line (u "// This code is auto generate. Don't edit it!")
  ++ text_line (u "#ifndef {{header_guard}}")
  ++ text_line (u "#define {{header_guard}}")
  ++ text_line ([])
  ++ text_line (u "#include <program/diagnostic.h>")
  ++ text_line ([])
  ++ text_line (u "using namespace flashpoint::program;")
  ++ text_line ([])
  ++ text_line (u "namespace {{namespace}} {")
  ++ text_line ([])
  ++ text_line (u "class D {")
  ++ text_line (u "public:").

Definition start_wrap_source_template : list Z :=
  text_line (u "// This code is auto generate. Don't edit it!")
  ++ text_line (u "#include " ++ in_quotes (u "{{header_file}}"))
  ++ text_line ([])
  ++ text_line (u "namespace {{namespace}} {")
  ++ text_line ([]).

Definition end_wrap_header_template : list Z :=
  text_line (u "};") ++ text_line ([]) ++ text_line (u "}") ++ text_line ([])
  ++ u "#endif // {{header_guard}}".

Definition end_wrap_source_template : list Z :=
  text_line ([]) ++ text_line (u "} // {{namespace}}").

(** ** The generator *)

Section generator.
Context {F : Type} `{FileSystem F}.

(** [boost::regex_replace] of a text, a pattern and a format; the keys of the object
    [Json::Reader] reads, in the order of its iterator, none where it reads none. *)
Variable regex_replace : list Z → list Z → list Z → list Z.
Variable json_keys : list Z → list (list Z).

(** The files, and the global [keys]. *)
Record Generator := mkGenerator {
  generator_files : F;
  keys : list (list Z)
}.

#[export] Instance files_of_generator : Has F Generator.
Proof.
  by refine {| sub := generator_files; put_sub := λ f s, mkGenerator f (keys s) |};
    intros; try destruct s.
Defined.

Definition set_keys (v : list (list Z)) (s : Generator) : Generator :=
  mkGenerator (generator_files s) v.

Definition is_unique (key : list Z) : M Generator bool :=
  gets (λ s, negb (existsb (λ k, bool_decide (k = key)) (keys s))).

Definition format_diagnostic_key (key : list Z) : list Z :=
  let k := regex_replace key (u "\s+") (u "_") in
  let k := regex_replace k (u "['|" ++ [Character.DoubleQuote] ++ u "|?|:|,|.|(|)]") [] in
  let k := regex_replace k (u "{(\d+)}") (u "$1") in
  let k := regex_replace k (u "_+") (u "_") in
  regex_replace k (u "^_+|_+$") [].

Definition remove_comments (json : list Z) : list Z :=
  regex_replace json (u "//.*?" ++ [Character.NewLine]) [Character.NewLine].

(** A key as the content of a string literal. *)
Definition unformatted_key (key : list Z) : list Z :=
  regex_replace key (u "\" ++ [Character.DoubleQuote]) (u "\\\" ++ [Character.DoubleQuote]).

Definition header_member (formatted_key : list Z) : list Z :=
  text_line (u "    static DiagnosticMessageTemplate " ++ formatted_key ++ u ";").

Definition source_member (formatted_key key : list Z) : list Z :=
  text_line (u "    DiagnosticMessageTemplate D::" ++ formatted_key ++ u " = "
    ++ u "DiagnosticMessageTemplate { " ++ in_quotes (unformatted_key key) ++ u " };").

Definition replace_name (text name by_ : list Z) : list Z :=
  regex_replace text (u "{{" ++ name ++ u "}}") by_.

(** The loop over the keys, with the texts of the header and the source. *)
Definition generate_member (texts : list Z * list Z) (key : list Z) :
    M Generator (list Z * list Z) :=
  let formatted_key := format_diagnostic_key key in
  unique ← is_unique formatted_key;
  if negb unique then
    throw (std_invalid_argument (u "Duplicate formatted key: " ++ formatted_key ++ u "."))
  else
    modify (λ s, set_keys (keys s ++ [formatted_key]) s);;
    mret (fst texts ++ header_member formatted_key, snd texts ++ source_member formatted_key key).

Definition generated_path (root folder : path) (file extension : list Z) : path :=
  (root / folder / path_of (file ++ extension))%path.

Definition generate_diagnostic (folder : path) (file namespace : list Z) : M Generator unit :=
  root ← zoom root_dir;
  json ← zoom (read_file (generated_path root folder file (u ".json")));
  let start_wrap_header :=
    replace_name (replace_name start_wrap_header_template (u "header_guard") (file ++ u "_H"))
      (u "namespace") namespace in
  let start_wrap_source :=
    replace_name (replace_name start_wrap_source_template (u "header_file") (file ++ u ".h"))
      (u "namespace") namespace in
  let end_wrap_header := replace_name end_wrap_header_template (u "header_guard") (file ++ u "_H") in
  let end_wrap_source := replace_name end_wrap_source_template (u "namespace") namespace in
  let diagnostics := json_keys (c_string (remove_comments (c_string json))) in
  texts ← fold_each diagnostics generate_member (start_wrap_header, start_wrap_source);
  let header := fst texts ++ end_wrap_header in
  let source := snd texts ++ end_wrap_source in
  root ← zoom root_dir;
  zoom (write_file (generated_path root folder file (u ".h")) header);;
  root ← zoom root_dir;
  zoom (write_file (generated_path root folder file (u ".cpp")) source);;
  modify (set_keys []).

(** [main]: the exit code. *)
Definition main : M Generator Z :=
  try_catch (
    generate_diagnostic (literal_path "src/program/graphql") (u "graphql_diagnostics")
      (u "flashpoint::program");;
    generate_diagnostic (literal_path "src/test") (u "test_case_diagnostics")
      (u "flashpoint::test");;
    mret 0%Z)
    (λ _, Some (mret 1%Z)).
End generator.
