(* ===== verification/TestDefinition.v ===== *)
(** * Test suites ([test/test_definition.h], [.cpp])

    [domain] and [test] register the suites; [run_test_suites] runs them and
    [print_stats] counts.  The state is that of the files, the domains and what was
    printed; the clock is a parameter.  The test framework has no threads but
    [std::async]. *)
From S2P Require Import Prelude Monad Cstring Utils.

#[local] Arguments u : simpl never.

(** ** Data *)

(** A [Test*]: the indices of its domain and of the test in it. *)
Definition TestPtr : Type := nat * nat.

(** The local variables of [run_test_suites] the callbacks of a procedure write. *)
Record Callbacks := mkCallbacks {
  is_done : bool;
  errors : list (list Z)
}.

Section definition.
Context {F : Type}.

(** Procedures, on the files and the variables of their callbacks; the type is
    [ProcedureType]. *)
Inductive Procedure :=
  | Normal (procedure : TestPtr → M F unit)
  | Done (procedure_with_done : TestPtr → M (F * Callbacks) unit → M (F * Callbacks) unit)
  | SuccessError (procedure_with_done_and_error :
      TestPtr → M (F * Callbacks) unit → (list Z → M (F * Callbacks) unit) →
      M (F * Callbacks) unit).

(** [struct Test]; [success] is not initialised. *)
Record Test := mkTest {
  test_name : list Z;
  test_procedure : Procedure;
  success : option bool;
  message : list Z
}.

Definition new_Test (name : list Z) (procedure : Procedure) : Test :=
  mkTest name procedure None [].

Definition set_result (success : bool) (message : list Z) (t : Test) : Test :=
  mkTest (test_name t) (test_procedure t) (Some success) message.

(** [struct Domain]. *)
Record Domain := mkDomain {
  domain_name : list Z;
  tests : list Test
}.

(** The global variables, the times in milliseconds, and the output. *)
Record Suites := mkSuites {
  files : F;
  domains : list Domain;
  current_domain : option nat;
  start_all : Z;
  end_all : Z;
  cout : list Z
}.

Definition set_files (v : F) (s : Suites) : Suites :=
  mkSuites v (domains s) (current_domain s) (start_all s) (end_all s) (cout s).
Definition set_domains (v : list Domain) (s : Suites) : Suites :=
  mkSuites (files s) v (current_domain s) (start_all s) (end_all s) (cout s).
Definition set_current_domain (v : option nat) (s : Suites) : Suites :=
  mkSuites (files s) (domains s) v (start_all s) (end_all s) (cout s).
Definition set_start_all (v : Z) (s : Suites) : Suites :=
  mkSuites (files s) (domains s) (current_domain s) v (end_all s) (cout s).
Definition set_end_all (v : Z) (s : Suites) : Suites :=
  mkSuites (files s) (domains s) (current_domain s) (start_all s) v (cout s).
Definition set_cout (v : list Z) (s : Suites) : Suites :=
  mkSuites (files s) (domains s) (current_domain s) (start_all s) (end_all s) v.

#[export] Instance suites_files : Has F Suites.
Proof. by refine {| sub := files; put_sub := set_files |}; intros; try destruct s. Defined.

(** ** Registration *)

Definition domain (name : list Z) : M Suites unit :=
  modify (λ s, set_current_domain (Some (length (domains s)))
    (set_domains (domains s ++ [mkDomain name []]) s)).

Definition add_test (t : Test) (d : Domain) : Domain := mkDomain (domain_name d) (tests d ++ [t]).

(** [test], all three overloads. *)
Definition test (name : list Z) (procedure : Procedure) : M Suites unit :=
  s ← get;
  current ← deref (current_domain s);
  modify (λ s, set_domains (alter (add_test (new_Test name procedure)) current (domains s)) s).

(** ** Running *)

Definition print (text : list Z) : M Suites unit := modify (λ s, set_cout (cout s ++ text) s).

Definition endl : list Z := [10%Z].

(** The escape sequence of a colour, and the marks. *)
Definition escape (code : list Z) : list Z := [27%Z] ++ u "[" ++ code ++ u "m".
Definition check_mark : list Z := raw [0x2714%Z].
Definition ballot_x : list Z := raw [0x2718%Z].

(** [std::chrono::steady_clock::now ()], in milliseconds. *)
Variable now : F → Z * F.
(** How often [now] is read in the eleven seconds a test is waited for. *)
Variable wait_fuel : nat.
(** [std::async] runs its function at once, or defers it. *)
Variable async_runs : bool.

Definition steady_clock_now {S} `{Has F S} : M S Z :=
  zoom (λ w, let '(t, w') := now w in Ok t w').

#[export] Instance callback_files : Has F (F * Callbacks).
Proof.
  by refine {| sub := fst; put_sub := λ f s, (f, snd s) |}; intros; try destruct s.
Defined.

(** Waiting for [is_done], which nothing sets any more. *)
Definition wait_until_done (begin : Z) : M (F * Callbacks) unit :=
  loop wait_fuel (λ _ : unit,
    s ← get;
    if is_done (snd s) then mret (inr tt) else
    end_ ← steady_clock_now;
    if (10 <? (end_ - begin) ÷ 1000)%Z then
      throw (std_logic_error (u "Spent more than 10s on test."))
    else mret (inl tt)) tt.

Definition done_callback : M (F * Callbacks) unit :=
  modify (λ s, (fst s, mkCallbacks true (errors (snd s)))).

Definition error_callback (error : list Z) : M (F * Callbacks) unit :=
  modify (λ s, (fst s, mkCallbacks (is_done (snd s)) (errors (snd s) ++ [error]))).

(** What a function of [std::async] throws is kept in its future, whose destructor
    waits for it. *)
Definition async (m : M (F * Callbacks) unit) : M (F * Callbacks) unit :=
  if async_runs then try_catch m (λ _, Some (mret tt)) else mret tt.

Definition run_done (t : TestPtr)
    (procedure : TestPtr → M (F * Callbacks) unit → M (F * Callbacks) unit) :
    M (F * Callbacks) unit :=
  start ← steady_clock_now;
  async (procedure t done_callback);;
  wait_until_done start.

Definition run_success_error (t : TestPtr)
    (procedure : TestPtr → M (F * Callbacks) unit → (list Z → M (F * Callbacks) unit) →
      M (F * Callbacks) unit) : M (F * Callbacks) unit :=
  begin ← steady_clock_now;
  procedure t done_callback error_callback;;
  wait_until_done begin;;
  s ← get;
  match errors (snd s) with
  | [] => mret tt
  | _ => throw (BaselineAssertionError (join_vector (errors (snd s)) [10; 10]%Z))
  end.

(** A procedure on the local variables of its callbacks. *)
Definition with_callbacks {A} (m : M (F * Callbacks) A) : M F A := λ f,
  match m (f, mkCallbacks false []) with
  | Ok a s => Ok a (fst s)
  | Throw e s => Throw e (fst s)
  | Undefined => Undefined
  | OutOfFuel => OutOfFuel
  end.

Definition run_procedure (t : TestPtr) (p : Procedure) : M F unit :=
  match p with
  | Normal procedure => procedure t
  | Done procedure => with_callbacks (run_done t procedure)
  | SuccessError procedure => with_callbacks (run_success_error t procedure)
  end.
(** [test->success = ...; test->message = ...]. *)
Definition update_test (t : TestPtr) (f : Test → Test) : M Suites unit :=
  modify (λ s, set_domains
    (alter (λ d, mkDomain (domain_name d) (alter f (snd t) (tests d))) (fst t) (domains s)) s).

(** The [try] of [run_test_suites]: did the test succeed?  Only
    [BaselineAssertionError] is caught. *)
Definition run_test (t : TestPtr) (x : Test) : M Suites bool :=
  try_catch (
    zoom (run_procedure t (test_procedure x));;
    update_test t (λ x, set_result true (message x) x);;
    print (u "    " ++ escape (u "32") ++ check_mark ++ escape (u "0"));;
    mret true)
    (λ e, match e with
      | BaselineAssertionError what => Some (
          update_test t (set_result false (c_string what));;
          print (u "    " ++ escape (u "31") ++ ballot_x);;
          mret false)
      | _ => None
      end).

Definition run_and_report (t : TestPtr) (x : Test) : M Suites unit :=
  succeeded ← run_test t x;
  print (u " " ++ test_name x);;
  if negb (succeeded : bool) then print (escape (u "0") ++ endl) else print endl.

Definition run_domain (i : nat) (d : Domain) : M Suites unit :=
  print (u "  " ++ domain_name d ++ u ":" ++ endl ++ endl);;
  for_each (imap (λ j x, (j, x)) (tests d)) (λ '(j, x), run_and_report (i, j) x);;
  print endl;;
  print (u "    " ++ to_string (Z.of_nat (length (tests d))) ++ u " total");;
  print (endl ++ endl).

Definition run_test_suites : M Suites unit :=
  start ← steady_clock_now;
  modify (set_start_all start);;
  print endl;;
  print (u "Tests:" ++ endl ++ endl);;
  s ← get;
  for_each (imap (λ i d, (i, d)) (domains s)) (λ '(i, d), run_domain i d);;
  print endl;;
  end_ ← steady_clock_now;
  modify (set_end_all end_).

(** ** Counting *)

(** The loop over the tests; [success] is read. *)
Definition failed_tests (l : list Test) : M Suites (list Test) :=
  fold_each l (λ failed t,
    succeeded ← deref (success t);
    mret (if (succeeded : bool) then failed else failed ++ [t])) [].
End definition.

(** ** Times *)

(** The nearest integer to [n / d], ties to even. *)
Definition round_half_even (n d : Z) : Z :=
  let q := (n / d)%Z in
  match (2 * (n mod d) ?= d)%Z with
  | Lt => q
  | Gt => (q + 1)%Z
  | Eq => if Z.even q then q else (q + 1)%Z
  end.

(** The [double] nearest to [n / d], as [fst * 2 ^ - snd]. *)
Definition nearest_double (n d : Z) : Z * Z :=
  if (n =? 0)%Z then (0, 0)%Z else
  let shift := (53 + Z.log2 d - Z.log2 n)%Z in
  let at_shift s := round_half_even (Z.shiftl n (Z.max s 0)) (d * Z.shiftl 1 (Z.max (- s) 0)) in
  let s := if (2 ^ 53 <=? at_shift shift)%Z then (shift - 1)%Z else shift in
  (at_shift s, s).

(** [std::setprecision (2) << std::fixed << n / d]. *)
Definition fixed_2 (n d : Z) : list Z :=
  let '(m, s) := nearest_double n d in
  let hundredths := round_half_even (100 * Z.shiftl m (Z.max (- s) 0)) (Z.shiftl 1 (Z.max s 0)) in
  let digits := Cstring.to_string (hundredths mod 100) in
  Cstring.to_string (hundredths / 100) ++ u "." ++
    (if (hundredths mod 100 <? 10)%Z then u "0" ++ digits else digits).

Definition get_time_string (ms : Z) : list Z :=
  if (ms <? 60 * 1000)%Z then fixed_2 ms 1000 ++ u "s"
  else fixed_2 ms (60 * 1000) ++ u "m".

Section stats.
Context {F : Type}.

(** [print_stats]; the result is the exit code. *)
Definition print_stats : M (Suites (F := F)) Z :=
  s ← get;
  let all := flat_map tests (domains s) in
  failed ← failed_tests all;
  let tests_failed := Z.of_nat (length failed) in
  let tests_succeded := (Z.of_nat (length all) - tests_failed)%Z in
  let domain_size := Z.of_nat (length (domains s)) in
  print (u "Stats:" ++ endl ++ endl);;
  print (escape (u "32") ++ u "    " ++ to_string tests_succeded ++ u " passed" ++ escape (u "0") ++ endl);;
  print (escape (u "31") ++ u "    " ++ to_string tests_failed ++ u " failed" ++ escape (u "0") ++ endl);;
  print (u "    " ++ to_string (tests_succeded + tests_failed) ++ u " total" ++ endl);;
  print (u "    " ++ to_string domain_size
    ++ (if (domain_size =? 1)%Z then u " domain" else u " domains") ++ endl ++ endl);;
  print (u "    " ++ get_time_string (end_all s - start_all s) ++ u " total time" ++ endl);;
  when (0 <? tests_failed)%Z (
    print (endl ++ u "Failed test:" ++ endl ++ endl);;
    for_each failed (λ t,
      print (escape (u "31") ++ u "    " ++ test_name t ++ escape (u "0") ++ endl);;
      print (escape (u "31") ++ u "        " ++ message t ++ escape (u "0") ++ endl)));;
  mret (if (tests_failed =? 0)%Z then 0 else 1)%Z.
End stats.

Example time_0 : get_time_string 5 = u "0.01s". Proof. vm_compute. reflexivity. Qed.
Example time_1 : get_time_string 15 = u "0.01s". Proof. vm_compute. reflexivity. Qed.
Example time_2 : get_time_string 125 = u "0.12s". Proof. vm_compute. reflexivity. Qed.
Example time_3 : get_time_string 90000 = u "1.50m". Proof. vm_compute. reflexivity. Qed.
