(* ===== verification/Command.v ===== *)
(** * The command line ([lib/command.h], [lib/command.cpp])

    A command line selects one of the commands of the program and gives flags to
    it, [--name], [--name value] or [--name=value].  C strings are the bytes
    before their NUL; an argument is pointed to by its index in [argv], which the
    parser writes to. *)
From S2P Require Import Prelude Monad Character.

#[local] Arguments u : simpl never.

Record FlagDefinition := mkFlagDefinition {
  fd_name : list Z;
  fd_description : list Z;
  fd_alias : list Z;
  fd_has_value : bool;
  fd_has_default_value : bool;
  fd_default_value : list Z
}.

(** [struct Flag]; no [value] is the null pointer. *)
Record Flag := mkFlag {
  flag_name : list Z;
  flag_description : list Z;
  flag_alias : list Z;
  flag_has_value : bool;
  flag_value : option (list Z)
}.

Record CommandDefinition := mkCommandDefinition {
  _namespace : list Z;
  cd_name : list Z;
  cd_description : list Z;
  cd_flags : list FlagDefinition
}.

(** A [const char*] into a temporary that is gone, with what it pointed to. *)
Inductive dangling := Dangling (text : list Z).

(** [class Command], with the arguments and the locals of its constructor that its
    callback shares: [flag_awaiting_value] is there when
    [flag_is_awaiting_value].  The pointers [description], [_namespace] and
    [current_command] and [flag_which_awaits_value] are never set. *)
Record Command := mkCommand {
  flags : list Flag;
  warnings : list dangling;
  errors : list (list Z);
  command : option CommandDefinition;
  argv : list (list Z);
  flag_awaiting_value : option Flag
}.

Definition new_Command (argv : list (list Z)) : Command := mkCommand [] [] [] None argv None.

Definition push_flag (f : Flag) (s : Command) : Command :=
  mkCommand (flags s ++ [f]) (warnings s) (errors s) (command s) (argv s) (flag_awaiting_value s).
Definition push_warning (w : dangling) (s : Command) : Command :=
  mkCommand (flags s) (warnings s ++ [w]) (errors s) (command s) (argv s) (flag_awaiting_value s).
Definition set_command (c : CommandDefinition) (s : Command) : Command :=
  mkCommand (flags s) (warnings s) (errors s) (Some c) (argv s) (flag_awaiting_value s).
Definition set_argument (i : nat) (arg : list Z) (s : Command) : Command :=
  mkCommand (flags s) (warnings s) (errors s) (command s) (<[i := arg]> (argv s))
    (flag_awaiting_value s).
Definition set_awaiting (f : Flag) (s : Command) : Command :=
  mkCommand (flags s) (warnings s) (errors s) (command s) (argv s) (Some f).

Definition starts_with_dash (arg : list Z) : bool := bool_decide (head arg = Some Character.Dash).

(** The command an argument names: the last one of that name. *)
Definition find_command (com : option (list Z)) (commands : list CommandDefinition) :
    option CommandDefinition :=
  fold_left (λ found c,
    match com with
    | Some com =>
        if negb (starts_with_dash com) && bool_decide (com = cd_name c) then Some c else found
    | None => found
    end) commands None.

(** The place of the first [=]. *)
Fixpoint find_equal (arg : list Z) : option nat :=
  match arg with
  | [] => None
  | c :: arg' => if (c =? Character.Equal)%Z then Some 0 else S <$> find_equal arg'
  end.

(** The loop over [command.flags]; no [flag] is a pointer behind the argument. *)
Fixpoint match_flag (flag : option (list Z)) (command_flags : list FlagDefinition) :
    M Command (option FlagDefinition) :=
  match command_flags with
  | [] => mret None
  | command_flag :: rest =>
      name ← deref flag;
      if bool_decide (fd_name command_flag = name) then mret (Some command_flag)
      else match_flag flag rest
  end.

Definition make_flag (command_flag : FlagDefinition) (value : option (list Z)) : Flag :=
  mkFlag (fd_name command_flag) (fd_description command_flag) (fd_alias command_flag)
    (fd_has_value command_flag) value.

(** The flag and the value of an argument that starts with a dash.  The copy of
    the flag to its own place leaves it; with the [=] right behind the first
    dash, its length is -1. *)
Definition split_argument (i : nat) (arg : list Z) :
    M Command (option (list Z) * option (list Z)) :=
  match find_equal arg with
  | Some j =>
      if (j <? 2)%nat then undefined
      else
        modify (set_argument i (take j arg));;
        mret (Some (take (j - 2) (drop 2 arg)), Some (drop (j + 1) arg))
  | None => mret (if (2 <=? length arg)%nat then Some (drop 2 arg) else None, None)
  end.

(** The callback for an argument. *)
Definition on_argument (i : nat) : M Command unit :=
  s ← get;
  arg ← deref (argv s !! i);
  if starts_with_dash arg then
    '(flag, value) ← split_argument i arg;
    c ← deref (command s);
    defined ← match_flag flag (cd_flags c);
    match defined with
    | Some command_flag =>
        if fd_has_value command_flag then
          match value with
          | Some value => modify (push_flag (make_flag command_flag (Some value)))
          | None => modify (set_awaiting (make_flag command_flag None))
          end
        else modify (push_flag (make_flag command_flag None))
    | None =>
        s ← get;
        arg ← deref (argv s !! i);
        modify (push_warning (Dangling (u "Unsupported flag '--" ++ arg ++ u "'.")))
    end
  else match flag_awaiting_value s with
  | Some f =>
      modify (push_flag (mkFlag (flag_name f) (flag_description f) (flag_alias f)
        (flag_has_value f) (Some arg)))
  | None => mret tt
  end.

Definition for_each_arg (argc : nat) (callback : nat → M Command unit) : M Command unit :=
  for_each (seq 1 (argc - 1)) callback.

(** [Command::Command]: [argv[argc]] is null. *)
Definition Command_Command (commands : list CommandDefinition) : M Command unit :=
  s ← get;
  let argc := length (argv s) in
  let found := if (0 <? argc)%nat then find_command (argv s !! 1) commands else None in
  c ← match found with
      | Some c => mret c
      | None => match commands with c :: _ => mret c | [] => throw std_out_of_range end
      end;
  modify (set_command c);;
  for_each_arg argc on_argument.

(** [get_flag_value]: the value may be the null pointer. *)
Definition get_flag_value (flag : list Z) (s : Command) : option (list Z) :=
  match list_find (λ f, flag_name f = flag) (flags s) with
  | Some (_, f) => flag_value f
  | None => Some []
  end.

Definition has_flag (flag : list Z) (s : Command) : bool :=
  existsb (λ f, bool_decide (flag_name f = flag)) (flags s).

Definition is_command (name : list Z) (s : Command) : bool :=
  match command s with Some c => bool_decide (cd_name c = name) | None => false end.
