(* ===== verification/HttpHeaders.v ===== *)
(** * [program/http_scanner.h]: methods, request line tokens and headers

    The enumerations of the HTTP scanner, each in a module with the position of
    its enumerators, and the table from header names to [HttpHeader]. *)
From S2P Require Import Prelude StdMap.

(** [enum HttpMethod]. *)
Module HttpMethod.
Inductive t :=
  | None | Get | Post | Put | Delete | Patch | Head | Connect | Options | Trace.

Definition index (x : t) : nat :=
  match x with
  | None => 0
  | Get => 1
  | Post => 2
  | Put => 3
  | Delete => 4
  | Patch => 5
  | Head => 6
  | Connect => 7
  | Options => 8
  | Trace => 9
  end.

Definition all : list t :=
  [None; Get; Post; Put; Delete; Patch; Head; Connect; Options; Trace].

Lemma HttpMethod_all_index x : all !! index x = Some x.
Proof. by destruct x. Qed.

#[global] Instance eq_dec : EqDecision t.
Proof.
  refine (λ x y, cast_if (decide (index x = index y))).
  - pose proof (HttpMethod_all_index x). pose proof (HttpMethod_all_index y). congruence.
  - congruence.
Defined.
End HttpMethod.

(** [enum class RequestLineToken]. *)
Module RequestLineToken.
Inductive t :=
  | None | Crlf | Question | Protocol | AbsolutePath | Query | HttpVersion1_1
  | EndOfRequestTarget.

Definition index (x : t) : nat :=
  match x with
  | None => 0
  | Crlf => 1
  | Question => 2
  | Protocol => 3
  | AbsolutePath => 4
  | Query => 5
  | HttpVersion1_1 => 6
  | EndOfRequestTarget => 7
  end.

Definition all : list t :=
  [None; Crlf; Question; Protocol; AbsolutePath; Query; HttpVersion1_1; EndOfRequestTarget].

Lemma RequestLineToken_all_index x : all !! index x = Some x.
Proof. by destruct x. Qed.

#[global] Instance eq_dec : EqDecision t.
Proof.
  refine (λ x y, cast_if (decide (index x = index y))).
  - pose proof (RequestLineToken_all_index x). pose proof (RequestLineToken_all_index y). congruence.
  - congruence.
Defined.
End RequestLineToken.

(** [enum class HttpHeader]. *)
Module HttpHeader.
Inductive t :=
  | Unknown | Accept | AcceptCharset | AcceptEncoding | AcceptLanguage | AcceptPost
  | AcceptRanges | Age | Allow | ALPN | AltSvc | AltUsed | AuthenticationInfo | Authorization
  | CacheControl | CalDAVTimezones | Connection | ContentDisposition | ContentEncoding
  | ContentLanguage | ContentLength | ContentLocation | ContentRange | ContentType | Cookie
  | DASL | DAV | Date | Depth | Destination | ETag | Expect | Expires | Forwarded | From | Host
  | HTTP2Settings | If | IfMatch | IfModifiedSince | IfNoneMatch | IfRange | IfScheduleTagMatch
  | IfUnmodifiedSince | LastModified | Link | Location | LockToken | MaxForwards | MIMEVersion
  | OrderingType | Origin | Overwrite | Position | Pragma | Prefer | PreferenceApplied
  | ProxyAuthenticate | ProxyAuthenticationInfo | ProxyAuthorization | PublicKeyPins
  | PublicKeyPinsReportOnly | Range | Referer | RetryAfter | ScheduleReply | ScheduleTag
  | SecWebSocketAccept | SecWebSocketExtensions | SecWebSocketKey | SecWebSocketProtocol
  | SecWebSocketVersion | Server | SetCookie | SLUG | StrictTransportSecurity | TE | Timeout
  | Topic | Trailer | TransferEncoding | TTL | Urgency | Upgrade | UserAgent | Vary | Via
  | WWWAuthenticate | Warning | XContentTypeOptions | End.

Definition index (x : t) : nat :=
  match x with
  | Unknown => 0
  | Accept => 1
  | AcceptCharset => 2
  | AcceptEncoding => 3
  | AcceptLanguage => 4
  | AcceptPost => 5
  | AcceptRanges => 6
  | Age => 7
  | Allow => 8
  | ALPN => 9
  | AltSvc => 10
  | AltUsed => 11
  | AuthenticationInfo => 12
  | Authorization => 13
  | CacheControl => 14
  | CalDAVTimezones => 15
  | Connection => 16
  | ContentDisposition => 17
  | ContentEncoding => 18
  | ContentLanguage => 19
  | ContentLength => 20
  | ContentLocation => 21
  | ContentRange => 22
  | ContentType => 23
  | Cookie => 24
  | DASL => 25
  | DAV => 26
  | Date => 27
  | Depth => 28
  | Destination => 29
  | ETag => 30
  | Expect => 31
  | Expires => 32
  | Forwarded => 33
  | From => 34
  | Host => 35
  | HTTP2Settings => 36
  | If => 37
  | IfMatch => 38
  | IfModifiedSince => 39
  | IfNoneMatch => 40
  | IfRange => 41
  | IfScheduleTagMatch => 42
  | IfUnmodifiedSince => 43
  | LastModified => 44
  | Link => 45
  | Location => 46
  | LockToken => 47
  | MaxForwards => 48
  | MIMEVersion => 49
  | OrderingType => 50
  | Origin => 51
  | Overwrite => 52
  | Position => 53
  | Pragma => 54
  | Prefer => 55
  | PreferenceApplied => 56
  | ProxyAuthenticate => 57
  | ProxyAuthenticationInfo => 58
  | ProxyAuthorization => 59
  | PublicKeyPins => 60
  | PublicKeyPinsReportOnly => 61
  | Range => 62
  | Referer => 63
  | RetryAfter => 64
  | ScheduleReply => 65
  | ScheduleTag => 66
  | SecWebSocketAccept => 67
  | SecWebSocketExtensions => 68
  | SecWebSocketKey => 69
  | SecWebSocketProtocol => 70
  | SecWebSocketVersion => 71
  | Server => 72
  | SetCookie => 73
  | SLUG => 74
  | StrictTransportSecurity => 75
  | TE => 76
  | Timeout => 77
  | Topic => 78
  | Trailer => 79
  | TransferEncoding => 80
  | TTL => 81
  | Urgency => 82
  | Upgrade => 83
  | UserAgent => 84
  | Vary => 85
  | Via => 86
  | WWWAuthenticate => 87
  | Warning => 88
  | XContentTypeOptions => 89
  | End => 90
  end.

Definition all : list t :=
  [Unknown; Accept; AcceptCharset; AcceptEncoding; AcceptLanguage; AcceptPost; AcceptRanges; Age;
   Allow; ALPN; AltSvc; AltUsed; AuthenticationInfo; Authorization; CacheControl;
   CalDAVTimezones; Connection; ContentDisposition; ContentEncoding; ContentLanguage;
   ContentLength; ContentLocation; ContentRange; ContentType; Cookie; DASL; DAV; Date; Depth;
   Destination; ETag; Expect; Expires; Forwarded; From; Host; HTTP2Settings; If; IfMatch;
   IfModifiedSince; IfNoneMatch; IfRange; IfScheduleTagMatch; IfUnmodifiedSince; LastModified;
   Link; Location; LockToken; MaxForwards; MIMEVersion; OrderingType; Origin; Overwrite;
   Position; Pragma; Prefer; PreferenceApplied; ProxyAuthenticate; ProxyAuthenticationInfo;
   ProxyAuthorization; PublicKeyPins; PublicKeyPinsReportOnly; Range; Referer; RetryAfter;
   ScheduleReply; ScheduleTag; SecWebSocketAccept; SecWebSocketExtensions; SecWebSocketKey;
   SecWebSocketProtocol; SecWebSocketVersion; Server; SetCookie; SLUG; StrictTransportSecurity;
   TE; Timeout; Topic; Trailer; TransferEncoding; TTL; Urgency; Upgrade; UserAgent; Vary; Via;
   WWWAuthenticate; Warning; XContentTypeOptions; End].

Lemma HttpHeader_all_index x : all !! index x = Some x.
Proof. by destruct x. Qed.

#[global] Instance eq_dec : EqDecision t.
Proof.
  refine (λ x y, cast_if (decide (index x = index y))).
  - pose proof (HttpHeader_all_index x). pose proof (HttpHeader_all_index y). congruence.
  - congruence.
Defined.
End HttpHeader.

(** [string_to_token]: a [std::map] compared with [strcmp], as the list of the
    pairs its initialiser gives. *)
Definition string_to_token : list (ustring * HttpHeader.t) :=
  [(u "accept", HttpHeader.Accept);
   (u "accept-charset", HttpHeader.AcceptCharset);
   (u "accept-encoding", HttpHeader.AcceptEncoding);
   (u "accept-language", HttpHeader.AcceptLanguage);
   (u "accept-post", HttpHeader.AcceptPost);
   (u "accept-ranges", HttpHeader.AcceptRanges);
   (u "age", HttpHeader.Age);
   (u "allow", HttpHeader.Allow);
   (u "alpn", HttpHeader.ALPN);
   (u "alt-svc", HttpHeader.AltSvc);
   (u "alt-used", HttpHeader.AltUsed);
   (u "authentication-info", HttpHeader.AuthenticationInfo);
   (u "authorization", HttpHeader.Authorization);
   (u "cache-control", HttpHeader.CacheControl);
   (u "caldav-timezones", HttpHeader.CalDAVTimezones);
   (u "connection", HttpHeader.Connection);
   (u "content-disposition", HttpHeader.ContentDisposition);
   (u "content-encoding", HttpHeader.ContentEncoding);
   (u "content-language", HttpHeader.ContentLanguage);
   (u "content-length", HttpHeader.ContentLength);
   (u "content-location", HttpHeader.ContentLocation);
   (u "content-range", HttpHeader.ContentRange);
   (u "content-type", HttpHeader.ContentType);
   (u "cookie", HttpHeader.Cookie);
   (u "dasl", HttpHeader.DASL);
   (u "dav", HttpHeader.DAV);
   (u "date", HttpHeader.Date);
   (u "depth", HttpHeader.Depth);
   (u "destination", HttpHeader.Destination);
   (u "etag", HttpHeader.ETag);
   (u "expect", HttpHeader.Expect);
   (u "expires", HttpHeader.Expires);
   (u "forwarded", HttpHeader.Forwarded);
   (u "from", HttpHeader.From);
   (u "host", HttpHeader.Host);
   (u "http2-settings", HttpHeader.HTTP2Settings);
   (u "if", HttpHeader.If);
   (u "if-match", HttpHeader.IfMatch);
   (u "if-modified-since", HttpHeader.IfModifiedSince);
   (u "if-none-match", HttpHeader.IfNoneMatch);
   (u "if-range", HttpHeader.IfRange);
   (u "if-schedule-tag-match", HttpHeader.IfScheduleTagMatch);
   (u "if-unmodified-since", HttpHeader.IfUnmodifiedSince);
   (u "last-modified", HttpHeader.LastModified);
   (u "link", HttpHeader.Link);
   (u "location", HttpHeader.Location);
   (u "lock-token", HttpHeader.LockToken);
   (u "max-forwards", HttpHeader.MaxForwards);
   (u "mime-version", HttpHeader.MIMEVersion);
   (u "ordering-type", HttpHeader.OrderingType);
   (u "origin", HttpHeader.Origin);
   (u "overwrite", HttpHeader.Overwrite);
   (u "position", HttpHeader.Position);
   (u "pragma", HttpHeader.Pragma);
   (u "prefer", HttpHeader.Prefer);
   (u "preference-applied", HttpHeader.PreferenceApplied);
   (u "proxy-authenticate", HttpHeader.ProxyAuthenticate);
   (u "proxy-authentication-info", HttpHeader.ProxyAuthenticationInfo);
   (u "proxy-authorization", HttpHeader.ProxyAuthorization);
   (u "public-key-pins", HttpHeader.PublicKeyPins);
   (u "public-key-pins-report-only", HttpHeader.PublicKeyPinsReportOnly);
   (u "range", HttpHeader.Range);
   (u "referer", HttpHeader.Referer);
   (u "retry-after", HttpHeader.RetryAfter);
   (u "schedule-reply", HttpHeader.ScheduleReply);
   (u "schedule-tag", HttpHeader.ScheduleTag);
   (u "sec-webSocket-accept", HttpHeader.SecWebSocketAccept);
   (u "sec-webSocket-extensions", HttpHeader.SecWebSocketExtensions);
   (u "sec-webSocket-key", HttpHeader.SecWebSocketKey);
   (u "sec-webSocket-protocol", HttpHeader.SecWebSocketProtocol);
   (u "sec-webSocket-version", HttpHeader.SecWebSocketVersion);
   (u "server", HttpHeader.Server);
   (u "set-cookie", HttpHeader.SetCookie);
   (u "slug", HttpHeader.SLUG);
   (u "strict-transport-security", HttpHeader.StrictTransportSecurity);
   (u "te", HttpHeader.TE);
   (u "timeout", HttpHeader.Timeout);
   (u "topic", HttpHeader.Topic);
   (u "trailer", HttpHeader.Trailer);
   (u "transfer-encoding", HttpHeader.TransferEncoding);
   (u "ttl", HttpHeader.TTL);
   (u "urgency", HttpHeader.Urgency);
   (u "upgrade", HttpHeader.Upgrade);
   (u "user-agent", HttpHeader.UserAgent);
   (u "vary", HttpHeader.Vary);
   (u "via", HttpHeader.Via);
   (u "www-authenticate", HttpHeader.WWWAuthenticate);
   (u "warning", HttpHeader.Warning);
   (u "x-content-type-options", HttpHeader.XContentTypeOptions)].
