(* ===== verification/HttpScanner.v ===== *)
(** * [program/http_scanner.cpp]: the scanner of HTTP requests

    The text is the memory [text] points into: the bytes of the receive buffer,
    as values of [char] (signed on the platforms the program is built for).
    [size] says how many of them were received; the buffer may be longer.
    Reading inside the buffer is defined also behind [size]; reading outside
    it is not. *)
From S2P Require Import Prelude Monad StdMap Character Cstring HttpHeaders.

(** [struct SavedTextCursor]. *)
Record SavedTextCursor := mkSavedTextCursor {
  saved_position : nat;
  saved_start_position : nat;
  saved_end_position : nat
}.

(** [class HttpScanner].  [end_position] is saved and restored and otherwise
    unused, [current_header] is [None] until a header is scanned. *)
Record HttpScanner := mkHttpScanner {
  position : nat;
  start_position : nat;
  end_position : nat;
  current_header : option ustring;
  saved_text_cursors : list SavedTextCursor;
  text : list Z;
  size : nat
}.

Definition set_position (v : nat) (x : HttpScanner) : HttpScanner :=
  mkHttpScanner v (start_position x) (end_position x) (current_header x) (saved_text_cursors x)
    (text x) (size x).
Definition set_start_position (v : nat) (x : HttpScanner) : HttpScanner :=
  mkHttpScanner (position x) v (end_position x) (current_header x) (saved_text_cursors x)
    (text x) (size x).
Definition set_end_position (v : nat) (x : HttpScanner) : HttpScanner :=
  mkHttpScanner (position x) (start_position x) v (current_header x) (saved_text_cursors x)
    (text x) (size x).
Definition set_current_header (v : option ustring) (x : HttpScanner) : HttpScanner :=
  mkHttpScanner (position x) (start_position x) (end_position x) v (saved_text_cursors x)
    (text x) (size x).
Definition set_saved_text_cursors (v : list SavedTextCursor) (x : HttpScanner) : HttpScanner :=
  mkHttpScanner (position x) (start_position x) (end_position x) (current_header x) v
    (text x) (size x).

Definition new_HttpScanner (text_ : list Z) (size_ : nat) : HttpScanner :=
  mkHttpScanner 0 0 0 None [] text_ size_.

(** ** Characters and positions *)

(** [text[i]]. *)
Definition text_at (i : nat) : M HttpScanner Z :=
  s ← get;
  deref (text s !! i).

Definition current_char : M HttpScanner Z :=
  pos ← gets position;
  text_at pos.

Definition increment_position : M HttpScanner unit :=
  s ← get;
  if (size s <=? position s)%nat then
    throw (std_logic_error (u "You cannot increment more than max size."))
  else modify (λ s, set_position (S (position s)) s).

(** [position += n]. *)
Definition advance_position (n : nat) : M HttpScanner unit :=
  modify (λ s, set_position (position s + n) s).

Definition set_token_start_position : M HttpScanner unit :=
  modify (λ s, set_start_position (position s) s).

Definition save : M HttpScanner unit :=
  modify (λ s, set_saved_text_cursors
    (mkSavedTextCursor (position s) (start_position s) (end_position s) :: saved_text_cursors s) s).

(** [top] of an empty stack is undefined. *)
Definition revert : M HttpScanner unit :=
  s ← get;
  match saved_text_cursors s with
  | [] => undefined
  | c :: rest =>
      modify (set_position (saved_position c));;
      modify (set_start_position (saved_start_position c));;
      modify (set_end_position (saved_end_position c));;
      modify (set_saved_text_cursors rest)
  end.

Definition peek_next_char : M HttpScanner Z :=
  save;;
  increment_position;;
  ch ← current_char;
  revert;;
  mret ch.

Definition scan_optional (ch : char32) : M HttpScanner bool :=
  save;;
  c ← current_char;
  if (c =? ch)%Z then increment_position;; mret true
  else revert;; mret false.

Definition next_char_is (ch : char32) : M HttpScanner bool := scan_optional ch.

Definition expected_character (ch : char32) : exn :=
  std_logic_error (
    if (ch =? Character.CarriageReturn)%Z then u "Expected character '\r'."
    else if (ch =? Character.NewLine)%Z then u "Expected character '\n'."
    else u "Expected character '" ++ [ch] ++ u "'").

Definition scan_expected (ch : char32) : M HttpScanner unit :=
  c ← current_char;
  if (c =? ch)%Z then increment_position else throw (expected_character ch).

(** A loop of the scanner moves the position with every iteration. *)
Definition scan_fuel (s : HttpScanner) : nat := S (S (size s - position s)).

Definition scan_loop {A B} (body : A → M HttpScanner (A + B)) (a : A) : M HttpScanner B :=
  fuel ← gets scan_fuel;
  loop fuel body a.

(** ** Values of tokens *)

(** [strncpy (str, text + start, n); str[n - 1] = 0], as the C string in [str]:
    [strncpy] stops at a NUL and otherwise reads [n] characters. *)
Definition copy_text (start n : nat) : M HttpScanner ustring :=
  s ← get;
  let window := take n (drop start (text s)) in
  if bool_decide (0%Z ∈ window) || (n <=? length window)%nat then
    mret (c_string (take (n - 1) window))
  else undefined.

(** [int size = position - start_position + 1], the size of the new array. *)
Definition get_token_value : M HttpScanner ustring :=
  s ← get;
  let size_ := to_signed 32 (Z.of_nat (position s) - Z.of_nat (start_position s) + 1) in
  if (size_ <? 0)%Z then throw std_bad_array_new_length
  else if (size_ =? 0)%Z then undefined
  else copy_text (start_position s) (Z.to_nat size_).

(** The loop reads one character more than the value has. *)
Definition get_lower_cased_value : M HttpScanner ustring :=
  s ← get;
  let size_ := (Z.of_nat (position s) - Z.of_nat (start_position s) + 1)%Z in
  if (size_ <? 0)%Z then throw std_bad_array_new_length
  else if (size_ =? 0)%Z then undefined
  else
    let window := take (Z.to_nat size_) (drop (start_position s) (text s)) in
    if (length window <? Z.to_nat size_)%nat then undefined
    else mret (c_string (map tolower (take (Z.to_nat size_ - 1) window))).

Definition get_header_value : M HttpScanner (option ustring) := gets current_header.

(** ** Character classes *)

Section predicates.
Local Open Scope Z_scope.

Definition is_header_field_start (ch : Z) : bool :=
  ((Character.a <=? ch) && (ch <=? Character.z)) || ((Character.A <=? ch) && (ch <=? Character.Z)).

Definition is_header_field_part (ch : Z) : bool :=
  ((Character.a <=? ch) && (ch <=? Character.z)) || ((Character.A <=? ch) && (ch <=? Character.Z))
  || (ch =? Character.Dash).

Definition is_method_part (ch : Z) : bool := (Character.A <=? ch) && (ch <=? Character.Z).

Definition is_unreserverd_char (ch : Z) : bool :=
  isalnum ch || (ch =? Character.Minus) || (ch =? Character.Dot) || (ch =? Character.Underscore)
  || (ch =? Character.Tilde).

Definition is_sub_delimiter (ch : Z) : bool :=
  (ch =? Character.Exclamation) || (ch =? Character.Dollar) || (ch =? Character.Ampersand)
  || (ch =? Character.SingleQuote) || (ch =? Character.OpenParen) || (ch =? Character.CloseParen)
  || (ch =? Character.Asterisk) || (ch =? Character.Plus) || (ch =? Character.Comma)
  || (ch =? Character.Semicolon) || (ch =? Character.Equal).

Definition is_vchar (ch : Z) : bool := (Character.Exclamation <=? ch) && (ch <=? Character.Tilde).

Definition is_obs_text (ch : Z) : bool := (0x80 <=? ch) && (ch <=? 0xff).

(** [ch == Space || ch == HorizontalTab]. *)
Definition is_blank (ch : Z) : bool := (ch =? Character.Space) || (ch =? Character.HorizontalTab).
End predicates.

Definition expected_hex : exn := std_logic_error (u "Expected hex number.").

(** [increment_position (); if (!isxdigit (current_char ())) throw]. *)
Definition scan_hex_digit : M HttpScanner unit :=
  increment_position;;
  ch ← current_char;
  if isxdigit ch then mret tt else throw expected_hex.

(** Moves to the last digit of a percent-encoded character. *)
Definition is_pchar (ch : Z) : M HttpScanner bool :=
  if is_unreserverd_char ch then mret true
  else if is_sub_delimiter ch then mret true
  else if (ch =? Character.Colon)%Z then mret true
  else if (ch =? Character.At)%Z then mret true
  else if (ch =? Character.Percent)%Z then scan_hex_digit;; scan_hex_digit;; mret true
  else mret false.

(** ** The request line *)

Definition invalid_request : exn := std_logic_error (u "Invalid request.").

(** The method is decided by its first letter, or two for those in [P]. *)
Definition scan_method_name : M HttpScanner HttpMethod.t :=
  let found n token := advance_position n;; mret token in
  ch ← current_char;
  if (ch =? Character.C)%Z then found 7 HttpMethod.Connect
  else if (ch =? Character.D)%Z then found 6 HttpMethod.Delete
  else if (ch =? Character.G)%Z then found 3 HttpMethod.Get
  else if (ch =? Character.H)%Z then found 4 HttpMethod.Head
  else if (ch =? Character.O)%Z then found 7 HttpMethod.Options
  else if (ch =? Character.P)%Z then
    increment_position;;
    ch ← current_char;
    if (ch =? Character.A)%Z then found 4 HttpMethod.Patch
    else if (ch =? Character.O)%Z then found 3 HttpMethod.Post
    else if (ch =? Character.U)%Z then found 2 HttpMethod.Put
    else mret HttpMethod.None
  else if (ch =? Character.T)%Z then found 5 HttpMethod.Trace
  else mret HttpMethod.None.

Definition scan_method : M HttpScanner HttpMethod.t :=
  token ← scan_method_name;
  s ← get;
  if (size s <=? position s)%nat then throw invalid_request else mret token.

(** [while (position < size && (is_pchar (ch) || extra (ch)))]: [ch] is the
    character read before the test. *)
Definition scan_pchars (extra : Z → bool) : M HttpScanner unit :=
  ch ← current_char;
  scan_loop (λ ch,
    s ← get;
    if negb (position s <? size s)%nat then mret (inr tt) else
    p ← is_pchar ch;
    if (p || extra ch : bool) then
      increment_position;;
      ch ← current_char;
      mret (inl ch)
    else mret (inr tt)) ch.

Definition is_slash (ch : Z) : bool := (ch =? Character.Slash)%Z.
Definition is_question (ch : Z) : bool := (ch =? Character.Question)%Z.

Definition scan_absolute_path : M HttpScanner ustring :=
  set_token_start_position;;
  scan_expected Character.Slash;;
  scan_pchars is_slash;;
  get_token_value.

Definition scan_query : M HttpScanner ustring :=
  set_token_start_position;;
  question ← next_char_is Character.Question;
  (if (question : bool) then scan_pchars (λ ch, is_slash ch || is_question ch) else mret tt);;
  get_token_value.

Definition scan_http_version : M HttpScanner RequestLineToken.t :=
  scan_expected Character.H;;
  advance_position 7;;
  current_char;;
  mret RequestLineToken.HttpVersion1_1.

Definition should_not_reach_here : exn := std_logic_error (u "Should not reach here.").

Definition scan_request_target : M HttpScanner unit :=
  scan_loop (λ _ : unit,
    s ← get;
    if negb (position s <? size s)%nat then throw should_not_reach_here else
    ch ← current_char;
    increment_position;;
    if (ch =? Character.Space)%Z then mret (inr tt)
    else if is_slash ch then mret (inl tt)
    else
      p ← is_pchar ch;
      if (p : bool) then mret (inl tt)
      else if is_question ch then mret (inr tt)
      else mret (inl tt)) tt.

(** ** Headers *)

Definition get_header (ch : ustring) : HttpHeader.t :=
  match find ch string_to_token with
  | Some header => header
  | None => HttpHeader.Unknown
  end.

(** [while (position < size && p (ch))] over a character read in advance. *)
Definition skip_blanks : M HttpScanner unit :=
  increment_position;;
  ch ← current_char;
  scan_loop (λ ch,
    s ← get;
    if (position s <? size s)%nat && is_blank ch then
      increment_position;;
      ch ← current_char;
      mret (inl ch)
    else mret (inr tt)) ch.

Definition scan_field_content : M HttpScanner bool :=
  save;;
  ch ← current_char;
  if negb (is_vchar ch || is_obs_text ch) then revert;; mret false else
  increment_position;;
  ch ← current_char;
  if negb (is_blank ch) then mret true else
  skip_blanks;;
  ch ← current_char;
  if negb (is_vchar ch) then revert;; mret false else
  increment_position;;
  mret true.

Definition scan_header_value : M HttpScanner unit :=
  scan_loop (λ _ : unit,
    s ← get;
    if negb (position s <? size s)%nat then mret (inr tt) else
    content ← scan_field_content;
    if (content : bool) then mret (inl tt) else
    ch ← current_char;
    if is_obs_text ch then increment_position;; mret (inl tt)
    else mret (inr tt)) tt.

Definition parse_error_in_header : exn := std_logic_error (u "Parse error in the header").

(** [while (position < size && p (current_char ())) increment_position ()]. *)
Definition scan_while (p : Z → bool) : M HttpScanner unit :=
  scan_loop (λ _ : unit,
    s ← get;
    if negb (position s <? size s)%nat then mret (inr tt) else
    ch ← current_char;
    if p ch then increment_position;; mret (inl tt) else mret (inr tt)) tt.

Definition scan_header : M HttpScanner HttpHeader.t :=
  set_token_start_position;;
  ch ← current_char;
  if negb (is_header_field_start ch) then
    end_of_headers ← scan_optional Character.CarriageReturn;
    if (end_of_headers : bool) then
      scan_expected Character.NewLine;;
      mret HttpHeader.End
    else throw parse_error_in_header
  else
    scan_while is_header_field_part;;
    name ← get_lower_cased_value;
    let header := get_header name in
    scan_expected Character.Colon;;
    scan_optional Character.Space;;
    set_token_start_position;;
    scan_header_value;;
    value ← get_token_value;
    modify (set_current_header (Some value));;
    scan_optional Character.Space;;
    scan_expected Character.CarriageReturn;;
    scan_expected Character.NewLine;;
    mret header.

Definition scan_rest_of_line : M HttpScanner unit :=
  scan_while (λ ch, negb (ch =? Character.CarriageReturn)%Z);;
  scan_expected Character.CarriageReturn;;
  scan_expected Character.NewLine.

(** ** The body *)

(** [length] is an [unsigned int]. *)
Definition scan_body (length_ : nat) : M HttpScanner ustring :=
  set_token_start_position;;
  scan_loop (λ i,
    s ← get;
    if (position s <? size s)%nat && (i <? length_)%nat then
      increment_position;;
      mret (inl (S i))
    else mret (inr tt)) 0%nat;;
  get_token_value.
