(* ===== verification/HttpParser.v ===== *)
(** * [program/http_parser.cpp]: the parser of HTTP requests

    The only member of [HttpParser] that is used is its scanner, so its
    operations are operations on the scanner. *)
From S2P Require Import Prelude Monad StdMap Character Cstring HttpHeaders HttpScanner.

(** The order of the enumerators, which is the order of their values. *)
#[export] Instance header_order : KeyOrder HttpHeader.t.
Proof.
  refine {| key_ltb a b := (HttpHeader.index a <? HttpHeader.index b)%nat |};
    intros; rewrite ?Nat.ltb_lt, ?Nat.ltb_ge, ?Nat.ltb_irrefl in *; try done; try lia.
  destruct (decide (HttpHeader.index a = HttpHeader.index b)) as [E|]; [left|right; lia].
  pose proof (HttpHeader.HttpHeader_all_index a). pose proof (HttpHeader.HttpHeader_all_index b).
  congruence.
Defined.

(** [struct RequestLine]. *)
Record RequestLine := mkRequestLine {
  line_method : HttpMethod.t;
  line_path : ustring;
  line_query : ustring
}.

(** [std::map<HttpHeader, char*>]: a value may be null. *)
Abbreviation headers_map := (std_map HttpHeader.t (option ustring)).

(** [struct HttpRequest]; its [client_stream] is null after [Parse]. *)
Record HttpRequest := mkHttpRequest {
  method : HttpMethod.t;
  path : ustring;
  query : ustring;
  headers : headers_map;
  body : option ustring
}.

Definition ParseRequestLine : M HttpScanner RequestLine :=
  method_ ← scan_method;
  scan_expected Character.Space;;
  path_ ← scan_absolute_path;
  query_ ← scan_query;
  scan_expected Character.Space;;
  scan_http_version;;
  scan_expected Character.CarriageReturn;;
  scan_expected Character.NewLine;;
  mret (mkRequestLine method_ path_ query_).

Definition parse_headers : M HttpScanner headers_map :=
  scan_loop (λ headers_,
    header ← scan_header;
    if decide (header = HttpHeader.End) then mret (inr headers_)
    else
      value ← get_header_value;
      mret (inl (insert_or_assign header value headers_))) [].

(** [scan_body] takes an [unsigned int]. *)
Definition parse_body (length_ : Z) : M HttpScanner ustring :=
  scan_body (Z.to_nat (length_ mod 2 ^ 32)).

(** [headers[key]]: an absent key gets a null value. *)
Definition subscript (key : HttpHeader.t) (headers_ : headers_map) :
    option ustring * headers_map :=
  match find key headers_ with
  | Some value => (value, headers_)
  | None => (None, emplace key None headers_)
  end.

Definition Parse : M HttpScanner HttpRequest :=
  request_line ← ParseRequestLine;
  headers_ ← parse_headers;
  let method_ := line_method request_line in
  let finish_request headers_ body_ :=
    mkHttpRequest method_ (line_path request_line) (line_query request_line) headers_ body_ in
  if decide (method_ = HttpMethod.Get) then mret (finish_request headers_ None)
  else
    let '(header, headers_) := subscript HttpHeader.ContentLength headers_ in
    match header with
    | Some value =>
        body_ ← parse_body (atoll value);
        mret (finish_request headers_ (Some body_))
    | None => mret (finish_request headers_ None)
    end.

(** [HttpParser (text, size).Parse ()]. *)
Definition parse_request (text_ : list Z) (size_ : nat) : outcome HttpScanner HttpRequest :=
  Parse (new_HttpScanner text_ size_).
