(* ===== verification/HttpWriter.v ===== *)
(** * [program/http_response.cpp]: the buffered HTTP writer

    The sockets and the TLS library are parameters: [Transport] has the calls
    of libuv and OpenSSL the writer makes, on a state of their own. *)
From S2P Require Import Prelude Monad Character Cstring HttpHeaders.

(** [uv_write] with one buffer gives a status; [SSL_write] encrypts into the
    write BIO, from which [BIO_read] takes at most the given number of bytes,
    none when it is empty; [bio_pending] is what it still holds. *)
Class Transport (T : Type) := {
  uv_write : list Z → T → Z * T;
  SSL_write : list Z → T → T;
  BIO_read : nat → T → list Z * T;
  bio_pending : T → nat
}.

Definition buffer_size : nat := 4096.

(** [class HttpWriter]: [write_buffer_] is an array of [buffer_size] bytes. *)
Record HttpWriter (T : Type) := mkHttpWriter {
  use_ssl : bool;
  write_buffer : list Z;
  position : nat;
  is_end : bool;
  tcp_handle : T
}.
Arguments mkHttpWriter {_}.
Arguments use_ssl {_}.
Arguments write_buffer {_}.
Arguments position {_}.
Arguments is_end {_}.
Arguments tcp_handle {_}.

Section writer.
Context {T : Type} `{Transport T}.

Definition set_write_buffer (v : list Z) (w : HttpWriter T) : HttpWriter T :=
  mkHttpWriter (use_ssl w) v (position w) (is_end w) (tcp_handle w).
Definition set_position (v : nat) (w : HttpWriter T) : HttpWriter T :=
  mkHttpWriter (use_ssl w) (write_buffer w) v (is_end w) (tcp_handle w).
Definition set_is_end (v : bool) (w : HttpWriter T) : HttpWriter T :=
  mkHttpWriter (use_ssl w) (write_buffer w) (position w) v (tcp_handle w).
Definition set_tcp_handle (v : T) (w : HttpWriter T) : HttpWriter T :=
  mkHttpWriter (use_ssl w) (write_buffer w) (position w) (is_end w) v.

(** The constructors: without or with a TLS handle. *)
Definition new_HttpWriter (ssl : bool) (handle : T) : HttpWriter T :=
  mkHttpWriter ssl (replicate buffer_size 0%Z) 0 false handle.

(** [uv_write (request, tcp_handle, &buffer, 1, OnWriteEnd)]. *)
Definition send (bytes : list Z) : M (HttpWriter T) Z := λ w,
  let '(r, t) := uv_write bytes (tcp_handle w) in Ok r (set_tcp_handle t w).

(** The status is printed and otherwise ignored. *)
Definition WriteToSocket : M (HttpWriter T) unit :=
  w ← get;
  send (take (position w) (write_buffer w));;
  mret tt.

Definition bio_buffer_size : nat := 1024 * 16.

(** The loop over the write BIO; [false] when a write failed, which returns
    from [FlushBuffer] and leaves the position where it is. *)
Definition write_bio : M (HttpWriter T) bool :=
  fuel ← gets (λ w, S (bio_pending (tcp_handle w)));
  loop fuel (λ _ : unit,
    w ← get;
    let '(bytes, t) := BIO_read bio_buffer_size (tcp_handle w) in
    modify (set_tcp_handle t);;
    match bytes with
    | [] => mret (inr true)
    | _ =>
        r ← send bytes;
        if (r <? 0)%Z then mret (inr false) else mret (inl tt)
    end) tt.

Definition FlushBuffer : M (HttpWriter T) unit :=
  w ← get;
  if (position w =? 0)%nat then mret tt
  else if use_ssl w then
    modify (λ w, set_tcp_handle
      (SSL_write (take (position w) (write_buffer w)) (tcp_handle w)) w);;
    written ← write_bio;
    if (written : bool) then modify (set_position 0) else mret tt
  else
    WriteToSocket;;
    modify (set_position 0).

(** [write_buffer_[position_] = c; position_++]: outside the array is undefined. *)
Definition put (c : Z) : M (HttpWriter T) unit :=
  w ← get;
  if (position w <? length (write_buffer w))%nat then
    modify (λ w, set_write_buffer (<[position w := c]> (write_buffer w)) w);;
    modify (λ w, set_position (S (position w)) w)
  else undefined.

Definition Write (text : list Z) : M (HttpWriter T) unit :=
  for_each (c_string text) (λ c,
    w ← get;
    when (position w =? buffer_size)%nat FlushBuffer;;
    put c).

(** [Write (text, args...)]. *)
Definition WriteAll (texts : list (list Z)) : M (HttpWriter T) unit := for_each texts Write.

Definition line_end : list Z := [Character.CarriageReturn; Character.NewLine].

(** [WriteLine (text, args...)]; without arguments it writes the line end. *)
Definition WriteLine (texts : list (list Z)) : M (HttpWriter T) unit :=
  WriteAll texts;;
  Write line_end.

(** Only four methods have a text. *)
Definition method_text (method : HttpMethod.t) : list Z :=
  match method with
  | HttpMethod.Get => u "GET "
  | HttpMethod.Post => u "POST "
  | HttpMethod.Patch => u "PATCH "
  | HttpMethod.Head => u "HEAD "
  | _ => []
  end.

Definition WriteRequest (method : HttpMethod.t) (path : list Z) : M (HttpWriter T) unit :=
  Write (method_text method);;
  Write path;;
  Write (u " HTTP/1.1" ++ line_end).

Definition End : M (HttpWriter T) unit :=
  FlushBuffer;;
  modify (set_is_end true).
End writer.
