(* ===== verification/MemoryPool.v ===== *)
(** * [lib/memory_pool.cpp]: blocks, tickets and allocation

    Addresses and sizes are [std::size_t]: integers modulo [2^64].  A ticket is
    an object at the start of a block of the pool; [tickets] is the part of the
    memory of the pool that holds tickets. *)
From stdpp Require Import gmap.
From S2P Require Import Prelude Monad.
Local Open Scope Z_scope.

Definition u64 (z : Z) : Z := z mod 2 ^ 64.

(** [class MemoryPoolTicket]: two [std::size_t]. *)
Record MemoryPoolTicket := mkTicket {
  offset : Z;
  block : Z
}.

Definition sizeof_MemoryPoolTicket : Z := 16.

(** [class MemoryPool]; the head of [free_blocks] is the top of the stack. *)
Record MemoryPool := mkMemoryPool {
  block_size : Z;
  total_size : Z;
  start_address_of_pool : Z;
  free_blocks : list Z;
  tickets : gmap Z MemoryPoolTicket
}.

Definition set_free_blocks (v : list Z) (p : MemoryPool) : MemoryPool :=
  mkMemoryPool (block_size p) (total_size p) (start_address_of_pool p) v (tickets p).
Definition set_tickets (v : gmap Z MemoryPoolTicket) (p : MemoryPool) : MemoryPool :=
  mkMemoryPool (block_size p) (total_size p) (start_address_of_pool p) (free_blocks p) v.

(** The address of block [x]: [start_address_of_pool + x * block_size]. *)
Definition block_address (p : MemoryPool) (x : Z) : Z :=
  u64 (start_address_of_pool p + u64 (x * block_size p)).

(** The loop of [Reset] pushes the blocks in increasing order. *)
Definition all_blocks (n : Z) : list Z := map Z.of_nat (seq 0 (Z.to_nat n)).

(** Division by a zero [block_size] is undefined; the stack is not cleared. *)
Definition Reset : M MemoryPool unit :=
  p ← get;
  if block_size p =? 0 then undefined
  else modify (λ p,
    set_free_blocks (rev (all_blocks (total_size p / block_size p)) ++ free_blocks p) p).

(** [MemoryPool (total_size, block_size)], [malloc] having returned [start]. *)
Definition new_MemoryPool (total_size_ block_size_ start : Z) : outcome MemoryPool unit :=
  Reset (mkMemoryPool block_size_ total_size_ start [] ∅).

(** [top] and [pop] of an empty stack are undefined. *)
Definition AllocateBlock : M MemoryPool Z :=
  p ← get;
  match free_blocks p with
  | [] => undefined
  | x :: rest => modify (set_free_blocks rest);; mret x
  end.

Definition read_ticket (ticket : Z) : M MemoryPool MemoryPoolTicket :=
  p ← get;
  deref (tickets p !! ticket).

Definition write_ticket (ticket : Z) (t : MemoryPoolTicket) : M MemoryPool unit :=
  modify (λ p, set_tickets (<[ticket := t]> (tickets p)) p).

Definition TakeTicket : M MemoryPool Z :=
  x ← AllocateBlock;
  p ← get;
  let ticket := block_address p x in
  write_ticket ticket (mkTicket sizeof_MemoryPoolTicket x);;
  mret ticket.

(** Only the block the ticket is in at last is given back. *)
Definition ReturnTicket (ticket : Z) : M MemoryPool unit :=
  t ← read_ticket ticket;
  modify (λ p, set_free_blocks (block t :: free_blocks p) p).

Definition out_of_memory : exn := std_logic_error
  (u "Out of memory: trying to allocate a block of memory for a request.").

(** The padding in front of an allocation, from the offset in the block. *)
Definition padding_of (alignment : Z) (t : MemoryPoolTicket) (current_address : Z) : Z :=
  if negb (alignment =? 0) && negb (offset t mod alignment =? 0) then
    u64 (u64 (u64 (current_address / alignment + 1) * alignment) - current_address)
  else 0.

(** [Allocate]: the recursion takes a free block each time; the address it
    returns is the one before the padding. *)
Fixpoint Allocate_rec (fuel : nat) (size alignment ticket : Z) : M MemoryPool Z :=
  match fuel with
  | O => out_of_fuel
  | S fuel' =>
      t ← read_ticket ticket;
      p ← get;
      let current_address := u64 (block_address p (block t) + offset t) in
      let padding := padding_of alignment t current_address in
      if block_size p <? u64 (u64 (offset t + padding) + size) then
        x ← AllocateBlock;
        write_ticket ticket (mkTicket 0 x);;
        if x =? 2 ^ 64 - 1 then throw out_of_memory
        else Allocate_rec fuel' size alignment ticket
      else
        write_ticket ticket (mkTicket (u64 (offset t + u64 (padding + size))) (block t));;
        mret current_address
  end.

Definition Allocate (size alignment ticket : Z) : M MemoryPool Z :=
  fuel ← gets (λ p, S (S (length (free_blocks p))));
  Allocate_rec fuel size alignment ticket.
