(* ===== verification/TextWriter.v ===== *)
(** * The text writer ([lib/text_writer.h], [lib/text_writer.cpp])

    A buffer with a cursor ([position], [column]), an indentation, tab stops,
    a stack of saved texts and named placeholders that can be written to
    later.  The buffer is a list of code units. *)
From S2P Require Import Prelude Monad Character StdMap.

(** [struct TextCursor]. *)
Record TextCursor := mkTextCursor {
  tc_position : nat;
  tc_column : nat;
  tc_indentation : Z
}.

(** [struct TextAndTextCursor]. *)
Record TextAndTextCursor := mkTextAndTextCursor {
  ttc_cursor : TextCursor;
  ttc_text : ustring
}.

(** [struct PlaceholderTextCursor]. *)
Record PlaceholderTextCursor := mkPlaceholderTextCursor {
  ptc_cursor : TextCursor;
  ptc_placeholder : ustring;
  ptc_text_end : ustring
}.

(** [class TextWriter].  [indentation] is a 32-bit unsigned integer;
    [current_placeholders] grows at its end, the stacks at their head;
    [window_width] is never used. *)
Record TextWriter := mkTextWriter {
  text : ustring;
  position : nat;
  column : nat;
  indentation : Z;
  tabs : list nat;
  current_placeholders : list ustring;
  placeholders : std_map ustring TextCursor;
  saved_placeholder_text_cursors : list PlaceholderTextCursor;
  saved_text_cursors : list TextAndTextCursor
}.

Definition set_text (v : ustring) (x : TextWriter) : TextWriter :=
  mkTextWriter v (position x) (column x) (indentation x) (tabs x) (current_placeholders x)
      (placeholders x) (saved_placeholder_text_cursors x) (saved_text_cursors x).
Definition set_position (v : nat) (x : TextWriter) : TextWriter :=
  mkTextWriter (text x) v (column x) (indentation x) (tabs x) (current_placeholders x)
      (placeholders x) (saved_placeholder_text_cursors x) (saved_text_cursors x).
Definition set_column (v : nat) (x : TextWriter) : TextWriter :=
  mkTextWriter (text x) (position x) v (indentation x) (tabs x) (current_placeholders x)
      (placeholders x) (saved_placeholder_text_cursors x) (saved_text_cursors x).
Definition set_indentation (v : Z) (x : TextWriter) : TextWriter :=
  mkTextWriter (text x) (position x) (column x) v (tabs x) (current_placeholders x) (placeholders
      x) (saved_placeholder_text_cursors x) (saved_text_cursors x).
Definition set_tabs (v : list nat) (x : TextWriter) : TextWriter :=
  mkTextWriter (text x) (position x) (column x) (indentation x) v (current_placeholders x)
      (placeholders x) (saved_placeholder_text_cursors x) (saved_text_cursors x).
Definition set_current_placeholders (v : list ustring) (x : TextWriter) : TextWriter :=
  mkTextWriter (text x) (position x) (column x) (indentation x) (tabs x) v (placeholders x)
      (saved_placeholder_text_cursors x) (saved_text_cursors x).
Definition set_placeholders (v : std_map ustring TextCursor) (x : TextWriter) : TextWriter :=
  mkTextWriter (text x) (position x) (column x) (indentation x) (tabs x) (current_placeholders x) v
      (saved_placeholder_text_cursors x) (saved_text_cursors x).
Definition set_saved_placeholder_text_cursors (v : list PlaceholderTextCursor) (x : TextWriter) :
    TextWriter :=
  mkTextWriter (text x) (position x) (column x) (indentation x) (tabs x) (current_placeholders x)
      (placeholders x) v (saved_text_cursors x).
Definition set_saved_text_cursors (v : list TextAndTextCursor) (x : TextWriter) : TextWriter :=
  mkTextWriter (text x) (position x) (column x) (indentation x) (tabs x) (current_placeholders x)
      (placeholders x) (saved_placeholder_text_cursors x) v.

Definition new_TextWriter : TextWriter := mkTextWriter [] 0 0 0 [] [] [] [] [].

Definition indentation_step : Z := 4.

(** [unsigned int] arithmetic. *)
Definition u32z (z : Z) : Z := (z mod 2 ^ 32)%Z.

Definition indent : M TextWriter unit :=
  modify (λ w, set_indentation (u32z (indentation w + indentation_step)) w).

Definition unindent : M TextWriter unit :=
  modify (λ w, set_indentation (u32z (indentation w - indentation_step)) w).

(** [*text += t; column += n; position += n;] *)
Definition append (t : ustring) : M TextWriter unit :=
  modify (λ w, set_text (text w ++ t) w);;
  modify (λ w, set_column (column w + length t) w);;
  modify (λ w, set_position (position w + length t) w).

(** The counter is an [int]: counting to [2 ^ 31] or more overflows it. *)
Definition print_indentation : M TextWriter unit :=
  w ← get;
  if (2 ^ 31 <=? indentation w)%Z then undefined
  else for_each (replicate (Z.to_nat (indentation w)) tt) (λ _, append [Character.Space]).

Definition add_tab (n : nat) : M TextWriter unit :=
  modify (λ w, set_tabs (tabs w ++ [n]) w).

(** [tab]: up to the first stop right of the column, one space per stop passed. *)
Definition tab : M TextWriter unit :=
  w ← get;
  for_each_break (tabs w) (λ stop,
    w ← get;
    if (column w <? stop)%nat then
      append (replicate (stop - column w) Character.Space);; mret true
    else append [Character.Space];; mret false).

Definition clear_tabs : M TextWriter unit := modify (set_tabs []).

Definition newline : M TextWriter unit :=
  modify (λ w, set_text (text w ++ [Character.NewLine]) w);;
  modify (set_column 0);;
  modify (λ w, set_position (S (position w)) w).

Definition write (t : ustring) : M TextWriter unit :=
  w ← get;
  when (column w =? 0)%nat print_indentation;;
  append t.

Definition write_line (t : ustring) : M TextWriter unit := write t;; newline.

Section replacement.
(** [boost::replace_all_copy], which [replace_string] of utils.cpp returns. *)
Variable replace_all_copy : ustring → ustring → ustring → ustring.

Definition write_replacement (t replacement : ustring) : M TextWriter unit :=
  w ← get;
  when (column w =? 0)%nat print_indentation;;
  append (replace_all_copy t (u "{0}") replacement).

Definition write_line_replacement (t replacement : ustring) : M TextWriter unit :=
  write_replacement t replacement;; newline.
End replacement.

Definition cursor (w : TextWriter) : TextCursor :=
  mkTextCursor (position w) (column w) (indentation w).

Definition save : M TextWriter unit :=
  modify (λ w, set_saved_text_cursors
    (mkTextAndTextCursor (cursor w) (text w) :: saved_text_cursors w) w).

(** [restore] does not restore the indentation. *)
Definition restore : M TextWriter unit :=
  w ← get;
  match saved_text_cursors w with
  | [] => throw (std_domain_error (u "You have restored all saves."))
  | c :: rest =>
      modify (set_position (tc_position (ttc_cursor c)));;
      modify (set_column (tc_column (ttc_cursor c)));;
      modify (set_text (ttc_text c));;
      modify (set_saved_text_cursors rest)
  end.

Definition add_placeholder (m : ustring) : M TextWriter unit :=
  w ← get;
  if contains m (placeholders w) then
    throw (std_invalid_argument (u "The placeholder '" ++ m ++ u "' is already added."))
  else if negb (bool_decide (current_placeholders w = [])) then
    throw (std_domain_error (u "Cannot add a placeholder when writing to one."))
  else modify (λ w, set_placeholders (insert_or_assign m (cursor w) (placeholders w)) w).

Definition save_placeholder_text_cursor (placeholder text_end : ustring) : M TextWriter unit :=
  modify (λ w, set_saved_placeholder_text_cursors
    (mkPlaceholderTextCursor (cursor w) placeholder text_end
      :: saved_placeholder_text_cursors w) w).

Definition restore_placeholder_text_cursor (diff_in_position : nat) : M TextWriter unit :=
  w ← get;
  match saved_placeholder_text_cursors w with
  | [] => undefined
  | c :: _ =>
      modify (set_position (tc_position (ptc_cursor c) + diff_in_position));;
      modify (set_column (tc_column (ptc_cursor c)));;
      modify (set_indentation (tc_indentation (ptc_cursor c)));;
      modify (λ w, set_text (text w ++ ptc_text_end c) w)
  end.

Definition begin_write_on_placeholder (placeholder : ustring) : M TextWriter unit :=
  w ← get;
  match find placeholder (placeholders w) with
  | None => throw (std_invalid_argument (u "Cannot find placeholder '" ++ placeholder ++ u "'."))
  | Some c =>
      if bool_decide (list.last (current_placeholders w) = Some placeholder) then
        throw (std_invalid_argument
          (u "Cannot begin write on an already begun placeholder write '" ++ placeholder ++ u "'."))
      else if (length (text w) <? tc_position c)%nat then
        back ← deref (list.last (current_placeholders w));
        throw (std_invalid_argument (u "Cannot begin writing on placeholder '" ++ placeholder
          ++ u "', which begins after the current placeholder '" ++ back ++ u "'."))
      else
        save_placeholder_text_cursor placeholder (drop (tc_position c) (text w));;
        modify (set_position (tc_position c));;
        modify (set_column (tc_column c));;
        modify (set_indentation (tc_indentation c));;
        modify (λ w, set_text (take (position w) (text w)) w);;
        modify (λ w, set_current_placeholders (current_placeholders w ++ [placeholder]) w)
  end.

Definition end_write_on_placeholder : M TextWriter unit :=
  w ← get;
  match saved_placeholder_text_cursors w with
  | [] => throw (std_domain_error (u "You have ended all started placeholders."))
  | saved :: rest =>
      let placeholder := ptc_placeholder saved in
      c ← deref (find placeholder (placeholders w));
      (if (tc_position c <=? tc_position (ptc_cursor saved))%nat
       then restore_placeholder_text_cursor (position w - tc_position c)
       else restore_placeholder_text_cursor 0);;
      modify (λ w, set_placeholders (erase placeholder (placeholders w)) w);;
      modify (λ w, set_current_placeholders
        (base.filter (λ p, p ≠ placeholder) (current_placeholders w)) w);;
      modify (set_saved_placeholder_text_cursors rest)
  end.
