(* ===== verification/TextAnnotater.v ===== *)
(** * The text annotater ([lib/text_annotater.h], [lib/text_annotater.cpp])

    Writes the lines of a source, each followed by the annotations at it, on a
    [TextWriter]; and the writer of the diagnostics of a test case
    ([test/diagnostic_writer.cpp]), its client.  Strings are [std::string]s:
    lists of bytes. *)
From stdpp Require Import sorting.
From S2P Require Import Prelude Monad Character StdMap Cstring Diagnostic Utils TextWriter.

(** ** [std::sort] *)

(** The order of the elements of a list is a strict weak ordering. *)
Record strict_weak_order {A} (before : A → A → bool) (l : list A) : Prop := {
  before_irreflexive : ∀ a, a ∈ l → before a a = false;
  before_transitive : ∀ a b c, a ∈ l → b ∈ l → c ∈ l →
    before a b = true → before b c = true → before a c = true;
  incomparable_transitive : ∀ a b c, a ∈ l → b ∈ l → c ∈ l →
    before a b = false → before b a = false → before b c = false → before c b = false →
    before a c = false ∧ before c a = false
}.

(** No element is before an earlier one. *)
Definition in_order {A} (before : A → A → bool) (l : list A) : Prop :=
  StronglySorted (λ a b, before b a = false) l.

(** What [std::sort] promises: it may reorder equivalent elements. *)
Class StdSort := {
  std_sort : ∀ {A}, (A → A → bool) → list A → list A;
  std_sort_permutes : ∀ {A} (before : A → A → bool) l,
    strict_weak_order before l → Permutation l (std_sort before l);
  std_sort_orders : ∀ {A} (before : A → A → bool) l,
    strict_weak_order before l → in_order before (std_sort before l)
}.

(** ** State *)

(** [struct Annotation]. *)
Record Annotation := mkAnnotation {
  annotation_location : Location;
  annotation_text : list Z
}.

(** [class TextAnnotater]. *)
Record TextAnnotater := mkTextAnnotater {
  lines : list (list Z);
  annotations : std_map nat (list Annotation)
}.

(** The lines [std::getline] reads, and an empty one after a newline at the end. *)
Definition set_source (source : list Z) : TextAnnotater :=
  let lines := getlines Character.NewLine source in
  let item := last_item Character.NewLine [] source in
  mkTextAnnotater (if bool_decide (item = []) then lines ++ [[]] else lines) [].

Definition at_line (line : nat) (l : Location) : Location :=
  mkLocation line (loc_column l) (loc_length l) (end_of_source l).

Definition annotate (text : list Z) (location : Location) (t : TextAnnotater) : TextAnnotater :=
  let l := if end_of_source location then at_line (length (lines t)) location else location in
  let annotation := mkAnnotation l text in
  match find (loc_line l) (annotations t) with
  | Some vec => mkTextAnnotater (lines t)
      (insert_or_assign (loc_line l) (vec ++ [annotation]) (annotations t))
  | None => mkTextAnnotater (lines t)
      (insert_or_assign (loc_line l) [annotation] (annotations t))
  end.

(** The order of the annotations of a line. *)
Definition annotation_before (a b : Annotation) : bool :=
  let la := annotation_location a in
  let lb := annotation_location b in
  if end_of_source la then false
  else if end_of_source lb then true
  else if (loc_line la <? loc_line lb)%nat then true
  else (loc_column la <? loc_column lb)%nat.

Definition to_last_line (last : nat) (a : Annotation) : Annotation :=
  if end_of_source (annotation_location a)
  then mkAnnotation (at_line last (annotation_location a)) (annotation_text a) else a.

(** A loop that writes a character; its counter is an [int]. *)
Definition write_times (first count : Z) (c : ustring) : M TextWriter unit :=
  if (2 ^ 31 <=? count)%Z then undefined
  else for_each (replicate (Z.to_nat (count - first)) tt) (λ _, write c).

(** [std::min (length, size + 1 - column)] on [std::size_t]s. *)
Definition marked (size : nat) (location : Location) : Z :=
  Z.min (Z.of_nat (loc_length location))
    ((Z.of_nat size + 1 - Z.of_nat (loc_column location)) mod 2 ^ 64).

(** " (line, column, length)". *)
Definition place (location : Location) : ustring :=
  u " (" ++ to_string (Z.of_nat (loc_line location)) ++ u ", "
    ++ to_string (Z.of_nat (loc_column location)) ++ u ", "
    ++ to_string (Z.of_nat (loc_length location)) ++ u ")".

Definition write_annotation (size : nat) (a : Annotation) : M TextWriter unit :=
  let location := annotation_location a in
  write_times 1 (Z.of_nat (loc_column location)) (u " ");;
  write_times 0 (marked size location) (u "~");;
  (if negb (end_of_source location) then write (place location)
   else newline;; write (u "END_OF_DOCUMENT:"));;
  newline;;
  write (u "!!! " ++ annotation_text a);;
  save;;
  newline.

Section sorting.
Context `{StdSort}.

Definition sorted_annotations (t : TextAnnotater) (line : nat) : list Annotation :=
  match find line (annotations t) with
  | Some annotations =>
      map (to_last_line (length (lines t))) (std_sort annotation_before annotations)
  | None => []
  end.

Definition write_line_annotated (t : TextAnnotater) (i : nat) (line : list Z) :
    M TextWriter unit :=
  write line;;
  save;;
  newline;;
  for_each (sorted_annotations t (i + 1)) (write_annotation (length line)).

Definition to_string (t : TextAnnotater) : M TextWriter (list Z) :=
  for_each (imap pair (lines t)) (λ '(i, line), write_line_annotated t i line);;
  restore;;
  gets text.

(** ** [DiagnosticWriter] *)

(** Its state is the bytes of [annotated_source]. *)
Definition add_source (source : ustring) : M (list Z) unit :=
  modify (λ annotated_source, annotated_source ++ raw source).

(** [message] is the rendered text of a diagnostic; the writer of
    [to_string] is a local variable. *)
Definition add_diagnostics (message : DiagnosticMessage → list Z)
    (diagnostics : list DiagnosticMessage) (source : ustring) : M (list Z) unit :=
  let text_annotater := fold_left (λ t diagnostic,
      annotate (message diagnostic) (location diagnostic) t) diagnostics
    (set_source (raw source)) in
  λ annotated_source,
    match to_string text_annotater new_TextWriter with
    | Ok s _ => Ok tt (annotated_source ++ s)
    | Throw e _ => Throw e annotated_source
    | Undefined => Undefined
    | OutOfFuel => OutOfFuel
    end.
End sorting.
