(* ===== verification/TestCaseScanner.v ===== *)
(** * The scanner of test cases ([test/test_case_scanner.h], [.cpp])

    A test file is a source code template followed by directives:
    [@foreach (names): [name: "text"] ...] and
    [@test (names): [name: "text"]: { name: "text" } ... @end].  [scan] gives the
    test cases, one for every choice of the rows of the [@foreach] directives.
    The texts are [Glib::ustring]s and [std::string]s of the same text, kept as
    code points; the boost regular expressions are a parameter. *)
From S2P Require Import Prelude Monad Character StdMap Diagnostic.

#[local] Arguments u : simpl never.

(** ** Data *)

(** [class D] of [test_case_diagnostics.h]. *)
Module TestD.
Inductive t :=
  | Expected_0_but_got_1
  | Expected_directive
  | Expected_end_directive_instead_reached_the_end_of_the_document
  | Expected_identifier.

Definition message_template (d : t) : ustring :=
  match d with
  | Expected_0_but_got_1 => u "Expected '{0}', but got '{1}'."
  | Expected_directive => u "Expected directive."
  | Expected_end_directive_instead_reached_the_end_of_the_document =>
      u "Expected end directive, instead reached the end of the document."
  | Expected_identifier => u "Expected identifier."
  end.
End TestD.

Record TestDiagnostic := mkTestDiagnostic {
  test_template : TestD.t;
  test_arguments : list ustring;
  test_location : Location
}.

(** [enum class TestCaseToken]. *)
Module TestCaseToken.
Inductive t :=
  | Unknown
  | TestDirective
  | EndDirective
  | ForEachDirective
  | CasesKeyword
  | EndKeyword
  | OpenBracket
  | OpenParen
  | CloseBracket
  | OpenBrace
  | CloseBrace
  | CloseParen
  | Colon
  | Comma
  | StringLiteral
  | Hash
  | At
  | Identifier
  | WhiteSpace
  | EndOfDocument.
End TestCaseToken.

#[export] Instance TestCaseToken_eq_dec : EqDecision TestCaseToken.t.
Proof. solve_decision. Defined.

(** [testCaseStringToToken]. *)
Definition testCaseStringToToken (value : ustring) : option TestCaseToken.t :=
  if decide (value = u "@end") then Some TestCaseToken.EndDirective
  else if decide (value = u "@foreach") then Some TestCaseToken.ForEachDirective
  else if decide (value = u "@test") then Some TestCaseToken.TestDirective
  else if decide (value = u ":") then Some TestCaseToken.Colon
  else None.

Definition test_case_token_to_string (token : TestCaseToken.t) : option ustring :=
  match token with
  | TestCaseToken.TestDirective => Some (u "@test")
  | TestCaseToken.EndKeyword => Some (u "@end")
  | TestCaseToken.Colon => Some (u ":")
  | _ => None
  end.

(** [struct TestCaseArguments]. *)
Record TestCaseArguments := mkTestCaseArguments {
  file_arguments : std_map ustring ustring;
  source_code_arguments : std_map ustring ustring
}.

(** [struct SavedTextCursor]. *)
Record SavedTextCursor := mkSavedTextCursor {
  saved_position : nat;
  saved_line : nat;
  saved_column : nat;
  saved_token_start_position : nat;
  saved_token_start_line : nat;
  saved_token_start_column : nat
}.

(** [class TestCaseScanner]; the stack grows at its head, [scanned_arguments] is
    never used. *)
Record TestCaseScanner := mkTestCaseScanner {
  source : ustring;
  size : nat;
  string_literal : ustring;
  source_code_template : ustring;
  position : nat;
  line : nat;
  column : nat;
  token_start_position : nat;
  token_start_line : nat;
  token_start_column : nat;
  newline_position : nat;
  saved_text_cursors : list SavedTextCursor;
  in_definition_location : bool;
  diagnostics : list TestDiagnostic
}.

(** The members the constructor leaves uninitialised. *)
Record uninitialised := mkUninitialised {
  any_token_start_position : nat;
  any_token_start_line : nat;
  any_token_start_column : nat;
  any_newline_position : nat
}.

Definition new_TestCaseScanner (any : uninitialised) (source : ustring) : TestCaseScanner :=
  mkTestCaseScanner source (length source) [] source 0 1 1 (any_token_start_position any)
    (any_token_start_line any) (any_token_start_column any) (any_newline_position any) [] false [].

(** The members [save] keeps. *)
Definition set_cursor (position line column token_start_position token_start_line
    token_start_column : nat) (s : TestCaseScanner) : TestCaseScanner :=
  mkTestCaseScanner (source s) (size s) (string_literal s) (source_code_template s) position line
    column token_start_position token_start_line token_start_column (newline_position s)
    (saved_text_cursors s) (in_definition_location s) (diagnostics s).

Definition set_position_column (position column : nat) (s : TestCaseScanner) : TestCaseScanner :=
  set_cursor position (line s) column (token_start_position s) (token_start_line s)
    (token_start_column s) s.
Definition set_column (column : nat) (s : TestCaseScanner) : TestCaseScanner :=
  set_position_column (position s) column s.
Definition set_token_start (token_start_position token_start_line token_start_column : nat)
    (s : TestCaseScanner) : TestCaseScanner :=
  set_cursor (position s) (line s) (column s) token_start_position token_start_line
    token_start_column s.
Definition set_string_literal (v : ustring) (s : TestCaseScanner) : TestCaseScanner :=
  mkTestCaseScanner (source s) (size s) v (source_code_template s) (position s) (line s) (column s)
    (token_start_position s) (token_start_line s) (token_start_column s) (newline_position s)
    (saved_text_cursors s) (in_definition_location s) (diagnostics s).
Definition set_newline_position (v : nat) (s : TestCaseScanner) : TestCaseScanner :=
  mkTestCaseScanner (source s) (size s) (string_literal s) (source_code_template s) (position s)
    (line s) (column s) (token_start_position s) (token_start_line s) (token_start_column s) v
    (saved_text_cursors s) (in_definition_location s) (diagnostics s).
Definition set_saved_text_cursors (v : list SavedTextCursor) (s : TestCaseScanner) :
    TestCaseScanner :=
  mkTestCaseScanner (source s) (size s) (string_literal s) (source_code_template s) (position s)
    (line s) (column s) (token_start_position s) (token_start_line s) (token_start_column s)
    (newline_position s) v (in_definition_location s) (diagnostics s).
Definition set_diagnostics (v : list TestDiagnostic) (s : TestCaseScanner) : TestCaseScanner :=
  mkTestCaseScanner (source s) (size s) (string_literal s) (source_code_template s) (position s)
    (line s) (column s) (token_start_position s) (token_start_line s) (token_start_column s)
    (newline_position s) (saved_text_cursors s) (in_definition_location s) v.
(** [source_code_template = ...; in_definition_location = true;] *)
Definition begin_definitions (template : ustring) (s : TestCaseScanner) : TestCaseScanner :=
  mkTestCaseScanner (source s) (size s) (string_literal s) template (position s)
    (line s) (column s) (token_start_position s) (token_start_line s) (token_start_column s)
    (newline_position s) (saved_text_cursors s) true (diagnostics s).

(** ** Characters *)

(** [source[i]]: NUL at the end of the text; further reads are undefined. *)
Definition source_at (i : nat) : M TestCaseScanner char32 := λ s,
  if (i <? size s)%nat then Ok (nth i (source s) 0%Z) s
  else if (i =? size s)%nat then Ok 0%Z s
  else Undefined.

Definition current_char : M TestCaseScanner char32 :=
  pos ← gets position;
  source_at pos.

Definition increment_position : M TestCaseScanner unit :=
  modify (λ s, set_position_column (position s) (S (column s)) s);;
  modify (λ s, set_position_column (S (position s)) (column s) s).

Definition set_token_start_position : M TestCaseScanner unit :=
  modify (λ s, set_token_start (position s) (token_start_line s) (token_start_column s) s).

Definition get_token_length (s : TestCaseScanner) : nat :=
  (position s - token_start_position s)%nat.

(** [source.substr (i, n)]. *)
Definition source_substr (i n : nat) : M TestCaseScanner ustring :=
  s ← get;
  if (size s <? i)%nat then throw std_out_of_range else mret (substr i n (source s)).

Definition get_token_value : M TestCaseScanner ustring :=
  s ← get;
  source_substr (token_start_position s) (get_token_length s).

Definition get_string_literal : M TestCaseScanner ustring := gets string_literal.

Definition get_token_location (s : TestCaseScanner) : Location :=
  mkLocation (token_start_line s) (token_start_column s) (get_token_length s)
    (size s <=? position s)%nat.

(** [add_diagnostic] of [DiagnosticTrait]. *)
Definition add_diagnostic (d : TestD.t) (args : list ustring) : M TestCaseScanner unit :=
  modify (λ s, set_diagnostics
    (diagnostics s ++ [mkTestDiagnostic d args (get_token_location s)]) s).

Definition is_identifier_start (ch : char32) : bool :=
  ((Character.A <=? ch) && (ch <=? Character.Z))%Z
  || ((Character.a <=? ch) && (ch <=? Character.z))%Z || (ch =? Character.Underscore)%Z.

Definition is_identifier_part (ch : char32) : bool :=
  ((Character.a <=? ch) && (ch <=? Character.z))%Z
  || ((Character.A <=? ch) && (ch <=? Character.Z))%Z
  || ((Character._0 <=? ch) && (ch <=? Character._9))%Z || (ch =? Character.Underscore)%Z.

Definition save : M TestCaseScanner unit :=
  modify (λ s, set_saved_text_cursors
    (mkSavedTextCursor (position s) (line s) (column s) (token_start_position s)
      (token_start_line s) (token_start_column s) :: saved_text_cursors s) s).

Definition revert : M TestCaseScanner unit :=
  s ← get;
  match saved_text_cursors s with
  | [] => undefined
  | c :: rest =>
      modify (set_cursor (saved_position c) (saved_line c) (saved_column c)
        (saved_token_start_position c) (saved_token_start_line c) (saved_token_start_column c));;
      modify (set_saved_text_cursors rest)
  end.

(** ** Tokens *)

(** Loops of the scanner: every iteration moves the cursor, which is at most one
    behind the end of the text. *)
Definition scan_fuel (s : TestCaseScanner) : nat := (2 + size s)%nat.

Definition scan_loop {A B} (body : A → M TestCaseScanner (A + B)) (a : A) : M TestCaseScanner B :=
  s ← get;
  loop (scan_fuel s) body a.

(** The characters a backslash escapes. *)
Definition is_escape (ch : char32) : bool :=
  bool_decide (ch ∈ [Character.DoubleQuote; Character.Backslash; Character.Slash;
    Character.b; Character.f; Character.n; Character.r; Character.t]).

Definition scan_escape_sequence : M TestCaseScanner unit :=
  increment_position;;
  ch ← current_char;
  when (is_escape ch) increment_position.

Definition scan_string_literal : M TestCaseScanner TestCaseToken.t :=
  start ← gets position;
  modify (set_string_literal []);;
  scan_loop (λ _,
    s ← get;
    if (size s <? position s)%nat then mret (inr TestCaseToken.StringLiteral) else
    ch ← current_char;
    if (ch =? Character.Backslash)%Z then scan_escape_sequence;; mret (inl tt)
    else if (ch =? Character.DoubleQuote)%Z then
      text ← source_substr start (position s - start);
      modify (λ s, set_string_literal (string_literal s ++ text) s);;
      increment_position;;
      mret (inr TestCaseToken.StringLiteral)
    else increment_position;; mret (inl tt)) tt.

Definition get_token_from_value (value : ustring) (size : nat) : TestCaseToken.t :=
  default TestCaseToken.Identifier (testCaseStringToToken value).

(** The cases of the second [switch] that return. *)
Definition punctuation (ch : char32) : option TestCaseToken.t :=
  if (ch =? Character.Colon)%Z then Some TestCaseToken.Colon
  else if (ch =? Character.Comma)%Z then Some TestCaseToken.Comma
  else if (ch =? Character.OpenParen)%Z then Some TestCaseToken.OpenParen
  else if (ch =? Character.CloseParen)%Z then Some TestCaseToken.CloseParen
  else if (ch =? Character.OpenBracket)%Z then Some TestCaseToken.OpenBracket
  else if (ch =? Character.CloseBracket)%Z then Some TestCaseToken.CloseBracket
  else if (ch =? Character.OpenBrace)%Z then Some TestCaseToken.OpenBrace
  else if (ch =? Character.CloseBrace)%Z then Some TestCaseToken.CloseBrace
  else None.

(** A new line that is skipped. *)
Definition skip_new_line (s : TestCaseScanner) : TestCaseScanner :=
  set_token_start (S (token_start_position s)) (S (token_start_line s)) 1 (set_column 1 s).

Definition skip_character (s : TestCaseScanner) : TestCaseScanner :=
  set_token_start (S (token_start_position s)) (token_start_line s) (S (token_start_column s)) s.

Definition scan_identifier_parts (name_size : nat) : M TestCaseScanner nat :=
  scan_loop (λ name_size,
    s ← get;
    if negb (position s <? size s)%nat then mret (inr name_size) else
    ch ← current_char;
    if is_identifier_part ch then increment_position;; mret (inl (S name_size))
    else mret (inr name_size)) name_size.

(** A name; behind an [@] it is a directive, or ignored. *)
Definition take_name (last_one_was_at_char : bool) : M TestCaseScanner (bool + TestCaseToken.t) :=
  name_size ← scan_identifier_parts 1;
  value ← get_token_value;
  let token := get_token_from_value value name_size in
  if negb last_one_was_at_char then mret (inr TestCaseToken.Identifier) else
  match token with
  | TestCaseToken.ForEachDirective | TestCaseToken.TestDirective =>
      s ← get;
      (if negb (in_definition_location s) then
        template ← source_substr 0 (newline_position s);
        modify (begin_definitions template)
      else mret tt);;
      mret (inr token)
  | TestCaseToken.EndDirective => mret (inr token)
  | _ => set_token_start_position;; mret (inl last_one_was_at_char)
  end.

(** One iteration of the loop of [take_next_token]; it keeps
    [last_one_was_at_char].  After a carriage return the character behind the
    next one is looked at. *)
Definition take_next_token_body (skip_white_space last_one_was_at_char : bool) :
    M TestCaseScanner (bool + TestCaseToken.t) :=
  s ← get;
  if negb (position s <? size s)%nat then mret (inr TestCaseToken.EndOfDocument) else
  ch ← current_char;
  increment_position;;
  if (ch =? Character.NewLine)%Z then
    modify (λ s, set_newline_position (position s - 1) s);;
    if negb skip_white_space then mret (inr TestCaseToken.WhiteSpace) else
    modify skip_new_line;; mret (inl last_one_was_at_char)
  else if (ch =? Character.CarriageReturn)%Z then
    modify (λ s, set_newline_position (position s - 1) s);;
    s ← get;
    next ← source_at (position s + 1);
    when (next =? Character.NewLine)%Z increment_position;;
    if negb skip_white_space then mret (inr TestCaseToken.WhiteSpace) else
    modify skip_new_line;; mret (inl last_one_was_at_char)
  else if (ch =? Character.DoubleQuote)%Z then finish scan_string_literal
  else if ((ch =? Character.ByteOrderMark) || (ch =? Character.Space))%Z then
    if negb skip_white_space then mret (inr TestCaseToken.WhiteSpace) else
    modify skip_character;; mret (inl last_one_was_at_char)
  else if (ch =? Character.At)%Z then
    modify (λ s, set_token_start (position s - 1) (token_start_line s) (token_start_column s) s);;
    mret (inl true)
  else if negb (in_definition_location s) && negb last_one_was_at_char then
    mret (inl last_one_was_at_char)
  else if (ch =? Character.Hash)%Z then modify skip_character;; mret (inl last_one_was_at_char)
  else match punctuation ch with
  | Some token => mret (inr token)
  | None =>
      if is_identifier_start ch then take_name last_one_was_at_char
      else mret (inr TestCaseToken.Unknown)
  end.

Definition take_next_token_with (skip_white_space : bool) : M TestCaseScanner TestCaseToken.t :=
  set_token_start_position;;
  scan_loop (take_next_token_body skip_white_space) false.

Definition take_next_token : M TestCaseScanner TestCaseToken.t := take_next_token_with true.

(** [test_case_token_to_string.at (token)]. *)
Definition token_string_at (token : TestCaseToken.t) : M TestCaseScanner ustring :=
  match test_case_token_to_string token with
  | Some text => mret text
  | None => throw std_out_of_range
  end.

Definition scan_expected (token : TestCaseToken.t) : M TestCaseScanner bool :=
  result ← take_next_token;
  if decide (result = token) then mret true else
  expected ← token_string_at token;
  got ← match result with
        | TestCaseToken.EndOfDocument => mret (u "EndOfDocument")
        | _ =>
            match test_case_token_to_string result with
            | None => get_token_value
            | Some text => mret text
            end
        end;
  add_diagnostic TestD.Expected_0_but_got_1 [expected; got];;
  mret false.

Definition try_scan (token : TestCaseToken.t) : M TestCaseScanner TestCaseToken.t :=
  save;;
  result ← take_next_token;
  if decide (result = token) then mret token else revert;; mret result.

Definition scan_optional (token : TestCaseToken.t) : M TestCaseScanner bool :=
  result ← try_scan token;
  mret (bool_decide (result = token)).

(** ** Directives *)

Definition scan_parameters_after_open_paren : M TestCaseScanner (list ustring) :=
  scan_loop (λ parameters,
    token ← take_next_token;
    match token with
    | TestCaseToken.EndOfDocument => mret (inr parameters)
    | TestCaseToken.Identifier =>
        value ← get_token_value;
        let parameters := parameters ++ [value] in
        comma ← scan_optional TestCaseToken.Comma;
        if (comma : bool) then mret (inl parameters)
        else scan_expected TestCaseToken.CloseParen;; mret (inr parameters)
    | _ => add_diagnostic TestD.Expected_identifier [];; mret (inr parameters)
    end) [].

(** [key ":" string] behind the key; nothing where one of them is missing. *)
Definition scan_argument_value : M TestCaseScanner (option ustring) :=
  colon ← scan_expected TestCaseToken.Colon;
  if negb (colon : bool) then mret None else
  literal ← scan_expected TestCaseToken.StringLiteral;
  if negb (literal : bool) then mret None else
  value ← get_string_literal;
  mret (Some value).

(** The result is never null. *)
Definition parse_replacement_arguments : M TestCaseScanner (std_map ustring ustring) :=
  scan_loop (λ '(file_arguments, can_parse_comma),
    token ← take_next_token;
    match token with
    | TestCaseToken.EndOfDocument | TestCaseToken.CloseBracket => mret (inr file_arguments)
    | TestCaseToken.Comma =>
        if negb can_parse_comma then
          add_diagnostic TestD.Expected_identifier [];; mret (inl (file_arguments, can_parse_comma))
        else mret (inl (file_arguments, false))
    | TestCaseToken.Identifier =>
        key ← get_token_value;
        value ← scan_argument_value;
        match value with
        | None => mret (inr file_arguments)
        | Some value => mret (inl (emplace key value file_arguments, true))
        end
    | _ => add_diagnostic TestD.Expected_identifier [];; mret (inr file_arguments)
    end) ([], false).

Definition parse_content_arguments : M TestCaseScanner (option (std_map ustring ustring)) :=
  brace ← scan_expected TestCaseToken.OpenBrace;
  if negb (brace : bool) then mret None else
  scan_loop (λ content_arguments,
    token ← take_next_token;
    match token with
    | TestCaseToken.EndOfDocument | TestCaseToken.CloseBrace => mret (inr (Some content_arguments))
    | TestCaseToken.Comma => mret (inl content_arguments)
    | TestCaseToken.Identifier =>
        key ← get_token_value;
        value ← scan_argument_value;
        match value with
        | None => mret (inr None)
        | Some value => mret (inl (emplace key value content_arguments))
        end
    | _ => add_diagnostic TestD.Expected_identifier [];; mret (inr None)
    end) [].

Definition parse_test_case_arguments : M TestCaseScanner (option TestCaseArguments) :=
  file_arguments ← parse_replacement_arguments;
  colon ← scan_expected TestCaseToken.Colon;
  if negb (colon : bool) then mret None else
  content_arguments ← parse_content_arguments;
  match content_arguments with
  | None => mret None
  | Some content_arguments => mret (Some (mkTestCaseArguments file_arguments content_arguments))
  end.

(** The rows behind [@foreach (...):]. *)
Definition scan_foreach_rows : M TestCaseScanner (list (std_map ustring ustring)) :=
  scan_loop (λ foreach_statement,
    bracket ← scan_optional TestCaseToken.OpenBracket;
    if negb (bracket : bool) then mret (inr foreach_statement) else
    replacement_arguments ← parse_replacement_arguments;
    mret (inl (foreach_statement ++ [replacement_arguments]))) [].

(** The test cases behind [@test (...):]. *)
Definition scan_test_rows (test_cases : list TestCaseArguments) :
    M TestCaseScanner (list TestCaseArguments) :=
  scan_loop (λ test_cases,
    token ← take_next_token;
    match token with
    | TestCaseToken.EndOfDocument =>
        add_diagnostic TestD.Expected_end_directive_instead_reached_the_end_of_the_document [];;
        mret (inr test_cases)
    | TestCaseToken.EndDirective => mret (inr test_cases)
    | _ =>
        (if decide (token = TestCaseToken.OpenBracket) then mret tt
         else
          value ← get_token_value;
          add_diagnostic TestD.Expected_0_but_got_1 [u "["; value]);;
        t ← parse_test_case_arguments;
        match t with
        | None => mret (inl test_cases)
        | Some t => mret (inl (test_cases ++ [t]))
        end
    end) test_cases.

(** One turn of the loop of [scan] behind its token: the test cases and the
    [@foreach] statements; a result is [goto outer]. *)
Definition scan_directive
    (acc : list TestCaseArguments * list (list (std_map ustring ustring)))
    (token : TestCaseToken.t) :
    M TestCaseScanner
      (list TestCaseArguments * list (list (std_map ustring ustring)) +
       list TestCaseArguments * list (list (std_map ustring ustring))) :=
  let '(noexpanded_test_cases, foreach_statements) := acc in
  match token with
  | TestCaseToken.EndOfDocument => mret (inr acc)
  | TestCaseToken.ForEachDirective =>
      paren ← scan_expected TestCaseToken.OpenParen;
      if negb (paren : bool) then mret (inr acc) else
      scan_parameters_after_open_paren;;
      colon ← scan_expected TestCaseToken.Colon;
      if negb (colon : bool) then mret (inr acc) else
      foreach_statement ← scan_foreach_rows;
      mret (inl (noexpanded_test_cases, foreach_statements ++ [foreach_statement]))
  | TestCaseToken.TestDirective =>
      paren ← scan_expected TestCaseToken.OpenParen;
      if negb (paren : bool) then mret (inr acc) else
      scan_parameters_after_open_paren;;
      colon ← scan_expected TestCaseToken.Colon;
      if negb (colon : bool) then mret (inr acc) else
      test_cases ← scan_test_rows noexpanded_test_cases;
      mret (inr (test_cases, foreach_statements))
  | _ => mret (inl acc)
  end.

(** [scan] up to the label [outer]. *)
Definition scan_directives :
    M TestCaseScanner (list TestCaseArguments * list (list (std_map ustring ustring))) :=
  scan_loop (λ acc, token ← take_next_token; scan_directive acc token) ([], []).

(** ** Replacement *)

Section replacement.
(** [boost::regex_replace (text, boost::regex (pattern), replacement)]. *)
Variable regex_replace : ustring → ustring → ustring → ustring.

Abbreviation arguments := (std_map ustring ustring).

Definition replace_variables (replacements : arguments) (str : ustring) : ustring :=
  fold_left (λ str '(name, value), regex_replace str (u "\{\{" ++ name ++ u "\}\}") value)
    replacements str.

Definition replace_in_arguments (replacements args : arguments) : arguments :=
  fold_left (λ new '(name, value), emplace name (replace_variables replacements value) new) args [].

Definition expand_test_case (replacements : arguments) (t : TestCaseArguments) :
    TestCaseArguments :=
  mkTestCaseArguments (replace_in_arguments replacements (file_arguments t))
    (replace_in_arguments replacements (source_code_arguments t)).

Definition emplace_all (args replacements : arguments) : arguments :=
  fold_left (λ m '(name, value), emplace name value m) args replacements.

Definition erase_all (args replacements : arguments) : arguments :=
  fold_left (λ m '(name, _), erase name m) args replacements.

(** [replace_variable_test_case], on the statements from [index] on. *)
Fixpoint replace_variable_test_case (foreach_statements : list (list arguments))
    (noexpanded_test_cases expanded_test_cases : list TestCaseArguments)
    (replacements : arguments) : list TestCaseArguments :=
  match foreach_statements with
  | [] => expanded_test_cases ++ map (expand_test_case replacements) noexpanded_test_cases
  | foreach_statement :: rest =>
      let new_replacements := emplace_all replacements [] in
      fst (fold_left (λ '(expanded_test_cases, new_replacements) foreach_arguments,
          let new_replacements := emplace_all foreach_arguments new_replacements in
          (replace_variable_test_case rest noexpanded_test_cases expanded_test_cases
             new_replacements,
           erase_all foreach_arguments new_replacements))
        foreach_statement (expanded_test_cases, new_replacements))
  end.

Definition scan : M TestCaseScanner (list TestCaseArguments) :=
  '(noexpanded_test_cases, foreach_statements) ← scan_directives;
  mret (match foreach_statements with
        | [] => noexpanded_test_cases
        | _ => replace_variable_test_case foreach_statements noexpanded_test_cases [] []
        end).

Definition get_filename (filename_template : ustring) (file_arguments : arguments) : ustring :=
  fold_left (λ filename '(name, value), regex_replace filename (u "{" ++ name ++ u "}") value)
    file_arguments filename_template.

Definition get_source_code (source_code_arguments : arguments) (s : TestCaseScanner) : ustring :=
  fold_left (λ source_code '(name, value),
      regex_replace source_code (u "{{" ++ name ++ u "}}") value)
    source_code_arguments (source_code_template s).
End replacement.
