(* ===== verification/Scanner.v ===== *)
(** * The GraphQL scanner ([program/graphql/graphql_scanner.h], [.cpp])

    A [GraphQlScanner] is the record of the class's members; every member
    function is an operation on it.  The [while] loops of the source are
    [loop]s; the fuel is the length of the source plus two, which
    ScannerSpec.v proves sufficient.  Positions are [std::size_t]; they never
    exceed the source's length plus one, so none of the sums wraps, and
    [start_position] never exceeds [position], so [length] does not either. *)
From S2P Require Import Prelude Monad Character Cstring Diagnostic StdMap Syntaxes.

(** [enum class GraphQlToken] *)
Module GraphQlToken.
Inductive t :=
  | Unknown
  | G_Name
  | G_Directive
  | WhiteSpace
  | LineTerminator
  | Comment
  | G_Description
  | Ampersand
  | OnKeyword
  | Pipe
  | StartKeyword
  | MutationKeyword
  | QueryKeyword
  | SubscriptionKeyword
  | DirectiveKeyword
  | EnumKeyword
  | FragmentKeyword
  | InputKeyword
  | InterfaceKeyword
  | SchemaKeyword
  | TypeKeyword
  | UnionKeyword
  | IDKeyword
  | IntKeyword
  | FloatKeyword
  | StringKeyword
  | BooleanKeyword
  | NullKeyword
  | TrueKeyword
  | FalseKeyword
  | ImplementsKeyword
  | EndKeyword
  | IntegerLiteral
  | FloatLiteral
  | BooleanLiteral
  | EnumLiteral
  | G_StringValue
  | InvalidString
  | TruncatedString
  | ObjectLiteral
  | At
  | Colon
  | Comma
  | CloseBrace
  | CloseParen
  | CloseBracket
  | Dollar
  | Ellipses
  | Exclamation
  | Equal
  | Hash
  | OpenBrace
  | OpenBracket
  | OpenParen
  | EndOfDocument.

(** Position of an enumerator in its declaration, which is its value. *)
Definition index (x : t) : nat :=
  match x with
  | Unknown => 0
  | G_Name => 1
  | G_Directive => 2
  | WhiteSpace => 3
  | LineTerminator => 4
  | Comment => 5
  | G_Description => 6
  | Ampersand => 7
  | OnKeyword => 8
  | Pipe => 9
  | StartKeyword => 10
  | MutationKeyword => 11
  | QueryKeyword => 12
  | SubscriptionKeyword => 13
  | DirectiveKeyword => 14
  | EnumKeyword => 15
  | FragmentKeyword => 16
  | InputKeyword => 17
  | InterfaceKeyword => 18
  | SchemaKeyword => 19
  | TypeKeyword => 20
  | UnionKeyword => 21
  | IDKeyword => 22
  | IntKeyword => 23
  | FloatKeyword => 24
  | StringKeyword => 25
  | BooleanKeyword => 26
  | NullKeyword => 27
  | TrueKeyword => 28
  | FalseKeyword => 29
  | ImplementsKeyword => 30
  | EndKeyword => 31
  | IntegerLiteral => 32
  | FloatLiteral => 33
  | BooleanLiteral => 34
  | EnumLiteral => 35
  | G_StringValue => 36
  | InvalidString => 37
  | TruncatedString => 38
  | ObjectLiteral => 39
  | At => 40
  | Colon => 41
  | Comma => 42
  | CloseBrace => 43
  | CloseParen => 44
  | CloseBracket => 45
  | Dollar => 46
  | Ellipses => 47
  | Exclamation => 48
  | Equal => 49
  | Hash => 50
  | OpenBrace => 51
  | OpenBracket => 52
  | OpenParen => 53
  | EndOfDocument => 54
  end.

Definition all : list t :=
  [Unknown; G_Name; G_Directive; WhiteSpace; LineTerminator; Comment; G_Description; Ampersand;
      OnKeyword; Pipe; StartKeyword; MutationKeyword; QueryKeyword; SubscriptionKeyword;
      DirectiveKeyword; EnumKeyword; FragmentKeyword; InputKeyword; InterfaceKeyword;
      SchemaKeyword; TypeKeyword; UnionKeyword; IDKeyword; IntKeyword; FloatKeyword; StringKeyword;
      BooleanKeyword; NullKeyword; TrueKeyword; FalseKeyword; ImplementsKeyword; EndKeyword;
      IntegerLiteral; FloatLiteral; BooleanLiteral; EnumLiteral; G_StringValue; InvalidString;
      TruncatedString; ObjectLiteral; At; Colon; Comma; CloseBrace; CloseParen; CloseBracket;
      Dollar; Ellipses; Exclamation; Equal; Hash; OpenBrace; OpenBracket; OpenParen; EndOfDocument].

Lemma GraphQlToken_all_index x : all !! index x = Some x.
Proof. by destruct x. Qed.

#[global] Instance eq_dec : EqDecision t.
Proof.
  refine (λ x y, cast_if (decide (index x = index y))).
  - pose proof (GraphQlToken_all_index x). pose proof (GraphQlToken_all_index y). congruence.
  - congruence.
Defined.

End GraphQlToken.

(** [graphQlTokenToString]; [None] where [at] throws. *)
Definition graphQlTokenToString (t : GraphQlToken.t) : option ustring :=
  match t with
  | GraphQlToken.At => Some (u "@")
  | GraphQlToken.Colon => Some (u ":")
  | GraphQlToken.DirectiveKeyword => Some (u "directive")
  | GraphQlToken.Equal => Some (u "=")
  | GraphQlToken.Ellipses => Some (u "...")
  | GraphQlToken.OpenBracket => Some (u "[")
  | GraphQlToken.CloseBracket => Some (u "]")
  | GraphQlToken.OpenBrace => Some (u "{")
  | GraphQlToken.CloseBrace => Some (u "}")
  | GraphQlToken.OpenParen => Some (u "(")
  | GraphQlToken.CloseParen => Some (u ")")
  | GraphQlToken.Exclamation => Some (u "!")
  | GraphQlToken.OnKeyword => Some (u "on")
  | GraphQlToken.Pipe => Some (u "|")
  | GraphQlToken.G_Name => Some (u "name")
  | GraphQlToken.G_Directive => Some (u "@directive")
  | GraphQlToken.Unknown => Some (u "unknown")
  | GraphQlToken.WhiteSpace => Some (u "whitespace")
  | _ => None
  end.

(** [struct PositionToLine]. *)
Record PositionToLine := mkPositionToLine {
  ptl_position : nat;
  ptl_line : nat
}.

(** [struct SavedTextCursor]. *)
Record SavedTextCursor := mkSavedTextCursor {
  saved_position : nat;
  saved_line : nat;
  saved_column : nat;
  saved_start_position : nat;
  saved_start_line : nat;
  saved_start_column : nat
}.

(** [class GraphQlScanner].  [position_to_line_list] grows at its end, the
    stacks [errors] and [saved_text_cursors] at their head.  [end_position],
    [directive_name] and the member [ch] are never used. *)
Record GraphQlScanner := mkGraphQlScanner {
  source : ustring;
  size : nat;
  start_position : nat;
  position : nat;
  line : nat;
  start_line : nat;
  start_column : nat;
  column : nat;
  position_to_line_list : list PositionToLine;
  errors : list DiagnosticMessage;
  name : ustring;
  string_literal : ustring;
  saved_text_cursors : list SavedTextCursor
}.

Definition set_start_position (v : nat) (x : GraphQlScanner) : GraphQlScanner :=
  mkGraphQlScanner (source x) (size x) v (position x) (line x) (start_line x) (start_column x)
      (column x) (position_to_line_list x) (errors x) (name x) (string_literal x)
      (saved_text_cursors x).
Definition set_position (v : nat) (x : GraphQlScanner) : GraphQlScanner :=
  mkGraphQlScanner (source x) (size x) (start_position x) v (line x) (start_line x) (start_column
      x) (column x) (position_to_line_list x) (errors x) (name x) (string_literal x)
      (saved_text_cursors x).
Definition set_line (v : nat) (x : GraphQlScanner) : GraphQlScanner :=
  mkGraphQlScanner (source x) (size x) (start_position x) (position x) v (start_line x)
      (start_column x) (column x) (position_to_line_list x) (errors x) (name x) (string_literal x)
      (saved_text_cursors x).
Definition set_start_line (v : nat) (x : GraphQlScanner) : GraphQlScanner :=
  mkGraphQlScanner (source x) (size x) (start_position x) (position x) (line x) v (start_column x)
      (column x) (position_to_line_list x) (errors x) (name x) (string_literal x)
      (saved_text_cursors x).
Definition set_start_column (v : nat) (x : GraphQlScanner) : GraphQlScanner :=
  mkGraphQlScanner (source x) (size x) (start_position x) (position x) (line x) (start_line x) v
      (column x) (position_to_line_list x) (errors x) (name x) (string_literal x)
      (saved_text_cursors x).
Definition set_column (v : nat) (x : GraphQlScanner) : GraphQlScanner :=
  mkGraphQlScanner (source x) (size x) (start_position x) (position x) (line x) (start_line x)
      (start_column x) v (position_to_line_list x) (errors x) (name x) (string_literal x)
      (saved_text_cursors x).
Definition set_position_to_line_list (v : list PositionToLine) (x : GraphQlScanner) :
    GraphQlScanner :=
  mkGraphQlScanner (source x) (size x) (start_position x) (position x) (line x) (start_line x)
      (start_column x) (column x) v (errors x) (name x) (string_literal x) (saved_text_cursors x).
Definition set_errors (v : list DiagnosticMessage) (x : GraphQlScanner) : GraphQlScanner :=
  mkGraphQlScanner (source x) (size x) (start_position x) (position x) (line x) (start_line x)
      (start_column x) (column x) (position_to_line_list x) v (name x) (string_literal x)
      (saved_text_cursors x).
Definition set_name (v : ustring) (x : GraphQlScanner) : GraphQlScanner :=
  mkGraphQlScanner (source x) (size x) (start_position x) (position x) (line x) (start_line x)
      (start_column x) (column x) (position_to_line_list x) (errors x) v (string_literal x)
      (saved_text_cursors x).
Definition set_string_literal (v : ustring) (x : GraphQlScanner) : GraphQlScanner :=
  mkGraphQlScanner (source x) (size x) (start_position x) (position x) (line x) (start_line x)
      (start_column x) (column x) (position_to_line_list x) (errors x) (name x) v
      (saved_text_cursors x).
Definition set_saved_text_cursors (v : list SavedTextCursor) (x : GraphQlScanner) : GraphQlScanner
    :=
  mkGraphQlScanner (source x) (size x) (start_position x) (position x) (line x) (start_line x)
      (start_column x) (column x) (position_to_line_list x) (errors x) (name x) (string_literal x)
      v.

(** Constructor and default member initialisers. *)
Definition new_GraphQlScanner (source_ : ustring) : GraphQlScanner :=
  mkGraphQlScanner source_ (length source_) 0 0 1 1 1 1 [mkPositionToLine 0 1] [] [] [] [].
(** ** Characters and positions *)

(** [source[i]]: the character at [i], NUL at the terminator; further reads are
    undefined. *)
Definition source_at (i : nat) : M GraphQlScanner char32 := λ s,
  if (i <? size s)%nat then Ok (nth i (source s) 0%Z) s
  else if (i =? size s)%nat then Ok 0%Z s
  else Undefined.

Definition current_char : M GraphQlScanner char32 :=
  pos ← gets position;
  source_at pos.

Definition increment_position : M GraphQlScanner unit :=
  modify (λ s, set_column (S (column s)) s);;
  modify (λ s, set_position (S (position s)) s).

Definition set_token_start_position : M GraphQlScanner unit :=
  modify (λ s, set_start_position (position s) s);;
  modify (λ s, set_start_column (column s) s).

(** [length ()] and [get_token_length ()]. *)
Definition token_length (s : GraphQlScanner) : nat := position s - start_position s.

(** [source.substr (i, n)], which throws when [i] is past the end. *)
Definition source_substr (i n : nat) : M GraphQlScanner ustring :=
  s ← get;
  if (size s <? i)%nat then throw std_out_of_range else mret (substr i n (source s)).

Definition get_value : M GraphQlScanner ustring :=
  s ← get;
  source_substr (start_position s) (token_length s).

(** [end - start] of two [std::size_t]; what wraps around is more than any source has. *)
Definition text_length (s : GraphQlScanner) (start end_ : nat) : nat :=
  if (end_ <? start)%nat then size s else end_ - start.

Definition get_text_from_location (start end_ : nat) : M GraphQlScanner ustring :=
  s ← get;
  source_substr start (text_length s start end_).

Definition get_text_from_syntax (syntax : Syntax) : M GraphQlScanner ustring :=
  s ← get;
  source_substr (start syntax) (text_length s (start syntax) (end_ syntax)).

(** The end is taken as a length; not called. *)
Definition get_value_from_syntax (syntax : Syntax) : M GraphQlScanner ustring :=
  source_substr (start syntax) (end_ syntax).

Definition get_name (s : GraphQlScanner) : ustring := name s.
Definition get_string_value (s : GraphQlScanner) : ustring := string_literal s.

Section predicates.
Local Open Scope Z_scope.

Definition is_digit (ch : char32) : bool := (Character._0 <=? ch) && (ch <=? Character._9).
Definition is_number (ch : char32) : bool := (Character._0 <=? ch) && (ch <=? Character._9).

Definition is_name_start (ch : char32) : bool :=
  ((Character.A <=? ch) && (ch <=? Character.Z))
  || ((Character.a <=? ch) && (ch <=? Character.z))
  || (ch =? Character.Underscore).

Definition is_name_part (ch : char32) : bool :=
  ((Character.a <=? ch) && (ch <=? Character.z))
  || ((Character.A <=? ch) && (ch <=? Character.Z))
  || ((Character._0 <=? ch) && (ch <=? Character._9))
  || (ch =? Character.Underscore).

Definition is_hexadecimal (ch : char32) : bool :=
  ((Character._0 <=? ch) && (ch <=? Character._9))
  || ((Character.a <=? ch) && (ch <=? Character.f))
  || ((Character.A <=? ch) && (ch <=? Character.F)).

Definition is_line_break (ch : char32) : bool :=
  (ch =? Character.NewLine) || (ch =? Character.CarriageReturn).

Definition is_source_character (ch : char32) : bool :=
  (ch =? Character.NewLine) || (ch =? Character.CarriageReturn)
  || (ch =? Character.HorizontalTab)
  || ((Character.Space <=? ch) && (ch <=? Character.End)).
End predicates.

(** ** Loops *)

(** More iterations than any loop of the scanner makes. *)
Definition scan_fuel (s : GraphQlScanner) : nat := S (S (size s)).

Definition scan_loop {A B} (body : A → M GraphQlScanner (A + B)) (a : A) : M GraphQlScanner B :=
  s ← get;
  loop (scan_fuel s) body a.

(** [while (position < size && p (current_char ())) step;] *)
Definition while_in_source (p : char32 → bool) (step : M GraphQlScanner unit) :
    M GraphQlScanner unit :=
  scan_loop (λ _ : unit,
    s ← get;
    if (position s <? size s)%nat then
      ch ← current_char;
      if p ch then step;; mret (inl tt) else mret (inr tt)
    else mret (inr tt)) tt.

(** [while (is_digit (current_char ())) increment_position ();] *)
Definition scan_digit_list : M GraphQlScanner unit :=
  scan_loop (λ _ : unit,
    ch ← current_char;
    if is_digit ch then increment_position;; mret (inl tt) else mret (inr tt)) tt.

Definition scan_rest_of_line : M GraphQlScanner unit :=
  while_in_source (λ ch, negb (is_line_break ch)) increment_position.

(** [while (position < size && is_name_part (current_char ()))], counting. *)
Definition scan_name_part : M GraphQlScanner nat :=
  scan_loop (λ name_size : nat,
    s ← get;
    if (position s <? size s)%nat then
      ch ← current_char;
      if is_name_part ch then increment_position;; mret (inl (S name_size))
      else mret (inr name_size)
    else mret (inr name_size)) 1%nat.

(** ** Keywords *)

(** The [switch] of [get_token_from_value] on [value.c_str ()]; [None] is the
    fall through to a name. *)
Definition keyword_switch (size_ : nat) (value : list Z) : option GraphQlToken.t :=
  let c i := byte_at value i in
  let eq k s t := if strcmp_eq value k s then Some t else None in
  (match size_ with
  | 2%nat =>
      if c 0%nat =? Character.I then eq 1%nat "D" GraphQlToken.IDKeyword
      else if c 0%nat =? Character.o then eq 1%nat "n" GraphQlToken.OnKeyword
      else None
  | 3%nat => eq 0%nat "Int" GraphQlToken.IntKeyword
  | 4%nat =>
      if c 0%nat =? Character.e then eq 1%nat "num" GraphQlToken.EnumKeyword
      else if c 0%nat =? Character.t then
        if c 1%nat =? Character.r then eq 2%nat "ue" GraphQlToken.TrueKeyword
        else if c 1%nat =? Character.y then eq 2%nat "pe" GraphQlToken.TypeKeyword
        else None
      else if c 0%nat =? Character.n then eq 1%nat "ull" GraphQlToken.NullKeyword
      else None
  | 5%nat =>
      if c 0%nat =? Character.q then eq 1%nat "uery" GraphQlToken.QueryKeyword
      else if c 0%nat =? Character.f then eq 1%nat "alse" GraphQlToken.FalseKeyword
      else if c 0%nat =? Character.F then eq 1%nat "loat" GraphQlToken.FloatKeyword
      else if c 0%nat =? Character.i then eq 1%nat "nput" GraphQlToken.InputKeyword
      else if c 0%nat =? Character.u then eq 1%nat "nion" GraphQlToken.UnionKeyword
      else None
  | 6%nat =>
      if c 0%nat =? Character.S then eq 1%nat "tring" GraphQlToken.StringKeyword
      else if c 0%nat =? Character.s then eq 1%nat "chema" GraphQlToken.SchemaKeyword
      else None
  | 7%nat => eq 0%nat "Boolean" GraphQlToken.BooleanKeyword
  | 8%nat =>
      if c 0%nat =? Character.m then eq 1%nat "utation" GraphQlToken.MutationKeyword
      else if c 0%nat =? Character.f then eq 1%nat "ragment" GraphQlToken.FragmentKeyword
      else None
  | 9%nat =>
      if c 0%nat =? Character.i then eq 1%nat "nterface" GraphQlToken.InterfaceKeyword
      else if c 0%nat =? Character.d then eq 1%nat "irective" GraphQlToken.DirectiveKeyword
      else None
  | 10%nat => eq 0%nat "implements" GraphQlToken.ImplementsKeyword
  | 12%nat => eq 0%nat "subscription" GraphQlToken.SubscriptionKeyword
  | _ => None
  end)%Z.

Definition get_token_from_value (size_ : nat) (value : ustring) : M GraphQlScanner GraphQlToken.t :=
  match keyword_switch size_ (raw value) with
  | Some token => mret token
  | None => modify (set_name (c_string value));; mret GraphQlToken.G_Name
  end.

(** The [switch] of [get_directive_from_value]. *)
Definition get_directive_from_value (size_ : nat) (value : list Z) : DirectiveLocation.t :=
  let c i := byte_at value i in
  let eq k s t := if strcmp_eq value k s then t else DirectiveLocation.Unknown in
  (match size_ with
  | 4%nat => eq 0%nat "ENUM" DirectiveLocation.ENUM
  | 5%nat =>
      if c 0%nat =? Character.Q then eq 1%nat "UERY" DirectiveLocation.QUERY
      else if c 0%nat =? Character.F then eq 1%nat "IELD" DirectiveLocation.FIELD
      else if c 0%nat =? Character.U then eq 1%nat "NION" DirectiveLocation.UNION
      else DirectiveLocation.Unknown
  | 6%nat =>
      if c 0%nat =? Character.S then
        if c 2%nat =? Character.H then eq 3%nat "EMA" DirectiveLocation.SCHEMA
        else if c 2%nat =? Character.A then eq 3%nat "LAR" DirectiveLocation.SCALAR
        else DirectiveLocation.Unknown
      else if c 0%nat =? Character.O then eq 1%nat "BJECT" DirectiveLocation.OBJECT
      else DirectiveLocation.Unknown
  | 8%nat => eq 0%nat "MUTATION" DirectiveLocation.MUTATION
  | 9%nat => eq 0%nat "INTERFACE" DirectiveLocation.INTERFACE
  | 10%nat => eq 0%nat "ENUM_VALUE" DirectiveLocation.ENUM_VALUE
  | 12%nat =>
      if c 0%nat =? Character.I then eq 1%nat "NPUT_OBJECT" DirectiveLocation.INPUT_OBJECT
      else if c 0%nat =? Character.S then eq 1%nat "UBSCRIPTION" DirectiveLocation.SUBSCRIPTION
      else DirectiveLocation.Unknown
  | 15%nat =>
      if c 0%nat =? Character.F then eq 1%nat "RAGMENT_SPREAD" DirectiveLocation.FRAGMENT_SPREAD
      else if c 0%nat =? Character.I then eq 1%nat "NLINE_FRAGMENT" DirectiveLocation.INLINE_FRAGMENT
      else DirectiveLocation.Unknown
  | 16%nat => eq 0%nat "FIELD_DEFINITION" DirectiveLocation.FIELD_DEFINITION
  | 19%nat =>
      if c 0%nat =? Character.A then eq 1%nat "RGUMENT_DEFINITION" DirectiveLocation.ARGUMENT_DEFINITION
      else if c 0%nat =? Character.F then eq 1%nat "RAGMENT_DEFINITION" DirectiveLocation.FRAGMENT_DEFINITION
      else DirectiveLocation.Unknown
  | 22%nat => eq 0%nat "INPUT_FIELD_DEFINITION" DirectiveLocation.INPUT_FIELD_DEFINITION
  | _ => DirectiveLocation.Unknown
  end)%Z.

(** ** Numbers *)

Definition scan_integer_part : M GraphQlScanner GraphQlToken.t :=
  ch0 ← current_char;
  ch ← (if ch0 =? Character.Minus then current_char else mret ch0)%Z;
  if (ch =? Character._0)%Z then
    increment_position;;
    ch' ← current_char;
    if is_digit ch' then mret GraphQlToken.Unknown else mret GraphQlToken.IntegerLiteral
  else if negb (is_digit ch) then mret GraphQlToken.Unknown
  else scan_digit_list;; mret GraphQlToken.IntegerLiteral.

(** The exponent, [case Character::e: case Character::E:]. *)
Definition scan_exponent : M GraphQlScanner GraphQlToken.t :=
  increment_position;;
  ch0 ← current_char;
  ch ← (if (ch0 =? Character.Minus) || (ch0 =? Character.Plus)
        then increment_position;; current_char else mret ch0)%Z;
  if negb (is_digit ch) then mret GraphQlToken.Unknown
  else increment_position;; scan_digit_list;; mret GraphQlToken.FloatLiteral.

Definition scan_number : M GraphQlScanner GraphQlToken.t :=
  scan_integer_part;;
  sw ← current_char;
  if (sw =? Character.Dot)%Z then
    increment_position;;
    ch ← current_char;
    if negb (is_digit ch) then mret GraphQlToken.Unknown
    else
      increment_position;;
      scan_digit_list;;
      ch' ← current_char;
      if (negb (ch' =? Character.e) && negb (ch' =? Character.E))%Z
      then mret GraphQlToken.FloatLiteral
      else scan_exponent
  else if ((sw =? Character.e) || (sw =? Character.E))%Z then scan_exponent
  else mret GraphQlToken.IntegerLiteral.

(** ** Strings *)

Definition push_error (m : DiagnosticMessage) : M GraphQlScanner unit :=
  modify (λ s, set_errors (m :: errors s) s).

Definition scan_hexadecimal_escape (start_position_ start_line_ start_column_ : nat) :
    M GraphQlScanner unit :=
  is_invalid ← scan_loop (λ n : nat,
    ch ← current_char;
    if (n =? 4)%nat then mret (inr false)
    else if is_hexadecimal ch then increment_position;; mret (inl (S n))
    else
      pos ← gets position;
      push_error (create_diagnostic
        (mkLocation start_line_ start_column_ (pos - start_position_) false)
        Invalid_Unicode_escape_sequence []);;
      mret (inr true)) 0%nat;
  if (is_invalid : bool) then increment_position;; throw InvalidStringException else mret tt.

(** [case DoubleQuote: case Backslash: ... case t:] *)
Definition is_simple_escape (ch : char32) : bool :=
  ((ch =? Character.DoubleQuote) || (ch =? Character.Backslash) || (ch =? Character.Slash)
  || (ch =? Character.b) || (ch =? Character.f) || (ch =? Character.n)
  || (ch =? Character.r) || (ch =? Character.t))%Z.

Definition scan_escape_sequence : M GraphQlScanner unit :=
  start_position_ ← gets position;
  start_line_ ← gets line;
  start_column_ ← gets column;
  increment_position;;
  ch ← current_char;
  if is_simple_escape ch then increment_position
  else if (ch =? Character.u)%Z then
    increment_position;;
    scan_hexadecimal_escape start_position_ start_line_ start_column_
  else mret tt.

Definition append_string_literal (text : ustring) : M GraphQlScanner unit :=
  modify (λ s, set_string_literal (string_literal s ++ text) s).

(** One iteration of the [while] of [scan_string_literal]: [inl] is_truncated,
    or [inr (Some token)] for a return and [inr None] for a break. *)
Definition scan_string_literal_body (start : nat) (is_truncated : bool) :
    M GraphQlScanner (bool + (bool + GraphQlToken.t)) :=
  s ← get;
  if (size s <? position s)%nat then mret (inr (inl is_truncated)) else
  ch ← current_char;
  if (ch =? Character.Backslash)%Z then
    try_catch (scan_escape_sequence;; mret (inl is_truncated))
      (λ e, match e with
            | InvalidStringException => Some (mret (inr (inr GraphQlToken.InvalidString)))
            | _ => None
            end)
  else if ((ch =? Character.NewLine) || (ch =? Character.CarriageReturn))%Z then
    increment_position;; mret (inl true)
  else if (ch =? Character.DoubleQuote)%Z then
    pos ← gets position;
    text ← source_substr start (pos - start);
    append_string_literal text;;
    increment_position;;
    mret (inr (inl is_truncated))
  else increment_position;; mret (inl is_truncated).

Definition scan_string_literal : M GraphQlScanner GraphQlToken.t :=
  start ← gets position;
  modify (set_string_literal []);;
  start_position_ ← gets position;
  start_line_ ← gets line;
  start_column_ ← gets column;
  r ← scan_loop (scan_string_literal_body start) false;
  match r with
  | inr token => mret token
  | inl true =>
      pos ← gets position;
      push_error (create_diagnostic
        (mkLocation start_line_ start_column_ (pos - start_position_) false)
        Unterminated_string_value []);;
      mret GraphQlToken.InvalidString
  | inl false => mret GraphQlToken.G_StringValue
  end.

(** One iteration of [scan_string_block_after_double_quotes]. *)
Definition scan_string_block_body (_ : unit) : M GraphQlScanner (unit + GraphQlToken.t) :=
  s ← get;
  let pos := position s in
  if (size s <? pos)%nat then mret (inr GraphQlToken.Unknown) else
  ch ← current_char;
  let rest :=
    if is_source_character ch then append_string_literal [ch];; increment_position;; mret (inl tt)
    else increment_position;; mret (inl tt) in
  if (ch =? Character.DoubleQuote)%Z then
    if (size s <=? pos + 2)%nat then mret (inr GraphQlToken.Unknown) else
    ch1 ← source_at (pos + 1);
    if (ch1 =? Character.DoubleQuote)%Z then
      ch2 ← source_at (pos + 2);
      if (ch2 =? Character.DoubleQuote)%Z then
        increment_position;; increment_position;; increment_position;;
        mret (inr GraphQlToken.G_StringValue)
      else rest
    else rest
  else rest.

Definition scan_string_block_after_double_quotes : M GraphQlScanner GraphQlToken.t :=
  modify (set_string_literal []);;
  scan_loop scan_string_block_body tt.

Definition scan_string_value : M GraphQlScanner GraphQlToken.t :=
  ch ← current_char;
  if (ch =? Character.DoubleQuote)%Z then
    pos ← gets position;
    ch1 ← source_at (pos + 1);
    if (ch1 =? Character.DoubleQuote)%Z then
      increment_position;; increment_position;; scan_string_block_after_double_quotes
    else scan_string_literal
  else scan_string_literal.

Definition scan_ellipses_after_first_dot : M GraphQlScanner GraphQlToken.t :=
  ch ← current_char;
  if negb (ch =? Character.Dot)%Z then mret GraphQlToken.Unknown else
  increment_position;;
  ch' ← current_char;
  if negb (ch' =? Character.Dot)%Z then mret GraphQlToken.Unknown else
  increment_position;;
  mret GraphQlToken.Ellipses.

(** ** White space *)

(** [position_to_line_list.emplace_back(position, ++line)] *)
Definition add_line : M GraphQlScanner unit :=
  modify (λ s, set_line (S (line s)) s);;
  modify (λ s, set_position_to_line_list
    (position_to_line_list s ++ [mkPositionToLine (position s) (line s)]) s).

Definition start_position_incr : M GraphQlScanner unit :=
  modify (λ s, set_start_position (S (start_position s)) s).
Definition start_column_incr : M GraphQlScanner unit :=
  modify (λ s, set_start_column (S (start_column s)) s).
Definition start_line_incr : M GraphQlScanner unit :=
  modify (λ s, set_start_line (S (start_line s)) s).

(** The statements after a line end that is skipped. *)
Definition skip_line_end : M GraphQlScanner unit :=
  modify (set_column 1);;
  modify (set_start_column 1);;
  start_line_incr;;
  start_position_incr.

(** [if (source[position + 1] == NewLine) increment_position ();] *)
Definition carriage_return_look_ahead : M GraphQlScanner unit :=
  pos ← gets position;
  next ← source_at (pos + 1);
  if (next =? Character.NewLine)%Z then increment_position else mret tt.

Definition is_white_space (ch : char32) : bool :=
  ((ch =? Character.ByteOrderMark) || (ch =? Character.Space) || (ch =? Character.Comma))%Z.

(** [case Hash:] *)
Definition skip_comment : M GraphQlScanner unit :=
  start_position_incr;; start_column_incr;;
  while_in_source (λ ch, negb (is_line_break ch))
    (increment_position;; start_position_incr;; start_column_incr).

(** The one-character tokens of the [switch] of [take_next_token]. *)
Definition punctuation (ch : char32) : option GraphQlToken.t :=
  (if ch =? Character.Ampersand then Some GraphQlToken.Ampersand
  else if ch =? Character.OpenParen then Some GraphQlToken.OpenParen
  else if ch =? Character.CloseParen then Some GraphQlToken.CloseParen
  else if ch =? Character.OpenBracket then Some GraphQlToken.OpenBracket
  else if ch =? Character.CloseBracket then Some GraphQlToken.CloseBracket
  else if ch =? Character.OpenBrace then Some GraphQlToken.OpenBrace
  else if ch =? Character.CloseBrace then Some GraphQlToken.CloseBrace
  else if ch =? Character.Colon then Some GraphQlToken.Colon
  else if ch =? Character.Exclamation then Some GraphQlToken.Exclamation
  else if ch =? Character.At then Some GraphQlToken.At
  else if ch =? Character.Pipe then Some GraphQlToken.Pipe
  else if ch =? Character.Equal then Some GraphQlToken.Equal
  else None)%Z.

(** The [default] case: a name or keyword, or an unknown character. *)
Definition take_name (treat_keyword_as_name : bool) (ch : char32) :
    M GraphQlScanner GraphQlToken.t :=
  if is_name_start ch then
    name_size ← scan_name_part;
    if treat_keyword_as_name then mret GraphQlToken.G_Name
    else value ← get_value; get_token_from_value name_size value
  else mret GraphQlToken.Unknown.

(** ** Tokens *)

(** One iteration of the loop of [take_next_token]: [inl tt] is [continue]. *)
Definition take_next_token_body (treat_keyword_as_name skip_white_space : bool) (_ : unit) :
    M GraphQlScanner (unit + GraphQlToken.t) :=
  s ← get;
  if negb (position s <? size s)%nat then mret (inr GraphQlToken.EndOfDocument) else
  ch ← current_char;
  increment_position;;
  if (ch =? Character.NewLine)%Z then
    add_line;;
    if skip_white_space then skip_line_end;; mret (inl tt)
    else mret (inr GraphQlToken.WhiteSpace)
  else if (ch =? Character.CarriageReturn)%Z then
    carriage_return_look_ahead;;
    add_line;;
    if skip_white_space then skip_line_end;; mret (inl tt)
    else mret (inr GraphQlToken.WhiteSpace)
  else if is_white_space ch then
    if skip_white_space then start_position_incr;; start_column_incr;; mret (inl tt)
    else mret (inr GraphQlToken.WhiteSpace)
  else if (ch =? Character.Hash)%Z then skip_comment;; mret (inl tt)
  else match punctuation ch with
  | Some token => mret (inr token)
  | None =>
      if (ch =? Character.DoubleQuote)%Z then finish scan_string_value
      else if (ch =? Character.Dot)%Z then finish scan_ellipses_after_first_dot
      else if ((ch =? Character.Minus)%Z || is_digit ch) then finish scan_number
      else finish (take_name treat_keyword_as_name ch)
  end.

Definition take_next_token (treat_keyword_as_name skip_white_space : bool) :
    M GraphQlScanner GraphQlToken.t :=
  set_token_start_position;;
  scan_loop (take_next_token_body treat_keyword_as_name skip_white_space) tt.

(** One iteration of the loop of [scan_directive_location]. *)
Definition scan_directive_location_body (_ : unit) :
    M GraphQlScanner (unit + DirectiveLocation.t) :=
  s ← get;
  if negb (position s <? size s)%nat then mret (inr DirectiveLocation.EndOfDocument) else
  ch ← current_char;
  increment_position;;
  if (ch =? Character.NewLine)%Z then add_line;; skip_line_end;; mret (inl tt)
  else if (ch =? Character.CarriageReturn)%Z then
    carriage_return_look_ahead;; add_line;; skip_line_end;; mret (inl tt)
  else if is_white_space ch then start_position_incr;; start_column_incr;; mret (inl tt)
  else if is_name_start ch then
    name_size ← scan_name_part;
    value ← get_value;
    mret (inr (get_directive_from_value name_size (raw value)))
  else mret (inl tt).

Definition scan_directive_location : M GraphQlScanner DirectiveLocation.t :=
  set_token_start_position;;
  scan_loop scan_directive_location_body tt.

(** ** Saved cursors and look-ahead *)

Definition save : M GraphQlScanner unit :=
  modify (λ s, set_saved_text_cursors
    (mkSavedTextCursor (position s) (line s) (column s) (start_position s) (start_line s)
      (start_column s) :: saved_text_cursors s) s).

(** [top] of an empty stack is undefined. *)
Definition revert : M GraphQlScanner unit :=
  s ← get;
  match saved_text_cursors s with
  | [] => undefined
  | c :: rest =>
      modify (set_position (saved_position c));;
      modify (set_line (saved_line c));;
      modify (set_column (saved_column c));;
      modify (set_start_position (saved_start_position c));;
      modify (set_start_line (saved_start_line c));;
      modify (set_start_column (saved_start_column c));;
      modify (set_saved_text_cursors rest)
  end.

Definition peek_next_token : M GraphQlScanner GraphQlToken.t :=
  save;;
  token ← take_next_token false true;
  revert;;
  mret token.

Definition try_scan (token : GraphQlToken.t) (treat_keyword_as_name skip_white_space : bool) :
    M GraphQlScanner GraphQlToken.t :=
  save;;
  result ← take_next_token treat_keyword_as_name skip_white_space;
  if decide (result = token) then mret token
  else revert;; mret result.

Definition scan_expected (token : GraphQlToken.t)
    (treat_keyword_as_name skip_white_space : bool) : M GraphQlScanner GraphQlToken.t :=
  result ← take_next_token treat_keyword_as_name skip_white_space;
  if decide (result = token) then mret token else mret result.

(** One iteration of [skip_block]; the state is [matched_braces] and
    [encountered_brace]. *)
Definition skip_block_body (a : Z * bool) : M GraphQlScanner ((Z * bool) + unit) :=
  let '(matched_braces, encountered_brace) := a in
  token ← take_next_token false true;
  let continue_with (m : Z) (e : bool) : M GraphQlScanner ((Z * bool) + unit) :=
    if e && (m <=? 0)%Z then mret (inr tt) else mret (inl (m, e)) in
  match token with
  | GraphQlToken.OpenBrace => continue_with (matched_braces + 1)%Z true
  | GraphQlToken.CloseBrace => continue_with (matched_braces - 1)%Z true
  | GraphQlToken.EndOfDocument => mret (inr tt)
  | _ => continue_with matched_braces encountered_brace
  end.

Definition skip_block : M GraphQlScanner unit :=
  scan_loop skip_block_body (0%Z, false).

Definition skip_to (tokens : list GraphQlToken.t) : M GraphQlScanner GraphQlToken.t :=
  scan_loop (λ _ : unit,
    save;;
    token ← take_next_token false true;
    if decide (token = GraphQlToken.EndOfDocument) then mret (inr token)
    else if decide (token ∈ tokens) then revert;; mret (inr token)
    else mret (inl tt)) tt.

(** ** Lines *)

(** [position_to_line_list[i]]: out of range is undefined. *)
Definition line_entry (i : Z) : M GraphQlScanner PositionToLine :=
  s ← get;
  if (i <? 0)%Z then undefined else deref (position_to_line_list s !! Z.to_nat i).

(** [std::size_t] subtraction. *)
Definition size_t_pred (i : Z) : Z := (i - 1) mod 2 ^ 64.

Definition could_not_find (position_ : nat) : exn :=
  std_logic_error (u "Could not find position: " ++ to_string (Z.of_nat position_)).

(** [search_for_line]; every recursive call halves the interval, so the number
    of entries is enough fuel. *)
Fixpoint search_for_line (fuel : nat) (start_ end_ : Z) (position_ : nat) :
    M GraphQlScanner Location :=
  match fuel with
  | O => out_of_fuel
  | S fuel' =>
      if (start_ <? end_)%Z then
        let mid := (start_ + (end_ - start_) / 2)%Z in
        position_line ← line_entry mid;
        here ← (if (ptl_position position_line <=? position_)%nat then
                  next ← line_entry (mid + 1)%Z;
                  mret (position_ <? ptl_position next)%nat
                else mret false);
        if (here : bool) then
          mret (mkLocation (ptl_line position_line)
            (position_ - ptl_position position_line + 1) 0 false)
        else if (position_ <? ptl_position position_line)%nat then
          search_for_line fuel' start_ (size_t_pred mid) position_
        else search_for_line fuel' (mid + 1)%Z end_ position_
      else if (end_ =? start_)%Z then
        position_line ← line_entry end_;
        s ← get;
        if (ptl_position position_line <=? position_)%nat && (position_ <? size s)%nat then
          mret (mkLocation (ptl_line position_line)
            (position_ - ptl_position position_line + 1) 0 false)
        else throw (could_not_find position_)
      else throw (could_not_find position_)
  end.

Definition get_token_location (syntax : Syntax) : M GraphQlScanner Location :=
  s ← get;
  let n := length (position_to_line_list s) in
  location ← search_for_line (S n) 0 (Z.of_nat n - 1) (start syntax);
  mret (mkLocation (loc_line location) (loc_column location) (end_ syntax - start syntax)
    (end_of_source location)).
