(* ===== verification/Parser.v ===== *)
(** * The parser base class ([graphql_parser.h], [graphql_parser_impl.h],
    [program/diagnostic_impl.h])

    [GraphQlParser<TParser, TToken, TScanner>] is the base of the schema
    parser and of the executor.  Its member functions are operations on the
    record of its members; a derived class runs them with [zoom].  The
    diagnostics are the derived class's vector, which the base reaches through
    [static_cast<TParser*>(this)]. *)
From S2P Require Import Prelude Monad Character Cstring Diagnostic StdMap Syntaxes.
From S2P Require Import TextWriter Scanner.

Record GraphQlParser := mkGraphQlParser {
  scanner : GraphQlScanner;
  diagnostics : list DiagnosticMessage;
  current_description : ustring;
  current_value_token : GraphQlToken.t;
  has_description : bool;
  directives : list Directive;
  directive_definitions : std_map ustring ptr
}.

Definition set_scanner (v : GraphQlScanner) (x : GraphQlParser) : GraphQlParser :=
  mkGraphQlParser v (diagnostics x) (current_description x) (current_value_token x)
      (has_description x) (directives x) (directive_definitions x).
Definition set_diagnostics (v : list DiagnosticMessage) (x : GraphQlParser) : GraphQlParser :=
  mkGraphQlParser (scanner x) v (current_description x) (current_value_token x) (has_description x)
      (directives x) (directive_definitions x).
Definition set_current_description (v : ustring) (x : GraphQlParser) : GraphQlParser :=
  mkGraphQlParser (scanner x) (diagnostics x) v (current_value_token x) (has_description x)
      (directives x) (directive_definitions x).
Definition set_current_value_token (v : GraphQlToken.t) (x : GraphQlParser) : GraphQlParser :=
  mkGraphQlParser (scanner x) (diagnostics x) (current_description x) v (has_description x)
      (directives x) (directive_definitions x).
Definition set_has_description (v : bool) (x : GraphQlParser) : GraphQlParser :=
  mkGraphQlParser (scanner x) (diagnostics x) (current_description x) (current_value_token x) v
      (directives x) (directive_definitions x).
Definition set_directives (v : list Directive) (x : GraphQlParser) : GraphQlParser :=
  mkGraphQlParser (scanner x) (diagnostics x) (current_description x) (current_value_token x)
      (has_description x) v (directive_definitions x).
Definition set_directive_definitions (v : std_map ustring ptr) (x : GraphQlParser) : GraphQlParser
    :=
  mkGraphQlParser (scanner x) (diagnostics x) (current_description x) (current_value_token x)
      (has_description x) (directives x) v.

(** The constructor; [current_value_token] and [has_description] start as the
    first enumerator and false. *)
Definition new_GraphQlParser (source_ : ustring) : GraphQlParser :=
  mkGraphQlParser (new_GraphQlScanner source_) [] [] GraphQlToken.Unknown false [] [].

#[export] Instance parser_scanner : Has GraphQlScanner GraphQlParser.
Proof. by refine {| sub := scanner; put_sub := set_scanner |}; intros; try destruct s. Defined.

Notation "⟨ m ⟩" := (zoom m) (format "⟨ m ⟩").

(** ** Tokens *)

Definition take_next_token (treat_keyword_as_name skip_white_space : bool) :
    M GraphQlParser GraphQlToken.t :=
  ⟨Scanner.take_next_token treat_keyword_as_name skip_white_space⟩.

Definition TakeNextToken : M GraphQlParser GraphQlToken.t := take_next_token false true.

Definition get_token_value : M GraphQlParser ustring := ⟨get_value⟩.

Definition get_token_location : M GraphQlParser Location :=
  s ← gets scanner;
  mret (mkLocation (Scanner.line s) (start_column s) (token_length s) false).

Definition get_string_value : M GraphQlParser ustring := gets (λ p, string_literal (scanner p)).

Definition skip_to (tokens : list GraphQlToken.t) : M GraphQlParser GraphQlToken.t :=
  ⟨Scanner.skip_to tokens⟩.

(** ** Diagnostics *)

(** [add_diagnostic] with a location. *)
Definition add_diagnostic_at (location : Location) (d : D) (args : list ustring) :
    M GraphQlParser unit :=
  modify (λ p, set_diagnostics (diagnostics p ++ [create_diagnostic location d args]) p).

(** [add_diagnostic] without one: the current token's. *)
Definition add_diagnostic (d : D) (args : list ustring) : M GraphQlParser unit :=
  location ← get_token_location;
  add_diagnostic_at location d args.

Definition take_errors_from_scanner : M GraphQlParser unit :=
  s ← gets scanner;
  for_each (errors s) (λ error,
    modify (λ p, set_diagnostics (diagnostics p ++ [error]) p);;
    ⟨modify (λ s, set_errors (drop 1 (errors s)) s)⟩).

Definition get_location_from_syntax (syntax : Syntax) : M GraphQlParser Location :=
  ⟨Scanner.get_token_location syntax⟩.

(** [graphQlTokenToString.at(token)] *)
Definition token_string (token : GraphQlToken.t) : M GraphQlParser ustring :=
  match graphQlTokenToString token with
  | Some s => mret s
  | None => throw std_out_of_range
  end.

Definition scan_expected (token : GraphQlToken.t) (treat_keyword_as_name skip_white_space : bool) :
    M GraphQlParser bool :=
  result ← ⟨Scanner.scan_expected token treat_keyword_as_name skip_white_space⟩;
  if decide (result = token) then mret true
  else
    (if decide (result = GraphQlToken.EndOfDocument) then
      s ← token_string token;
      add_diagnostic Expected_0_but_instead_reached_the_end_of_document [s]
    else
      s ← token_string token;
      value ← get_token_value;
      add_diagnostic Expected_0_but_got_1 [s; value]);;
    mret false.

(** [scan_expected (token)]: keywords are keywords, white space is skipped. *)
Definition expect (token : GraphQlToken.t) : M GraphQlParser bool := scan_expected token false true.

(** The overloads with a template. *)
Definition scan_expected_template (token : GraphQlToken.t) (template : D)
    (treat_keyword_as_name : bool) : M GraphQlParser bool :=
  result ← ⟨Scanner.scan_expected token treat_keyword_as_name true⟩;
  if decide (result = token) then mret true
  else
    value ← get_token_value;
    add_diagnostic template [value];;
    mret false.

Definition scan_optional (token : GraphQlToken.t) : M GraphQlParser bool :=
  result ← ⟨try_scan token false true⟩;
  mret (bool_decide (result = token)).

Definition scan_optional_name (token : GraphQlToken.t) (treat_keyword_as_name : bool) :
    M GraphQlParser bool :=
  result ← ⟨try_scan token treat_keyword_as_name true⟩;
  mret (bool_decide (result = token)).

(** ** Syntax nodes *)

(** The positions [CreateSyntax] gives a node. *)
Definition CreateSyntax (k : SyntaxKind) : M GraphQlParser Syntax :=
  s ← gets scanner;
  mret (new_Syntax k (start_position s) (position s)).

Definition create_name (value : ustring) : M GraphQlParser Name :=
  syntax ← CreateSyntax S_Name;
  mret (mkName syntax value).

(** [FinishSyntax]: the node's new [end]. *)
Definition FinishSyntax (syntax : Syntax) : M GraphQlParser Syntax :=
  s ← gets scanner;
  mret (set_end (start_position s + token_length s) syntax).

Definition same_place (a b : Location) : bool :=
  bool_decide (loc_line a = loc_line b ∧ loc_column a = loc_column b ∧ loc_length a = loc_length b).

Definition has_diagnostic_in_syntax (syntax : Syntax) (d : D) : M GraphQlParser bool :=
  name_location ← get_location_from_syntax syntax;
  p ← get;
  mret (existsb (λ m,
    bool_decide (message_template (_template m) = message_template d)
    && same_place (location m) name_location) (diagnostics p)).

(** ** Printing types and values *)

Definition should_not_reach_here : exn := std_logic_error (u "Should not reach here.").

Definition get_type_name {S} (t : Type_) : M S ustring :=
  base ← match type t with
    | T_Boolean => mret (u "Boolean")
    | T_Int => mret (u "Int")
    | T_Float => mret (u "Float")
    | T_String => mret (u "String")
    | T_ID => mret (u "ID")
    | T_Object | T_Enum => name ← deref (type_name t); mret (identifier name)
    | _ => throw should_not_reach_here
    end;
  mret ((if is_list_type t then u "[" else []) ++ base
    ++ (if is_non_null t then u "!" else [])
    ++ (if is_list_type t then u "]" else [])
    ++ (if is_non_null_list t then u "!" else [])).

(** A block that writes to a local [TextWriter] and returns its text. *)
Definition with_writer {S} (m : M TextWriter unit) : M S ustring := λ s,
  match m new_TextWriter with
  | Ok _ w => Ok (text w) s
  | Throw e _ => Throw e s
  | Undefined => Undefined
  | OutOfFuel => OutOfFuel
  end.

(** [get_value_string]: the case of an object value has no [break] and runs
    into the [throw] of the default case. *)
Fixpoint get_value_string {S} (v : Value) : M S ustring :=
  with_writer
    match v with
    | ListValue _ values =>
        write (u "[");;
        for_each values (λ v, s ← get_value_string v; write s;; TextWriter.save;; write (u ", "));;
        restore;;
        write (u "]")
    | BooleanValue _ b => if b then write (u "true") else write (u "false")
    | NullValue _ => write (u "null")
    | IntValue _ n => write (to_string n)
    | FloatValue _ s | EnumValue _ s | StringValue _ s => write s
    | ObjectValue _ fields =>
        write (u "{");;
        for_each fields (λ f,
          match f with
          | mkObjectField _ name v =>
              write (identifier name ++ u ": ");;
              match v with
              | Some v => s ← get_value_string v; write s
              | None => undefined
              end;;
              TextWriter.save;;
              write (u ",")
          end);;
        restore;;
        write (u "}");;
        throw (std_logic_error (u "Unknown value."))
    end.
