(* ===== verification/ValueText.v ===== *)
(** * Printing ([TextWriter], [get_value_string])

    What the writer's operations leave of it, and the text of a value without
    objects, as diagnostics show it. *)
From S2P Require Import Prelude Monad Character Cstring StdMap Syntaxes Scanner Parser.
From S2P Require Import TextWriter.

(** ** Results of the operations *)

(** The writer after [t] is appended on the current line. *)
Definition appended (t : ustring) (w : TextWriter) : TextWriter :=
  set_position (position w + length t)
    (set_column (column w + length t) (set_text (text w ++ t) w)).

Lemma append_appended t w : append t w = Ok tt (appended t w).
Proof. by destruct w. Qed.

Lemma appended_app a b w : appended b (appended a w) = appended (a ++ b) w.
Proof. unfold appended. simpl. by rewrite !length_app, app_assoc, !Nat.add_assoc. Qed.

Lemma appended_nil w : appended [] w = w.
Proof. destruct w. unfold appended. simpl. by rewrite app_nil_r, !Nat.add_0_r. Qed.

Definition spaces (n : nat) : ustring := replicate n Character.Space.

(** The indentation [print_indentation] writes. *)
Definition margin (w : TextWriter) : ustring :=
  if (column w =? 0)%nat then spaces (Z.to_nat (indentation w)) else [].

Lemma print_indentation_appended w :
  (0 ≤ indentation w < 2 ^ 31)%Z →
  print_indentation w = Ok tt (appended (spaces (Z.to_nat (indentation w))) w).
Proof.
  intros Hi. unfold print_indentation, mbind, M_bind, get.
  destruct (Z.leb_spec (2 ^ 31) (indentation w)); [lia|].
  generalize (Z.to_nat (indentation w)). intros n. clear Hi H. revert w.
  induction n as [|n IH]; intros w; simpl; [by rewrite appended_nil|].
  unfold mbind, M_bind. rewrite append_appended, IH, appended_app. done.
Qed.

Lemma write_appended t w :
  (0 ≤ indentation w < 2 ^ 31)%Z → write t w = Ok tt (appended (margin w ++ t) w).
Proof.
  intros Hi. unfold write, mbind, M_bind, get, when, margin.
  destruct (column w =? 0)%nat; simpl.
  - rewrite print_indentation_appended by done. by rewrite append_appended, appended_app.
  - by rewrite append_appended.
Qed.

(** Not at the margin of an indented line. *)
Lemma write_plain t w : indentation w = 0%Z → write t w = Ok tt (appended t w).
Proof.
  intros Hi. rewrite write_appended by lia. unfold margin. rewrite Hi. by case_match.
Qed.

(** ** Values *)

(** Induction over values and the values of lists. *)
Section value_ind.
Context (P : Value → Prop).
Context (Hnull : ∀ s, P (NullValue s)) (Hfloat : ∀ s x, P (FloatValue s x)).
Context (Hint : ∀ s n, P (IntValue s n)) (Hstring : ∀ s x, P (StringValue s x)).
Context (Hboolean : ∀ s b, P (BooleanValue s b)) (Henum : ∀ s x, P (EnumValue s x)).
Context (Hobject : ∀ s fields, P (ObjectValue s fields)).
Context (Hlist : ∀ s values, Forall P values → P (ListValue s values)).

Fixpoint value_list_ind (v : Value) : P v :=
  match v with
  | NullValue s => Hnull s
  | FloatValue s x => Hfloat s x
  | IntValue s n => Hint s n
  | StringValue s x => Hstring s x
  | BooleanValue s b => Hboolean s b
  | EnumValue s x => Henum s x
  | ObjectValue s fields => Hobject s fields
  | ListValue s values =>
      Hlist s values
        ((fix all (l : list Value) : Forall P l :=
          match l with
          | [] => @List.Forall_nil Value P
          | v :: l' => @List.Forall_cons Value P v l' (value_list_ind v) (all l')
          end) values)
  end.
End value_ind.

(** Values without objects. *)
Fixpoint flat (v : Value) : bool :=
  match v with
  | ListValue _ values => forallb flat values
  | ObjectValue _ _ => false
  | _ => true
  end.

(** No list in the value is empty. *)
Fixpoint printable (v : Value) : bool :=
  match v with
  | ListValue _ values => negb (bool_decide (values = [])) && forallb printable values
  | ObjectValue _ _ => false
  | _ => true
  end.

(** Texts separated by a comma and a space. *)
Fixpoint separated (l : list ustring) : ustring :=
  match l with
  | [] => []
  | [x] => x
  | x :: l' => x ++ u ", " ++ separated l'
  end.

Fixpoint value_text (v : Value) : ustring :=
  match v with
  | NullValue _ => u "null"
  | FloatValue _ x | StringValue _ x | EnumValue _ x => x
  | IntValue _ n => to_string n
  | BooleanValue _ b => if b then u "true" else u "false"
  | ObjectValue _ _ => []
  | ListValue _ values => u "[" ++ separated (map value_text values) ++ u "]"
  end.

Definition no_saves : exn := std_domain_error (u "You have restored all saves.").

#[local] Arguments u : simpl never.

Lemma separated_snoc l x :
  concat (map (λ y, y ++ u ", ") l) ++ x = separated (l ++ [x]).
Proof.
  induction l as [|y l IH]; simpl; [done|]. rewrite <- !app_assoc, IH.
  destruct l; simpl; [done|]. by rewrite <- ?app_assoc.
Qed.

Lemma wp_with_writer {S} ub (m : M TextWriter unit) (Q : ustring → S → Prop) X s :
  wp ub m (λ _ w, Q (text w) s) (λ e _, X e s) new_TextWriter → wp ub (with_writer m) Q X s.
Proof.
  Local Transparent wp. unfold wp, with_writer. by destruct (m new_TextWriter).
Qed.

Lemma wp_write ub t (Q : unit → TextWriter → Prop) X w :
  indentation w = 0%Z → Q tt (appended t w) → wp ub (write t) Q X w.
Proof. intros Hi HQ. eapply wp_intro_ok; [by apply write_plain|done]. Qed.

(** A value without objects is printed as its text; an empty list in it makes
    [restore] throw. *)
Lemma get_value_string_spec v :
  flat v = true → ∀ S (s : S),
  wp False (get_value_string v)
    (λ x s', s' = s ∧ x = value_text v ∧ printable v = true)
    (λ e s', s' = s ∧ e = no_saves ∧ printable v = false) s.
Proof.
  induction v as [ | | | |? b| | |x values IH] using value_list_ind;
    intros Hflat S0 s0; simpl get_value_string; apply wp_with_writer; simpl in Hflat.
  1-4, 6: by apply wp_write.
  - destruct b; by apply wp_write.
  - done.
  - wp_step. apply wp_write; [done|]. wp_step.
    apply (wp_for_each _ (λ l w, ∃ pre, values = pre ++ l ∧ forallb printable pre = true ∧
      indentation w = 0%Z ∧
      text w = u "[" ++ concat (map (λ y, y ++ u ", ") (map value_text pre)) ∧
      match saved_text_cursors w with
      | [] => pre = []
      | c :: _ => pre ≠ [] ∧ ttc_text c = u "[" ++ separated (map value_text pre)
      end)).
    { exists []. by split_and!. }
    + intros v l w (pre & -> & Hpre & Hi & Htext & Hsaved). 
      rewrite forallb_app in Hflat. apply andb_prop in Hflat as [_ Hflat].
      apply andb_prop in Hflat as [Hv _]. apply Forall_app in IH as [_ IH].
      apply list.Forall_cons in IH as [IH _]. wp_step.
      eapply wp_mono; [by apply IH| |].
      * intros t w' (-> & -> & Hp). wp_step. apply wp_write; [done|]. wp_step.
        unfold TextWriter.save. wp_step. apply wp_write; [done|].
        exists (pre ++ [v]). rewrite !map_app, forallb_app, concat_app. simpl.
        rewrite Hpre, Hp. split_and!; try done.
        -- by rewrite <- app_assoc.
        -- rewrite Htext. by rewrite app_nil_r, <- !app_assoc.
        -- by destruct pre.
        -- rewrite Htext, <- app_assoc. by rewrite separated_snoc.
      * intros e w' (-> & -> & Hp). split_and!; try done. simpl. 
        rewrite forallb_app. simpl. rewrite Hp. by rewrite !andb_false_r.
    + intros w (pre & Heq & Hpre & Hi & Htext & Hsaved). rewrite app_nil_r in Heq. subst pre.
      unfold restore. do 3 wp_step. destruct (saved_text_cursors w) as [|c rest].
      * wp_step. subst values. done.
      * destruct Hsaved as [Hne Hc]. repeat wp_step. apply wp_write; [done|]. simpl.
        split_and!; [done| |]. { rewrite Hc. by rewrite <- ?app_assoc. }
        by rewrite bool_decide_false, Hpre.
Qed.
