(* ===== verification/Schema.v ===== *)
(** * The schema parser ([program/graphql/graphql_schema.h], [.cpp])

    The constructor of [GraphQlSchema] parses a document of type definitions
    and then checks the references the parse left open.  The heap holds the
    nodes that are shared while they are still being filled in: a declaration
    is registered in [symbols] under its name before its fields are parsed,
    and a type annotation is in [forward_type_references] as well as in the
    field that has it.  Reading a null pointer, or a node at a class it does
    not have, is [Undefined]. *)
From S2P Require Import Prelude Monad Character Cstring Diagnostic StdMap Syntaxes.
From S2P Require Import TextWriter Scanner Parser.

(** [query], [mutation] and [subscription]: members without an initialiser. *)
Inductive root :=
  | Uninitialised
  | Assigned (p : option ptr).

(** [class GraphQlSchema]; the vectors grow at their end. *)
Record GraphQlSchema := mkGraphQlSchema {
  parser : GraphQlParser;
  heap : list Node;
  definitions : list ptr;
  query : root;
  mutation : root;
  subscription : root;
  symbols : std_map ustring Symbol;
  forward_type_references : list ptr;
  forward_interface_references : list Name;
  interfaces : std_map ustring ptr;
  objects_with_implementations : list ptr;
  unions : list ptr;
  duplicate_symbols : list ustring
}.

Definition set_parser (v : GraphQlParser) (x : GraphQlSchema) : GraphQlSchema :=
  mkGraphQlSchema v (heap x) (definitions x) (query x) (mutation x) (subscription x) (symbols x)
      (forward_type_references x) (forward_interface_references x) (interfaces x)
      (objects_with_implementations x) (unions x) (duplicate_symbols x).
Definition set_heap (v : list Node) (x : GraphQlSchema) : GraphQlSchema :=
  mkGraphQlSchema (parser x) v (definitions x) (query x) (mutation x) (subscription x) (symbols x)
      (forward_type_references x) (forward_interface_references x) (interfaces x)
      (objects_with_implementations x) (unions x) (duplicate_symbols x).
Definition set_definitions (v : list ptr) (x : GraphQlSchema) : GraphQlSchema :=
  mkGraphQlSchema (parser x) (heap x) v (query x) (mutation x) (subscription x) (symbols x)
      (forward_type_references x) (forward_interface_references x) (interfaces x)
      (objects_with_implementations x) (unions x) (duplicate_symbols x).
Definition set_query (v : root) (x : GraphQlSchema) : GraphQlSchema :=
  mkGraphQlSchema (parser x) (heap x) (definitions x) v (mutation x) (subscription x) (symbols x)
      (forward_type_references x) (forward_interface_references x) (interfaces x)
      (objects_with_implementations x) (unions x) (duplicate_symbols x).
Definition set_mutation (v : root) (x : GraphQlSchema) : GraphQlSchema :=
  mkGraphQlSchema (parser x) (heap x) (definitions x) (query x) v (subscription x) (symbols x)
      (forward_type_references x) (forward_interface_references x) (interfaces x)
      (objects_with_implementations x) (unions x) (duplicate_symbols x).
Definition set_subscription (v : root) (x : GraphQlSchema) : GraphQlSchema :=
  mkGraphQlSchema (parser x) (heap x) (definitions x) (query x) (mutation x) v (symbols x)
      (forward_type_references x) (forward_interface_references x) (interfaces x)
      (objects_with_implementations x) (unions x) (duplicate_symbols x).
Definition set_symbols (v : std_map ustring Symbol) (x : GraphQlSchema) : GraphQlSchema :=
  mkGraphQlSchema (parser x) (heap x) (definitions x) (query x) (mutation x) (subscription x) v
      (forward_type_references x) (forward_interface_references x) (interfaces x)
      (objects_with_implementations x) (unions x) (duplicate_symbols x).
Definition set_forward_type_references (v : list ptr) (x : GraphQlSchema) : GraphQlSchema :=
  mkGraphQlSchema (parser x) (heap x) (definitions x) (query x) (mutation x) (subscription x)
      (symbols x) v (forward_interface_references x) (interfaces x) (objects_with_implementations
      x) (unions x) (duplicate_symbols x).
Definition set_forward_interface_references (v : list Name) (x : GraphQlSchema) : GraphQlSchema :=
  mkGraphQlSchema (parser x) (heap x) (definitions x) (query x) (mutation x) (subscription x)
      (symbols x) (forward_type_references x) v (interfaces x) (objects_with_implementations x)
      (unions x) (duplicate_symbols x).
Definition set_interfaces (v : std_map ustring ptr) (x : GraphQlSchema) : GraphQlSchema :=
  mkGraphQlSchema (parser x) (heap x) (definitions x) (query x) (mutation x) (subscription x)
      (symbols x) (forward_type_references x) (forward_interface_references x) v
      (objects_with_implementations x) (unions x) (duplicate_symbols x).
Definition set_objects_with_implementations (v : list ptr) (x : GraphQlSchema) : GraphQlSchema :=
  mkGraphQlSchema (parser x) (heap x) (definitions x) (query x) (mutation x) (subscription x)
      (symbols x) (forward_type_references x) (forward_interface_references x) (interfaces x) v
      (unions x) (duplicate_symbols x).
Definition set_unions (v : list ptr) (x : GraphQlSchema) : GraphQlSchema :=
  mkGraphQlSchema (parser x) (heap x) (definitions x) (query x) (mutation x) (subscription x)
      (symbols x) (forward_type_references x) (forward_interface_references x) (interfaces x)
      (objects_with_implementations x) v (duplicate_symbols x).
Definition set_duplicate_symbols (v : list ustring) (x : GraphQlSchema) : GraphQlSchema :=
  mkGraphQlSchema (parser x) (heap x) (definitions x) (query x) (mutation x) (subscription x)
      (symbols x) (forward_type_references x) (forward_interface_references x) (interfaces x)
      (objects_with_implementations x) (unions x) v.

Definition new_GraphQlSchema (source_ : ustring) : GraphQlSchema :=
  mkGraphQlSchema (new_GraphQlParser source_) [] [] Uninitialised Uninitialised Uninitialised
    [] [] [] [] [] [] [].

#[export] Instance schema_parser : Has GraphQlParser GraphQlSchema.
Proof. by refine {| sub := parser; put_sub := set_parser |}; intros; try destruct s. Defined.


(** ** The heap *)

Definition alloc (n : Node) : M GraphQlSchema ptr :=
  p ← gets (λ s, length (heap s));
  modify (λ s, set_heap (heap s ++ [n]) s);;
  mret p.

Definition read_type (p : ptr) : M GraphQlSchema Type_ :=
  h ← gets heap;
  match h !! p with
  | Some (NType t) => mret t
  | _ => undefined
  end.

Definition update_type (p : ptr) (f : Type_ → Type_) : M GraphQlSchema unit :=
  t ← read_type p;
  modify (λ s, set_heap (<[p := NType (f t)]> (heap s)) s).

Definition read_decl (p : ptr) : M GraphQlSchema Declaration :=
  h ← gets heap;
  match h !! p with
  | Some (NDecl d) => mret d
  | _ => undefined
  end.

Definition update_decl (p : ptr) (f : Declaration → Declaration) : M GraphQlSchema unit :=
  d ← read_decl p;
  modify (λ s, set_heap (<[p := NDecl (f d)]> (heap s)) s).

(** [declaration->name->identifier]: a null [name] is undefined. *)
Definition read_decl_name (p : ptr) : M GraphQlSchema Name :=
  d ← read_decl p;
  deref (decl_name d).

(** [static_cast] to a class and a read of the members of that class. *)
Definition as_object_like (d : Declaration) : option ObjectLike :=
  match body d with BObject o | BInterface o => Some o | _ => None end.
Definition as_input_object (d : Declaration) : option InputObject :=
  match body d with BInputObject o => Some o | _ => None end.
Definition as_union (d : Declaration) : option UnionTypeDefinition :=
  match body d with BUnion v => Some v | _ => None end.
Definition as_directive_definition (d : Declaration) : option DirectiveDefinition :=
  match body d with BDirectiveDefinition v => Some v | _ => None end.
(** [static_cast<InputType*>]: its [directives]. *)
Definition as_input_type (d : Declaration) : option (std_map ustring Directive) :=
  match body d with
  | BInputObject o => Some (io_directives o)
  | BEnum e => Some (enum_directives e)
  | _ => None
  end.

(** Writes through a pointer of a known class. *)
Definition map_object_like (f : ObjectLike → ObjectLike) (b : Body) : Body :=
  match b with
  | BObject o => BObject (f o)
  | BInterface o => BInterface (f o)
  | _ => b
  end.
Definition map_input_object (f : InputObject → InputObject) (b : Body) : Body :=
  match b with BInputObject o => BInputObject (f o) | _ => b end.
Definition map_enum (f : EnumTypeDefinition → EnumTypeDefinition) (b : Body) : Body :=
  match b with BEnum e => BEnum (f e) | _ => b end.
Definition map_union (f : UnionTypeDefinition → UnionTypeDefinition) (b : Body) : Body :=
  match b with BUnion v => BUnion (f v) | _ => b end.
Definition map_directive_definition (f : DirectiveDefinition → DirectiveDefinition) (b : Body) :
    Body :=
  match b with BDirectiveDefinition v => BDirectiveDefinition (f v) | _ => b end.
Definition map_schema (f : Schema → Schema) (b : Body) : Body :=
  match b with BSchema v => BSchema (f v) | _ => b end.

Definition update_body (p : ptr) (f : Body → Body) : M GraphQlSchema unit :=
  update_decl p (λ d, set_body (f (body d)) d).

(** [CreateSyntax<T>(kind)] for a class kept in the heap. *)
Definition create_declaration (k : SyntaxKind) (b : Body) : M GraphQlSchema ptr :=
  syntax ← ⟨CreateSyntax k⟩;
  alloc (NDecl (new_Declaration syntax b)).

(** [x->name = name;] *)
Definition assign_name (p : ptr) (name : Name) : M GraphQlSchema unit :=
  update_decl p (set_decl_name (Some name)).

(** [if (has_description) x->description = current_description;] *)
Definition assign_description (p : ptr) : M GraphQlSchema unit :=
  ps ← gets parser;
  when (has_description ps) (update_decl p (set_decl_description (current_description ps))).

(** ** Symbols *)

(** [symbols.emplace(name, create_symbol(...))] *)
Definition add_symbol (name : ustring) (declaration : ptr) (kind : SymbolKind) : M GraphQlSchema
    unit :=
  modify (λ s, set_symbols (emplace name (mkSymbol name declaration kind) (symbols s)) s).

(** The registration of a named declaration in [parse_object_name],
    [parse_input_object_name] and [parse_enum]. *)
Definition register_symbol (name : Name) (declaration_ : ptr) (kind : SymbolKind) : M GraphQlSchema
    unit :=
  s ← get;
  match find (identifier name) (symbols s) with
  | None => add_symbol (identifier name) declaration_ kind
  | Some result =>
      location ← ⟨get_location_from_syntax (name_syntax name)⟩;
      ⟨add_diagnostic_at location Duplicate_type_0 [identifier name]⟩;;
      s ← get;
      if decide (identifier name ∈ duplicate_symbols s) then mret tt
      else
        first ← read_decl_name (declaration result);
        location ← ⟨get_location_from_syntax (name_syntax first)⟩;
        ⟨add_diagnostic_at location Duplicate_type_0 [symbol_name result]⟩;;
        modify (λ s, set_duplicate_symbols (identifier name :: duplicate_symbols s) s)
  end.

(** ** Recovery *)

Definition token_is_primary (token : GraphQlToken.t) : bool :=
  match token with
  | GraphQlToken.DirectiveKeyword | GraphQlToken.EnumKeyword | GraphQlToken.InputKeyword
  | GraphQlToken.InterfaceKeyword | GraphQlToken.SchemaKeyword | GraphQlToken.TypeKeyword
  | GraphQlToken.UnionKeyword | GraphQlToken.EndOfDocument => true
  | _ => false
  end.

Definition skip_to_next_primary_token : M GraphQlParser unit :=
  skip_to [GraphQlToken.DirectiveKeyword; GraphQlToken.EnumKeyword; GraphQlToken.InputKeyword;
    GraphQlToken.InterfaceKeyword; GraphQlToken.SchemaKeyword; GraphQlToken.TypeKeyword;
    GraphQlToken.UnionKeyword];;
  mret tt.

(** Fuel of the parser's loops: each iteration takes a token. *)
Definition parse_fuel (p : GraphQlParser) : nat := scan_fuel (scanner p).

Definition parse_loop {A B} (body : A → M GraphQlParser (A + B)) (a : A) : M GraphQlParser B :=
  p ← get;
  loop (parse_fuel p) body a.

Definition schema_loop {A B} (body : A → M GraphQlSchema (A + B)) (a : A) : M GraphQlSchema B :=
  s ← get;
  loop (parse_fuel (parser s)) body a.

(** ** Values, arguments and directives *)

Definition set_current_value_token_from_scanner : M GraphQlParser GraphQlToken.t :=
  token ← TakeNextToken;
  modify (set_current_value_token token);;
  mret token.

(** The cases of [parse_value] that do not recurse. *)
Definition parse_scalar_value (token : GraphQlToken.t) : M GraphQlParser (option Value) :=
  match token with
  | GraphQlToken.CloseBracket => mret None
  | GraphQlToken.NullKeyword =>
      s ← CreateSyntax S_NullValue; mret (Some (NullValue s))
  | GraphQlToken.G_StringValue =>
      s ← CreateSyntax S_StringValue; v ← get_token_value; mret (Some (StringValue s v))
  | GraphQlToken.IntegerLiteral =>
      s ← CreateSyntax S_IntValue; v ← get_token_value;
      mret (Some (IntValue s (atoi (c_string (raw v)))))
  | GraphQlToken.FloatLiteral =>
      s ← CreateSyntax S_FloatValue; v ← get_token_value; mret (Some (FloatValue s v))
  | GraphQlToken.TrueKeyword =>
      s ← CreateSyntax S_BooleanValue; mret (Some (BooleanValue s true))
  | GraphQlToken.FalseKeyword =>
      s ← CreateSyntax S_BooleanValue; mret (Some (BooleanValue s false))
  | GraphQlToken.G_Name =>
      v ← get_token_value; s ← CreateSyntax S_EnumValue; mret (Some (EnumValue s v))
  | _ =>
      value ← get_token_value;
      add_diagnostic Expected_value_instead_got_0 [value];;
      skip_to [GraphQlToken.G_Name; GraphQlToken.CloseParen];;
      mret None
  end.

Fixpoint parse_value (fuel : nat) : M GraphQlParser (option Value) :=
  match fuel with
  | O => out_of_fuel
  | S fuel' =>
      token ← set_current_value_token_from_scanner;
      match token with
      | GraphQlToken.OpenBracket =>
          syntax ← CreateSyntax S_ListValue;
          values ← parse_loop (λ values,
            value ← parse_value fuel';
            match value with
            | Some v => mret (inl (values ++ [v]))
            | None => mret (inr values)
            end) [];
          p ← get;
          when (bool_decide (current_value_token p ≠ GraphQlToken.CloseBracket))
            (value ← get_token_value; add_diagnostic Expected_0_but_got_1 [u "]"; value]);;
          syntax ← FinishSyntax syntax;
          mret (Some (ListValue syntax values))
      | GraphQlToken.OpenBrace =>
          syntax ← CreateSyntax S_ObjectValue;
          fields ← parse_loop (λ fields,
            token ← take_next_token true true;
            match token with
            | GraphQlToken.CloseBrace | GraphQlToken.EndOfDocument => mret (inr (Some fields))
            | GraphQlToken.G_Name =>
                name ← get_token_value;
                field_syntax ← CreateSyntax S_ObjectField;
                name ← create_name name;
                colon ← expect GraphQlToken.Colon;
                if (colon : bool) then
                  value ← parse_value fuel';
                  mret (inl (fields ++ [mkObjectField field_syntax name value]))
                else mret (inr None)
            | _ =>
                add_diagnostic Expected_object_field_name [];;
                t ← skip_to [GraphQlToken.CloseBrace; GraphQlToken.G_Name];
                if decide (t = GraphQlToken.G_Name) then mret (inl fields)
                else mret (inr (Some fields))
            end) [];
          match fields with
          | Some fields =>
              syntax ← FinishSyntax syntax;
              mret (Some (ObjectValue syntax fields))
          | None => mret None
          end
      | _ => parse_scalar_value token
      end
  end.

Definition parse_value_ : M GraphQlParser (option Value) :=
  p ← get;
  parse_value (parse_fuel p).

Definition parse_arguments_after_open_paren : M GraphQlParser (std_map ustring Argument) :=
  parse_loop (λ arguments,
    token ← take_next_token true true;
    if decide (token = GraphQlToken.CloseParen) then mret (inr arguments) else
    token_value ← get_token_value;
    name ← create_name token_value;
    syntax ← CreateSyntax S_Argument;
    colon ← expect GraphQlToken.Colon;
    if negb colon then skip_to [GraphQlToken.CloseBrace];; mret (inr arguments) else
    value ← parse_value_;
    let argument := mkArgument syntax name value [] in
    match find token_value arguments with
    | None => mret (inl (emplace token_value argument arguments))
    | Some first =>
        has ← has_diagnostic_in_syntax (name_syntax (argument_name first)) Duplicate_argument_0;
        when (negb has)
          (location ← get_location_from_syntax (name_syntax (argument_name first));
           add_diagnostic_at location Duplicate_argument_0 [token_value]);;
        location ← get_location_from_syntax (name_syntax name);
        add_diagnostic_at location Duplicate_argument_0 [token_value];;
        mret (inl arguments)
    end) [].

Definition parse_directives (location : DirectiveLocation.t) (parent : option ptr) :
    M GraphQlParser (std_map ustring Directive) :=
  parse_loop (λ directives_,
    at_ ← scan_optional GraphQlToken.At;
    if negb at_ then mret (inr directives_) else
    token ← take_next_token true false;
    if decide (token ≠ GraphQlToken.G_Name) then
      value ← get_token_value;
      add_diagnostic Expected_name_but_instead_got_0 [value];;
      skip_to_next_primary_token;;
      mret (inr directives_)
    else
      syntax ← CreateSyntax S_Directive;
      let syntax := set_start (start syntax - 1) syntax in
      value ← get_token_value;
      name ← create_name value;
      paren ← scan_optional GraphQlToken.OpenParen;
      arguments ← (if (paren : bool) then parse_arguments_after_open_paren else mret []);
      let directive := mkDirective syntax name arguments parent location in
      modify (λ p, set_directives (directives p ++ [directive]) p);;
      if contains value directives_ then
        add_diagnostic Duplicate_argument_0 [value];; mret (inl directives_)
      else mret (inl (emplace value directive directives_))) [].

(** ** Types and definitions inside declarations *)

Definition parse_type_annotation (in_input_location_ : bool) (parent : option ptr) :
    M GraphQlSchema (option ptr) :=
  token ← ⟨TakeNextToken⟩;
  syntax ← ⟨CreateSyntax S_Type⟩;
  p ← alloc (NType (new_Type syntax));
  update_type p (set_type_parent parent);;
  update_type p (set_in_input_location in_input_location_);;
  token ← (if decide (token = GraphQlToken.OpenBracket)
           then update_type p (set_is_list_type true);; ⟨TakeNextToken⟩
           else mret token);
  known ← match token with
    | GraphQlToken.IntKeyword => update_type p (set_type T_Int);; mret true
    | GraphQlToken.FloatKeyword => update_type p (set_type T_Float);; mret true
    | GraphQlToken.StringKeyword => update_type p (set_type T_String);; mret true
    | GraphQlToken.BooleanKeyword => update_type p (set_type T_Boolean);; mret true
    | GraphQlToken.IDKeyword => update_type p (set_type T_ID);; mret true
    | GraphQlToken.G_Name =>
        update_type p (set_type T_Object);;
        value ← ⟨get_token_value⟩;
        name ← ⟨create_name value⟩;
        update_type p (set_type_name (Some name));;
        modify (λ s, set_forward_type_references (forward_type_references s ++ [p]) s);;
        mret true
    | _ =>
        value ← ⟨get_token_value⟩;
        ⟨add_diagnostic Expected_type_annotation_instead_got_0 [value]⟩;;
        mret false
    end;
  if negb known then mret None else
  non_null ← ⟨scan_optional GraphQlToken.Exclamation⟩;
  update_type p (set_is_non_null non_null);;
  t ← read_type p;
  closed ← (if is_list_type t then
      bracket ← ⟨expect GraphQlToken.CloseBracket⟩;
      if (bracket : bool) then
        non_null_list ← ⟨scan_optional GraphQlToken.Exclamation⟩;
        update_type p (set_is_non_null_list non_null_list);;
        mret true
      else mret false
    else mret true);
  if negb closed then mret None else
  t ← read_type p;
  syntax ← ⟨FinishSyntax (type_syntax t)⟩;
  update_type p (set_type_syntax syntax);;
  mret (Some p).

Definition parse_arguments_definition_after_open_paren (parent : option ptr) :
    M GraphQlSchema (std_map ustring InputValueDefinition) :=
  schema_loop (λ arguments,
    token ← ⟨take_next_token true true⟩;
    if decide (token = GraphQlToken.G_StringValue) then
      text ← ⟨get_string_value⟩;
      ⟨modify (set_current_description text);; modify (set_has_description true)⟩;;
      mret (inl arguments)
    else
    syntax ← ⟨CreateSyntax S_InputValueDefinition⟩;
    ps ← gets parser;
    let description := if has_description ps then current_description ps else [] in
    ⟨when (has_description ps) (modify (set_has_description false))⟩;;
    match token with
    | GraphQlToken.CloseParen | GraphQlToken.EndOfDocument => mret (inr arguments)
    | GraphQlToken.G_Name =>
        value ← ⟨get_token_value⟩;
        name ← ⟨create_name value⟩;
        colon ← ⟨expect GraphQlToken.Colon⟩;
        if negb colon then mret (inr arguments) else
        type_ ← parse_type_annotation true parent;
        directives_ ← ⟨parse_directives DirectiveLocation.ARGUMENT_DEFINITION parent⟩;
        if contains value arguments then
          ⟨add_diagnostic Duplicate_argument_0 [value]⟩;; mret (inl arguments)
        else
          mret (inl (emplace value
            (mkInputValueDefinition syntax name description type_ directives_) arguments))
    | _ =>
        ⟨add_diagnostic Expected_name_of_argument []⟩;; mret (inr arguments)
    end) [].

(** The state of the loop of [parse_fields_definition_after_open_brace]. *)
Record FieldsLoop := mkFieldsLoop {
  fl_fields : std_map ustring FieldDefinition;
  fl_has_at_least_one_field : bool;
  fl_field_names : list ustring;
  fl_current_description : ustring
}.

Definition parse_field_definition (l : FieldsLoop) :
    M GraphQlSchema (FieldsLoop + option (std_map ustring FieldDefinition)) :=
  syntax ← ⟨CreateSyntax S_FieldDefinition⟩;
  value ← ⟨get_token_value⟩;
  (if decide (value ∈ fl_field_names l) then ⟨add_diagnostic Duplicate_field_0 [value]⟩
   else mret tt);;
  name ← ⟨create_name value⟩;
  paren ← ⟨scan_optional GraphQlToken.OpenParen⟩;
  arguments ← (if (paren : bool) then parse_arguments_definition_after_open_paren None
               else mret []);
  colon ← ⟨expect GraphQlToken.Colon⟩;
  if negb colon then mret (inr None) else
  type_ ← parse_type_annotation false None;
  match type_ with
  | None => mret (inr None)
  | Some t =>
      directives_ ← ⟨parse_directives DirectiveLocation.FIELD_DEFINITION None⟩;
      mret (inl (mkFieldsLoop
        (emplace value
          (mkFieldDefinition syntax name (fl_current_description l) t arguments directives_)
          (fl_fields l))
        true (value :: fl_field_names l) []))
  end.

Definition parse_fields_definition_after_open_brace :
    M GraphQlSchema (option (std_map ustring FieldDefinition)) :=
  schema_loop (λ l,
    field_token ← ⟨take_next_token true true⟩;
    match field_token with
    | GraphQlToken.EndOfDocument =>
        ⟨add_diagnostic Expected_0_but_instead_reached_the_end_of_document [u "}"]⟩;;
        mret (inr None)
    | GraphQlToken.G_StringValue =>
        text ← ⟨get_string_value⟩;
        mret (inl (mkFieldsLoop (fl_fields l) (fl_has_at_least_one_field l)
          (fl_field_names l) text))
    | GraphQlToken.InvalidString => ⟨take_errors_from_scanner⟩;; mret (inl l)
    | GraphQlToken.G_Name => parse_field_definition l
    | _ =>
        if bool_decide (field_token = GraphQlToken.CloseBrace) && fl_has_at_least_one_field l
        then mret (inr (Some (fl_fields l)))
        else ⟨add_diagnostic Expected_field_definition []⟩;; mret (inr None)
    end) (mkFieldsLoop [] false [] []).

Definition parse_fields_definition : M GraphQlSchema (option (std_map ustring FieldDefinition)) :=
  brace ← ⟨expect GraphQlToken.OpenBrace⟩;
  if negb brace then mret None else parse_fields_definition_after_open_brace.

(** The loop of [parse_input_fields_definition]; its local
    [current_description] is written and never read. *)
Definition parse_input_field_definition (object : ptr) (fields_ : std_map ustring
    InputFieldDefinition)
    (syntax : Syntax) :
    M GraphQlSchema ((std_map ustring InputFieldDefinition * bool)
      + option (std_map ustring InputFieldDefinition)) :=
  value ← ⟨get_token_value⟩;
  name ← ⟨create_name value⟩;
  colon ← ⟨expect GraphQlToken.Colon⟩;
  if negb colon then mret (inr None) else
  type_ ← parse_type_annotation true None;
  match type_ with
  | None => mret (inr None)
  | Some t =>
      ty ← read_type t;
      when (is_non_null ty || is_non_null_list ty)
        (update_body object (map_input_object (λ o,
          set_required_fields (required_fields o ++ [value]) o)));;
      directives_ ← ⟨parse_directives DirectiveLocation.INPUT_FIELD_DEFINITION None⟩;
      mret (inl (emplace value (mkInputFieldDefinition syntax name t directives_) fields_, true))
  end.

Definition parse_input_fields_definition (object : ptr) :
    M GraphQlSchema (option (std_map ustring InputFieldDefinition)) :=
  brace ← ⟨expect GraphQlToken.OpenBrace⟩;
  if negb brace then mret None else
  schema_loop (λ '(fields_, has_at_least_one_field),
    syntax ← ⟨CreateSyntax S_InputFieldDefinition⟩;
    field_token ← ⟨take_next_token true true⟩;
    match field_token with
    | GraphQlToken.EndOfDocument =>
        ⟨add_diagnostic Expected_0_but_instead_reached_the_end_of_document [u "}"]⟩;;
        mret (inr None)
    | GraphQlToken.G_StringValue => mret (inl (fields_, has_at_least_one_field))
    | GraphQlToken.InvalidString =>
        ⟨take_errors_from_scanner⟩;; mret (inl (fields_, has_at_least_one_field))
    | GraphQlToken.G_Name => parse_input_field_definition object fields_ syntax
    | _ =>
        if bool_decide (field_token = GraphQlToken.CloseBrace) && has_at_least_one_field
        then mret (inr (Some fields_))
        else ⟨add_diagnostic Expected_field_definition []⟩;; mret (inr None)
    end) ([], false).

(** ** Type definitions *)

(** [parse_object_name] and [parse_input_object_name]. *)
Definition parse_object_name (object : ptr) (kind : SymbolKind) : M GraphQlSchema (option Name) :=
  ok ← ⟨scan_expected_template GraphQlToken.G_Name Expected_type_name_instead_got_0 true⟩;
  if negb ok then mret None else
  value ← ⟨get_token_value⟩;
  name ← ⟨create_name value⟩;
  register_symbol name object kind;;
  mret (Some name).

Definition parse_input_object_name (object : ptr) : M GraphQlSchema (option Name) :=
  ok ← ⟨scan_expected_template GraphQlToken.G_Name Expected_type_name_instead_got_0 false⟩;
  if negb ok then mret None else
  value ← ⟨get_token_value⟩;
  name ← ⟨create_name value⟩;
  register_symbol name object SL_InputObject;;
  mret (Some name).

(** [x->name = parse_..._name(x); if (has_description) ...; if (x->name == nullptr) return] *)
Definition name_declaration (p : ptr) (parse_name : M GraphQlSchema (option Name)) :
    M GraphQlSchema bool :=
  name ← parse_name;
  match name with
  | Some n => assign_name p n
  | None => mret tt
  end;;
  assign_description p;;
  mret (bool_decide (name ≠ None)).

Definition parse_interface_definition : M GraphQlSchema (option ptr) :=
  interface ← create_declaration S_Interface (BInterface new_ObjectLike);
  named ← name_declaration interface (parse_object_name interface SL_Interface);
  if negb named then mret None else
  directives_ ← ⟨parse_directives DirectiveLocation.INTERFACE None⟩;
  update_body interface (map_object_like (set_ol_directives directives_));;
  fields_ ← parse_fields_definition;
  update_body interface (map_object_like (set_fields fields_));;
  name ← read_decl_name interface;
  modify (λ s, set_interfaces (emplace (identifier name) interface (interfaces s)) s);;
  mret (Some interface).

Definition parse_implementations : M GraphQlSchema (option Implementations) :=
  syntax ← ⟨CreateSyntax S_Implementations⟩;
  schema_loop (λ implementations_,
    token ← ⟨TakeNextToken⟩;
    if decide (token = GraphQlToken.EndOfDocument) then
      ⟨add_diagnostic Unexpected_end_of_implementations []⟩;; mret (inr None)
    else if decide (token ≠ GraphQlToken.G_Name) then
      ⟨add_diagnostic Expected_name_of_interface []⟩;; mret (inr None)
    else
      value ← ⟨get_token_value⟩;
      name ← ⟨create_name value⟩;
      let implementations_ := emplace value name implementations_ in
      s ← get;
      match find value (symbols s) with
      | None => modify (λ s,
          set_forward_interface_references (forward_interface_references s ++ [name]) s)
      | Some symbol =>
          when (bool_decide (symbol_kind symbol ≠ SL_Interface))
            ⟨add_diagnostic Expected_name_of_interface []⟩
      end;;
      post_token ← ⟨TakeNextToken⟩;
      match post_token with
      | GraphQlToken.OpenBrace => mret (inr (Some (mkImplementations syntax implementations_)))
      | GraphQlToken.Ampersand => mret (inl implementations_)
      | _ =>
          value ← ⟨get_token_value⟩;
          ⟨add_diagnostic Expected_0_but_got_1 [u "{"; value]⟩;;
          ⟨⟨skip_block⟩⟩;;
          mret (inr None)
      end) [].

(** The rest of [parse_object] once the fields are parsed. *)
Definition finish_object (object : ptr) (fields_ : option (std_map ustring FieldDefinition)) :
    M GraphQlSchema (option ptr) :=
  mret (match fields_ with Some _ => Some object | None => None end).

Definition parse_object : M GraphQlSchema (option ptr) :=
  object ← create_declaration S_Object (BObject new_ObjectLike);
  named ← name_declaration object (parse_object_name object SL_Object);
  if negb named then mret None else
  directives_ ← ⟨parse_directives DirectiveLocation.OBJECT None⟩;
  update_body object (map_object_like (set_ol_directives directives_));;
  implements ← ⟨scan_optional GraphQlToken.ImplementsKeyword⟩;
  if (implements : bool) then
    implementations_ ← parse_implementations;
    update_body object (map_object_like (set_object_implementations implementations_));;
    if decide (implementations_ = None) then mret None else
    fields_ ← parse_fields_definition_after_open_brace;
    update_body object (map_object_like (set_fields fields_));;
    modify (λ s, set_objects_with_implementations (objects_with_implementations s ++ [object]) s);;
    finish_object object fields_
  else
    fields_ ← parse_fields_definition;
    update_body object (map_object_like (set_fields fields_));;
    finish_object object fields_.

Definition parse_input_object : M GraphQlSchema (option ptr) :=
  object ← create_declaration S_InputObject (BInputObject new_InputObject);
  named ← name_declaration object (parse_input_object_name object);
  if negb named then mret None else
  directives_ ← ⟨parse_directives DirectiveLocation.INPUT_OBJECT None⟩;
  update_body object (map_input_object (set_io_directives directives_));;
  fields_ ← parse_input_fields_definition object;
  update_body object (map_input_object (set_io_fields fields_));;
  mret (match fields_ with Some _ => Some object | None => None end).

Definition parse_union_after_union_keyword : M GraphQlSchema (option ptr) :=
  union ← create_declaration S_Union (BUnion new_UnionTypeDefinition);
  let fail_ : M GraphQlSchema (option ptr) := ⟨skip_to_next_primary_token⟩;; mret None in
  let add_member (value : ustring) : M GraphQlSchema unit :=
    name ← ⟨create_name value⟩;
    update_body union (map_union (λ v, set_members (emplace value name (members v)) v)) in
  ok ← ⟨expect GraphQlToken.G_Name⟩;
  if negb ok then fail_ else
  value ← ⟨get_token_value⟩;
  name ← ⟨create_name value⟩;
  assign_name union name;;
  directives_ ← ⟨parse_directives DirectiveLocation.UNION None⟩;
  update_body union (map_union (set_union_directives directives_));;
  ok ← ⟨expect GraphQlToken.Equal⟩;
  if negb ok then fail_ else
  ⟨scan_optional GraphQlToken.Pipe⟩;;
  ok ← ⟨expect GraphQlToken.G_Name⟩;
  if negb ok then fail_ else
  member_name ← ⟨get_token_value⟩;
  add_member member_name;;
  complete ← schema_loop (λ _ : unit,
    ⟨⟨save⟩⟩;;
    token ← ⟨TakeNextToken⟩;
    if decide (token ≠ GraphQlToken.Pipe) then
      if token_is_primary token then ⟨⟨revert⟩⟩;; mret (inr true)
      else ⟨skip_to_next_primary_token⟩;; mret (inr false)
    else
      ok ← ⟨expect GraphQlToken.G_Name⟩;
      if negb ok then ⟨skip_to_next_primary_token⟩;; mret (inr false)
      else member ← ⟨get_token_value⟩; add_member member;; mret (inl tt)) tt;
  if negb complete then mret None else
  add_symbol value union SL_Union;;
  modify (λ s, set_unions (unions s ++ [union]) s);;
  mret (Some union).

(** [token > StartKeyword && token < EndKeyword] *)
Definition is_keyword (token : GraphQlToken.t) : bool :=
  (GraphQlToken.index GraphQlToken.StartKeyword <? GraphQlToken.index token)%nat
  && (GraphQlToken.index token <? GraphQlToken.index GraphQlToken.EndKeyword)%nat.

Definition is_valid_enum_value (token : GraphQlToken.t) : bool :=
  if decide (token = GraphQlToken.G_Name) then true else
  match token with
  | GraphQlToken.TrueKeyword | GraphQlToken.FalseKeyword | GraphQlToken.NullKeyword
  | GraphQlToken.Unknown => false
  | _ => is_keyword token
  end.

(** The loop of [parse_enum]: a description does not reach the value after it,
    because [current_description] is declared inside the loop. *)
Definition parse_enum_value (enum : ptr) (has_at_least_one_field : bool) :
    M GraphQlSchema (bool + option ptr) :=
  token ← ⟨TakeNextToken⟩;
  if bool_decide (token = GraphQlToken.CloseBrace) && has_at_least_one_field then
    mret (inr (Some enum))
  else if decide (token = GraphQlToken.G_StringValue) then mret (inl has_at_least_one_field)
  else if decide (token = GraphQlToken.EndOfDocument) then
    ⟨add_diagnostic Expected_0_but_instead_reached_the_end_of_document [u "enum value"]⟩;;
    mret (inr None)
  else if negb (is_valid_enum_value token) then
    value ← ⟨get_token_value⟩;
    ⟨add_diagnostic Expected_enum_value_but_instead_got_0 [value]⟩;;
    ⟨skip_to [GraphQlToken.CloseBrace]⟩;;
    mret (inr (Some enum))
  else
    value ← ⟨get_token_value⟩;
    name ← ⟨create_name value⟩;
    directives_ ← ⟨parse_directives DirectiveLocation.ENUM_VALUE None⟩;
    update_body enum (map_enum (λ e,
      set_enum_values (emplace value (mkEnumValueDefinition name [] directives_) (enum_values e))
          e));;
    mret (inl true).

Definition parse_enum : M GraphQlSchema (option ptr) :=
  ok ← ⟨expect GraphQlToken.G_Name⟩;
  if negb ok then mret None else
  enum ← create_declaration S_EnumTypeDefinition (BEnum new_EnumTypeDefinition);
  value ← ⟨get_token_value⟩;
  name ← ⟨create_name value⟩;
  assign_name enum name;;
  register_symbol name enum SL_Enum;;
  directives_ ← ⟨parse_directives DirectiveLocation.ENUM None⟩;
  update_body enum (map_enum (set_enum_directives directives_));;
  brace ← ⟨expect GraphQlToken.OpenBrace⟩;
  if negb brace then mret None else
  schema_loop (parse_enum_value enum) false.

Definition add_location (definition : ptr) (l : DirectiveLocation.t) : M GraphQlSchema unit :=
  update_body definition (map_directive_definition (λ d,
    set_locations (if decide (l ∈ locations d) then locations d else l :: locations d) d)).

(** The loop over the locations after the first; the result tells whether the
    definition is complete. *)
Definition parse_directive_location (definition : ptr) (_ : unit) : M GraphQlSchema (unit + bool) :=
  ⟨⟨save⟩⟩;;
  token ← ⟨TakeNextToken⟩;
  if token_is_primary token then ⟨⟨revert⟩⟩;; mret (inr true)
  else if decide (token ≠ GraphQlToken.Pipe) then
    value ← ⟨get_token_value⟩;
    ⟨add_diagnostic Expected_0_but_got_1 [u "|"; value]⟩;;
    ⟨skip_to_next_primary_token⟩;;
    mret (inr false)
  else
    l ← ⟨⟨scan_directive_location⟩⟩;
    match l with
    | DirectiveLocation.Unknown =>
        ⟨add_diagnostic Expected_directive_location []⟩;;
        ⟨skip_to_next_primary_token⟩;;
        mret (inr false)
    | DirectiveLocation.EndOfDocument =>
        ⟨add_diagnostic_at (mkLocation 0 0 0 true)
          Expected_directive_location_but_instead_reached_the_end_of_document []⟩;;
        mret (inr false)
    | _ => add_location definition l;; mret (inl tt)
    end.

(** From [on] to the end of the definition. *)
Definition parse_directive_locations (definition : ptr) (name : Name) : M GraphQlSchema (option
    ptr) :=
  ⟨scan_optional GraphQlToken.Pipe⟩;;
  location ← ⟨⟨scan_directive_location⟩⟩;
  if decide (location = DirectiveLocation.Unknown) then
    ⟨add_diagnostic Expected_directive_location []⟩;;
    ⟨skip_to_next_primary_token⟩;;
    mret None
  else
    add_location definition location;;
    complete ← schema_loop (parse_directive_location definition) tt;
    if negb complete then mret None else
    ⟨modify (λ p, set_directive_definitions
      (emplace (identifier name) definition (directive_definitions p)) p)⟩;;
    mret (Some definition).

Definition parse_directive_definition_after_directive_keyword : M GraphQlSchema (option ptr) :=
  at_ ← ⟨expect GraphQlToken.At⟩;
  if negb at_ then ⟨skip_to_next_primary_token⟩;; mret None else
  token ← ⟨take_next_token true false⟩;
  if decide (token ≠ GraphQlToken.G_Name) then
    s ← ⟨token_string token⟩;
    ⟨add_diagnostic Expected_name_but_instead_got_0 [s]⟩;;
    ⟨skip_to_next_primary_token⟩;;
    mret None
  else
    definition ← create_declaration S_DirectiveDefinition
      (BDirectiveDefinition new_DirectiveDefinition);
    assign_description definition;;
    value ← ⟨get_token_value⟩;
    name ← ⟨create_name value⟩;
    assign_name definition name;;
    paren ← ⟨scan_optional GraphQlToken.OpenParen⟩;
    (if (paren : bool) then
      arguments ← parse_arguments_definition_after_open_paren (Some definition);
      update_body definition (map_directive_definition (set_dd_arguments arguments))
     else mret tt);;
    on ← ⟨expect GraphQlToken.OnKeyword⟩;
    if negb on then ⟨skip_to [GraphQlToken.CloseBrace]⟩;; mret None
    else parse_directive_locations definition name.

(** ** The schema definition *)

(** [enum class RootType]: the flags. *)
Inductive RootType := Query | Mutation | Subscription.

#[export] Instance RootType_eq_dec : EqDecision RootType.
Proof. solve_decision. Defined.

Definition RootType_value (r : RootType) : Z :=
  match r with
  | Query => Z.shiftl 1 1
  | Mutation => Z.shiftl 1 2
  | Subscription => Z.shiftl 1 3
  end.

(** [(added & r) == RootType::None] *)
Definition is_absent (added : Z) (r : RootType) : bool := (Z.land added (RootType_value r) =? 0)%Z.

Definition root_name (r : RootType) : ustring :=
  match r with
  | Query => u "query"
  | Mutation => u "mutation"
  | Subscription => u "subscription"
  end.

Definition root_key (r : RootType) (s : Schema) : option Name :=
  match r with
  | Query => query_key s
  | Mutation => mutation_key s
  | Subscription => subscription_key s
  end.

Definition set_root_key (r : RootType) (v : option Name) : Schema → Schema :=
  match r with
  | Query => set_query_key v
  | Mutation => set_mutation_key v
  | Subscription => set_subscription_key v
  end.

Definition set_root (r : RootType) (v : option Name) : Schema → Schema :=
  match r with
  | Query => set_schema_query v
  | Mutation => set_schema_mutation v
  | Subscription => set_schema_subscription v
  end.

Definition read_schema (p : ptr) : M GraphQlSchema Schema :=
  d ← read_decl p;
  match body d with BSchema s => mret s | _ => undefined end.

Definition parse_schema_field_after_colon : M GraphQlParser (option Name) :=
  colon ← expect GraphQlToken.Colon;
  if negb colon then mret None else
  ok ← expect GraphQlToken.G_Name;
  if negb ok then skip_to_next_primary_token;; mret None else
  value ← get_token_value;
  name ← create_name value;
  mret (Some name).

(** The three cases [QueryKeyword], [MutationKeyword] and [SubscriptionKeyword]
    of [parse_schema]; the flags are [added_types] and
    [added_duplicate_types]. *)
Definition parse_root_field (schema_ : ptr) (r : RootType) (added : Z * Z) : M GraphQlSchema (Z *
    Z) :=
  let '(added_types, added_duplicate_types) := added in
  if is_absent added_types r then
    key ← ⟨create_name (root_name r)⟩;
    update_body schema_ (map_schema (set_root_key r (Some key)));;
    name ← ⟨parse_schema_field_after_colon⟩;
    update_body schema_ (map_schema (set_root r name));;
    mret (Z.lor added_types (RootType_value r), added_duplicate_types)
  else
    ⟨add_diagnostic Duplicate_field_0 [root_name r]⟩;;
    ⟨parse_schema_field_after_colon⟩;;
    if is_absent added_duplicate_types r then
      s ← read_schema schema_;
      key ← deref (root_key r s);
      location ← ⟨get_location_from_syntax (name_syntax key)⟩;
      ⟨add_diagnostic_at location Duplicate_field_0 [root_name r]⟩;;
      mret (added_types, Z.lor added_duplicate_types (RootType_value r))
    else mret (added_types, added_duplicate_types).

Definition parse_schema_body (schema_ : ptr) (added : Z * Z) : M GraphQlSchema (Z * Z + unit) :=
  token ← ⟨TakeNextToken⟩;
  match token with
  | GraphQlToken.QueryKeyword => a ← parse_root_field schema_ Query added; mret (inl a)
  | GraphQlToken.MutationKeyword => a ← parse_root_field schema_ Mutation added; mret (inl a)
  | GraphQlToken.SubscriptionKeyword => a ← parse_root_field schema_ Subscription added; mret (inl
      a)
  | GraphQlToken.EndOfDocument | GraphQlToken.CloseBrace => mret (inr tt)
  | _ =>
      ⟨add_diagnostic
        A_schema_definition_can_only_contain_query_mutation_and_subscription_fields []⟩;;
      ⟨parse_schema_field_after_colon⟩;;
      mret (inl added)
  end.

Definition parse_schema : M GraphQlSchema (option ptr) :=
  directives_ ← ⟨parse_directives DirectiveLocation.SCHEMA None⟩;
  brace ← ⟨expect GraphQlToken.OpenBrace⟩;
  if negb brace then ⟨⟨skip_block⟩⟩;; mret None else
  schema_ ← create_declaration S_Schema (BSchema new_Schema);
  update_body schema_ (map_schema (set_schema_directives directives_));;
  schema_loop (parse_schema_body schema_) (0%Z, 0%Z);;
  mret (Some schema_).

(** ** The document *)

Definition parse_primary_token (token : GraphQlToken.t) : M GraphQlSchema (option ptr) :=
  match token with
  | GraphQlToken.DirectiveKeyword => parse_directive_definition_after_directive_keyword
  | GraphQlToken.EnumKeyword => parse_enum
  | GraphQlToken.InterfaceKeyword => parse_interface_definition
  | GraphQlToken.InputKeyword => parse_input_object
  | GraphQlToken.SchemaKeyword => parse_schema
  | GraphQlToken.TypeKeyword => parse_object
  | GraphQlToken.UnionKeyword => parse_union_after_union_keyword
  | _ => ⟨add_diagnostic Expected_type_definition []⟩;; mret None
  end.

(** One iteration of the constructor's loop; the state is the current token
    and the last schema definition. *)
Definition parse_document_body (a : GraphQlToken.t * option ptr) :
    M GraphQlSchema ((GraphQlToken.t * option ptr) + option ptr) :=
  let '(token, schema_) := a in
  if decide (token = GraphQlToken.EndOfDocument) then mret (inr schema_)
  else if decide (token = GraphQlToken.G_StringValue) then
    text ← ⟨get_string_value⟩;
    ⟨modify (set_has_description true);; modify (set_current_description text)⟩;;
    token ← ⟨TakeNextToken⟩;
    mret (inl (token, schema_))
  else
    type_definition ← parse_primary_token token;
    ⟨modify (set_has_description false)⟩;;
    schema_ ← match type_definition with
      | Some p =>
          modify (λ s, set_definitions (definitions s ++ [p]) s);;
          d ← read_decl p;
          mret (if decide (kind (decl_syntax d) = S_Schema) then Some p else schema_)
      | None => ⟨⟨skip_block⟩⟩;; mret schema_
      end;
    token ← ⟨TakeNextToken⟩;
    mret (inl (token, schema_)).

(** The constructor up to the checks: the pointer to the schema definition. *)
Definition parse_document : M GraphQlSchema (option ptr) :=
  token ← ⟨TakeNextToken⟩;
  schema_loop parse_document_body (token, None).
