(* ===== verification/SchemaChecks.v ===== *)
(** * The checks of the schema parser ([program/graphql/graphql_schema.cpp])

    What the constructor of [GraphQlSchema] does once the document is parsed:
    it binds the root operation types, resolves the type annotations and the
    directives, and compares objects with the interfaces they implement.  The
    checks read the heap the parse built; [check_forward_references] and
    [check_value] also write to it. *)
From S2P Require Import Prelude Monad Character Cstring Diagnostic StdMap Syntaxes.
From S2P Require Import TextWriter Scanner Parser Schema.

(** [add_diagnostic (get_location_from_syntax (syntax), d, args)] *)
Definition diagnose (syntax : Syntax) (d : D) (args : list ustring) : M GraphQlSchema unit :=
  location ← ⟨get_location_from_syntax syntax⟩;
  ⟨add_diagnostic_at location d args⟩.

(** ** Root operation types *)

Definition root_type_name (r : RootType) : ustring :=
  match r with
  | Query => u "Query"
  | Mutation => u "Mutation"
  | Subscription => u "Subscription"
  end.

Definition schema_root (r : RootType) (s : Schema) : option Name :=
  match r with
  | Query => schema_query s
  | Mutation => schema_mutation s
  | Subscription => schema_subscription s
  end.

Definition set_root_object (r : RootType) (v : option ptr) : Schema → Schema :=
  match r with
  | Query => set_query_object v
  | Mutation => set_mutation_object v
  | Subscription => set_subscription_object v
  end.

(** [query = p], [mutation = p] or [subscription = p]. *)
Definition assign_root (r : RootType) (p : option ptr) : M GraphQlSchema unit :=
  modify match r with
    | Query => set_query (Assigned p)
    | Mutation => set_mutation (Assigned p)
    | Subscription => set_subscription (Assigned p)
    end.

(** The last branch: only the query root is required, and it is the one that
    is not assigned. *)
Definition no_root_type (r : RootType) : M GraphQlSchema unit :=
  match r with
  | Query =>
      ⟨add_diagnostic_at (mkLocation 0 0 0 true) No_query_root_operation_type_defined []⟩
  | _ => assign_root r None
  end.

Definition set_root_type (schema_ : ptr) (r : RootType) : M GraphQlSchema unit :=
  s ← read_schema schema_;
  table ← gets symbols;
  match schema_root r s with
  | Some name =>
      match find (identifier name) table with
      | Some symbol =>
          update_body schema_ (map_schema (set_root_object r (Some (declaration symbol))));;
          assign_root r (Some (declaration symbol))
      | None => ⟨add_diagnostic Type_0_is_not_defined [identifier name]⟩
      end
  | None =>
      match find (root_type_name r) table with
      | Some symbol => assign_root r (Some (declaration symbol))
      | None => no_root_type r
      end
  end.

Definition set_root_types (schema_ : ptr) : M GraphQlSchema unit :=
  set_root_type schema_ Query;;
  set_root_type schema_ Mutation;;
  set_root_type schema_ Subscription.

(** ** Type annotations *)

Definition recursive_directive (location : ptr) (parent : ustring) : M GraphQlSchema unit :=
  t ← read_type location;
  diagnose (type_syntax t)
    Cannot_annotate_with_a_type_that_recursively_references_the_directive_0 [u "@" ++ parent].

(** [map.find (parent) != map.end ()] guarding the diagnostic. *)
Definition check_directive_map (location : ptr) (parent : ustring)
    (directives_ : std_map ustring Directive) : M GraphQlSchema unit :=
  when (contains parent directives_) (recursive_directive location parent).

(** [check_recursive_directives]: the recursion follows the types of the
    fields of input objects.  A chain longer than the heap visits a declaration
    twice and then never ends, so the fuel runs out only where the program
    overflows its stack. *)
Fixpoint check_recursive_directives (fuel : nat) (parent : ustring) (location type_ : ptr) :
    M GraphQlSchema unit :=
  match fuel with
  | O => out_of_fuel
  | S fuel' =>
      t ← read_type type_;
      if (Z.land (SyntaxKind_value (kind (type_syntax t))) S_InputTypeWithDirectives
          =? SyntaxKind_value S_None)%Z then mret tt else
      name ← deref (type_name t);
      table ← gets symbols;
      symbol ← deref (find (identifier name) table);
      input_type ← read_decl (declaration symbol);
      directives_ ← deref (as_input_type input_type);
      check_directive_map location parent directives_;;
      match body input_type with
      | BInputObject input_object =>
          fields_ ← deref (io_fields input_object);
          for_each fields_ (λ '(_, f),
            check_directive_map location parent (ifd_directives f);;
            field_type ← read_type (ifd_type f);
            if decide (type field_type = T_Object) then
              check_recursive_directives fuel' parent location (ifd_type f)
            else mret tt)
      | BEnum e =>
          for_each (enum_values e) (λ '(_, v),
            check_directive_map location parent (evd_directives v))
      | _ => mret tt
      end
  end.

(** [if (type->parent_directive_definition != nullptr) check_recursive_directives(...)] *)
Definition check_parent_directive (type_ : ptr) : M GraphQlSchema unit :=
  t ← read_type type_;
  match type_parent t with
  | None => mret tt
  | Some parent =>
      name ← read_decl_name parent;
      h ← gets heap;
      check_recursive_directives (S (length h)) (identifier name) type_ type_
  end.

(** The body of the loop of [check_forward_references]. *)
Definition check_forward_reference (type_ : ptr) : M GraphQlSchema unit :=
  t ← read_type type_;
  name ← deref (type_name t);
  table ← gets symbols;
  match find (identifier name) table with
  | None => diagnose (name_syntax name) Type_0_is_not_defined [identifier name]
  | Some symbol =>
      let k := symbol_kind symbol in
      if symbol_in k (SymbolKind_value SL_Enum) then
        update_type type_ (set_type T_Enum);;
        check_parent_directive type_
      else
        when (symbol_in k SymbolKind_Input)
          (when (negb (in_input_location t))
            (diagnose (name_syntax name) Cannot_add_an_input_type_to_an_output_location
              [identifier name]);;
           check_parent_directive type_);;
        when (symbol_in k SymbolKind_Output && in_input_location t)
          (diagnose (name_syntax name) Cannot_add_an_output_type_to_an_input_location
            [identifier name])
  end.

Definition check_forward_references : M GraphQlSchema unit :=
  references ← gets forward_type_references;
  for_each references check_forward_reference.

(** ** Values *)

Definition not_assignable (syntax : Syntax) (value_string : M GraphQlSchema ustring) (t : Type_) :
    M GraphQlSchema unit :=
  location ← ⟨get_location_from_syntax syntax⟩;
  value ← value_string;
  name ← get_type_name t;
  ⟨add_diagnostic_at location The_value_0_is_not_assignable_to_type_1 [value; name]⟩.

(** The last loop of [check_input_object]. *)
Definition check_required_field (syntax : Syntax) (checked_fields : std_map ustring ObjectField)
    (field : ustring * InputFieldDefinition) : M GraphQlSchema unit :=
  let '(key, f) := field in
  t ← read_type (ifd_type f);
  when ((is_non_null t || is_non_null_list t) && negb (contains key checked_fields))
    (diagnose syntax Missing_required_field_0 [identifier (ifd_name f)]).

Definition duplicate_object_field (field checked : ObjectField) : M GraphQlSchema unit :=
  let name := identifier (field_name field) in
  diagnose (field_syntax field) Duplicate_field_0 [name];;
  has ← ⟨has_diagnostic_in_syntax (field_syntax checked) Duplicate_field_0⟩;
  when (negb has) (diagnose (field_syntax checked) Duplicate_field_0 [name]).

Section check_input_object.
Context (check_value : Value → ptr → M GraphQlSchema unit).

(** The body of the first loop: the fields checked so far. *)
Definition check_object_field (syntax : Syntax) (object_name : option Name)
    (fields_ : std_map ustring InputFieldDefinition)
    (checked_fields : std_map ustring ObjectField) (field : ObjectField) :
    M GraphQlSchema (std_map ustring ObjectField) :=
  match field with
  | mkObjectField _ name value =>
      match find (identifier name) fields_ with
      | None =>
          name_ ← deref object_name;
          diagnose syntax Field_0_does_not_exist_on_type_1 [identifier name; identifier name_];;
          mret checked_fields
      | Some definition =>
          match find (identifier name) checked_fields with
          | Some checked => duplicate_object_field field checked;; mret checked_fields
          | None =>
              match value with
              | Some v => check_value v (ifd_type definition)
              | None => undefined
              end;;
              mret (emplace (identifier name) field checked_fields)
          end
      end
  end.

Definition check_input_object (syntax : Syntax) (object_fields : list ObjectField)
    (type_ : ptr) : M GraphQlSchema unit :=
  t ← read_type type_;
  name ← deref (type_name t);
  table ← gets symbols;
  match find (identifier name) table with
  | None => ⟨add_diagnostic Type_0_is_not_defined [identifier name]⟩
  | Some symbol =>
      if decide (symbol_kind symbol ≠ SL_InputObject) then mret tt else
      d ← read_decl (declaration symbol);
      input_object ← deref (as_input_object d);
      fields_ ← deref (io_fields input_object);
      checked_fields ← fold_each object_fields
        (check_object_field syntax (decl_name d) fields_) [];
      when (length checked_fields <? length fields_)%nat
        (for_each fields_ (check_required_field syntax checked_fields))
  end.
End check_input_object.

Fixpoint check_value (value : Value) (type_ : ptr) : M GraphQlSchema unit :=
  t ← read_type type_;
  let reject := not_assignable (value_syntax value) (get_value_string value) t in
  match value with
  | NullValue s =>
      when ((negb (is_list_type t) && is_non_null t) || is_non_null_list t)
        (not_assignable s (mret (u "null")) t)
  | ListValue _ values =>
      if negb (is_list_type t) then reject else
      update_type type_ (set_is_list_type false);;
      update_type type_ (set_is_non_null_list false);;
      for_each values (λ v, check_value v type_);;
      update_type type_ (set_is_list_type true);;
      update_type type_ (set_is_non_null_list (is_non_null_list t))
  | StringValue _ _ => when (negb (type_in (type t) T_StringType) || is_list_type t) reject
  | IntValue _ _ => when (negb (type_in (type t) T_IntegerType) || is_list_type t) reject
  | FloatValue _ _ => when (bool_decide (type t ≠ T_Float) || is_list_type t) reject
  | BooleanValue _ _ => when (bool_decide (type t ≠ T_Boolean) || is_list_type t) reject
  | ObjectValue s object_fields =>
      when (bool_decide (type t ≠ T_Object) || is_list_type t) reject;;
      check_input_object check_value s object_fields type_
  | EnumValue _ _ => when (bool_decide (type t ≠ T_Enum) || is_list_type t) reject
  end.

(** ** Directives *)

(** The body of the loop over the arguments of the definition; the arguments
    checked so far. *)
Definition check_directive_argument (directive : Directive) (checked_arguments : list ustring)
    (argument_definition : ustring * InputValueDefinition) : M GraphQlSchema (list ustring) :=
  let '(_, definition) := argument_definition in
  let argument := identifier (ivd_name definition) in
  type_ ← deref (ivd_type definition);
  match find argument (directive_arguments directive) with
  | None =>
      t ← read_type type_;
      when (is_non_null t || is_non_null_list t)
        (diagnose (directive_syntax directive) Missing_required_argument_0 [argument]);;
      mret checked_arguments
  | Some directive_argument =>
      value ← deref (argument_value directive_argument);
      check_value value type_;;
      mret (if decide (argument ∈ checked_arguments) then checked_arguments
            else argument :: checked_arguments)
  end.

(** The last loop: the arguments that were checked are the ones reported. *)
Definition check_unknown_argument (checked_arguments : list ustring)
    (argument : ustring * Argument) : M GraphQlSchema unit :=
  when (bool_decide (identifier (argument_name argument.2) ∈ checked_arguments))
    ⟨add_diagnostic Unknown_argument_0 []⟩.

(** [directiveLocationToString.at (location)] *)
Definition location_string (location : DirectiveLocation.t) : M GraphQlSchema ustring :=
  match directiveLocationToString location with
  | Some s => mret s
  | None => throw std_out_of_range
  end.

Definition check_directive_location (directive : Directive) (definition : DirectiveDefinition) :
    M GraphQlSchema unit :=
  when (bool_decide (directive_location directive ∉ locations definition))
    (location ← location_string (directive_location directive);
     diagnose (directive_syntax directive) The_directive_0_does_not_support_the_location_1
       [u "@" ++ identifier (directive_name directive); location]).

(** The body of the loop of [check_directive_references]. *)
Definition check_directive_reference (directive : Directive) : M GraphQlSchema unit :=
  let name := identifier (directive_name directive) in
  p ← gets parser;
  match find name (directive_definitions p) with
  | None => diagnose (directive_syntax directive) Undefined_directive_0 [name]
  | Some definition_ =>
      (match directive_parent directive with
       | None => mret tt
       | Some parent =>
           parent_name ← read_decl_name parent;
           when (bool_decide (identifier parent_name = name))
             (diagnose (directive_syntax directive) Directive_cannot_reference_itself [])
       end);;
      d ← read_decl definition_;
      definition ← deref (as_directive_definition d);
      check_directive_location directive definition;;
      checked_arguments ← fold_each (dd_arguments definition)
        (check_directive_argument directive) [];
      when (length checked_arguments <? length (directive_arguments directive))%nat
        (for_each (directive_arguments directive) (check_unknown_argument checked_arguments))
  end.

Definition check_directive_references : M GraphQlSchema unit :=
  p ← gets parser;
  for_each (directives p) check_directive_reference.

(** ** Implementations of interfaces *)

Definition does_not_match (object_type interface_type : Type_) (interface : Declaration) :
    M GraphQlSchema unit :=
  location ← ⟨get_location_from_syntax (type_syntax object_type)⟩;
  a ← get_type_name object_type;
  b ← get_type_name interface_type;
  name ← deref (decl_name interface);
  ⟨add_diagnostic_at location Type_0_does_not_match_type_1_from_the_interface_2
    [a; b; identifier name]⟩.

(** The body of the loop over the fields of an interface; [true] is [break]. *)
Definition check_interface_field (object : Declaration)
    (object_fields : std_map ustring FieldDefinition) (interface_name : ustring)
    (interface : Declaration) (interface_field : ustring * FieldDefinition) :
    M GraphQlSchema bool :=
  let field_name := identifier (fd_name interface_field.2) in
  match find field_name object_fields with
  | None =>
      name ← deref (decl_name object);
      diagnose (name_syntax name) The_field_0_in_interface_1_is_not_implemented
        [field_name; interface_name];;
      mret false
  | Some object_field =>
      object_type ← read_type (fd_type object_field);
      interface_type ← read_type (fd_type interface_field.2);
      if decide (type object_type ≠ type interface_type) then
        does_not_match object_type interface_type interface;; mret true
      else if type_in (type object_type) T_SymbolicType then
        a ← deref (type_name object_type);
        b ← deref (type_name interface_type);
        if decide (identifier a ≠ identifier b) then
          does_not_match object_type interface_type interface;; mret true
        else mret false
      else mret false
  end.

(** The body of the loop over the implementations of an object. *)
Definition check_implementation (object : Declaration) (o : ObjectLike)
    (implementation : ustring * Name) : M GraphQlSchema unit :=
  let '(interface_name, name) := implementation in
  table ← gets interfaces;
  match find interface_name table with
  | None => diagnose (name_syntax name) Interface_0_is_not_defined [interface_name]
  | Some p =>
      match fields o with
      | None => mret tt
      | Some object_fields =>
          interface ← read_decl p;
          i ← deref (as_object_like interface);
          interface_fields ← deref (fields i);
          for_each_break interface_fields
            (check_interface_field object object_fields interface_name interface)
      end
  end.

Definition check_object_implementation (p : ptr) : M GraphQlSchema unit :=
  object ← read_decl p;
  o ← deref (as_object_like object);
  i ← deref (object_implementations o);
  for_each (implementations i) (check_implementation object o).

Definition check_object_implementations : M GraphQlSchema unit :=
  objects ← gets objects_with_implementations;
  for_each objects check_object_implementation.

(** ** Unions *)

Definition check_union_member (member : ustring * Name) : M GraphQlSchema unit :=
  let name := member.2 in
  table ← gets symbols;
  match find (identifier name) table with
  | None => diagnose (name_syntax name) Type_0_is_not_defined [identifier name]
  | Some symbol =>
      when (bool_decide (symbol_kind symbol ≠ SL_Object))
        (diagnose (name_syntax name) Only_objects_are_allowed_as_members_in_a_union [])
  end.

Definition check_union (p : ptr) : M GraphQlSchema unit :=
  d ← read_decl p;
  union ← deref (as_union d);
  for_each (members union) check_union_member.

Definition check_union_members : M GraphQlSchema unit :=
  all ← gets unions;
  for_each all check_union.

(** ** The constructor *)

(** [if (schema == nullptr) schema = CreateSyntax<Schema>(...)] and the checks. *)
Definition check_document (schema_ : option ptr) : M GraphQlSchema unit :=
  schema_ ← match schema_ with
    | Some p => mret p
    | None => create_declaration S_Schema (BSchema new_Schema)
    end;
  set_root_types schema_;;
  check_forward_references;;
  check_directive_references;;
  check_object_implementations;;
  check_union_members.

Definition parse_schema_document : M GraphQlSchema unit :=
  schema_ ← parse_document;
  check_document schema_.

(** [GraphQlSchema(source, memory_pool, ticket)] *)
Definition construct_GraphQlSchema (source_ : ustring) : outcome GraphQlSchema unit :=
  parse_schema_document (new_GraphQlSchema source_).
