(* ===== verification/Executor.v ===== *)
(** * The executor ([program/graphql/graphql_executor.h], [.cpp])

    [Execute] parses a query and checks it, while it parses, against the types
    of the schema given to [add_schema].  The executor points into the memory
    the schema was parsed in, so its [heap] is the schema's: it reads the
    declarations, and it writes the list flag of the types of arguments and
    fields.  [current_object_types] is the stack of the types whose fields are
    being selected. *)
From S2P Require Import Prelude Monad Character Cstring Diagnostic StdMap Syntaxes.
From S2P Require Import TextWriter Scanner Parser Schema.

(** ** The nodes of a query *)

(** [struct VariableDefinition]. *)
Record VariableDefinition := mkVariableDefinition {
  variable_syntax : Syntax;
  variable_name : Name;
  variable_type : ptr;
  default_value : option Value
}.

(** [struct VariableDefinitions]. *)
Record VariableDefinitions := mkVariableDefinitions {
  variable_definitions_syntax : Syntax;
  variable_definitions : list VariableDefinition
}.

(** [struct Selection] with its derived classes [Field], [FragmentSpread] (whose
    [selection_set] stays null) and [InlineFragment], and [struct SelectionSet]. *)
Inductive Selection :=
  | Field (s : Syntax) (alias name : option Name) (arguments : option (list (ustring * Argument)))
      (directives_ : list (ustring * Directive)) (selection_set : option SelectionSet)
  | FragmentSpread (s : Syntax) (name : Name) (directives_ : list (ustring * Directive))
  | InlineFragment (s : Syntax) (directives_ : list (ustring * Directive))
      (selection_set : option SelectionSet)
with SelectionSet :=
  | mkSelectionSet (s : Syntax) (selections : list Selection).

(** [struct FragmentDefinition]; a member that is not assigned yet is null. *)
Record FragmentDefinition := mkFragmentDefinition {
  fragment_syntax : Syntax;
  fragment_name : Name;
  fragment_type : option Name;
  fragment_directives : std_map ustring Directive;
  fragment_selection_set : option SelectionSet
}.

(** [enum class OperationType]. *)
Inductive OperationType :=
  | Query
  | Mutation
  | Subscription.

(** [struct OperationDefinition]. *)
Record OperationDefinition := mkOperationDefinition {
  operation_syntax : Syntax;
  operation_type : OperationType;
  operation_name : option Name;
  operation_variables : option VariableDefinitions;
  operation_selection_set : option SelectionSet;
  operation_directives : std_map ustring Directive
}.

(** [struct ExecutableDefinition]; [source] points to the query. *)
Record ExecutableDefinition := mkExecutableDefinition {
  executable_syntax : Syntax;
  operation_definitions : list OperationDefinition;
  fragment_definitions : list FragmentDefinition;
  executable_diagnostics : list DiagnosticMessage
}.

(** ** State *)

(** [class GraphQlExecutor].  [query], [mutation] and [subscription] have no
    initialiser; [directive_definitions] hides the member of the base class.
    [schemas], [object_name], [current_field], [current_argument] and the
    vectors of definitions of the class are never read.  [fragments] points to
    fragments of which only the [name], set before, is read: it keeps them as
    they are when they are registered. *)
Record GraphQlExecutor := mkGraphQlExecutor {
  parser : GraphQlParser;
  heap : list Node;
  current_object_types : list root;
  query : root;
  mutation : root;
  subscription : root;
  symbols : std_map ustring Symbol;
  forward_fragment_references : list (Name * root);
  fragments : std_map ustring FragmentDefinition;
  directive_definitions : std_map ustring ptr;
  duplicate_fragments : list ustring;
  duplicate_fields : std_map ustring unit
}.

Definition set_parser (v : GraphQlParser) (x : GraphQlExecutor) : GraphQlExecutor :=
  mkGraphQlExecutor v (heap x) (current_object_types x) (query x) (mutation x) (subscription x)
    (symbols x) (forward_fragment_references x) (fragments x) (directive_definitions x)
    (duplicate_fragments x) (duplicate_fields x).
Definition set_heap (v : list Node) (x : GraphQlExecutor) : GraphQlExecutor :=
  mkGraphQlExecutor (parser x) v (current_object_types x) (query x) (mutation x) (subscription x)
    (symbols x) (forward_fragment_references x) (fragments x) (directive_definitions x)
    (duplicate_fragments x) (duplicate_fields x).
Definition set_current_object_types (v : list root) (x : GraphQlExecutor) : GraphQlExecutor :=
  mkGraphQlExecutor (parser x) (heap x) v (query x) (mutation x) (subscription x) (symbols x)
    (forward_fragment_references x) (fragments x) (directive_definitions x) (duplicate_fragments
    x) (duplicate_fields x).
Definition set_query (v : root) (x : GraphQlExecutor) : GraphQlExecutor :=
  mkGraphQlExecutor (parser x) (heap x) (current_object_types x) v (mutation x) (subscription x)
    (symbols x) (forward_fragment_references x) (fragments x) (directive_definitions x)
    (duplicate_fragments x) (duplicate_fields x).
Definition set_mutation (v : root) (x : GraphQlExecutor) : GraphQlExecutor :=
  mkGraphQlExecutor (parser x) (heap x) (current_object_types x) (query x) v (subscription x)
    (symbols x) (forward_fragment_references x) (fragments x) (directive_definitions x)
    (duplicate_fragments x) (duplicate_fields x).
Definition set_subscription (v : root) (x : GraphQlExecutor) : GraphQlExecutor :=
  mkGraphQlExecutor (parser x) (heap x) (current_object_types x) (query x) (mutation x) v (symbols
    x) (forward_fragment_references x) (fragments x) (directive_definitions x)
    (duplicate_fragments x) (duplicate_fields x).
Definition set_symbols (v : std_map ustring Symbol) (x : GraphQlExecutor) : GraphQlExecutor :=
  mkGraphQlExecutor (parser x) (heap x) (current_object_types x) (query x) (mutation x)
    (subscription x) v (forward_fragment_references x) (fragments x) (directive_definitions x)
    (duplicate_fragments x) (duplicate_fields x).
Definition set_forward_fragment_references (v : list (Name * root)) (x : GraphQlExecutor) :
    GraphQlExecutor :=
  mkGraphQlExecutor (parser x) (heap x) (current_object_types x) (query x) (mutation x)
    (subscription x) (symbols x) v (fragments x) (directive_definitions x) (duplicate_fragments x)
    (duplicate_fields x).
Definition set_fragments (v : std_map ustring FragmentDefinition) (x : GraphQlExecutor) :
    GraphQlExecutor :=
  mkGraphQlExecutor (parser x) (heap x) (current_object_types x) (query x) (mutation x)
    (subscription x) (symbols x) (forward_fragment_references x) v (directive_definitions x)
    (duplicate_fragments x) (duplicate_fields x).
Definition set_directive_definitions (v : std_map ustring ptr) (x : GraphQlExecutor) :
    GraphQlExecutor :=
  mkGraphQlExecutor (parser x) (heap x) (current_object_types x) (query x) (mutation x)
    (subscription x) (symbols x) (forward_fragment_references x) (fragments x) v
    (duplicate_fragments x) (duplicate_fields x).
Definition set_duplicate_fields (v : std_map ustring unit) (x : GraphQlExecutor) :
    GraphQlExecutor :=
  mkGraphQlExecutor (parser x) (heap x) (current_object_types x) (query x) (mutation x)
    (subscription x) (symbols x) (forward_fragment_references x) (fragments x)
    (directive_definitions x) (duplicate_fragments x) v.

Definition new_GraphQlExecutor : GraphQlExecutor :=
  mkGraphQlExecutor (new_GraphQlParser []) [] [] Uninitialised Uninitialised Uninitialised
    [] [] [] [] [] [].

#[export] Instance executor_parser : Has GraphQlParser GraphQlExecutor.
Proof. by refine {| sub := parser; put_sub := set_parser |}; intros; try destruct s. Defined.

(** Copying the members of the schema, whose memory is the executor's. *)
Definition add_schema (schema : GraphQlSchema) : M GraphQlExecutor unit :=
  modify (set_heap (Schema.heap schema));;
  modify (set_query (Schema.query schema));;
  modify (set_mutation (Schema.mutation schema));;
  modify (set_subscription (Schema.subscription schema));;
  modify (set_symbols (Schema.symbols schema));;
  modify (set_directive_definitions (Parser.directive_definitions (Schema.parser schema))).

(** ** The heap *)

Definition alloc (n : Node) : M GraphQlExecutor ptr :=
  p ← gets (λ s, length (heap s));
  modify (λ s, set_heap (heap s ++ [n]) s);;
  mret p.

(** [*type] *)
Definition read_type (type_ : option ptr) : M GraphQlExecutor Type_ :=
  p ← deref type_;
  h ← gets heap;
  match h !! p with
  | Some (NType t) => mret t
  | _ => undefined
  end.

(** [type->is_list_type = v;] *)
Definition assign_is_list_type (type_ : option ptr) (v : bool) : M GraphQlExecutor unit :=
  p ← deref type_;
  t ← read_type type_;
  modify (λ s, set_heap (<[p := NType (set_is_list_type v t)]> (heap s)) s).

Definition read_decl (p : ptr) : M GraphQlExecutor Declaration :=
  h ← gets heap;
  match h !! p with
  | Some (NDecl d) => mret d
  | _ => undefined
  end.

(** [declaration->name->identifier] *)
Definition decl_identifier (d : Declaration) : M GraphQlExecutor ustring :=
  name ← deref (decl_name d);
  mret (identifier name).

(** [static_cast<EnumTypeDefinition*>] and [static_cast<Object*>], and a read of
    the members of the class. *)
Definition as_enum (d : Declaration) : option EnumTypeDefinition :=
  match body d with BEnum e => Some e | _ => None end.
Definition as_object (d : Declaration) : option ObjectLike :=
  match body d with BObject o => Some o | _ => None end.

(** Using a pointer member that was never assigned is undefined. *)
Definition read_root (r : root) : M GraphQlExecutor (option ptr) :=
  match r with
  | Assigned p => mret p
  | Uninitialised => undefined
  end.

(** ** The stack of object types *)

Definition push_object_type (r : root) : M GraphQlExecutor unit :=
  modify (λ s, set_current_object_types (r :: current_object_types s) s).

(** [current_object_types.top ()], and [pop]: an empty stack is undefined. *)
Definition top_object_type : M GraphQlExecutor root :=
  stack ← gets current_object_types;
  deref (head stack).

Definition pop_object_type : M GraphQlExecutor unit :=
  stack ← gets current_object_types;
  match stack with
  | [] => undefined
  | _ :: rest => modify (set_current_object_types rest)
  end.

(** The declaration a pointer of the stack points to. *)
Definition object_type_at (r : root) : M GraphQlExecutor Declaration :=
  p ← read_root r;
  p ← deref p;
  read_decl p.

(** ** Diagnostics and recovery *)

(** [add_diagnostic (d, what, get_type_name (type))] *)
Definition report_type (d : D) (what : ustring) (type_ : option ptr) : M GraphQlExecutor unit :=
  t ← read_type type_;
  name ← get_type_name t;
  ⟨add_diagnostic d [what; name]⟩.

Definition skip_block_ : M GraphQlExecutor unit := ⟨⟨skip_block⟩⟩.

(** The primary tokens of a query. *)
Definition skip_to_next_primary_token : M GraphQlParser unit :=
  skip_to [GraphQlToken.QueryKeyword; GraphQlToken.MutationKeyword;
    GraphQlToken.SubscriptionKeyword; GraphQlToken.FragmentKeyword];;
  mret tt.

(** Fuel of the loops: each iteration takes a token. *)
Definition executor_fuel (s : GraphQlExecutor) : nat := parse_fuel (parser s).

Definition executor_loop {A B} (body : A → M GraphQlExecutor (A + B)) (a : A) :
    M GraphQlExecutor B :=
  s ← get;
  loop (executor_fuel s) body a.

(** ** Values *)

Definition parse_boolean_value (type_ : option ptr) (value : bool) :
    M GraphQlExecutor (option Value) :=
  t ← read_type type_;
  when (bool_decide (type t ≠ T_Boolean) || is_list_type t)
    (report_type Type_0_is_not_assignable_to_type_1 (u "Boolean") type_);;
  syntax ← ⟨CreateSyntax S_BooleanValue⟩;
  mret (Some (BooleanValue syntax value)).

(** The case of a [G_Name] token. *)
Definition parse_enum_value (type_ : option ptr) : M GraphQlExecutor (option Value) :=
  token_value ← ⟨get_token_value⟩;
  t ← read_type type_;
  when (bool_decide (type t ≠ T_Enum) || is_list_type t)
    (report_type The_value_0_is_not_assignable_to_type_1 token_value type_);;
  name ← deref (type_name t);
  s ← get;
  symbol ← deref (find (identifier name) (symbols s));
  d ← read_decl (declaration symbol);
  enum ← deref (as_enum d);
  when (negb (contains token_value (enum_values enum)))
    ⟨add_diagnostic Undefined_enum_value_0 [token_value]⟩;;
  syntax ← ⟨CreateSyntax S_EnumValue⟩;
  mret (Some (EnumValue syntax token_value)).

(** The cases of [parse_value] that do not recurse. *)
Definition parse_scalar_value (token : GraphQlToken.t) (type_ : option ptr) :
    M GraphQlExecutor (option Value) :=
  match token with
  | GraphQlToken.CloseBracket => mret None
  | GraphQlToken.NullKeyword =>
      t ← read_type type_;
      when (is_non_null t || is_non_null_list t)
        (report_type The_value_0_is_not_assignable_to_type_1 (u "null") type_);;
      syntax ← ⟨CreateSyntax S_NullValue⟩;
      mret (Some (NullValue syntax))
  | GraphQlToken.G_StringValue =>
      t ← read_type type_;
      when (negb (type_in (type t) T_StringType) || is_list_type t)
        (report_type Type_0_is_not_assignable_to_type_1 (u "String") type_);;
      syntax ← ⟨CreateSyntax S_StringValue⟩;
      v ← ⟨get_token_value⟩;
      mret (Some (StringValue syntax v))
  | GraphQlToken.IntegerLiteral =>
      t ← read_type type_;
      when (negb (type_in (type t) T_IntegerType) || is_list_type t)
        (report_type Type_0_is_not_assignable_to_type_1 (u "Int") type_);;
      syntax ← ⟨CreateSyntax S_IntValue⟩;
      v ← ⟨get_token_value⟩;
      mret (Some (IntValue syntax (atoi (c_string (raw v)))))
  | GraphQlToken.FloatLiteral =>
      t ← read_type type_;
      when (bool_decide (type t ≠ T_Float) || is_list_type t)
        (report_type Type_0_is_not_assignable_to_type_1 (u "Float") type_);;
      syntax ← ⟨CreateSyntax S_FloatValue⟩;
      ⟨get_token_value⟩;;
      mret (Some (FloatValue syntax []))
  | GraphQlToken.TrueKeyword => parse_boolean_value type_ true
  | GraphQlToken.FalseKeyword => parse_boolean_value type_ false
  | GraphQlToken.G_Name => parse_enum_value type_
  | _ =>
      value ← ⟨get_token_value⟩;
      ⟨add_diagnostic Expected_value_instead_got_0 [value]⟩;;
      ⟨skip_to [GraphQlToken.G_Name; GraphQlToken.CloseParen]⟩;;
      mret None
  end.

(** A block where no object is expected is skipped as a whole. *)
Definition skip_object_value (type_ : option ptr) : M GraphQlExecutor (option Value) :=
  start_ ← gets (λ s, start_position (scanner (parser s)));
  location ← ⟨get_token_location⟩;
  skip_block_;;
  end_of ← gets (λ s, position (scanner (parser s)));
  text ← ⟨⟨get_text_from_location start_ end_of⟩⟩;
  t ← read_type type_;
  name ← get_type_name t;
  let location := mkLocation (loc_line location) (loc_column location)
    (loc_length location + (end_of - start_ - 1)) (end_of_source location) in
  ⟨add_diagnostic_at location The_value_0_is_not_assignable_to_type_1 [text; name]⟩;;
  mret None.

(** Every field with a name in [duplicate_fields], which is not cleared between
    values, is reported. *)
Definition check_duplicate_fields (object_fields : list ObjectField) : M GraphQlExecutor unit :=
  duplicates ← gets duplicate_fields;
  for_each duplicates (λ duplicate,
    for_each object_fields (λ field,
      when (bool_decide (identifier (field_name field) = fst duplicate))
        (location ← ⟨get_location_from_syntax (name_syntax (field_name field))⟩;
         ⟨add_diagnostic_at location Duplicate_field_0 [fst duplicate]⟩))).

Definition check_required_fields (required parsed_fields : list ustring) (syntax : Syntax) :
    M GraphQlExecutor unit :=
  for_each required (λ required_field,
    when (bool_decide (required_field ∉ parsed_fields))
      (location ← ⟨get_location_from_syntax syntax⟩;
       ⟨add_diagnostic_at location Missing_required_field_0 [required_field]⟩)).

(** The checks of a finished object. *)
Definition check_object (type_ : option ptr) (required parsed_fields : list ustring)
    (object_fields : list ObjectField) (syntax : Syntax) : M GraphQlExecutor unit :=
  t ← read_type type_;
  when (bool_decide (type t ≠ T_Object))
    (location ← ⟨get_location_from_syntax syntax⟩;
     text ← ⟨⟨get_text_from_syntax syntax⟩⟩;
     name ← deref (type_name t);
     ⟨add_diagnostic_at location The_value_0_is_not_assignable_to_type_1 [text; identifier name]⟩);;
  check_duplicate_fields object_fields;;
  check_required_fields required parsed_fields syntax.

Section objects.
(** [parse_value] on the type of a field. *)
Context (parse_field_value : option ptr → M GraphQlExecutor (option Value)).

(** The fields found so far and the names seen. *)
Let found : Type := list ObjectField * list ustring.

(** A field of the input object that is defined; no value after a missing colon. *)
Definition parse_object_field (name : ustring) (field : InputFieldDefinition) (f : found) :
    M GraphQlExecutor (found + option found) :=
  let '(object_fields, parsed_fields) := f in
  when (bool_decide (name ∈ parsed_fields))
    (modify (λ s, set_duplicate_fields (emplace name tt (duplicate_fields s)) s));;
  field_syntax ← ⟨CreateSyntax S_ObjectField⟩;
  field_name ← ⟨create_name name⟩;
  colon ← ⟨expect GraphQlToken.Colon⟩;
  if negb colon then mret (inr None) else
  value ← parse_field_value (Some (ifd_type field));
  mret (inl (object_fields ++ [mkObjectField field_syntax field_name value],
    parsed_fields ++ [name])).

Definition parse_object_fields (type_identifier : ustring)
    (input_fields : option (std_map ustring InputFieldDefinition)) :
    M GraphQlExecutor (option found) :=
  executor_loop (λ f : found,
    token ← ⟨TakeNextToken⟩;
    match token with
    | GraphQlToken.CloseBrace | GraphQlToken.EndOfDocument => mret (inr (Some f))
    | GraphQlToken.G_Name =>
        name ← ⟨get_token_value⟩;
        input_fields ← deref input_fields;
        match find name input_fields with
        | None =>
            ⟨add_diagnostic Field_0_does_not_exist_on_type_1 [name; type_identifier]⟩;;
            ⟨skip_to [GraphQlToken.G_Name; GraphQlToken.CloseBrace]⟩;;
            mret (inl f)
        | Some field => parse_object_field name field f
        end
    | _ =>
        ⟨add_diagnostic Expected_object_field_name []⟩;;
        t ← ⟨skip_to [GraphQlToken.CloseBrace; GraphQlToken.G_Name]⟩;
        if decide (t = GraphQlToken.G_Name) then mret (inl f) else mret (inr (Some f))
    end) ([], []).

(** The case of an [OpenBrace] token, where an object is expected. *)
Definition parse_object_value (type_ : option ptr) : M GraphQlExecutor (option Value) :=
  t ← read_type type_;
  syntax ← ⟨CreateSyntax S_ObjectValue⟩;
  name ← deref (type_name t);
  s ← get;
  symbol ← deref (find (identifier name) (symbols s));
  if decide (symbol_kind symbol ≠ SL_InputObject) then
    ⟨add_diagnostic The_type_0_is_not_an_object [identifier name]⟩;;
    mret None
  else
    d ← read_decl (declaration symbol);
    input_object ← deref (as_input_object d);
    found ← parse_object_fields (identifier name) (io_fields input_object);
    match found with
    | None => mret None
    | Some (object_fields, parsed_fields) =>
        syntax ← ⟨FinishSyntax syntax⟩;
        check_object type_ (required_fields input_object) parsed_fields object_fields syntax;;
        mret (Some (ObjectValue syntax object_fields))
    end.
End objects.

(** The list flag of the shared type is cleared while the elements are parsed
    and set afterwards, also where the type was no list. *)
Fixpoint parse_value (fuel : nat) (type_ : option ptr) : M GraphQlExecutor (option Value) :=
  match fuel with
  | O => out_of_fuel
  | S fuel' =>
      token ← ⟨set_current_value_token_from_scanner⟩;
      match token with
      | GraphQlToken.OpenBracket =>
          t ← read_type type_;
          when (negb (is_list_type t))
            (report_type The_value_0_is_not_assignable_to_type_1 (u "null") type_);;
          syntax ← ⟨CreateSyntax S_ObjectValue⟩;
          assign_is_list_type type_ false;;
          values ← executor_loop (λ values,
            value ← parse_value fuel' type_;
            match value with
            | Some v => mret (inl (values ++ [v]))
            | None => mret (inr values)
            end) [];
          p ← gets parser;
          when (bool_decide (current_value_token p ≠ GraphQlToken.CloseBracket))
            (value ← ⟨get_token_value⟩; ⟨add_diagnostic Expected_0_but_got_1 [u "]"; value]⟩);;
          assign_is_list_type type_ true;;
          syntax ← ⟨FinishSyntax syntax⟩;
          mret (Some (ListValue syntax values))
      | GraphQlToken.OpenBrace =>
          t ← read_type type_;
          if bool_decide (type t ≠ T_Object) || is_list_type t then skip_object_value type_
          else parse_object_value (parse_value fuel') type_
      | _ => parse_scalar_value token type_
      end
  end.

Definition parse_value_ (type_ : option ptr) : M GraphQlExecutor (option Value) :=
  s ← get;
  parse_value (executor_fuel s) type_.

(** ** Arguments and directives *)

(** The last loop of [parse_arguments]. *)
Definition check_missing_arguments (input_value_definitions : std_map ustring InputValueDefinition)
    (arguments : std_map ustring Argument) (target : Syntax) : M GraphQlExecutor unit :=
  for_each input_value_definitions (λ argument_definition,
    t ← read_type (ivd_type (snd argument_definition));
    let name := identifier (ivd_name (snd argument_definition)) in
    when (((is_non_null t && negb (is_list_type t)) || is_non_null_list t)
          && negb (contains name arguments))
      (location ← ⟨get_location_from_syntax target⟩;
       ⟨add_diagnostic_at location Missing_required_argument_0 [name]⟩)).

(** A directive that is defined, and what [parse_directives] does next. *)
Definition parse_defined_directive
    (parse_directive_arguments : std_map ustring InputValueDefinition → Syntax →
      M GraphQlExecutor (option (std_map ustring Argument * Syntax)))
    (location : DirectiveLocation.t) (syntax : Syntax) (name : ustring) (definition : ptr)
    (directives_ : std_map ustring Directive) :
    M GraphQlExecutor (std_map ustring Directive + std_map ustring Directive) :=
  d ← read_decl definition;
  definition ← deref (as_directive_definition d);
  when (bool_decide (location ∉ locations definition))
    (location_ ← ⟨get_location_from_syntax syntax⟩;
     text ← match directiveLocationToString location with
       | Some text => mret text
       | None => throw std_out_of_range
       end;
     ⟨add_diagnostic_at location_ The_directive_0_does_not_support_the_location_1
       [u "@" ++ name; text]⟩);;
  directive_name ← ⟨create_name name⟩;
  paren ← ⟨scan_optional GraphQlToken.OpenParen⟩;
  parsed ← (if (paren : bool)
    then parse_directive_arguments (dd_arguments definition) (name_syntax directive_name)
    else mret (Some ([], name_syntax directive_name)));
  match parsed with
  | None => mret (inr directives_)
  | Some (arguments, name_syntax_) =>
      let directive := mkDirective syntax (mkName name_syntax_ name) arguments None location in
      ⟨modify (λ p, set_directives (directives p ++ [directive]) p)⟩;;
      if contains name directives_ then
        ⟨add_diagnostic Duplicate_argument_0 [name]⟩;;
        mret (inl directives_)
      else mret (inl (emplace name directive directives_))
  end.

(** [parse_directives] and [parse_arguments] call each other.  [parse_arguments]
    moves the end of its target: it returns the arguments and the target, or
    nothing after a missing colon. *)
Fixpoint parse_directives (fuel : nat) (location : DirectiveLocation.t) :
    M GraphQlExecutor (std_map ustring Directive) :=
  match fuel with
  | O => out_of_fuel
  | S fuel' =>
      executor_loop (λ directives_,
        at_ ← ⟨scan_optional GraphQlToken.At⟩;
        if negb at_ then mret (inr directives_) else
        token ← ⟨take_next_token true false⟩;
        if decide (token ≠ GraphQlToken.G_Name) then
          value ← ⟨get_token_value⟩;
          ⟨add_diagnostic Expected_name_but_instead_got_0 [value]⟩;;
          ⟨skip_to_next_primary_token⟩;;
          mret (inr directives_)
        else
        syntax ← ⟨CreateSyntax S_Directive⟩;
        let syntax := set_start (start syntax - 1) syntax in
        name ← ⟨get_token_value⟩;
        s ← get;
        match find name (directive_definitions s) with
        | None =>
            location_ ← ⟨get_location_from_syntax syntax⟩;
            ⟨add_diagnostic_at location_ Undefined_directive_0 [name]⟩;;
            ⟨skip_to [GraphQlToken.CloseParen]⟩;;
            mret (inr directives_)
        | Some definition =>
            parse_defined_directive (parse_arguments fuel') location syntax name definition directives_
        end) []
  end
with parse_arguments (fuel : nat) (input_value_definitions : std_map ustring InputValueDefinition)
    (target : Syntax) : M GraphQlExecutor (option (std_map ustring Argument * Syntax)) :=
  match fuel with
  | O => out_of_fuel
  | S fuel' =>
      parsed ← executor_loop (λ arguments,
        token ← ⟨take_next_token true true⟩;
        if decide (token ≠ GraphQlToken.G_Name) then mret (inr (Some arguments)) else
        token_value ← ⟨get_token_value⟩;
        name ← ⟨create_name token_value⟩;
        syntax ← ⟨CreateSyntax S_Argument⟩;
        let defined := find token_value input_value_definitions in
        when (bool_decide (defined = None)) ⟨add_diagnostic Unknown_argument_0 [token_value]⟩;;
        colon ← ⟨expect GraphQlToken.Colon⟩;
        if negb colon then
          ⟨skip_to [GraphQlToken.CloseBrace]⟩;;
          mret (inr None)
        else
        value ← match defined with
          | Some definition => parse_value_ (ivd_type definition)
          | None => ⟨skip_to [GraphQlToken.G_Name; GraphQlToken.CloseParen]⟩;; mret None
          end;
        directives_ ← parse_directives fuel' DirectiveLocation.ARGUMENT_DEFINITION;
        mret (inl (emplace token_value (mkArgument syntax name value directives_) arguments))) [];
      match parsed with
      | None => mret None
      | Some arguments =>
          target ← ⟨FinishSyntax target⟩;
          check_missing_arguments input_value_definitions arguments target;;
          mret (Some (arguments, target))
      end
  end.

Definition parse_directives_ (location : DirectiveLocation.t) :
    M GraphQlExecutor (std_map ustring Directive) :=
  s ← get;
  parse_directives (executor_fuel s) location.

Definition parse_arguments_ (input_value_definitions : std_map ustring InputValueDefinition)
    (target : Syntax) : M GraphQlExecutor (option (std_map ustring Argument * Syntax)) :=
  s ← get;
  parse_arguments (executor_fuel s) input_value_definitions target.

(** ** Type conditions *)

(** The diagnostics with the names of the two types. *)
Definition report_assignment (d : D) (name : Name) (object current_object_type : Declaration) :
    M GraphQlExecutor unit :=
  location ← ⟨get_location_from_syntax (name_syntax name)⟩;
  object_name ← decl_identifier object;
  type_name ← decl_identifier current_object_type;
  ⟨add_diagnostic_at location d [object_name; type_name]⟩.

(** [check_fragment_assignment (name, object, current_object_type)]. *)
Definition check_fragment_assignment (name : Name) (object current_object_type : Declaration) :
    M GraphQlExecutor unit :=
  let report d := report_assignment d name object current_object_type in
  match kind (decl_syntax current_object_type) with
  | S_Interface =>
      o ← deref (as_object object);
      implements ← match object_implementations o with
        | None => mret false
        | Some i =>
            name ← decl_identifier current_object_type;
            mret (contains name (implementations i))
        end;
      when (negb implements) (report The_object_0_does_not_implement_the_interface_1)
  | S_Object =>
      a ← decl_identifier current_object_type;
      b ← decl_identifier object;
      when (bool_decide (a ≠ b)) (report The_object_0_does_not_match_the_object_1)
  | S_Union =>
      v ← deref (as_union current_object_type);
      name ← decl_identifier object;
      when (negb (contains name (members v))) (report The_type_0_is_not_member_of_the_union_1)
  | _ =>
      location ← ⟨get_location_from_syntax (name_syntax name)⟩;
      ⟨add_diagnostic_at location
        Type_conditions_are_only_applicable_inside_object_interfaces_and_unions []⟩
  end.

(** ** Selection sets *)

(** A name, or null. *)
Definition parse_expected_name : M GraphQlExecutor (option Name) :=
  ok ← ⟨expect GraphQlToken.G_Name⟩;
  if negb ok then mret None else
  value ← ⟨get_token_value⟩;
  name ← ⟨create_name value⟩;
  mret (Some name).

(** What a case of the switch of [parse_selection_set_after_open_brace] does
    next: goes on with the selections, or leaves the loop with the selections
    ([goto outer]) or without ([return nullptr]). *)
Abbreviation selected := (list Selection + option (list Selection))%type.

Section selections.
(** [parse_selection_set_after_open_brace] *)
Context (nested : M GraphQlExecutor (option SelectionSet)).

Definition parse_selection_set_with : M GraphQlExecutor (option SelectionSet) :=
  ok ← ⟨expect GraphQlToken.OpenBrace⟩;
  if negb ok then mret None else nested.

(** The directives and the selections of an inline fragment on an object. *)
Definition parse_inline_selections (object : ptr) :
    M GraphQlExecutor (std_map ustring Directive * option SelectionSet) :=
  push_object_type (Assigned (Some object));;
  directives_ ← parse_directives_ DirectiveLocation.INLINE_FRAGMENT;
  selection_set ← parse_selection_set_with;
  mret (directives_, selection_set).

(** [... on Name] *)
Definition parse_inline_fragment (start_position_ : nat) (selections : list Selection) :
    M GraphQlExecutor selected :=
  ok ← ⟨expect GraphQlToken.G_Name⟩;
  if negb ok then
    ⟨add_diagnostic Expected_name_of_object []⟩;;
    skip_block_;;
    mret (inr None)
  else
  token_value ← ⟨get_token_value⟩;
  name ← ⟨create_name token_value⟩;
  s ← get;
  match find token_value (symbols s) with
  | None =>
      ⟨add_diagnostic Type_0_is_not_defined [token_value]⟩;;
      skip_block_;;
      mret (inl selections)
  | Some symbol =>
      syntax ← ⟨CreateSyntax S_InlineFragment⟩;
      let syntax := set_start start_position_ syntax in
      object ← read_decl (declaration symbol);
      if decide (kind (decl_syntax object) ≠ S_Object) then
        ⟨add_diagnostic The_type_0_is_not_an_object [token_value]⟩;;
        skip_block_;;
        mret (inl selections)
      else
      top ← top_object_type;
      current_object_type ← object_type_at top;
      check_fragment_assignment name object current_object_type;;
      selected ← parse_inline_selections (declaration symbol);
      syntax ← ⟨FinishSyntax syntax⟩;
      mret (inl (selections ++ [InlineFragment syntax (fst selected) (snd selected)]))
  end.

(** [... Name] *)
Definition parse_fragment_spread (selections : list Selection) : M GraphQlExecutor selected :=
  syntax ← ⟨CreateSyntax S_FragmentSpread⟩;
  token_value ← ⟨get_token_value⟩;
  name ← ⟨create_name token_value⟩;
  top ← top_object_type;
  modify (λ s, set_forward_fragment_references (forward_fragment_references s ++ [(name, top)]) s);;
  directives_ ← parse_directives_ DirectiveLocation.FRAGMENT_SPREAD;
  mret (inl (selections ++ [FragmentSpread syntax name directives_])).

(** The case of an [Ellipses] token. *)
Definition parse_ellipses (start_position_ : nat) (selections : list Selection) :
    M GraphQlExecutor selected :=
  target_token ← ⟨TakeNextToken⟩;
  match target_token with
  | GraphQlToken.OnKeyword => parse_inline_fragment start_position_ selections
  | GraphQlToken.G_Name => parse_fragment_spread selections
  | _ =>
      ⟨add_diagnostic Expected_fragment_spread_or_inline_fragment []⟩;;
      skip_block_;;
      mret (inl selections)
  end.

(** The selection set of a field of the type: [false] where the field has none to
    select from, which ends the selection set the field is in. *)
Definition parse_field_selection_set (type_ : option ptr) :
    M GraphQlExecutor (bool * option SelectionSet) :=
  brace ← ⟨scan_optional GraphQlToken.OpenBrace⟩;
  if negb brace then mret (true, None) else
  t ← read_type type_;
  if type_in (type t) T_ObjectType then
    name ← deref (type_name t);
    s ← get;
    symbol ← deref (find (identifier name) (symbols s));
    push_object_type (Assigned (Some (declaration symbol)));;
    selection_set ← nested;
    mret (true, selection_set)
  else
    name ← get_type_name t;
    ⟨add_diagnostic Cannot_select_fields_on_a_scalar_field_0 [name]⟩;;
    ⟨skip_to_next_primary_token⟩;;
    mret (false, None).

(** A field that is defined, by the name or the alias [token_value]. *)
Definition parse_defined_field (selections : list Selection) (token_value : ustring)
    (field_definition : FieldDefinition) : M GraphQlExecutor selected :=
  syntax ← ⟨CreateSyntax S_Field⟩;
  name ← ⟨create_name token_value⟩;
  colon ← ⟨scan_optional GraphQlToken.Colon⟩;
  names ← (if (colon : bool)
    then aliased ← parse_expected_name; mret (Some name, aliased)
    else mret (None, Some name));
  paren ← ⟨scan_optional GraphQlToken.OpenParen⟩;
  parsed ← (if (paren : bool)
    then parse_arguments_ (fd_arguments field_definition) syntax
    else mret None);
  let syntax := match parsed with Some (_, target) => target | None => syntax end in
  directives_ ← parse_directives_ DirectiveLocation.FIELD;
  nested_set ← parse_field_selection_set (Some (fd_type field_definition));
  if negb (fst nested_set) then mret (inr None)
  else mret (inl (selections
    ++ [Field syntax (fst names) (snd names) (fst <$> parsed) directives_ (snd nested_set)])).

(** The case of a [G_Name] token: it is looked up in the fields of the type also
    where it is an alias. *)
Definition parse_field (selections : list Selection) : M GraphQlExecutor selected :=
  token_value ← ⟨get_token_value⟩;
  top ← top_object_type;
  current_object_type ← object_type_at top;
  o ← deref (as_object_like current_object_type);
  fields_ ← deref (fields o);
  match find token_value fields_ with
  | None =>
      type_identifier ← decl_identifier current_object_type;
      ⟨add_diagnostic Field_0_does_not_exist_on_type_1 [token_value; type_identifier]⟩;;
      ⟨skip_to [GraphQlToken.G_Name; GraphQlToken.CloseBrace; GraphQlToken.Ellipses]⟩;;
      mret (inl selections)
  | Some field_definition => parse_defined_field selections token_value field_definition
  end.

Definition parse_selections : M GraphQlExecutor (option (list Selection)) :=
  executor_loop (λ selections,
    start_position_ ← gets (λ s, position (scanner (parser s)));
    token ← ⟨take_next_token true true⟩;
    match token with
    | GraphQlToken.Ellipses => parse_ellipses start_position_ selections
    | GraphQlToken.G_Name => parse_field selections
    | GraphQlToken.CloseBrace =>
        pop_object_type;;
        mret (inr (Some selections))
    | GraphQlToken.EndOfDocument =>
        (match selections with
         | [] =>
             ⟨add_diagnostic Expected_at_least_a_field_inline_fragment_or_fragment_spread []⟩
         | _ => ⟨add_diagnostic Expected_0_but_instead_reached_the_end_of_document [u "}"]⟩
         end);;
        mret (inr None)
    | _ =>
        ⟨add_diagnostic Expected_field_inline_fragment_or_fragment_spread []⟩;;
        mret (inr (Some selections))
    end) [].
End selections.

Fixpoint parse_selection_set_after_open_brace (fuel : nat) :
    M GraphQlExecutor (option SelectionSet) :=
  match fuel with
  | O => out_of_fuel
  | S fuel' =>
      syntax ← ⟨CreateSyntax S_SelectionSet⟩;
      selections ← parse_selections (parse_selection_set_after_open_brace fuel');
      match selections with
      | None => mret None
      | Some selections =>
          syntax ← ⟨FinishSyntax syntax⟩;
          mret (Some (mkSelectionSet syntax selections))
      end
  end.

Definition parse_selection_set_after_open_brace_ : M GraphQlExecutor (option SelectionSet) :=
  s ← get;
  parse_selection_set_after_open_brace (executor_fuel s).

Definition parse_selection_set : M GraphQlExecutor (option SelectionSet) :=
  parse_selection_set_with parse_selection_set_after_open_brace_.

(** ** Operations and fragments *)

Definition parse_type : M GraphQlExecutor ptr :=
  is_list ← ⟨scan_optional GraphQlToken.OpenBracket⟩;
  token ← ⟨TakeNextToken⟩;
  let type_ := match token with
    | GraphQlToken.BooleanKeyword => T_Boolean
    | GraphQlToken.IntKeyword => T_Int
    | GraphQlToken.FloatKeyword => T_Float
    | GraphQlToken.StringKeyword => T_String
    | GraphQlToken.IDKeyword => T_ID
    | _ => T_Object
    end in
  non_null ← ⟨scan_optional GraphQlToken.Exclamation⟩;
  non_null_list ← (if (is_list : bool)
    then ⟨expect GraphQlToken.CloseBracket⟩;; ⟨scan_optional GraphQlToken.Exclamation⟩
    else mret false);
  syntax ← ⟨CreateSyntax S_Type⟩;
  alloc (NType (mkType syntax type_ non_null is_list non_null_list false None None)).

(** A definition that no comma follows is not kept. *)
Definition parse_variable_definitions : M GraphQlExecutor VariableDefinitions :=
  syntax ← ⟨CreateSyntax S_VariableDefinitions⟩;
  definitions ← executor_loop (λ definitions,
    variable_syntax_ ← ⟨CreateSyntax S_VariableDefinition⟩;
    token ← ⟨TakeNextToken⟩;
    if decide (token ≠ GraphQlToken.G_Name) then mret (inr definitions) else
    value ← ⟨get_token_value⟩;
    name ← ⟨create_name value⟩;
    ⟨expect GraphQlToken.Colon⟩;;
    type_ ← parse_type;
    equal ← ⟨scan_optional GraphQlToken.Equal⟩;
    default ← (if (equal : bool) then parse_value_ (Some type_) else mret None);
    comma ← ⟨scan_optional GraphQlToken.Comma⟩;
    if negb comma then mret (inr definitions)
    else mret (inl (definitions ++ [mkVariableDefinition variable_syntax_ name type_ default]))) [];
  syntax ← ⟨FinishSyntax syntax⟩;
  mret (mkVariableDefinitions syntax definitions).

(** What [parse_primary_token] returns: a [Syntax*] of two classes, or null. *)
Inductive ExecutablePart :=
  | OperationPart (d : OperationDefinition)
  | FragmentPart (d : FragmentDefinition).

(** [parse_operation_definition_body] and [..._after_open_brace]: the definition
    with its selection set, if there is one. *)
Definition parse_operation_definition_body (definition : OperationDefinition)
    (parse_set : M GraphQlExecutor (option SelectionSet)) :
    M GraphQlExecutor (option ExecutablePart) :=
  selection_set ← parse_set;
  match selection_set with
  | None => mret None
  | Some set_ => mret (Some (OperationPart (mkOperationDefinition
      (operation_syntax definition) (operation_type definition) (operation_name definition)
      (operation_variables definition) (Some set_) (operation_directives definition))))
  end.

Definition operation_location (o : OperationType) : DirectiveLocation.t :=
  match o with
  | Query => DirectiveLocation.QUERY
  | Mutation => DirectiveLocation.MUTATION
  | Subscription => DirectiveLocation.SUBSCRIPTION
  end.

(** The name and the variables of an operation. *)
Definition parse_operation_name : M GraphQlExecutor (option Name * option VariableDefinitions) :=
  named ← ⟨scan_optional_name GraphQlToken.G_Name true⟩;
  if negb named then mret (None, None) else
  value ← ⟨get_token_value⟩;
  name ← ⟨create_name value⟩;
  paren ← ⟨scan_optional GraphQlToken.OpenParen⟩;
  if negb paren then mret (Some name, None) else
  variables ← parse_variable_definitions;
  ⟨expect GraphQlToken.CloseParen⟩;;
  mret (Some name, Some variables).

Definition parse_operation_definition (operation : OperationType) :
    M GraphQlExecutor (option ExecutablePart) :=
  syntax ← ⟨CreateSyntax S_OperationDefinition⟩;
  named ← parse_operation_name;
  directives_ ← parse_directives_ (operation_location operation);
  parse_operation_definition_body
    (mkOperationDefinition syntax operation (fst named) (snd named) None directives_)
    parse_selection_set.

(** The registration of a fragment; [duplicate_fragments] is never filled. *)
Definition register_fragment (fragment : FragmentDefinition) : M GraphQlExecutor unit :=
  let name := identifier (fragment_name fragment) in
  s ← get;
  match find name (fragments s) with
  | Some first =>
      ⟨add_diagnostic Duplicate_fragment_0 [name]⟩;;
      s ← get;
      when (bool_decide (name ∉ duplicate_fragments s))
        (location ← ⟨get_location_from_syntax (name_syntax (fragment_name first))⟩;
         ⟨add_diagnostic_at location Duplicate_fragment_0 [identifier (fragment_name first)]⟩)
  | None => modify (λ s, set_fragments (emplace name fragment (fragments s)) s)
  end.

(** The directives and the selections of a fragment on the type [name]. *)
Definition parse_fragment_selections (fragment : FragmentDefinition) (name : ustring)
    (object : ptr) : M GraphQlExecutor (option ExecutablePart) :=
  push_object_type (Assigned (Some object));;
  type_ ← ⟨create_name name⟩;
  directives_ ← parse_directives_ DirectiveLocation.FRAGMENT_DEFINITION;
  selection_set ← parse_selection_set;
  match selection_set with
  | None =>
      skip_block_;;
      mret None
  | Some set_ => mret (Some (FragmentPart
      (mkFragmentDefinition (fragment_syntax fragment) (fragment_name fragment) (Some type_)
        directives_ (Some set_))))
  end.

(** What follows [on]. *)
Definition parse_fragment_type (fragment : FragmentDefinition) :
    M GraphQlExecutor (option ExecutablePart) :=
  ok ← ⟨expect GraphQlToken.G_Name⟩;
  if negb ok then mret None else
  name ← ⟨get_token_value⟩;
  s ← get;
  match find name (symbols s) with
  | None =>
      ⟨add_diagnostic Type_0_is_not_defined [name]⟩;;
      mret None
  | Some symbol =>
      object ← read_decl (declaration symbol);
      when (bool_decide (kind (decl_syntax object) ≠ S_Object))
        ⟨add_diagnostic The_type_0_is_not_an_object [name]⟩;;
      parse_fragment_selections fragment name (declaration symbol)
  end.

Definition parse_fragment_definition_after_fragment_keyword :
    M GraphQlExecutor (option ExecutablePart) :=
  syntax ← ⟨CreateSyntax S_FragmentDefinition⟩;
  ok ← ⟨expect GraphQlToken.G_Name⟩;
  if negb ok then mret None else
  token_value ← ⟨get_token_value⟩;
  fragment_name_ ← ⟨create_name token_value⟩;
  let fragment := mkFragmentDefinition syntax fragment_name_ None [] None in
  register_fragment fragment;;
  ok ← ⟨expect GraphQlToken.OnKeyword⟩;
  if negb ok then mret None else parse_fragment_type fragment.

(** An operation on a root type that may be missing. *)
Definition parse_optional_operation (r : root) (not_supported : D) (operation : OperationType) :
    M GraphQlExecutor (option ExecutablePart) :=
  p ← read_root r;
  match p with
  | None =>
      ⟨add_diagnostic not_supported []⟩;;
      ⟨skip_to_next_primary_token⟩;;
      mret None
  | Some _ =>
      push_object_type r;;
      parse_operation_definition operation
  end.

Definition parse_primary_token (token : GraphQlToken.t) :
    M GraphQlExecutor (option ExecutablePart) :=
  s ← get;
  match token with
  | GraphQlToken.QueryKeyword =>
      push_object_type (query s);;
      parse_operation_definition Query
  | GraphQlToken.MutationKeyword =>
      parse_optional_operation (mutation s) Mutations_are_not_supported Mutation
  | GraphQlToken.SubscriptionKeyword =>
      parse_optional_operation (subscription s) Subscriptions_are_not_supported Subscription
  | GraphQlToken.OpenBrace =>
      push_object_type (query s);;
      syntax ← ⟨CreateSyntax S_OperationDefinition⟩;
      parse_operation_definition_body (mkOperationDefinition syntax Query None None None [])
        parse_selection_set_after_open_brace_
  | GraphQlToken.FragmentKeyword => parse_fragment_definition_after_fragment_keyword
  | _ =>
      ⟨add_diagnostic Expected_operation_definition_or_fragment_definition []⟩;;
      mret None
  end.

(** The fragment a name refers to: the first definition with the name. *)
Definition named_fragment (name : Name) (definitions : list FragmentDefinition) :
    option FragmentDefinition :=
  List.find (λ d, bool_decide (identifier name = identifier (fragment_name d))) definitions.

Definition check_forward_fragment_references (definitions : list FragmentDefinition) :
    M GraphQlExecutor unit :=
  references ← gets forward_fragment_references;
  for_each references (λ '(name, current_object_type),
    match named_fragment name definitions with
    | None =>
        location ← ⟨get_location_from_syntax (name_syntax name)⟩;
        ⟨add_diagnostic_at location Fragment_0_is_not_defined [identifier name]⟩
    | Some definition =>
        s ← get;
        type_ ← deref (fragment_type definition);
        symbol ← deref (find (identifier type_) (symbols s));
        object ← read_decl (declaration symbol);
        current_object_type ← object_type_at current_object_type;
        check_fragment_assignment name object current_object_type
    end).

(** The definitions found so far, after the token in front of the next one. *)
Abbreviation executing :=
  (GraphQlToken.t * list OperationDefinition * list FragmentDefinition)%type.

(** The loop of [Execute]. *)
Definition execute_body (e : executing) :
    M GraphQlExecutor (executing + list OperationDefinition * list FragmentDefinition) :=
  let '(token, operations, fragments_) := e in
  if decide (token = GraphQlToken.EndOfDocument) then mret (inr (operations, fragments_)) else
  definition ← parse_primary_token token;
  token ← ⟨TakeNextToken⟩;
  mret (inl (match definition with
    | None => (token, operations, fragments_)
    | Some (FragmentPart d) => (token, operations, fragments_ ++ [d])
    | Some (OperationPart d) => (token, operations ++ [d], fragments_)
    end)).

(** [Execute]: the diagnostics of earlier queries are still there.  Every
    iteration takes a token of the new source. *)
Definition Execute (query_ : ustring) : M GraphQlExecutor ExecutableDefinition :=
  ⟨modify (set_scanner (new_GraphQlScanner query_))⟩;;
  s ← get;
  token ← ⟨TakeNextToken⟩;
  syntax ← ⟨CreateSyntax S_QueryDocument⟩;
  parsed ← loop (executor_fuel s) execute_body (token, [], []);
  let '(operations, fragments_) := parsed in
  check_forward_fragment_references fragments_;;
  p ← gets parser;
  mret (mkExecutableDefinition syntax operations fragments_ (diagnostics p)).

(** A query on an executor of its own with the schema. *)
Definition execute_on_schema (schema : GraphQlSchema) (query_ : ustring) :
    outcome GraphQlExecutor ExecutableDefinition :=
  (add_schema schema;; Execute query_) new_GraphQlExecutor.
