(* ===== verification/Baseline.v ===== *)
(** * The baseline tests ([test/baseline_test_runner.h], [.cpp])

    The test files of a folder are scanned for test cases; a GraphQL test parses the
    schema of its test case, executes the query, writes both with their
    diagnostics to a file, and compares the text with a reference file.  Accepting
    the tests copies the files to the references.  The HTTP tests, which run curl
    against a started server, are not modelled.  Texts are [std::string]s and
    [Glib::ustring]s of the same text, kept as code points, except what is in
    files. *)
From S2P Require Import Prelude Monad Character Cstring StdMap Diagnostic Utils Files TestDefinition.
From S2P Require Import MemoryPool TextWriter TextAnnotater TestCaseScanner Scanner Parser Schema SchemaChecks Executor.

#[local] Arguments u : simpl never.

(** [struct RunOption]. *)
Record RunOption := mkRunOption {
  run_option_test : option (list Z);
  run_option_folder : option (list Z)
}.

Section runner.
Context {F : Type} `{FileSystem F} `{StdSort}.

(** [struct TestCase]. *)
Record TestCase := mkTestCase {
  name : list Z;
  aggregate_name : list Z;
  source : ustring;
  folder : list Z;
  current_folder : path;
  reference_folder : path
}.

(** Boost: [regex_replace], [regex_search], [algorithm::split_regex] and
    [replace_all_copy]. *)
Variable regex_replace : ustring → ustring → ustring → ustring.
Variable regex_search : list Z → list Z → bool.
Variable split_regex : ustring → ustring → list ustring.
Variable replace_all_copy : list Z → list Z → list Z → list Z.
(** The members the constructor of [TestCaseScanner] leaves as they are. *)
Variable any : uninitialised.
(** Where the memory of a pool is. *)
Variable start : Z.

(** [replace_string] of [lib/utils.cpp]. *)
Definition replace_string (target pattern replacement : list Z) : list Z :=
  replace_all_copy target pattern replacement.

(** ** Visiting the test files *)

Section visit.
Context {S : Type} `{Has F S}.
Variable callback : TestCase → M S unit.

(** The name of a file up to its first dot: [back] and [front] of an empty vector
    are undefined. *)
Definition file_name (paths : list (list Z)) : M S (list Z) :=
  filename ← deref (list.last paths);
  deref (head (split_string filename Character.Dot)).

Definition call_test (test_folder test_path aggregate_path : path) (source_code : ustring) :
    M S unit :=
  root ← zoom root_dir;
  let relative p := replace_string (path_string p) (path_string root ++ [Character.Slash]) [] in
  let test_paths := split_string (relative test_path) Character.Slash in
  name ← file_name test_paths;
  aggregate_name ← file_name (split_string (relative aggregate_path) Character.Slash);
  let s := join_vector (removelast test_paths) [Character.Slash] in
  let f := path_string (test_folder / literal_path "tests/cases")%path in
  let sub_folder := tail (replace_string s f []) in
  let current_folder :=
    (root / test_folder / literal_path "tests/currents" / path_of sub_folder)%path in
  let reference_folder :=
    (root / test_folder / literal_path "tests/references" / path_of sub_folder)%path in
  there ← zoom (path_exists current_folder);
  when (negb there) (zoom (create_folder current_folder));;
  callback (mkTestCase name aggregate_name source_code sub_folder current_folder reference_folder).

(** A file of test cases, or one test case without arguments. *)
Definition visit_test_file (test_folder test_path : path) : M S unit :=
  content ← zoom (read_ustring test_path);
  scanned ← local_object (scan regex_replace (new_TestCaseScanner any content));
  let '(test_cases, scanner) := scanned in
  match test_cases with
  | [] => call_test test_folder test_path test_path (get_source_code regex_replace [] scanner)
  | _ =>
      for_each test_cases (λ test_case,
        let source_code :=
          get_source_code regex_replace (source_code_arguments test_case) scanner in
        let test_path_string := path_string test_path in
        if negb (regex_search test_path_string (u "\{\w+\}")) then
          throw (std_logic_error (u "The path '" ++ test_path_string
            ++ u "' must contain template arguments."))
        else
          let new_test_path :=
            path_of (get_filename regex_replace test_path_string (file_arguments test_case)) in
          call_test test_folder new_test_path test_path source_code)
  end.

(** The fuel bounds the depth of the folders. *)
Fixpoint visit_tests (fuel : nat) (test_folder : path) (tests : list (list Z)) : M S unit :=
  match fuel with
  | O => out_of_fuel
  | Datatypes.S fuel' =>
      for_each tests (λ test,
        test_path ← zoom (weakly_canonical (path_of test));
        directory ← zoom (is_directory test_path);
        if (directory : bool) then
          files ← zoom (find_files (test_path / literal_path "*")%path);
          visit_tests fuel' test_folder files
        else visit_test_file test_folder test_path)
  end.

Definition visit_tests_by_path (fuel : nat) (folder : path) (delete_folder : bool) : M S unit :=
  root ← zoom root_dir;
  let tests_folder := (root / folder / literal_path "/tests")%path in
  let current_folder := (tests_folder / literal_path "currents")%path in
  when delete_folder (
    zoom (remove_folder (tests_folder / literal_path "currents")%path);;
    there ← zoom (path_exists current_folder);
    when (negb there) (zoom (create_folder current_folder)));;
  tests ← zoom (find_files (tests_folder / literal_path "cases/*")%path);
  visit_tests fuel folder tests.
End visit.

(** ** The GraphQL tests *)

Definition graphql_folder : path := literal_path "src/program/graphql".

Definition separator : ustring := u "====" ++ [Character.NewLine].

(** The text of [diagnostic_writer]: the schema and the query, each with its
    diagnostics.  A part behind the query is ignored. *)
Definition write_diagnostics (source : ustring) : M (list Z) unit :=
  let source := split_regex source separator in
  let write := add_diagnostics (λ d, raw (Diagnostic.message regex_replace d)) in
  schema_source ← deref (source !! 0);
  constructed ← local_object (construct_GraphQlSchema schema_source);
  let schema := snd constructed in
  write (Parser.diagnostics (Schema.parser schema)) schema_source;;
  match source !! 1 with
  | None => mret tt
  | Some query =>
      add_source separator;;
      executed ← local_object (execute_on_schema schema query);
      write (executable_diagnostics (fst executed)) query
  end.

(** [test_case.current_folder / (test_case.name + ".errors")]. *)
Definition errors_file (folder : path) (test_case : TestCase) : path :=
  (folder / path_of (name test_case ++ u ".errors"))%path.

(** [strcmp]. *)
Definition assert_baselines (current reference : list Z) : bool :=
  bool_decide (c_string current = c_string reference).

Definition diff_command (reference current : path) : list Z :=
  let quoted p := [Character.DoubleQuote] ++ path_string p ++ [Character.DoubleQuote] in
  u "git diff --no-index --color " ++ quoted reference ++ u " " ++ quoted current ++ u " | cat".

Definition block_of_pages : Z := 1024 * 4.

(** The procedure of a GraphQL test.  The nodes of the parsers are on their heaps,
    so that the pool only gives and takes back the ticket. *)
Definition graphql_test (test_case : TestCase) (t : TestPtr) (done : M (F * Callbacks) unit)
    (error : list Z → M (F * Callbacks) unit) : M (F * Callbacks) unit :=
  pool ← local_object (new_MemoryPool (block_of_pages * 10000) block_of_pages start);
  taken ← local_object (TakeTicket (snd pool));
  written ← local_object (write_diagnostics (source test_case) []);
  let current_errors_file_source := snd written in
  let current_error_file := errors_file (current_folder test_case) test_case in
  zoom (write_file current_error_file current_errors_file_source);;
  let reference_error_file := errors_file (reference_folder test_case) test_case in
  reference_file_exists ← zoom (exists_ reference_error_file);
  reference ← (if (reference_file_exists : bool) then zoom (read_file reference_error_file)
    else mret []);
  (if negb (assert_baselines current_errors_file_source reference) then
    if (reference_file_exists : bool) then
      difference ← zoom (execute_command (diff_command reference_error_file current_error_file));
      error difference
    else error ([Character.NewLine] ++ current_errors_file_source)
  else mret tt);;
  local_object (ReturnTicket (fst taken) (snd taken));;
  done.

(** The tests of [DefineGraphQlTests] that [run_option] selects. *)
Definition defined_by (run_option : RunOption) (test_case : TestCase) : bool :=
  match run_option_folder run_option with
  | Some f => bool_decide (f = folder test_case)
  | None => true
  end &&
  match run_option_test run_option with
  | Some t => bool_decide (t = aggregate_name test_case) || bool_decide (t = name test_case)
  | None => true
  end.

Definition define_graphql_test (run_option : RunOption) (test_case : TestCase) :
    M (Suites (F := F)) unit :=
  if negb (defined_by run_option test_case) then mret tt
  else test (name test_case) (SuccessError (graphql_test test_case)).

Definition DefineGraphQlTests (fuel : nat) (run_option : RunOption) : M (Suites (F := F)) unit :=
  domain (u "GraphQL");;
  visit_tests_by_path (define_graphql_test run_option) fuel graphql_folder true.

(** ** Accepting *)

Definition accepted_by (run_option : RunOption) (test_case : TestCase) : bool :=
  match run_option_folder run_option with
  | Some f => bool_decide (f = folder test_case)
  | None => true
  end &&
  match run_option_test run_option with
  | Some t => bool_decide (t = name test_case)
  | None => true
  end.

Definition accept_graphql_test (run_option : RunOption) (test_case : TestCase) : M F unit :=
  if negb (accepted_by run_option test_case) then mret tt else
  let current_error_file := errors_file (current_folder test_case) test_case in
  current ← exists_ current_error_file;
  if negb (current : bool) then mret tt else
  folder_exists ← exists_ (reference_folder test_case);
  when (negb folder_exists) (create_folder (reference_folder test_case));;
  let reference_error_file := errors_file (reference_folder test_case) test_case in
  current_error_file_source ← read_file current_error_file;
  reference ← exists_ reference_error_file;
  when reference (remove reference_error_file);;
  write_file reference_error_file current_error_file_source.

#[local] Instance files_files : Has F F.
Proof. by refine {| sub := λ f, f; put_sub := λ f _, f |}. Defined.

Definition AcceptGraphQlTests (fuel : nat) (run_option : RunOption) : M F unit :=
  visit_tests_by_path (accept_graphql_test run_option) fuel graphql_folder false.

(** ** Running *)

(** [Run]; what [print_stats] returns is not looked at. *)
Definition Run (now : F → Z * F) (wait_fuel : nat) (async_runs : bool) :
    M (Suites (F := F)) unit :=
  run_test_suites now wait_fuel async_runs;;
  print_stats;;
  mret tt.
End runner.

(** ** Lines of differences *)

(** The loops of the functions below: [at_end] is what they do at the end of a
    line; a carriage return with a line feed is one end. *)
Fixpoint each_line {S A} (at_end : A → list Z → M S A) (a : A) (line s : list Z) :
    M S (A * list Z) :=
  match s with
  | [] => mret (a, line)
  | ch :: rest =>
      if (ch =? Character.NewLine)%Z then a ← at_end a line; each_line at_end a [] rest
      else if (ch =? Character.CarriageReturn)%Z then
        a ← at_end a line;
        match rest with
        | c :: rest' =>
            if (c =? Character.NewLine)%Z then each_line at_end a [] rest'
            else each_line at_end a [] rest
        | [] => mret (a, [])
        end
      else each_line at_end a (line ++ [ch]) rest
  end.

(** The first line, the other lines and the number of lines. *)
Definition get_first_and_rest_lines {S} (chunk : list Z) : M S (list Z * list (list Z) * nat) :=
  read ← each_line (λ '(first, rest, n) line,
      mret (match first with
        | None => (Some line, rest, Datatypes.S n)
        | Some _ => (first, rest ++ [line], Datatypes.S n)
        end)) (None, [], 1) [] chunk;
  let '(first, rest, n, line) := read in
  mret (match first with
    | None => (line, rest, n)
    | Some first => (first, rest ++ [line], n)
    end).

(** [current_line_] of the runner, and the writer the functions are given. *)
Record LineWriter := mkLineWriter {
  current_line_ : nat;
  writer : TextWriter
}.

#[export] Instance line_writer : Has TextWriter LineWriter.
Proof.
  by refine {| sub := writer; put_sub := λ w s, mkLineWriter (current_line_ s) w |};
    intros; try destruct s.
Defined.

Definition line_number (line : nat) : M LineWriter (list Z) :=
  let number := Cstring.to_string (Z.of_nat line) in
  if (line <? 10)%nat then mret (escape (u "90") ++ u "   " ++ number ++ u "  " ++ escape (u "0") ++ u " ")
  else if (line <? 100)%nat then
    mret (escape (u "90") ++ u "  " ++ number ++ u " " ++ escape (u "0") ++ u "  ")
  else if (line <? 1000)%nat then
    mret (escape (u "90") ++ u " " ++ number ++ u " " ++ escape (u "0") ++ u "   ")
  else throw (std_logic_error (u "Your file is too big")).

Definition write_mutation (is_insertion : bool) (line : list Z) : M LineWriter unit :=
  zoom (write (escape (if is_insertion then u "32" else u "31") ++ line ++ escape (u "0"))).

Definition append_mutation_chunk (message : list Z) (is_insertion : bool) : M LineWriter unit :=
  read ← each_line (λ n line,
      write_mutation is_insertion line;;
      zoom newline;;
      (if is_insertion then
        modify (λ s, mkLineWriter (Datatypes.S (current_line_ s)) (writer s));;
        s ← get;
        number ← line_number (current_line_ s);
        zoom (write number)
      else
        s ← get;
        number ← line_number (current_line_ s + n);
        zoom (write number));;
      mret (Datatypes.S n)) 0 [] message;
  write_mutation is_insertion (snd read).

(** The text of the writer, and whether there was more than one line. *)
Definition append_all_lines (chunk : list Z) : M TextWriter (list Z * bool) :=
  read ← each_line (λ n line, write line;; mret (Datatypes.S n)) 0 [] chunk;
  write (snd read);;
  text ← gets TextWriter.text;
  mret (text, (0 <? fst read)%nat).
