(* ===== verification/HttpServer.v ===== *)
(** * [program/http_server.h], [program/http_server.cpp]: the gateway

    The callbacks libuv calls: a request that was read is parsed as HTTP, its
    body as JSON, and its query is executed on a fixed schema; the fields that
    have an endpoint are forwarded.  [Platform] has the calls of libuv, OpenSSL
    and jsoncpp the callbacks make, on a state of their own.  All connections
    share one [GatewayClient], the [data] of the listening socket.  [Setup] has
    the calls [Listen] makes, to watch signals, start the timer, listen, and make the
    security context from the certificates in the file system. *)
From S2P Require Import Prelude Monad Character Cstring Utils Files.
From S2P Require Import StdMap HttpHeaders HttpScanner HttpParser.
From S2P Require Import HttpWriter MemoryPool Diagnostic Syntaxes Scanner Parser Schema SchemaChecks.
From S2P Require Import Executor.

#[local] Arguments u : simpl never.

(** ** Data *)

(** Handles of sockets and of TLS sessions. *)
Definition handle : Type := nat.

(** [struct BackendEndpoint]. *)
Record BackendEndpoint := mkBackendEndpoint {
  origin : list Z;
  host : list Z;
  hostname : list Z;
  port : Z;
  endpoint_path : list Z
}.

(** [field_to_endpoint], a map ordered by [strcmp]. *)
Definition field_to_endpoint : std_map ustring BackendEndpoint :=
  [(u "field", mkBackendEndpoint (u "http://localhost:4000/graphql") (u "localhost:4000")
      (u "localhost") 4000 (u "/graphql"))].

(** [struct GatewayClient].  [fields] is keyed by the addresses of the names in
    [field_to_endpoint], which are different for different names.  The two
    memory BIOs are those of [ssl_handle]. *)
Record GatewayClient := mkGatewayClient {
  client_handle : option handle;
  fields : std_map ustring Selection;
  client_fragments : option (list FragmentDefinition);
  ssl_handle : option handle
}.

Definition new_GatewayClient : GatewayClient := mkGatewayClient None [] None None.

(** [struct ClientRequest]; its [gateway_client] is the one client. *)
Record ClientRequest := mkClientRequest {
  request_hostname : list Z;
  request_port : Z;
  request_host : list Z;
  request_path : list Z;
  request_handle : option handle
}.

(** ** The platform *)

(** [SSL_read] gives its result and the buffer it was given, [uv_getaddrinfo] the
    status of starting a lookup whose callback gets the request as its data.
    [json_query] is [body["query"].asString ()] of the parsed body, or the
    exception of jsoncpp. *)
Class Platform (W Address : Type) := {
  uv_new_handle : W → handle * W;
  uv_accept : handle → W → Z * W;
  uv_read_start : handle → W → Z * W;
  uv_close : handle → W → W;
  uv_send : handle → list Z → W → Z * W;
  uv_getaddrinfo : list Z → list Z → ClientRequest → W → Z * W;
  uv_ip4_name : Address → Z * list Z;
  uv_ip4_addr : list Z → Z → Z * Address;
  uv_tcp_connect : handle → Address → ClientRequest → W → W;
  SSL_new : handle → W → handle * W;
  SSL_is_init_finished : handle → W → bool;
  BIO_write : handle → list Z → Z → W → W;
  SSL_accept : handle → W → W;
  SSL_read : handle → nat → W → (Z * list Z) * W;
  wbio_read : handle → nat → W → list Z * W;
  wbio_pending : handle → W → nat;
  json_query : list Z → exn + ustring
}.

(** The server: the state of the platform, the client, and the members of
    [class HttpServer]. *)
Record Server (W : Type) := mkServer {
  platform : W;
  memory_pool : MemoryPool;
  gateway_client : GatewayClient;
  parent_pid : Z;
  ssl_ctx : handle
}.
Arguments mkServer {_}.
Arguments platform {_}.
Arguments memory_pool {_}.
Arguments gateway_client {_}.
Arguments parent_pid {_}.
Arguments ssl_ctx {_}.

Section server.
Context {W Address : Type} `{Platform W Address}.

Definition set_platform (v : W) (s : Server W) : Server W :=
  mkServer v (memory_pool s) (gateway_client s) (parent_pid s) (ssl_ctx s).
Definition set_memory_pool (v : MemoryPool) (s : Server W) : Server W :=
  mkServer (platform s) v (gateway_client s) (parent_pid s) (ssl_ctx s).
Definition set_gateway_client (v : GatewayClient) (s : Server W) : Server W :=
  mkServer (platform s) (memory_pool s) v (parent_pid s) (ssl_ctx s).

(** A call of the platform. *)
Definition invoke {A} (f : W → A * W) : M (Server W) A := λ s,
  let '(a, w) := f (platform s) in Ok a (set_platform w s).
Definition invoke_ (f : W → W) : M (Server W) unit :=
  modify (λ s, set_platform (f (platform s)) s).

#[export] Instance server_pool : Has MemoryPool (Server W).
Proof. by refine {| sub := memory_pool; put_sub := set_memory_pool |}; intros; try destruct s. Defined.

(** ** Writing *)

(** A failed write is only printed. *)
Definition WriteToSocket (bytes : list Z) : M (Server W) unit :=
  if (length bytes =? 0)%nat then mret tt else
  s ← get;
  handle ← deref (client_handle (gateway_client s));
  invoke (uv_send handle bytes);;
  mret tt.

Definition FlushWriteBio : M (Server W) unit :=
  s ← get;
  ssl ← deref (ssl_handle (gateway_client s));
  loop (S (wbio_pending ssl (platform s))) (λ _ : unit,
    bytes ← invoke (wbio_read ssl bio_buffer_size);
    match bytes with
    | [] => mret (inr tt)
    | _ => WriteToSocket bytes;; mret (inl tt)
    end) tt.

(** ** Requests *)

(** [GraphQlSchema schema ("type Query { field: Int }", ...)]. *)
Definition gateway_schema_source : ustring := u "type Query { field: Int }".

(** The query of the body, on the schema; without a body there is no result. *)
Definition execute_request (request : HttpRequest) : M (Server W) (option ExecutableDefinition) :=
  constructed ← local_object (construct_GraphQlSchema gateway_schema_source);
  match HttpParser.body request with
  | None => mret None
  | Some body_ =>
      match json_query body_ with
      | inl e => throw e
      | inr graphql_query =>
          executed ← local_object (execute_on_schema (snd constructed) graphql_query);
          mret (Some (fst executed))
      end
  end.

(** [ParseRequest].  [Parse] never returns null, so the connection is never
    closed here; the ticket is taken and not returned.  The nodes of the schema
    and of the query are on the heaps of their parsers. *)
Definition ParseRequest (read_buffer : list Z) (size_ : nat) :
    M (Server W) (option ExecutableDefinition) :=
  parsed ← local_object (parse_request read_buffer size_);
  ⟨TakeTicket⟩;;
  execute_request (fst parsed).

Definition ForwardRequest (client_request : ClientRequest) : M (Server W) unit :=
  r ← invoke (uv_getaddrinfo (request_hostname client_request) (u "80") client_request);
  if (r =? 0)%Z then mret tt else
  s ← get;
  handle ← deref (client_handle (gateway_client s));
  invoke_ (uv_close handle).

Definition default_operation : ustring := u "default_operation".

(** [std::find_if] on the names: the name of each operation up to the one that
    is found is dereferenced. *)
Fixpoint find_operation (definitions : list OperationDefinition) :
    M (Server W) (option OperationDefinition) :=
  match definitions with
  | [] => mret None
  | d :: rest =>
      name ← deref (operation_name d);
      if decide (identifier name = default_operation) then mret (Some d) else find_operation rest
  end.

(** The operation to run: the only one, or the one with the default name. *)
Definition select_operation (definitions : list OperationDefinition) :
    M (Server W) (option OperationDefinition) :=
  match definitions with
  | [d] => mret (Some d)
  | _ => find_operation definitions
  end.

(** A selection with an endpoint is forwarded; another one ends the loop. *)
Definition forward_selection (fragments_ : list FragmentDefinition) (selection : Selection) :
    M (Server W) bool :=
  match selection with
  | Field _ _ name _ _ _ =>
      name ← deref name;
      match find (identifier name) field_to_endpoint with
      | None => mret false
      | Some endpoint =>
          modify (λ s, set_gateway_client (mkGatewayClient (client_handle (gateway_client s))
            (emplace (identifier name) selection (fields (gateway_client s))) (Some fragments_)
            (ssl_handle (gateway_client s))) s);;
          ForwardRequest (mkClientRequest (hostname endpoint) (port endpoint) (host endpoint)
            (endpoint_path endpoint) None);;
          mret true
      end
  | _ => mret false
  end.

Definition forward_selections (fragments_ : list FragmentDefinition) :
    list Selection → M (Server W) unit :=
  fix forward selections :=
    match selections with
    | [] => mret tt
    | selection :: rest =>
        next ← forward_selection fragments_ selection;
        if (next : bool) then forward rest else mret tt
    end.

Definition forward_operation (x : ExecutableDefinition) : M (Server W) unit :=
  operation ← select_operation (operation_definitions x);
  match operation with
  | None => mret tt
  | Some d =>
      set_ ← deref (operation_selection_set d);
      let 'mkSelectionSet _ selections := set_ in
      forward_selections (fragment_definitions x) selections
  end.

Definition read_buffer_size : nat := 1024 * 10.

(** A message of the handshake. *)
Definition accept_handshake (ssl : handle) (base : list Z) (length_ : Z) : M (Server W) unit :=
  invoke_ (BIO_write ssl base length_);;
  invoke_ (SSL_accept ssl);;
  FlushWriteBio.

(** [on_read (client_stream, length, buf)]: the diagnostics of the query are not
    looked at. *)
Definition on_read (client_stream : handle) (length_ : Z) (base : list Z) : M (Server W) unit :=
  if (length_ =? 0)%Z then invoke_ (uv_close client_stream) else
  s ← get;
  ssl ← deref (ssl_handle (gateway_client s));
  if negb (SSL_is_init_finished ssl (platform s)) then accept_handshake ssl base length_ else
  invoke_ (BIO_write ssl base length_);;
  read ← invoke (SSL_read ssl read_buffer_size);
  let '(read_size, read_buffer) := read in
  if (0 <? read_size)%Z then
    definition ← ParseRequest read_buffer (Z.to_nat read_size);
    match definition with
    | None => mret tt
    | Some x => forward_operation x
    end
  else mret tt.

(** ** Connections *)

(** [OnNewConnection (server, status)]: the handles of the client before are
    overwritten. *)
Definition OnNewConnection (server : handle) : M (Server W) unit :=
  tcp_handle ← invoke uv_new_handle;
  s ← get;
  ssl ← invoke (SSL_new (ssl_ctx s));
  modify (λ s, set_gateway_client (mkGatewayClient (Some tcp_handle) (fields (gateway_client s))
    (client_fragments (gateway_client s)) (Some ssl)) s);;
  r ← invoke (uv_accept server);
  if (r =? 0)%Z then invoke (uv_read_start tcp_handle);; mret tt
  else invoke_ (uv_close tcp_handle).

(** [OnResolvedIpv4 (handle, status, res)]: the status is not looked at, the
    address is null after a failed lookup. *)
Definition OnResolvedIpv4 (client_request : ClientRequest) (res : option Address) :
    M (Server W) unit :=
  address ← deref res;
  let '(r, ip_addr) := uv_ip4_name address in
  if negb (r =? 0)%Z then mret tt else
  let '(r, request_address) := uv_ip4_addr ip_addr (request_port client_request) in
  if negb (r =? 0)%Z then mret tt else
  tcp_handle ← invoke uv_new_handle;
  invoke_ (uv_tcp_connect tcp_handle request_address
    (mkClientRequest (request_hostname client_request) (request_port client_request)
      (request_host client_request) (request_path client_request) (Some tcp_handle))).

(** The socket of a handle, for the writer. *)
Definition socket (h : handle) : Transport W := {|
  uv_write := uv_send h;
  SSL_write _ w := w;
  BIO_read _ w := ([], w);
  bio_pending _ := 0%nat
|}.

(** A text in double quotes. *)
Definition quoted (text : list Z) : list Z :=
  [Character.DoubleQuote] ++ text ++ [Character.DoubleQuote].

Definition request_body : list Z :=
  u "{ " ++ quoted (u "query") ++ u ": " ++ quoted (u "{ field }") ++ u " }".

(** The request that is written for a field: whatever the field, its text is the
    same. *)
Definition write_request (client_request : ClientRequest) `{Transport W} : M (HttpWriter W) unit :=
  WriteRequest HttpMethod.Post (request_path client_request);;
  WriteLine [u "Host: "; request_host client_request];;
  WriteLine [u "User-Agent: flash"];;
  WriteLine [u "Accept: */*"];;
  WriteLine [u "Content-Type: application/json; charset=utf-8"];;
  WriteLine [u "Content-Length: 24"];;
  WriteLine [];;
  WriteAll [request_body];;
  End.

(** A writer on a socket of the platform. *)
Definition with_socket {A} (h : handle) (m : M (HttpWriter W) A) : M (Server W) A := λ s,
  match m (new_HttpWriter false (platform s)) with
  | Ok a w => Ok a (set_platform (tcp_handle w) s)
  | Throw e w => Throw e (set_platform (tcp_handle w) s)
  | Undefined => Undefined
  | OutOfFuel => OutOfFuel
  end.

(** [OnClientConnect (connection, status)]: a failed connection is only printed. *)
Definition OnClientConnect (client_request : ClientRequest) : M (Server W) unit :=
  h ← deref (request_handle client_request);
  invoke (uv_read_start h);;
  s ← get;
  for_each (fields (gateway_client s)) (λ _,
    with_socket h (write_request client_request (H0 := socket h))).

(** [OnForwardRequestRead (tcp, length, buf)]: what is read is printed. *)
Definition OnForwardRequestRead (tcp : handle) (length_ : Z) : M (Server W) unit :=
  if (0 <=? length_)%Z then mret tt else invoke_ (uv_close tcp).

End server.

(** ** Setting up *)

Inductive signal := SIGHUP | SIGINT | SIGTERM.

#[export] Instance signal_eq_dec : EqDecision signal.
Proof. solve_decision. Defined.

(** The options the context is given, and the curve. *)
Inductive SSL_option :=
  | SSL_OP_NO_SSLv2
  | SSL_OP_NO_SSLv3
  | SSL_OP_SINGLE_ECDH_USE
  | SSL_OP_SINGLE_DH_USE
  | SSL_OP_CIPHER_SERVER_PREFERENCE.

Inductive curve := NID_X9_62_prime256v1.

(** [SSL_CTX_new] is given the method of a server of TLS 1.2.  Contexts and keys are
    handles as well; the key of a curve is null where it cannot be made. *)
Class Setup (W Address : Type) := {
  getppid : W → Z;
  uv_signal_init : W → handle * W;
  uv_signal_start : handle → signal → W → Z * W;
  uv_timer_init : W → handle * W;
  uv_timer_start : handle → Z → Z → W → Z * W;
  uv_tcp_bind : handle → Address → Z → W → Z * W;
  uv_listen : handle → Z → W → Z * W;
  uv_loop_close : W → Z * W;
  SSL_library_init : W → W;
  SSL_load_error_strings : W → W;
  SSL_CTX_new : W → handle * W;
  SSL_CTX_set_options : handle → SSL_option → W → W;
  EC_KEY_new_by_curve_name : curve → W → option handle * W;
  SSL_CTX_set_tmp_ecdh : handle → handle → W → Z * W;
  EC_KEY_free : handle → W → W;
  SSL_CTX_use_certificate_file : handle → list Z → W → Z * W;
  SSL_CTX_use_PrivateKey_file : handle → list Z → W → Z * W;
  SSL_CTX_set_cipher_list : handle → list Z → W → Z * W
}.

(** What [Listen] gives a server. *)
Record Listening := mkListening {
  listening_pool : MemoryPool;
  listening_parent : Z;
  listening_context : handle
}.

Definition cipher_list : list Z :=
  u "ECDHE-RSA-AES256-GCM-SHA384:ECDHE-ECDSA-AES256-GCM-SHA384:" ++
  u "ECDHE-RSA-AES128-GCM-SHA256:ECDHE-ECDSA-AES128-GCM-SHA256:" ++
  u "DHE-RSA-AES128-GCM-SHA256:ECDHE-RSA-AES128-SHA256:" ++
  u "DHE-RSA-AES128-SHA256:ECDHE-RSA-AES256-SHA384:DHE-RSA-AES256-SHA384:" ++
  u "ECDHE-RSA-AES256-SHA256:DHE-RSA-AES256-SHA256:HIGH:!aNULL:!eNULL:" ++
  u "!EXPORT:!DES:!RC4:!MD5:!PSK:!SRP:!CAMELLIA".

Definition no_curve_key : exn :=
  std_logic_error (u "Could not generate elliptic curve diffie hellman key.").
Definition curve_key_not_set : exn :=
  std_logic_error (u "Could not set elliptic curve diffie hellman key.").

Section setup.
Context {W Address : Type} `{Platform W Address} `{Setup W Address} `{FileSystem W}.

(** A call before there is a server. *)
Definition call {A} (f : W → A * W) : M W A := λ w, let '(a, w) := f w in Ok a w.
Definition call_ (f : W → W) : M W unit := modify f.

(** The certificate and the key of the folder of the program; whether they could be
    used is not looked at. *)
Definition use_certificates (ctx : handle) : M W unit :=
  root ← root_dir;
  cert ← resolve_paths root (literal_path "certs/cert.pem");
  root ← root_dir;
  key ← resolve_paths root (literal_path "certs/key.pem");
  let key := path_of (c_string (path_string key)) in
  call (SSL_CTX_use_certificate_file ctx (c_string (path_string cert)));;
  call (SSL_CTX_use_PrivateKey_file ctx (c_string (path_string key)));;
  mret tt.

(** [SetSecurityContext]: the context. *)
Definition SetSecurityContext : M W handle :=
  ctx ← call SSL_CTX_new;
  call_ (SSL_CTX_set_options ctx SSL_OP_NO_SSLv2);;
  call_ (SSL_CTX_set_options ctx SSL_OP_NO_SSLv3);;
  call_ (SSL_CTX_set_options ctx SSL_OP_SINGLE_ECDH_USE);;
  call_ (SSL_CTX_set_options ctx SSL_OP_SINGLE_DH_USE);;
  call_ (SSL_CTX_set_options ctx SSL_OP_CIPHER_SERVER_PREFERENCE);;
  ecdh ← call (EC_KEY_new_by_curve_name NID_X9_62_prime256v1);
  match ecdh with
  | None => throw no_curve_key
  | Some ecdh =>
      r ← call (SSL_CTX_set_tmp_ecdh ctx ecdh);
      if negb (r =? 1)%Z then throw curve_key_not_set else
      call_ (EC_KEY_free ecdh);;
      use_certificates ctx;;
      call (SSL_CTX_set_cipher_list ctx cipher_list);;
      mret ctx
  end.

(** The signals are started on the same handle. *)
Definition watch_signals : M W unit :=
  signal ← call uv_signal_init;
  call (uv_signal_start signal SIGTERM);;
  call (uv_signal_start signal SIGINT);;
  call (uv_signal_start signal SIGHUP);;
  mret tt.

(** Neither a timeout nor a time to repeat. *)
Definition start_timer : M W unit :=
  timer_request ← call uv_timer_init;
  call (uv_timer_start timer_request 0 0);;
  mret tt.

(** The socket; a failure is only printed. *)
Definition listen_on (host : list Z) (port : Z) : M W unit :=
  server ← call uv_new_handle;
  let '(_, addr) := uv_ip4_addr host port in
  call (uv_tcp_bind server addr 0);;
  call (uv_listen server 128);;
  mret tt.

(** [Listen (host, port)]; [start] is the address of the pool. *)
Definition Listen (start : Z) (host : list Z) (port : Z) : M W Listening :=
  call_ SSL_library_init;;
  call_ SSL_load_error_strings;;
  parent_pid ← gets getppid;
  ssl_ctx ← SetSecurityContext;
  pool ← local_object (new_MemoryPool (1024 * 4 * 10000) (1024 * 4) start);
  watch_signals;;
  start_timer;;
  listen_on host port;;
  mret (mkListening (snd pool) parent_pid ssl_ctx).

(** The server with a client nothing is set of. *)
Definition listening_server (l : Listening) (w : W) : Server W :=
  mkServer w (listening_pool l) new_GatewayClient (listening_parent l) (listening_context l).

(** [Close]: what closing the loop gives is not looked at. *)
Definition Close : M (Server W) unit := invoke uv_loop_close;; mret tt.

(** [HandleSignal (signal, signum)]: the loop of the handle is that of the server. *)
Definition HandleSignal : M (Server W) unit := Close.

(** [OnInterval (handle)]. *)
Definition OnInterval : M (Server W) unit :=
  s ← get;
  when (negb (getppid (platform s) =? parent_pid s)%Z) Close.

(** ** The loop *)

(** What libuv calls. *)
Inductive event :=
  | NewConnection (server : handle)
  | Read (client_stream : handle) (length_ : Z) (base : list Z)
  | ResolvedIpv4 (client_request : ClientRequest) (res : option Address)
  | ClientConnect (client_request : ClientRequest)
  | ForwardRequestRead (tcp : handle) (length_ : Z)
  | Signal (signum : signal)
  | Interval.

Definition handle_event (e : event) : M (Server W) unit :=
  match e with
  | NewConnection server => OnNewConnection server
  | Read client_stream length_ base => on_read client_stream length_ base
  | ResolvedIpv4 client_request res => OnResolvedIpv4 client_request res
  | ClientConnect client_request => OnClientConnect client_request
  | ForwardRequestRead tcp length_ => OnForwardRequestRead tcp length_
  | Signal _ => HandleSignal
  | Interval => OnInterval
  end.

(** The callbacks in the order libuv calls them.  An exception leaves the
    callback, and ends the process. *)
Definition run_events (events : list event) : M (Server W) unit := for_each events handle_event.
End setup.
