(* ===== verification/TcpClient.v ===== *)
(** * The TCP clients ([lib/tcp_client_raw.*], [program/tcp_client.*])

    A client on the sockets of the system, and one on libuv; nothing else of the
    program calls them.  The calls of the system and of libuv are the parameters
    [Sockets] and [Streams].  What is printed is not modelled. *)
From Stdlib Require Import Zify.
From S2P Require Import Prelude Monad Character Cstring.

#[local] Arguments u : simpl never.

(** ** The client on sockets *)

(** [struct sockaddr_in]; the port is in network order. *)
Record sockaddr_in := mkSockaddr {
  sin_family : Z;
  sin_port : Z;
  sin_addr : Z;
  sin_zero : list Z
}.

(** What [memset] with the character ['0'] leaves of it. *)
Definition zeros_sockaddr : sockaddr_in :=
  mkSockaddr 0x3030 0x3030 0x30303030 (replicate 8 0x30%Z).

(** The two low bytes of the port, swapped. *)
Definition htons (port : Z) : Z := ((port mod 256) * 256 + (port / 256) mod 256)%Z.

(** [inet_pton] gives its status and the address, [recv] its result and what it
    wrote to the buffer. *)
Class Sockets (W : Type) := {
  AF_INET : Z;
  socket : W → Z * W;
  inet_pton : list Z → Z * Z;
  connect : Z → sockaddr_in → W → Z * W;
  send : Z → list Z → W → Z * W;
  recv : Z → nat → W → (Z * list Z) * W
}.

(** [class TcpClientRaw], on the state of the network; [server] is not used. *)
Record TcpClientRaw (W : Type) := mkTcpClientRaw {
  network : W;
  socketfd : Z;
  server_address : sockaddr_in
}.
Arguments mkTcpClientRaw {_}.
Arguments network {_}.
Arguments socketfd {_}.
Arguments server_address {_}.

Definition CHUNK_SIZE : nat := 1024.

Section raw.
Context {W : Type} `{Sockets W}.

(** [TcpClientRaw ()]; [any] is the address, which is not initialised. *)
Definition new_TcpClientRaw (any : sockaddr_in) (w : W) : TcpClientRaw W := mkTcpClientRaw w (-1) any.

Definition system {A} (f : W → A * W) : M (TcpClientRaw W) A := λ c,
  let '(a, w) := f (network c) in Ok a (mkTcpClientRaw w (socketfd c) (server_address c)).

Definition set_socketfd (v : Z) (c : TcpClientRaw W) : TcpClientRaw W :=
  mkTcpClientRaw (network c) v (server_address c).
Definition set_server_address (v : sockaddr_in) (c : TcpClientRaw W) : TcpClientRaw W :=
  mkTcpClientRaw (network c) (socketfd c) v.

(** [bind]: the socket is connected. *)
Definition bind (host : list Z) (port : Z) : M (TcpClientRaw W) bool :=
  fd ← system socket;
  modify (set_socketfd fd);;
  if (fd <? 0)%Z then throw (std_domain_error (u "Could not open socket.")) else
  let zeros := zeros_sockaddr in
  modify (set_server_address (mkSockaddr AF_INET (htons port) (sin_addr zeros) (sin_zero zeros)));;
  let '(parsed, addr) := inet_pton host in
  if (parsed <=? 0)%Z then throw (std_domain_error (u "Invalid address.")) else
  let address := mkSockaddr AF_INET (htons port) addr (sin_zero zeros) in
  modify (set_server_address address);;
  connected ← system (connect fd address);
  if (connected <? 0)%Z then throw (std_domain_error (u "Connection to socket failed.")) else
  mret true.

(** A failure is only printed. *)
Definition send_message (message : list Z) : M (TcpClientRaw W) unit :=
  c ← get;
  system (send (socketfd c) (c_string message));;
  mret tt.

(** The message in the chunk, in front of the NUL; the NUL is written where the
    message ends, whether that is inside of the chunk or not. *)
Definition recieve_message : M (TcpClientRaw W) (list Z) :=
  c ← get;
  received ← system (recv (socketfd c) CHUNK_SIZE);
  let '(size_received, chunk) := received in
  if (0 <=? size_received)%Z && (size_received <? Z.of_nat CHUNK_SIZE)%Z then
    mret (c_string (take (Z.to_nat size_received) chunk))
  else undefined.
End raw.

(** ** The client on libuv *)

Definition MAX_PORT : Z := 65535.
Definition MIN_PORT : Z := 1.

(** Handles of streams.  [uv_run_connect] starts connecting and runs the loop;
    whether the callback was called. *)
Class Streams (L Address : Type) := {
  uv_tcp_init : L → nat * L;
  uv_tcp_keepalive : nat → Z → Z → L → Z * L;
  uv_ip4_addr : list Z → Z → Address;
  uv_run_connect : nat → Address → L → bool * L;
  uv_read_start : nat → L → Z * L;
  uv_close : nat → L → L
}.

(** [class TcpClient]: [connection] is not initialised before a connection is made;
    the function is what [on_data] was given; whether [read_promise] has given its
    future. *)
Record TcpClient (L : Type) := mkTcpClient {
  client_loop : L;
  connection : option nat;
  on_data_cb : list Z → L → L;
  future_retrieved : bool
}.
Arguments mkTcpClient {_}.
Arguments client_loop {_}.
Arguments connection {_}.
Arguments on_data_cb {_}.
Arguments future_retrieved {_}.

Section client.
Context {L Address : Type} `{Streams L Address}.

Definition new_TcpClient (loop_ : L) : TcpClient L := mkTcpClient loop_ None (λ _ l, l) false.

Definition invoke_loop {A} (f : L → A * L) : M (TcpClient L) A := λ c,
  let '(a, l) := f (client_loop c) in Ok a (mkTcpClient l (connection c) (on_data_cb c) (future_retrieved c)).

Definition set_connection (v : option nat) (c : TcpClient L) : TcpClient L :=
  mkTcpClient (client_loop c) v (on_data_cb c) (future_retrieved c).
Definition set_on_data_cb (v : list Z → L → L) (c : TcpClient L) : TcpClient L :=
  mkTcpClient (client_loop c) (connection c) v (future_retrieved c).
Definition set_future_retrieved (v : bool) (c : TcpClient L) : TcpClient L :=
  mkTcpClient (client_loop c) (connection c) (on_data_cb c) v.

(** [read_promise.get_future ()]: a promise gives its future once. *)
Definition get_future : M (TcpClient L) unit :=
  c ← get;
  if future_retrieved c then throw std_future_error else modify (set_future_retrieved true).

(** [connect (host, port)]: the callback takes the connection whatever its status. *)
Definition client_connect (host : list Z) (port : Z) : M (TcpClient L) unit :=
  if ((port <? MIN_PORT) || (MAX_PORT <? port))%Z then
    throw (std_domain_error (u "Port must be between 1 and 65535."))
  else
    socket_ ← invoke_loop uv_tcp_init;
    invoke_loop (uv_tcp_keepalive socket_ 1 60);;
    called ← invoke_loop (uv_run_connect socket_ (uv_ip4_addr host port));
    when called (modify (set_connection (Some socket_))).

(** [on_data (on_data)]. *)
Definition on_data (f : list Z → L → L) : M (TcpClient L) unit :=
  c ← get;
  stream ← deref (connection c);
  invoke_loop (uv_read_start stream);;
  modify (set_on_data_cb f).

(** The callback of a read: the [data] of the stream, which is no client, as nothing
    sets it. *)
Definition on_data_read (nread : Z) : M (TcpClient L) unit :=
  if (0 <=? nread)%Z then undefined else mret tt.

(** [send (message)]: libuv is told of two buffers where there is one. *)
Definition client_send (message : list Z) : M (TcpClient L) unit :=
  c ← get;
  stream ← deref (connection c);
  undefined.

(** [read ()]. *)
Definition read : M (TcpClient L) unit :=
  c ← get;
  stream ← deref (connection c);
  invoke_loop (uv_read_start stream);;
  get_future.

(** Its callback. *)
Definition read_callback (stream : nat) (nread : Z) : M (TcpClient L) unit :=
  on_data_read nread;;
  invoke_loop (λ l, (tt, uv_close stream l)).
End client.

(** ** Ports *)

(** Swapping twice gives the port back, up to the bits a port does not have. *)
Lemma htons_twice port : htons (htons port) = (port mod 65536)%Z.
Proof. unfold htons. Z.to_euclidean_division_equations. lia. Qed.

(** A port that has too many bits is another port: nothing is thrown. *)
Lemma htons_truncates port : htons (port + 65536) = htons port.
Proof. unfold htons. Z.to_euclidean_division_equations. lia. Qed.

(** ** Messages *)

Section messages.
Context {W : Type} `{Sockets W}.

(** What is there to be received, which [recv] gives as far as the buffer goes. *)
Context (pending : W → list Z).
Context (recv_takes : ∀ fd n w,
  (recv fd n w).1 = (Z.of_nat (length (take n (pending w))), take n (pending w))).

(** Messages of less than 1024 bytes are received, up to a NUL they have; where more
    is there to be received the NUL is written behind the chunk. *)
Theorem recieve_message_bounds c :
  match recieve_message c with
  | Ok message c' => (length (pending (network c)) < 1024)%nat ∧ message = c_string (pending (network c)) ∧
      socketfd c' = socketfd c ∧ server_address c' = server_address c
  | Undefined => (1024 ≤ length (pending (network c)))%nat
  | _ => False
  end.
Proof.
  unfold recieve_message, system, mbind, M_bind, get. pose proof (recv_takes (socketfd c) CHUNK_SIZE (network c)) as E.
  destruct (recv (socketfd c) CHUNK_SIZE (network c)) as [[n chunk] w]. cbn [fst] in E. injection E as -> ->.
  unfold CHUNK_SIZE. rewrite length_take.
  replace (0 <=? _)%Z with true by (symmetry; apply Z.leb_le; lia). cbn [andb].
  destruct (Z.ltb_spec (Z.of_nat (1024 `min` length (pending (network c)))) (Z.of_nat 1024)).
  - unfold mret, M_ret. assert (Hlen : (length (pending (network c)) < 1024)%nat) by lia. split; [done|].
    rewrite Nat2Z.id, (take_ge (pending (network c)) 1024) by lia. by rewrite take_ge by lia.
  - unfold undefined. lia.
Qed.
End messages.

(** A network whose messages are there to be received; nothing is sent. *)
#[local] Instance queue_sockets : Sockets (list Z) := {|
  AF_INET := 2%Z;
  socket w := (3%Z, w);
  inet_pton _ := (1%Z, 0%Z);
  connect _ _ w := (0%Z, w);
  send _ bytes w := (Z.of_nat (length bytes), w);
  recv _ n w := ((Z.of_nat (length (take n w)), take n w), drop n w)
|}.

Lemma recieve_message_bounds_witness :
  let c := new_TcpClientRaw zeros_sockaddr (u "hello") in
  (∀ fd n w, (recv fd n w).1 = (Z.of_nat (length (take n w)), take n w)) ∧
  match recieve_message c with
  | Ok message c' => (length (u "hello") < 1024)%nat ∧ message = c_string (u "hello") ∧
      socketfd c' = socketfd c ∧ server_address c' = server_address c
  | Undefined => (1024 ≤ length (u "hello"))%nat
  | _ => False
  end.
Proof.
  intros c. assert (Hrecv : ∀ fd n w, (recv fd n w).1 = (Z.of_nat (length (take n w)), take n w))
    by reflexivity.
  split; [exact Hrecv|]. exact (recieve_message_bounds id Hrecv c).
Defined.

(** A message that fills the chunk. *)
Example full_chunk_overflows :
  recieve_message (new_TcpClientRaw zeros_sockaddr (replicate 1024 97%Z)) = Undefined.
Proof. reflexivity. Qed.

(** A port with too many bits is connected to without an exception. *)
Example bind_truncates_port :
  ∃ c, bind (u "127.0.0.1") (65536 + 8000) (new_TcpClientRaw zeros_sockaddr []) = Ok true c ∧
    sin_port (server_address c) = htons 8000.
Proof. eexists. split; [vm_compute; reflexivity|reflexivity]. Qed.

(** ** The client on libuv *)

Section loop.
Context {L Address : Type} `{Streams L Address}.

(** A client reads once: the second call throws, after it has started the reads. *)
Theorem read_only_once (c : TcpClient L) :
  match read c with
  | Ok _ c' => connection c ≠ None ∧ future_retrieved c = false ∧
      (∃ c'', read c' = Throw std_future_error c'')
  | Throw e _ => e = std_future_error ∧ future_retrieved c = true
  | Undefined => connection c = None
  | OutOfFuel => False
  end.
Proof.
  unfold read, get_future, invoke_loop, mbind, M_bind, get. destruct (connection c) as [stream|] eqn:E; [|done].
  simpl. destruct (uv_read_start stream (client_loop c)) as [status l]. simpl.
  destruct (future_retrieved c) eqn:Ef; simpl; [done|]. rewrite E. simpl. split; [done|]. split; [done|].
  destruct (uv_read_start stream l). by eexists.
Qed.

(** What is received by a client is given to nobody: [data] is read for it, which is
    not set. *)
Lemma on_data_read_undefined nread (c : TcpClient L) :
  on_data_read nread c = (if (0 <=? nread)%Z then Undefined else Ok tt c).
Proof. unfold on_data_read. by case_match. Qed.

(** Ports are checked here, before anything is done. *)
Lemma client_connect_ports host port (c : TcpClient L) :
  (port < 1 ∨ 65535 < port)%Z →
  client_connect host port c = Throw (std_domain_error (u "Port must be between 1 and 65535.")) c.
Proof.
  intros Hport. unfold client_connect, MIN_PORT, MAX_PORT.
  by replace ((port <? 1) || (65535 <? port))%Z with true by (symmetry; lia).
Qed.
End loop.
