(* ===== verification/HttpTests.v ===== *)
(** * The HTTP tests ([test/baseline_test_runner.*])

    [DefineHttpTests], whose tests ask the server on the local host over libcurl
    until it answers; libcurl and the pause between two attempts are the parameter
    [Curl].  The answer is not looked at. *)
From S2P Require Import Prelude Monad Character Cstring Utils Files TestDefinition TextAnnotater TestCaseScanner Baseline.

#[local] Arguments u : simpl never.

(** The options the test sets, with their values; pointers are to its buffers. *)
Inductive CurlOption :=
  | CURLOPT_ERRORBUFFER
  | CURLOPT_URL (url : list Z)
  | CURLOPT_WRITEFUNCTION
  | CURLOPT_WRITEDATA
  | CURLOPT_SSL_VERIFYPEER (value : Z)
  | CURLOPT_SSL_VERIFYHOST (value : Z)
  | CURLOPT_VERBOSE (value : Z)
  | CURLOPT_HTTPHEADER (headers : list (list Z))
  | CURLOPT_POSTFIELDS (fields : list Z).

(** The calls of libcurl, on the session [curl_easy_init] made; whether there is one
    and whether the code is [CURLE_OK]. *)
Class Curl (F : Type) := {
  curl_easy_init : M F bool;
  curl_global_init : M F unit;
  curl_easy_setopt : CurlOption → M F bool;
  curl_easy_perform : M F bool;
  curl_easy_cleanup : M F unit;
  curl_global_cleanup : M F unit;
  sleep_for : Z → M F unit
}.

(** The callback of libcurl: all of the data is taken. *)
Definition write_data (data : list Z) (size nmemb : Z) : Z := (size * nmemb)%Z.

Definition json_quoted (text : list Z) : list Z :=
  [Character.DoubleQuote] ++ text ++ [Character.DoubleQuote].

(** The body of the request. *)
Definition posted_query : list Z :=
  u "{" ++ json_quoted (u "query") ++ u ":" ++ json_quoted (u "{ field }") ++ u "}".

Section http.
Context {F : Type} `{FileSystem F} `{Curl F}.

Definition easy_setopt (option : CurlOption) : M (F * Callbacks) bool :=
  zoom (curl_easy_setopt option).

(** One attempt: nothing where another one follows, or whether it succeeded. *)
Definition attempt_request : M (F * Callbacks) (unit + bool) :=
  curl ← zoom curl_easy_init;
  zoom curl_global_init;;
  if negb (curl : bool) then mret (inl tt) else
  easy_setopt CURLOPT_ERRORBUFFER;;
  code ← easy_setopt (CURLOPT_URL (u "https://localhost:8000"));
  if negb (code : bool) then mret (inr false) else
  easy_setopt CURLOPT_WRITEFUNCTION;;
  easy_setopt CURLOPT_WRITEDATA;;
  easy_setopt (CURLOPT_SSL_VERIFYPEER 0);;
  easy_setopt (CURLOPT_SSL_VERIFYHOST 0);;
  easy_setopt (CURLOPT_VERBOSE 0);;
  easy_setopt (CURLOPT_HTTPHEADER [u "Content-Type: application/json"]);;
  code ← easy_setopt (CURLOPT_POSTFIELDS posted_query);
  if negb (code : bool) then mret (inr false) else
  code ← zoom curl_easy_perform;
  if negb (code : bool) then
    zoom (sleep_for 20);;
    zoom curl_easy_cleanup;;
    zoom curl_global_cleanup;;
    mret (inl tt)
  else
    zoom curl_easy_cleanup;;
    zoom curl_global_cleanup;;
    mret (inr true).

(** The procedure of an HTTP test; the fuel bounds the attempts. *)
Definition http_test (fuel : nat) (t : TestPtr) (success : M (F * Callbacks) unit)
    (error : list Z → M (F * Callbacks) unit) : M (F * Callbacks) unit :=
  sent ← loop fuel (λ _, attempt_request) tt;
  if (sent : bool) then success else mret tt.

Section define.
Context `{StdSort}.
Variable regex_replace : ustring → ustring → ustring → ustring.
Variable regex_search : list Z → list Z → bool.
Variable replace_all_copy : list Z → list Z → list Z → list Z.
Variable any : uninitialised.
Variable attempts : nat.

Definition define_http_test (run_option : RunOption) (test_case : TestCase) :
    M (Suites (F := F)) unit :=
  if negb (accepted_by run_option test_case) then mret tt
  else test (name test_case) (SuccessError (http_test attempts)).

Definition DefineHttpTests (fuel : nat) (run_option : RunOption) : M (Suites (F := F)) unit :=
  domain (u "HTTP");;
  visit_tests_by_path regex_replace regex_search replace_all_copy any
    (define_http_test run_option) fuel (literal_path "src/program") true.
End define.
End http.
