(* ===== verification/TestProgram.v ===== *)
(** * The programs ([test.cpp], [program.cpp])

    The program of the tests reads its command line, and defines and runs the tests
    or accepts what the last run wrote; before running it forks a server.  The
    processes are a parameter. *)
From S2P Require Import Prelude Monad Character Cstring Utils Files TestDefinition TextAnnotater TestCaseScanner.
From S2P Require Import Command Baseline HttpTests HttpServer.

#[local] Arguments u : simpl never.

(** [fork], which returns in both processes, and [kill] with [SIGTERM]. *)
Class Processes (F : Type) := {
  fork : M F Z;
  terminate : Z → M F unit
}.

(** ** The command line *)

(** The description is given before the alias where the type has it behind. *)
Definition commands : list CommandDefinition :=
  [mkCommandDefinition [] (u "default") []
     [mkFlagDefinition (u "test") (u "t") (u "Run specific test") true false [];
      mkFlagDefinition (u "folder") [] (u "Run specific folder") true false [];
      mkFlagDefinition (u "use-external-server") [] (u "Use external server") false false []];
   mkCommandDefinition [] (u "accept") (u "Accept baselines")
     [mkFlagDefinition (u "test") (u "t") (u "Accept specific test") true false [];
      mkFlagDefinition (u "folder") (u "f") (u "Accept specific folder") true false [];
      mkFlagDefinition (u "all") (u "a") (u "Accept all tests") true false []]].

(** [run_option] of the flags: a value that is null is not a string. *)
Definition option_value (flag : list Z) (c : Command) : M Command (list Z) :=
  deref (Command.get_flag_value flag c).

Definition run_option_of : M Command RunOption :=
  c ← get;
  if has_flag (u "test") c then
    value ← option_value (u "test") c;
    mret (mkRunOption (Some value) None)
  else if has_flag (u "folder") c then
    value ← option_value (u "folder") c;
    mret (mkRunOption None (Some value))
  else mret (mkRunOption None None).

(** ** The servers *)

Section server.
Context {W Address : Type} `{Platform W Address} `{Setup W Address} `{FileSystem W}.
(** [uv_run]. *)
Variable uv_run : M (Server W) Z.
Variable start : Z.

(** [main] of [program.cpp]: the server is a local variable. *)
Definition gateway_main : M W Z :=
  listening ← Listen start (u "0.0.0.0") 8000;
  w ← get;
  ended ← local_object (uv_run (listening_server listening w));
  modify (λ _, platform (snd ended));;
  mret (fst ended).

(** [StartServer] of the tests does the same. *)
Definition StartServer (w : W) : outcome W Z := gateway_main w.
End server.

(** ** The tests *)

Section main.
Context {F : Type} `{FileSystem F} `{StdSort} `{Curl F} `{Processes F}.
Variable regex_replace : ustring → ustring → ustring → ustring.
Variable regex_search : list Z → list Z → bool.
Variable split_regex : ustring → ustring → list ustring.
Variable replace_all_copy : list Z → list Z → list Z → list Z.
Variable any : uninitialised.
Variable start : Z.
Variable now : F → Z * F.
Variable wait_fuel : nat.
Variable async_runs : bool.
(** The depth of the folders and the attempts of an HTTP test. *)
Variable depth attempts : nat.
(** What the server of the child process gives, when its loop ends. *)
Context {W : Type}.
Variable server : outcome W Z.

Abbreviation define_graphql :=
  (DefineGraphQlTests regex_replace regex_search split_regex replace_all_copy any start depth).
Abbreviation define_http :=
  (DefineHttpTests regex_replace regex_search replace_all_copy any attempts depth).
Abbreviation run := (Run now wait_fuel async_runs).

(** What is done for a command line that could be read. *)
Definition run_command (command : Command) (run_option : RunOption) : M (Suites (F := F)) Z :=
  if is_command (u "accept") command then
    zoom (AcceptGraphQlTests regex_replace regex_search replace_all_copy any depth run_option);;
    mret 0%Z
  else if has_flag (u "use-external-server") command then
    define_graphql run_option;;
    define_http run_option;;
    run;;
    mret 0%Z
  else
    child_pid ← zoom fork;
    if (child_pid =? -1)%Z then mret 1%Z
    else if (child_pid =? 0)%Z then
      when (negb (has_flag (u "start-server") command)) (local_object server;; mret tt);;
      mret 0%Z
    else
      define_graphql run_option;;
      run;;
      zoom (terminate child_pid);;
      mret 0%Z.

Definition main (argv : list (list Z)) : M (Suites (F := F)) Z :=
  parsed ← local_object (Command_Command commands (new_Command argv));
  let command := snd parsed in
  match Command.errors command with
  | [] =>
      chosen ← local_object (run_option_of command);
      run_command command (fst chosen)
  | _ => mret 1%Z
  end.
End main.
