(* ===== verification/UtilsProperties.v ===== *)
(** * Properties of the string functions

    Replacement against a reference definition, the round trip of splitting and
    joining, and the loops that do not end. *)
From S2P Require Import Prelude Monad Character StdMap Utils.

#[local] Arguments u : simpl never.

(** ** Searching *)

Lemma starts_with_app pattern s : starts_with pattern s = true ↔ ∃ rest, s = pattern ++ rest.
Proof.
  unfold starts_with. rewrite bool_decide_eq_true. split.
  - intros Hp. exists (drop (length pattern) s). rewrite <- Hp at 1. by rewrite take_drop.
  - intros [rest ->]. by rewrite take_app_length.
Qed.

Lemma search_app pattern s i :
  search pattern s = Some i → ∃ before after, s = before ++ pattern ++ after ∧ length before = i.
Proof.
  revert i. induction s as [|c s IH]; intros i; simpl.
  - destruct (starts_with pattern []) eqn:E; [|done]. intros [= <-].
    apply starts_with_app in E as [rest E]. by exists [], rest.
  - destruct (starts_with pattern (c :: s)) eqn:E.
    + intros [= <-]. apply starts_with_app in E as [rest E]. by exists [], rest.
    + destruct (search pattern s) as [j|] eqn:Es; [|done]. intros [= <-].
      destruct (IH j eq_refl) as (before & after & -> & Hl). exists (c :: before), after.
      by rewrite <- Hl.
Qed.

Lemma search_nil s : search [] s = Some 0.
Proof. by destruct s. Qed.

Lemma string_find_drop pattern done_ rest :
  string_find (done_ ++ rest) pattern (length done_) = Nat.add (length done_) <$> search pattern rest.
Proof.
  unfold string_find. destruct (Nat.leb_spec (length done_) (length (done_ ++ rest))).
  - by rewrite drop_app_length.
  - rewrite length_app in *. lia.
Qed.

(** ** Replacing *)

(** The reference: the first place of [from] is replaced, and what follows it. *)
Inductive replaced (from to : list Z) : list Z → list Z → Prop :=
  | replaced_none s : search from s = None → replaced from to s s
  | replaced_first before after r :
      search from (before ++ from ++ after) = Some (length before) →
      replaced from to after r →
      replaced from to (before ++ from ++ after) (before ++ to ++ r).

Lemma replace_all_step {S} fuel from to done_ rest (s : S) :
  from ≠ [] → (length rest < fuel)%nat →
  ∃ r, loop fuel (replace_step from to) (done_ ++ rest, length done_) s = Ok (done_ ++ r) s ∧ replaced from to rest r.
Proof.
  intros Hfrom. revert done_ rest. induction fuel as [|fuel IH]; intros done_ rest Hf; [lia|].
  simpl. rewrite string_find_drop. destruct (search from rest) as [i|] eqn:Hs; simpl.
  - destruct (search_app _ _ _ Hs) as (before & after & Hrest & Hl). subst rest i.
    erewrite run_bind by done.
    assert (Hlen : (length after < fuel)%nat).
    { assert (0 < length from)%nat by (destruct from; [done|simpl; lia]).
      rewrite !length_app in Hf. lia. }
    destruct (IH (done_ ++ before ++ to) after Hlen) as (r & Hrun & Hr).
    exists (before ++ to ++ r). split; [|by constructor].
    rewrite <- !app_assoc in Hrun. rewrite <- Hrun.
    assert (Hreplace : string_replace (done_ ++ before ++ from ++ after)
        (length done_ + length before) (length from) to = done_ ++ before ++ to ++ after).
    { unfold string_replace. rewrite <- length_app, (app_assoc done_ before), take_app_length.
      rewrite <- length_app, (app_assoc _ from), drop_app_length. by rewrite <- !app_assoc. }
    rewrite Hreplace, !length_app, Nat.add_assoc. done.
  - exists rest. erewrite run_bind by done. split; [done|by constructor].
Qed.

(** Replacing a text that is not empty ends, and replaces its places from
    left to right: the replacement is not searched again. *)
Theorem replace_all_replaces {S} str from to (s : S) :
  from ≠ [] → ∃ r, replace_all str from to s = Ok r s ∧ replaced from to str r.
Proof. intros Hfrom. apply (replace_all_step _ _ _ [] str s Hfrom). lia. Qed.

Lemma replace_all_replaces_witness :
  u "a" ≠ [] ∧ ∃ r, replace_all (u "banana") (u "a") (u "aa") tt = Ok r tt ∧
    replaced (u "a") (u "aa") (u "banana") r.
Proof.
  assert (Hne : u "a" ≠ []) by discriminate. split; [exact Hne|].
  exact (replace_all_replaces (u "banana") (u "a") (u "aa") tt Hne).
Defined.

(** An empty text is found again and again. *)
Lemma replace_all_empty_diverges {S} fuel str to (s : S) :
  replace_all_fuel fuel str [] to s = OutOfFuel.
Proof.
  unfold replace_all_fuel.
  assert (Hgen : ∀ done_ rest, loop fuel (replace_step [] to) (done_ ++ rest, length done_) s = OutOfFuel); [|apply (Hgen [] str)].
  induction fuel as [|fuel IH]; intros done_ rest; [done|]. simpl.
  rewrite string_find_drop, search_nil. simpl. erewrite run_bind by done.
  rewrite Nat.add_0_r. unfold string_replace. rewrite take_app_length, Nat.add_0_r, drop_app_length.
  rewrite <- length_app, app_assoc. apply IH.
Qed.

(** ** Splitting and joining *)

Lemma getlines_cons d c s : getlines d (c :: s) ≠ [].
Proof. simpl. destruct (c =? d)%Z; [done|]. by destruct (getlines d s). Qed.

Lemma join_cons d item items :
  items ≠ [] → join_vector (item :: items) [d] = item ++ d :: join_vector items [d].
Proof. by destruct items. Qed.

Lemma join_app d l k :
  l ≠ [] → k ≠ [] → join_vector (l ++ k) [d] = join_vector l [d] ++ [d] ++ join_vector k [d].
Proof.
  induction l as [|item l IH]; [done|]. intros _ Hk. destruct l as [|item' l].
  - change ([item] ++ k) with (item :: k). rewrite join_cons by done. simpl. by rewrite app_nil_r.
  - change ((item :: item' :: l) ++ k) with (item :: ((item' :: l) ++ k)).
    rewrite !join_cons by done. rewrite IH by done. by rewrite <- app_assoc.
Qed.

(** The text without a delimiter at its end. *)
Definition without_last (d : Z) (s : list Z) : list Z :=
  if decide (list.last s = Some d) then removelast s else s.

Lemma join_getlines d s : join_vector (getlines d s) [d] = without_last d s.
Proof.
  unfold without_last. induction s as [|c s IH]; [done|]. destruct s as [|c' s].
  - simpl. destruct (Z.eqb_spec c d) as [->|Hne]; [by rewrite decide_True|].
    rewrite decide_False; [done|]. by intros [= ->].
  - change (list.last (c :: c' :: s)) with (list.last (c' :: s)).
    change (removelast (c :: c' :: s)) with (c :: removelast (c' :: s)).
    pose proof (getlines_cons d c' s) as Hne. cbn [getlines] in IH, Hne |- *.
    destruct (Z.eqb_spec c d) as [->|Hcd].
    + rewrite join_cons by done. rewrite IH. simpl. by destruct (decide _).
    + destruct (if (c' =? d)%Z then _ else _) as [|item items]; [done|].
      transitivity (c :: join_vector (item :: items) [d]); [by destruct items|].
      rewrite IH. by destruct (decide _).
Qed.

Lemma getlines_item d item : d ∉ item → item ≠ [] → getlines d item = [item].
Proof.
  induction item as [|c item IH]; [done|]. intros Hd _.
  apply not_elem_of_cons in Hd as [Hc Hd]. simpl. destruct (Z.eqb_spec c d); [by subst|].
  destruct item as [|c' item]; [done|]. by rewrite (IH Hd).
Qed.

Lemma getlines_app d item rest :
  d ∉ item → getlines d (item ++ d :: rest) = item :: getlines d rest.
Proof.
  induction item as [|c item IH]; intros Hd; simpl.
  - by rewrite Z.eqb_refl.
  - apply not_elem_of_cons in Hd as [Hc Hd]. destruct (Z.eqb_spec c d); [by subst|].
    by rewrite (IH Hd).
Qed.

Lemma split_join d l :
  Forall (λ item, d ∉ item) l → list.last l ≠ Some [] →
  split_string (join_vector l [d]) d = l.
Proof.
  unfold split_string. induction l as [|item l IH]; intros Hall Hlast; [done|].
  apply list.Forall_cons in Hall as [Hitem Hall]. destruct l as [|item' l].
  - simpl. rewrite app_nil_r. apply getlines_item; [done|]. by intros ->.
  - rewrite join_cons, getlines_app by done. f_equal. by apply IH.
Qed.

(** Splitting and joining are inverse, up to a delimiter at the end of a
    text and an empty item at the end of a list, which [std::getline] drops. *)
Theorem split_join_roundtrip d :
  (∀ s, join_vector (split_string s d) [d] = without_last d s) ∧
  (∀ l, Forall (λ item, d ∉ item) l → list.last l ≠ Some [] →
    split_string (join_vector l [d]) d = l).
Proof. split; [exact (join_getlines d)|exact (split_join d)]. Qed.

Lemma split_join_roundtrip_witness :
  join_vector (split_string (u "a,,b,") 44) [44%Z] = u "a,,b" ∧
  split_string (join_vector [u "a"; []; u "b"] [44%Z]) 44 = [u "a"; []; u "b"].
Proof.
  destruct (split_join_roundtrip 44) as [Hjoin Hsplit]. split; [exact (Hjoin _)|].
  apply Hsplit; [by apply (bool_decide_unpack _)|discriminate].
Defined.

(** ** Splitting at a string *)

Lemma string_find_again s pattern pos i :
  string_find s pattern pos = Some i →
  string_find s pattern i = Some i ∧ (i + length pattern ≤ length s)%nat.
Proof.
  unfold string_find. destruct (Nat.leb_spec pos (length s)) as [Hpos|]; [|done].
  destruct (search pattern (drop pos s)) as [j|] eqn:Hs; [|done]. intros [= <-].
  destruct (search_app _ _ _ Hs) as (before & after & Hd & Hl).
  assert (Hlen : (pos + (length before + (length pattern + length after)) = length s)%nat).
  { rewrite <- !length_app, <- Hd, length_drop. lia. }
  split; [|lia]. rewrite (proj2 (Nat.leb_le _ _)) by lia.
  rewrite <- drop_drop, Hd, <- Hl, drop_app_length.
  assert (Hp : search pattern (pattern ++ after) = Some 0).
  { assert (Hst : starts_with pattern (pattern ++ after) = true)
      by (apply starts_with_app; by exists after).
    destruct (pattern ++ after); simpl in *; by rewrite Hst. }
  rewrite Hp. simpl. f_equal. lia.
Qed.

Lemma string_substr_ok {S} s pos n (st : S) :
  (pos ≤ length s)%nat → string_substr s pos n st = Ok (substr pos (Z.to_nat (n mod 2 ^ 64)) s) st.
Proof. intros Hp. unfold string_substr. by rewrite (proj2 (Nat.leb_le _ _) Hp). Qed.

Lemma split_step_ok {S} s delimiter elements prev pos (st : S) :
  (prev ≤ length s)%nat →
  split_step s delimiter (elements, prev, pos) st =
    match string_find s delimiter pos with
    | Some i => Ok (inl (elements ++ [substr prev
        (Z.to_nat ((Z.of_nat i - Z.of_nat prev) mod 2 ^ 64)) s], (i + length delimiter)%nat, i)) st
    | None => Ok (inr (elements ++ [substr prev
        (Z.to_nat ((2 ^ 64 - 1 - Z.of_nat prev) mod 2 ^ 64)) s])) st
    end.
Proof.
  intros Hp. unfold split_step.
  destruct (string_find s delimiter pos); by erewrite run_bind by (by apply string_substr_ok).
Qed.

Lemma split_again {S} fuel s delimiter elements prev pos i (st : S) :
  string_find s delimiter pos = Some i → (prev ≤ length s)%nat →
  loop fuel (split_step s delimiter) (elements, prev, pos) st = OutOfFuel.
Proof.
  revert elements prev pos. induction fuel as [|fuel IH]; intros elements prev pos Hi Hp; [done|].
  destruct (string_find_again _ _ _ _ Hi) as [Hi' Hle]. cbn [loop].
  erewrite run_bind by (rewrite split_step_ok, Hi by done; done). by apply IH.
Qed.

(** Splitting at a string does not end when the string occurs: the search
    starts again at the place it found. *)
Theorem split_string_at_string {S} s delimiter (st : S) :
  (Z.of_nat (length s) < 2 ^ 64)%Z →
  match search delimiter s with
  | Some _ => ∀ fuel, split_string_fuel fuel s delimiter st = OutOfFuel
  | None => ∀ fuel, split_string_fuel (1 + fuel) s delimiter st = Ok [s] st
  end.
Proof.
  intros Hlen. assert (Hfind : string_find s delimiter 0 = search delimiter s).
  { unfold string_find. simpl. rewrite drop_0. by destruct (search delimiter s). }
  destruct (search delimiter s) as [i|]; intros fuel.
  - apply (split_again _ _ _ _ _ _ i); [done|lia].
  - unfold split_string_fuel. cbn [loop Nat.add].
    erewrite run_bind by (rewrite split_step_ok, Hfind by lia; done).
    cbv beta iota. unfold substr. rewrite drop_0, firstn_all2; [done|].
    rewrite Z.mod_small by lia. lia.
Qed.

Lemma split_string_at_string_witness :
  (Z.of_nat (length (u "a, b")) < 2 ^ 64)%Z ∧ search (u ", ") (u "a, b") = Some 1 ∧
  ∀ fuel, split_string_fuel fuel (u "a, b") (u ", ") tt = OutOfFuel.
Proof.
  assert (Hlen : (Z.of_nat (length (u "a, b")) < 2 ^ 64)%Z) by reflexivity.
  split; [exact Hlen|]. split; [reflexivity|].
  exact (split_string_at_string (u "a, b") (u ", ") tt Hlen).
Defined.
