(* ===== verification/FilesProperties.v ===== *)
(** * Properties of files

    Texts written to a file and read again, what the file system promises
    ([LawfulFileSystem]), and a file system in memory that keeps the promises. *)
From S2P Require Import Prelude Monad Character Cstring Utils Files.

#[local] Arguments u : simpl never.

(** ** UTF-8 *)

Definition code_point (c : char32) : Prop := (0 <= c < 0x200000)%Z.

(** Setting bits above those of a number adds. *)
Lemma lor_add a q n :
  (0 <= n)%Z → (0 <= q < 2 ^ n)%Z → (a mod 2 ^ n = 0)%Z → Z.lor a q = (a + q)%Z.
Proof.
  intros Hn Hq Ha. rewrite <- Z.add_lor_land.
  assert (E : Z.land a q = 0%Z); [|lia].
  rewrite <- (Z.mod_small q (2 ^ n)) by done. rewrite <- Z.land_ones by done.
  rewrite (Z.land_comm q), Z.land_assoc, Z.land_ones, Ha by done. by rewrite Z.land_0_l.
Qed.

Lemma low_bits c : Z.land c 0x3f = (c mod 64)%Z.
Proof. exact (Z.land_ones c 6 ltac:(lia)). Qed.

Lemma utf8_char_bytes c :
  code_point c →
  utf8_char c =
    (if c <? 0x80 then [c]
     else if c <? 0x800 then [0xc0 + c / 64; 0x80 + c mod 64]
     else if c <? 0x10000 then [0xe0 + c / 64 / 64; 0x80 + (c / 64) mod 64; 0x80 + c mod 64]
     else [0xf0 + c / 64 / 64 / 64; 0x80 + (c / 64 / 64) mod 64; 0x80 + (c / 64) mod 64;
           0x80 + c mod 64])%Z.
Proof.
  intros Hc. unfold utf8_char, code_point in *.
  assert (E6 : Z.shiftr c 6 = (c / 64)%Z) by (by rewrite Z.shiftr_div_pow2).
  assert (E12 : Z.shiftr c 12 = (c / 64 / 64)%Z) by (rewrite Z.shiftr_div_pow2, Z.div_div by lia; done).
  assert (E18 : Z.shiftr c 18 = (c / 64 / 64 / 64)%Z)
    by (rewrite Z.shiftr_div_pow2, !Z.div_div by lia; done).
  rewrite E6, E12, E18, !low_bits.
  assert (H80 : ∀ x, Z.lor 0x80 (x mod 64) = (0x80 + x mod 64)%Z).
  { intros x. apply (lor_add _ _ 6%Z); [lia| |done]. apply Z.mod_pos_bound. lia. }
  rewrite !H80.
  destruct (Z.ltb_spec c 0x80); [done|]. destruct (Z.ltb_spec c 0x800).
  { rewrite (lor_add 0xc0%Z _ 5%Z); [done|lia| |done]. change (2 ^ 5)%Z with 32%Z. Z.to_euclidean_division_equations. lia. }
  destruct (Z.ltb_spec c 0x10000).
  { rewrite (lor_add 0xe0%Z _ 4%Z); [done|lia| |done]. change (2 ^ 4)%Z with 16%Z. Z.to_euclidean_division_equations. lia. }
  rewrite (lor_add 0xf0%Z _ 3%Z); [done|lia| |done]. change (2 ^ 3)%Z with 8%Z. Z.to_euclidean_division_equations. lia.
Qed.

Lemma continuation_byte x : continuation (0x80 + x mod 64)%Z = true.
Proof.
  unfold continuation. pose proof (Z.mod_pos_bound x 64).
  rewrite (proj2 (Z.leb_le _ _)), (proj2 (Z.ltb_lt _ _)) by lia. done.
Qed.

Lemma utf8_decode_char c s :
  code_point c → utf8_decode (utf8_char c ++ s) = cons c <$> utf8_decode s.
Proof.
  intros Hc. rewrite utf8_char_bytes by done. unfold code_point in Hc.
  assert (Hd : ∀ x, x = (64 * (x / 64) + x mod 64)%Z) by (intros; apply Z.div_mod; lia).
  assert (Hbit : ∀ b k, (b + k - b = k)%Z) by lia.
  destruct (Z.ltb_spec c 0x80); [cbn [app utf8_decode]; by rewrite (proj2 (Z.ltb_lt _ _))|].
  assert (Hif : ∀ a l h, (l <= a < h)%Z → ((l <=? a) && (a <? h))%Z = true).
  { intros a l h Ha. rewrite andb_true_iff, Z.leb_le, Z.ltb_lt. lia. }
  assert (Hno : ∀ a l h, (h <= a)%Z → ((l <=? a) && (a <? h))%Z = false).
  { intros a l h Ha. rewrite andb_false_iff, Z.ltb_ge. by right. }
  destruct (Z.ltb_spec c 0x800); [|destruct (Z.ltb_spec c 0x10000)]; cbn [app utf8_decode];
    rewrite !continuation_byte; cbn [andb].
  - rewrite (proj2 (Z.ltb_ge _ _)) by (Z.to_euclidean_division_equations; lia).
    rewrite (Hif _ 0xc0%Z 0xe0%Z) by (Z.to_euclidean_division_equations; lia).
    do 2 f_equal. rewrite !Hbit. pose proof (Hd c). lia.
  - rewrite (proj2 (Z.ltb_ge _ _)) by (Z.to_euclidean_division_equations; lia).
    rewrite (Hno _ 0xc0%Z 0xe0%Z) by (Z.to_euclidean_division_equations; lia).
    rewrite (Hif _ 0xe0%Z 0xf0%Z) by (Z.to_euclidean_division_equations; lia).
    do 2 f_equal. rewrite !Hbit. pose proof (Hd c). pose proof (Hd (c / 64)%Z). lia.
  - rewrite (proj2 (Z.ltb_ge _ _)) by (Z.to_euclidean_division_equations; lia).
    rewrite (Hno _ 0xc0%Z 0xe0%Z) by (Z.to_euclidean_division_equations; lia).
    rewrite (Hno _ 0xe0%Z 0xf0%Z) by (Z.to_euclidean_division_equations; lia).
    rewrite (Hif _ 0xf0%Z 0xf8%Z) by (Z.to_euclidean_division_equations; lia).
    do 2 f_equal. rewrite !Hbit. pose proof (Hd c). pose proof (Hd (c / 64)%Z).
    pose proof (Hd (c / 64 / 64)%Z). lia.
Qed.

(** The text of a file is that which was written. *)
Lemma utf8_decode_raw s : Forall code_point s → utf8_decode (raw s) = Some s.
Proof.
  induction 1 as [|c s Hc Hs IH]; [done|]. cbn [raw flat_map].
  change (flat_map utf8_char s) with (raw s). by rewrite utf8_decode_char, IH.
Qed.

(** A NUL ends a C string. *)
Lemma c_string_no_nul bytes : Forall (λ b, b ≠ 0%Z) bytes → c_string bytes = bytes.
Proof.
  unfold c_string, c_str. induction 1 as [|b bytes Hb _ IH]; [done|]. cbn [take_while].
  rewrite (proj2 (Z.eqb_neq 0 b)) by congruence. cbn [negb]. by rewrite IH.
Qed.

Lemma raw_no_nul s : Forall (λ c, code_point c ∧ c ≠ 0%Z) s → Forall (λ b, b ≠ 0%Z) (raw s).
Proof.
  intros Hs. apply Forall_flat_map. apply (list.Forall_impl _ _ _ Hs). intros c [Hc Hne].
  rewrite utf8_char_bytes by done. unfold code_point in Hc.
  repeat case_match; repeat constructor; try done; Z.to_euclidean_division_equations; lia.
Qed.

(** ** What the file system promises *)

(** The name of a file in a folder. *)
Definition plain_name (n : list Z) : Prop :=
  n ≠ [] ∧ n ≠ u "." ∧ n ≠ u ".." ∧ Character.Slash ∉ n.

Class LawfulFileSystem (F : Type) `{FileSystem F} := {
  file_at : F → path → option (list Z);
  folder_at : F → path → bool;
  (* a file and a folder at one path do not both exist *)
  file_no_folder : ∀ f p, file_at f p ≠ None → folder_at f p = false;
  exists_spec : ∀ f p,
    exists_ p f = Ok (folder_at f p || match file_at f p with Some _ => true | None => false end) f;
  stream_content_spec : ∀ f p, folder_at f p = false → stream_content p f = Ok (file_at f p) f;
  (* a file in a folder that exists can be written *)
  stream_write_spec : ∀ f d n content,
    folder_at f d = true → plain_name n → folder_at f (d / path_of n)%path = false →
    ∃ f', stream_write (d / path_of n)%path content f = Ok tt f' ∧
      file_at f' (d / path_of n)%path = Some content ∧
      (∀ q, q ≠ (d / path_of n)%path → file_at f' q = file_at f q) ∧
      (∀ q, folder_at f' q = folder_at f q);
  remove_spec : ∀ f p, file_at f p ≠ None →
    ∃ f', remove p f = Ok tt f' ∧ file_at f' p = None ∧
      (∀ q, q ≠ p → file_at f' q = file_at f q) ∧ (∀ q, folder_at f' q = folder_at f q);
  (* creating a folder that is no file and in no file creates nothing in it *)
  creatable : F → path → Prop;
  create_directories_spec : ∀ f d, creatable f d →
    ∃ f', create_directories d f = Ok tt f' ∧ folder_at f' d = true ∧
      (∀ q, file_at f' q = file_at f q) ∧
      (∀ q, folder_at f q = true → folder_at f' q = true) ∧
      (∀ n, plain_name n → folder_at f' (d / path_of n)%path = folder_at f (d / path_of n)%path)
}.

Section lawful.
Context {F : Type} `{LawfulFileSystem F}.

Lemma write_file_spec f d n content :
  folder_at f d = true → plain_name n → folder_at f (d / path_of n)%path = false →
  ∃ f', write_file (d / path_of n)%path content f = Ok tt f' ∧
    file_at f' (d / path_of n)%path = Some (c_string content) ∧
    (∀ q, q ≠ (d / path_of n)%path → file_at f' q = file_at f q) ∧
    (∀ q, folder_at f' q = folder_at f q).
Proof. intros. by apply stream_write_spec. Qed.

Lemma read_file_spec f p content :
  folder_at f p = false → file_at f p = Some content → read_file p f = Ok content f.
Proof.
  intros Hp Hc. unfold read_file. erewrite run_bind by (by apply stream_content_spec).
  by rewrite Hc.
Qed.

Lemma read_ustring_spec f p s :
  folder_at f p = false → file_at f p = Some (raw s) →
  Forall (λ c, code_point c ∧ c ≠ 0%Z) s → read_ustring p f = Ok s f.
Proof.
  intros Hp Hc Hs. unfold read_ustring. erewrite run_bind by (by apply read_file_spec).
  rewrite c_string_no_nul, utf8_decode_raw; [done| |by apply raw_no_nul].
  apply (list.Forall_impl _ _ _ Hs). by intros c [Hc' _].
Qed.

(** A text without NUL that is written to a file of a folder is read back as it
    was, whatever its characters are; nothing else changes. *)
Theorem written_text_read f d n s :
  folder_at f d = true → plain_name n → folder_at f (d / path_of n)%path = false →
  Forall (λ c, code_point c ∧ c ≠ 0%Z) s →
  ∃ f', write_file (d / path_of n)%path (raw s) f = Ok tt f' ∧
    read_ustring (d / path_of n)%path f' = Ok s f' ∧
    ∀ q, q ≠ (d / path_of n)%path → file_at f' q = file_at f q.
Proof.
  intros Hd Hn Hp Hs. destruct (write_file_spec f d n (raw s) Hd Hn Hp) as (f' & Hw & Hc & Hq & Hf).
  exists f'. split; [done|]. split; [|done]. apply read_ustring_spec; [by rewrite Hf| |done].
  by rewrite Hc, c_string_no_nul by (by apply raw_no_nul).
Qed.
End lawful.
