(* ===== verification/MemoryFiles.v ===== *)
(** * A file system in memory, and Boost's text functions

    Folders and files by their canonical paths: an instance of [FileSystem] that
    keeps the promises of [LawfulFileSystem], for the examples of the
    development.  The library's text functions are parameters of the definitions as
    well; the functions at the end agree with them on the patterns of the program. *)
From stdpp Require Import gmap.
From S2P Require Import Prelude Monad Character Cstring StdMap Utils Files FilesProperties.

#[local] Arguments u : simpl never.

(** ** Paths *)

(** Paths are strings; an absolute path is appended as Boost does. *)
Definition append_path (p q : list Z) : list Z :=
  match q with
  | c :: _ => if (c =? Character.Slash)%Z then p ++ q else p ++ Character.Slash :: q
  | [] => p ++ [Character.Slash]
  end.

Definition last_name (p : list Z) : list Z :=
  match find_last_of Character.Slash p with
  | Some i => drop (S i) p
  | None => p
  end.

#[export] Instance string_paths : Paths := {|
  path := list Z;
  path_of := λ s, s;
  path_string := λ p, p;
  path_div := append_path;
  path_filename := last_name
|}.

(** Without [.] and [..]. *)
Definition resolve_name (done_ : list (list Z)) (name : list Z) : list (list Z) :=
  if decide (name = [] ∨ name = u ".") then done_
  else if decide (name = u "..") then removelast done_
  else done_ ++ [name].

Definition canonical (p : list Z) : list Z :=
  flat_map (λ name, Character.Slash :: name)
    (fold_left resolve_name (split_string p Character.Slash) []).

(** ** Files *)

(** Nothing is a folder. *)
Abbreviation memory := (gmap (list Z) (option (list Z))).

Definition folder_in (f : memory) (p : list Z) : bool := bool_decide (f !! p = Some None).

Definition file_in (f : memory) (p : list Z) : option (list Z) := mjoin (f !! p).

Definition entries (f : memory) (p : list Z) : list (list Z) :=
  base.filter (λ q, folder_path q = p ∧ q ≠ p) (map_to_list f).*1.

Definition write_in (p content : list Z) (f : memory) : memory :=
  if folder_in f (folder_path p) && negb (folder_in f p) then <[p := Some content]> f else f.

Section operations.
(** Where the program is. *)
Context (program : list Z).

Definition memory_mkdir (p : list Z) : M memory unit := λ f,
  match f !! p with
  | Some (Some _) => Throw filesystem_error f
  | _ => Ok tt (<[p := None]> f)
  end.

Definition memory_create (p : list Z) : M memory bool := λ f,
  if decide (is_Some (f !! p)) then Ok false f else Ok true (<[p := None]> f).

Definition memory_remove_all (p : list Z) : M memory unit := λ f,
  Ok tt (base.filter (λ '(q, _), q ≠ p ∧ ¬ starts_with (p ++ [Character.Slash]) q = true) f).

Definition memory_copy (p q : list Z) : M memory unit := λ f,
  match f !! p with
  | Some (Some content) => Ok tt (write_in q content f)
  | _ => Throw filesystem_error f
  end.

Definition memory_exists_at (p : list Z) : M memory bool :=
  gets (λ f, bool_decide (is_Some (f !! p))).

#[export] Instance memory_files : @FileSystem memory string_paths := {|
  exists_ := memory_exists_at;
  is_directory p := gets (λ f, folder_in f p);
  create_directory := memory_create;
  create_directories := memory_mkdir;
  remove p := modify (delete (M := memory) (p : list Z));
  remove_all := memory_remove_all;
  copy_file := memory_copy;
  directory_entries p := gets (λ f, entries f p);
  weakly_canonical p := mret (canonical p);
  program_location := mret program;
  stream_content p := gets (λ f, file_in f p);
  stream_write p content := modify (write_in p content);
  glob_names pattern := gets (λ f, map last_name (entries f (folder_path pattern)));
  popen command := mret (Some (u "differs"))
|}.

Lemma find_last_of_none c s : c ∉ s → find_last_of c s = None.
Proof.
  induction s as [|x s IH]; [done|]. rewrite elem_of_cons. intros Hc. simpl.
  rewrite IH, (proj2 (Z.eqb_neq x c)); [done|intros ->; tauto|tauto].
Qed.

Lemma find_last_of_app c s t : c ∉ t → find_last_of c (s ++ c :: t) = Some (length s).
Proof.
  intros Ht. induction s as [|x s IH]; simpl; [by rewrite find_last_of_none, Z.eqb_refl|by rewrite IH].
Qed.

Lemma append_plain d n : plain_name n → append_path d n = d ++ Character.Slash :: n.
Proof.
  intros (Hn & _ & _ & Hs). destruct n as [|c n]; [done|]. simpl.
  rewrite (proj2 (Z.eqb_neq c Character.Slash)); [done|intros ->; apply Hs; by left].
Qed.

Lemma folder_path_plain d n : plain_name n → folder_path (append_path d n) = d.
Proof.
  intros Hn. rewrite append_plain by done. unfold folder_path.
  rewrite find_last_of_app by apply Hn. by rewrite take_app_length.
Qed.

Lemma append_plain_ne d n : plain_name n → append_path d n ≠ d.
Proof.
  intros Hn E. rewrite append_plain in E by done. apply (f_equal length) in E.
  rewrite length_app in E. simpl in E. lia.
Qed.

Lemma memory_exists (x : option (option (list Z))) :
  bool_decide (is_Some x) =
    bool_decide (x = Some None) || match mjoin x with Some _ => true | None => false end.
Proof. by destruct x as [[content|]|]. Qed.

Lemma memory_writes (f : memory) (d n content : list Z) :
  folder_in f d = true → plain_name n → folder_in f (append_path d n) = false →
  ∃ f', modify (write_in (append_path d n) content) f = Ok tt f' ∧
    file_in f' (append_path d n) = Some content ∧
    (∀ q, q ≠ append_path d n → file_in f' q = file_in f q) ∧
    (∀ q, folder_in f' q = folder_in f q).
Proof.
  intros Hd Hn Hno. exists (<[append_path d n := Some content]> f).
  unfold modify, write_in. rewrite folder_path_plain, Hd, Hno by done. split; [done|].
  unfold file_in. split; [by rewrite lookup_insert_eq|].
  split; [intros q Hq; by rewrite lookup_insert_ne|].
  intros q. unfold folder_in in *. destruct (decide (q = append_path d n)) as [->|Hq];
    [by rewrite lookup_insert_eq, Hno|by rewrite lookup_insert_ne].
Qed.

Lemma memory_removes (f : memory) (p : list Z) :
  file_in f p ≠ None →
  ∃ f', modify (delete p) f = Ok tt f' ∧ file_in f' p = None ∧
    (∀ q, q ≠ p → file_in f' q = file_in f q) ∧ (∀ q, folder_in f' q = folder_in f q).
Proof.
  unfold file_in. intros Hp. exists (delete p f). split; [done|].
  split; [by rewrite lookup_delete_eq|]. split; [intros q Hq; by rewrite lookup_delete_ne|].
  intros q. unfold folder_in. destruct (decide (q = p)) as [->|Hq]; [|by rewrite lookup_delete_ne].
  rewrite lookup_delete_eq. symmetry. apply bool_decide_false. intros E. by rewrite E in Hp.
Qed.

Definition memory_creatable (f : memory) (d : list Z) : Prop :=
  ∀ content, f !! d ≠ Some (Some content).

Lemma memory_creates (f : memory) (d : list Z) :
  memory_creatable f d →
  ∃ f', memory_mkdir d f = Ok tt f' ∧ folder_in f' d = true ∧
    (∀ q, file_in f' q = file_in f q) ∧ (∀ q, folder_in f q = true → folder_in f' q = true) ∧
    (∀ n, plain_name n → folder_in f' (append_path d n) = folder_in f (append_path d n)).
Proof.
  intros Hd. exists (<[d := None]> f). unfold memory_mkdir, folder_in, file_in.
  assert (Hfile : mjoin (f !! d) = None)
    by (destruct (f !! d) as [[content|]|] eqn:E; [by destruct (Hd content)|done..]).
  split; [by destruct (f !! d) as [[content|]|] eqn:E; [destruct (Hd content)|..]|].
  split; [by rewrite lookup_insert_eq|]. split; [|split].
  - intros q. destruct (decide (q = d)) as [->|Hq]; [by rewrite lookup_insert_eq, Hfile|by rewrite lookup_insert_ne].
  - intros q. destruct (decide (q = d)) as [->|Hq]; [by rewrite lookup_insert_eq|by rewrite lookup_insert_ne].
  - intros n Hn. rewrite lookup_insert_ne; [done|]. intros E. by apply (append_plain_ne d n Hn).
Qed.

Lemma memory_file_no_folder (f : memory) (p : list Z) : file_in f p ≠ None → folder_in f p = false.
Proof.
  unfold file_in, folder_in. intros Hp. apply bool_decide_false. intros E. by rewrite E in Hp.
Qed.

#[export] Instance memory_lawful : @LawfulFileSystem memory string_paths memory_files.
Proof.
  refine {| file_at := file_in; folder_at := folder_in; creatable := memory_creatable |}.
  - exact memory_file_no_folder.
  - intros f p. simpl. unfold memory_exists_at, gets. f_equal. apply memory_exists.
  - done.
  - exact memory_writes.
  - exact memory_removes.
  - exact memory_creates.
Defined.
End operations.

(** ** Boost's text functions, where the examples use them *)

(** The parts of a text between the places of a pattern that is not empty. *)
Fixpoint split_text (fuel : nat) (s pattern : list Z) : list (list Z) :=
  match fuel with
  | O => [s]
  | S fuel' =>
      match search pattern s with
      | Some i => take i s :: split_text fuel' (drop (i + length pattern) s) pattern
      | None => [s]
      end
  end.

Definition split_all (s pattern : list Z) : list (list Z) := split_text (length s) s pattern.

Definition replace_copy (s pattern replacement : list Z) : list Z :=
  join_vector (split_all s pattern) replacement.

(** The regular expressions of the program, with a name in braces or a literal. *)
Definition literal_of (pattern : list Z) : list Z := base.filter (λ c, c ≠ Character.Backslash) pattern.

Definition replace_literal (s pattern replacement : list Z) : list Z :=
  replace_copy s (literal_of pattern) replacement.

Definition has_braces (s pattern : list Z) : bool :=
  bool_decide (Character.OpenBrace ∈ s) && bool_decide (Character.CloseBrace ∈ s).

(** *** The patterns of the generator of the diagnostics *)

(** A run of characters of [f] becomes one [by_]. *)
Fixpoint collapse (f : Z → bool) (by_ : Z) (inside : bool) (s : list Z) : list Z :=
  match s with
  | [] => []
  | c :: s' =>
      if f c then if inside then collapse f by_ true s' else by_ :: collapse f by_ true s'
      else c :: collapse f by_ false s'
  end.

Fixpoint drop_while (f : Z → bool) (s : list Z) : list Z :=
  match s with
  | c :: s' => if f c then drop_while f s' else s
  | [] => []
  end.

(** [{(\d+)}] is replaced by the digits. *)
Fixpoint unbrace (fuel : nat) (s : list Z) : list Z :=
  match fuel, s with
  | S fuel', c :: s' =>
      let digits := take_while isdigit s' in
      if ((c =? Character.OpenBrace)%Z && negb (bool_decide (digits = []))
          && bool_decide (s' !! length digits = Some Character.CloseBrace))%bool
      then digits ++ unbrace fuel' (drop (S (length digits)) s')
      else c :: unbrace fuel' s'
  | _, _ => s
  end.

(** The rest of a line from [//] on is dropped. *)
Fixpoint without_comments (fuel : nat) (s : list Z) : list Z :=
  match fuel, s with
  | S fuel', c :: s' =>
      if starts_with (u "//") s then
        without_comments fuel' (drop_while (λ c, negb (c =? Character.NewLine)%Z) s)
      else c :: without_comments fuel' s'
  | _, _ => s
  end.

Definition underscore (c : Z) : bool := (c =? Character.Underscore)%Z.

Definition strip (f : Z → bool) (s : list Z) : list Z :=
  rev (drop_while f (rev (drop_while f s))).

Definition removed_characters : list Z := u "'|?:,.()" ++ [Character.DoubleQuote].

Definition regex_replace_bytes (s pattern format : list Z) : list Z :=
  if decide (pattern = u "\s+") then collapse isspace Character.Underscore false s
  else if decide (pattern = u "_+") then collapse underscore Character.Underscore false s
  else if decide (pattern = u "^_+|_+$") then strip underscore s
  else if decide (pattern = u "{(\d+)}") then unbrace (length s) s
  else if starts_with (u "['|") pattern then base.filter (λ c, c ∉ removed_characters) s
  else if starts_with (u "//") pattern then without_comments (length s) s
  else if starts_with (u "{{") pattern then replace_copy s pattern format
  else flat_map (λ c, if (c =? Character.DoubleQuote)%Z
    then [Character.Backslash; Character.DoubleQuote] else [c]) s.

(** The strings of a JSON text without escape sequences, in their order: the keys of
    an object of empty objects. *)
Definition json_object_keys (json : list Z) : list (list Z) :=
  let parts := split_string json Character.DoubleQuote in
  let strings := omap (λ '(i, part), if Nat.odd i then Some part else None) (imap pair parts) in
  keys (fold_left (λ m k, emplace k tt m) strings []).
