(* ===== verification/DiagnosticsGeneratorProperties.v ===== *)
(** * Properties of the generator of the diagnostics

    What is written for the keys of the JSON file, and what is not when two of them
    have the same name; and that the tables of the program are those the generator
    makes of its JSON files. *)
From stdpp Require Import gmap.
From S2P Require Import Prelude Monad Character Cstring StdMap Diagnostic Utils Files FilesProperties MemoryFiles.
From S2P Require Import DiagnosticsGenerator TestCaseScanner.

#[local] Arguments u : simpl never.

Section generator.
Context {F : Type} `{LawfulFileSystem F}.
Context (regex_replace : list Z → list Z → list Z → list Z) (json_keys : list Z → list (list Z)).

Abbreviation formatted := (format_diagnostic_key regex_replace).
Abbreviation replace_name := (replace_name regex_replace).

(** ** The texts *)

Definition header_text (file namespace : list Z) (ks : list (list Z)) : list Z :=
  replace_name (replace_name start_wrap_header_template (u "header_guard") (file ++ u "_H"))
    (u "namespace") namespace
  ++ flat_map (λ k, header_member (formatted k)) ks
  ++ replace_name end_wrap_header_template (u "header_guard") (file ++ u "_H").

Definition source_text (file namespace : list Z) (ks : list (list Z)) : list Z :=
  replace_name (replace_name start_wrap_source_template (u "header_file") (file ++ u ".h"))
    (u "namespace") namespace
  ++ flat_map (λ k, source_member regex_replace (formatted k) k) ks
  ++ replace_name end_wrap_source_template (u "namespace") namespace.

(** ** The loop *)

Lemma is_unique_run key (s : Generator (F := F)) :
  is_unique key s = Ok (bool_decide (key ∉ keys s)) s.
Proof.
  unfold is_unique, gets. f_equal. apply eq_true_iff_eq.
  rewrite negb_true_iff, bool_decide_eq_true, <- not_true_iff_false, existsb_exists.
  apply not_iff_compat. split.
  - intros (k & Hk & Heq%bool_decide_eq_true). subst. by apply list_elem_of_In.
  - intros Hk. exists key. rewrite bool_decide_eq_true. split; [by apply list_elem_of_In|done].
Qed.

Lemma generate_members_run ks header source f pre :
  NoDup pre →
  let r := fold_each ks (generate_member regex_replace) (header, source) (mkGenerator (F := F) f pre) in
  if decide (NoDup (pre ++ map formatted ks))
  then r = Ok (header ++ flat_map (λ k, header_member (formatted k)) ks,
      source ++ flat_map (λ k, source_member regex_replace (formatted k) k) ks)
      (mkGenerator f (pre ++ map formatted ks))
  else ∃ what seen, r = Throw (std_invalid_argument what) (mkGenerator f seen).
Proof.
  revert header source pre. induction ks as [|k ks IH]; intros header source pre Hpre; cbv zeta.
  { cbn [map flat_map iter_acc]. by rewrite !app_nil_r, decide_True. }
  cbn [iter_acc map flat_map].
  destruct (decide (formatted k ∈ pre)) as [Hin|Hnew].
  - rewrite decide_False.
    + eexists _, _. apply run_bind_throw. unfold generate_member. erewrite run_bind by apply is_unique_run.
      cbn [keys]. by rewrite bool_decide_eq_false_2 by tauto.
    + intros (_ & Hd & _)%list.NoDup_app. apply (Hd _ Hin). by left.
  - assert (Hpre' : NoDup (pre ++ [formatted k])).
    { apply list.NoDup_app. split; [done|]. split; [|apply list.NoDup_singleton].
      intros x Hx ->%list_elem_of_singleton. done. }
    specialize (IH (header ++ header_member (formatted k))
      (source ++ source_member regex_replace (formatted k) k) _ Hpre').
    cbv zeta in IH. rewrite <- !app_assoc in IH. cbn [app] in IH.
    erewrite run_bind; [exact IH|]. unfold generate_member. erewrite run_bind by apply is_unique_run.
    cbn [keys]. by rewrite bool_decide_eq_true_2.
Qed.

(** ** The files *)

Context (root : path).
(** Where the repository is does not change. *)
Hypothesis root_known : ∀ f, root_dir f = Ok root f.

Context (folder : path) (file namespace : list Z).

Abbreviation generated extension := (generated_path root folder file (u extension)).

(** The folder of the JSON file can be written to. *)
Record generates (f : F) (json : list Z) : Prop := {
  generates_folder : folder_at f (root / folder)%path = true;
  generates_names : Forall (λ extension, plain_name (file ++ extension)) [u ".h"; u ".cpp"];
  generates_json : file_at f (generated ".json") = Some json;
  generates_header : folder_at f (generated ".h") = false;
  generates_source : folder_at f (generated ".cpp") = false;
  generates_apart : generated ".h" ≠ generated ".cpp"
}.

(** C40: generating diagnostics ends.  Where the keys of the JSON file have different
    names, the header declares and the source defines a template for each key, in
    their order, and no other file changes; otherwise [std::invalid_argument] is
    thrown and no file is written. *)
Theorem generate_diagnostic_verdict f json :
  generates f json →
  let ks := json_keys (c_string (remove_comments regex_replace (c_string json))) in
  let r := generate_diagnostic regex_replace json_keys folder file namespace (mkGenerator f []) in
  if decide (NoDup (map formatted ks))
  then ∃ f', r = Ok tt (mkGenerator f' []) ∧
    file_at f' (generated ".h") = Some (c_string (header_text file namespace ks)) ∧
    file_at f' (generated ".cpp") = Some (c_string (source_text file namespace ks)) ∧
    ∀ q, q ≠ generated ".h" → q ≠ generated ".cpp" → file_at f' q = file_at f q
  else ∃ what seen, r = Throw (std_invalid_argument what) (mkGenerator f seen).
Proof.
  intros [Hfolder Hnames Hjson Hh Hc Hne] ks. apply list.Forall_cons in Hnames as [Hnh Hnc].
  apply list.Forall_cons in Hnc as [Hnc _]. cbv zeta. unfold generate_diagnostic.
  assert (Hroot : ∀ s : Generator (F := F), zoom root_dir s = Ok root s).
  { intros [g l]. exact (run_zoom _ (mkGenerator g l) _ _ (root_known g)). }
  assert (Hno : folder_at f (generated ".json") = false) by (apply file_no_folder; by rewrite Hjson).
  erewrite run_bind by apply Hroot. erewrite run_bind by (apply run_zoom; by apply read_file_spec).
  cbv zeta. fold ks. cbn [put_sub files_of_generator keys].
  pose proof (generate_members_run ks
    (replace_name (replace_name start_wrap_header_template (u "header_guard") (file ++ u "_H"))
      (u "namespace") namespace)
    (replace_name (replace_name start_wrap_source_template (u "header_file") (file ++ u ".h"))
      (u "namespace") namespace) f [] ltac:(constructor)) as Hrun. cbv zeta in Hrun.
  cbn [app] in Hrun. case_decide.
  - destruct (write_file_spec f _ _ (header_text file namespace ks) Hfolder Hnh Hh)
      as (f1 & Hw1 & Hc1 & Hq1 & Hd1).
    destruct (write_file_spec f1 (root / folder)%path _ (source_text file namespace ks)
      ltac:(by rewrite Hd1) Hnc ltac:(by rewrite Hd1)) as (f2 & Hw2 & Hc2 & Hq2 & Hd2).
    exists f2. split_and!; [|by rewrite Hq2|done|intros q Hqh Hqc; by rewrite Hq2, Hq1].
    erewrite run_bind by exact Hrun. cbn [fst snd]. rewrite <- !app_assoc.
    erewrite run_bind by apply Hroot. erewrite run_bind by (apply run_zoom; exact Hw1).
    erewrite run_bind by apply Hroot. erewrite run_bind by (apply run_zoom; exact Hw2). done.
  - destruct Hrun as (what & seen & Hrun). exists what, seen. by erewrite run_bind_throw by exact Hrun.
Qed.
End generator.

(** ** The JSON files *)

Fixpoint json_members (ks : list (list Z)) : list Z :=
  match ks with
  | [] => []
  | [k] => text_line (u "  " ++ in_quotes k ++ u ": {}")
  | k :: ks => text_line (u "  " ++ in_quotes k ++ u ": {},") ++ json_members ks
  end.

Definition json_object (ks : list (list Z)) : list Z :=
  text_line (u "{") ++ json_members ks ++ text_line (u "}").

Definition graphql_keys : list (list Z) := [
  u "Expected '{0}', but got '{1}'.";
  u "Expected operation definition or fragment definition.";
  u "Expected field, inline fragment or fragment spread.";
  u "Unexpected end of implementations.";
  u "Expected name of object";
  u "Expected name of interface.";
  u "Expected at least a field, inline fragment or fragment spread.";
  u "Expected field definition.";
  u "Field '{0}' does not exist on type '{1}'.";
  u "Expected type annotation, instead got '{0}'.";
  u "Expected type definition.";
  u "Expected object field name.";
  u "Type '{0}' is not defined.";
  u "Duplicate type '{0}'.";
  u "Expected type name, instead got '{0}'.";
  u "Expected name of argument.";
  u "Cannot add an (output) type to an input location.";
  u "Cannot add an input type to an output location.";
  u "Interface '{0}' is not defined.";
  u "The field '{0}' in interface '{1}' is not implemented.";
  u "Type '{0}' does not match type '{1}' from the interface '{2}'.";
  u "The type '{0}' is not an object.";
  u "Type conditions are only applicable inside object, interfaces and unions.";
  u "The object '{0}' does not match the object '{1}'.";
  u "The object '{0}' does not implement the interface '{1}'.";
  u "Expected '{0}', but instead reached the end of document.";
  u "Only objects are allowed as members in a union.";
  u "Expected fragment spread or inline fragment.";
  u "The type '{0}' is not member of the union '{1}'.";
  u "Fragment '{0}' is not defined.";
  u "Duplicate fragment '{0}'.";
  u "A schema definition can only contain 'query', 'mutation' and 'subscription' fields.";
  u "Duplicate field '{0}'.";
  u "No query root operation type defined.";
  u "Unknown argument '{0}'.";
  u "Duplicate argument '{0}'.";
  u "The value '{0}' is not assignable to type '{1}'.";
  u "Type '{0}' is not assignable to type '{1}'.";
  u "Missing required field '{0}'.";
  u "Expected value, instead got '{0}'.";
  u "Expected enum value, but instead got '{0}'.";
  u "Undefined enum value '{0}'.";
  u "Unterminated string value.";
  u "Invalid Unicode escape sequence.";
  u "Expected directive location.";
  u "Expected directive location, but instead reached the end of document.";
  u "Expected name, but instead got '{0}'.";
  u "Undefined directive '{0}'.";
  u "The directive '{0}' does not support the location '{1}'.";
  u "Mutations are not supported.";
  u "Subscriptions are not supported.";
  u "Directive cannot reference itself.";
  u "Cannot annotate with a type that recursively references the directive '{0}'.";
  u "Missing required argument '{0}'.";
  u "Cannot select fields on a scalar field '{0}'."
].

Definition test_case_keys : list (list Z) := [
  u "Expected '{0}', but got '{1}'.";
  u "Expected directive.";
  u "Expected identifier.";
  u "Expected end directive, instead reached the end of the document."
].

(** ** The members of [class D] *)

Definition D_names : list (list Z) := [
  u "A_schema_definition_can_only_contain_query_mutation_and_subscription_fields";
  u "Cannot_add_an_output_type_to_an_input_location";
  u "Cannot_add_an_input_type_to_an_output_location";
  u "Cannot_annotate_with_a_type_that_recursively_references_the_directive_0";
  u "Cannot_select_fields_on_a_scalar_field_0";
  u "Directive_cannot_reference_itself";
  u "Duplicate_argument_0";
  u "Duplicate_field_0";
  u "Duplicate_fragment_0";
  u "Duplicate_type_0";
  u "Expected_0_but_got_1";
  u "Expected_0_but_instead_reached_the_end_of_document";
  u "Expected_at_least_a_field_inline_fragment_or_fragment_spread";
  u "Expected_directive_location_but_instead_reached_the_end_of_document";
  u "Expected_directive_location";
  u "Expected_enum_value_but_instead_got_0";
  u "Expected_field_definition";
  u "Expected_field_inline_fragment_or_fragment_spread";
  u "Expected_fragment_spread_or_inline_fragment";
  u "Expected_name_of_argument";
  u "Expected_name_of_interface";
  u "Expected_name_of_object";
  u "Expected_name_but_instead_got_0";
  u "Expected_object_field_name";
  u "Expected_operation_definition_or_fragment_definition";
  u "Expected_type_annotation_instead_got_0";
  u "Expected_type_definition";
  u "Expected_type_name_instead_got_0";
  u "Expected_value_instead_got_0";
  u "Field_0_does_not_exist_on_type_1";
  u "Fragment_0_is_not_defined";
  u "Interface_0_is_not_defined";
  u "Invalid_Unicode_escape_sequence";
  u "Missing_required_argument_0";
  u "Missing_required_field_0";
  u "Mutations_are_not_supported";
  u "No_query_root_operation_type_defined";
  u "Only_objects_are_allowed_as_members_in_a_union";
  u "Subscriptions_are_not_supported";
  u "The_directive_0_does_not_support_the_location_1";
  u "The_field_0_in_interface_1_is_not_implemented";
  u "The_object_0_does_not_implement_the_interface_1";
  u "The_object_0_does_not_match_the_object_1";
  u "The_type_0_is_not_an_object";
  u "The_type_0_is_not_member_of_the_union_1";
  u "The_value_0_is_not_assignable_to_type_1";
  u "Type_0_does_not_match_type_1_from_the_interface_2";
  u "Type_0_is_not_assignable_to_type_1";
  u "Type_0_is_not_defined";
  u "Type_conditions_are_only_applicable_inside_object_interfaces_and_unions";
  u "Undefined_directive_0";
  u "Undefined_enum_value_0";
  u "Unexpected_end_of_implementations";
  u "Unknown_argument_0";
  u "Unterminated_string_value"
].

Definition tasks_path : list Z := u "/repo/bin/generate_diagnostics".

#[local] Instance tasks_files : @FileSystem memory string_paths := memory_files tasks_path.

Definition repository : memory :=
  <[ u "/repo/src/program/graphql" := None ]> (
  <[ u "/repo/src/program/graphql/graphql_diagnostics.json" := Some (json_object graphql_keys) ]> (
  <[ u "/repo/src/test" := None ]>
  {[ u "/repo/src/test/test_case_diagnostics.json" := Some (json_object test_case_keys) ]})).

Definition generated_files : option memory :=
  match main regex_replace_bytes json_object_keys (mkGenerator repository []) with
  | Ok 0%Z s => Some (generator_files s)
  | _ => None
  end.

Definition generated_lines (name : list Z) : list (list Z) :=
  match generated_files with
  | Some f => getlines Character.NewLine (default [] (file_in f name))
  | None => []
  end.

(** What is generated for the test cases is [test/test_case_diagnostics.cpp]. *)
Example test_case_source_generated :
  generated_lines (u "/repo/src/test/test_case_diagnostics.cpp") = [
    u "// This code is auto generate. Don't edit it!";
    u "#include " ++ in_quotes (u "test_case_diagnostics.h");
    [];
    u "namespace flashpoint::test {";
    [];
    u "    DiagnosticMessageTemplate D::Expected_0_but_got_1 = DiagnosticMessageTemplate { "
      ++ in_quotes (TestD.message_template TestD.Expected_0_but_got_1) ++ u " };";
    u "    DiagnosticMessageTemplate D::Expected_directive = DiagnosticMessageTemplate { "
      ++ in_quotes (TestD.message_template TestD.Expected_directive) ++ u " };";
    u "    DiagnosticMessageTemplate D::Expected_end_directive_instead_reached_the_end_of_the_document = DiagnosticMessageTemplate { "
      ++ in_quotes (TestD.message_template
          TestD.Expected_end_directive_instead_reached_the_end_of_the_document) ++ u " };";
    u "    DiagnosticMessageTemplate D::Expected_identifier = DiagnosticMessageTemplate { "
      ++ in_quotes (TestD.message_template TestD.Expected_identifier) ++ u " };";
    [];
    u "} // flashpoint::test"].
Proof. vm_compute. reflexivity. Qed.

(** The members of [D] with their templates, in the order of the header. *)
Example graphql_source_generated :
  take 55 (drop 5 (generated_lines (u "/repo/src/program/graphql/graphql_diagnostics.cpp"))) =
    zip_with (λ name d, u "    DiagnosticMessageTemplate D::" ++ name
      ++ u " = DiagnosticMessageTemplate { " ++ in_quotes (message_template d) ++ u " };") D_names D_all.
Proof. vm_compute. reflexivity. Qed.

Lemma tasks_root f : root_dir f = Ok (u "/repo") f.
Proof. vm_compute. reflexivity. Qed.

#[local] Instance lawful_tasks : @LawfulFileSystem memory string_paths tasks_files :=
  memory_lawful tasks_path.

Definition test_case_templates : list (list Z) :=
  map TestD.message_template [TestD.Expected_0_but_got_1; TestD.Expected_directive;
    TestD.Expected_end_directive_instead_reached_the_end_of_the_document; TestD.Expected_identifier].

Lemma test_case_keys_read :
  json_object_keys (c_string (remove_comments regex_replace_bytes
    (c_string (json_object test_case_keys)))) = test_case_templates.
Proof. vm_compute. reflexivity. Qed.

Lemma generate_diagnostic_verdict_witness :
  ∃ f', generate_diagnostic regex_replace_bytes json_object_keys (u "src/test")
      (u "test_case_diagnostics") (u "flashpoint::test") (mkGenerator repository []) =
    Ok tt (mkGenerator f' []) ∧
    file_at f' (u "/repo/src/test/test_case_diagnostics.h") =
      Some (c_string (header_text regex_replace_bytes (u "test_case_diagnostics")
        (u "flashpoint::test") test_case_templates)).
Proof.
  pose proof (generate_diagnostic_verdict regex_replace_bytes json_object_keys (u "/repo") tasks_root
    (u "src/test") (u "test_case_diagnostics") (u "flashpoint::test") repository
    (json_object test_case_keys)) as Hrun.
  cbv zeta in Hrun. rewrite test_case_keys_read, decide_True in Hrun.
  - destruct Hrun as (f' & Hrun & Hh & _).
    + split; try reflexivity; [|discriminate].
      repeat constructor; try done; apply (bool_decide_unpack _); reflexivity.
    + exists f'. by split.
  - apply (bool_decide_unpack _). vm_compute. reflexivity.
Defined.
