(* ===== verification/CommandProperties.v ===== *)
(** * Properties of the command line

    A command line printed from a command and its flags is read back. *)
From S2P Require Import Prelude Monad Character Command.

#[local] Arguments u : simpl never.

(** ** Printed options *)

(** A flag without a value, [--name value] and [--name=value]. *)
Inductive cl_option :=
  | Plain (f : FlagDefinition)
  | Separate (f : FlagDefinition) (value : list Z)
  | Joined (f : FlagDefinition) (value : list Z).

Definition definition_of (o : cl_option) : FlagDefinition :=
  match o with Plain f | Separate f _ | Joined f _ => f end.

Definition dashed (f : FlagDefinition) : list Z := Character.Dash :: Character.Dash :: fd_name f.

Definition print_option (o : cl_option) : list (list Z) :=
  match o with
  | Plain f => [dashed f]
  | Separate f value => [dashed f; value]
  | Joined f value => [dashed f ++ Character.Equal :: value]
  end.

Definition option_flag (o : cl_option) : Flag :=
  match o with
  | Plain f => make_flag f None
  | Separate f value | Joined f value => make_flag f (Some value)
  end.

(** The command has the flag, and it takes a value where one is given. *)
Definition option_of (c : CommandDefinition) (o : cl_option) : Prop :=
  (Character.Equal ∉ fd_name (definition_of o)) ∧
  (∃ i, list_find (λ f, fd_name f = fd_name (definition_of o)) (cd_flags c) =
    Some (i, definition_of o)) ∧
  match o with
  | Plain f => fd_has_value f = false
  | Separate f value => fd_has_value f = true ∧ starts_with_dash value = false
  | Joined f value => fd_has_value f = true
  end.

(** ** Arguments *)

Lemma find_equal_none arg : Character.Equal ∉ arg → find_equal arg = None.
Proof.
  induction arg as [|c arg IH]; [done|]. intros [Hc Harg]%not_elem_of_cons. simpl.
  destruct (Z.eqb_spec c Character.Equal); [congruence|]. by rewrite IH.
Qed.

Lemma find_equal_app arg rest :
  Character.Equal ∉ arg → find_equal (arg ++ Character.Equal :: rest) = Some (length arg).
Proof.
  induction arg as [|c arg IH]; [done|]. intros [Hc Harg]%not_elem_of_cons. simpl.
  destruct (Z.eqb_spec c Character.Equal); [congruence|]. by rewrite IH.
Qed.

Lemma dashed_no_equal f : Character.Equal ∉ fd_name f → Character.Equal ∉ dashed f.
Proof. intros Hf. unfold dashed. rewrite !not_elem_of_cons. by split; [|split]. Qed.

Lemma match_flag_found fs f i s :
  list_find (λ g, fd_name g = fd_name f) fs = Some (i, f) →
  match_flag (Some (fd_name f)) fs s = Ok (Some f) s.
Proof.
  revert i. induction fs as [|g fs IH]; intros i; [done|]. simpl.
  erewrite run_bind by done. destruct (decide (fd_name g = fd_name f)) as [E|E].
  - intros [= <- <-]. by rewrite bool_decide_true.
  - rewrite bool_decide_false by done.
    destruct (list_find _ fs) as [[j g']|]; [|done]. simpl. intros [= <- ->]. by eapply IH.
Qed.

Definition with_value (f : Flag) (value : list Z) : Flag :=
  mkFlag (flag_name f) (flag_description f) (flag_alias f) (flag_has_value f) (Some value).

Section arguments.
Context (c : CommandDefinition) (f : FlagDefinition) (i : nat) (s : Command).
Hypothesis Hcommand : command s = Some c.
Hypothesis Hname : Character.Equal ∉ fd_name f.
Hypothesis Hfound : ∃ k, list_find (λ g, fd_name g = fd_name f) (cd_flags c) = Some (k, f).

Lemma on_dashed :
  argv s !! i = Some (dashed f) →
  on_argument i s = Ok tt
    (if fd_has_value f then set_awaiting (make_flag f None) s
     else push_flag (make_flag f None) s).
Proof.
  intros Harg. destruct Hfound as [k Hk]. unfold on_argument.
  erewrite run_bind by done. rewrite Harg. erewrite run_bind by done.
  change (starts_with_dash _) with true. cbv iota.
  unfold split_argument. rewrite find_equal_none by by apply dashed_no_equal.
  change (if (2 <=? length (dashed f))%nat then _ else _) with (Some (fd_name f)).
  erewrite run_bind by done. cbv iota. rewrite Hcommand. erewrite run_bind by done.
  rewrite (run_bind _ _ _ _ _ (match_flag_found _ _ _ _ Hk)). by destruct (fd_has_value f).
Qed.

Lemma on_joined value :
  argv s !! i = Some (dashed f ++ Character.Equal :: value) → fd_has_value f = true →
  on_argument i s = Ok tt (push_flag (make_flag f (Some value)) (set_argument i (dashed f) s)).
Proof.
  intros Harg Hv. destruct Hfound as [k Hk]. unfold on_argument.
  erewrite run_bind by done. rewrite Harg. erewrite run_bind by done.
  change (starts_with_dash _) with true. cbv iota.
  unfold split_argument. rewrite find_equal_app by by apply dashed_no_equal.
  change (length (dashed f) <? 2)%nat with false. cbv iota.
  erewrite run_bind by (by erewrite run_bind by done). cbv iota.
  rewrite take_app_length. replace (drop (length (dashed f) + 1) _) with value.
  2:{ change (Character.Equal :: value) with ([Character.Equal] ++ value).
      rewrite app_assoc, drop_app_length'; [done|]. by rewrite length_app. }
  simpl command. rewrite Hcommand. erewrite run_bind by done.
  assert (Hflag : ∀ l : list Z, take (length (dashed f) - 2) (drop 2 (dashed f ++ l)) = fd_name f).
  { intros l. change (take (length (fd_name f) - 0) (fd_name f ++ l) = fd_name f).
    by rewrite Nat.sub_0_r, take_app_length. }
  rewrite Hflag.
  rewrite (run_bind _ _ _ _ _ (match_flag_found _ _ _ _ Hk)). by rewrite Hv.
Qed.
End arguments.

Lemma on_value f value i s :
  argv s !! i = Some value → starts_with_dash value = false → flag_awaiting_value s = Some f →
  on_argument i s = Ok tt (push_flag (with_value f value) s).
Proof.
  intros Harg Hv Hf. unfold on_argument. erewrite run_bind by done. rewrite Harg.
  erewrite run_bind by done. by rewrite Hv, Hf.
Qed.

(** ** Command lines *)

Lemma for_each_app {S A} (body : A → M S unit) l l' s s' :
  for_each l body s = Ok tt s' → for_each (l ++ l') body s = for_each l' body s'.
Proof.
  revert s. induction l as [|x l IH]; intros s; simpl; [by intros [= ->]|].
  unfold mbind, M_bind. destruct (body x s); try done. apply IH.
Qed.

(** The arguments from [start] on, none of the earlier ones being looked at. *)
Definition reads_arguments (c : CommandDefinition) (start : nat) (args : list (list Z))
    (read : list Flag) : Prop :=
  ∀ s, command s = Some c → (∃ pre, length pre = start ∧ ∃ post, argv s = pre ++ args ++ post) →
    ∃ s', for_each (seq start (length args)) on_argument s = Ok tt s' ∧
      command s' = Some c ∧ flags s' = flags s ++ read ∧ warnings s' = warnings s ∧
      length (argv s') = length (argv s) ∧
      drop (start + length args) (argv s') = drop (start + length args) (argv s).

Lemma reads_option c start o : option_of c o → reads_arguments c start (print_option o) [option_flag o].
Proof.
  intros (Hname & Hfound & Ho) s Hc (pre & <- & post & Hargv).
  assert (Hfst : ∀ x rest, print_option o = x :: rest → argv s !! length pre = Some x).
  { intros x rest Hp. rewrite Hargv, Hp. apply lookup_app_mid. }
  destruct o as [f|f value|f value]; cbn [definition_of print_option option_flag length seq iter_list] in *.
  - exists (push_flag (make_flag f None) s). split; [|by repeat split].
    erewrite run_bind by (eapply on_dashed; try done; by eapply Hfst). by rewrite Ho.
  - destruct Ho as [Hv Hdash].
    exists (push_flag (with_value (make_flag f None) value) (set_awaiting (make_flag f None) s)).
    split; [|by repeat split].
    erewrite run_bind by (eapply on_dashed; try done; by eapply Hfst). rewrite Hv.
    erewrite run_bind; [done|]. apply on_value; [|done|done]. simpl. rewrite Hargv.
    rewrite lookup_app_r by lia. by replace (S (length pre) - length pre)%nat with 1%nat by lia.
  - exists (push_flag (make_flag f (Some value)) (set_argument (length pre) (dashed f) s)).
    split; [by erewrite run_bind by (eapply on_joined; try done; by eapply Hfst)|].
    repeat split; simpl; [done|by rewrite length_insert|]. by rewrite drop_insert_lt by lia.
Qed.

Lemma reads_options c start opts :
  Forall (option_of c) opts →
  reads_arguments c start (concat (map print_option opts)) (map option_flag opts).
Proof.
  intros Hall. revert start. induction Hall as [|o opts Ho _ IH]; intros start s Hc Hargv.
  - exists s. split; [done|]. by rewrite app_nil_r.
  - cbn [map concat]. destruct Hargv as (pre & Hpre & post & Hargv). cbn [map concat] in Hargv.
    destruct (reads_option c start o Ho s Hc) as (s1 & H1 & Hc1 & Hf1 & Hw1 & Hl1 & Hd1).
    { exists pre. split; [done|]. eexists. by rewrite Hargv, <- app_assoc. }
    destruct (IH (start + length (print_option o))%nat s1 Hc1)
      as (s2 & H2 & Hc2 & Hf2 & Hw2 & Hl2 & Hd2).
    { exists (take (start + length (print_option o)) (argv s1)). split.
      - rewrite length_take, Hl1, Hargv, !length_app. lia.
      - exists post. rewrite <- (take_drop (start + length (print_option o)) (argv s1)) at 1.
        f_equal. rewrite Hd1, Hargv, !app_assoc.
        rewrite <- (app_assoc (pre ++ _)), drop_app_length'; [done|]. by rewrite length_app, Hpre. }
    exists s2. rewrite length_app, seq_app. rewrite (for_each_app _ _ _ _ _ H1).
    repeat split; [done|done| |congruence|congruence|].
    + rewrite Hf2, Hf1, <- app_assoc. done.
    + rewrite Nat.add_assoc, Hd2. rewrite <- !(drop_drop _ _ (start + length (print_option o))). by rewrite Hd1.
Qed.

(** The arguments name a command, or its flags follow at once and it is the first. *)
Definition names_command (commands : list CommandDefinition) (c : CommandDefinition)
    (name : list (list Z)) : Prop :=
  match name with
  | [] => head commands = Some c
  | [name] => find_command (Some name) commands = Some c ∧ starts_with_dash name = false
  | _ => False
  end.

Lemma find_command_dash arg commands : starts_with_dash arg = true → find_command (Some arg) commands = None.
Proof.
  intros Hdash. unfold find_command. rewrite Hdash. simpl.
  induction commands as [|c commands IH]; [done|]. exact IH.
Qed.

Lemma find_command_null commands : find_command None commands = None.
Proof. unfold find_command. induction commands as [|c commands IH]; [done|]. exact IH. Qed.

Lemma print_options_dash opts x rest :
  concat (map print_option opts) = x :: rest → starts_with_dash x = true.
Proof.
  destruct opts as [|o opts]; [done|]. destruct o; simpl; by intros [= <- _].
Qed.

Lemma chosen_command commands c name opts program :
  names_command commands c name →
  find_command ((program :: name ++ concat (map print_option opts)) !! 1) commands =
    match name with [] => None | _ => Some c end.
Proof.
  destruct name as [|x [|y name]]; simpl; [|by intros [? _]|done]. intros _.
  destruct (concat _) as [|x rest] eqn:E; [apply find_command_null|].
  by eapply find_command_dash, print_options_dash.
Qed.

Lemma reads_command_line commands c program name opts :
  names_command commands c name → Forall (option_of c) opts →
  ∃ s, Command_Command commands (new_Command (program :: name ++ concat (map print_option opts))) =
      Ok tt s ∧ command s = Some c ∧ flags s = map option_flag opts ∧ warnings s = [].
Proof.
  intros Hname Hopts. unfold Command_Command. erewrite run_bind by done.
  simpl argv. change (0 <? length (program :: _))%nat with true. cbv iota.
  rewrite (chosen_command _ c) by done.
  set (args := concat (map print_option opts)).
  set (s0 := new_Command (program :: name ++ args)).
  assert (Hchoose : ∀ k : CommandDefinition → M Command unit,
    (match match name with [] => None | _ => Some c end with
     | Some c => mret c
     | None => match commands with c :: _ => mret c | [] => throw std_out_of_range end
     end ≫= k) s0 = k c s0).
  { intros k. destruct name; [|done]. simpl in Hname. destruct commands; [done|]. by injection Hname as ->. }
  rewrite Hchoose. clear Hchoose. erewrite run_bind by done. unfold for_each_arg.
  replace (length (program :: name ++ args) - 1)%nat with (length name + length args)%nat
    by (simpl; rewrite length_app; lia).
  rewrite seq_app. erewrite (for_each_app _ _ _ _ (set_command c s0)).
  - destruct (reads_options c (1 + length name) opts Hopts (set_command c s0)) as (s & Hs & Hc & Hf & Hw & _).
    + done.
    + exists (program :: name). split; [done|]. exists []. unfold args. by rewrite app_nil_r.
    + exists s. fold args in Hs. by rewrite Hs.
  - destruct name as [|x [|y name]]; [done| |done]. destruct Hname as [_ Hdash]. simpl.
    erewrite run_bind; [done|]. unfold on_argument. erewrite run_bind by done. simpl.
    erewrite run_bind by done. by rewrite Hdash.
Qed.


(** ** A witness: the command line of the tests *)

Definition test_flag : FlagDefinition :=
  mkFlagDefinition (u "test") (u "t") (u "Run specific test") true false [].
Definition server_flag : FlagDefinition :=
  mkFlagDefinition (u "use-external-server") [] (u "Use external server") false false [].
Definition default_command : CommandDefinition :=
  mkCommandDefinition [] (u "default") [] [test_flag; server_flag].
Definition accept_command : CommandDefinition :=
  mkCommandDefinition [] (u "accept") (u "Accept baselines") [test_flag].


(** A flag that waits for its value takes every later argument as one. *)
Lemma flag_keeps_waiting :
  (λ s, flags s) <$> (match Command_Command [default_command]
      (new_Command [u "test"; u "--test"; u "A"; u "B"]) with Ok _ s => Some s | _ => None end) =
  Some [make_flag test_flag (Some (u "A")); make_flag test_flag (Some (u "B"))].
Proof. vm_compute. reflexivity. Qed.
