(* ===== verification/TextAnnotaterProperties.v ===== *)
(** * Properties of the text annotater

    The lines of a source are its text; an annotated source is laid out in rows:
    each line, and under it the annotations of the line in order. *)
From stdpp Require Import sorting.
From S2P Require Import Prelude Monad Character StdMap Cstring Diagnostic Utils TextWriter TextAnnotater ValueText UtilsProperties.

#[local] Arguments u : simpl never.

(** ** A [std::sort] *)

Section insertion_sort.
Context {A : Type} (before : A → A → bool).

Fixpoint insert_before (x : A) (l : list A) : list A :=
  match l with
  | [] => [x]
  | y :: l' => if before y x then y :: insert_before x l' else x :: l
  end.

Definition insertion_sort (l : list A) : list A := foldr insert_before [] l.

Lemma insert_before_permutes x l : Permutation (x :: l) (insert_before x l).
Proof.
  induction l as [|y l IH]; simpl; [done|]. destruct (before y x); [|done].
  transitivity (y :: x :: l); [apply perm_swap|by apply perm_skip].
Qed.

Lemma insertion_sort_permutes l : Permutation l (insertion_sort l).
Proof.
  induction l as [|x l IH]; simpl; [done|].
  transitivity (x :: insertion_sort l); [by apply perm_skip|apply insert_before_permutes].
Qed.

Lemma strict_weak_order_sub l l' :
  l' ⊆ l → strict_weak_order before l → strict_weak_order before l'.
Proof.
  intros Hl [Hi Ht Hn]. split.
  - intros a Ha. by apply Hi, Hl.
  - intros a b c Ha Hb Hc. apply Ht; by apply Hl.
  - intros a b c Ha Hb Hc. apply Hn; by apply Hl.
Qed.

Lemma not_before_transitive l a b c :
  strict_weak_order before l → a ∈ l → b ∈ l → c ∈ l →
  before b a = false → before c b = false → before c a = false.
Proof.
  intros [Hi Ht Hn] Ha Hb Hc Hba Hcb. destruct (before c a) eqn:Hca; [|done].
  destruct (before a b) eqn:Hab; [by rewrite (Ht c a b) in Hcb|].
  destruct (before b c) eqn:Hbc; [by rewrite (Ht b c a) in Hba|].
  destruct (Hn a b c) as [_ H]; congruence.
Qed.

Lemma insert_before_orders x l :
  strict_weak_order before (x :: l) → in_order before l → in_order before (insert_before x l).
Proof.
  intros Hw. induction l as [|y l IH]; simpl; intros Ho; [by repeat constructor|].
  inversion_clear Ho as [|? ? Ho' Hy]. destruct (before y x) eqn:Hyx.
  - constructor.
    + apply IH; [|done]. apply (strict_weak_order_sub (x :: y :: l)); [|done].
      intros z. rewrite !elem_of_cons. tauto.
    + rewrite <- insert_before_permutes. constructor; [|done].
      destruct (before x y) eqn:Hxy; [|done]. destruct Hw as [Hi Ht _].
      rewrite <- (Hi x) by constructor. symmetry. apply (Ht x y x); [..|done|done]; rewrite !elem_of_cons; tauto.
  - constructor; [by constructor|]. constructor; [done|].
    eapply list.Forall_impl; [apply list.Forall_and; split; [exact Hy|apply list.Forall_forall; intros z Hz; exact Hz]|].
    intros z [Hzy Hz]. cbn in Hzy, Hz |- *.
    apply (not_before_transitive _ x y z Hw); [..|done|done]; rewrite !elem_of_cons; tauto.
Qed.

Lemma insertion_sort_orders l :
  strict_weak_order before l → in_order before (insertion_sort l).
Proof.
  induction l as [|x l IH]; intros Hw; simpl; [constructor|].
  apply insert_before_orders.
  - eapply strict_weak_order_sub; [|exact Hw]. intros z.
    rewrite !elem_of_cons, <- insertion_sort_permutes. tauto.
  - apply IH. eapply strict_weak_order_sub; [|exact Hw]. intros z. rewrite elem_of_cons. tauto.
Qed.
End insertion_sort.

(** A function with the promise of [std::sort]. *)
Definition insertion_StdSort : StdSort := {|
  std_sort _ := insertion_sort;
  std_sort_permutes _ before l _ := insertion_sort_permutes before l;
  std_sort_orders _ before l := insertion_sort_orders before l
|}.

(** ** The lines of a source *)

Lemma last_item_empty d item s :
  last_item d item s = [] ↔ (s = [] ∧ item = []) ∨ list.last s = Some d.
Proof.
  revert item. induction s as [|c s IH]; intros item; simpl.
  - split; [by left|]. by intros [[_ ?]|?].
  - rewrite IH. destruct s as [|c' s].
    + simpl. destruct (Z.eqb_spec c d) as [->|Hne].
      * split; [by right|]. intros _. by left.
      * split; [intros [[_ H]|H]; [by destruct item|done]|intros [[? _]|[= H]]; done].
    + change (list.last (c :: c' :: s)) with (list.last (c' :: s)).
      split; (intros [[? _]|?]; [done|by right]).
Qed.

Lemma set_source_joined source :
  join_vector (lines (set_source source)) [Character.NewLine] = source.
Proof.
  unfold set_source. simpl. case_bool_decide as Hitem.
  - apply last_item_empty in Hitem as [[-> _]|Hlast]; [done|].
    destruct source as [|c source]; [done|].
    rewrite join_app by (done || apply getlines_cons). rewrite join_getlines. simpl. unfold without_last.
    rewrite decide_True by done. apply last_Some in Hlast as [l' ->]. by rewrite removelast_last.
  - rewrite join_getlines. unfold without_last. rewrite decide_False; [done|].
    intros Hlast. apply Hitem, last_item_empty. by right.
Qed.

Lemma set_source_nonempty source : lines (set_source source) ≠ [].
Proof.
  unfold set_source. simpl. case_bool_decide as Hitem; [by destruct (getlines _ source)|].
  destruct source as [|c source]; [done|]. apply getlines_cons.
Qed.

(** ** The annotations of a line *)

(** An annotation with the line it is kept at: the last one for the end of the
    source. *)
Definition placed (last : nat) (given : list Z * Location) : Annotation :=
  mkAnnotation (if end_of_source given.2 then at_line last given.2 else given.2) given.1.

Definition line_of_annotation (a : Annotation) : nat := loc_line (annotation_location a).

Definition at_line_of (k : nat) (l : list Annotation) : list Annotation :=
  base.filter (λ a, line_of_annotation a = k) l.

Definition annotate_all (t : TextAnnotater) (given : list (list Z * Location)) : TextAnnotater :=
  fold_left (λ t '(text, location), annotate text location t) given t.

Definition kept (t : TextAnnotater) (k : nat) : list Annotation :=
  default [] (find k (annotations t)).

Lemma at_line_of_one k a : at_line_of k [a] = if decide (line_of_annotation a = k) then [a] else [].
Proof. done. Qed.

Lemma annotate_kept text location t :
  lines (annotate text location t) = lines t ∧
  ∀ k, kept (annotate text location t) k =
    kept t k ++ at_line_of k [placed (length (lines t)) (text, location)].
Proof.
  unfold annotate. set (a := placed _ _).
  assert (Hl : loc_line (annotation_location a) = loc_line (if end_of_source location
    then at_line (length (lines t)) location else location)) by done.
  assert (Ha : mkAnnotation (if end_of_source location
    then at_line (length (lines t)) location else location) text = a) by done.
  rewrite Ha, <- Hl. clearbody a. clear Ha Hl.
  destruct (find (loc_line (annotation_location a)) (annotations t)) eqn:E; (split; [done|]);
    intros k; unfold kept; simpl; rewrite find_insert_or_assign, at_line_of_one;
    unfold line_of_annotation; destruct (decide (k = _)) as [->|Hk]; rewrite ?E; simpl.
  - by rewrite decide_True.
  - rewrite decide_False by congruence. by rewrite app_nil_r.
  - by rewrite decide_True.
  - rewrite decide_False by congruence. by rewrite app_nil_r.
Qed.

Lemma annotate_all_kept given t :
  lines (annotate_all t given) = lines t ∧
  ∀ k, kept (annotate_all t given) k =
    kept t k ++ at_line_of k (map (placed (length (lines t))) given).
Proof.
  revert t. induction given as [|[text location] given IH]; intros t.
  - split; [done|]. intros k. by rewrite app_nil_r.
  - destruct (annotate_kept text location t) as [Hl Hk].
    change (annotate_all t _) with (annotate_all (annotate text location t) given).
    destruct (IH (annotate text location t)) as [Hl' Hk']. split; [congruence|].
    intros k. rewrite Hk', Hk, Hl, <- app_assoc. f_equal. unfold at_line_of. simpl map.
    by rewrite <- list.filter_app.
Qed.

(** On one line, the order of the annotations is the one of the columns, with
    those at the end of the source behind. *)
Lemma annotation_before_weak k l :
  Forall (λ a, line_of_annotation a = k) l → strict_weak_order annotation_before l.
Proof.
  intros Hall. unfold annotation_before.
  assert (Hline : ∀ a b, a ∈ l → b ∈ l →
    (loc_line (annotation_location a) <? loc_line (annotation_location b))%nat = false).
  { intros a b Ha Hb. pose proof (Forall_elem _ _ _ Hall Ha). pose proof (Forall_elem _ _ _ Hall Hb).
    unfold line_of_annotation in *. apply Nat.ltb_ge. lia. }
  split.
  - intros a Ha. rewrite Hline, Nat.ltb_irrefl by done. by destruct (end_of_source _).
  - intros a b c Ha Hb Hc. rewrite !Hline by done. repeat case_match; try done.
    rewrite !Nat.ltb_lt. lia.
  - intros a b c Ha Hb Hc. rewrite !Hline by done. repeat case_match; try done.
    rewrite !Nat.ltb_ge. lia.
Qed.

(** ** The layout *)

(** Texts as right-nested concatenations. *)
Ltac app_norm := repeat first [rewrite <- app_assoc | rewrite app_nil_r | progress cbn [app]].

Definition tildes (n : nat) : ustring := replicate n 126%Z.

(** The rows of an annotation under a line of the given size. *)
Definition annotation_rows (size : nat) (a : Annotation) : list ustring :=
  let location := annotation_location a in
  let marks := spaces (loc_column location - 1) ++ tildes (Z.to_nat (marked size location)) in
  (if end_of_source location then [marks; u "END_OF_DOCUMENT:"] else [marks ++ place location])
    ++ [u "!!! " ++ annotation_text a].

Definition line_rows (order : nat → list Annotation) (i : nat) (line : ustring) : list ustring :=
  line :: flat_map (annotation_rows (length line)) (order (i + 1)%nat).

Definition in_lines (rows : list ustring) : ustring := flat_map (λ r, r ++ [Character.NewLine]) rows.

(** A writer without indentation, its text and the text it saved last. *)
Definition laying (t : ustring) (saved : option ustring) (w : TextWriter) : Prop :=
  indentation w = 0%Z ∧ text w = t ∧ ttc_text <$> head (saved_text_cursors w) = saved.

Abbreviation lays m t saved := (wp False m (λ _, laying t saved) (λ _ _, False)).

Lemma write_lays x t saved w : laying t saved w → lays (write x) (t ++ x) saved w.
Proof.
  intros (Hi & Ht & Hs). eapply wp_intro_ok; [by apply write_plain|]. by rewrite <- Ht.
Qed.

Lemma newline_lays t saved w : laying t saved w → lays newline (t ++ [Character.NewLine]) saved w.
Proof. intros (Hi & Ht & Hs). unfold newline. repeat wp_step. by rewrite <- Ht. Qed.

Lemma save_lays t saved w : laying t saved w → lays save t (Some t) w.
Proof. intros (Hi & Ht & Hs). unfold save. wp_step. by rewrite <- Ht. Qed.

Lemma write_times_lays first count c t saved w :
  (count < 2 ^ 31)%Z → laying t saved w →
  lays (write_times first count [c]) (t ++ replicate (Z.to_nat (count - first)) c) saved w.
Proof.
  intros Hc Hw. unfold write_times. rewrite (proj2 (Z.leb_gt _ _)) by done.
  generalize (Z.to_nat (count - first)). intros n.
  revert t w Hw. induction n as [|n IH]; intros t w Hw; cbn [replicate iter_list].
  - wp_step. by rewrite app_nil_r.
  - wp_call write_lays; [exact Hw| |done]. intros ? w' Hw'.
    rewrite (cons_middle c t), app_assoc. by apply IH.
Qed.

(** One after the other. *)
Lemma lays_then {A B} (m : M TextWriter A) (k : M TextWriter B) t saved t' saved' w :
  lays m t saved w → (∀ w', laying t saved w' → lays k t' saved' w') → lays (m;; k) t' saved' w.
Proof. intros Hm Hk. wp_step. eapply wp_mono; [exact Hm| |done]. intros a. exact Hk. Qed.

Definition fits_writer (size : nat) (a : Annotation) : Prop :=
  (Z.of_nat (loc_column (annotation_location a)) < 2 ^ 31)%Z ∧
  (marked size (annotation_location a) < 2 ^ 31)%Z.

(** The last row of a block is saved before its newline. *)
Lemma last_row_lays x t saved w :
  laying t saved w →
  lays (newline;; write x;; save;; newline) (t ++ [Character.NewLine] ++ x ++ [Character.NewLine])
    (Some (t ++ [Character.NewLine] ++ x)) w.
Proof.
  intros Hw. eapply lays_then; [by apply newline_lays|intros w1 H1].
  eapply lays_then; [by apply write_lays|intros w2 H2].
  eapply lays_then; [by eapply save_lays|intros w3 H3].
  eapply wp_mono; [by apply newline_lays| |done]. intros ? w4. by rewrite <- !app_assoc.
Qed.

Lemma write_annotation_lays size a t saved w :
  fits_writer size a → laying (t ++ [Character.NewLine]) saved w →
  let t' := t ++ [Character.NewLine] ++ join_vector (annotation_rows size a) [Character.NewLine] in
  lays (write_annotation size a) (t' ++ [Character.NewLine]) (Some t') w.
Proof.
  intros [Hc Hm] Hw. unfold write_annotation, annotation_rows.
  eapply lays_then; [by apply write_times_lays|intros w1 H1].
  eapply lays_then; [by apply write_times_lays|intros w2].
  set (marks := spaces (loc_column (annotation_location a) - 1)
    ++ tildes (Z.to_nat (marked size (annotation_location a)))).
  replace ((_ ++ replicate _ _) ++ replicate _ _) with (t ++ [Character.NewLine] ++ marks)
    by (unfold marks, spaces, tildes; rewrite Z.sub_0_r, Z.sub_1_r, Z2Nat.inj_pred, Nat2Z.id,
      Nat.sub_1_r, <- !app_assoc; done).
  intros H2. destruct (end_of_source _); simpl negb; cbv iota.
  - eapply lays_then; [eapply lays_then; [by apply newline_lays|intros; by apply write_lays]|intros w3 H3].
    eapply wp_mono; [by eapply last_row_lays| |done]. intros ? w4.
    cbn [join_vector join_from app]. by app_norm.
  - eapply lays_then; [by apply write_lays|intros w3 H3].
    eapply wp_mono; [by eapply last_row_lays| |done]. intros ? w4.
    cbn [join_vector join_from app]. by app_norm.
Qed.

Lemma line_rows_lays t order i line saved w :
  Forall (fits_writer (length line)) (order (i + 1)%nat) →
  laying t saved w →
  let t' := t ++ join_vector (line_rows order i line) [Character.NewLine] in
  lays (write line;; save;; newline;; for_each (order (i + 1)%nat) (write_annotation (length line)))
    (t' ++ [Character.NewLine]) (Some t') w.
Proof.
  intros Hfit Hw. unfold line_rows.
  eapply lays_then; [by apply write_lays|intros w1 H1].
  eapply lays_then; [by eapply save_lays|intros w2 H2].
  eapply lays_then; [by apply newline_lays|intros w3 H3].
  clear w w1 w2 Hw H1 H2. revert w3 H3.
  change (line :: ?rest) with ([line] ++ rest).
  assert (Hj : t ++ line = t ++ join_vector [line] [Character.NewLine])
    by (cbn [join_vector join_from]; by app_norm).
  rewrite Hj. clear Hj. assert (Hne : [line] ≠ []) by done. revert Hne.
  generalize [line]. revert Hfit. generalize (order (i + 1)%nat). intros l.
  induction l as [|a l IH]; intros Hfit rows Hne w Hw; cbn [iter_list flat_map].
  - wp_step. by rewrite app_nil_r.
  - apply list.Forall_cons in Hfit as [Ha Hl].
    eapply lays_then; [by eapply write_annotation_lays|intros w' Hw'].
    rewrite app_assoc. apply IH; [done|by destruct rows|].
    revert Hw'. rewrite join_app; [by app_norm|done|].
    unfold annotation_rows. by destruct (end_of_source _).
Qed.

(** All rows of an annotated source. *)
Definition all_rows (order : nat → list Annotation) (lines : list ustring) : list ustring :=
  concat (imap (line_rows order) lines).

Definition row_start (rows : list ustring) : ustring :=
  match rows with [] => [] | _ => join_vector rows [Character.NewLine] ++ [Character.NewLine] end.

Lemma row_start_app rows rows' :
  rows' ≠ [] →
  row_start rows ++ join_vector rows' [Character.NewLine] =
    join_vector (rows ++ rows') [Character.NewLine].
Proof. intros Hne. destruct rows as [|row rows]; [done|]. rewrite join_app by done. simpl. by app_norm. Qed.

Lemma imap_from {A B} (f : nat → A → B) k x l :
  imap (λ i, f (k + i)%nat) (x :: l) = f k x :: imap (λ i, f (S k + i)%nat) l.
Proof.
  rewrite imap_cons, Nat.add_0_r. f_equal. apply imap_ext. intros i y _. simpl.
  by rewrite Nat.add_succ_r.
Qed.

Section layout.
Context `{StdSort}.

Lemma lines_lay t k rows ls saved w :
  (∀ i line, ls !! i = Some line →
    Forall (fits_writer (length line)) (sorted_annotations t (k + i + 1))) →
  ls ≠ [] → laying (row_start rows) saved w →
  let t' := join_vector (rows ++ concat (imap (λ i, line_rows (sorted_annotations t) (k + i)) ls))
    [Character.NewLine] in
  lays (for_each (imap (λ i, pair (k + i)%nat) ls) (λ '(i, line), write_line_annotated t i line))
    (t' ++ [Character.NewLine]) (Some t') w.
Proof.
  revert k rows saved w. induction ls as [|line ls IH]; intros k rows saved w Hfit Hne Hw; [done|].
  rewrite (imap_from pair), (imap_from (line_rows (sorted_annotations t))). cbn [iter_list concat].
  assert (Hline : lays (write_line_annotated t k line)
      (row_start (rows ++ line_rows (sorted_annotations t) k line))
      (Some (join_vector (rows ++ line_rows (sorted_annotations t) k line) [Character.NewLine])) w).
  { pose proof (Hfit 0 line eq_refl) as Hfit0. rewrite Nat.add_0_r in Hfit0.
    eapply wp_mono; [eapply line_rows_lays; [exact Hfit0|exact Hw]| |done].
    intros ? w'. cbv zeta. rewrite row_start_app by done. by destruct rows. }
  eapply lays_then; [exact Hline|]. intros w' Hw'. clear Hline Hw.
  rewrite app_assoc. destruct ls as [|line' ls].
  - simpl. wp_step. revert Hw'. rewrite app_nil_r. unfold row_start. by destruct rows.
  - apply IH with (saved := Some (join_vector (rows ++ line_rows (sorted_annotations t) k line)
      [Character.NewLine])); [|done|done].
    intros i x Hx. replace (S k + i)%nat with (k + S i)%nat by lia. by apply (Hfit (S i)).
Qed.

Lemma to_string_rows t :
  (∀ i line, lines t !! i = Some line →
    Forall (fits_writer (length line)) (sorted_annotations t (i + 1))) →
  lines t ≠ [] →
  ∃ w, to_string t new_TextWriter =
    Ok (join_vector (all_rows (sorted_annotations t) (lines t)) [Character.NewLine]) w.
Proof.
  intros Hfit Hne.
  assert (Hwp : wp False (to_string t)
    (λ s _, s = join_vector (all_rows (sorted_annotations t) (lines t)) [Character.NewLine])
    (λ _ _, False) new_TextWriter).
  { unfold to_string. wp_step. eapply wp_mono; [apply (lines_lay t 0 [] (lines t) None); [done..|done]| |done].
    intros ? w (Hi & Ht & Hs). unfold restore. repeat wp_step.
    destruct (saved_text_cursors w) as [|c rest]; [done|]. repeat wp_step. simpl. by injection Hs. }
  destruct (wp_total _ _ _ Hwp) as (s & w & Hrun & ->). by exists w.
Qed.
End layout.

(** ** The annotated source *)

Section annotated.
Context `{StdSort}.

Definition fits_columns (given : list Z * Location) : Prop :=
  (Z.of_nat (loc_column given.2) < 2 ^ 31)%Z ∧ (Z.of_nat (loc_length given.2) < 2 ^ 31)%Z.

(** The annotations that belong to a line. *)
Definition given_at (source : list Z) (given : list (list Z * Location)) (k : nat) : list Annotation :=
  at_line_of k (map (placed (length (lines (set_source source)))) given).

Lemma at_line_of_line k l : Forall (λ a, line_of_annotation a = k) (at_line_of k l).
Proof. apply list.Forall_forall. intros a. unfold at_line_of. by rewrite list_elem_of_filter; intros [? _]. Qed.

Lemma sorted_given source given k :
  let t := annotate_all (set_source source) given in
  Permutation (given_at source given k) (sorted_annotations t k) ∧
  in_order annotation_before (sorted_annotations t k).
Proof.
  intros t. destruct (annotate_all_kept given (set_source source)) as [Hl Hk]. fold t in Hl, Hk.
  specialize (Hk k). change (kept (set_source source) k) with (@nil Annotation) in Hk.
  rewrite app_nil_l in Hk.
  fold (given_at source given k) in Hk.
  pose proof (annotation_before_weak k (given_at source given k) (at_line_of_line k _)) as Hw.
  pose proof (std_sort_permutes _ _ Hw) as Hp. pose proof (std_sort_orders _ _ Hw) as Ho.
  assert (Hs : sorted_annotations t k = std_sort annotation_before (given_at source given k)); [|by rewrite Hs].
  unfold sorted_annotations. unfold kept in Hk. destruct (find k (annotations t)) as [l|]; cbn [from_option id] in Hk.
  - rewrite Hk. rewrite <- (map_id (std_sort _ _)) at 2. apply map_ext_in. intros a Ha.
    apply list_elem_of_In in Ha. rewrite <- Hp in Ha. unfold given_at, at_line_of in Ha.
    apply list_elem_of_filter in Ha as [_ Ha]. apply list_elem_of_In, in_map_iff in Ha as (g & <- & _).
    unfold to_last_line, placed, at_line. simpl. rewrite Hl. by destruct (end_of_source g.2) eqn:E; simpl; rewrite ?E.
  - rewrite <- Hk in Hp |- *. symmetry. by apply Permutation_nil.
Qed.

Lemma annotated_lines source given :
  Forall fits_columns given →
  ∃ order w,
    to_string (annotate_all (set_source source) given) new_TextWriter =
      Ok (join_vector (all_rows order (lines (set_source source))) [Character.NewLine]) w ∧
    join_vector (lines (set_source source)) [Character.NewLine] = source ∧
    ∀ k, Permutation (given_at source given k) (order k) ∧ in_order annotation_before (order k).
Proof.
  intros Hfits. set (t := annotate_all (set_source source) given).
  exists (sorted_annotations t).
  destruct (to_string_rows t) as [w Hw].
  - intros i line _. apply list.Forall_forall. intros a Ha.
    destruct (sorted_given source given (i + 1)) as [Hp _]. fold t in Hp. rewrite <- Hp in Ha.
    unfold given_at, at_line_of in Ha. apply list_elem_of_filter in Ha as [_ Ha].
    apply list_elem_of_In, in_map_iff in Ha as (g & <- & Hg). apply list_elem_of_In in Hg.
    pose proof (Forall_elem _ _ _ Hfits Hg) as [Hc Hl].
    unfold fits_writer, marked, placed, at_line. simpl. destruct (end_of_source g.2); simpl; lia.
  - unfold t. rewrite (proj1 (annotate_all_kept _ _)). apply set_source_nonempty.
  - exists w. split; [|split; [apply set_source_joined|intros k; apply sorted_given]].
    rewrite Hw. unfold t at 2. by rewrite (proj1 (annotate_all_kept _ _)).
Qed.

End annotated.


(** A source without diagnostics is added as it is. *)
Lemma all_rows_plain order ls : (∀ k, order k = []) → all_rows order ls = ls.
Proof.
  intros Ho. unfold all_rows.
  rewrite (imap_ext _ (λ _ line, [line])) by (intros i x _; unfold line_rows; by rewrite Ho).
  induction ls as [|line ls IH]; [done|]. rewrite imap_cons. cbn [concat app]. f_equal. exact IH.
Qed.

Lemma add_diagnostics_none `{StdSort} message source annotated :
  add_diagnostics message [] source annotated = Ok tt (annotated ++ raw source).
Proof.
  destruct (annotated_lines (raw source) []) as (order & w & Hw & Hj & Ho); [constructor|].
  unfold add_diagnostics. change (fold_left _ [] ?t) with (annotate_all t []).
  rewrite Hw, all_rows_plain, Hj; [done|]. intros k. destruct (Ho k) as [Hp _].
  by apply Permutation_nil.
Qed.
