(* ===== verification/TestDefinitionProperties.v ===== *)
(** * Properties of test suites

    The tests are run in the order they were registered, each on the files the
    one before left; the exit code says whether all of them succeeded. *)
From S2P Require Import Prelude Monad Cstring Utils TestDefinition.

#[local] Arguments u : simpl never.

Lemma alter_middle {A} (f : A → A) l1 x l2 : alter f (length l1) (l1 ++ x :: l2) = l1 ++ f x :: l2.
Proof. induction l1 as [|y l1 IH]; [done|]. simpl. f_equal. exact IH. Qed.

Lemma imap_shift {A} k (l : list A) :
  imap ((λ j x, (k + j, x)) ∘ S) l = imap (λ j x, (S k + j, x)) l.
Proof. apply imap_ext. intros j x _. simpl. by rewrite Nat.add_succ_r. Qed.

Section suites.
Context {F : Type}.
Context (now : F → Z * F) (wait_fuel : nat) (async_runs : bool).

(** What the tests need of the files; reading the clock keeps it. *)
Context (Inv : F → Prop).
Hypothesis now_keeps : ∀ f, Inv f → Inv (snd (now f)).

(** A procedure ends, or fails the test. *)
Definition settles (p : Procedure) : Prop :=
  ∀ t f, Inv f → ∃ f', Inv f' ∧ (
    run_procedure now wait_fuel async_runs t p f = Ok tt f' ∨
    ∃ what, run_procedure now wait_fuel async_runs t p f = Throw (BaselineAssertionError what) f').

(** What running a test makes of it. *)
Inductive result_of (t : TestPtr) (x : Test) (f : F) : Test → F → Prop :=
  | test_succeeds f' :
      run_procedure now wait_fuel async_runs t (test_procedure x) f = Ok tt f' →
      result_of t x f (set_result true (message x) x) f'
  | test_fails what f' :
      run_procedure now wait_fuel async_runs t (test_procedure x) f =
        Throw (BaselineAssertionError what) f' →
      result_of t x f (set_result false (c_string what) x) f'.

(** The tests of a domain, from its [j]th on, and the domains from the [i]th on. *)
Inductive tests_run (i : nat) : nat → list Test → F → list Test → F → Prop :=
  | no_test j f : tests_run i j [] f [] f
  | next_test j x l f x' f' l' f'' :
      result_of (i, j) x f x' f' → tests_run i (S j) l f' l' f'' →
      tests_run i j (x :: l) f (x' :: l') f''.

Inductive domains_run : nat → list Domain → F → list Domain → F → Prop :=
  | no_domain i f : domains_run i [] f [] f
  | next_domain i name l f l' f' ds ds' f'' :
      tests_run i 0 l f l' f' → domains_run (S i) ds f' ds' f'' →
      domains_run i (mkDomain name l :: ds) f (mkDomain name l' :: ds') f''.

Abbreviation Suites := (Suites (F := F)).

(** A step that only writes the output. *)
Definition prints (m : M Suites unit) : Prop :=
  ∀ s, ∃ text, m s = Ok tt (set_cout text s).

Lemma print_prints text : prints (print text).
Proof. intros s. by eexists. Qed.

Lemma set_cout_again a b (s : Suites) : set_cout a (set_cout b s) = set_cout a s.
Proof. done. Qed.

Lemma prints_then (m m' : M Suites unit) : prints m → prints m' → prints (m;; m').
Proof.
  intros Hm Hm' s. destruct (Hm s) as [a Ha]. destruct (Hm' (set_cout a s)) as [b Hb].
  exists b. erewrite run_bind by exact Ha. rewrite Hb. by rewrite set_cout_again.
Qed.

(** The suites with a test that runs in the middle. *)
Definition focused (D1 : list Domain) (name : list Z) (T1 : list Test) (rest : list Test)
    (D2 : list Domain) (f : F) (s : Suites) : Prop :=
  domains s = D1 ++ mkDomain name (T1 ++ rest) :: D2 ∧ files s = f.

Lemma focused_cout D1 name T1 rest D2 f s text :
  focused D1 name T1 rest D2 f s → focused D1 name T1 rest D2 f (set_cout text s).
Proof. done. Qed.

Lemma update_focused D1 name T1 x rest D2 f g s :
  focused D1 name T1 (x :: rest) D2 f s →
  ∃ s', update_test (length D1, length T1) g s = Ok tt s' ∧
    focused D1 name T1 (g x :: rest) D2 f s'.
Proof.
  intros [Hd Hf]. eexists. split; [reflexivity|]. split; [|done]. simpl. rewrite Hd, alter_middle.
  simpl. by rewrite alter_middle.
Qed.

Lemma run_report_focused D1 name T1 x rest D2 f s :
  settles (test_procedure x) → Inv f → focused D1 name T1 (x :: rest) D2 f s →
  ∃ x' f' s', Inv f' ∧ run_and_report now wait_fuel async_runs (length D1, length T1) x s = Ok tt s' ∧
    result_of (length D1, length T1) x f x' f' ∧ focused D1 name T1 (x' :: rest) D2 f' s'.
Proof.
  intros Hx Hinv [Hd Hf]. set (t := (length D1, length T1)).
  assert (Hrest : ∀ x' f' s' succeeded, Inv f' → focused D1 name T1 (x' :: rest) D2 f' s' →
    result_of t x f x' f' → run_test now wait_fuel async_runs t x s = Ok succeeded s' →
    ∃ x' f' s', Inv f' ∧ run_and_report now wait_fuel async_runs t x s = Ok tt s' ∧
      result_of t x f x' f' ∧ focused D1 name T1 (x' :: rest) D2 f' s').
  { intros x' f' s' succeeded Hf' Hfoc Hres Hrun. unfold run_and_report.
    assert (Hp : prints (print (u " " ++ test_name x);;
      if negb succeeded then print (escape (u "0") ++ endl) else print endl))
      by (apply prints_then; [apply print_prints|destruct succeeded; apply print_prints]).
    destruct (Hp s') as [text Htext]. exists x', f', (set_cout text s'). split; [done|].
    erewrite run_bind by exact Hrun. by rewrite Htext. }
  destruct (Hx t f Hinv) as (f' & Hf' & [Hrun|[what Hrun]]).
  - destruct (update_focused D1 name T1 x rest D2 f' (λ x, set_result true (message x) x) (set_files f' s))
      as (s' & Hup & Hfoc); [by split|].
    assert (Hz : zoom (run_procedure now wait_fuel async_runs t (test_procedure x)) s = Ok tt (set_files f' s))
      by (unfold zoom; cbn [sub suites_files]; by rewrite Hf, Hrun).
    eapply (Hrest _ _ (set_cout _ s')); [exact Hf'|exact Hfoc|by constructor|]. unfold run_test, try_catch.
    erewrite run_bind by exact Hz. by erewrite run_bind by exact Hup.
  - destruct (update_focused D1 name T1 x rest D2 f' (set_result false (c_string what)) (set_files f' s))
      as (s' & Hup & Hfoc); [by split|].
    assert (Hz : zoom (run_procedure now wait_fuel async_runs t (test_procedure x)) s =
      Throw (BaselineAssertionError what) (set_files f' s))
      by (unfold zoom; cbn [sub suites_files]; by rewrite Hf, Hrun).
    eapply (Hrest _ _ (set_cout _ s')); [exact Hf'|exact Hfoc|by econstructor|]. unfold run_test, try_catch.
    rewrite (run_bind_throw _ _ _ _ _ Hz). by erewrite run_bind by exact Hup.
Qed.

(** The loop over the tests of a domain, from the [length T1]th on. *)
Lemma run_tests_focused D1 name D2 rest T1 f s :
  Forall (λ x, settles (test_procedure x)) rest → Inv f → focused D1 name T1 rest D2 f s →
  ∃ rest' f' s', Inv f' ∧
    iter_list (λ '(j, x), run_and_report now wait_fuel async_runs (length D1, j) x)
      (imap (λ j x, (length T1 + j, x)) rest) s = Ok tt s' ∧
    tests_run (length D1) (length T1) rest f rest' f' ∧
    focused D1 name (T1 ++ rest') [] D2 f' s'.
Proof.
  intros Hrest. revert T1 f s. induction Hrest as [|x rest Hx _ IH]; intros T1 f s Hinv Hs.
  { exists [], f, s. split; [done|]. split; [done|]. split; [constructor|]. by rewrite app_nil_r. }
  destruct (run_report_focused D1 name T1 x rest D2 f s Hx Hinv Hs) as (x' & f1 & s1 & Hinv1 & Hrun & Hres & [Hd1 Hf1]).
  assert (Hs1 : focused D1 name (T1 ++ [x']) rest D2 f1 s1) by (split; [by rewrite <- app_assoc|done]).
  destruct (IH _ _ _ Hinv1 Hs1) as (rest' & f' & s' & Hinv' & Hloop & Htests & Hs').
  exists (x' :: rest'), f', s'. rewrite <- app_assoc in Hs'. rewrite length_app, Nat.add_1_r in *.
  split; [done|]. split; [|split; [by econstructor|exact Hs']].
  rewrite imap_cons, Nat.add_0_r. cbn [iter_list]. erewrite run_bind by exact Hrun.
  by rewrite imap_shift.
Qed.

Lemma then_prints (m m' : M Suites unit) s s' :
  m s = Ok tt s' → prints m' → ∃ text, (m;; m') s = Ok tt (set_cout text s').
Proof. intros Hm Hm'. destruct (Hm' s') as [text Ht]. exists text. by erewrite run_bind by exact Hm. Qed.

Lemma run_domain_runs D1 name l D2 f s :
  Forall (λ x, settles (test_procedure x)) l → Inv f →
  domains s = D1 ++ mkDomain name l :: D2 → files s = f →
  ∃ l' f' s', Inv f' ∧ run_domain now wait_fuel async_runs (length D1) (mkDomain name l) s = Ok tt s' ∧
    tests_run (length D1) 0 l f l' f' ∧
    domains s' = (D1 ++ [mkDomain name l']) ++ D2 ∧ files s' = f'.
Proof.
  intros Hl Hinv Hd Hf. unfold run_domain.
  set (title := u "  " ++ _). destruct (print_prints title s) as [text Htext].
  erewrite run_bind by exact Htext.
  destruct (run_tests_focused D1 name D2 l [] f (set_cout text s) Hl Hinv) as (l' & f' & s' & Hinv' & Hloop & Htests & [Hd' Hf']);
    [by split|].
  assert (Htail : prints (print endl;;
    print (u "    " ++ to_string (Z.of_nat (length (tests (mkDomain name l)))) ++ u " total");;
    print (endl ++ endl))).
  { repeat apply prints_then; apply print_prints. }
  destruct (then_prints _ _ _ _ Hloop Htail) as [text' Hrun].
  exists l', f', (set_cout text' s'). split; [done|]. split; [exact Hrun|]. split; [done|].
  split; [|done]. simpl. rewrite Hd', app_nil_r, <- app_assoc. done.
Qed.

Lemma run_domains_run ds D1 f s :
  Forall (λ d, Forall (λ x, settles (test_procedure x)) (tests d)) ds → Inv f →
  domains s = D1 ++ ds → files s = f →
  ∃ ds' f' s', Inv f' ∧ iter_list (λ '(i, d), run_domain now wait_fuel async_runs i d)
      (imap (λ i d, (length D1 + i, d)) ds) s = Ok tt s' ∧
    domains_run (length D1) ds f ds' f' ∧ domains s' = D1 ++ ds' ∧ files s' = f'.
Proof.
  intros Hds. revert D1 f s. induction Hds as [|[name l] ds Hl _ IH]; intros D1 f s Hinv Hd Hf.
  { exists [], f, s. split; [done|]. split; [done|]. split; [constructor|done]. }
  destruct (run_domain_runs D1 name l ds f s Hl Hinv Hd Hf) as (l' & f1 & s1 & Hinv1 & Hrun & Htests & Hd1 & Hf1).
  destruct (IH _ f1 s1 Hinv1 Hd1 Hf1) as (ds' & f' & s' & Hinv' & Hloop & Hruns & Hd' & Hf').
  exists (mkDomain name l' :: ds'), f', s'. rewrite length_app, Nat.add_1_r in *.
  split; [done|]. split; [|split; [by econstructor|by rewrite Hd', <- app_assoc]].
  rewrite imap_cons, Nat.add_0_r. cbn [iter_list]. erewrite run_bind by exact Hrun.
  by rewrite imap_shift.
Qed.

(** ** Counting *)

(** The test has run. *)
Definition has_result (x : Test (F := F)) : Prop := ∃ b, success x = Some b.

Lemma result_success t x f x' f' : result_of t x f x' f' → has_result x'.
Proof. destruct 1; by eexists. Qed.

Lemma tests_run_success i j l f l' f' :
  tests_run i j l f l' f' → Forall has_result l'.
Proof. induction 1; constructor; eauto using result_success. Qed.

Lemma domains_run_success i ds f ds' f' :
  domains_run i ds f ds' f' → Forall has_result (flat_map tests ds').
Proof.
  induction 1; [constructor|]. simpl. apply list.Forall_app. split; [by eapply tests_run_success|done].
Qed.

Lemma failed_tests_run (l failed : list (Test (F := F))) (s : Suites) :
  Forall has_result l →
  fold_each l (λ failed t,
      succeeded ← deref (success t);
      mret (if (succeeded : bool) then failed else failed ++ [t])) failed s =
    Ok (failed ++ base.filter (λ t, success t ≠ Some true) l) s.
Proof.
  intros Hl. revert failed. induction Hl as [|x l [b Hx] _ IH]; intros failed; [by rewrite app_nil_r|].
  cbn [iter_acc]. erewrite run_bind by (rewrite Hx; reflexivity). rewrite IH, filter_cons, Hx.
  destruct b; [by rewrite decide_False by tauto|]. rewrite decide_True by congruence. by rewrite <- app_assoc.
Qed.

Lemma prints_before {A} (m : M Suites unit) (k : M Suites A) a :
  prints m → (∀ s, ∃ text, k s = Ok a (set_cout text s)) →
  ∀ s, ∃ text, (m;; k) s = Ok a (set_cout text s).
Proof.
  intros Hm Hk s. destruct (Hm s) as [t Ht]. destruct (Hk (set_cout t s)) as [t' Ht'].
  exists t'. erewrite run_bind by exact Ht. by rewrite Ht'.
Qed.

Lemma prints_nothing {A} (a : A) : ∀ s : Suites, ∃ text, mret (M := M Suites) a s = Ok a (set_cout text s).
Proof. intros s. exists (cout s). by destruct s. Qed.

Lemma prints_each {A} (l : list A) (m : A → M Suites unit) :
  (∀ x, prints (m x)) → prints (for_each l m).
Proof.
  intros Hm. induction l as [|x l IH]; [exact (prints_nothing tt)|]. by apply prints_then.
Qed.

(** The exit code: one where a test failed. *)
Lemma print_stats_code (s : Suites) :
  Forall has_result (flat_map tests (domains s)) →
  ∃ text, print_stats s =
    Ok (if decide (base.filter (λ t, success t ≠ Some true) (flat_map tests (domains s)) = [])
        then 0 else 1)%Z (set_cout text s).
Proof.
  intros Hall. unfold print_stats. erewrite run_bind by reflexivity. cbv zeta.
  erewrite run_bind by (by apply failed_tests_run). rewrite app_nil_l.
  set (failed := base.filter _ _).
  assert (Hcode : (if (Z.of_nat (length failed) =? 0)%Z then 0 else 1)%Z =
    (if decide (failed = []) then 0 else 1)%Z) by (destruct failed; [done|by rewrite decide_False]).
  rewrite Hcode. do 6 (apply prints_before; [apply print_prints|]).
  apply prints_before; [|apply prints_nothing].
  destruct (0 <? Z.of_nat (length failed))%Z; [|exact (prints_nothing tt)].
  apply prints_then; [apply print_prints|]. apply prints_each. intros t.
  apply prints_then; apply print_prints.
Qed.

Lemma no_failed_test (l : list (Test (F := F))) :
  base.filter (λ t, success t ≠ Some true) l = [] ↔ Forall (λ t, success t = Some true) l.
Proof.
  induction l as [|x l IH]; [done|]. rewrite filter_cons, list.Forall_cons, <- IH.
  case_decide as Hx; [split; [done|tauto]|]. destruct (success x) as [[]|]; naive_solver.
Qed.

(** The suites run. *)
Lemma run_suites_domains s :
  Forall (λ d, Forall (λ x, settles (test_procedure x)) (tests d)) (domains s) → Inv (files s) →
  ∃ f s', run_test_suites now wait_fuel async_runs s = Ok tt s' ∧ Inv f ∧
    domains_run 0 (domains s) (snd (now (files s))) (domains s') f ∧ files s' = snd (now f).
Proof.
  intros Hall Hinv. unfold run_test_suites, steady_clock_now. pose proof (now_keeps _ Hinv) as Hinv0.
  destruct (now (files s)) as [t f0] eqn:En.
  erewrite run_bind by (unfold zoom; cbn [sub suites_files]; rewrite En; reflexivity).
  do 4 erewrite run_bind by reflexivity. cbv beta. set (s0 := set_cout _ _).
  destruct (run_domains_run (domains s) [] f0 s0) as (ds & f & s1 & Hf' & Hloop & Hruns & Hd & Hf); [done..|].
  erewrite run_bind by exact Hloop. erewrite run_bind by reflexivity.
  destruct (now f) as [t' f'] eqn:En'.
  erewrite run_bind by (unfold zoom; cbn [sub suites_files]; simpl; rewrite Hf, En'; reflexivity).
  exists f. eexists. split; [reflexivity|]. simpl. by rewrite Hd, En'.
Qed.

(** C37: where every procedure ends or fails its test with the assertion of the
    framework, running the suites runs each test once, in the order of their
    registration and on the files the one before left, and notes its result; the
    exit code of the statistics is zero exactly when all of them succeeded. *)
Theorem suites_run s :
  Forall (λ d, Forall (λ x, settles (test_procedure x)) (tests d)) (domains s) → Inv (files s) →
  ∃ code f s',
    (run_test_suites now wait_fuel async_runs;; print_stats) s = Ok code s' ∧
    domains_run 0 (domains s) (snd (now (files s))) (domains s') f ∧ files s' = snd (now f) ∧
    (code = 0%Z ∨ code = 1%Z) ∧
    (code = 0%Z ↔ Forall (λ t, success t = Some true) (flat_map tests (domains s'))).
Proof.
  intros Hall Hinv. destruct (run_suites_domains s Hall Hinv) as (f & s1 & Hrun & _ & Hruns & Hf).
  destruct (print_stats_code s1) as [text Hcode]; [by eapply domains_run_success|].
  eexists _, f, _. split; [erewrite run_bind by exact Hrun; exact Hcode|]. simpl.
  split; [done|]. split; [done|]. rewrite <- no_failed_test.
  case_decide as Hn; split; auto; split; auto; done.
Qed.
End suites.

(** ** An example

    Files that count the tests that ran, with a procedure of each kind. *)

Definition counts : M nat unit := modify S.

Definition passing : Test := new_Test (u "normal") (Normal (λ _, counts)).
Definition asserting : Test :=
  new_Test (u "assertion") (Normal (λ _, counts;; throw (BaselineAssertionError (u "no")))).
Definition finishing : Test :=
  new_Test (u "done") (Done (λ _ done, modify (λ s, (S (fst s), snd s));; done)).
Definition reporting : Test :=
  new_Test (u "error") (SuccessError (λ _ done error,
    modify (λ s, (S (fst s), snd s));; error (u "one");; error (u "two");; done)).

Definition frozen (f : nat) : Z * nat := (Z.of_nat f, f).

Definition example_suites : Suites (F := nat) :=
  mkSuites 0 [mkDomain (u "A") [passing; asserting]; mkDomain (u "B") [finishing; reporting]] None 0 0 [].

Lemma suites_run_witness :
  ∃ s', (run_test_suites frozen 1 true;; print_stats) example_suites = Ok 1%Z s' ∧ files s' = 4 ∧
    map (map (λ t, (success t, message t)) ∘ tests) (domains s') =
      [[(Some true, []); (Some false, u "no")];
       [(Some true, []); (Some false, u "one" ++ [10; 10]%Z ++ u "two")]].
Proof.
  destruct (suites_run frozen 1 true (λ _, True) (λ _ _, I) example_suites)
    as (code & f & s' & Hrun & _ & _ & Hcode & _).
  - repeat constructor; intros t f _; exists (S f); (split; [done|]);
      first [left; reflexivity|right; eexists; reflexivity].
  - done.
  - exists s'. rewrite Hrun. vm_compute in Hrun. injection Hrun as <- <-.
    by vm_compute.
Defined.
