(* ===== verification/TestCaseText.v ===== *)
(** * Test files as text

    The lexemes of a test file, the tokens the scanner takes for them, and the
    rendering of test cases and [@foreach] statements as lexemes between blanks. *)
From S2P Require Import Prelude Monad Character StdMap Diagnostic TestCaseScanner.

#[local] Arguments u : simpl never.

(** ** Lexemes *)

Inductive lexeme :=
  | TestWord
  | ForEachWord
  | EndWord
  | Punct (ch : char32)
  | Word (w : ustring)
  | Literal (w : ustring).

Definition lexeme_text (l : lexeme) : ustring :=
  match l with
  | TestWord => u "@test"
  | ForEachWord => u "@foreach"
  | EndWord => u "@end"
  | Punct ch => [ch]
  | Word w => w
  | Literal w => Character.DoubleQuote :: w ++ [Character.DoubleQuote]
  end.

Definition lexeme_token (l : lexeme) : TestCaseToken.t :=
  match l with
  | TestWord => TestCaseToken.TestDirective
  | ForEachWord => TestCaseToken.ForEachDirective
  | EndWord => TestCaseToken.EndDirective
  | Punct ch => default TestCaseToken.Unknown (punctuation ch)
  | Word _ => TestCaseToken.Identifier
  | Literal _ => TestCaseToken.StringLiteral
  end.

(** The text of a literal: a backslash is followed by a character it escapes. *)
Fixpoint literal_ok (w : ustring) : bool :=
  match w with
  | [] => true
  | c :: w' =>
      if (c =? Character.Backslash)%Z then
        match w' with
        | c' :: w'' => is_escape c' && literal_ok w''
        | [] => false
        end
      else negb (c =? Character.DoubleQuote)%Z && literal_ok w'
  end.

Definition word_ok (w : ustring) : bool :=
  match w with c :: w' => is_identifier_start c && forallb is_identifier_part w' | [] => false end.

Definition lexeme_ok (l : lexeme) : bool :=
  match l with
  | Punct ch => match punctuation ch with Some _ => true | None => false end
  | Word w => word_ok w
  | Literal w => literal_ok w
  | _ => true
  end.

(** What is skipped between lexemes. *)
Definition is_blank (c : char32) : bool :=
  bool_decide (c ∈ [Character.NewLine; Character.Space; Character.ByteOrderMark; Character.Hash]).

(** A name or directive ends before what follows. *)
Definition ends_before (l : lexeme) (t : ustring) : Prop :=
  match l with
  | Punct _ | Literal _ => True
  | _ => is_identifier_part (nth 0 t 0%Z) = false
  end.

(** ** The state between tokens *)

Section text.
Context {template : ustring} {d : bool}.

(** The cursor is before the text [t]; [d] says whether the definitions behind
    [template] have begun. *)
Record reading (t : ustring) (s : TestCaseScanner) : Prop := {
  reading_source : ∃ pre, source s = pre ++ t ∧ length pre = position s;
  reading_size : size s = length (source s);
  reading_definitions : in_definition_location s = d;
  reading_template : source_code_template s = template;
  reading_diagnostics : diagnostics s = []
}.

(** The token that was taken is the text [w]. *)
Record token_is (w : ustring) (s : TestCaseScanner) : Prop := {
  token_is_text : substr (token_start_position s) (get_token_length s) (source s) = w;
  token_is_start : (token_start_position s ≤ size s)%nat
}.

Abbreviation reads m Q s := (wp False m Q (λ _ _, False) s).

Definition char_at (s : TestCaseScanner) (i : nat) : char32 := nth i (source s) 0%Z.

Lemma reading_position t s : reading t s → (position s + length t = size s)%nat.
Proof. intros [(pre & Hs & Hl) Hz _ _ _]. rewrite Hz, Hs, length_app. lia. Qed.

Lemma reading_char t s i : reading t s → char_at s (position s + i) = nth i t 0%Z.
Proof.
  intros [(pre & Hs & Hl) _ _ _ _]. unfold char_at. rewrite Hs, <- Hl, app_nth2_plus. done.
Qed.

Lemma text_source_at i Q s :
  size s = length (source s) → (i ≤ size s)%nat → Q (char_at s i) s → reads (source_at i) Q s.
Proof.
  intros Hz Hi HQ. apply (wp_intro_ok _ _ _ _ _ (char_at s i) s); [|done].
  unfold source_at, char_at. destruct (Nat.ltb_spec i (size s)); [done|].
  rewrite (proj2 (Nat.eqb_eq i (size s))), nth_overflow by lia. done.
Qed.

Lemma text_next_char t Q s :
  reading t s → Q (nth 0 t 0%Z) s → reads current_char Q s.
Proof.
  intros Hr HQ. unfold current_char. do 2 wp_step.
  apply text_source_at; [apply Hr|pose proof (reading_position _ _ Hr); lia|].
  pose proof (reading_char t s 0 Hr) as Hc. rewrite Nat.add_0_r in Hc. by rewrite Hc.
Qed.

Definition advance (s : TestCaseScanner) : TestCaseScanner :=
  set_position_column (S (position s)) (S (column s)) s.

Lemma text_increment_position (Q : unit → TestCaseScanner → Prop) s :
  Q tt (advance s) → reads increment_position Q s.
Proof. by apply wp_modified. Qed.

Lemma reading_advance c t s : reading (c :: t) s → reading t (advance s).
Proof.
  intros [(pre & Hs & Hl) Hz Hd Ht Hg]. split; simpl; try done.
  exists (pre ++ [c]). rewrite <- app_assoc, length_app. simpl. split; [done|lia].
Qed.

(** A loop that reads a text; a further iteration reads some of it. *)
Lemma text_reading_loop {A B} (I : A → ustring → TestCaseScanner → Prop)
    (body : A → M TestCaseScanner (A + B)) (Q : B → TestCaseScanner → Prop) a t s :
  I a t s → (∀ a t s, I a t s → reading t s) →
  (∀ a t s, I a t s →
    reads (body a) (λ r s',
      match r with
      | inl a' => ∃ t', I a' t' s' ∧ (length t' < length t)%nat ∧ size s' = size s
      | inr b => Q b s'
      end) s) →
  reads (scan_loop body a) Q s.
Proof.
  intros HI Hreading Hbody. unfold scan_loop. do 2 wp_step.
  apply (wp_loop _ (λ a s, ∃ t, I a t s) (λ _ s, size s - position s)%nat);
    [by exists t|pose proof (reading_position _ _ (Hreading _ _ _ HI)); unfold scan_fuel; lia|].
  intros a' s' [t' HI']. eapply wp_mono; [by apply (Hbody a' t')| |done].
  intros [a''|b] s''; [|done]. intros (t'' & HI'' & Hlt & Hz). split; [by exists t''|].
  pose proof (reading_position _ _ (Hreading _ _ _ HI')).
  pose proof (reading_position _ _ (Hreading _ _ _ HI'')). lia.
Qed.

(** ** Tokens of lexemes *)

(** The text from a place to the cursor, and from the start of the token. *)
Definition spans (i : nat) (w : ustring) (s : TestCaseScanner) : Prop :=
  ∃ pre post, source s = pre ++ w ++ post ∧ i = length pre ∧
    position s = (length pre + length w)%nat.

Definition token_at (w : ustring) (s : TestCaseScanner) : Prop := spans (token_start_position s) w s.

Lemma spans_substr i w s : spans i w s → substr i (position s - i) (source s) = w.
Proof. intros (pre & post & Hs & Ht & Hp). rewrite Hs. by apply substr_app_mid; lia. Qed.

Lemma spans_start i w s : size s = length (source s) → spans i w s → (i ≤ size s)%nat.
Proof. intros Hz (pre & post & Hs & Ht & Hp). rewrite Hz, Hs, Ht, !length_app. lia. Qed.

Lemma token_at_is w s : size s = length (source s) → token_at w s → token_is w s.
Proof. intros Hz Hw. split; [by apply spans_substr|by eapply spans_start]. Qed.

Lemma spans_advance i c w t s : reading (c :: t) s → spans i w s → spans i (w ++ [c]) (advance s).
Proof.
  intros [(pre' & Hs' & Hl') _ _ _ _] (pre & post & Hs & Ht & Hp). exists pre, t. simpl.
  split; [|by rewrite length_app; simpl; split; [|lia]].
  assert (Hpre : pre' = pre ++ w).
  { rewrite Hs in Hs'. rewrite app_assoc in Hs'. apply (f_equal (take (length pre'))) in Hs'.
    rewrite take_app_length in Hs'. rewrite <- Hs', Hl', Hp, <- length_app, take_app_length. done. }
  rewrite Hs', Hpre, <- !app_assoc. done.
Qed.

Lemma token_at_advance c w t s : reading (c :: t) s → token_at w s → token_at (w ++ [c]) (advance s).
Proof. apply spans_advance. Qed.

Lemma get_token_value_text t w s (Q : ustring → TestCaseScanner → Prop) :
  reading t s → token_is w s → Q w s → reads get_token_value Q s.
Proof.
  intros Hr [Hw Hst] HQ. unfold get_token_value, source_substr. do 4 wp_step.
  rewrite (proj2 (Nat.ltb_ge _ _)) by done. wp_step. by rewrite Hw.
Qed.

(** The rest of a name. *)
Lemma scan_identifier_parts_text n w t v s :
  forallb is_identifier_part w = true → is_identifier_part (nth 0 t 0%Z) = false →
  reading (w ++ t) s → token_at v s →
  reads (scan_identifier_parts n) (λ _ s', reading t s' ∧ token_at (v ++ w) s' ∧
    newline_position s' = newline_position s ∧ source s' = source s) s.
Proof.
  intros Hw Ht Hr Hv. unfold scan_identifier_parts.
  apply (text_reading_loop (λ _ rest s', ∃ v' w', v ++ w = v' ++ w' ∧ rest = w' ++ t ∧
    forallb is_identifier_part w' = true ∧ reading rest s' ∧ token_at v' s' ∧
    newline_position s' = newline_position s ∧ source s' = source s) _ _ n (w ++ t)).
  - by exists v, w.
  - intros ? ? ? (? & ? & ? & ? & ? & Hr' & _). exact Hr'.
  - intros k rest s' (v' & w' & Hvw & -> & Hw' & Hr' & Hv' & Hn & Hsrc). wp_step. wp_step.
    pose proof (reading_position _ _ Hr') as Hpos.
    destruct (Nat.ltb_spec (position s') (size s')) as [Hlt|Hge]; simpl.
    + wp_step. eapply text_next_char; [exact Hr'|]. destruct w' as [|c w']; simpl in *.
      * rewrite Ht. wp_step. rewrite Hvw, app_nil_r. done.
      * apply andb_prop in Hw' as [Hc Hw']. rewrite Hc. wp_step. apply text_increment_position. wp_step.
        exists (w' ++ t). split; [|split; [lia|done]]. exists (v' ++ [c]), w'.
        rewrite <- app_assoc. split; [done|]. split; [done|]. split; [done|].
        split; [by apply reading_advance in Hr'|]. by split; [eapply token_at_advance|].
    + wp_step. rewrite length_app in Hpos. assert (w' = []) as -> by (destruct w'; [done|simpl in *; lia]).
      rewrite Hvw, app_nil_r. done.
Qed.

(** A literal, behind its first quote. *)
Lemma test_scan_string_literal_text w t s :
  literal_ok w = true → reading (w ++ Character.DoubleQuote :: t) s →
  reads scan_string_literal (λ token s', token = TestCaseToken.StringLiteral ∧ reading t s' ∧
    string_literal s' = w) s.
Proof.
  intros Hw Hr. unfold scan_string_literal. do 4 wp_step.
  set (start := position s). set (s0 := set_string_literal [] s).
  assert (Hr0 : reading (w ++ Character.DoubleQuote :: t) s0) by (by destruct Hr; split).
  apply (text_reading_loop (λ _ rest s', ∃ v' w', w = v' ++ w' ∧ rest = w' ++ Character.DoubleQuote :: t ∧
    literal_ok w' = true ∧ reading rest s' ∧ spans start v' s' ∧ string_literal s' = [])
    _ _ tt (w ++ Character.DoubleQuote :: t)).
  - exists [], w. split_and!; [done..| |done]. destruct (reading_source _ _ Hr0) as (pre & Hs & Hl).
    exists pre, (w ++ Character.DoubleQuote :: t). unfold start. change (position s) with (position s0).
    split; [done|]. split; [done|]. rewrite <- Hl. simpl. lia.
  - intros ? ? ? (? & ? & ? & ? & ? & Hr' & _). exact Hr'.
  - intros _ rest s' (v' & w' & Hvw & -> & Hw' & Hr' & Hv' & Hl). do 2 wp_step.
    pose proof (reading_position _ _ Hr') as Hpos. rewrite (proj2 (Nat.ltb_ge _ _)) by lia.
    wp_step. eapply text_next_char; [exact Hr'|]. destruct w' as [|c w']; simpl in *.
    + change (34 =? 92)%Z with false. cbv iota. wp_step. unfold source_substr. do 2 wp_step.
      rewrite (proj2 (Nat.ltb_ge _ _)) by (by eapply spans_start; [apply Hr'|]). do 4 wp_step.
      apply text_increment_position. wp_step. split; [done|]. split.
      * apply (reading_advance Character.DoubleQuote). by destruct Hr'; split.
      * simpl. rewrite Hl, (spans_substr _ _ _ Hv'), Hvw. by rewrite app_nil_r.
    + destruct (Z.eqb_spec c Character.Backslash) as [->|Hc].
      * destruct w' as [|c' w']; [done|]. apply andb_prop in Hw' as [Hc' Hw'].
        unfold scan_escape_sequence. do 2 wp_step. apply text_increment_position. wp_step.
        pose proof (reading_advance _ _ _ Hr') as Hr1. simpl in Hr1.
        eapply text_next_char; [exact Hr1|]. simpl. rewrite Hc'. cbn [when].
        apply text_increment_position. wp_step. exists (w' ++ Character.DoubleQuote :: t).
        split; [|split; [lia|done]]. exists (v' ++ [Character.Backslash; c']), w'.
        rewrite Hvw, <- app_assoc. split_and!; [done..|by eapply reading_advance| |done].
        pose proof (spans_advance _ _ _ _ _ Hr' Hv') as Hv1.
        pose proof (spans_advance _ _ _ _ _ Hr1 Hv1) as Hv2. by rewrite <- app_assoc in Hv2.
      * apply andb_prop in Hw' as [Hq Hw']. apply negb_true_iff in Hq. rewrite Hq.
        wp_step. apply text_increment_position. wp_step.
        exists (w' ++ Character.DoubleQuote :: t). split; [|split; [lia|done]].
        exists (v' ++ [c]), w'. rewrite Hvw, <- app_assoc.
        split_and!; [done..|by eapply reading_advance|by eapply spans_advance|done].
Qed.

Lemma reading_same t s s' :
  reading t s → source s' = source s → size s' = size s → position s' = position s →
  in_definition_location s' = in_definition_location s →
  source_code_template s' = source_code_template s → diagnostics s' = diagnostics s → reading t s'.
Proof.
  intros [(pre & Hs & Hl) Hz Hd Ht Hg] E1 E2 E3 E4 E5 E6.
  split; [exists pre; by rewrite E1, E3|congruence..].
Qed.

Lemma token_at_first c t s :
  reading (c :: t) s → token_start_position s = position s → token_at [c] (advance s).
Proof.
  intros Hr Hst. apply (spans_advance _ _ [] t s); [done|].
  destruct (reading_source _ _ Hr) as (pre & Hs & Hl). exists pre, (c :: t).
  split; [done|]. simpl. lia.
Qed.
End text.
Arguments reading : clear implicits.

(** The rest of a text is shorter. *)
Ltac shorter := unfold char32, ustring in *; simpl; rewrite ?length_app; simpl; rewrite ?length_app; simpl; lia.

(** Decide the comparisons of known characters. *)
Ltac char_eqb :=
  repeat match goal with
  | |- context [(?a =? ?b)%Z] =>
      let r := eval vm_compute in (a =? b)%Z in
      lazymatch r with true => idtac | false => idtac end; change (a =? b)%Z with r
  end; cbn [negb andb orb].

Section definitions.
Context {template : ustring}.
Abbreviation reads m Q s := (wp False m Q (λ _ _, False) s).

(** In the definitions. *)
Abbreviation inside := (reading template true).

(** A step of the body up to its first comparison. *)
Lemma body_character b c t s (Q : bool + TestCaseToken.t → TestCaseScanner → Prop) :
  inside (c :: t) s →
  reads (if (c =? Character.NewLine)%Z then
      modify (λ s, set_newline_position (position s - 1) s);;
      modify skip_new_line;; mret (inl b)
    else if (c =? Character.CarriageReturn)%Z then
      modify (λ s, set_newline_position (position s - 1) s);;
      s ← get;
      next ← source_at (position s + 1);
      when (next =? Character.NewLine)%Z increment_position;;
      modify skip_new_line;; mret (inl b)
    else if (c =? Character.DoubleQuote)%Z then finish scan_string_literal
    else if ((c =? Character.ByteOrderMark) || (c =? Character.Space))%Z then
      modify skip_character;; mret (inl b)
    else if (c =? Character.At)%Z then
      modify (λ s, set_token_start (position s - 1) (token_start_line s) (token_start_column s) s);;
      mret (inl true)
    else if (c =? Character.Hash)%Z then modify skip_character;; mret (inl b)
    else match punctuation c with
    | Some token => mret (inr token)
    | None => if is_identifier_start c then take_name b else mret (inr TestCaseToken.Unknown)
    end) Q (advance s) →
  reads (take_next_token_body true b) Q s.
Proof.
  intros Hr HQ. unfold take_next_token_body. wp_step. wp_step.
  pose proof (reading_position _ _ Hr) as Hp. simpl in Hp. rewrite (proj2 (Nat.ltb_lt _ _)) by lia.
  cbn [negb]. wp_step. eapply text_next_char; [exact Hr|]. simpl nth. wp_step.
  apply text_increment_position. rewrite (reading_definitions _ _ Hr). exact HQ.
Qed.

Lemma is_blank_cases c :
  is_blank c = true →
  c = Character.NewLine ∨ c = Character.Space ∨ c = Character.ByteOrderMark ∨ c = Character.Hash.
Proof.
  unfold is_blank. rewrite bool_decide_eq_true, !elem_of_cons, elem_of_nil. tauto.
Qed.

Lemma body_blank b c t s :
  is_blank c = true → inside (c :: t) s → token_start_position s = position s →
  reads (take_next_token_body true b) (λ r s', r = inl b ∧ inside t s' ∧
    token_start_position s' = position s' ∧ size s' = size s) s.
Proof.
  intros Hc Hr Ht. eapply body_character; [exact Hr|].
  pose proof (reading_advance _ _ _ Hr) as Hr'.
  assert (Hskip : ∀ f, (f = skip_new_line ∨ f = skip_character) → ∀ s', inside t s' →
    S (token_start_position s') = position s' → size s' = size s →
    reads (modify f;; mret (inl (B := TestCaseToken.t) b)) (λ r s', r = inl b ∧ inside t s' ∧
      token_start_position s' = position s' ∧ size s' = size s) s').
  { intros f Hf s' Hs' Hst Hz. do 3 wp_step. split; [done|].
    destruct Hf as [-> | ->]; (split; [by eapply reading_same|done]). }
  apply is_blank_cases in Hc as [->|[->|[->| ->]]]; char_eqb.
  - do 2 wp_step. apply Hskip; [by left| |simpl; by rewrite Ht|done]. by eapply reading_same.
  - apply Hskip; [by right|done|simpl; by rewrite Ht|done].
  - apply Hskip; [by right|done|simpl; by rewrite Ht|done].
  - change (punctuation Character.Hash) with (@None TestCaseToken.t).
    apply Hskip; [by right|done|simpl; by rewrite Ht|done].
Qed.

Lemma identifier_start_other c :
  is_identifier_start c = true →
  (c =? Character.NewLine)%Z = false ∧ (c =? Character.CarriageReturn)%Z = false ∧
  (c =? Character.DoubleQuote)%Z = false ∧
  ((c =? Character.ByteOrderMark) || (c =? Character.Space))%Z = false ∧
  (c =? Character.At)%Z = false ∧ (c =? Character.Hash)%Z = false ∧ punctuation c = None.
Proof.
  unfold is_identifier_start, punctuation. rewrite !orb_true_iff, !andb_true_iff, !Z.leb_le, Z.eqb_eq.
  cbv [Character.A Character.Z Character.a Character.z Character.Underscore].
  intros Hc. assert (Hne : ∀ k, (k < 65 ∨ 90 < k < 95 ∨ k = 96 ∨ 122 < k)%Z → (c =? k)%Z = false).
  { intros k Hk. apply Z.eqb_neq. lia. }
  split_and!; try (apply Hne; vm_compute; intuition congruence);
    rewrite ?(Hne _); try (vm_compute; intuition congruence); done.
Qed.

Lemma test_punctuation_other c token :
  punctuation c = Some token →
  (c =? Character.NewLine)%Z = false ∧ (c =? Character.CarriageReturn)%Z = false ∧
  (c =? Character.DoubleQuote)%Z = false ∧
  ((c =? Character.ByteOrderMark) || (c =? Character.Space))%Z = false ∧
  (c =? Character.At)%Z = false ∧ (c =? Character.Hash)%Z = false.
Proof.
  unfold punctuation. intros Hp.
  repeat match goal with
  | H : (if (c =? ?k)%Z then _ else _) = Some _ |- _ =>
      destruct (Z.eqb_spec c k) as [->|_]; [by vm_compute|]
  end. done.
Qed.

(** After the token of a lexeme. *)
Definition read_lexeme (l : lexeme) (t : ustring) (token : TestCaseToken.t) (s : TestCaseScanner) :
    Prop :=
  token = lexeme_token l ∧ inside t s ∧
  match l with Literal w => string_literal s = w | _ => token_is (lexeme_text l) s end.

Lemma test_take_name_text (b : bool) l w t v s :
  forallb is_identifier_part w = true → is_identifier_part (nth 0 t 0%Z) = false →
  inside (w ++ t) s → token_at v s → v ++ w = lexeme_text l →
  (if b then l = TestWord ∨ l = ForEachWord ∨ l = EndWord else ∃ x, l = Word x) →
  reads (take_name b) (λ r s', ∃ token, r = inr token ∧ read_lexeme l t token s') s.
Proof.
  intros Hw Ht Hr Hv Hvw Hl. unfold take_name. wp_step.
  eapply wp_mono; [by apply (scan_identifier_parts_text (template := template) (d := true))| |done].
  intros n s' (Hr' & Hat & _ & _). rewrite Hvw in Hat.
  assert (His : token_is (lexeme_text l) s') by (apply token_at_is; [apply Hr'|done]).
  wp_step. eapply get_token_value_text; [exact Hr'|exact His|]. cbv zeta.
  destruct b; cbn [negb].
  - destruct Hl as [-> | [-> | ->]].
    1,2: change (get_token_from_value _ n) with (lexeme_token TestWord) ||
      change (get_token_from_value _ n) with (lexeme_token ForEachWord); cbn [lexeme_token];
      do 2 wp_step; rewrite (reading_definitions _ _ Hr'); cbn [negb]; do 3 wp_step;
      by eexists.
    change (get_token_from_value _ n) with (lexeme_token EndWord). cbn [lexeme_token]. wp_step. by eexists.
  - destruct Hl as [x ->]. wp_step. by eexists.
Qed.

(** A directive: what is behind its [@]. *)
Inductive directive_name : lexeme → char32 → ustring → Prop :=
  | test_name : directive_name TestWord Character.t (u "est")
  | foreach_name : directive_name ForEachWord Character.f (u "oreach")
  | end_name : directive_name EndWord Character.e (u "nd").

Lemma directive_name_ok l c w :
  directive_name l c w → lexeme_text l = Character.At :: c :: w ∧ is_identifier_start c = true ∧
    forallb is_identifier_part w = true ∧ (l = TestWord ∨ l = ForEachWord ∨ l = EndWord).
Proof. destruct 1; (split; [reflexivity|]); (split; [reflexivity|]); (split; [reflexivity|]); auto. Qed.

(** After the first step at a lexeme: the token is taken, or the [@] of a
    directive is. *)
Definition stepped (l : lexeme) (t : ustring) (s : TestCaseScanner)
    (r : bool + TestCaseToken.t) (s' : TestCaseScanner) : Prop :=
  match r with
  | inr token => read_lexeme l t token s'
  | inl b => b = true ∧ size s' = size s ∧ ∃ c w, directive_name l c w ∧
      inside (c :: w ++ t) s' ∧ token_at [Character.At] s'
  end.

Lemma body_directive l c w t s :
  directive_name l c w → inside (lexeme_text l ++ t) s → token_start_position s = position s →
  reads (take_next_token_body true false) (stepped l t s) s.
Proof.
  intros Hl Hr Hst. destruct (directive_name_ok _ _ _ Hl) as (E & _). rewrite E in Hr.
  eapply body_character; [exact Hr|]. char_eqb. do 3 wp_step.
  pose proof (reading_advance _ _ _ Hr) as Hr'. split; [done|]. split; [done|].
  exists c, w. split; [done|]. split; [by eapply reading_same|].
  destruct (token_at_first _ _ _ Hr Hst) as (pre & post & Hs & Ht & Hp). exists pre, post.
  simpl in *. split; [done|]. lia.
Qed.

Lemma body_punct ch t s :
  lexeme_ok (Punct ch) = true → inside (ch :: t) s → token_start_position s = position s →
  reads (take_next_token_body true false) (stepped (Punct ch) t s) s.
Proof.
  intros Hok Hr Hst. simpl in Hok. destruct (punctuation ch) as [token|] eqn:Hp; [|done].
  eapply body_character; [exact Hr|].
  destruct (test_punctuation_other _ _ Hp) as (-> & -> & -> & -> & -> & ->). rewrite Hp. wp_step.
  pose proof (reading_advance _ _ _ Hr) as Hr'. split; [simpl; by rewrite Hp|]. split; [done|].
  apply token_at_is; [apply Hr'|]. by eapply token_at_first.
Qed.

Lemma body_word w t s :
  lexeme_ok (Word w) = true → ends_before (Word w) t → inside (w ++ t) s →
  token_start_position s = position s →
  reads (take_next_token_body true false) (stepped (Word w) t s) s.
Proof.
  intros Hok Hend Hr Hst. destruct w as [|c w]; [done|]. apply andb_prop in Hok as [Hc Hw].
  eapply body_character; [exact Hr|].
  destruct (identifier_start_other _ Hc) as (-> & -> & -> & -> & -> & -> & ->). rewrite Hc.
  eapply wp_mono; [eapply (test_take_name_text false (Word (c :: w)) w t [c]); try done| |done].
  - exact (reading_advance _ _ _ Hr).
  - by eapply token_at_first.
  - by eexists.
  - by intros r s' (token & -> & Htoken).
Qed.

Lemma body_literal w t s :
  lexeme_ok (Literal w) = true → inside (lexeme_text (Literal w) ++ t) s →
  reads (take_next_token_body true false) (stepped (Literal w) t s) s.
Proof.
  intros Hok Hr. simpl in Hr. rewrite <- app_assoc in Hr. eapply body_character; [exact Hr|]. char_eqb.
  unfold finish. wp_step.
  eapply wp_mono; [eapply test_scan_string_literal_text; [exact Hok|exact (reading_advance _ _ _ Hr)]| |done].
  intros token s' (-> & Hr' & Hl). by wp_step.
Qed.

Lemma body_lexeme_text l t s :
  lexeme_ok l = true → ends_before l t → inside (lexeme_text l ++ t) s →
  token_start_position s = position s →
  reads (take_next_token_body true false) (stepped l t s) s.
Proof.
  intros Hok Hend Hr Hst.
  destruct l; [eapply body_directive; [constructor|done..]..|by apply body_punct|by apply body_word|by apply body_literal].
Qed.

Lemma body_directive_name l c w t s :
  directive_name l c w → ends_before l t → inside (c :: w ++ t) s → token_at [Character.At] s →
  reads (take_next_token_body true true) (λ r s', ∃ token, r = inr token ∧ read_lexeme l t token s') s.
Proof.
  intros Hl Hend Hr Hat. destruct (directive_name_ok _ _ _ Hl) as (E & Hc & Hw & Hl').
  eapply body_character; [exact Hr|].
  destruct (identifier_start_other _ Hc) as (-> & -> & -> & -> & -> & -> & ->). rewrite Hc.
  eapply (test_take_name_text true l w t [Character.At; c]).
  - done.
  - by destruct Hl.
  - exact (reading_advance _ _ _ Hr).
  - exact (token_at_advance _ _ _ _ Hr Hat).
  - by rewrite E.
  - exact Hl'.
Qed.

(** Taking a token takes the blanks and the lexeme in front of the cursor. *)
Lemma take_next_token_text l w t s :
  forallb is_blank w = true → lexeme_ok l = true → ends_before l t →
  inside (w ++ lexeme_text l ++ t) s →
  reads take_next_token (read_lexeme l t) s.
Proof.
  intros Hw Hok Hend Hr. unfold take_next_token, take_next_token_with, set_token_start_position.
  do 2 wp_step. set (s1 := set_token_start _ _ _ _).
  assert (Hr1 : inside (w ++ lexeme_text l ++ t) s1) by (by eapply reading_same).
  assert (Hst1 : token_start_position s1 = position s1) by done. clearbody s1. clear s Hr.
  apply (text_reading_loop (template := template) (d := true) (λ b rest s', inside rest s' ∧
    ((b = false ∧ token_start_position s' = position s' ∧ ∃ w, forallb is_blank w = true ∧
        rest = w ++ lexeme_text l ++ t) ∨
     (b = true ∧ token_at [Character.At] s' ∧ ∃ c w, directive_name l c w ∧ rest = c :: w ++ t)))
    _ _ false (w ++ lexeme_text l ++ t)); [split; [done|]; left; eauto|by intros ? ? ? [? _]|].
  clear s1 Hr1 Hst1 w Hw. intros b rest s [Hr [(-> & Hst & w & Hw & ->)|(-> & Hat & c & w & Hl & ->)]].
  - destruct w as [|c w].
    + eapply wp_mono; [by apply body_lexeme_text| |done]. intros [b|token] s'; [|done].
      intros (-> & Hz & c & w & Hl & Hr' & Hat). exists (c :: w ++ t). split; [split; [done|right; split; [done|split; [done|by exists c, w]]]|].
      split; [|done]. destruct (directive_name_ok _ _ _ Hl) as (E & _). simpl. rewrite E. simpl. lia.
    + apply andb_prop in Hw as [Hc Hw]. eapply wp_mono; [by eapply (body_blank false c)| |done].
      intros r s' (-> & Hr' & Hst' & Hz). exists (w ++ lexeme_text l ++ t).
      split; [split; [done|left; split; [done|split; [done|by exists w]]]|]. simpl. split; [lia|done].
  - eapply wp_mono; [by eapply body_directive_name| |done]. by intros r s' (token & -> & Ht).
Qed.
End definitions.

(** ** The first directive *)

(** A character of a template. *)
Definition is_plain (c : char32) : bool :=
  negb (bool_decide (c ∈ [Character.DoubleQuote; Character.CarriageReturn; Character.At])).

Definition is_space (c : char32) : bool :=
  bool_decide (c ∈ [Character.Space; Character.ByteOrderMark]).

Section template.
Context (template : ustring).
Abbreviation reads m Q s := (wp False m Q (λ _ _, False) s).

(** Before the definitions, with the whole file as the template. *)
Context (file : ustring).
Abbreviation outside := (reading file false).
Abbreviation inside := (reading template true).

Lemma body_outside b c t s (Q : bool + TestCaseToken.t → TestCaseScanner → Prop) :
  outside (c :: t) s →
  reads (if (c =? Character.NewLine)%Z then
      modify (λ s, set_newline_position (position s - 1) s);;
      modify skip_new_line;; mret (inl b)
    else if (c =? Character.CarriageReturn)%Z then
      modify (λ s, set_newline_position (position s - 1) s);;
      s ← get;
      next ← source_at (position s + 1);
      when (next =? Character.NewLine)%Z increment_position;;
      modify skip_new_line;; mret (inl b)
    else if (c =? Character.DoubleQuote)%Z then finish scan_string_literal
    else if ((c =? Character.ByteOrderMark) || (c =? Character.Space))%Z then
      modify skip_character;; mret (inl b)
    else if (c =? Character.At)%Z then
      modify (λ s, set_token_start (position s - 1) (token_start_line s) (token_start_column s) s);;
      mret (inl true)
    else if negb b then mret (inl b)
    else if (c =? Character.Hash)%Z then modify skip_character;; mret (inl b)
    else match punctuation c with
    | Some token => mret (inr token)
    | None => if is_identifier_start c then take_name b else mret (inr TestCaseToken.Unknown)
    end) Q (advance s) →
  reads (take_next_token_body true b) Q s.
Proof.
  intros Hr HQ. unfold take_next_token_body. wp_step. wp_step.
  pose proof (reading_position _ _ Hr) as Hp. simpl in Hp. rewrite (proj2 (Nat.ltb_lt _ _)) by lia.
  cbn [negb]. wp_step. eapply text_next_char; [exact Hr|]. simpl nth. wp_step.
  apply text_increment_position. rewrite (reading_definitions _ _ Hr). exact HQ.
Qed.

Lemma is_plain_other c :
  is_plain c = true → (c =? Character.CarriageReturn)%Z = false ∧
    (c =? Character.DoubleQuote)%Z = false ∧ (c =? Character.At)%Z = false.
Proof.
  unfold is_plain. rewrite negb_true_iff, bool_decide_eq_false, !elem_of_cons, !Z.eqb_neq. tauto.
Qed.

(** A character of the template, or a space behind it. *)
Lemma is_space_plain c :
  is_space c = true → is_plain c = true ∧ (c =? Character.NewLine)%Z = false.
Proof.
  unfold is_space. rewrite bool_decide_eq_true, !elem_of_cons, elem_of_nil. by intros [->|[->|?]].
Qed.

Lemma body_plain c t s :
  is_plain c = true → outside (c :: t) s →
  reads (take_next_token_body true false) (λ r s', r = inl false ∧ outside t s' ∧
    source s' = source s ∧
    newline_position s' = if (c =? Character.NewLine)%Z then position s else newline_position s) s.
Proof.
  intros Hc Hr. eapply body_outside; [exact Hr|].
  destruct (is_plain_other _ Hc) as (-> & -> & ->).
  pose proof (reading_advance _ _ _ Hr) as Hr'.
  destruct (c =? Character.NewLine)%Z.
  - do 5 wp_step. split_and!; [done|by eapply reading_same|done|simpl; lia].
  - destruct ((c =? Character.ByteOrderMark) || (c =? Character.Space))%Z; cbn [negb].
    + do 3 wp_step. split_and!; [done|by eapply reading_same|done..].
    + by wp_step.
Qed.

Lemma body_at t s :
  outside (Character.At :: t) s →
  reads (take_next_token_body true false) (λ r s', r = inl true ∧ outside t s' ∧
    token_at [Character.At] s' ∧ source s' = source s ∧ newline_position s' = newline_position s) s.
Proof.
  intros Hr. eapply body_outside; [exact Hr|]. char_eqb. do 3 wp_step.
  pose proof (reading_advance _ _ _ Hr) as Hr'. split_and!; [done|by eapply reading_same| |done..].
  destruct (reading_source _ _ Hr) as (pre & Hs & Hl). exists pre, t. simpl. split; [done|]. lia.
Qed.

(** The first directive ends the template. *)
Lemma body_first l c w t s :
  directive_name l c w → l ≠ EndWord → ends_before l t →
  outside (c :: w ++ t) s → token_at [Character.At] s →
  take (newline_position s) (source s) = template →
  reads (take_next_token_body true true)
    (λ r s', ∃ token, r = inr token ∧ read_lexeme (template := template) l t token s') s.
Proof.
  intros Hl Hne Hend Hr Hat Htemplate. destruct (directive_name_ok _ _ _ Hl) as (E & Hc & Hw & _).
  eapply body_outside; [exact Hr|]. cbn [negb].
  destruct (identifier_start_other _ Hc) as (-> & -> & -> & -> & -> & -> & ->). rewrite Hc.
  pose proof (reading_advance _ _ _ Hr) as Hr'.
  pose proof (token_at_advance _ _ _ _ Hr Hat) as Hat'.
  unfold take_name. wp_step.
  eapply wp_mono; [apply (scan_identifier_parts_text (template := file) (d := false) 1 w t [Character.At; c]);
    [done|by destruct Hl|exact Hr'|exact Hat']| |done].
  intros n s' (Hs' & Hat'' & Hn & Hsrc). change ([Character.At; c] ++ w) with (Character.At :: c :: w) in Hat''.
  rewrite <- E in Hat''. assert (His : token_is (lexeme_text l) s') by (apply token_at_is; [apply Hs'|done]).
  assert (Hbegin : inside t (begin_definitions (substr 0 (newline_position s') (source s')) s')).
  { destruct Hs' as [? ? ? ? ?]. split; simpl; try done. unfold substr. by rewrite drop_0, Hn, Hsrc. }
  wp_step. eapply get_token_value_text; [exact Hs'|exact His|]. cbv zeta. cbn [negb].
  destruct Hl; [| |done];
    [change (get_token_from_value _ n) with (lexeme_token TestWord)
    |change (get_token_from_value _ n) with (lexeme_token ForEachWord)]; cbn [lexeme_token];
    do 2 wp_step; rewrite (reading_definitions _ _ Hs'); cbn [negb]; wp_step; wp_step;
    unfold source_substr; do 2 wp_step; rewrite (proj2 (Nat.ltb_ge _ _)) by lia; do 3 wp_step;
    (eexists; split; [done|]; split; [done|]; split; [exact Hbegin|by destruct His; split]).
Qed.

(** On the way to the first directive: in the template, in the spaces behind it, or
    behind the [@]. *)
Inductive approaching (spaces : ustring) (l : lexeme) (t : ustring) :
    bool → ustring → TestCaseScanner → Prop :=
  | in_template v s :
      forallb is_plain v = true →
      approaching spaces l t false (v ++ Character.NewLine :: spaces ++ lexeme_text l ++ t) s
  | in_spaces v s :
      forallb is_space v = true → newline_position s = length template →
      approaching spaces l t false (v ++ lexeme_text l ++ t) s
  | behind_at c w s :
      directive_name l c w → newline_position s = length template → token_at [Character.At] s →
      approaching spaces l t true (c :: w ++ t) s.

Definition approach (spaces : ustring) (l : lexeme) (t : ustring) (b : bool) (rest : ustring)
    (s : TestCaseScanner) : Prop :=
  outside rest s ∧ source s = file ∧ approaching spaces l t b rest s.

Lemma approach_step spaces l c w t b rest s :
  file = template ++ Character.NewLine :: spaces ++ lexeme_text l ++ t →
  forallb is_space spaces = true → directive_name l c w → l ≠ EndWord → ends_before l t →
  approach spaces l t b rest s →
  reads (take_next_token_body true b) (λ r s',
    match r with
    | inl b' => ∃ rest', approach spaces l t b' rest' s' ∧ (length rest' < length rest)%nat ∧
        size s' = size s
    | inr token => read_lexeme (template := template) l t token s'
    end) s.
Proof.
  intros Hfile Hspaces Hname Hne Hend (Hr & Hsrc & Hcase).
  assert (Hgo : ∀ b' rest' s', outside rest' s' → source s' = source s →
    approaching spaces l t b' rest' s' → (length rest' < length rest)%nat →
    ∃ rest', approach spaces l t b' rest' s' ∧ (length rest' < length rest)%nat ∧ size s' = size s).
  { intros b' rest' s' Hr' Hs' Ha Hlt. exists rest'. split; [split; [done|split; [congruence|done]]|].
    split; [done|]. by rewrite (reading_size _ _ Hr'), (reading_size _ _ Hr), Hs'. }
  destruct (directive_name_ok _ _ _ Hname) as (E & _).
  destruct Hcase as [[|x v] s Hv|[|x v] s Hv Hn|c' w' s Hname' Hn Hat].
  - eapply wp_mono; [by eapply (body_plain Character.NewLine)| |done].
    intros r s' (-> & Hr' & Hs' & Hn). apply Hgo with (1 := Hr'); [done| |shorter].
    apply in_spaces; [done|]. pose proof (reading_position _ _ Hr) as Hp.
    rewrite (reading_size _ _ Hr), Hsrc, Hfile in Hp. simpl in Hn, Hp.
    rewrite !length_app in Hp. simpl in Hp. rewrite !length_app in Hp. lia.
  - apply andb_prop in Hv as [Hx Hv]. eapply wp_mono; [by eapply (body_plain x)| |done].
    intros r s' (-> & Hr' & Hs' & _). apply Hgo with (1 := Hr'); [done| |shorter].
    by apply (in_template spaces l t v).
  - rewrite E in Hr. eapply wp_mono; [by eapply body_at| |done].
    intros r s' (-> & Hr' & Hat & Hs' & Hn'). apply Hgo with (1 := Hr'); [done| |rewrite E; shorter].
    apply behind_at; [done|congruence|done].
  - apply andb_prop in Hv as [Hx Hv]. destruct (is_space_plain x Hx) as [Hx1 Hx2].
    eapply wp_mono; [by eapply (body_plain x)| |done].
    intros r s' (-> & Hr' & Hs' & Hn'). rewrite Hx2 in Hn'.
    apply Hgo with (1 := Hr'); [done| |shorter]. apply in_spaces; [done|congruence].
  - eapply wp_mono; [eapply (body_first l c' w' t s); try done| |done].
    + by rewrite Hn, Hsrc, Hfile, take_app_length.
    + by intros r s' (token & -> & Ht).
Qed.

(** The first token of a file is its first directive; the template is what is
    before the line of the directive. *)
Lemma first_token any spaces l t :
  file = template ++ Character.NewLine :: spaces ++ lexeme_text l ++ t →
  forallb is_plain template = true → forallb is_space spaces = true →
  (l = TestWord ∨ l = ForEachWord) → ends_before l t →
  reads take_next_token (read_lexeme (template := template) l t) (new_TestCaseScanner any file).
Proof.
  intros Hfile Htemplate Hspaces Hl Hend.
  assert (Hname : ∃ c w, directive_name l c w) by (destruct Hl as [-> | ->]; do 2 eexists; constructor).
  destruct Hname as (c & w & Hname).
  unfold take_next_token, take_next_token_with, set_token_start_position. do 2 wp_step.
  apply (text_reading_loop (template := file) (d := false) (approach spaces l t) _ _ false file).
  - split; [split; simpl; [by exists []|done..]|]. split; [done|]. rewrite Hfile. by apply in_template.
  - by intros b rest s [Hr _].
  - intros b rest s Ha. eapply approach_step; [done..| |done|exact Ha]. by destruct Hl as [-> | ->].
Qed.
End template.
