(* ===== verification/TestCaseScannerProperties.v ===== *)
(** * Properties of the scanner of test cases

    Scanning a test file ends, reads inside it and throws only where a directive is
    not what is expected.  Printed test files are in TestCaseFiles.v, the expansion
    of [@foreach] in TestCaseExpansion.v. *)
From S2P Require Import Prelude Monad Character StdMap Diagnostic TestCaseScanner.

#[local] Arguments u : simpl never.

(** ** Reading *)

Section safety.
Context (text : ustring).

(** What is left undefined: the look-ahead behind a carriage return at the end. *)
Definition ends_with_cr : Prop := list.last text = Some Character.CarriageReturn.

Record ok (s : TestCaseScanner) : Prop := {
  ok_source : source s = text;
  ok_size : size s = length text;
  ok_position : (position s ≤ S (length text))%nat
}.

(** A step inside a token. *)
Record moved (s s' : TestCaseScanner) : Prop := {
  moved_ok : ok s';
  moved_saved : saved_text_cursors s' = saved_text_cursors s;
  moved_position : (position s ≤ position s')%nat
}.

Lemma moved_refl s : ok s → moved s s.
Proof. by split. Qed.

Lemma moved_trans s1 s2 s3 : moved s1 s2 → moved s2 s3 → moved s1 s3.
Proof. intros [] []. split; [done|congruence|lia]. Qed.

(** No exception is thrown inside tokens. *)
Abbreviation runs m Q s := (wp ends_with_cr m Q (λ _ _, False) s).

Lemma test_source_at i Q s :
  ok s → (i ≤ length text)%nat → Q (nth i text 0%Z) s → runs (source_at i) Q s.
Proof.
  intros [Hsrc Hsize _] Hi HQ. apply (wp_intro_ok _ _ _ _ _ (nth i text 0%Z) s); [|done].
  unfold source_at. rewrite Hsize, Hsrc. destruct (Nat.ltb_spec i (length text)); [done|].
  rewrite (proj2 (Nat.eqb_eq i (length text))), nth_overflow by lia. done.
Qed.

Lemma test_current_char Q s :
  ok s → (position s ≤ length text)%nat → Q (nth (position s) text 0%Z) s → runs current_char Q s.
Proof. intros. unfold current_char. do 2 wp_step. by apply test_source_at. Qed.

Definition advance (s : TestCaseScanner) : TestCaseScanner :=
  set_position_column (S (position s)) (S (column s)) s.

Lemma test_increment_position (Q : unit → TestCaseScanner → Prop) s :
  Q tt (advance s) → runs increment_position Q s.
Proof. by apply wp_modified. Qed.

Lemma advance_moved s : ok s → (position s ≤ length text)%nat → moved s (advance s).
Proof. intros [] Hp. split; [split|..]; simpl; try done; lia. Qed.

Lemma test_source_substr i n Q s :
  ok s → (i ≤ length text)%nat → Q (substr i n text) s → runs (source_substr i n) Q s.
Proof.
  intros [Hsrc Hsize _] Hi HQ. unfold source_substr. do 2 wp_step.
  rewrite (proj2 (Nat.ltb_ge _ _)) by lia. wp_step. by rewrite Hsrc.
Qed.

Lemma test_get_token_value Q s :
  ok s → (token_start_position s ≤ length text)%nat →
  Q (substr (token_start_position s) (get_token_length s) text) s → runs get_token_value Q s.
Proof. intros. unfold get_token_value. do 2 wp_step. by apply test_source_substr. Qed.

(** Loops whose further iterations move the cursor. *)
Lemma test_scan_loop {A B} X (I : A → TestCaseScanner → Prop)
    (body : A → M TestCaseScanner (A + B)) Q a s :
  I a s → (∀ a s, I a s → ok s) →
  (∀ a s, I a s →
    wp ends_with_cr (body a) (λ r s',
      match r with
      | inl a' => I a' s' ∧ (position s < position s')%nat
      | inr b => Q b s'
      end) X s) →
  wp ends_with_cr (scan_loop body a) Q X s.
Proof.
  intros HI Hok Hbody. unfold scan_loop. do 2 wp_step. pose proof (Hok _ _ HI) as [_ Hsize _].
  apply (wp_loop _ I (λ _ s, S (length text) - position s)%nat); [done|unfold scan_fuel; lia|].
  intros a' s' HI'. eapply wp_mono; [by apply Hbody| |done].
  intros [a''|b] s''; [|done]. intros [HI'' Hlt]. split; [done|].
  pose proof (Hok _ _ HI'') as [_ _ Hp]. lia.
Qed.

(** The character at a position that is not NUL is inside the text. *)
Lemma char_inside i : nth i text 0%Z ≠ 0%Z → (i < length text)%nat.
Proof. intros Hc. destruct (Nat.lt_ge_cases i (length text)); [done|]. by rewrite nth_overflow in Hc. Qed.

(** ** Tokens *)

(** Inside a token, of which the start stays. *)
Record within (s s' : TestCaseScanner) : Prop := {
  within_moved : moved s s';
  within_start : token_start_position s' = token_start_position s
}.

Lemma within_trans s1 s2 s3 : within s1 s2 → within s2 s3 → within s1 s3.
Proof. intros [] []. split; [by eapply moved_trans|congruence]. Qed.

Lemma advance_within s : ok s → (position s ≤ length text)%nat → within s (advance s).
Proof. intros. split; [by apply advance_moved|done]. Qed.

Lemma within_refl s : ok s → within s s.
Proof. intros. by split; [apply moved_refl|]. Qed.

Lemma scan_escape_sequence_moves s :
  ok s → (position s < length text)%nat →
  runs scan_escape_sequence (λ _ s', within s s' ∧ (position s < position s')%nat) s.
Proof.
  intros Hok Hp. unfold scan_escape_sequence. wp_step. apply test_increment_position.
  pose proof (advance_within s Hok ltac:(lia)) as Hm. wp_step.
  apply test_current_char; [apply Hm|simpl; lia|]. wp_step; [|split; [done|simpl; lia]].
  apply test_increment_position. apply bool_decide_eq_true in H.
  assert (Hin : (position (advance s) < length text)%nat).
  { apply char_inside. intros E. rewrite E in H. by apply (bool_decide_pack _) in H. }
  split; [|simpl; lia]. eapply within_trans; [exact Hm|]. apply advance_within; [apply Hm|lia].
Qed.

Lemma scan_string_literal_moves s :
  ok s → (position s ≤ length text)%nat →
  runs scan_string_literal (λ token s', token = TestCaseToken.StringLiteral ∧ within s s') s.
Proof.
  intros Hok Hp. unfold scan_string_literal. do 4 wp_step.
  apply (test_scan_loop _ (λ _ s', within s s')); [split; [split|]; by destruct Hok|by intros ? ? [[]]|].
  intros _ s' Hs. pose proof (moved_ok _ _ (within_moved _ _ Hs)) as Hok'.
  do 3 wp_step; [by split|].
  apply Nat.ltb_ge in H. rewrite (ok_size _ Hok') in H.
  wp_step. apply test_current_char; [done|done|]. wp_step; [|wp_step].
  - assert (Hc : (position s' < length text)%nat).
    { apply char_inside. apply Z.eqb_eq in H0. by rewrite H0. }
    wp_step. eapply wp_mono; [by apply scan_escape_sequence_moves| |done].
    intros ? s'' [Hs'' Hlt]. split; [by eapply within_trans|done].
  - wp_step. apply test_source_substr; [done|done|]. do 2 wp_step. wp_step. apply test_increment_position.
    split; [done|]. eapply within_trans; [exact Hs|]. destruct Hok'. split; [|done].
    split; [split|..]; simpl; try done; lia.
  - wp_step. apply test_increment_position. wp_step. split; [|simpl; lia].
    eapply within_trans; [exact Hs|]. by apply advance_within.
Qed.

Lemma scan_identifier_parts_moves n s :
  ok s → (position s ≤ length text)%nat →
  runs (scan_identifier_parts n) (λ _ s', within s s' ∧ (position s' ≤ length text)%nat) s.
Proof.
  intros Hok Hp. unfold scan_identifier_parts.
  apply (test_scan_loop _ (λ _ s', within s s' ∧ (position s' ≤ length text)%nat));
    [split; [by apply within_refl|done]|by intros ? ? [[[]]]|].
  intros k s' [Hs Hp']. pose proof (moved_ok _ _ (within_moved _ _ Hs)) as Hok'.
  do 3 wp_step; [done|]. bool_hyps. rewrite (ok_size _ Hok') in *.
  wp_step. apply test_current_char; [done|lia|]. wp_step; [|done].
  wp_step. apply test_increment_position. wp_step. split; [split|simpl; lia].
  - eapply within_trans; [exact Hs|]. by apply advance_within.
  - simpl. lia.
Qed.

(** At a token whose start is in the text. *)
Record at_token (s : TestCaseScanner) : Prop := {
  at_ok : ok s;
  at_start : (token_start_position s ≤ position s)%nat;
  at_position : (position s ≤ length text)%nat
}.

Lemma take_name_moves b s :
  at_token s →
  runs (take_name b) (λ r s', moved s s' ∧ at_token s' ∧
    match r with inr token => token ≠ TestCaseToken.EndOfDocument | inl _ => True end) s.
Proof.
  intros [Hok Hst Hp]. unfold take_name. wp_step.
  eapply wp_mono; [by apply scan_identifier_parts_moves| |done].
  intros n s' [[Hm Hs] Hp']. pose proof (moved_ok _ _ Hm) as Hok'.
  assert (Hat : at_token s') by (destruct Hm; split; [done|lia|done]).
  wp_step. apply test_get_token_value; [done|rewrite Hs; lia|].
  cbv zeta. wp_step; [wp_step; done|]. destruct Hat as [_ Hst' _].
  assert (Hbegin : ∀ t, moved s (begin_definitions t s') ∧ at_token (begin_definitions t s')).
  { intros t. destruct Hm as [[] ? ?]. by split; [split; [split|..]|split; [split|..]]. }
  assert (Hdirective : ∀ token, token ≠ TestCaseToken.EndOfDocument →
    runs (s ← get;
      (if negb (in_definition_location s) then
        template ← source_substr 0 (newline_position s);
        modify (begin_definitions template)
      else mret tt);;
      mret (inr token)) (λ (r : bool + TestCaseToken.t) s', moved s s' ∧ at_token s' ∧
        match r with inr token => token ≠ TestCaseToken.EndOfDocument | inl _ => True end) s').
  { intros token Htoken. do 4 wp_step.
    - wp_step. apply test_source_substr; [done|lia|]. do 2 wp_step. by destruct (Hbegin (substr 0 (newline_position s') text)).
    - do 2 wp_step. split; [done|]. split; [by split|done]. }
  destruct (get_token_from_value _ _); try (by apply Hdirective);
    try (wp_step; split; [done|split; [by split|done]]);
    (wp_step; apply (wp_modified _ _ (λ s, set_token_start (position s) (token_start_line s) (token_start_column s) s));
      [done|]; wp_step; destruct Hm as [[] ? ?]; by split; [split; [split|..]|split; [split; [split|..]|]]).
Qed.

(** A token was taken, or the end of the text was reached. *)
Record taken (s : TestCaseScanner) (token : TestCaseToken.t) (s' : TestCaseScanner) : Prop := {
  taken_moved : moved s s';
  taken_start : (token_start_position s' ≤ position s')%nat;
  taken_progress : token = TestCaseToken.EndOfDocument ∨
    (token_start_position s' ≤ length text ∧ position s < position s')%nat
}.

(** After one iteration of the loop of [take_next_token]. *)
Definition iterated (s : TestCaseScanner) (r : bool + TestCaseToken.t) (s' : TestCaseScanner) : Prop :=
  match r with
  | inl _ => moved s s' ∧ (token_start_position s' ≤ position s')%nat ∧ (position s < position s')%nat
  | inr token => taken s token s'
  end.

Lemma iterated_at s r s' :
  moved s s' → at_token s' → (position s < position s')%nat → iterated s r s'.
Proof. intros Hm [] Hp. destruct r; [done|]. split; [done|done|]. right. split; [lia|done]. Qed.

Lemma newline_moved s s' :
  moved s s' → at_token s' →
  moved s (set_newline_position (position s' - 1) s') ∧
  at_token (set_newline_position (position s' - 1) s').
Proof. intros [[] ? ?] [? ? ?]. by split; [split; [split|..]|split; [split|..]]. Qed.

Lemma cr_at_end :
  (0 < length text)%nat ∧ nth (length text - 1) text 0%Z = Character.CarriageReturn → ends_with_cr.
Proof.
  unfold ends_with_cr. destruct text as [|c t] using rev_ind; simpl; [lia|].
  rewrite length_app, last_snoc. simpl. intros [_ H]. rewrite Nat.add_sub, nth_middle in H. by rewrite H.
Qed.

Lemma skipped s s' f :
  (f = skip_new_line ∨ f = skip_character) → at_token s' → moved s s' →
  (token_start_position s' < position s')%nat → (position s < position s')%nat →
  ∀ b, iterated s (inl b) (f s').
Proof.
  intros Hf [[] ? ?] [[] ? ?] ? ? b.
  destruct Hf as [-> | ->]; simpl; (split; [split; [split|..]|]); simpl; (done || lia).
Qed.

(** The look-ahead behind a carriage return. *)
Lemma carriage_return_moves b s s1 :
  ok s → (position s < length text)%nat → nth (position s) text 0%Z = Character.CarriageReturn →
  moved s s1 → at_token s1 → position s1 = S (position s) →
  (token_start_position s1 ≤ position s)%nat →
  runs (next ← source_at (position s1 + 1);
    when (next =? Character.NewLine)%Z increment_position;;
    modify skip_new_line;; mret (inl b)) (iterated s) s1.
Proof.
  intros Hok Hp Hc Hm Hat Hs1 Ht1. wp_step.
  destruct (Nat.le_gt_cases (position s1 + 1) (length text)) as [Hle|Hgt].
  - apply test_source_at; [apply Hm|done|]. wp_step. wp_step; [apply test_increment_position|];
      do 3 wp_step; (apply skipped; [auto|..]); simpl; try lia; try done.
    + destruct (advance_moved s1 (moved_ok _ _ Hm) ltac:(lia)). split; [done|simpl; lia|simpl; lia].
    + eapply moved_trans; [exact Hm|]. apply advance_moved; [apply Hm|simpl; lia].
  - apply wp_intro_undefined.
    + unfold source_at. rewrite (ok_size _ (moved_ok _ _ Hm)).
      rewrite (proj2 (Nat.ltb_ge _ _)) by lia. by rewrite (proj2 (Nat.eqb_neq _ _)) by lia.
    + apply cr_at_end. replace (length text - 1)%nat with (position s) by lia. split; [lia|done].
Qed.

Lemma take_next_token_body_moves b s :
  ok s → (token_start_position s ≤ position s)%nat →
  runs (take_next_token_body true b) (iterated s) s.
Proof.
  intros Hok Hst. unfold take_next_token_body. do 3 wp_step.
  { split; [by apply moved_refl|done|by left]. }
  bool_hyps. rewrite (ok_size _ Hok) in *. wp_step. apply test_current_char; [done|lia|].
  set (ch := nth (position s) text 0%Z). wp_step. apply test_increment_position.
  pose proof (advance_moved s Hok ltac:(lia)) as Hm. pose proof (moved_ok _ _ Hm) as Hok'.
  assert (Hat : at_token (advance s)) by (split; [done|simpl; lia|simpl; lia]).
  destruct (newline_moved s (advance s) Hm Hat) as [Hnm Hnat]. cbn [negb].
  wp_step; [|wp_step; [|wp_step; [|wp_step; [|wp_step; [|wp_step; [|wp_step]]]]]].
  - do 5 wp_step. apply skipped; simpl; auto; lia.
  - do 4 wp_step. apply Z.eqb_eq in H1.
    apply carriage_return_moves; [done|lia|done|done|done|done|simpl; lia].
  - unfold finish. wp_step. eapply wp_mono; [apply scan_string_literal_moves; [done|simpl; lia]| |done].
    intros token s' [-> [Hm' Hst']]. wp_step.
    split; [exact (moved_trans _ _ _ Hm Hm')| |right]; rewrite Hst'; destruct Hm'; simpl in *; lia.
  - do 3 wp_step. apply skipped; simpl; auto; lia.
  - do 3 wp_step. split; [|simpl; lia]. destruct Hm as [[] ? ?]. by split; [split|..].
  - wp_step. split; [done|simpl; lia].
  - do 3 wp_step. apply skipped; simpl; auto; lia.
  - destruct (punctuation ch); [wp_step; apply iterated_at; [done|done|simpl; lia]|].
    wp_step; [|wp_step; apply iterated_at; [done|done|simpl; lia]].
    eapply wp_mono; [by apply take_name_moves| |done].
    intros r s' (Hm' & Hat' & _). apply iterated_at; [exact (moved_trans _ _ _ Hm Hm')|done|].
    destruct Hm'. simpl in *. lia.
Qed.

Lemma take_next_token_taken s : ok s → runs take_next_token (taken s) s.
Proof.
  intros Hok. unfold take_next_token, take_next_token_with, set_token_start_position. do 2 wp_step.
  set (s1 := set_token_start _ _ _ _).
  assert (Hm : moved s s1) by (destruct Hok; by split; [split|..]).
  assert (Ht : (token_start_position s1 ≤ position s1)%nat) by done.
  assert (Hp : position s1 = position s) by done. clearbody s1.
  apply (test_scan_loop _ (λ _ s', moved s s' ∧ (token_start_position s' ≤ position s')%nat));
    [done|by intros ? ? [[] _]|].
  intros b s' [Hm' Ht']. eapply wp_mono; [apply take_next_token_body_moves; [apply Hm'|done]| |done].
  intros [b'|token] s''.
  - intros (Hm'' & Ht'' & Hlt). split; [|done]. split; [by eapply moved_trans|done].
  - intros [Hm'' Ht'' Hpr]. split; [by eapply moved_trans|done|].
    destruct Hpr as [Hpr|[? ?]]; [by left|right]. destruct Hm'. lia.
Qed.

(** ** Operations on tokens *)

(** An operation that takes tokens; besides the look-ahead it may throw what
    [std::map::at] throws. *)
Definition only_out_of_range (e : exn) (_ : TestCaseScanner) : Prop := e = std_out_of_range.

Abbreviation takes m Q s := (wp ends_with_cr m Q only_out_of_range s).

Definition forward (s s' : TestCaseScanner) : Prop := ok s' ∧ (position s ≤ position s')%nat.

Lemma forward_trans s1 s2 s3 : forward s1 s2 → forward s2 s3 → forward s1 s3.
Proof. unfold forward. intros [] []. split; [done|lia]. Qed.

Lemma taken_forward s token s' : taken s token s' → forward s s'.
Proof. intros [[] _ _]. by split. Qed.

Lemma add_diagnostic_takes d args s (Q : unit → TestCaseScanner → Prop) :
  ok s → (∀ s', ok s' → position s' = position s → token_start_position s' = token_start_position s →
    Q tt s') → takes (add_diagnostic d args) Q s.
Proof. intros [] HQ. unfold add_diagnostic. wp_step. by apply HQ. Qed.

Lemma take_next_token_takes s (Q : TestCaseToken.t → TestCaseScanner → Prop) :
  ok s → (∀ token s', taken s token s' → Q token s') → takes take_next_token Q s.
Proof. intros Hok HQ. eapply wp_mono; [by apply take_next_token_taken|done|done]. Qed.

Lemma get_token_value_takes s s' token (Q : ustring → TestCaseScanner → Prop) :
  taken s token s' → token ≠ TestCaseToken.EndOfDocument → (∀ v, Q v s') → takes get_token_value Q s'.
Proof.
  intros [Hm _ Hpr] Htoken HQ. destruct Hpr as [?|[? _]]; [done|].
  eapply wp_mono; [apply test_get_token_value with (Q := Q); [apply Hm|done|apply HQ]|done|done].
Qed.

(** What an operation gives that moves forward, past the cursor when it says so. *)
Definition moves {A} (past : A → Prop) (s : TestCaseScanner) (a : A) (s' : TestCaseScanner) : Prop :=
  forward s s' ∧ (past a → (position s < position s')%nat).

Definition any {A} (_ : A) : Prop := False.

Lemma token_string_at_takes token s (Q : ustring → TestCaseScanner → Prop) :
  (∀ v, Q v s) → takes (token_string_at token) Q s.
Proof. intros HQ. unfold token_string_at. destruct (test_case_token_to_string token); wp_step; [apply HQ|done]. Qed.

Lemma scan_expected_takes token s :
  ok s → token ≠ TestCaseToken.EndOfDocument →
  takes (scan_expected token) (moves (eq true) s) s.
Proof.
  intros Hok Htoken. unfold scan_expected. wp_step. apply take_next_token_takes; [done|].
  intros result s' Ht. pose proof (taken_forward _ _ _ Ht) as Hf.
  case_decide as Heq.
  { wp_step. split; [done|]. intros _. destruct Ht as [_ _ [?|[_ ?]]]; congruence || done. }
  wp_step. apply token_string_at_takes. intros expected. wp_step.
  assert (Hreport : ∀ got, takes (add_diagnostic TestD.Expected_0_but_got_1 [expected; got];; mret false)
    (moves (eq true) s) s').
  { intros got. wp_step. apply add_diagnostic_takes; [apply Hf|]. intros s'' Hok'' Hp _. wp_step.
    split; [split; [done|destruct Hf; lia]|done]. }
  assert (Hvalue : result ≠ TestCaseToken.EndOfDocument → takes (match test_case_token_to_string result with
    | None => get_token_value | Some text => mret text end)
      (λ got s', takes (add_diagnostic TestD.Expected_0_but_got_1 [expected; got];; mret false)
        (moves (eq true) s) s') s').
  { intros Hne. destruct (test_case_token_to_string result); [by wp_step|].
    by eapply get_token_value_takes. }
  destruct result; try (by apply Hvalue). by wp_step.
Qed.

Lemma scan_optional_takes token s :
  ok s → token ≠ TestCaseToken.EndOfDocument →
  takes (scan_optional token) (moves (eq true) s) s.
Proof.
  intros Hok Htoken. unfold scan_optional, try_scan, save. do 3 wp_step.
  set (s1 := set_saved_text_cursors _ s). assert (Hok1 : ok s1) by (destruct Hok; by split).
  wp_step. apply take_next_token_takes; [done|]. intros result s' Ht.
  pose proof (taken_forward _ _ _ Ht) as Hf. case_decide as Heq.
  - do 2 wp_step. split; [exact Hf|]. intros _.
    destruct Ht as [_ _ [?|[_ Hp]]]; [congruence|exact Hp].
  - unfold revert. do 3 wp_step. destruct Ht as [[[] Hsaved _] _ _]. rewrite Hsaved. simpl.
    do 5 wp_step. rewrite bool_decide_false by done.
    split; [|done]. destruct Hok. split; [by split|done].
Qed.

(** The loops over tokens. *)
Lemma token_loop_takes {A B} (body : A → M TestCaseScanner (A + B)) a s :
  ok s →
  (∀ a s, ok s → takes (body a) (λ r s', forward s s' ∧
    match r with inl _ => (position s < position s')%nat | inr _ => True end) s) →
  takes (scan_loop body a) (moves any s) s.
Proof.
  intros Hok Hbody. apply (test_scan_loop _ (λ _ s', forward s s')); [by split|by intros ? ? []|].
  intros a' s' Hf. eapply wp_mono; [apply Hbody, Hf| |done].
  intros [a''|b] s'' [Hf' Hp]; [split; [by eapply forward_trans|done]|].
  split; [by eapply forward_trans|done].
Qed.

(** The body of a loop that takes a token first. *)
Lemma next_token_takes {A B} (k : TestCaseToken.t → M TestCaseScanner (A + B)) s :
  ok s →
  (∀ token s', taken s token s' →
    (token = TestCaseToken.EndOfDocument → takes (k token) (λ r s'', forward s' s'' ∧ ∃ b, r = inr b) s') ∧
    (token ≠ TestCaseToken.EndOfDocument → takes (k token) (λ _ s'', forward s' s'') s')) →
  takes (token ← take_next_token; k token) (λ r s', forward s s' ∧
    match r with inl _ => (position s < position s')%nat | inr _ => True end) s.
Proof.
  intros Hok Hk.
  wp_step. apply take_next_token_takes; [done|]. intros token s' Ht.
  pose proof (taken_forward _ _ _ Ht) as Hf. destruct (Hk token s' Ht) as [Hend Hother].
  destruct (decide (token = TestCaseToken.EndOfDocument)) as [E|E].
  - eapply wp_mono; [by apply Hend| |done]. intros r s'' [Hf' [b ->]].
    split; [by eapply forward_trans|done].
  - eapply wp_mono; [by apply Hother| |done]. intros r s'' Hf'. split; [by eapply forward_trans|].
    destruct r; [|done]. destruct Ht as [_ _ [?|[_ ?]]]; [done|]. destruct Hf'. lia.
Qed.

(** ** Directives *)

(** One step of a proof that an operation moves forward, from a state known to be
    behind the one before. *)
Lemma then_forward {A B} (m : M TestCaseScanner A) (k : A → M TestCaseScanner B) past
    (Q : B → TestCaseScanner → Prop) s0 s :
  forward s0 s → takes m (moves past s) s →
  (∀ a s', forward s0 s' → takes (k a) Q s') → takes (m ≫= k) Q s.
Proof.
  intros Hf Hm Hk. wp_step. eapply wp_mono; [exact Hm| |done].
  intros a s' [Hf' _]. apply Hk. by eapply forward_trans.
Qed.

Lemma forward_refl s : ok s → forward s s.
Proof. by split. Qed.

Lemma report_forward {B} d args (k : M TestCaseScanner B) (Q : B → TestCaseScanner → Prop) s0 s :
  forward s0 s → (∀ s', forward s0 s' → takes k Q s') → takes (add_diagnostic d args;; k) Q s.
Proof.
  intros [Hok Hp] Hk. wp_step. apply add_diagnostic_takes; [done|]. intros s' Hok' Hp' _.
  apply Hk. split; [done|lia].
Qed.

Lemma scan_argument_value_takes s : ok s → takes scan_argument_value (moves any s) s.
Proof.
  intros Hok. unfold scan_argument_value.
  eapply (then_forward _ _ _ _ s); [by apply forward_refl|by apply scan_expected_takes|].
  intros colon s1 H1. destruct colon; simpl; [|by wp_step].
  eapply (then_forward _ _ _ _ s); [exact H1|apply scan_expected_takes; [apply H1|done]|].
  intros literal s2 H2. destruct literal; simpl; [|by wp_step].
  unfold get_string_literal. by do 3 wp_step.
Qed.

Lemma scan_parameters_takes s : ok s → takes scan_parameters_after_open_paren (moves any s) s.
Proof.
  intros Hok. unfold scan_parameters_after_open_paren. apply token_loop_takes; [done|].
  clear s Hok. intros parameters s Hok. apply next_token_takes; [done|]. intros token s' Ht. pose proof (taken_forward _ _ _ Ht) as [Hok' _].
  split; intros Htoken; [subst token; wp_step; split; [by apply forward_refl|by eexists]|].
  assert (Hreport : takes (add_diagnostic TestD.Expected_identifier [];;
    mret (inr (A := list ustring) parameters)) (λ _ s'', forward s' s'') s').
  { eapply report_forward; [by apply forward_refl|]. intros s'' Hf. by wp_step. }
  destruct token; try done. wp_step. eapply get_token_value_takes; [exact Ht|done|].
  intros value. cbv zeta.
  eapply (then_forward _ _ _ _ s'); [by apply forward_refl|by apply scan_optional_takes|].
  intros comma s2 H2. destruct comma; [by wp_step|].
  eapply (then_forward _ _ _ _ s'); [exact H2|apply scan_expected_takes; [apply H2|done]|].
  intros _ s3 H3. by wp_step.
Qed.

Lemma parse_replacement_arguments_takes s : ok s → takes parse_replacement_arguments (moves any s) s.
Proof.
  intros Hok. unfold parse_replacement_arguments. apply token_loop_takes; [done|].
  clear s Hok. intros [file_arguments can_parse_comma] s Hok. apply next_token_takes; [done|].
  intros token s' Ht. pose proof (taken_forward _ _ _ Ht) as [Hok' _].
  pose proof (forward_refl s' Hok') as Hr.
  split; intros Htoken; [subst token; wp_step; split; [done|by eexists]|].
  destruct token; try done; try (by wp_step);
    try (eapply report_forward; [exact Hr|]; intros s'' Hf; by wp_step).
  - wp_step; [|by wp_step]. eapply report_forward; [exact Hr|]. intros s'' Hf. by wp_step.
  - wp_step. eapply get_token_value_takes; [exact Ht|done|]. intros key.
    eapply (then_forward _ _ _ _ s'); [exact Hr|by apply scan_argument_value_takes|].
    intros value s'' Hf. destruct value; by wp_step.
Qed.

Lemma parse_content_arguments_takes s : ok s → takes parse_content_arguments (moves any s) s.
Proof.
  intros Hok. unfold parse_content_arguments.
  eapply (then_forward _ _ _ _ s); [by apply forward_refl|by apply scan_expected_takes|].
  intros brace s1 H1. destruct brace; simpl; [|by wp_step].
  eapply wp_mono; [apply token_loop_takes; [apply H1|]| |done].
  2:{ intros ? s2 [H2 _]. split; [by eapply forward_trans|done]. }
  clear s Hok s1 H1. intros content_arguments s Hok. apply next_token_takes; [done|].
  intros token s' Ht. pose proof (taken_forward _ _ _ Ht) as [Hok' _].
  pose proof (forward_refl s' Hok') as Hr.
  split; intros Htoken; [subst token; wp_step; split; [done|by eexists]|].
  destruct token; try done; try (by wp_step);
    try (eapply report_forward; [exact Hr|]; intros s'' Hf; by wp_step).
  wp_step. eapply get_token_value_takes; [exact Ht|done|]. intros key.
  eapply (then_forward _ _ _ _ s'); [exact Hr|by apply scan_argument_value_takes|].
  intros value s'' Hf. destruct value; by wp_step.
Qed.

Lemma parse_test_case_arguments_takes s : ok s → takes parse_test_case_arguments (moves any s) s.
Proof.
  intros Hok. unfold parse_test_case_arguments.
  eapply (then_forward _ _ _ _ s); [by apply forward_refl|by apply parse_replacement_arguments_takes|].
  intros file_arguments s1 H1.
  eapply (then_forward _ _ _ _ s); [exact H1|apply scan_expected_takes; [apply H1|done]|].
  intros colon s2 H2. destruct colon; simpl; [|by wp_step].
  eapply (then_forward _ _ _ _ s); [exact H2|apply parse_content_arguments_takes; apply H2|].
  intros content_arguments s3 H3. destruct content_arguments; by wp_step.
Qed.

Lemma scan_foreach_rows_takes s : ok s → takes scan_foreach_rows (moves any s) s.
Proof.
  intros Hok. unfold scan_foreach_rows. apply token_loop_takes; [done|].
  clear s Hok. intros rows s Hok. wp_step.
  eapply wp_mono; [by apply scan_optional_takes| |done].
  intros bracket s1 [H1 Hp]. destruct bracket; simpl; [|by wp_step]. specialize (Hp eq_refl).
  eapply (then_forward _ _ _ _ s1); [apply forward_refl, H1|apply parse_replacement_arguments_takes, H1|].
  intros row s2 H2. wp_step. split; [by eapply forward_trans|]. destruct H2. lia.
Qed.

Lemma scan_test_rows_takes test_cases s : ok s → takes (scan_test_rows test_cases) (moves any s) s.
Proof.
  intros Hok. unfold scan_test_rows. apply token_loop_takes; [done|].
  clear s Hok test_cases. intros test_cases s Hok. apply next_token_takes; [done|].
  intros token s' Ht. pose proof (taken_forward _ _ _ Ht) as [Hok' _].
  pose proof (forward_refl s' Hok') as Hr. split; intros Htoken.
  - subst token. eapply report_forward; [exact Hr|]. intros s'' Hf. wp_step. split; [done|by eexists].
  - assert (Hrow : ∀ s'', forward s' s'' →
      takes (t ← parse_test_case_arguments;
        match t with
        | None => mret (inl (B := list TestCaseArguments) test_cases)
        | Some t => mret (inl (test_cases ++ [t]))
        end) (λ _ s3, forward s' s3) s'').
    { intros s'' Hf. eapply (then_forward _ _ _ _ s'); [exact Hf|apply parse_test_case_arguments_takes, Hf|].
      intros t s3 H3. destruct t; by wp_step. }
    assert (Hrep : takes (value ← get_token_value;
        add_diagnostic TestD.Expected_0_but_got_1 [u "["; value])
      (λ _ s'', forward s' s'') s').
    { wp_step. eapply get_token_value_takes; [exact Ht|done|]. intros value.
      apply add_diagnostic_takes; [done|]. intros s'' Hok'' Hp _. split; [done|lia]. }
    destruct token; try done; try (by wp_step);
      simpl; wp_step; try (eapply wp_mono; [exact Hrep|intros ? s'' Hf; by apply Hrow|done]).
    wp_step. by apply Hrow.
Qed.

(** [(names):] of a directive, then its rows. *)
Lemma directive_takes {B} (stop : B) (rows : M TestCaseScanner B) s0 s :
  forward s0 s →
  (∀ s', forward s0 s' → takes rows (λ _ s'', forward s0 s'') s') →
  takes (paren ← scan_expected TestCaseToken.OpenParen;
    if negb (paren : bool) then mret stop else
    scan_parameters_after_open_paren;;
    colon ← scan_expected TestCaseToken.Colon;
    if negb (colon : bool) then mret stop else rows) (λ _ s'', forward s0 s'') s.
Proof.
  intros Hf Hrows. eapply then_forward; [exact Hf|apply scan_expected_takes; [apply Hf|done]|].
  intros paren s1 H1. destruct paren; simpl; [|by wp_step].
  eapply then_forward; [exact H1|apply scan_parameters_takes, H1|]. intros _ s2 H2.
  eapply then_forward; [exact H2|apply scan_expected_takes; [apply H2|done]|].
  intros colon s3 H3. destruct colon; simpl; [|by wp_step]. by apply Hrows.
Qed.

Lemma scan_directives_takes s : ok s → takes scan_directives (moves any s) s.
Proof.
  intros Hok. unfold scan_directives. apply token_loop_takes; [done|].
  clear s Hok. intros [tests statements] s Hok. apply next_token_takes; [done|].
  intros token s' Ht. pose proof (taken_forward _ _ _ Ht) as [Hok' _].
  pose proof (forward_refl s' Hok') as Hr. split; intros Htoken.
  - subst token. unfold scan_directive. wp_step. split; [done|by eexists].
  - unfold scan_directive. destruct token; try done; try (by wp_step); apply directive_takes; try done.
    + intros s1 H1. eapply then_forward; [exact H1|apply scan_test_rows_takes, H1|].
      intros rows s2 H2. by wp_step.
    + intros s1 H1. eapply then_forward; [exact H1|apply scan_foreach_rows_takes, H1|].
      intros rows s2 H2. by wp_step.
Qed.
End safety.

(** C32: scanning any test file ends: whatever the members that are not
    initialised hold, it gives test cases or throws [std::out_of_range], and reads
    outside the file only when its last character is a carriage return. *)
Theorem scan_safe regex_replace any text :
  wp (ends_with_cr text) (scan regex_replace) (λ _ _, True) (λ e _, e = std_out_of_range)
    (new_TestCaseScanner any text).
Proof.
  unfold scan. wp_step. eapply wp_mono; [apply (scan_directives_takes text)| |done].
  - split; simpl; [done..|lia].
  - intros [tests statements] s _. by wp_step.
Qed.

(** Both happen: [at] throws for a token that is expected and has no text, and the
    look-ahead is undefined. *)
Lemma scan_throws :
  ∃ s, scan (λ _ text _, text) (new_TestCaseScanner (mkUninitialised 0 0 0 0) (u "@test x")) =
    Throw std_out_of_range s.
Proof. eexists. vm_compute. reflexivity. Qed.

Lemma scan_undefined :
  scan (λ _ text _, text)
    (new_TestCaseScanner (mkUninitialised 0 0 0 0) [Character.CarriageReturn]) = Undefined.
Proof. vm_compute. reflexivity. Qed.
