(* ===== verification/BaselineProperties.v ===== *)
(** * Properties of the baseline tests

    What a GraphQL test writes and when it succeeds; accepted tests succeed; and
    what the text of a test is. *)
From stdpp Require Import gmap.
From S2P Require Import Prelude Monad Character Cstring StdMap Diagnostic Utils Files FilesProperties TestDefinition TestDefinitionProperties.
From S2P Require Import MemoryPool TextWriter TextAnnotater TextAnnotaterProperties TestCaseScanner Scanner Parser Schema SchemaChecks Executor Baseline.

#[local] Arguments u : simpl never.

(** ** Running *)

(** The pool of a test: a ticket is taken and given back. *)
Lemma test_pool start :
  ∃ pool ticket pool' pool'',
    new_MemoryPool (block_of_pages * 10000) block_of_pages start = Ok tt pool ∧
    TakeTicket pool = Ok ticket pool' ∧ ReturnTicket ticket pool' = Ok tt pool''.
Proof.
  destruct (rev (all_blocks (block_of_pages * 10000 / block_of_pages))) as [|x rest] eqn:E.
  { apply (f_equal length) in E. rewrite length_rev in E. unfold all_blocks in E.
    rewrite length_map, length_seq in E. discriminate E. }
  unfold new_MemoryPool, Reset, mbind, M_bind, get. cbn [block_size].
  change (block_of_pages =? 0)%Z with false. cbv iota. unfold modify. cbn [total_size block_size free_blocks].
  rewrite E, app_nil_r. do 4 eexists. split; [reflexivity|].
  unfold TakeTicket, AllocateBlock, mbind, M_bind, get. cbn [free_blocks set_free_blocks].
  split; [reflexivity|]. unfold ReturnTicket, read_ticket, mbind, M_bind, get.
  cbn [tickets set_tickets set_free_blocks]. rewrite lookup_insert_eq. reflexivity.
Qed.

Section tests.
Context {F : Type} `{LawfulFileSystem F} `{StdSort}.
Context (regex_replace : ustring → ustring → ustring → ustring).
Context (split_regex : ustring → ustring → list ustring).
Context (start : Z).

(** Reading the clock changes no file, and [git diff] prints something. *)
Context (now : F → Z * F) (wait_fuel : nat) (async_runs : bool).

Definition same_files (f f' : F) : Prop :=
  (∀ q, file_at f' q = file_at f q) ∧ (∀ q, folder_at f' q = folder_at f q).

Hypothesis now_reads : ∀ f, same_files f (snd (now f)).
Hypothesis diff_prints : ∀ reference current f,
  ∃ output f', popen (diff_command reference current) f = Ok (Some output) f' ∧ same_files f f'.

Abbreviation test_text test_case := (write_diagnostics regex_replace split_regex (source test_case) []).
Abbreviation current_file test_case := (errors_file (current_folder test_case) test_case).
Abbreviation reference_file test_case := (errors_file (reference_folder test_case) test_case).

(** The folder of the current files has been created, and what a test writes and
    reads are different files. *)
Record ready (test_case : TestCase) (f : F) : Prop := {
  ready_folder : folder_at f (current_folder test_case) = true;
  ready_name : plain_name (name test_case ++ u ".errors");
  ready_current : folder_at f (current_file test_case) = false;
  ready_reference : folder_at f (reference_file test_case) = false;
  ready_apart : reference_file test_case ≠ current_file test_case
}.

(** [f'] is [f] with the current file of a test. *)
Definition current_written (test_case : TestCase) (text : list Z) (f f' : F) : Prop :=
  file_at f' (current_file test_case) = Some (c_string text) ∧
  (∀ q, q ≠ current_file test_case → file_at f' q = file_at f q) ∧
  (∀ q, folder_at f' q = folder_at f q).

Lemma current_written_same test_case text f f' f'' :
  current_written test_case text f f' → same_files f' f'' → current_written test_case text f f''.
Proof.
  intros (Hc & Hq & Hd) [Hs Hf]. split; [by rewrite Hs|]. split; intros q.
  - intros Hne. rewrite Hs. by apply Hq.
  - by rewrite Hf, Hd.
Qed.

(** The reference of a test, empty where there is none. *)
Definition reference_text (test_case : TestCase) (f : F) : list Z :=
  c_string (default [] (file_at f (reference_file test_case))).

Lemma reads_reference test_case f :
  folder_at f (reference_file test_case) = false →
  ∃ (there : bool) reference,
    exists_ (reference_file test_case) f = Ok there f ∧
    (if there then read_file (reference_file test_case) else mret []) f = Ok reference f ∧
    c_string reference = reference_text test_case f.
Proof.
  intros Hno. unfold reference_text. rewrite exists_spec, Hno.
  destruct (file_at f (reference_file test_case)) as [content|] eqn:E.
  - exists true, content. split; [done|]. split; [by apply read_file_spec|done].
  - exists false, []. done.
Qed.

Lemma execute_diff reference current f :
  ∃ output f', execute_command (diff_command reference current) f = Ok output f' ∧ same_files f f'.
Proof.
  destruct (diff_prints reference current f) as (output & f' & Hrun & Hsame). exists output, f'.
  split; [|done]. unfold execute_command. by erewrite run_bind by exact Hrun.
Qed.

(** The procedure of a test. *)
Lemma graphql_test_runs test_case t text f :
  test_text test_case = Ok tt text → ready test_case f →
  ∃ f' errors,
    graphql_test regex_replace split_regex start test_case t done_callback error_callback
      (f, mkCallbacks false []) = Ok tt (f', mkCallbacks true errors) ∧
    current_written test_case text f f' ∧
    (errors = [] ↔ c_string text = reference_text test_case f).
Proof.
  intros Htext [Hfolder Hname Hcur Href Hne].
  destruct (test_pool start) as (pool & ticket & pool' & pool'' & Hnew & Htake & Hreturn).
  destruct (write_file_spec f _ _ text Hfolder Hname Hcur) as (f1 & Hwrite & Hc & Hq & Hd).
  assert (Hw : current_written test_case text f f1) by (split; [done|split; done]).
  assert (Hrf : reference_text test_case f = reference_text test_case f1)
    by (unfold reference_text; by rewrite Hq).
  destruct (reads_reference test_case f1) as (b & reference & Hex & Hread & Hrt); [by rewrite Hd|].
  unfold graphql_test. erewrite run_bind by (by apply run_local).
  erewrite run_bind by (by apply run_local). erewrite run_bind by (by apply run_local).
  cbv zeta. cbn [snd fst].
  erewrite run_bind by (by apply run_zoom). erewrite run_bind by (by apply run_zoom).
  cbn [put_sub callback_files sub fst snd].
  erewrite (run_bind (if b then _ else _)) by (destruct b; [by apply run_zoom|by injection Hread as <-]).
  rewrite Hrf. unfold assert_baselines. rewrite Hrt.
  assert (Hend : ∀ f2 errors, same_files f1 f2 →
    (errors = [] ↔ c_string text = reference_text test_case f1) →
    ∃ f' errors', (local_object (ReturnTicket ticket pool');; done_callback)
        (f2, mkCallbacks false errors) = Ok tt (f', mkCallbacks true errors') ∧
      current_written test_case text f f' ∧ (errors' = [] ↔ c_string text = reference_text test_case f1)).
  { intros f2 errors Hsame He. exists f2, errors. erewrite run_bind by (by apply run_local).
    split; [done|]. split; [by eapply current_written_same|done]. }
  case_bool_decide as Heq; cbn [negb].
  - erewrite run_bind by reflexivity. by apply Hend; [split|].
  - destruct b; [|erewrite run_bind by reflexivity; by apply Hend; [split|]].
    destruct (execute_diff (reference_file test_case) (current_file test_case) f1)
      as (output & f2 & Hdiff & Hsame).
    erewrite run_bind by (erewrite run_bind by (by apply run_zoom); reflexivity).
    by apply Hend.
Qed.

Lemma same_ready test_case f f' : same_files f f' → ready test_case f → ready test_case f'.
Proof. intros [_ Hd] []. split; rewrite ?Hd; done. Qed.

Abbreviation run_graphql_test test_case t :=
  (run_procedure now wait_fuel async_runs t
    (SuccessError (graphql_test regex_replace split_regex start test_case))).

(** A test whose text can be written writes it to its current file, and changes no
    other file; it succeeds exactly when the text is that of the reference file, a
    file that does not exist being empty, and otherwise throws the assertion that
    marks a failed test. *)
Lemma graphql_test_outcome test_case t text f :
  0 < wait_fuel → test_text test_case = Ok tt text → ready test_case f →
  ∃ f', current_written test_case text f f' ∧
    if decide (c_string text = reference_text test_case f)
    then run_graphql_test test_case t f = Ok tt f'
    else ∃ what, run_graphql_test test_case t f = Throw (BaselineAssertionError what) f'.
Proof.
  intros Hfuel Htext Hready. pose proof (now_reads f) as Hnow.
  destruct (graphql_test_runs test_case t text (snd (now f)) Htext (same_ready _ _ _ Hnow Hready))
    as (f' & errors & Hrun & (Hc & Hq & Hd) & He).
  destruct Hnow as [Hfiles Hfolders].
  assert (Hrt : reference_text test_case (snd (now f)) = reference_text test_case f)
    by (unfold reference_text; by rewrite Hfiles).
  rewrite Hrt in He. exists f'. split.
  { split; [done|]. split; intros q; [intros Hne; by rewrite Hq, Hfiles|by rewrite Hd, Hfolders]. }
  assert (Hproc : run_graphql_test test_case t f =
    match errors with
    | [] => Ok tt f'
    | _ => Throw (BaselineAssertionError (join_vector errors [10; 10]%Z)) f'
    end).
  { simpl. unfold with_callbacks, run_success_error, steady_clock_now. destruct wait_fuel as [|n]; [lia|].
    destruct (now f) as [time f0] eqn:En. simpl in Hrun.
    erewrite run_bind by (apply run_zoom; simpl; by rewrite En).
    erewrite run_bind by exact Hrun. erewrite run_bind by reflexivity.
    erewrite run_bind by reflexivity. by destruct errors. }
  rewrite Hproc. case_decide as Heq.
  - by rewrite (proj2 He Heq).
  - destruct errors; [by destruct Heq; apply He|by eexists].
Qed.

(** ** Accepting *)

Lemma c_string_idempotent bytes : c_string (c_string bytes) = c_string bytes.
Proof.
  apply c_string_no_nul. unfold c_string, c_str.
  induction bytes as [|b bytes IH]; cbn [take_while]; [constructor|].
  destruct (Z.eqb_spec 0 b); cbn [negb]; [constructor|]. constructor; [congruence|exact IH].
Qed.

(** The folder of the references is there or can be made, once the current file is
    written. *)
Definition can_accept (test_case : TestCase) (f : F) : Prop :=
  folder_at f (reference_folder test_case) = true ∨
  (file_at f (reference_folder test_case) = None ∧ creatable f (reference_folder test_case)).

Lemma reference_folder_made test_case f :
  can_accept test_case f → plain_name (name test_case ++ u ".errors") →
  folder_at f (reference_file test_case) = false →
  ∃ f', (∀ (k : M F unit), (folder_exists ← exists_ (reference_folder test_case);
      when (negb folder_exists) (create_folder (reference_folder test_case));; k) f = k f') ∧
    folder_at f' (reference_folder test_case) = true ∧ (∀ q, file_at f' q = file_at f q) ∧
    (∀ q, folder_at f q = true → folder_at f' q = true) ∧
    folder_at f' (reference_file test_case) = false.
Proof.
  intros Hcan Hn Hno. assert (Hthere : folder_at f (reference_folder test_case) = true → ∀ k : M F unit,
    (folder_exists ← exists_ (reference_folder test_case);
      when (negb folder_exists) (create_folder (reference_folder test_case));; k) f = k f).
  { intros Hd k. erewrite run_bind by apply exists_spec. by rewrite Hd. }
  destruct Hcan as [Hd|[Hfile Hc]]; [by exists f; split; [apply Hthere|]|].
  destruct (folder_at f (reference_folder test_case)) eqn:Hd; [by exists f; split; [apply Hthere|]|].
  destruct (create_directories_spec f _ Hc) as (f' & Hrun & Hd' & Hq & Hgrow & Hin).
  exists f'. split; [|split_and!; try done; unfold errors_file; by rewrite Hin].
  intros k. erewrite run_bind by apply exists_spec. rewrite Hd, Hfile. by erewrite run_bind by exact Hrun.
Qed.

Lemma reference_removed test_case f :
  folder_at f (reference_file test_case) = false →
  ∃ f', (∀ (k : M F unit), (reference ← exists_ (reference_file test_case);
      when reference (remove (reference_file test_case));; k) f = k f') ∧
    (∀ q, q ≠ reference_file test_case → file_at f' q = file_at f q) ∧
    (∀ q, folder_at f' q = folder_at f q).
Proof.
  intros Hno. destruct (file_at f (reference_file test_case)) as [content|] eqn:E.
  - destruct (remove_spec f (reference_file test_case)) as (f' & Hrun & _ & Hq & Hd); [by rewrite E|].
    exists f'. split; [|done]. intros k. erewrite run_bind by apply exists_spec.
    rewrite Hno, E. by erewrite run_bind by exact Hrun.
  - exists f. split; [|done]. intros k. erewrite run_bind by apply exists_spec. by rewrite Hno, E.
Qed.

(** Accepting copies the current file to the reference. *)
Lemma accept_runs option test_case text f :
  accepted_by option test_case = true → ready test_case f →
  file_at f (current_file test_case) = Some text → can_accept test_case f →
  ∃ f', accept_graphql_test option test_case f = Ok tt f' ∧
    reference_text test_case f' = c_string text ∧ ready test_case f'.
Proof.
  intros Hby [Hfolder Hname Hcur Href Hne] Hfile Hcan. unfold accept_graphql_test.
  rewrite Hby. cbn [negb]. cbv zeta. erewrite run_bind by apply exists_spec.
  rewrite Hcur, Hfile. cbn [orb negb].
  destruct (reference_folder_made test_case f Hcan Hname Href) as (f1 & Hmake & Hd1 & Hq1 & Hgrow & Hno1).
  assert (Hfile1 : file_at f1 (current_file test_case) = Some text) by (by rewrite Hq1).
  assert (Hcur1 : folder_at f1 (current_file test_case) = false)
    by (apply file_no_folder; by rewrite Hfile1).
  rewrite Hmake. erewrite run_bind by (by apply read_file_spec).
  destruct (reference_removed test_case f1 Hno1) as (f2 & Hremove & Hq2 & Hd2). rewrite Hremove.
  destruct (write_file_spec f2 _ _ text ltac:(by rewrite Hd2) Hname ltac:(by rewrite Hd2))
    as (f3 & Hwrite & Hc3 & Hq3 & Hd3).
  exists f3. split; [exact Hwrite|]. split; [unfold reference_text, errors_file; rewrite Hc3; apply c_string_idempotent|].
  split; rewrite ?Hd3, ?Hd2; auto.
Qed.

(** C36: when a GraphQL test has run, whether it succeeded or failed, accepting it
    makes it succeed: the next run ends without the assertion. *)
Theorem accepted_test_passes option test_case t text f :
  0 < wait_fuel → test_text test_case = Ok tt text → ready test_case f →
  accepted_by option test_case = true →
  (∀ f', current_written test_case text f f' → can_accept test_case f') →
  ∃ f1 f2 f3,
    (run_graphql_test test_case t f = Ok tt f1 ∨
      ∃ what, run_graphql_test test_case t f = Throw (BaselineAssertionError what) f1) ∧
    accept_graphql_test option test_case f1 = Ok tt f2 ∧
    run_graphql_test test_case t f2 = Ok tt f3.
Proof.
  intros Hfuel Htext Hready Hby Hcan.
  destruct (graphql_test_outcome test_case t text f Hfuel Htext Hready) as (f1 & Hwritten & Hrun).
  assert (Hready1 : ready test_case f1).
  { destruct Hwritten as (_ & _ & Hd). destruct Hready. split; rewrite ?Hd; done. }
  destruct (accept_runs option test_case (c_string text) f1 Hby Hready1 (proj1 Hwritten) (Hcan _ Hwritten))
    as (f2 & Haccept & Href & Hready2).
  destruct (graphql_test_outcome test_case t text f2 Hfuel Htext Hready2) as (f3 & _ & Hrun2).
  rewrite Href, c_string_idempotent, decide_True in Hrun2 by done.
  exists f1, f2, f3. split; [|done]. case_decide; auto.
Qed.

(** ** The suite *)

Section suite.
Context (test_cases : list TestCase) (text_of : TestCase → list Z) (f0 : F).
Hypothesis texts : ∀ test_case, test_case ∈ test_cases → test_text test_case = Ok tt (text_of test_case).
(** What one test writes is not what another one reads. *)
Hypothesis apart : ∀ test_case other,
  test_case ∈ test_cases → other ∈ test_cases → reference_file test_case ≠ current_file other.
Hypothesis fuel : 0 < wait_fuel.

Definition suite_test (test_case : TestCase) : Test :=
  new_Test (name test_case) (SuccessError (graphql_test regex_replace split_regex start test_case)).

(** The tests can run, and their references are as they were. *)
Definition suite_files (f : F) : Prop :=
  ∀ test_case, test_case ∈ test_cases →
    ready test_case f ∧ reference_text test_case f = reference_text test_case f0.

Lemma suite_files_same f f' : same_files f f' → suite_files f → suite_files f'.
Proof.
  intros Hsame Hf test_case Hin. destruct (Hf _ Hin) as [Hr Ht]. split; [by eapply same_ready|].
  rewrite <- Ht. unfold reference_text. by rewrite (proj1 Hsame).
Qed.

Lemma suite_files_written test_case text f f' :
  test_case ∈ test_cases → current_written test_case text f f' → suite_files f → suite_files f'.
Proof.
  intros Hin (_ & Hq & Hd) Hf other Ho. destruct (Hf _ Ho) as [[] Ht].
  split; [split; rewrite ?Hd; done|]. rewrite <- Ht. unfold reference_text. by rewrite Hq by auto.
Qed.

Abbreviation passes test_case :=
  (bool_decide (c_string (text_of test_case) = reference_text test_case f0)).

Lemma suite_test_runs test_case t f :
  test_case ∈ test_cases → suite_files f →
  ∃ f', suite_files f' ∧
    if passes test_case then run_graphql_test test_case t f = Ok tt f'
    else ∃ what, run_graphql_test test_case t f = Throw (BaselineAssertionError what) f'.
Proof.
  intros Hin Hf. destruct (Hf _ Hin) as [Hr Ht].
  destruct (graphql_test_outcome test_case t _ f fuel (texts _ Hin) Hr) as (f' & Hw & Hrun).
  exists f'. split; [by eapply suite_files_written|]. rewrite Ht in Hrun.
  case_bool_decide; [by rewrite decide_True in Hrun|by rewrite decide_False in Hrun].
Qed.

Lemma suite_settles test_case :
  test_case ∈ test_cases → settles now wait_fuel async_runs suite_files (test_procedure (suite_test test_case)).
Proof.
  intros Hin t f Hf. destruct (suite_test_runs test_case t f Hin Hf) as (f' & Hf' & Hrun).
  exists f'. split; [done|]. destruct (passes test_case); auto.
Qed.

(** The results of the tests that ran. *)
Lemma suite_results l i j f l' f' :
  l ⊆ test_cases → suite_files f →
  tests_run now wait_fuel async_runs i j (map suite_test l) f l' f' →
  map success l' = map (λ test_case, Some (passes test_case)) l.
Proof.
  revert j f l'. induction l as [|test_case l IH]; intros j f l' Hl Hf Hrun; inversion Hrun; subst; [done|].
  assert (Hin : test_case ∈ test_cases) by (apply Hl; by left).
  destruct (suite_test_runs test_case (i, j) f Hin Hf) as (f1 & Hf1 & Hres).
  assert (Hres' : success x' = Some (passes test_case) ∧ f'0 = f1).
  { match goal with H : result_of _ _ _ _ _ _ _ _ |- _ => destruct H as [f2 Hok|what f2 Hthrow] end;
      simpl in *; (destruct (passes test_case); [|destruct Hres as [what' Hres]]);
      split; congruence. }
  destruct Hres' as [Hx ->]. cbn [map]. f_equal; [exact Hx|].
  eapply IH; [intros x Hx'; apply Hl; by right|exact Hf1|eassumption].
Qed.
End suite.

Lemma all_succeeded {A} (l : list (Test (F := F))) (passes : A → bool) xs :
  map success l = map (λ x, Some (passes x)) xs →
  Forall (λ t, success t = Some true) l ↔ forallb passes xs = true.
Proof.
  revert xs. induction l as [|t l IH]; intros [|x xs] E; try done.
  injection E as Ht E. rewrite list.Forall_cons, Ht, (IH _ E). simpl. rewrite andb_true_iff.
  split; (intros [Hb Hl]; split; [congruence|done]).
Qed.

(** C35: running the GraphQL tests of a list of test cases, with what one writes
    apart from what another reads, ends; each test succeeds exactly when its text is
    its reference, as the files were before the run, and the exit code is zero
    exactly when all texts are. *)
Theorem graphql_suite_verdict test_cases text_of s :
  0 < wait_fuel →
  (∀ test_case, test_case ∈ test_cases → test_text test_case = Ok tt (text_of test_case)) →
  (∀ test_case other, test_case ∈ test_cases → other ∈ test_cases →
    reference_file test_case ≠ current_file other) →
  domains s = [mkDomain (u "GraphQL") (map suite_test test_cases)] →
  (∀ test_case, test_case ∈ test_cases → ready test_case (files s)) →
  let passes test_case :=
    bool_decide (c_string (text_of test_case) = reference_text test_case (files s)) in
  ∃ code s',
    (run_test_suites now wait_fuel async_runs;; print_stats) s = Ok code s' ∧
    map success (flat_map tests (domains s')) = map (λ test_case, Some (passes test_case)) test_cases ∧
    code = (if forallb passes test_cases then 0 else 1)%Z.
Proof.
  intros Hfuel Htexts Hapart Hdomains Hready passes.
  set (Inv := suite_files test_cases (files s)).
  assert (Hnow : ∀ f, Inv f → Inv (snd (now f))) by (intros f; by apply suite_files_same).
  assert (Hfiles : Inv (files s)) by (intros test_case Hin; split; auto).
  destruct (run_suites_domains now wait_fuel async_runs Inv Hnow s) as (f & s1 & Hrun & _ & Hruns & _).
  { rewrite Hdomains. constructor; [|constructor]. apply list.Forall_forall. intros x.
    cbn [tests]. rewrite list_elem_of_In, in_map_iff. intros (test_case & <- & Hin).
    apply list_elem_of_In in Hin. by eapply suite_settles. }
  { exact Hfiles. }
  destruct (print_stats_code s1) as [text Hcode]; [by eapply domains_run_success|].
  rewrite Hdomains in Hruns. inversion Hruns as [|? ? ? ? l' f1 ? ds' ? Htests Hnone]; subst.
  inversion Hnone; subst.
  assert (Hres : map success (flat_map tests (domains s1)) = map (λ test_case, Some (passes test_case)) test_cases).
  { match goal with E : _ = domains s1 |- _ => rewrite <- E end. simpl. rewrite app_nil_r.
    eapply (suite_results test_cases text_of (files s)); [done..| |apply Hnow, Hfiles|exact Htests].
    done. }
  eexists _, _. split; [erewrite run_bind by exact Hrun; exact Hcode|]. split; [exact Hres|].
  pose proof (all_succeeded _ _ _ Hres) as Hall. rewrite <- no_failed_test in Hall.
  destruct (forallb passes test_cases); [by rewrite decide_True by (by apply Hall)|].
  rewrite decide_False; [done|]. intros Hn. by apply Hall in Hn.
Qed.
End tests.

(** ** The text of a test *)

Section texts.
Context `{StdSort}.
Context (regex_replace : ustring → ustring → ustring → ustring).
Context (split_regex : ustring → ustring → list ustring).

(** A diagnostic as the annotater is given it. *)
Definition annotation_of (d : DiagnosticMessage) : list Z * Location :=
  (raw (Diagnostic.message regex_replace d), location d).

(** The lines of a source, each followed by the rows of the diagnostics at it. *)
Definition annotated_text (source : ustring) (ds : list DiagnosticMessage) (text : list Z) : Prop :=
  ∃ order,
    text = join_vector (all_rows order (lines (set_source (raw source)))) [Character.NewLine] ∧
    ∀ k, Permutation (given_at (raw source) (map annotation_of ds) k) (order k) ∧
      in_order annotation_before (order k).

Lemma add_diagnostics_text ds source annotated :
  Forall fits_columns (map annotation_of ds) →
  ∃ text, add_diagnostics (λ d, raw (Diagnostic.message regex_replace d)) ds source annotated =
      Ok tt (annotated ++ text) ∧ annotated_text source ds text.
Proof.
  intros Hfits. destruct (annotated_lines (raw source) _ Hfits) as (order & w & Hw & _ & Ho).
  eexists. split; [|by exists order]. unfold add_diagnostics.
  assert (E : ∀ t, fold_left (λ t d, annotate (raw (Diagnostic.message regex_replace d)) (location d) t) ds t =
    annotate_all t (map annotation_of ds)).
  { clear. unfold annotate_all. induction ds as [|d ds IH]; intros t; [done|]. simpl. apply IH. }
  by rewrite E, Hw.
Qed.

Lemma annotated_text_none source text : annotated_text source [] text → text = raw source.
Proof.
  intros (order & -> & Ho). rewrite all_rows_plain, set_source_joined; [done|].
  intros k. destruct (Ho k) as [Hp _]. by apply Permutation_nil.
Qed.

(** The text of a test of a schema and a query is both of them, with the rows
    of their diagnostics behind the lines they are at, and the separator between;
    without diagnostics it is the source of the test again. *)
Theorem test_text_annotated source schema_source query schema executed e :
  split_regex source separator = [schema_source; query] →
  construct_GraphQlSchema schema_source = Ok tt schema →
  execute_on_schema schema query = Ok executed e →
  let schema_diagnostics := Parser.diagnostics (Schema.parser schema) in
  let query_diagnostics := executable_diagnostics executed in
  Forall fits_columns (map annotation_of (schema_diagnostics ++ query_diagnostics)) →
  ∃ schema_text query_text,
    write_diagnostics regex_replace split_regex source [] =
      Ok tt (schema_text ++ raw separator ++ query_text) ∧
    annotated_text schema_source schema_diagnostics schema_text ∧
    annotated_text query query_diagnostics query_text ∧
    (schema_diagnostics = [] → schema_text = raw schema_source) ∧
    (query_diagnostics = [] → query_text = raw query).
Proof.
  intros Hsplit Hschema Hexecute sd qd Hfits. rewrite map_app in Hfits.
  apply list.Forall_app in Hfits as [Hs Hq].
  destruct (add_diagnostics_text sd schema_source [] Hs) as (a & Ha & Hta).
  destruct (add_diagnostics_text qd query (a ++ raw separator) Hq) as (b & Hb & Htb).
  exists a, b. split; [|split_and!; try done; intros E; rewrite E in *; by apply annotated_text_none].
  unfold write_diagnostics. cbv zeta. rewrite Hsplit. erewrite run_bind by reflexivity.
  erewrite run_bind by (by apply run_local). cbn [snd]. erewrite run_bind by exact Ha.
  change ([schema_source; query] !! 1) with (Some query). cbv beta iota.
  erewrite run_bind by reflexivity.
  erewrite run_bind by (by apply run_local). cbn [fst app].
  rewrite app_assoc. exact Hb.
Qed.
End texts.
