(* ===== verification/BaselineExamples.v ===== *)
(** * Examples of the baseline tests

    A project in memory with two GraphQL tests, on which the theorems of
    [BaselineProperties] apply and whose test run is evaluated. *)
From stdpp Require Import gmap.
From S2P Require Import Prelude Monad Character Cstring StdMap Diagnostic Syntaxes Utils Files FilesProperties MemoryFiles TestDefinition.
From S2P Require Import TextAnnotater TextAnnotaterProperties TestCaseScanner Scanner Parser Schema SchemaChecks Executor Baseline BaselineProperties.

#[local] Arguments u : simpl never.

#[local] Existing Instance insertion_StdSort.

Definition program_path : list Z := u "/repo/bin/test".

#[local] Instance files_of_repo : FileSystem memory := memory_files program_path.
#[local] Instance lawful_repo : LawfulFileSystem memory := memory_lawful program_path.

Definition still (f : memory) : Z * memory := (0%Z, f).

(** ** A test and its files *)

Definition line (text : String.string) : ustring := u text ++ [Character.NewLine].

Definition example_source : ustring := line "type Query { field: Int }" ++ separator ++ line "{ other }".

Definition example_test : TestCase :=
  mkTestCase (u "field") (u "field") example_source [] (u "/currents") (u "/references").

Definition example_files : memory := {[ u "/currents" := None ]}.

Definition example_text : list Z :=
  match write_diagnostics replace_literal split_all example_source [] with
  | Ok _ text => text
  | _ => []
  end.

Example example_text_rows :
  example_text = raw (line "type Query { field: Int }" ++ line "====" ++ line "{ other }"
    ++ line "  ~~~~~ (1, 3, 5)" ++ u "!!! Field 'other' does not exist on type 'Query'." ++ [Character.NewLine]).
Proof. vm_compute. reflexivity. Qed.

Lemma still_reads (f : memory) : same_files f (snd (still f)).
Proof. by split. Qed.

Lemma diff_printed (reference current : list Z) (f : memory) :
  ∃ output f', popen (diff_command reference current) f = Ok (Some output) f' ∧ same_files f f'.
Proof. exists (u "differs"), f. split; [reflexivity|by split]. Qed.

Lemma example_ready : ready example_test example_files.
Proof.
  split; try reflexivity; [|discriminate].
  split; [discriminate|split; [discriminate|split; [discriminate|]]].
  apply (bool_decide_unpack _). reflexivity.
Qed.

Lemma accepted_test_passes_witness :
  ∃ f1 f2 f3,
    accept_graphql_test (mkRunOption None None) example_test f1 = Ok tt f2 ∧
    run_procedure still 1 true (0, 0)
      (SuccessError (graphql_test replace_literal split_all 4096 example_test)) f2 = Ok tt f3.
Proof.
  assert (Htext : write_diagnostics replace_literal split_all example_source [] = Ok tt example_text)
    by (vm_compute; reflexivity).
  destruct (accepted_test_passes replace_literal split_all 4096 still 1 true still_reads diff_printed
    (mkRunOption None None) example_test (0, 0) example_text example_files ltac:(lia) Htext
    example_ready eq_refl) as (f1 & f2 & f3 & _ & Haccept & Hrun).
  - intros f' (_ & Hq & _). right. split; [by rewrite Hq by discriminate|].
    intros content Hc. specialize (Hq (u "/references") ltac:(discriminate)).
    assert (Hnone : mjoin (f' !! u "/references") = None) by exact Hq.
    change (f' !! u "/references" = Some (Some content)) in Hc. rewrite Hc in Hnone. discriminate Hnone.
  - exists f1, f2, f3. split; [exact Haccept|exact Hrun].
Defined.

(** Two tests, one of a schema alone with a reference file. *)
Definition schema_test : TestCase :=
  mkTestCase (u "schema") (u "schema") (line "type Query { field: Int }") [] (u "/currents") (u "/references").

Definition example_texts (test_case : TestCase) : list Z :=
  match write_diagnostics replace_literal split_all (source test_case) [] with
  | Ok _ text => text
  | _ => []
  end.

Definition suite_memory : memory :=
  {[ u "/currents" := None; u "/references" := None;
     u "/references/schema.errors" := Some (raw (line "type Query { field: Int }")) ]}.

Definition suite_example : Suites :=
  mkSuites suite_memory
    [mkDomain (u "GraphQL") (map (suite_test replace_literal split_all 4096) [schema_test; example_test])]
    None 0 0 [].

Lemma in_two {A} (P : A → Prop) (a b : A) : P a → P b → ∀ x, x ∈ [a; b] → P x.
Proof. intros Ha Hb x. rewrite !elem_of_cons, elem_of_nil. by intros [->|[->|?]]. Qed.

Lemma plain_name_ok n :
  bool_decide (n ≠ [] ∧ n ≠ u "." ∧ n ≠ u ".." ∧ Character.Slash ∉ n) = true → plain_name n.
Proof. by rewrite bool_decide_eq_true. Qed.

Lemma graphql_suite_verdict_witness :
  ∃ s', (run_test_suites still 1 true;; print_stats) suite_example = Ok 1%Z s' ∧
    map success (flat_map tests (domains s')) = [Some true; Some false].
Proof.
  destruct (graphql_suite_verdict replace_literal split_all 4096 still 1 true still_reads diff_printed
    [schema_test; example_test] example_texts suite_example) as (code & s' & Hrun & Hres & Hcode).
  - lia.
  - apply in_two; vm_compute; reflexivity.
  - intros test_case other H1 H2. revert other H2. revert test_case H1.
    apply (in_two (λ test_case, ∀ other, other ∈ [schema_test; example_test] → _));
      apply in_two; discriminate.
  - reflexivity.
  - apply in_two; (split; [reflexivity|by apply plain_name_ok|reflexivity|reflexivity|discriminate]).
  - exists s'. split; [|rewrite Hres; vm_compute; reflexivity].
    rewrite Hrun. f_equal. rewrite Hcode. vm_compute. reflexivity.
Defined.

Definition constructed_schema : GraphQlSchema :=
  match construct_GraphQlSchema (line "type Query { field: Int }") with
  | Ok _ schema => schema
  | _ => new_GraphQlSchema []
  end.

Definition executed_query : ExecutableDefinition * GraphQlExecutor :=
  match execute_on_schema constructed_schema (line "{ other }") with
  | Ok executed e => (executed, e)
  | _ => (mkExecutableDefinition (mkSyntax S_QueryDocument 0 0) [] [] [], new_GraphQlExecutor)
  end.

Lemma test_text_annotated_witness :
  ∃ schema_text query_text,
    write_diagnostics replace_literal split_all example_source [] =
      Ok tt (schema_text ++ raw separator ++ query_text) ∧
    schema_text = raw (line "type Query { field: Int }") ∧
    length (executable_diagnostics (fst executed_query)) = 1 ∧
    annotated_text replace_literal (line "{ other }")
      (executable_diagnostics (fst executed_query)) query_text.
Proof.
  destruct (test_text_annotated replace_literal split_all example_source
    (line "type Query { field: Int }") (line "{ other }") constructed_schema
    (fst executed_query) (snd executed_query)) as (a & b & Hw & _ & Hb & Ha & _).
  - vm_compute. reflexivity.
  - vm_compute. reflexivity.
  - vm_compute. reflexivity.
  - apply (bool_decide_unpack _). vm_compute. reflexivity.
  - exists a, b. split; [exact Hw|]. split; [apply Ha; vm_compute; reflexivity|].
    split; [vm_compute; reflexivity|exact Hb].
Defined.

(** ** A project *)

Definition quoted_word (w : String.string) : ustring :=
  [Character.DoubleQuote] ++ u w ++ [Character.DoubleQuote].

(** A test file with two test cases, whose queries select a field that there is and
    one that there is not. *)
Definition example_test_file : ustring :=
  line "type Query { field: Int }" ++ separator ++ line "{ {{name}} }"
    ++ line "@test (n, name):"
    ++ u "[n: " ++ quoted_word "A" ++ u "]: { name: " ++ quoted_word "field" ++ line " }"
    ++ u "[n: " ++ quoted_word "B" ++ u "]: { name: " ++ quoted_word "other" ++ line " }"
    ++ line "@end".

Definition cases_folder : list Z := u "/repo/src/program/graphql/tests/cases".

Definition example_project : memory :=
  <[ cases_folder := None ]>
  {[ cases_folder ++ u "/{n}.graphql" := Some (raw example_test_file) ]}.

Definition no_option : RunOption := mkRunOption None None.

Definition initial_suites (f : memory) : Suites := mkSuites f [] None 0 0 [].

Definition run_tests : M (Suites (F := memory)) Z :=
  DefineGraphQlTests replace_literal has_braces split_all replace_copy (mkUninitialised 0 0 0 0)
    4096 3 no_option;;
  run_test_suites still 1 true;;
  print_stats.

Definition accept_tests : M memory unit :=
  AcceptGraphQlTests replace_literal has_braces replace_copy (mkUninitialised 0 0 0 0) 3 no_option.

(** The exit code and the results of the tests. *)
Definition results (r : outcome (Suites (F := memory)) Z) : option (Z * list (list Z * option bool)) :=
  match r with
  | Ok code s => Some (code, map (λ t, (test_name t, success t)) (flat_map tests (domains s)))
  | _ => None
  end.

Definition first_run : outcome (Suites (F := memory)) Z := run_tests (initial_suites example_project).

Example first_run_fails :
  results first_run = Some (1%Z, [(u "A", Some false); (u "B", Some false)]).
Proof. vm_compute. reflexivity. Qed.

(** The tests run again on the files the first run left, accepted. *)
Definition second_run : outcome (Suites (F := memory)) Z :=
  match first_run with
  | Ok _ s =>
      match accept_tests (files s) with
      | Ok _ f => run_tests (initial_suites f)
      | _ => Undefined
      end
  | _ => Undefined
  end.

Example second_run_succeeds :
  results second_run = Some (0%Z, [(u "A", Some true); (u "B", Some true)]).
Proof. vm_compute. reflexivity. Qed.
