(* ===== verification/TestProgramProperties.v ===== *)
(** * Properties of the program of the tests

    What a command line that is printed from a command and its options makes the
    program do, and that its exit code does not say whether the tests succeeded. *)
From stdpp Require Import gmap.
From S2P Require Import Prelude Monad Character Cstring Utils Files FilesProperties MemoryFiles TestDefinition TextAnnotater TestCaseScanner.
From S2P Require Import TextAnnotaterProperties Command CommandProperties Baseline HttpTests HttpServer TestProgram.

#[local] Arguments u : simpl never.

(** ** No error is reported *)

Definition keeps_errors {A} (m : M Command A) : Prop :=
  ∀ errors, ∀ s, Command.errors s = errors →
    wp True m (λ _ s', Command.errors s' = errors) (λ _ s', Command.errors s' = errors) s.

Lemma keeps_bind {A B} (m : M Command A) (k : A → M Command B) :
  keeps_errors m → (∀ a, keeps_errors (k a)) → keeps_errors (m ≫= k).
Proof.
  intros Hm Hk errors s Hs. apply wp_bind. eapply wp_mono; [by apply Hm| |done].
  intros a s' Hs'. by apply Hk.
Qed.

Lemma keeps_ret {A} (a : A) : keeps_errors (mret a).
Proof. intros errors s Hs. by apply wp_ret. Qed.

Lemma keeps_get : keeps_errors get.
Proof. intros errors s Hs. by apply wp_get. Qed.

Lemma keeps_deref {A} (p : option A) : keeps_errors (deref p).
Proof. intros errors s Hs. by apply wp_deref. Qed.

Lemma keeps_modify f : (∀ s, Command.errors (f s) = Command.errors s) → keeps_errors (modify f).
Proof. intros Hf errors s Hs. apply wp_modify. congruence. Qed.

Lemma keeps_throw {A} e : keeps_errors (throw (A := A) e).
Proof. intros errors s Hs. by apply wp_throw. Qed.

Lemma keeps_undefined {A} : keeps_errors (undefined (A := A)).
Proof. intros errors s Hs. by apply wp_undefined. Qed.

Create HintDb errors.
#[local] Hint Resolve keeps_bind keeps_ret keeps_get keeps_deref keeps_modify keeps_throw
  keeps_undefined : errors.

Lemma match_flag_keeps flag fs : keeps_errors (match_flag flag fs).
Proof. induction fs as [|f fs IH]; simpl; [auto with errors|]. apply keeps_bind; intros; [|case_match]; auto with errors. Qed.

Lemma on_argument_keeps i : keeps_errors (on_argument i).
Proof.
  unfold on_argument, split_argument.
  repeat (apply keeps_bind || case_match || intros); auto using match_flag_keeps with errors.
Qed.

Lemma for_each_keeps {A} (l : list A) body :
  (∀ x, keeps_errors (body x)) → keeps_errors (for_each l body).
Proof. intros Hbody. induction l; simpl; auto with errors. Qed.

Lemma Command_Command_keeps commands : keeps_errors (Command_Command commands).
Proof.
  unfold Command_Command, for_each_arg.
  repeat (apply keeps_bind || case_match || intros); auto using for_each_keeps, on_argument_keeps with errors.
Qed.

(** No command line is an error. *)
Lemma command_no_errors commands argv s :
  Command_Command commands (new_Command argv) = Ok tt s → Command.errors s = [].
Proof.
  intros Hrun. exact (wp_ok _ _ _ _ _ _ _ (Command_Command_keeps commands [] (new_Command argv) eq_refl) Hrun).
Qed.

(** ** What is requested *)

Definition option_named (flag : list Z) (opts : list cl_option) : option cl_option :=
  snd <$> list_find (λ o, fd_name (definition_of o) = flag) opts.

Definition option_text (o : cl_option) : option (list Z) :=
  match o with Plain _ => None | Separate _ value | Joined _ value => Some value end.

(** The test, or else the folder. *)
Definition requested (opts : list cl_option) : RunOption :=
  match option_named (u "test") opts with
  | Some o => mkRunOption (option_text o) None
  | None => mkRunOption None (option_named (u "folder") opts ≫= option_text)
  end.

Lemma flag_name_option o : flag_name (option_flag o) = fd_name (definition_of o).
Proof. by destruct o. Qed.

Lemma flag_value_option o : flag_value (option_flag o) = option_text o.
Proof. by destruct o. Qed.

Lemma has_flag_options flag opts c :
  flags c = map option_flag opts → has_flag flag c = bool_decide (is_Some (option_named flag opts)).
Proof.
  unfold has_flag, option_named. intros ->. induction opts as [|o opts IH]; [done|]. simpl.
  rewrite flag_name_option. destruct (decide (fd_name (definition_of o) = flag)) as [E|E].
  - by rewrite bool_decide_eq_true_2.
  - rewrite bool_decide_eq_false_2, IH by done. simpl.
    by destruct (list_find _ opts) as [[]|].
Qed.

Lemma get_flag_value_option flag opts c o :
  flags c = map option_flag opts → option_named flag opts = Some o →
  get_flag_value flag c = option_text o.
Proof.
  unfold get_flag_value, option_named. intros ->. induction opts as [|o' opts IH]; [done|]. simpl.
  rewrite flag_name_option. destruct (decide (fd_name (definition_of o') = flag)) as [E|E].
  - intros [= <-]. apply flag_value_option.
  - intros Ho. destruct (list_find _ opts) as [[i x]|] eqn:El; [|done].
    simpl in Ho. specialize (IH Ho). destruct (list_find _ (map option_flag opts)) as [[j y]|]; exact IH.
Qed.

(** The flags with a value have it. *)
Lemma option_text_given c o flag opts :
  c ∈ commands → flag ∈ [u "test"; u "folder"] → Forall (option_of c) opts →
  option_named flag opts = Some o → option_text o ≠ None.
Proof.
  intros Hc Hflag Hopts. unfold option_named.
  destruct (list_find _ opts) as [[i x]|] eqn:El; [|done]. simpl. intros [= ->].
  apply list_find_Some in El as (Hi & Hname & _).
  assert (Ho : option_of c o) by (eapply list.Forall_lookup_1; eassumption).
  destruct o as [f| |]; [|done..]. destruct Ho as (_ & (j & Hj) & Hv). simpl in *.
  exfalso. revert Hc Hflag Hj Hv. rewrite <- Hname. clear. unfold commands. rewrite !elem_of_cons, !elem_of_nil.
  intros [->|[->|[]]] [E|[E|[]]]; rewrite E; vm_compute; by intros [= _ <-].
Qed.

(** ** What the program does *)

Section main.
Context {F : Type} `{FileSystem F} `{StdSort} `{Curl F} `{Processes F}.
Context (regex_replace : ustring → ustring → ustring → ustring) (regex_search : list Z → list Z → bool).
Context (split_regex : ustring → ustring → list ustring).
Context (replace_all_copy : list Z → list Z → list Z → list Z) (any : uninitialised) (start : Z).
Context (now : F → Z * F) (wait_fuel : nat) (async_runs : bool) (depth attempts : nat).
Context {W : Type} (server : outcome W Z).

Abbreviation main :=
  (main regex_replace regex_search split_regex replace_all_copy any start now wait_fuel async_runs
    depth attempts server).
Abbreviation accepting :=
  (AcceptGraphQlTests regex_replace regex_search replace_all_copy any depth).
Abbreviation defining_graphql :=
  (DefineGraphQlTests regex_replace regex_search split_regex replace_all_copy any start depth).
Abbreviation defining_http :=
  (DefineHttpTests regex_replace regex_search replace_all_copy any attempts depth).
Abbreviation running := (Run now wait_fuel async_runs).

(** What a command does with its options. *)
Definition does (c : CommandDefinition) (opts : list cl_option) : M (Suites (F := F)) Z :=
  if decide (cd_name c = u "accept") then zoom (accepting (requested opts));; mret 0%Z
  else if decide (is_Some (option_named (u "use-external-server") opts)) then
    defining_graphql (requested opts);; defining_http (requested opts);; running;; mret 0%Z
  else
    child_pid ← zoom fork;
    if (child_pid =? -1)%Z then mret 1%Z
    else if (child_pid =? 0)%Z then
      when (negb (bool_decide (is_Some (option_named (u "start-server") opts))))
        (local_object server;; mret tt);;
      mret 0%Z
    else defining_graphql (requested opts);; running;; zoom (terminate child_pid);; mret 0%Z.

Lemma run_option_requested c opts command :
  c ∈ commands → Forall (option_of c) opts → flags command = map option_flag opts →
  run_option_of command = Ok (requested opts) command.
Proof.
  intros Hc Hopts Hflags. unfold run_option_of, requested, option_value.
  erewrite run_bind by reflexivity. erewrite !has_flag_options by exact Hflags.
  assert (Hvalue : ∀ flag o, flag ∈ [u "test"; u "folder"] → option_named flag opts = Some o →
    ∃ value, get_flag_value flag command = Some value ∧ option_text o = Some value).
  { intros flag o Hin Ho. pose proof (option_text_given c o flag opts Hc Hin Hopts Ho) as Hne.
    erewrite get_flag_value_option by eassumption.
    destruct (option_text o) as [value|]; [by exists value|done]. }
  destruct (option_named (u "test") opts) as [o|] eqn:Et.
  - destruct (Hvalue _ o ltac:(by left) Et) as (value & Hg & Ho). simpl. by rewrite Hg, Ho.
  - destruct (option_named (u "folder") opts) as [o|] eqn:Ef; [|done].
    destruct (Hvalue _ o ltac:(right; by left) Ef) as (value & Hg & Ho). simpl. by rewrite Hg, Ho.
Qed.


(** The exit code of a run does not depend on the tests. *)
Lemma main_exit_code argv s code s' :
  main argv s = Ok code s' →
  code = 0%Z ∨ (code = 1%Z ∧ ∃ f, fork (files s) = Ok (-1)%Z f).
Proof.
  unfold main. intros ([[] command] & s1 & [Hc ->]%run_local_ok & Hrun)%run_bind_ok. cbn [snd] in Hrun.
  rewrite (command_no_errors _ _ _ Hc) in Hrun.
  apply run_bind_ok in Hrun as ([chosen c'] & s2 & [_ ->]%run_local_ok & Hrun).
  unfold run_command in Hrun. cbn [fst] in Hrun. repeat case_match.
  - apply run_bind_ok in Hrun as (? & ? & _ & [= <- _]). by left.
  - do 3 apply run_bind_ok in Hrun as (? & ? & _ & Hrun). injection Hrun as <- _. by left.
  - apply run_bind_ok in Hrun as (pid & s2 & Hfork & Hrun).
    destruct (Z.eqb_spec pid (-1)) as [->|_].
    + injection Hrun as <- _. right. split; [done|]. unfold zoom in Hfork. cbn [sub suites_files] in Hfork.
      destruct (fork (files s)) as [x f| | |] eqn:E; try done. injection Hfork as -> _. by exists f.
    + left. repeat case_match; repeat (apply run_bind_ok in Hrun as (? & ? & _ & Hrun));
        by injection Hrun as <- _.
Qed.
End main.

(** ** An example: accepting one test *)

Definition main_path : list Z := u "/repo/bin/test".
#[local] Instance files_of_main : @FileSystem memory string_paths := memory_files main_path.
#[local] Existing Instance insertion_StdSort.

(** A server that answers at once, in a process of its own. *)
#[local] Instance answering : Curl memory := {|
  curl_easy_init := mret true;
  curl_global_init := mret tt;
  curl_easy_setopt _ := mret true;
  curl_easy_perform := mret true;
  curl_easy_cleanup := mret tt;
  curl_global_cleanup := mret tt;
  sleep_for _ := mret tt
|}.

#[local] Instance parent : Processes memory := {| fork := mret 1%Z; terminate _ := mret tt |}.

Definition main_clock (f : memory) : Z * memory := (0%Z, f).

Definition main_suites : Suites (F := memory) := mkSuites ∅ [] None 0 0 [].

Definition example_command_line : list (list Z) := [u "test"; u "accept"; u "--test"; u "field"].

