(* ===== verification/TestCaseExpansion.v ===== *)
(** * The expansion of [@foreach] statements

    The test cases of a file are expanded over the product of the rows of its
    [@foreach] statements, in order, when no two statements bind a name. *)
From S2P Require Import Prelude Monad StdMap Diagnostic TestCaseScanner.

#[local] Arguments u : simpl never.

Abbreviation arguments := (std_map ustring ustring).

(** ** Emplacing and erasing *)

Lemma filter_key_cons (P : ustring → Prop) `{∀ p : ustring * ustring, Decision (P p.1)} p (m : arguments) :
  base.filter (B := arguments) (λ p, P p.1) (p :: m) =
    if decide (P p.1) then p :: base.filter (B := arguments) (λ p, P p.1) m
    else base.filter (λ p, P p.1) m.
Proof. reflexivity. Qed.

Lemma filter_key_all (P : ustring → Prop) `{∀ p : ustring * ustring, Decision (P p.1)} (m : arguments) :
  (∀ k, k ∈ keys m → P k) → base.filter (λ p, P p.1) m = m.
Proof.
  intros Hall. induction m as [|[k v] m IH]; [done|].
  rewrite filter_key_cons, decide_True by (apply Hall; by left). f_equal.
  apply IH. intros k' Hk'. apply Hall. by right.
Qed.

Lemma filter_insert_sorted (P : ustring → Prop) `{∀ p : ustring * ustring, Decision (P p.1)} k v (m : arguments) :
  ¬ P k → base.filter (λ p, P p.1) (insert_sorted k v m) = base.filter (λ p, P p.1) m.
Proof.
  intros Hk. induction m as [|[k' v'] m IH]; cbn [insert_sorted]; [by rewrite filter_key_cons, decide_False|].
  destruct (key_ltb k k'); [by rewrite filter_key_cons, (decide_False (P := P k))|].
  by rewrite !filter_key_cons, IH.
Qed.

(** Erasing is filtering. *)
Lemma erase_all_filter args (m : arguments) :
  erase_all args m = base.filter (λ p, p.1 ∉ keys args) m.
Proof.
  unfold erase_all. revert m. induction args as [|[k v] args IH]; intros m; cbn [fold_left].
  - symmetry. apply (filter_key_all (λ k, k ∉ keys ([] : arguments))). intros k _. apply not_elem_of_nil.
  - rewrite IH. unfold erase. etrans; [apply (list_filter_filter (A := ustring * ustring))|].
    apply (list_filter_iff (A := ustring * ustring)). intros [k' v'].
    simpl. rewrite elem_of_cons. tauto.
Qed.

Lemma filter_emplace_all (P : ustring → Prop) `{∀ p : ustring * ustring, Decision (P p.1)} args (m : arguments) :
  (∀ k, k ∈ keys args → ¬ P k) →
  base.filter (λ p, P p.1) (emplace_all args m) = base.filter (λ p, P p.1) m.
Proof.
  unfold emplace_all. revert m. induction args as [|[k v] args IH]; intros m Hargs; simpl; [done|].
  rewrite IH by (intros k' Hk'; apply Hargs; by right). unfold emplace.
  destruct (contains k m); [done|]. apply filter_insert_sorted, Hargs. by left.
Qed.

(** The names of [args] are free in [m]. *)
Definition free_in (args m : arguments) : Prop := ∀ k, k ∈ keys args → k ∉ keys m.

Lemma erase_emplace_all args (m : arguments) :
  free_in args m → erase_all args (emplace_all args m) = m.
Proof.
  intros Hfree. rewrite erase_all_filter.
  etrans; [apply (filter_emplace_all (λ k, k ∉ keys args)); tauto|].
  apply (filter_key_all (λ k, k ∉ keys args)). intros k Hk Hin. by apply (Hfree k).
Qed.

Lemma keys_emplace k v k' (m : arguments) :
  k' ∈ keys (emplace k v m) → k' = k ∨ k' ∈ keys m.
Proof.
  unfold emplace. destruct (contains k m); [auto|]. unfold keys.
  induction m as [|[k0 v0] m IH]; cbn [insert_sorted];
    [by intros [->|Hk]%elem_of_cons; [left|right]|].
  destruct (key_ltb k k0); intros [->|Hk]%elem_of_cons; [by left|by right|right; by left|].
  destruct (IH Hk) as [->|?]; [by left|right; by right].
Qed.

Lemma keys_emplace_all args k (m : arguments) :
  k ∈ keys (emplace_all args m) → k ∈ keys args ∨ k ∈ keys m.
Proof.
  unfold emplace_all. revert m. induction args as [|[k' v] args IH]; intros m; simpl; [auto|].
  intros Hk. apply IH in Hk as [Hk|Hk]; [left; by right|].
  apply keys_emplace in Hk as [->|Hk]; [left; by left|auto].
Qed.

Lemma sorted_emplace_all args (m : arguments) : sorted m → sorted (emplace_all args m).
Proof.
  unfold emplace_all. revert m. induction args as [|[k v] args IH]; intros m Hm; simpl; [done|].
  apply IH. by apply sorted_emplace.
Qed.

(** The place of a key that is greater than those of a map. *)
Section at_the_end.
Context {K V : Type} `{KeyOrder K}.
Implicit Types m r : std_map K V.

Lemma sorted_from_before k0 k v m r :
  sorted_from (Some k0) (m ++ (k, v) :: r) → key_ltb k0 k = true.
Proof.
  revert k0. induction m as [|[k1 v1] m IH]; intros k0; simpl; [by intros [? _]|].
  intros [Hk Hs]. eapply key_ltb_trans; [exact Hk|by apply IH].
Qed.

Lemma insert_sorted_last lo k v v' m r :
  sorted_from lo (m ++ (k, v') :: r) → insert_sorted k v m = m ++ [(k, v)] ∧ find k m = None.
Proof.
  revert lo. induction m as [|[k' w] m IH]; intros lo; [done|]. intros [_ Hs]. simpl.
  pose proof (sorted_from_before _ _ _ _ _ Hs) as Hlt. destruct (IH _ Hs) as [-> Hfind].
  rewrite decide_False; [|intros ->; by rewrite key_ltb_irrefl in Hlt]. split; [|done].
  destruct (key_ltb k k') eqn:E; [|done].
  pose proof (key_ltb_trans _ _ _ E Hlt) as F. by rewrite key_ltb_irrefl in F.
Qed.
End at_the_end.

(** A map entered in order into an empty map is copied. *)
Lemma emplace_all_copy (m m' : arguments) : sorted (m' ++ m) → emplace_all m m' = m' ++ m.
Proof.
  unfold emplace_all. revert m'. induction m as [|[k v] m IH]; intros m' Hs; simpl;
    [by rewrite app_nil_r|].
  destruct (insert_sorted_last None k v v m' m Hs) as [E Hfind].
  unfold emplace, contains. rewrite Hfind, E.
  rewrite IH by (by rewrite <- app_assoc). by rewrite <- app_assoc.
Qed.

(** ** Expansion *)

(** One row of every statement, in the order of the rows. *)
Fixpoint choices (statements : list (list arguments)) : list (list arguments) :=
  match statements with
  | [] => [[]]
  | statement :: rest => flat_map (λ row, map (cons row) (choices rest)) statement
  end.

(** No row of one statement binds a name of the other. *)
Definition separate (a b : list arguments) : Prop :=
  ∀ row row', row ∈ a → row' ∈ b → free_in row' row.

Section expansion.
Variable regex_replace : ustring → ustring → ustring → ustring.
Variable tests : list TestCaseArguments.

(** The test cases of a choice, over the variables already bound. *)
Definition chosen (m : arguments) (choice : list arguments) : list TestCaseArguments :=
  map (expand_test_case regex_replace (emplace_all (concat choice) m)) tests.

Lemma chosen_cons m row choice :
  chosen m (row :: choice) = chosen (emplace_all row m) choice.
Proof. unfold chosen, emplace_all. simpl. by rewrite fold_left_app. Qed.

Lemma replace_variable_choices statements acc m :
  ForallOrdPairs separate statements → sorted m →
  (∀ statement row, statement ∈ statements → row ∈ statement → free_in row m) →
  replace_variable_test_case regex_replace statements tests acc m =
    acc ++ flat_map (chosen m) (choices statements).
Proof.
  intros Hsep. revert acc m.
  induction Hsep as [|statement rest Hone Hsep IH]; intros acc m Hm Hfree; cbn [choices].
  { simpl. by rewrite app_nil_r. }
  simpl. rewrite (emplace_all_copy m []) by done. simpl.
  assert (Hrows : ∀ row, row ∈ statement → free_in row m) by (intros; eapply Hfree; [by left|done]).
  assert (Hrow : ∀ acc row, row ∈ statement →
    replace_variable_test_case regex_replace rest tests acc (emplace_all row m) =
      acc ++ flat_map (chosen (emplace_all row m)) (choices rest)).
  { intros acc' row Hin. apply IH; [by apply sorted_emplace_all|].
    intros statement' row' Hs' Hr' k Hk Hbound. apply keys_emplace_all in Hbound as [Hbound|Hbound].
    - rewrite list.Forall_forall in Hone. by apply (Hone _ Hs' row row' Hin Hr' k Hk).
    - eapply Hfree; [by right|exact Hr'|done..]. }
  clear Hone IH Hfree. revert acc. induction statement as [|row statement IH]; intros acc; simpl;
    [by rewrite app_nil_r|].
  rewrite erase_emplace_all by (apply Hrows; by left).
  rewrite Hrow by (by left). rewrite IH; [|intros; apply Hrows; by right|intros; apply Hrow; by right].
  rewrite <- app_assoc, flat_map_app. do 2 f_equal.
  rewrite (flat_map_concat_map _ (map _ _)), map_map, <- flat_map_concat_map.
  apply flat_map_ext. intros choice. by rewrite chosen_cons.
Qed.
End expansion.

(** C31: where no two [@foreach] statements bind the same name the test cases are
    expanded over the product of their rows, in the order of the rows, every
    placeholder being replaced by what the chosen rows bind. *)
Theorem foreach_expansion regex_replace statements tests expanded :
  ForallOrdPairs separate statements →
  replace_variable_test_case regex_replace statements tests expanded [] =
    expanded ++ flat_map (chosen regex_replace tests []) (choices statements).
Proof.
  intros Hsep. apply replace_variable_choices; [done|done|].
  intros statement row _ _ k _. apply not_elem_of_nil.
Qed.

(** Two statements of two rows; a replacement that replaces a whole text. *)
Definition replace_whole (text pattern replacement : ustring) : ustring :=
  if decide (u "\{\{" ++ text ++ u "\}\}" = pattern) then replacement else text.

Definition two_statements : list (list arguments) :=
  [[[(u "x", u "1")]; [(u "x", u "2")]]; [[(u "y", u "3"); (u "z", u "4")]; [(u "y", u "5")]]].

Definition placeholders : list TestCaseArguments :=
  [mkTestCaseArguments [(u "f", u "y")] [(u "a", u "x"); (u "b", u "z")]].

Example foreach_order :
  map (λ t, (file_arguments t, source_code_arguments t))
    (replace_variable_test_case replace_whole two_statements placeholders [] []) =
  [([(u "f", u "3")], [(u "a", u "1"); (u "b", u "4")]);
   ([(u "f", u "5")], [(u "a", u "1"); (u "b", u "z")]);
   ([(u "f", u "3")], [(u "a", u "2"); (u "b", u "4")]);
   ([(u "f", u "5")], [(u "a", u "2"); (u "b", u "z")])].
Proof. vm_compute. reflexivity. Qed.

Lemma foreach_expansion_witness :
  ForallOrdPairs separate two_statements ∧
  replace_variable_test_case replace_whole two_statements placeholders [] [] =
    flat_map (chosen replace_whole placeholders []) (choices two_statements).
Proof.
  assert (Hsep : ForallOrdPairs separate two_statements).
  { repeat constructor. intros row row' Hrow Hrow' k Hk Hk'. apply list_elem_of_In in Hrow, Hrow'.
    simpl in Hrow, Hrow'. repeat destruct Hrow as [<-|Hrow]; try done;
      repeat destruct Hrow' as [<-|Hrow']; try done;
      apply list_elem_of_In in Hk, Hk'; vm_compute in Hk, Hk'; intuition congruence. }
  split; [exact Hsep|]. exact (foreach_expansion replace_whole two_statements placeholders [] Hsep).
Defined.
