(* ===== verification/TestCaseFiles.v ===== *)
(** * Reading back test files

    A test file printed from a template, [@foreach] statements and test cases, with
    blanks between the lexemes, is scanned to them. *)
From S2P Require Import Prelude Monad Character StdMap Diagnostic TestCaseScanner TestCaseScannerProperties TestCaseText.

#[local] Arguments u : simpl never.

(** ** Renderings *)

(** Lexemes, each behind its blanks. *)
Definition rendering : Type := list (ustring * lexeme).

Definition text_of (r : rendering) : ustring := flat_map (λ '(w, l), w ++ lexeme_text l) r.

Lemma text_of_app r r' : text_of (r ++ r') = text_of r ++ text_of r'.
Proof. apply flat_map_app. Qed.

Definition lexemes_of (r : rendering) : list lexeme := map snd r.

Fixpoint rendered (r : rendering) (rest : ustring) : Prop :=
  match r with
  | [] => True
  | (w, l) :: r' =>
      forallb is_blank w = true ∧ lexeme_ok l = true ∧ ends_before l (text_of r' ++ rest) ∧
      rendered r' rest
  end.

(** ** The lexemes of test files *)

Abbreviation pairs := (list (ustring * ustring)).

Definition argument_lexemes (a : ustring * ustring) : list lexeme :=
  [Word a.1; Punct Character.Colon; Literal a.2].

(** Arguments behind a comma each, and separated by commas. *)
Definition more_arguments (l : pairs) : list lexeme :=
  flat_map (λ a, Punct Character.Comma :: argument_lexemes a) l.

Definition arguments_lexemes (l : pairs) : list lexeme :=
  match l with [] => [] | a :: l' => argument_lexemes a ++ more_arguments l' end.

(** The map the scanner makes of them: the first value of a name wins. *)
Definition arguments_of (m : std_map ustring ustring) (l : pairs) : std_map ustring ustring :=
  fold_left (λ m '(name, value), emplace name value m) l m.

Definition more_names (l : list ustring) : list lexeme :=
  flat_map (λ n, [Punct Character.Comma; Word n]) l.

Definition names_lexemes (n : ustring) (l : list ustring) : list lexeme :=
  Word n :: more_names l ++ [Punct Character.CloseParen].

Definition row_lexemes (row : pairs) : list lexeme :=
  Punct Character.OpenBracket :: arguments_lexemes row ++ [Punct Character.CloseBracket].

(** A test case: file arguments and source code arguments. *)
Definition test_row_lexemes (row : pairs * pairs) : list lexeme :=
  row_lexemes row.1 ++ [Punct Character.Colon; Punct Character.OpenBrace]
    ++ arguments_lexemes row.2 ++ [Punct Character.CloseBrace].

Definition test_case_of (row : pairs * pairs) : TestCaseArguments :=
  mkTestCaseArguments (arguments_of [] row.1) (arguments_of [] row.2).

(** A directive with its names. *)
Record header := mkHeader { first_name : ustring; other_names : list ustring }.

Definition header_lexemes (h : header) : list lexeme :=
  [Punct Character.OpenParen] ++ names_lexemes (first_name h) (other_names h)
    ++ [Punct Character.Colon].

Definition foreach_lexemes (f : header * list pairs) : list lexeme :=
  ForEachWord :: header_lexemes f.1 ++ flat_map row_lexemes f.2.

Definition test_lexemes (h : header) (rows : list (pairs * pairs)) : list lexeme :=
  TestWord :: header_lexemes h ++ flat_map test_row_lexemes rows ++ [EndWord].

Definition file_lexemes (statements : list (header * list pairs)) (h : header)
    (rows : list (pairs * pairs)) : list lexeme :=
  flat_map foreach_lexemes statements ++ test_lexemes h rows.

Section steps.
Context {template : ustring}.
Abbreviation reads m Q s := (wp False m Q (λ _ _, False) s).
Abbreviation inside := (reading template true).

(** Before the text of a rendering. *)
Definition before (r : rendering) (rest : ustring) (s : TestCaseScanner) : Prop :=
  rendered r rest ∧ inside (text_of r ++ rest) s.

Lemma take_next_token_before w l r rest s :
  before ((w, l) :: r) rest s →
  reads take_next_token (λ token s', token = lexeme_token l ∧ before r rest s' ∧
    match l with Literal w => string_literal s' = w | _ => token_is (lexeme_text l) s' end ∧
    saved_text_cursors s' = saved_text_cursors s ∧ source s' = source s) s.
Proof.
  intros [(Hw & Hok & Hend & Hr) Hin]. simpl in Hin. rewrite <- !app_assoc in Hin.
  pose proof (take_next_token_text l w (text_of r ++ rest) s Hw Hok Hend Hin) as Ht.
  assert (Hok' : ok (source s) s).
  { pose proof (reading_position _ _ Hin). destruct Hin as [_ Hz _ _ _]. split; [done|done|lia]. }
  pose proof (wp_and_defined _ _ _ _ _ _ _ Ht (take_next_token_taken _ s Hok')) as Hboth.
  eapply wp_mono; [exact Hboth| |by intros e s' []].
  intros token s' [(-> & Hin' & Hl) [[[Hsrc _ _] Hsaved _] _ _]]. by split_and!.
Qed.

(** One token of a rendering. *)
Lemma take_step {B} (k : TestCaseToken.t → M TestCaseScanner B) w l r rest Q s :
  before ((w, l) :: r) rest s →
  (∀ s', before r rest s' →
    match l with Literal w => string_literal s' = w | _ => token_is (lexeme_text l) s' end →
    reads (k (lexeme_token l)) Q s') →
  reads (take_next_token ≫= k) Q s.
Proof.
  intros Hb Hk. wp_step. eapply wp_mono; [by eapply take_next_token_before| |done].
  intros token s' (-> & Hb' & Hl & _ & _). by apply Hk.
Qed.

Lemma expected_step {B} (k : bool → M TestCaseScanner B) token w l r rest Q s :
  before ((w, l) :: r) rest s → lexeme_token l = token →
  (∀ s', before r rest s' →
    match l with Literal w => string_literal s' = w | _ => True end → reads (k true) Q s') →
  reads (scan_expected token ≫= k) Q s.
Proof.
  intros Hb Htoken Hk. wp_step. unfold scan_expected. wp_step.
  eapply wp_mono; [by eapply take_next_token_before| |done].
  intros token' s' (-> & Hb' & Hl & _ & _). rewrite decide_True by done. wp_step.
  apply Hk; [done|]. by destruct l.
Qed.

Lemma optional_step {B} (k : bool → M TestCaseScanner B) token w l r rest Q s :
  before ((w, l) :: r) rest s →
  (lexeme_token l = token → ∀ s', before r rest s' → reads (k true) Q s') →
  (lexeme_token l ≠ token → ∀ s', before ((w, l) :: r) rest s' → reads (k false) Q s') →
  reads (scan_optional token ≫= k) Q s.
Proof.
  intros Hb Hyes Hno. wp_step. unfold scan_optional, try_scan, save. do 3 wp_step.
  set (s1 := set_saved_text_cursors _ s).
  assert (Hb1 : before ((w, l) :: r) rest s1).
  { destruct Hb as [Hr Hin]. split; [done|]. by eapply reading_same. }
  wp_step. eapply wp_mono; [by eapply take_next_token_before| |done].
  intros token' s' (-> & Hb' & _ & Hsaved & Hsrc). case_decide as Heq.
  - do 2 wp_step. rewrite bool_decide_true by done. by apply Hyes.
  - unfold revert. do 3 wp_step. rewrite Hsaved. simpl. do 5 wp_step.
    rewrite bool_decide_false by done. apply Hno; [done|].
    destruct Hb as [Hr [(pre & Hs & Hl) Hz Hd Ht Hg]]. destruct Hb' as [_ [(pre' & Hs' & Hl') Hz' Hd' Ht' Hg']].
    split; [done|].
    change (source s1) with (source s) in Hsrc.
    split; simpl; [exists pre; by rewrite Hsrc|congruence|done..].
Qed.

(** ** Parsing *)

(** Before a rendering of the lexemes. *)
Definition at_lexemes (ls : list lexeme) (k : rendering → Prop) (rest : ustring)
    (s : TestCaseScanner) : Prop :=
  ∃ r r', lexemes_of r = ls ∧ k r' ∧ before (r ++ r') rest s.

(** [m] reads the lexemes, whatever they are rendered with and follows them. *)
Definition consumes {A} (m : M TestCaseScanner A) (ls : list lexeme) (Q : A → Prop) : Prop :=
  ∀ r r' rest s, lexemes_of r = ls → before (r ++ r') rest s →
    reads m (λ a s', Q a ∧ before r' rest s') s.

Lemma lexemes_of_cons r l ls :
  lexemes_of r = l :: ls → ∃ w r', r = (w, l) :: r' ∧ lexemes_of r' = ls.
Proof. destruct r as [|[w l'] r]; [done|]. intros [= -> <-]. by exists w, r. Qed.

Lemma lexemes_of_app r ls ls' :
  lexemes_of r = ls ++ ls' → ∃ r1 r2, r = r1 ++ r2 ∧ lexemes_of r1 = ls ∧ lexemes_of r2 = ls'.
Proof.
  revert r. induction ls as [|l ls IH]; intros r Hr; [by exists [], r|].
  apply lexemes_of_cons in Hr as (w & r0 & -> & Hr). destruct (IH _ Hr) as (r1 & r2 & -> & <- & <-).
  by exists ((w, l) :: r1), r2.
Qed.

(** One operation after the other. *)
Lemma consumes_bind {A B} (m : M TestCaseScanner A) (k : A → M TestCaseScanner B) ls ls' P Q :
  consumes m ls P → (∀ a, P a → consumes (k a) ls' Q) → consumes (m ≫= k) (ls ++ ls') Q.
Proof.
  intros Hm Hk r r' rest s Hr Hb. apply lexemes_of_app in Hr as (r1 & r2 & -> & H1 & H2).
  rewrite <- app_assoc in Hb. wp_step. eapply wp_mono; [by eapply Hm| |done].
  intros a s' [Ha Hb']. by eapply Hk.
Qed.

Lemma consumes_ret {A} (a : A) (Q : A → Prop) : Q a → consumes (mret a) [] Q.
Proof. intros HQ r r' rest s Hr Hb. destruct r; [|done]. by wp_step. Qed.

Lemma consumes_expected l token :
  lexeme_token l = token → consumes (scan_expected token) [l] (eq true).
Proof.
  intros Hl r r' rest s Hr Hb. apply lexemes_of_cons in Hr as (w & r0 & -> & Hr). destruct r0; [|done].
  unfold scan_expected. eapply take_step; [exact Hb|]. intros s' Hb' _.
  rewrite decide_True by done. by wp_step.
Qed.

Lemma consumes_argument_value v :
  consumes scan_argument_value [Punct Character.Colon; Literal v] (eq (Some v)).
Proof.
  intros r r' rest s Hr Hb. apply lexemes_of_cons in Hr as (w1 & r1 & -> & Hr).
  apply lexemes_of_cons in Hr as (w2 & r2 & -> & Hr). destruct r2; [|done].
  unfold scan_argument_value. eapply expected_step; [exact Hb|done|]. intros s1 Hb1 _. cbn [negb].
  eapply expected_step; [exact Hb1|done|]. intros s2 Hb2 Hl. cbn [negb].
  unfold get_string_literal. do 3 wp_step. by rewrite Hl.
Qed.

(** Loops over renderings: every further iteration reads a lexeme. *)
Lemma lexeme_text_nonempty l : lexeme_ok l = true → (0 < length (lexeme_text l))%nat.
Proof. destruct l as [| | |ch|w|w]; simpl; try lia. destruct w; [done|simpl; lia]. Qed.

Lemma rendered_app r r' rest :
  rendered (r ++ r') rest → rendered r (text_of r' ++ rest) ∧ rendered r' rest.
Proof.
  induction r as [|[w l] r IH]; [done|]. intros (Hw & Hl & Hend & Hr).
  destruct (IH Hr) as [H1 H2]. split; [|done]. split; [done|]. split; [done|]. split; [|done].
  by rewrite text_of_app, <- app_assoc in Hend.
Qed.

Lemma rendered_shorter x r r' rest :
  rendered (x :: r ++ r') rest →
  (length (text_of r' ++ rest) < length (text_of (x :: r ++ r') ++ rest))%nat.
Proof.
  destruct x as [w l]. intros (_ & Hl & _ & _). apply lexeme_text_nonempty in Hl.
  unfold text_of. simpl. rewrite flat_map_app. shorter.
Qed.

Lemma rendering_loop {A B} (I : A → rendering → Prop) (body : A → M TestCaseScanner (A + B))
    (Q : B → TestCaseScanner → Prop) rest a r s :
  I a r → before r rest s →
  (∀ a r s, I a r → before r rest s →
    reads (body a) (λ x s',
      match x with
      | inl a' => ∃ y pre r', r = y :: pre ++ r' ∧ I a' r' ∧ before r' rest s'
      | inr b => Q b s'
      end) s) →
  reads (scan_loop body a) Q s.
Proof.
  intros HI Hb Hbody. unfold scan_loop. do 2 wp_step.
  apply (wp_loop _ (λ a s, ∃ r, I a r ∧ before r rest s) (λ _ s, size s - position s)%nat);
    [by exists r|unfold scan_fuel; lia|].
  clear a r s HI Hb. intros a s (r & HI & Hb).
  eapply wp_mono; [by apply (Hbody a r)| |done]. intros [a'|b] s'; [|done].
  intros (y & pre & r' & -> & HI' & Hb'). split; [by exists r'|].
  destruct Hb as [Hr Hin], Hb' as [_ Hin']. pose proof (rendered_shorter _ _ _ _ Hr).
  pose proof (reading_position _ _ Hin). pose proof (reading_position _ _ Hin'). lia.
Qed.

Lemma arguments_of_cons m a l : arguments_of m (a :: l) = arguments_of (emplace a.1 a.2 m) l.
Proof. by destruct a. Qed.

(** A name that was taken, its colon and its value. *)
Lemma argument_tail {B} name value (k : ustring → ustring → M TestCaseScanner B)
    (stop : M TestCaseScanner B) r1 r' rest Q s :
  lexemes_of r1 = [Punct Character.Colon; Literal value] →
  before (r1 ++ r') rest s → token_is name s →
  (∀ s', before r' rest s' → reads (k name value) Q s') →
  reads (key ← get_token_value;
    value ← scan_argument_value;
    match value with None => stop | Some value => k key value end) Q s.
Proof.
  intros Hr1 Hb His Hk.
  wp_step. eapply get_token_value_text; [apply Hb|exact His|]. wp_step.
  eapply wp_mono; [by eapply consumes_argument_value| |done]. intros v s2 [<- Hb2]. by apply Hk.
Qed.

(** The lexemes of a rendering in front, one or an argument. *)
Lemma lexemes_of_argument r a ls :
  lexemes_of r = argument_lexemes a ++ ls →
  ∃ w r1 r2, r = (w, Word a.1) :: r1 ++ r2 ∧
    lexemes_of r1 = [Punct Character.Colon; Literal a.2] ∧ lexemes_of r2 = ls.
Proof.
  intros Hr. apply lexemes_of_cons in Hr as (w & r0 & -> & Hr).
  apply (lexemes_of_app _ [_; _]) in Hr as (r1 & r2 & -> & H1 & H2). by exists w, r1, r2.
Qed.

Lemma consumes_replacement_arguments l :
  consumes parse_replacement_arguments (arguments_lexemes l ++ [Punct Character.CloseBracket])
    (eq (arguments_of [] l)).
Proof.
  intros r r' rest s Hr Hb. unfold parse_replacement_arguments.
  apply (rendering_loop (λ '(m, comma) r0, ∃ l' ra, r0 = ra ++ r' ∧
    lexemes_of ra = (if comma : bool then more_arguments l' else arguments_lexemes l')
      ++ [Punct Character.CloseBracket] ∧ arguments_of m l' = arguments_of [] l) _ _ rest _ (r ++ r'));
    [by exists l, r|done|].
  clear r s Hr Hb. intros [m comma] r s (l' & ra & -> & Hra & Hl) Hb.
  destruct l' as [|a l'].
  - assert (Hclose : lexemes_of ra = [Punct Character.CloseBracket]) by (by destruct comma).
    apply lexemes_of_cons in Hclose as (w & r0 & -> & Hr0). destruct r0; [|done].
    eapply take_step; [exact Hb|]. intros s' Hb' _. cbn. by wp_step.
  - destruct comma.
    + cbn [more_arguments flat_map] in Hra. apply lexemes_of_cons in Hra as (w & r0 & -> & Hr0).
      eapply take_step; [exact Hb|]. intros s' Hb' _. cbn. wp_step.
      exists (w, Punct Character.Comma), [], (r0 ++ r'). split; [done|]. split; [|done].
      by exists (a :: l'), r0.
    + cbn [arguments_lexemes] in Hra. rewrite <- app_assoc in Hra.
      apply lexemes_of_argument in Hra as (w & r1 & r2 & -> & Hr1 & Hr2).
      simpl in Hb. rewrite <- app_assoc in Hb.
      eapply take_step; [exact Hb|]. intros s1 Hb1 His. cbn [lexeme_token].
      eapply argument_tail; [exact Hr1|exact Hb1|exact His|]. intros s2 Hb2. wp_step.
      exists (w, Word a.1), r1, (r2 ++ r'). simpl. rewrite <- app_assoc. split; [done|]. split; [|done].
      exists l', r2. split; [done|]. split; [done|]. by rewrite <- Hl, arguments_of_cons.
Qed.

Lemma consumes_content_arguments l :
  consumes parse_content_arguments
    (Punct Character.OpenBrace :: arguments_lexemes l ++ [Punct Character.CloseBrace])
    (eq (Some (arguments_of [] l))).
Proof.
  intros r r' rest s Hr Hb. unfold parse_content_arguments.
  apply lexemes_of_cons in Hr as (w & r0 & -> & Hr).
  eapply expected_step; [exact Hb|done|]. clear s Hb. intros s Hb _. cbn [negb].
  apply (rendering_loop (λ m r1, ∃ comma l' ra, r1 = ra ++ r' ∧
    lexemes_of ra = (if comma : bool then more_arguments l' else arguments_lexemes l')
      ++ [Punct Character.CloseBrace] ∧ arguments_of m l' = arguments_of [] l) _ _ rest _ (r0 ++ r'));
    [by exists false, l, r0|done|].
  clear w r0 s Hr Hb. intros m r s (comma & l' & ra & -> & Hra & Hl) Hb.
  destruct l' as [|a l'].
  - assert (Hclose : lexemes_of ra = [Punct Character.CloseBrace]) by (by destruct comma).
    apply lexemes_of_cons in Hclose as (w & r0 & -> & Hr0). destruct r0; [|done].
    eapply take_step; [exact Hb|]. intros s' Hb' _. cbn. wp_step. split; [by rewrite <- Hl|done].
  - destruct comma.
    + cbn [more_arguments flat_map] in Hra. apply lexemes_of_cons in Hra as (w & r0 & -> & Hr0).
      eapply take_step; [exact Hb|]. intros s' Hb' _. cbn. wp_step.
      exists (w, Punct Character.Comma), [], (r0 ++ r'). split; [done|]. split; [|done].
      by exists false, (a :: l'), r0.
    + cbn [arguments_lexemes] in Hra. rewrite <- app_assoc in Hra.
      apply lexemes_of_argument in Hra as (w & r1 & r2 & -> & Hr1 & Hr2).
      simpl in Hb. rewrite <- app_assoc in Hb.
      eapply take_step; [exact Hb|]. intros s1 Hb1 His. cbn [lexeme_token].
      eapply argument_tail; [exact Hr1|exact Hb1|exact His|]. intros s2 Hb2. wp_step.
      exists (w, Word a.1), r1, (r2 ++ r'). simpl. rewrite <- app_assoc. split; [done|]. split; [|done].
      exists true, l', r2. split; [done|]. split; [done|]. by rewrite <- Hl, arguments_of_cons.
Qed.

Lemma consumes_test_case row :
  consumes parse_test_case_arguments (tail (test_row_lexemes row)) (eq (Some (test_case_of row))).
Proof.
  unfold parse_test_case_arguments, test_row_lexemes, row_lexemes. simpl tail. rewrite <- !app_assoc.
  rewrite (app_assoc _ [_]).
  eapply consumes_bind; [apply consumes_replacement_arguments|]. intros m <-.
  apply (consumes_bind _ _ [Punct Character.Colon] _ (eq true)); [by apply consumes_expected|].
  intros colon <-. cbn [negb]. rewrite <- (app_nil_r (_ :: _)).
  eapply consumes_bind; [apply consumes_content_arguments|]. intros content <-. by apply consumes_ret.
Qed.

(** ** Directives *)

Lemma consumes_parameters n l :
  consumes scan_parameters_after_open_paren (names_lexemes n l) (λ _, True).
Proof.
  intros r r' rest s Hr Hb. unfold scan_parameters_after_open_paren.
  apply (rendering_loop (λ _ r0, ∃ n l ra, r0 = ra ++ r' ∧ lexemes_of ra = names_lexemes n l)
    _ _ rest _ (r ++ r')); [by exists n, l, r|done|].
  clear n l r s Hr Hb. intros parameters r0 s (n & l & ra & -> & Hra) Hb.
  apply lexemes_of_cons in Hra as (w & r1 & -> & Hr1).
  eapply take_step; [exact Hb|]. intros s1 Hb1 His. cbn [lexeme_token].
  wp_step. eapply get_token_value_text; [apply Hb1|exact His|]. cbv zeta.
  destruct l as [|n' l].
  - apply lexemes_of_cons in Hr1 as (w1 & r2 & -> & Hr2). destruct r2; [|done].
    eapply optional_step; [exact Hb1|done|]. intros _ s2 Hb2. cbn [negb].
    eapply expected_step; [exact Hb2|done|]. intros s3 Hb3 _. by wp_step.
  - apply lexemes_of_cons in Hr1 as (w1 & r2 & -> & Hr2).
    eapply optional_step; [exact Hb1| |done]. intros _ s2 Hb2. wp_step.
    exists (w, Word n), [(w1, Punct Character.Comma)], (r2 ++ r').
    split; [done|]. split; [|done]. by exists n', l, r2.
Qed.

(** The names of a directive, and what is behind its colon. *)
Lemma header_read {B} h (stop : B) (rows : M TestCaseScanner B) r r' rest Q s :
  lexemes_of r = header_lexemes h → before (r ++ r') rest s →
  (∀ s', before r' rest s' → reads rows Q s') →
  reads (paren ← scan_expected TestCaseToken.OpenParen;
    if negb (paren : bool) then mret stop else
    scan_parameters_after_open_paren;;
    colon ← scan_expected TestCaseToken.Colon;
    if negb (colon : bool) then mret stop else rows) Q s.
Proof.
  intros Hr Hb Hrows. apply lexemes_of_cons in Hr as (w & r1 & -> & Hr).
  apply lexemes_of_app in Hr as (r2 & r3 & -> & Hr2 & Hr3). simpl in Hb. rewrite <- app_assoc in Hb.
  eapply expected_step; [exact Hb|done|]. intros s1 Hb1 _. cbn [negb].
  wp_step. eapply wp_mono; [by eapply consumes_parameters| |done]. intros ps s2 [_ Hb2].
  apply lexemes_of_cons in Hr3 as (w' & r4 & -> & Hr3). destruct r4; [|done].
  eapply expected_step; [exact Hb2|done|]. intros s3 Hb3 _. cbn [negb]. by apply Hrows.
Qed.

(** What follows the rows of a [@foreach] directive is no row. *)
Definition no_row (r : rendering) : Prop :=
  ∃ w l r', r = (w, l) :: r' ∧ lexeme_token l ≠ TestCaseToken.OpenBracket.

Lemma foreach_rows_read rows r r' rest s :
  lexemes_of r = flat_map row_lexemes rows → no_row r' → before (r ++ r') rest s →
  reads scan_foreach_rows (λ a s', a = map (arguments_of []) rows ∧ before r' rest s') s.
Proof.
  intros Hr Hno Hb. unfold scan_foreach_rows.
  apply (rendering_loop (λ a r0, ∃ l ra, r0 = ra ++ r' ∧ lexemes_of ra = flat_map row_lexemes l ∧
    a ++ map (arguments_of []) l = map (arguments_of []) rows) _ _ rest _ (r ++ r'));
    [by exists rows, r|done|].
  clear r s Hr Hb. intros a r0 s (l & ra & -> & Hra & Ha) Hb. destruct l as [|row l].
  - destruct ra; [|done]. destruct Hno as (w & l & r1 & -> & Hl).
    eapply optional_step; [exact Hb|done|]. intros _ s1 Hb1. cbn [negb]. wp_step.
    by rewrite <- Ha, app_nil_r.
  - cbn [flat_map row_lexemes app] in Hra. apply lexemes_of_cons in Hra as (w & r1 & -> & Hr1).
    apply lexemes_of_app in Hr1 as (r2 & r3 & -> & Hr2 & Hr3). simpl in Hb. rewrite <- app_assoc in Hb.
    eapply optional_step; [exact Hb| |done]. intros _ s1 Hb1. cbn [negb]. wp_step.
    eapply wp_mono; [by eapply consumes_replacement_arguments| |done]. intros m s2 [<- Hb2]. wp_step.
    exists (w, Punct Character.OpenBracket), r2, (r3 ++ r'). simpl. rewrite <- app_assoc.
    split; [done|]. split; [|done]. exists l, r3. split; [done|]. split; [done|].
    by rewrite <- Ha, <- app_assoc.
Qed.

Lemma test_row_head row :
  test_row_lexemes row = Punct Character.OpenBracket :: tail (test_row_lexemes row).
Proof. done. Qed.

Lemma consumes_test_rows rows :
  consumes (scan_test_rows []) (flat_map test_row_lexemes rows ++ [EndWord])
    (eq (map test_case_of rows)).
Proof.
  intros r r' rest s Hr Hb. unfold scan_test_rows.
  apply (rendering_loop (λ a r0, ∃ l ra, r0 = ra ++ r' ∧
    lexemes_of ra = flat_map test_row_lexemes l ++ [EndWord] ∧
    a ++ map test_case_of l = map test_case_of rows) _ _ rest _ (r ++ r'));
    [by exists rows, r|done|].
  clear r s Hr Hb. intros a r0 s (l & ra & -> & Hra & Ha) Hb. destruct l as [|row l].
  - apply lexemes_of_cons in Hra as (w & r1 & -> & Hr1). destruct r1; [|done].
    eapply take_step; [exact Hb|]. intros s1 Hb1 _. cbn. wp_step. by rewrite <- Ha, app_nil_r.
  - cbn [flat_map] in Hra. rewrite <- app_assoc in Hra.
    rewrite (test_row_head row) in Hra. rewrite <- app_comm_cons in Hra.
    apply lexemes_of_cons in Hra as (w & r1 & -> & Hr1).
    apply lexemes_of_app in Hr1 as (r2 & r3 & -> & Hr2 & Hr3). simpl in Hb. rewrite <- app_assoc in Hb.
    eapply take_step; [exact Hb|]. intros s1 Hb1 _.
    change (lexeme_token _) with TestCaseToken.OpenBracket. cbv iota. rewrite decide_True by done.
    do 3 wp_step. eapply wp_mono; [by eapply consumes_test_case| |done]. intros t s2 [<- Hb2]. wp_step.
    exists (w, Punct Character.OpenBracket), r2, (r3 ++ r'). simpl. rewrite <- app_assoc.
    split; [done|]. split; [|done]. exists l, r3. split; [done|]. split; [done|].
    by rewrite <- Ha, <- app_assoc.
Qed.

(** The test cases and statements of a file. *)
Definition statement_of (f : header * list pairs) : list (std_map ustring ustring) :=
  map (arguments_of []) f.2.

Lemma foreach_read f tests statements r r' rest s :
  lexemes_of r = header_lexemes f.1 ++ flat_map row_lexemes f.2 → no_row r' →
  before (r ++ r') rest s →
  reads (scan_directive (tests, statements) TestCaseToken.ForEachDirective)
    (λ x s', x = inl (tests, statements ++ [statement_of f]) ∧ before r' rest s') s.
Proof.
  intros Hr Hno Hb. apply lexemes_of_app in Hr as (r1 & r2 & -> & Hr1 & Hr2). rewrite <- app_assoc in Hb.
  unfold scan_directive. eapply header_read; [exact Hr1|exact Hb|]. intros s1 Hb1. wp_step.
  eapply wp_mono; [by eapply foreach_rows_read| |done]. intros a s2 [-> Hb2]. by wp_step.
Qed.

Lemma test_read h rows statements r r' rest s :
  lexemes_of r = header_lexemes h ++ flat_map test_row_lexemes rows ++ [EndWord] →
  before (r ++ r') rest s →
  reads (scan_directive ([], statements) TestCaseToken.TestDirective)
    (λ x s', x = inr (map test_case_of rows, statements) ∧ before r' rest s') s.
Proof.
  intros Hr Hb. apply lexemes_of_app in Hr as (r1 & r2 & -> & Hr1 & Hr2). rewrite <- app_assoc in Hb.
  unfold scan_directive. eapply header_read; [exact Hr1|exact Hb|]. intros s1 Hb1. wp_step.
  eapply wp_mono; [by eapply consumes_test_rows| |done]. intros a s2 [<- Hb2]. by wp_step.
Qed.
End steps.

(** ** Files *)

Section files.
Context (template spaces : ustring) (any : uninitialised).
Context (statements : list (header * list pairs)) (h : header) (rows : list (pairs * pairs)).
Context (l : lexeme) (r : rendering) (rest : ustring).
Abbreviation reads m Q s := (wp False m Q (λ _ _, False) s).

(** The file: the first directive is on a line of its own, behind spaces. *)
Definition file : ustring :=
  template ++ Character.NewLine :: spaces ++ lexeme_text l ++ text_of r ++ rest.

Hypothesis Hlexemes : l :: lexemes_of r = file_lexemes statements h rows.
Hypothesis Htemplate : forallb is_plain template = true.
Hypothesis Hspaces : forallb is_space spaces = true.
Hypothesis Hrendered : rendered ((spaces, l) :: r) rest.

(** What the loop of [scan_directives] knows behind a directive. *)
Definition between (a : list TestCaseArguments * list (list (std_map ustring ustring)))
    (s : TestCaseScanner) : Prop :=
  ∃ read todo r, statements = read ++ todo ∧ a = ([], map statement_of read) ∧
    lexemes_of r = file_lexemes todo h rows ∧ before (template := template) r rest s.

Definition result : list TestCaseArguments * list (list (std_map ustring ustring)) :=
  (map test_case_of rows, map statement_of statements).

Lemma file_lexemes_first todo l' r' :
  l' :: lexemes_of r' = file_lexemes todo h rows → l' = TestWord ∨ l' = ForEachWord.
Proof. destruct todo; intros [= -> _]; auto. Qed.

Lemma no_row_before todo r' : lexemes_of r' = file_lexemes todo h rows → no_row r'.
Proof.
  intros Hr. destruct r' as [|[w l'] r']; [by (destruct todo; inversion Hr)|].
  exists w, l', r'. split; [done|]. by destruct (file_lexemes_first todo l' r' Hr) as [-> | ->].
Qed.

Lemma directive_read read todo l' r' s :
  statements = read ++ todo → l' :: lexemes_of r' = file_lexemes todo h rows →
  before (template := template) r' rest s →
  reads (scan_directive ([], map statement_of read) (lexeme_token l'))
    (λ x s', match x with
      | inl a => between a s' ∧ (size s' - position s' ≤ length (text_of r' ++ rest))%nat
      | inr b => b = result ∧ before (template := template) [] rest s'
      end) s.
Proof.
  intros Hall Hl Hb. destruct todo as [|f todo].
  - injection Hl as -> Hl. rewrite <- (app_nil_r r') in Hb.
    eapply wp_mono; [eapply test_read; [exact Hl|exact Hb]| |done].
    intros x s' [-> Hb']. split; [|done].
    unfold result. by rewrite Hall, app_nil_r.
  - assert (E : file_lexemes (f :: todo) h rows =
      ForEachWord :: (header_lexemes f.1 ++ flat_map row_lexemes f.2) ++ file_lexemes todo h rows)
      by (unfold file_lexemes; cbn [flat_map]; by rewrite <- app_assoc).
    rewrite E in Hl. pose proof (f_equal head Hl) as [= ->].
    apply (f_equal tail) in Hl. cbn [tail] in Hl.
    apply lexemes_of_app in Hl as (r1 & r2 & -> & Hr1 & Hr2).
    eapply wp_mono; [eapply foreach_read; [exact Hr1|by eapply no_row_before|exact Hb]| |done].
    intros x s' [-> Hb']. split.
    + exists (read ++ [f]), todo, r2. rewrite map_app. split; [by rewrite <- app_assoc|done].
    + destruct Hb' as [_ Hin]. pose proof (reading_position _ _ Hin) as Hp.
      rewrite text_of_app, !length_app in *. lia.
Qed.

Lemma scan_directives_read :
  reads scan_directives (λ b s, b = result ∧ before (template := template) [] rest s)
    (new_TestCaseScanner any file).
Proof.
  unfold scan_directives, scan_loop. do 2 wp_step. unfold scan_fuel. cbn [Nat.add].
  set (s0 := new_TestCaseScanner any file).
  apply (wp_loop _ (λ a s, between a s ∨ (a = ([], []) ∧ s = s0)) (λ _ s, size s - position s)%nat);
    [by right|lia|].
  destruct Hrendered as (_ & Hok & Hend & Hr).
  intros a s [(read & todo & r0 & Hall & -> & Hl & Hb)|[-> ->]].
  - destruct r0 as [|[w l'] r0]; [by (destruct todo; inversion Hl)|]. pose proof Hb as [Hr0 Hin].
    eapply take_step; [exact Hb|]. intros s1 Hb1 _.
    eapply wp_mono; [by eapply directive_read| |done]. intros [a|b] s2; [|done]. intros [Hbt Hlt].
    split; [by left|]. pose proof (reading_position _ _ Hin).
    pose proof (rendered_shorter (w, l') [] r0 rest Hr0). simpl in *. lia.
  - wp_step. eapply wp_mono; [eapply (first_token template file any spaces l (text_of r ++ rest));
      [done..|by eapply file_lexemes_first|done]| |done].
    intros token s1 (-> & Hin & _).
    eapply wp_mono; [by eapply (directive_read [] statements l r)| |done].
    intros [a|b] s2; [|done]. intros [Hbt Hlt]. split; [by left|].
    change (size s0) with (length file). change (position s0) with 0%nat. unfold file.
    rewrite !length_app in *. simpl. rewrite !length_app. unfold char32, ustring in *. lia.
Qed.
End files.

(** The rows expand to test cases where there are [@foreach] statements. *)
Definition expanded (regex_replace : ustring → ustring → ustring → ustring)
    (statements : list (header * list pairs)) (rows : list (pairs * pairs)) :
    list TestCaseArguments :=
  match statements with
  | [] => map test_case_of rows
  | _ => replace_variable_test_case regex_replace (map statement_of statements)
           (map test_case_of rows) [] []
  end.

(** C30: a test file printed from a template, [@foreach] statements and test
    cases, with blanks wherever they may be, is scanned to them: the template is
    found, nothing is reported, and the test cases are those of the rows, expanded
    over the statements. *)
Theorem test_file_roundtrip regex_replace template spaces any statements h rows l r rest :
  l :: lexemes_of r = file_lexemes statements h rows →
  forallb is_plain template = true → forallb is_space spaces = true →
  rendered ((spaces, l) :: r) rest →
  ∃ s, scan regex_replace (new_TestCaseScanner any (file template spaces l r rest)) =
      Ok (expanded regex_replace statements rows) s ∧
    source_code_template s = template ∧ diagnostics s = [].
Proof.
  intros Hl Ht Hs Hr.
  assert (Hscan : wp False (scan regex_replace) (λ a s, a = expanded regex_replace statements rows ∧
      source_code_template s = template ∧ diagnostics s = []) (λ _ _, False)
    (new_TestCaseScanner any (file template spaces l r rest))).
  { unfold scan. wp_step. eapply wp_mono; [by apply (scan_directives_read _ _ _ statements h rows)| |done].
    intros [tests stms] s [[= -> ->] [_ [_ _ _ Htemp Hdiag]]]. wp_step. split; [|done].
    by destruct statements. }
  destruct (wp_total _ _ _ Hscan) as (a & s & Hrun & -> & Hrest). by exists s.
Qed.

(** A template with one variable, two choices of its value and two test cases, one
    with an escaped quote; a blank before every lexeme. *)
Definition sample_statements : list (header * list pairs) :=
  [(mkHeader (u "x") [], [[(u "x", u "A")]; [(u "x", u "B"); (u "y", u "C")]])].

Definition sample_rows : list (pairs * pairs) :=
  [([(u "f", u "1")], [(u "x", u "{{x}}")]); ([], [(u "x", u "a"); (u "z", u "\n")])].

Definition sample_rendering : rendering :=
  map (λ l, (u " ", l))
    (tail (file_lexemes sample_statements (mkHeader (u "f") [u "x"; u "z"]) sample_rows)).

Lemma test_file_roundtrip_witness :
  ∃ s, scan (λ text _ _, text)
      (new_TestCaseScanner (mkUninitialised 0 0 0 0)
        (file (u "type {{x}}") (u "  ") ForEachWord sample_rendering (u " rest"))) =
      Ok (expanded (λ text _ _, text) sample_statements sample_rows) s ∧
    source_code_template s = u "type {{x}}" ∧ diagnostics s = [].
Proof.
  apply (test_file_roundtrip (λ text _ _, text) (u "type {{x}}") (u "  ") _ sample_statements
    (mkHeader (u "f") [u "x"; u "z"]) sample_rows).
  - reflexivity.
  - reflexivity.
  - reflexivity.
  - vm_compute. repeat split.
Defined.
