(* ===== verification/ScannerSpec.v ===== *)
(** * What the scanner promises

    Every operation of the scanner terminates within its fuel, throws nothing
    and reads inside the source, unless the source ends with a carriage return
    (the look-ahead after it reads past the terminator).  [scans] is the frame
    of the operations inside one token, [takes] that of an operation that
    takes tokens. *)
From S2P Require Import Prelude Monad Character Cstring Diagnostic StdMap Syntaxes Scanner.

(** ** Reading characters *)

(** What [source[i]] reads: NUL at the terminator. *)
Definition char_at (s : GraphQlScanner) (i : nat) : char32 :=
  if (i <? size s)%nat then nth i (source s) 0%Z else 0%Z.

(** The source ends with a carriage return. *)
Definition ends_with_cr (s : GraphQlScanner) : Prop :=
  (0 < size s)%nat ∧ char_at s (size s - 1) = Character.CarriageReturn.

#[export] Instance ends_with_cr_dec s : Decision (ends_with_cr s).
Proof. unfold ends_with_cr. apply _. Defined.

(** At the start this is the last character of the source. *)
Lemma ends_with_cr_source source_ :
  ends_with_cr (new_GraphQlScanner source_) → ∃ pre, source_ = pre ++ [Character.CarriageReturn].
Proof.
  unfold ends_with_cr, char_at. simpl. intros [Hlen Hc].
  destruct source_ as [|c source_] using rev_ind; [simpl in Hlen; lia|]. exists source_.
  rewrite length_app in *. simpl in *.
  destruct (Nat.ltb_spec (length source_ + 1 - 1) (length source_ + 1)); [|lia].
  replace (length source_ + 1 - 1)%nat with (length source_) in Hc by lia.
  rewrite nth_middle in Hc. by subst.
Qed.

Lemma char_at_inside s i : char_at s i ≠ 0%Z → (i < size s)%nat.
Proof. unfold char_at. destruct (Nat.ltb_spec i (size s)); [done|congruence]. Qed.

Lemma char_at_size s : char_at s (size s) = 0%Z.
Proof. unfold char_at. by rewrite Nat.ltb_irrefl. Qed.

(** The state after [increment_position]. *)
Definition advance (s : GraphQlScanner) : GraphQlScanner :=
  set_position (S (position s)) (set_column (S (column s)) s).

(** A well-formed scanner: the cursor is at most one past the terminator. *)
Record scanner_ok (s : GraphQlScanner) : Prop := {
  ok_size : size s = length (source s);
  ok_position : (position s ≤ S (size s))%nat;
  ok_start : (start_position s ≤ position s)%nat
}.

(** Inside a token: the cursor moves forward and only the columns, the scanned
    text and the errors change with it. *)
Record scans (s s' : GraphQlScanner) : Prop := {
  scans_source : source s' = source s;
  scans_size : size s' = size s;
  scans_saved : saved_text_cursors s' = saved_text_cursors s;
  scans_start : start_position s' = start_position s;
  scans_table : position_to_line_list s' = position_to_line_list s;
  scans_line : line s' = line s;
  scans_le : (position s ≤ position s')%nat
}.

#[export] Instance scans_preorder : PreOrder scans.
Proof.
  split; [by split|].
  intros s1 s2 s3 [] []. split; try congruence. lia.
Qed.

Lemma scans_char_at s s' i : scans s s' → char_at s' i = char_at s i.
Proof. intros [Hs Hn]. unfold char_at. by rewrite Hs, Hn. Qed.

Lemma scans_advance s : scans s (advance s).
Proof. split; simpl; try done. lia. Qed.

Lemma position_advance s : position (advance s) = S (position s).
Proof. done. Qed.

#[export] Hint Resolve scans_advance : flash.

Section basic_rules.
Context (ub : Prop).

Lemma wp_source_at i Q X s :
  (i ≤ size s)%nat → Q (char_at s i) s → wp ub (source_at i) Q X s.
Proof.
  intros Hi HQ. apply (wp_intro_ok _ _ _ _ _ (char_at s i) s); [|done].
  unfold source_at, char_at. destruct (Nat.ltb_spec i (size s)); [done|].
  destruct (Nat.eqb_spec i (size s)); [done|lia].
Qed.

Lemma wp_source_at_ub i Q X s : (size s < i)%nat → ub → wp ub (source_at i) Q X s.
Proof.
  intros Hi Hub. apply wp_intro_undefined; [|done]. unfold source_at.
  destruct (Nat.ltb_spec i (size s)); [lia|]. destruct (Nat.eqb_spec i (size s)); [lia|done].
Qed.

Lemma wp_current_char Q X s :
  (position s ≤ size s)%nat → Q (char_at s (position s)) s → wp ub current_char Q X s.
Proof. intros. unfold current_char. wp_step. wp_step. by apply wp_source_at. Qed.

Lemma wp_increment_position (Q : unit → GraphQlScanner → Prop) X s :
  Q tt (advance s) → wp ub increment_position Q X s.
Proof. by apply wp_modified. Qed.

Lemma wp_source_substr i n (Q : ustring → GraphQlScanner → Prop) X s :
  (i ≤ size s)%nat → Q (substr i n (source s)) s → wp ub (source_substr i n) Q X s.
Proof.
  intros Hi HQ. unfold source_substr. wp_step. wp_step.
  destruct (Nat.ltb_spec (size s) i); [lia|]. by wp_step.
Qed.

Lemma wp_get_value (Q : ustring → GraphQlScanner → Prop) X s :
  (start_position s ≤ size s)%nat →
  Q (substr (start_position s) (token_length s) (source s)) s → wp ub get_value Q X s.
Proof. intros. unfold get_value. wp_step. wp_step. by apply wp_source_substr. Qed.

(** Loops of the scanner: every further iteration moves the cursor. *)
Lemma wp_scan_loop {A B} (I : A → GraphQlScanner → Prop)
    (body : A → M GraphQlScanner (A + B)) Q X a s :
  I a s →
  (∀ a s, I a s →
    wp ub (body a) (λ r s',
      match r with
      | inl a' => I a' s' ∧ size s' = size s ∧ (position s < position s' ≤ S (size s))%nat
      | inr b => Q b s'
      end) X s) →
  wp ub (scan_loop body a) Q X s.
Proof.
  intros HI Hbody. unfold scan_loop. wp_step. wp_step.
  apply (wp_loop _ I (λ _ s, S (size s) - position s)%nat); [done|unfold scan_fuel; lia|].
  intros a' s' HI'. eapply wp_mono; [by apply Hbody| |done].
  intros [a''|b] s''; [|done]. intros (? & ? & ?). split; [done|lia].
Qed.
End basic_rules.

(** ** Inside a token *)

(** An operation inside a token that ends with a cursor in the source. *)
Definition within {A} (s : GraphQlScanner) (_ : A) (s' : GraphQlScanner) : Prop :=
  scans s s' ∧ (position s' ≤ size s)%nat.

Ltac scan_arith :=
  repeat match goal with
  | H : scans _ _ |- _ => destruct H
  | H : (_ && _) = true |- _ => apply andb_prop in H as [??]
  end;
  simpl in *; lia.

(** Predicates on characters that NUL does not satisfy. *)
Lemma is_digit_inside s i : is_digit (char_at s i) = true → (i < size s)%nat.
Proof. intros H. apply char_at_inside. intros E. by rewrite E in H. Qed.

Lemma char_eqb_inside s i c : (char_at s i =? c)%Z = true → c ≠ 0%Z → (i < size s)%nat.
Proof. intros H%Z.eqb_eq Hc. apply char_at_inside. congruence. Qed.

Lemma is_hexadecimal_inside s i : is_hexadecimal (char_at s i) = true → (i < size s)%nat.
Proof. intros H. apply char_at_inside. intros E. by rewrite E in H. Qed.

(** An operation that may leave the cursor one past the terminator. *)
Definition upto {A} (s : GraphQlScanner) (_ : A) (s' : GraphQlScanner) : Prop :=
  scans s s' ∧ (position s' ≤ S (size s))%nat.

Lemma within_upto {A} s (a : A) s' : within s a s' → upto s a s'.
Proof. intros [??]. split; [done|lia]. Qed.

(** Derive that a character which is not NUL is inside the source. *)
Ltac inside :=
  repeat match goal with
  | H : is_digit (char_at ?s ?i) = true |- _ =>
      lazymatch goal with
      | _ : (i < size s)%nat |- _ => fail
      | _ => pose proof (is_digit_inside s i H)
      end
  | H : is_hexadecimal (char_at ?s ?i) = true |- _ =>
      lazymatch goal with
      | _ : (i < size s)%nat |- _ => fail
      | _ => pose proof (is_hexadecimal_inside s i H)
      end
  | H : (char_at ?s ?i =? ?c)%Z = true |- _ =>
      lazymatch goal with
      | _ : (i < size s)%nat |- _ => fail
      | _ => pose proof (char_eqb_inside s i c H ltac:(done))
      end
  | H : (_ || _) = true |- _ => apply orb_prop in H as [H|H]
  | H : (_ && _) = true |- _ => apply andb_prop in H as [??]
  | H : (_ && _) = false |- _ => apply andb_false_iff in H as [H|H]
  | H : negb _ = true |- _ => apply negb_true_iff in H
  | H : negb _ = false |- _ => apply negb_false_iff in H
  | H : _ ∧ _ |- _ => destruct H
  | H : within _ _ _ |- _ => destruct H
  | H : upto _ _ _ |- _ => destruct H
  | H : (_ <? _)%nat = true |- _ => apply Nat.ltb_lt in H
  | H : (_ <? _)%nat = false |- _ => apply Nat.ltb_ge in H
  | H : (_ <=? _)%nat = true |- _ => apply Nat.leb_le in H
  | H : (_ <=? _)%nat = false |- _ => apply Nat.leb_gt in H
  end.

(** The end of a branch: the frame by transitivity, the bounds by arithmetic. *)
Ltac scan_done :=
  inside;
  repeat match goal with
  | |- _ ∧ _ => split
  | |- within _ _ _ => split
  | |- scans ?s ?s => reflexivity
  | H : scans ?t ?s' |- scans _ ?s' => transitivity t; [|exact H]; clear H
  | |- scans _ (advance _) => etransitivity; [|apply scans_advance]
  | |- scans _ (set_errors _ ?s) => transitivity s; [|by split]
  | |- scans _ (set_string_literal _ ?s) => transitivity s; [|by split]
  | |- scans _ (set_name _ ?s) => transitivity s; [|by split]
  | |- upto _ _ _ => split
  end; try scan_arith; eauto.

(** One step of the proof about a scanner operation; a side condition on the
    cursor is left to arithmetic. *)
Ltac scan_step :=
  lazymatch goal with
  | |- wp _ current_char _ _ _ => apply wp_current_char; [inside; scan_arith|]
  | |- wp _ increment_position _ _ _ => apply wp_increment_position
  | |- wp _ (source_at _) _ _ _ => apply wp_source_at; [inside; scan_arith|]
  | _ => wp_step
  end.

Section within_specs.
Context (ub : Prop) (X : exn → GraphQlScanner → Prop).

Lemma scan_digit_list_spec s :
  (position s ≤ size s)%nat → wp ub scan_digit_list (within s) X s.
Proof.
  intros Hs. unfold scan_digit_list.
  apply (wp_scan_loop _ (λ _, within s tt)); [by split|].
  intros _ s' [Hsc Hle]. repeat scan_step; scan_done.
Qed.

Lemma scan_integer_part_spec s :
  (position s ≤ size s)%nat → wp ub scan_integer_part (within s) X s.
Proof.
  intros Hs. unfold scan_integer_part. repeat scan_step; try solve [scan_done].
  all: eapply wp_mono; [apply scan_digit_list_spec; scan_arith| |done].
  all: intros; repeat scan_step; scan_done.
Qed.

Lemma scan_exponent_spec s :
  (position s < size s)%nat → wp ub scan_exponent (within s) X s.
Proof.
  intros Hs. unfold scan_exponent. repeat scan_step; try solve [scan_done].
  all: eapply wp_mono; [apply scan_digit_list_spec; inside; scan_arith| |done].
  all: intros; repeat scan_step; scan_done.
Qed.

(** Use the specification of a sub-operation. *)
Ltac scan_call lem :=
  wp_call lem; [inside; scan_arith| |done]; intros.

Lemma scan_number_spec s :
  (position s ≤ size s)%nat → wp ub scan_number (within s) X s.
Proof.
  intros Hs. unfold scan_number. scan_call scan_integer_part_spec.
  repeat scan_step; try solve [scan_done].
  - scan_call scan_digit_list_spec. repeat scan_step; try solve [scan_done].
    scan_call scan_exponent_spec. scan_done.
  - scan_call scan_exponent_spec. scan_done.
Qed.

Lemma scan_rest_of_line_spec s :
  (position s ≤ size s)%nat → wp ub scan_rest_of_line (within s) X s.
Proof.
  intros Hs. unfold scan_rest_of_line, while_in_source.
  apply (wp_scan_loop _ (λ _, within s tt)); [by split|].
  intros _ s' [Hsc Hle]. repeat scan_step; scan_done.
Qed.

(** The number of characters of a name is the distance the cursor moves. *)
Lemma scan_name_part_spec s :
  (position s ≤ size s)%nat →
  wp ub scan_name_part (λ n s', within s tt s' ∧ (n + position s = S (position s'))%nat) X s.
Proof.
  intros Hs. unfold scan_name_part.
  apply (wp_scan_loop _
    (λ n s', within s tt s' ∧ (n + position s = S (position s'))%nat)); [by repeat split|].
  intros n s' [[Hsc Hle] Hn]. repeat scan_step; scan_done.
Qed.
End within_specs.

Section string_specs.
Context (ub : Prop).

(** The only exception: an invalid escape sequence. *)
Definition invalid_string (s : GraphQlScanner) (e : exn) (s' : GraphQlScanner) : Prop :=
  e = InvalidStringException ∧ upto s tt s'.

Lemma scan_hexadecimal_escape_spec a b c s :
  (position s ≤ size s)%nat →
  wp ub (scan_hexadecimal_escape a b c) (within s) (invalid_string s) s.
Proof.
  intros Hs. unfold scan_hexadecimal_escape. wp_step.
  apply (wp_scan_loop _ (λ _, within s tt)); [by split|].
  intros n s' [Hsc Hle]. unfold push_error. repeat scan_step; try solve [scan_done].
  split; [done|scan_done].
Qed.

Lemma scan_escape_sequence_spec s :
  (position s < size s)%nat →
  wp ub scan_escape_sequence (λ a s', within s a s' ∧ (position s < position s')%nat)
    (invalid_string s) s.
Proof.
  intros Hs. unfold scan_escape_sequence. repeat scan_step.
  - assert (Hin : (position (advance s) < size (advance s))%nat).
    { apply char_at_inside. intros E. unfold is_simple_escape in H. by rewrite E in H. }
    scan_done.
  - eapply wp_mono; [apply scan_hexadecimal_escape_spec; inside; scan_arith| |].
    + intros; scan_done.
    + intros e s' [He [Hsc Hle]]. split; [done|]. scan_done.
  - scan_done.
Qed.

Lemma scan_string_literal_spec X s :
  (position s ≤ size s)%nat → wp ub scan_string_literal (upto s) X s.
Proof.
  intros Hs. unfold scan_string_literal, push_error. repeat scan_step.
  apply (wp_scan_loop _ (λ _ s', upto (set_string_literal [] s) tt s')).
  { split; [reflexivity|simpl; lia]. }
  intros b s' [Hsc Hle]. unfold scan_string_literal_body, append_string_literal.
  repeat scan_step; try solve [scan_done].
  - apply wp_try_catch. wp_call scan_escape_sequence_spec; [inside; scan_arith| |].
    + intros _ s'' [[Hsc' Hle'] Hlt]. wp_step. scan_done.
    + intros e s'' [-> [Hsc' Hle']]. wp_step. wp_step. scan_done.
  - apply wp_source_substr; [scan_arith|]. repeat scan_step; scan_done.
Qed.

Lemma scan_string_block_spec X s :
  (position s ≤ size s)%nat →
  wp ub scan_string_block_after_double_quotes (upto s) X s.
Proof.
  intros Hs. unfold scan_string_block_after_double_quotes. repeat scan_step.
  apply (wp_scan_loop _ (λ _ s', upto (set_string_literal [] s) tt s')).
  { split; [reflexivity|simpl; lia]. }
  intros [] s' [Hsc Hle]. unfold scan_string_block_body, append_string_literal. cbv zeta.
  repeat scan_step; scan_done.
Qed.

Lemma scan_string_value_spec X s :
  (position s ≤ size s)%nat → wp ub scan_string_value (upto s) X s.
Proof.
  intros Hs. unfold scan_string_value.
  repeat scan_step; try (by apply scan_string_literal_spec).
  eapply wp_mono; [apply scan_string_block_spec; inside; scan_arith| |done].
  intros; scan_done.
Qed.

Lemma scan_ellipses_spec X s :
  (position s ≤ size s)%nat → wp ub scan_ellipses_after_first_dot (within s) X s.
Proof.
  intros Hs. unfold scan_ellipses_after_first_dot. repeat scan_step; scan_done.
Qed.

Lemma take_name_spec X b ch s :
  (position s ≤ size s)%nat → (start_position s ≤ position s)%nat →
  wp ub (take_name b ch) (within s) X s.
Proof.
  intros Hs Hst. unfold take_name. wp_step; [|wp_step; scan_done].
  wp_call scan_name_part_spec; [done| |done]. intros n s' [[Hsc Hle] Hn].
  wp_step; [wp_step; scan_done|]. wp_step.
  apply wp_get_value; [scan_arith|]. unfold get_token_from_value.
  destruct (keyword_switch _ _); repeat scan_step; scan_done.
Qed.
End string_specs.

(** ** Taking tokens *)

(** [l] are the entries a cursor moving from [lo] to [hi] appends to the line
    table while the line number goes from [n] to [m]. *)
Fixpoint lines_from (lo n : nat) (l : list PositionToLine) (hi m : nat) : Prop :=
  match l with
  | [] => (lo ≤ hi)%nat ∧ m = n
  | e :: l' =>
      (lo < ptl_position e)%nat ∧ ptl_line e = S n ∧ lines_from (ptl_position e) (S n) l' hi m
  end.

Lemma lines_from_app lo n l p m l' hi k :
  lines_from lo n l p m → lines_from p m l' hi k → lines_from lo n (l ++ l') hi k.
Proof.
  revert lo n. induction l as [|e l IH]; intros lo n; simpl.
  - intros [Hle ->] Hl'. destruct l' as [|e' l']; simpl in *; [lia|]. destruct Hl' as (? & ? & ?).
    repeat split; [lia|done|done].
  - intros (? & ? & ?) ?. repeat split; eauto.
Qed.

Lemma lines_from_extend lo n l p m p' :
  lines_from lo n l p m → (p ≤ p')%nat → lines_from lo n l p' m.
Proof.
  intros Hl Hp. rewrite <- (app_nil_r l). eapply lines_from_app; [done|]. done.
Qed.

Lemma lines_from_snoc lo n l p m p' :
  lines_from lo n l p m → (p < p')%nat →
  lines_from lo n (l ++ [mkPositionToLine p' (S m)]) p' (S m).
Proof. intros Hl Hp. eapply lines_from_app; [done|]. simpl. repeat split; lia. Qed.

Record takes (s s' : GraphQlScanner) : Prop := {
  takes_source : source s' = source s;
  takes_size : size s' = size s;
  takes_saved : saved_text_cursors s' = saved_text_cursors s;
  takes_le : (position s ≤ position s')%nat;
  takes_bound : (position s' ≤ S (size s))%nat;
  takes_start : (start_position s' ≤ position s')%nat;
  takes_lines : ∃ l, position_to_line_list s' = position_to_line_list s ++ l
    ∧ lines_from (position s) (line s) l (position s') (line s')
}.

Lemma takes_refl s : scanner_ok s → takes s s.
Proof.
  intros []. split; try done. exists []. rewrite app_nil_r. by repeat split.
Qed.

#[export] Instance takes_transitive : Transitive takes.
Proof.
  intros s1 s2 s3 [? Hsz ? ? ? ? (l1 & Hl1 & Hf1)] [? Hsz' ? ? ? ? (l2 & Hl2 & Hf2)].
  split; try congruence; try lia.
  exists (l1 ++ l2). rewrite Hl2, Hl1, app_assoc. split; [done|]. by eapply lines_from_app.
Qed.

Lemma takes_ok s s' : scanner_ok s → takes s s' → scanner_ok s'.
Proof. intros [] []. split; try congruence; lia. Qed.

Lemma takes_char_at s s' i : takes s s' → char_at s' i = char_at s i.
Proof. intros [Hs Hn]. unfold char_at. by rewrite Hs, Hn. Qed.

Lemma takes_scans s t t' :
  takes s t → scans t t' → (position t' ≤ S (size t))%nat → takes s t'.
Proof.
  intros [? Hsz ? ? ? ? (l & Hl & Hf)] [] Hb. split; try congruence; try lia.
  exists l. split; [congruence|]. rewrite scans_line0. by eapply lines_from_extend.
Qed.

(** The state after [add_line]. *)
Definition new_line (s : GraphQlScanner) : GraphQlScanner :=
  set_position_to_line_list
    (position_to_line_list s ++ [mkPositionToLine (position s) (S (line s))])
    (set_line (S (line s)) s).

Lemma takes_new_line s t t' :
  takes s t → scans t t' → (position t < position t' ≤ S (size t))%nat → takes s (new_line t').
Proof.
  intros [? Hsz ? ? ? ? (l & Hl & Hf)] [] Hb. split; simpl; try congruence; try lia.
  exists (l ++ [mkPositionToLine (position t') (S (line t'))]).
  split; [by rewrite app_assoc; congruence|]. rewrite scans_line0.
  eapply lines_from_snoc; [done|lia].
Qed.

(** Changing the start of the token or the columns. *)
Lemma takes_change s t t' :
  takes s t →
  source t' = source t → size t' = size t → saved_text_cursors t' = saved_text_cursors t →
  position t' = position t → line t' = line t →
  position_to_line_list t' = position_to_line_list t → (start_position t' ≤ position t')%nat →
  takes s t'.
Proof.
  intros [? Hsz ? ? ? ? (l & Hl & Hf)] ???????. split; try congruence; try lia.
  exists l. split; congruence.
Qed.

Section take_specs.
Context (X : exn → GraphQlScanner → Prop).

Lemma skip_comment_spec ub s :
  scanner_ok s → (start_position s < position s)%nat → (position s ≤ size s)%nat →
  wp ub skip_comment (λ _ s', takes s s' ∧ (position s' ≤ size s)%nat) X s.
Proof.
  intros Hok Hst Hs. unfold skip_comment, start_position_incr, start_column_incr, while_in_source.
  repeat scan_step.
  apply (wp_scan_loop _ (λ _ s', takes s s' ∧ (position s' ≤ size s)%nat)).
  { split; [|done]. by eapply takes_change; [by apply takes_refl|..]. }
  intros _ s' [Ht Hle]. pose proof (takes_size _ _ Ht). pose proof (takes_start _ _ Ht).
  repeat scan_step; inside.
  - split; [|simpl in *; lia]. split; [|simpl in *; lia].
    eapply (takes_change s (advance s')); try done; [|simpl in *; lia].
    eapply takes_scans; [done|apply scans_advance|simpl in *; lia].
  - done.
  - done.
Qed.

Lemma add_line_spec ub (Q : unit → GraphQlScanner → Prop) s :
  Q tt (new_line s) → wp ub add_line Q X s.
Proof. by apply wp_modified. Qed.

(** A line end is recorded, and skipped. *)
Lemma skip_line_end_spec ub s t t' :
  takes s t → scans t t' → (position t < position t' ≤ S (size t))%nat →
  wp ub skip_line_end (λ _ s', takes s s' ∧ position s' = position t') X (new_line t').
Proof.
  intros Ht Hsc Hp. unfold skip_line_end, start_line_incr, start_position_incr. repeat wp_step.
  split; [|done]. pose proof (takes_start _ _ Ht). pose proof (scans_start _ _ Hsc).
  eapply takes_change; [by eapply takes_new_line|..]; try done. simpl in *. lia.
Qed.

Lemma carriage_return_spec s0 s :
  takes s0 s → char_at s (position s) = Character.CarriageReturn →
  wp (ends_with_cr s0) carriage_return_look_ahead
    (λ _ s', scans s s' ∧ (position s < position s' ≤ size s)%nat) X (advance s).
Proof.
  intros Ht Hch. pose proof (takes_size _ _ Ht) as Hsz.
  assert (Hin : (position s < size s)%nat) by (apply char_at_inside; by rewrite Hch).
  unfold carriage_return_look_ahead. wp_step. wp_step. wp_step.
  destruct (decide (position s + 2 ≤ size s)%nat).
  - apply wp_source_at; [simpl in *; lia|]. repeat scan_step; scan_done.
  - apply wp_source_at_ub; [simpl; lia|]. split; [lia|].
    rewrite <- (takes_char_at s0 s) by done. replace (size s0 - 1)%nat with (position s) by lia.
    done.
Qed.

(** After a line end: [continue], or a white space token. *)
Lemma line_end_spec {B} ub (w : bool) (token : B) s t t' :
  takes s t → scans t t' → (position t < position t' ≤ S (size t))%nat →
  wp ub (if w then skip_line_end;; mret (inl tt) else mret (inr token))
    (λ (_ : unit + B) s', takes s s' ∧ (position t < position s')%nat) X (new_line t').
Proof.
  intros Ht Hsc Hp. wp_step.
  - wp_call skip_line_end_spec; [done..| |done].
    intros _ s' [? Hp']. wp_step. split; [done|lia].
  - wp_step. split; [by eapply takes_new_line|]. simpl; lia.
Qed.

(** The result of an iteration of the loops below: a token was taken, or
    ignorable text was skipped. *)
Definition progress {B} (at_end : B) (s0 s : GraphQlScanner) (r : unit + B)
    (s' : GraphQlScanner) : Prop :=
  takes s0 s' ∧
  ((position s < position s')%nat ∨ r = inr at_end ∧ (size s0 ≤ position s')%nat).

Lemma progress_upto {A B} (at_end : B) s0 s r (a : A) s' :
  takes s0 s → upto (advance s) a s' → progress at_end s0 s r s'.
Proof.
  intros Ht [Hsc Hle]. destruct Hsc as [? ? ? ? ? ? Hlt]. split; [|left; simpl in *; lia].
  eapply takes_scans; [done| |simpl in *; lia]. by split; simpl in *; try lia.
Qed.

Lemma progress_skip {B} (at_end : B) s0 s r :
  takes s0 s → (position s < size s)%nat → progress at_end s0 s r (advance s).
Proof. intros. eapply (progress_upto _ _ _ _ tt); [done|]. split; [reflexivity|simpl; lia]. Qed.

Lemma skip_blank_spec {B} (at_end : B) ub s0 s :
  takes s0 s → (position s < size s)%nat →
  wp ub (start_position_incr;; start_column_incr;; mret (inl tt))
    (progress at_end s0 s) X (advance s).
Proof.
  intros Ht Hin. unfold start_position_incr, start_column_incr. repeat wp_step.
  pose proof (takes_start _ _ Ht). split; [|simpl; lia].
  eapply takes_change; [eapply takes_scans; [done|apply scans_advance|]|..]; simpl in *; try done; lia.
Qed.

(** The specification of a token scanned after its first character. *)
Lemma finish_spec {B} (at_end : B) ub (m : M GraphQlScanner B) s0 s :
  takes s0 s → (position s < size s)%nat →
  wp ub m (upto (advance s)) X (advance s) →
  wp ub (finish m) (progress at_end s0 s) X (advance s).
Proof.
  intros Ht Hin Hm. unfold finish. wp_step. eapply wp_mono; [exact Hm| |done].
  intros b s' Hup. wp_step. by eapply progress_upto.
Qed.

Lemma newline_spec {B} (at_end token : B) (w : bool) ub s0 s t' :
  takes s0 s → scans s t' → (position s < position t' ≤ S (size s))%nat →
  wp ub (add_line;; if w then skip_line_end;; mret (inl tt) else mret (inr token))
    (progress at_end s0 s) X t'.
Proof.
  intros Ht Hsc Hp. wp_step. apply add_line_spec.
  eapply wp_mono; [by apply line_end_spec| |done].
  intros r s' [? ?]. split; [done|by left].
Qed.

Lemma take_next_token_body_spec k w s0 s :
  takes s0 s → scanner_ok s0 →
  wp (ends_with_cr s0) (take_next_token_body k w tt)
    (progress GraphQlToken.EndOfDocument s0 s) X s.
Proof.
  intros Ht Hok. pose proof (takes_size _ _ Ht) as Hsz. pose proof (takes_start _ _ Ht) as Hst.
  unfold take_next_token_body. repeat scan_step; inside.
  all: try by apply progress_skip.
  - split; [done|]. right. split; [done|lia].
  - apply wp_unbind. apply newline_spec; [done|apply scans_advance|simpl; lia].
  - wp_call carriage_return_spec; [done|by apply Z.eqb_eq| |done].
    intros _ s' [Hsc Hp]. apply newline_spec; [done..|lia].
  - apply wp_unbind. by apply skip_blank_spec.
  - wp_call skip_comment_spec; [|simpl; lia..| |done].
    { eapply takes_ok; [done|]. eapply takes_scans; [done|apply scans_advance|simpl; lia]. }
    intros _ s' [Ht' Hp]. wp_step. split; [|left; destruct Ht'; simpl in *; lia].
    eapply (transitivity (y := advance s)); [|done].
    eapply takes_scans; [done|apply scans_advance|simpl; lia].
  - destruct (punctuation _); [wp_step; by apply progress_skip|].
    repeat wp_step; apply finish_spec; try done.
    + apply scan_string_value_spec. simpl; lia.
    + eapply wp_mono; [apply scan_ellipses_spec; simpl; lia|apply within_upto|done].
    + eapply wp_mono; [apply scan_number_spec; simpl; lia|apply within_upto|done].
    + eapply wp_mono; [apply take_name_spec; simpl; lia|apply within_upto|done].
Qed.

(** Taking a token terminates, stays in the source and, unless the document
    has ended, moves the cursor. *)
Lemma take_next_token_spec k w s :
  scanner_ok s →
  wp (ends_with_cr s) (take_next_token k w)
    (λ token s', takes s s' ∧
      ((position s < position s')%nat
       ∨ token = GraphQlToken.EndOfDocument ∧ (size s ≤ position s')%nat)) X s.
Proof.
  intros Hok. unfold take_next_token, set_token_start_position. repeat wp_step.
  set (s1 := set_start_column _ _).
  assert (Ht1 : takes s s1) by (eapply takes_change; [by apply takes_refl|..]; done).
  apply (wp_scan_loop _ (λ _ t, takes s t)); [done|].
  intros [] t Ht. eapply wp_mono; [by apply take_next_token_body_spec| |done].
  intros r t' [Ht' Hp]. pose proof (takes_size _ _ Ht). pose proof (takes_size _ _ Ht').
  pose proof (takes_bound _ _ Ht'). pose proof (takes_le _ _ Ht).
  destruct r as [[]|token].
  - destruct Hp as [Hp|[Heq _]]; [|done]. split_and!; try done; try congruence; lia.
  - split; [done|]. destruct Hp as [Hp|[Heq Hp]]; [left; lia|right; split; [congruence|lia]].
Qed.
End take_specs.

(** ** Directive locations, look-ahead and recovery *)

(** Parsing a construct: the cursor moves forward, the stack of saved cursors
    may keep cursors that were not taken back, the line table grows. *)
Record advances (s s' : GraphQlScanner) : Prop := {
  adv_source : source s' = source s;
  adv_size : size s' = size s;
  adv_saved : saved_text_cursors s `suffix_of` saved_text_cursors s';
  adv_table : position_to_line_list s `prefix_of` position_to_line_list s';
  adv_le : (position s ≤ position s')%nat;
  adv_bound : (position s' ≤ S (size s))%nat;
  adv_start : (start_position s' ≤ position s')%nat
}.

Lemma advances_refl s : scanner_ok s → advances s s.
Proof. intros []. by split. Qed.

#[export] Instance advances_transitive : Transitive advances.
Proof.
  intros s1 s2 s3 [] []. split; try congruence; try lia; by etransitivity.
Qed.

Lemma advances_ok s s' : scanner_ok s → advances s s' → scanner_ok s'.
Proof. intros [] []. split; try congruence; lia. Qed.

Lemma advances_ends_with_cr s s' : advances s s' → ends_with_cr s' → ends_with_cr s.
Proof. intros [Hs Hn]. unfold ends_with_cr, char_at. by rewrite Hs, Hn. Qed.

Lemma takes_advances s s' : takes s s' → advances s s'.
Proof.
  intros [? ? Hsv ? ? ? (l & Hl & _)]. split; try done; [by rewrite Hsv|].
  rewrite Hl. by apply prefix_app_r.
Qed.

Definition cursor_of (s : GraphQlScanner) : SavedTextCursor :=
  mkSavedTextCursor (position s) (line s) (column s) (start_position s) (start_line s)
    (start_column s).

(** [s'] has the cursor of [s] and its saved cursors: all a look-ahead leaves
    behind are lines, errors and the text it scanned. *)
Record same_cursor (s s' : GraphQlScanner) : Prop := {
  same_source : source s' = source s;
  same_size : size s' = size s;
  same_cursor_of : cursor_of s' = cursor_of s;
  same_saved : saved_text_cursors s' = saved_text_cursors s;
  same_table : position_to_line_list s `prefix_of` position_to_line_list s'
}.

Lemma same_cursor_position s s' : same_cursor s s' → position s' = position s.
Proof. intros [? ? [=] ? ?]. done. Qed.

Lemma same_cursor_advances s s' : scanner_ok s → same_cursor s s' → advances s s'.
Proof.
  intros [] [? ? [=] Hsv ?]. split; try done; try congruence; try lia. by rewrite Hsv.
Qed.

(** The state after [save]. *)
Definition saved (s : GraphQlScanner) : GraphQlScanner :=
  set_saved_text_cursors (cursor_of s :: saved_text_cursors s) s.

Lemma saved_ok s : scanner_ok s → scanner_ok (saved s).
Proof. by intros []. Qed.

Lemma saved_advances s : scanner_ok s → advances s (saved s).
Proof. intros []. split; try done. by apply suffix_cons_r. Qed.

Lemma saved_ends_with_cr s : ends_with_cr (saved s) → ends_with_cr s.
Proof. done. Qed.

Section look_ahead.
Context (X : exn → GraphQlScanner → Prop).

Lemma save_spec ub (Q : unit → GraphQlScanner → Prop) s : Q tt (saved s) → wp ub save Q X s.
Proof. by apply wp_modified. Qed.

(** [revert] takes back what was scanned since the matching [save]. *)
Lemma revert_spec ub s s' :
  takes (saved s) s' → wp ub revert (λ _ t, same_cursor s t) X s'.
Proof.
  intros [Hsrc Hsz Hsv _ _ _ (l & Hl & _)]. unfold revert. wp_step. wp_step. rewrite Hsv. simpl.
  repeat wp_step. split; simpl; try done. simpl in Hl. rewrite Hl. by apply prefix_app_r.
Qed.

Lemma scan_directive_location_spec s :
  scanner_ok s →
  wp (ends_with_cr s) scan_directive_location (λ _ s', takes s s') X s.
Proof.
  intros Hok. unfold scan_directive_location, set_token_start_position. repeat wp_step.
  set (s1 := set_start_column _ _).
  assert (Ht1 : takes s s1) by (eapply takes_change; [by apply takes_refl|..]; done).
  apply (wp_scan_loop _ (λ _ t, takes s t)); [done|].
  intros [] t Ht.
  apply (wp_mono _ _ (progress DirectiveLocation.EndOfDocument s t) _ X).
  - pose proof (takes_size _ _ Ht). pose proof (takes_start _ _ Ht).
    unfold scan_directive_location_body. repeat scan_step; inside.
    + split; [done|]. right. split; [done|lia].
    + apply wp_unbind, (newline_spec X _ DirectiveLocation.Unknown true);
        [done|apply scans_advance|simpl; lia].
    + wp_call carriage_return_spec; [done|by apply Z.eqb_eq| |done].
      intros _ s' [Hsc Hp]. apply (newline_spec X _ DirectiveLocation.Unknown true); [done..|lia].
    + apply wp_unbind. by apply skip_blank_spec.
    + wp_call scan_name_part_spec; [simpl; lia| |done]. intros n s' [[Hsc Hle] Hn].
      wp_step. apply wp_get_value; [destruct Hsc; simpl in *; lia|]. wp_step.
      eapply (progress_upto _ _ _ _ tt); [done|]. split; [done|simpl in *; lia].
    + by apply progress_skip.
  - intros r t' [Ht' Hp]. pose proof (takes_size _ _ Ht). pose proof (takes_size _ _ Ht').
    pose proof (takes_bound _ _ Ht'). pose proof (takes_le _ _ Ht).
    destruct r as [[]|token]; [|done]. destruct Hp as [Hp|[Heq _]]; [|done].
    split_and!; try done; try congruence; lia.
  - done.
Qed.

Lemma peek_next_token_spec s :
  scanner_ok s →
  wp (ends_with_cr s) peek_next_token (λ _ s', same_cursor s s') X s.
Proof.
  intros Hok. unfold peek_next_token. wp_step. apply save_spec.
  wp_call (take_next_token_spec X false true (saved s)); [by apply saved_ok| |done].
  intros token s' [Ht _]. wp_call revert_spec; [done| |done].
  intros _ t Ht'. by wp_step.
Qed.

(** A failed [try_scan] leaves the cursor where it was. *)
Lemma try_scan_spec token k w s :
  scanner_ok s →
  wp (ends_with_cr s) (try_scan token k w)
    (λ result s',
      if decide (result = token) then
        takes (saved s) s' ∧
        ((position s < position s')%nat
         ∨ token = GraphQlToken.EndOfDocument ∧ (size s ≤ position s')%nat)
      else same_cursor s s') X s.
Proof.
  intros Hok. unfold try_scan. wp_step. apply save_spec.
  wp_call (take_next_token_spec X k w (saved s)); [by apply saved_ok| |done].
  intros result s' [Ht Hp]. destruct (decide (result = token)) as [->|Hne].
  - wp_step. rewrite decide_True by done. done.
  - wp_call revert_spec; [done| |done]. intros _ t Ht'. wp_step. by rewrite decide_False.
Qed.

Lemma scan_expected_spec token k w s :
  scanner_ok s →
  wp (ends_with_cr s) (scan_expected token k w)
    (λ result s', takes s s' ∧
      ((position s < position s')%nat
       ∨ result = GraphQlToken.EndOfDocument ∧ (size s ≤ position s')%nat)) X s.
Proof.
  intros Hok. unfold scan_expected. wp_call take_next_token_spec; [done| |done].
  intros result s' H. destruct (decide _); wp_step; [by subst|done].
Qed.
End look_ahead.

Section recovery.
Context (X : exn → GraphQlScanner → Prop).

(** [take_next_token_spec] for an operation that started earlier. *)
Lemma take_next_token_from k w s0 s :
  scanner_ok s0 → advances s0 s →
  wp (ends_with_cr s0) (take_next_token k w)
    (λ token s', advances s0 s' ∧ takes s s' ∧
      ((position s < position s')%nat
       ∨ token = GraphQlToken.EndOfDocument ∧ (size s0 ≤ position s')%nat)) X s.
Proof.
  intros Hok Ha. apply (wp_weaken_ub _ (ends_with_cr s)).
  - by apply advances_ends_with_cr.
  - eapply wp_mono; [apply take_next_token_spec; by eapply advances_ok| |done].
    intros token s' [Ht Hp]. pose proof (adv_size _ _ Ha) as Hsz. rewrite Hsz in Hp.
    split; [|done]. etransitivity; [done|]. by apply takes_advances.
Qed.

Lemma skip_block_spec s :
  scanner_ok s → wp (ends_with_cr s) skip_block (λ _ s', advances s s') X s.
Proof.
  intros Hok. unfold skip_block.
  apply (wp_scan_loop _ (λ _ t, advances s t)); [by apply advances_refl|].
  intros [m e] t Ha. unfold skip_block_body.
  wp_call take_next_token_from; [done..| |done]. intros token t' (Ha' & Ht & Hp).
  pose proof (takes_size _ _ Ht). pose proof (takes_bound _ _ Ht).
  assert (Hcont : ∀ m' e', (position t < position t')%nat →
    wp (ends_with_cr s)
      (if e' && (m' <=? 0)%Z then mret (inr tt) else mret (inl (m', e')))
      (λ r t', match r with
        | inl _ => advances s t' ∧ size t' = size t ∧ (position t < position t' ≤ S (size t'))%nat
        | inr _ => advances s t'
        end) X t').
  { intros m' e' Hlt. wp_step; wp_step; [done|]. split_and!; try done; lia. }
  destruct Hp as [Hp|[-> _]]; [|by wp_step].
  destruct token; first [by apply Hcont|by wp_step].
Qed.

Lemma skip_to_spec tokens s :
  scanner_ok s → wp (ends_with_cr s) (skip_to tokens) (λ token s', advances s s' ∧
    (token = GraphQlToken.EndOfDocument ∨ token ∈ tokens)) X s.
Proof.
  intros Hok. unfold skip_to.
  apply (wp_scan_loop _ (λ _ t, advances s t)); [by apply advances_refl|].
  intros [] t Ha. wp_step. apply save_spec.
  assert (Hokt : scanner_ok t) by by eapply advances_ok.
  wp_call (take_next_token_from false true s (saved t)); [done| | |done].
  { etransitivity; [done|]. by apply saved_advances. }
  intros token t' (Ha' & Ht & Hp).
  destruct (decide (token = GraphQlToken.EndOfDocument)) as [->|Hne]; [wp_step; by split; [|left]|].
  destruct (decide (token ∈ tokens)).
  - wp_call revert_spec; [done| |done]. intros _ t'' Hs. wp_step. split; [|by right].
    transitivity t; [done|]. by apply same_cursor_advances.
  - wp_step. destruct Hp as [Hp|[? _]]; [|done].
    pose proof (takes_size _ _ Ht) as Hsz. pose proof (takes_bound _ _ Ht). simpl in *.
    split_and!; try done; lia.
Qed.
End recovery.

(** ** The line table *)

(** The table of a scanner that never reverted: line one at position zero, and
    the lines after it in order. *)
Definition sorted_table (table : list PositionToLine) : Prop :=
  ∃ l hi m, table = mkPositionToLine 0 1 :: l ∧ lines_from 0 1 l hi m.

(** The entry of the line that contains [position_]. *)
Definition line_of (table : list PositionToLine) (position_ : nat) (e : PositionToLine) : Prop :=
  e ∈ table ∧ (ptl_position e ≤ position_)%nat ∧
  ∀ e', e' ∈ table → (ptl_position e' ≤ position_)%nat → (ptl_position e' ≤ ptl_position e)%nat.

Lemma lines_from_lookup lo n l hi m i e :
  lines_from lo n l hi m → l !! i = Some e →
  (lo < ptl_position e ≤ hi)%nat ∧ ptl_line e = (n + S i)%nat.
Proof.
  revert lo n i. induction l as [|e' l IH]; intros lo n i; [done|]. simpl.
  intros (Hlt & Hn & Hl). destruct i as [|i]; simpl.
  - intros [= <-]. assert (Hle : (ptl_position e' ≤ hi)%nat).
    { clear -Hl. revert Hl. generalize (ptl_position e') (S n). induction l as [|e l IH]; simpl.
      - intros ? ? [??]; lia.
      - intros p k (? & ? & Hl). apply IH in Hl. lia. }
    lia.
  - intros Hi. eapply IH in Hl as [? ?]; [|done]. lia.
Qed.

(** Later entries are at later positions. *)
Lemma lines_from_ordered lo n l hi m i j e e' :
  lines_from lo n l hi m → (i < j)%nat → l !! i = Some e → l !! j = Some e' →
  (ptl_position e < ptl_position e')%nat.
Proof.
  revert lo n i j. induction l as [|a l IH]; intros lo n i j; [done|]. simpl.
  intros (? & ? & Hl) Hij. destruct j as [|j]; [lia|]. destruct i as [|i]; simpl.
  - intros [= <-] Hj. eapply lines_from_lookup in Hl as [? ?]; [|done]. lia.
  - intros Hi Hj. eapply (IH _ _ i j); [done|lia|done..].
Qed.

Lemma sorted_table_ordered table i j e e' :
  sorted_table table → (i < j)%nat → table !! i = Some e → table !! j = Some e' →
  (ptl_position e < ptl_position e')%nat.
Proof.
  intros (l & hi & m & -> & Hl) Hij. destruct j as [|j]; [lia|]. destruct i as [|i]; simpl.
  - intros [= <-] Hj. eapply lines_from_lookup in Hl as [? ?]; [|done]. simpl; lia.
  - intros Hi Hj. by apply (lines_from_ordered _ _ _ _ _ i j _ _ Hl); [lia|..].
Qed.

Lemma sorted_table_line table i e :
  sorted_table table → table !! i = Some e → ptl_line e = S i.
Proof.
  intros (l & hi & m & -> & Hl). destruct i as [|i]; simpl; [by intros [= <-]|].
  intros Hi. eapply lines_from_lookup in Hl as [_ ->]; [|done]. lia.
Qed.

Lemma line_of_index table p e :
  sorted_table table → line_of table p e →
  ∃ k, table !! k = Some e ∧
    ∀ i e', table !! i = Some e' → (ptl_position e' ≤ p)%nat ↔ (i ≤ k)%nat.
Proof.
  intros Hs (Hin & Hle & Hmax). apply list_elem_of_lookup in Hin as [k Hk]. exists k.
  split; [done|]. intros i e' Hi. split.
  - intros Hp. destruct (decide (i ≤ k)%nat); [done|].
    pose proof (sorted_table_ordered _ k i _ _ Hs ltac:(lia) Hk Hi).
    pose proof (Hmax e' ltac:(by eapply list_elem_of_lookup_2) Hp). lia.
  - intros Hik. destruct (decide (i = k)) as [->|]; [congruence|].
    pose proof (sorted_table_ordered _ i k _ _ Hs ltac:(lia) Hi Hk). lia.
Qed.

Lemma line_of_exists table p : sorted_table table → ∃ e, line_of table p e.
Proof.
  intros Hs.
  assert (Hind : ∀ n, ∃ e, e ∈ table ∧ (ptl_position e ≤ p)%nat ∧
    ∀ i e', (i < n)%nat → table !! i = Some e' → (ptl_position e' ≤ p)%nat →
      (ptl_position e' ≤ ptl_position e)%nat).
  { induction n as [|n (e & Hin & Hle & Hmax)].
    - destruct Hs as (l & hi & m & -> & _). exists (mkPositionToLine 0 1).
      split; [left|]. split; [simpl; lia|]. lia.
    - destruct (table !! n) as [e'|] eqn:Hn.
      2:{ exists e. split_and!; [done..|]. intros i e' Hi Hi'.
          destruct (decide (i = n)) as [->|]; [congruence|]. apply (Hmax i); [lia|done]. }
      destruct (decide (ptl_position e' ≤ p ∧ ptl_position e < ptl_position e')%nat) as [[]|Hno].
      + exists e'. split; [by eapply list_elem_of_lookup_2|]. split; [done|].
        intros i e'' Hi Hi' Hp. destruct (decide (i = n)) as [->|]; [by simplify_eq|].
        pose proof (Hmax i e'' ltac:(lia) Hi' Hp). lia.
      + exists e. split_and!; [done..|]. intros i e'' Hi Hi' Hp.
        destruct (decide (i = n)) as [->|]; [simplify_eq; lia|]. apply (Hmax i); [lia|done..]. }
  destruct (Hind (length table)) as (e & Hin & Hle & Hmax). exists e. split_and!; [done..|].
  intros e' Hin'. apply list_elem_of_lookup in Hin' as [i Hi].
  apply (Hmax i); [|done]. by eapply lookup_lt_Some.
Qed.

Section search.
Context (s : GraphQlScanner).
Local Abbreviation table := (position_to_line_list s).

Lemma wp_line_entry ub i (Q : PositionToLine → GraphQlScanner → Prop) X :
  (0 ≤ i < Z.of_nat (length table))%Z →
  (∀ e, table !! Z.to_nat i = Some e → Q e s) → wp ub (line_entry i) Q X s.
Proof.
  intros Hi HQ. unfold line_entry. wp_step. wp_step.
  destruct (Z.ltb_spec i 0); [lia|].
  destruct (lookup_lt_is_Some_2 table (Z.to_nat i)) as [e He]; [lia|].
  apply wp_deref; [|congruence]. intros e' He'. by apply HQ.
Qed.

Lemma size_t_pred_bounds i : (1 ≤ i)%Z → (0 ≤ size_t_pred i ≤ i - 1)%Z.
Proof.
  intros Hi. unfold size_t_pred. pose proof (Z.mod_pos_bound (i - 1) (2 ^ 64)).
  pose proof (Z.mod_le (i - 1) (2 ^ 64)). lia.
Qed.

Lemma midpoint a b : (0 ≤ a < b)%Z → (a ≤ a + (b - a) / 2 < b)%Z.
Proof. intros. split; [|assert ((b - a) / 2 < b - a)%Z by (apply Z.div_lt; lia); lia].
  assert (0 ≤ (b - a) / 2)%Z by (apply Z.div_pos; lia). lia. Qed.

(** The search reads only entries of the table, whatever their order, as long
    as the first one is at position zero. *)
Lemma search_for_line_safe ub fuel a b p :
  table !! 0%nat = Some (mkPositionToLine 0 1) →
  (0 ≤ a)%Z → (b < Z.of_nat (length table))%Z → (Z.to_nat (b - a + 1) < fuel)%nat →
  wp ub (search_for_line fuel a b p) (λ _ s', s' = s) (λ e s', e = could_not_find p ∧ s' = s) s.
Proof.
  intros H0. revert a b. induction fuel as [|fuel IH]; intros a b Ha Hb Hf; [lia|]. simpl.
  destruct (Z.ltb_spec a b).
  - pose proof (midpoint a b ltac:(lia)). wp_step. apply wp_line_entry; [lia|]. intros e He.
    wp_step.
    assert (Hrec : ∀ here : bool, wp ub
      (if here
       then mret (mkLocation (ptl_line e) (p - ptl_position e + 1) 0 false)
       else if (p <? ptl_position e)%nat
            then search_for_line fuel a (size_t_pred (a + (b - a) / 2)) p
            else search_for_line fuel (a + (b - a) / 2 + 1) b p)
      (λ _ s', s' = s) (λ e s', e = could_not_find p ∧ s' = s) s).
    { intros here. wp_step; [by wp_step|]. wp_step; [|apply IH; lia].
      assert (a + (b - a) / 2 ≠ 0)%Z as Hmid.
      { intros Hz. rewrite Hz in He. change (Z.to_nat 0) with 0%nat in He. simplify_eq. }
      pose proof (size_t_pred_bounds (a + (b - a) / 2)). apply IH; lia. }
    wp_step; [|wp_step; apply (Hrec false)].
    wp_step. apply wp_line_entry; [lia|]. intros e' He'. wp_step. apply Hrec.
  - destruct (Z.eqb_spec b a); [|by wp_step].
    wp_step. apply wp_line_entry; [lia|]. intros e' He. do 2 wp_step. wp_step; by wp_step.
Qed.

(** On a sorted table the search finds the line that contains the position. *)
Lemma search_for_line_finds fuel a b p e k :
  sorted_table table → (Z.of_nat (length table) ≤ 2 ^ 64)%Z → (p < size s)%nat →
  table !! k = Some e →
  (∀ i e', table !! i = Some e' → (ptl_position e' ≤ p)%nat ↔ (i ≤ k)%nat) →
  (0 ≤ a ≤ Z.of_nat k)%Z → (Z.of_nat k ≤ b < Z.of_nat (length table))%Z →
  (Z.to_nat (b - a + 1) < fuel)%nat →
  wp False (search_for_line fuel a b p)
    (λ l s', s' = s ∧ l = mkLocation (ptl_line e) (p - ptl_position e + 1) 0 false)
    (λ _ _, False) s.
Proof.
  intros Hs Hlen Hp Hk Hspec. revert a b.
  induction fuel as [|fuel IH]; intros a b Ha Hb Hf; [lia|]. simpl.
  destruct (Z.ltb_spec a b).
  - pose proof (midpoint a b ltac:(lia)). set (mid := (a + (b - a) / 2)%Z) in *.
    wp_step. apply wp_line_entry; [lia|]. intros em Hem. pose proof (Hspec _ _ Hem).
    wp_step. destruct (Nat.leb_spec (ptl_position em) p).
    + wp_step. apply wp_line_entry; [lia|]. intros en Hen. pose proof (Hspec _ _ Hen).
      wp_step. destruct (Nat.ltb_spec p (ptl_position en)).
      * assert (Z.to_nat mid = k) as Hmk by lia. rewrite Hmk in Hem. simplify_eq.
        by wp_step.
      * destruct (Nat.ltb_spec p (ptl_position em)); [lia|]. apply IH; lia.
    + wp_step. destruct (Nat.ltb_spec p (ptl_position em)); [|lia].
      assert (size_t_pred mid = mid - 1)%Z as ->.
      { unfold size_t_pred. apply Z.mod_small. lia. }
      apply IH; lia.
  - destruct (Z.eqb_spec b a); [|lia]. wp_step. apply wp_line_entry; [lia|]. intros e' He'.
    assert (Z.to_nat b = k) as Hbk by lia. rewrite Hbk in He'. simplify_eq.
    pose proof (Hspec _ _ Hk). wp_step. wp_step.
    destruct (Nat.leb_spec (ptl_position e) p); [|lia].
    destruct (Nat.ltb_spec p (size s)); [|lia]. by wp_step.
Qed.
End search.

Lemma get_token_location_safe ub syntax s :
  position_to_line_list s !! 0%nat = Some (mkPositionToLine 0 1) →
  wp ub (get_token_location syntax) (λ _ s', s' = s)
    (λ e s', e = could_not_find (start syntax) ∧ s' = s) s.
Proof.
  intros H0. unfold get_token_location. do 2 wp_step.
  wp_call search_for_line_safe; [done|lia..| |done]. intros l s' ->. by wp_step.
Qed.
