(* ===== verification/ParserSpec.v ===== *)
(** * What the parser base class promises

    [parses p p'] is what every operation of the parser guarantees of the
    state it ends in: the scanner moved forward over the same source,
    diagnostics were only added, the directive definitions are unchanged and
    every directive recorded satisfies the client's predicate [good].  The
    only exceptions are those of [search_for_line] and [substr]. *)
From S2P Require Import Prelude Monad Character Cstring Diagnostic StdMap Syntaxes.
From S2P Require Import TextWriter Scanner ScannerSpec Parser.

Definition parse_exn (e : exn) : Prop := (∃ p, e = could_not_find p) ∨ e = std_out_of_range.

Lemma parse_exn_location p : parse_exn (could_not_find p).
Proof. left. by exists p. Qed.
Lemma parse_exn_range : parse_exn std_out_of_range.
Proof. by right. Qed.
#[export] Hint Resolve parse_exn_location parse_exn_range : flash.

(** The cursor of a parser, and the length of its source. *)
Abbreviation cursor p := (position (scanner p)).
Abbreviation extent p := (size (scanner p)).
(** The number of diagnostics. *)
Abbreviation reported p := (length (diagnostics p)).

Section parses.
Context (ub : Prop) (good : Directive → Prop).

(** [ub] is what undefined behaviour implies: that the source ends with a
    carriage return. *)
Record parser_ok (p : GraphQlParser) : Prop := {
  parser_ok_scanner : scanner_ok (scanner p);
  parser_ok_table : position_to_line_list (scanner p) !! 0%nat = Some (mkPositionToLine 0 1);
  parser_ok_ub : ends_with_cr (scanner p) → ub;
  parser_ok_directives : Forall good (directives p)
}.

Record parses (p p' : GraphQlParser) : Prop := {
  parses_ok : parser_ok p';
  parses_scanner : advances (scanner p) (scanner p');
  parses_diagnostics : diagnostics p `prefix_of` diagnostics p';
  parses_definitions : directive_definitions p' = directive_definitions p
}.

Lemma parses_refl p : parser_ok p → parses p p.
Proof. intros Hok. split; try done. apply advances_refl, Hok. Qed.

#[global] Instance parses_transitive : Transitive parses.
Proof. intros p1 p2 p3 [] []. split; try done; try congruence; by etransitivity. Qed.

Lemma parses_le p p' : parses p p' → (cursor p ≤ cursor p' ≤ S (extent p))%nat.
Proof. intros [_ [] _ _]. lia. Qed.

Lemma parses_extent p p' : parses p p' → extent p' = extent p.
Proof. intros [_ [] _ _]. done. Qed.

Lemma parses_reported p p' : parses p p' → (reported p ≤ reported p')%nat.
Proof. intros [_ _ Hd _]. by apply prefix_length. Qed.

(** A new state of the scanner that moved forward. *)
Lemma parses_advances p sc :
  parser_ok p → advances (scanner p) sc → parses p (set_scanner sc p).
Proof.
  intros [Hsc Ht Hub Hd] Ha. split; try done. split; simpl; try done.
  - by eapply advances_ok.
  - eapply prefix_lookup_Some; [done|]. apply Ha.
  - intros Hcr. apply Hub. by eapply advances_ends_with_cr.
Qed.

(** A member of the parser itself is assigned. *)
Lemma parses_member p p' :
  parser_ok p → scanner p' = scanner p → directives p' = directives p →
  diagnostics p `prefix_of` diagnostics p' →
  directive_definitions p' = directive_definitions p → parses p p'.
Proof.
  intros [Hsc Ht Hub Hd] Hs Hdir Hdiag Hdefs.
  split; [split; by rewrite ?Hs, ?Hdir| |done|done]. rewrite Hs. by apply advances_refl.
Qed.
End parses.

#[export] Hint Resolve parses_refl parses_ok : flash.

(** Chains of [parses], and the arithmetic of their cursors. *)
Ltac parses_chain :=
  repeat match goal with
  | H : parses _ _ ?p ?p' |- parses _ _ ?p ?p' => exact H
  | H : parses _ _ ?t ?p' |- parses _ _ _ ?p' => transitivity t; [|exact H]; clear H
  end.

Ltac parses_arith :=
  repeat match goal with
  | H : parses _ _ ?p ?p' |- _ =>
      pose proof (parses_le _ _ _ _ H); pose proof (parses_extent _ _ _ _ H); clear H
  end; simpl in *; lia.

Section parser_specs.
Context (ub : Prop) (good : Directive → Prop).
Local Abbreviation parses := (parses ub good).
Local Abbreviation parser_ok := (parser_ok ub good).
Local Abbreviation safe m Q p := (wp ub m Q (λ e _, parse_exn e) p).

Lemma take_next_token_parses k w p :
  parser_ok p →
  safe (take_next_token k w)
    (λ token p', parses p p' ∧
      ((cursor p < cursor p')%nat
       ∨ token = GraphQlToken.EndOfDocument ∧ (extent p ≤ cursor p')%nat)) p.
Proof.
  intros Hok. unfold take_next_token. wp_step.
  eapply wp_weaken_ub; [apply (parser_ok_ub _ _ _ Hok)|].
  eapply wp_mono; [apply (take_next_token_spec (λ _ _, False)), Hok| |by intros].
  intros token sc [Ht Hp]. split; [|done]. apply parses_advances; [done|].
  by apply takes_advances.
Qed.

Lemma get_token_value_parses p (Q : ustring → GraphQlParser → Prop) :
  (∀ v, Q v p) → safe get_token_value Q p.
Proof.
  intros HQ. unfold get_token_value, get_value, source_substr. repeat wp_step; [apply parse_exn_range|].
  by destruct p.
Qed.

Lemma add_diagnostic_at_reports location d args p :
  parser_ok p →
  safe (add_diagnostic_at location d args) (λ _ p', parses p p' ∧ reported p' = S (reported p)) p.
Proof.
  intros Hok. unfold add_diagnostic_at. wp_step. split.
  - apply parses_member; try done. simpl. by apply prefix_app_r.
  - simpl. rewrite length_app. simpl. lia.
Qed.

Lemma add_diagnostic_reports d args p :
  parser_ok p →
  safe (add_diagnostic d args) (λ _ p', parses p p' ∧ reported p' = S (reported p)) p.
Proof.
  intros Hok. unfold add_diagnostic, Parser.get_token_location. repeat wp_step.
  by apply add_diagnostic_at_reports.
Qed.

Lemma add_diagnostic_at_parses location d args p :
  parser_ok p → safe (add_diagnostic_at location d args) (λ _ p', parses p p') p.
Proof. intros Hok. wp_call add_diagnostic_at_reports; [done|by intros ?? []|done]. Qed.

Lemma add_diagnostic_parses d args p :
  parser_ok p → safe (add_diagnostic d args) (λ _ p', parses p p') p.
Proof. intros Hok. wp_call add_diagnostic_reports; [done|by intros ?? []|done]. Qed.

Lemma token_string_parses token p (Q : ustring → GraphQlParser → Prop) :
  (∀ v, Q v p) → safe (token_string token) Q p.
Proof.
  intros HQ. unfold token_string. destruct (graphQlTokenToString token); wp_step; [done|].
  apply parse_exn_range.
Qed.

Lemma CreateSyntax_parses k p (Q : Syntax → GraphQlParser → Prop) :
  (∀ x, Q x p) → safe (CreateSyntax k) Q p.
Proof. intros HQ. unfold CreateSyntax. by repeat wp_step. Qed.

Lemma create_name_parses v p (Q : Name → GraphQlParser → Prop) :
  (∀ x, identifier x = v → Q x p) → safe (create_name v) Q p.
Proof.
  intros HQ. unfold create_name. wp_step. apply CreateSyntax_parses. intros. wp_step. by apply HQ.
Qed.

Lemma FinishSyntax_parses x p (Q : Syntax → GraphQlParser → Prop) :
  (∀ x, Q x p) → safe (FinishSyntax x) Q p.
Proof. intros HQ. unfold FinishSyntax. by repeat wp_step. Qed.

Lemma get_location_parses x p (Q : Location → GraphQlParser → Prop) :
  parser_ok p → (∀ l, Q l p) → safe (get_location_from_syntax x) Q p.
Proof.
  intros Hok HQ. unfold get_location_from_syntax. wp_step.
  eapply wp_mono; [apply get_token_location_safe, Hok| |].
  - intros l s' ->. simpl. by destruct p.
  - intros e s' [-> _]. apply parse_exn_location.
Qed.

Lemma has_diagnostic_in_syntax_parses x d p (Q : bool → GraphQlParser → Prop) :
  parser_ok p → (∀ b, Q b p) → safe (has_diagnostic_in_syntax x d) Q p.
Proof.
  intros Hok HQ. unfold has_diagnostic_in_syntax. wp_step. apply get_location_parses; [done|].
  intros l. by repeat wp_step.
Qed.

Lemma take_errors_from_scanner_parses p :
  parser_ok p → safe take_errors_from_scanner (λ _ p', parses p p') p.
Proof.
  intros Hok. unfold take_errors_from_scanner. wp_step. wp_step.
  apply (wp_for_each _ (λ _ p', parses p p')); [by apply parses_refl| |done].
  intros e l p' Hp. repeat wp_step.
  transitivity (set_diagnostics (diagnostics p' ++ [e]) p').
  - transitivity p'; [done|]. apply parses_member; try done; [by eapply parses_ok|].
    simpl. by apply prefix_app_r.
  - apply parses_advances.
    + destruct (parses_ok _ _ _ _ Hp). by split.
    + destruct (parser_ok_scanner _ _ _ (parses_ok _ _ _ _ Hp)). by split.
Qed.

(** What was expected was there and was taken, or was diagnosed. *)
Definition expected (p : GraphQlParser) (ok : bool) (p' : GraphQlParser) : Prop :=
  parses p p' ∧ (ok = true → (cursor p < cursor p')%nat).

Lemma scan_expected_from token k w p :
  parser_ok p → token ≠ GraphQlToken.EndOfDocument →
  safe ⟨Scanner.scan_expected token k w⟩
    (λ result p', parses p p' ∧ (result = token → (cursor p < cursor p')%nat)) p.
Proof.
  intros Hok Hne. wp_step. eapply wp_weaken_ub; [apply (parser_ok_ub _ _ _ Hok)|].
  eapply wp_mono; [apply (scan_expected_spec (λ _ _, False)), Hok| |by intros].
  intros result sc [Ht Hp]. split.
  - apply parses_advances; [done|]. by apply takes_advances.
  - intros ->. by destruct Hp as [|[? _]].
Qed.

Lemma scan_expected_reports token k w p :
  parser_ok p → token ≠ GraphQlToken.EndOfDocument →
  safe (scan_expected token k w)
    (λ ok p', expected p ok p' ∧ (ok = false → (reported p < reported p')%nat)) p.
Proof.
  intros Hok Hne. unfold scan_expected. wp_call scan_expected_from; [done..| |by intros].
  intros result p' [Hp Hlt]. destruct (decide (result = token)) as [->|Hneq].
  { wp_step. split; [split; [done|]|done]. intros _. by apply Hlt. }
  assert (Hfin : ∀ d args, safe (add_diagnostic d args;; mret false)
    (λ ok p', expected p ok p' ∧ (ok = false → (reported p < reported p')%nat)) p').
  { intros d args. wp_call add_diagnostic_reports; [by eapply parses_ok| |by intros].
    intros _ p'' [Hp' Hn]. wp_step. split; [split; [by transitivity p'|done]|].
    intros _. apply parses_reported in Hp. lia. }
  wp_step. destruct (decide _).
  - wp_step. apply token_string_parses. intros v. apply wp_unbind, Hfin.
  - wp_step. apply token_string_parses. intros v. wp_step. apply get_token_value_parses.
    intros v'. apply wp_unbind, Hfin.
Qed.

Lemma scan_expected_parses token k w p :
  parser_ok p → token ≠ GraphQlToken.EndOfDocument →
  safe (scan_expected token k w) (expected p) p.
Proof. intros Hok Hne. wp_call scan_expected_reports; [done..|by intros ?? []|done]. Qed.

Lemma expect_parses token p :
  parser_ok p → token ≠ GraphQlToken.EndOfDocument → safe (expect token) (expected p) p.
Proof. unfold expect. by apply scan_expected_parses. Qed.

Lemma scan_expected_template_parses token d k p :
  parser_ok p → token ≠ GraphQlToken.EndOfDocument →
  safe (scan_expected_template token d k) (expected p) p.
Proof.
  intros Hok Hne. unfold scan_expected_template.
  wp_call scan_expected_from; [done..| |by intros].
  intros result p' [Hp Hlt]. destruct (decide (result = token)) as [->|Hneq].
  { wp_step. split; [done|]. intros _. by apply Hlt. }
  wp_step. apply get_token_value_parses. intros v.
  wp_call add_diagnostic_parses; [by eapply parses_ok| |by intros].
  intros _ p'' Hp'. wp_step. split; [by transitivity p'|done].
Qed.

Lemma scan_optional_name_parses token k p :
  parser_ok p → token ≠ GraphQlToken.EndOfDocument →
  safe (scan_optional_name token k) (expected p) p.
Proof.
  intros Hok Hne. unfold scan_optional_name. wp_step. wp_step.
  pose proof (parser_ok_scanner _ _ _ Hok) as Hsc.
  eapply wp_weaken_ub; [apply (parser_ok_ub _ _ _ Hok)|].
  eapply wp_mono; [by apply (try_scan_spec (λ _ _, False))| |by intros].
  intros result sc. cbv beta. intros Hr. wp_step.
  destruct (decide (result = token)) as [->|Hneq].
  - destruct Hr as [Ht Hp]. split; [|by destruct Hp as [|[? _]]].
    apply parses_advances; [done|]. transitivity (saved (scanner p)).
    + by apply saved_advances.
    + by apply takes_advances.
  - split; [|by rewrite bool_decide_false]. apply parses_advances; [done|].
    by apply same_cursor_advances.
Qed.

Lemma scan_optional_parses token p :
  parser_ok p → token ≠ GraphQlToken.EndOfDocument →
  safe (scan_optional token) (expected p) p.
Proof. by apply scan_optional_name_parses. Qed.

Lemma skip_to_parses tokens p :
  parser_ok p → safe (skip_to tokens) (λ _ p', parses p p') p.
Proof.
  intros Hok. unfold skip_to. wp_step.
  eapply wp_weaken_ub; [apply (parser_ok_ub _ _ _ Hok)|].
  eapply wp_mono; [apply (skip_to_spec (λ _ _, False)), Hok| |by intros].
  intros ? sc [Ha _]. by apply parses_advances.
Qed.

Lemma skip_block_parses p :
  parser_ok p → safe ⟨skip_block⟩ (λ _ p', parses p p') p.
Proof.
  intros Hok. wp_step. eapply wp_weaken_ub; [apply (parser_ok_ub _ _ _ Hok)|].
  eapply wp_mono; [apply (skip_block_spec (λ _ _, False)), Hok| |by intros].
  intros ? sc Ha. by apply parses_advances.
Qed.

Lemma scan_directive_location_parses p :
  parser_ok p → safe ⟨scan_directive_location⟩ (λ _ p', parses p p') p.
Proof.
  intros Hok. wp_step. eapply wp_weaken_ub; [apply (parser_ok_ub _ _ _ Hok)|].
  eapply wp_mono; [apply (scan_directive_location_spec (λ _ _, False)), Hok| |by intros].
  intros ? sc Ha. apply parses_advances; [done|]. by apply takes_advances.
Qed.
End parser_specs.
