(* ===== verification/ValueSafety.v ===== *)
(** * Values, arguments and directives are parsed safely

    The operations of Schema.v that only use the parser base class: each
    terminates within its fuel, whatever the nesting of the values, and reads
    inside the source. *)
From S2P Require Import Prelude Monad Character Cstring Diagnostic StdMap Syntaxes.
From S2P Require Import TextWriter Scanner ScannerSpec Parser ParserSpec Schema.

Section values.
Context (ub : Prop) (good : Directive → Prop).
Local Abbreviation parses := (parses ub good).
Local Abbreviation parser_ok := (parser_ok ub good).
Local Abbreviation safe m Q p := (wp ub m Q (λ e _, parse_exn e) p).

Lemma skip_to_next_primary_token_parses p :
  parser_ok p → safe skip_to_next_primary_token (λ _ p', parses p p') p.
Proof.
  intros Hok. unfold skip_to_next_primary_token.
  wp_call skip_to_parses; [done| |by intros]. intros _ p' Hp. by wp_step.
Qed.

Lemma wp_parse_loop {A B} (I : A → GraphQlParser → Prop)
    (body : A → M GraphQlParser (A + B)) Q a p :
  I a p →
  (∀ a p, I a p →
    safe (body a) (λ r p',
      match r with
      | inl a' => I a' p' ∧ extent p' = extent p ∧ (cursor p < cursor p' ≤ S (extent p'))%nat
      | inr b => Q b p'
      end) p) →
  safe (parse_loop body a) Q p.
Proof.
  intros HI Hbody. unfold parse_loop. wp_step. wp_step.
  apply (wp_loop _ I (λ _ p, S (extent p) - cursor p)%nat);
    [done|unfold parse_fuel, scan_fuel; lia|].
  intros a' p' HI'. eapply wp_mono; [by apply Hbody| |by intros].
  intros [a''|b] p''; [|done]. intros (? & ? & ?). split; [done|lia].
Qed.

Ltac side := solve [done | eauto with flash].
Ltac call lem := wp_call lem; [side .. | |by intros]; intros ? ? ?.

(** One step through an operation of the parser. *)
Ltac parse_step :=
  lazymatch goal with
  | |- wp _ get_token_value _ _ _ => apply get_token_value_parses; intros ?
  | |- wp _ (CreateSyntax _) _ _ _ => apply CreateSyntax_parses; intros ?
  | |- wp _ (create_name _) _ _ _ => apply create_name_parses; intros ? ?
  | |- wp _ (FinishSyntax _) _ _ _ => apply FinishSyntax_parses; intros ?
  | |- wp _ (get_location_from_syntax _) _ _ _ => eapply get_location_parses; [side|intros ?]
  | |- wp _ (has_diagnostic_in_syntax _ _) _ _ _ =>
      eapply has_diagnostic_in_syntax_parses; [side|intros ?]
  | |- wp _ (add_diagnostic_at _ _ _) _ _ _ => call add_diagnostic_at_parses
  | |- wp _ (add_diagnostic _ _) _ _ _ => call add_diagnostic_parses
  | |- wp _ (expect _) _ _ _ => call expect_parses
  | |- wp _ (scan_optional _) _ _ _ => call scan_optional_parses
  | |- wp _ (skip_to _) _ _ _ => call skip_to_parses
  | |- wp _ skip_to_next_primary_token _ _ _ => call skip_to_next_primary_token_parses
  | |- wp _ (if decide ?P then _ else _) _ _ _ => destruct (decide P)
  | _ => wp_step
  end;
  repeat match goal with
  | H : expected _ _ _ _ _ |- _ => destruct H
  | H : negb _ = true |- _ => apply negb_true_iff in H
  | H : negb _ = false |- _ => apply negb_false_iff in H
  | H : ?b = true → _, H' : ?b = true |- _ => specialize (H H')
  end.

(** The end of a branch. *)
Ltac parse_done :=
  repeat match goal with |- _ ∧ _ => split end;
  try intros ?; first [done | by parses_chain | parses_arith].

Lemma parse_scalar_value_parses token p :
  parser_ok p →
  safe (parse_scalar_value token)
    (λ v p', parses p p' ∧ (v ≠ None → token ≠ GraphQlToken.EndOfDocument)) p.
Proof.
  intros Hok. unfold parse_scalar_value. pose proof (parses_refl _ _ _ Hok).
  destruct token; repeat parse_step; parse_done.
Qed.

Lemma current_value_token_parses p :
  parser_ok p →
  safe set_current_value_token_from_scanner
    (λ token p', parses p p' ∧
      ((cursor p < cursor p')%nat
       ∨ token = GraphQlToken.EndOfDocument ∧ (extent p ≤ cursor p')%nat)) p.
Proof.
  intros Hok. unfold set_current_value_token_from_scanner, TakeNextToken.
  wp_call take_next_token_parses; [done| |by intros]. intros token p' [Hp Hlt].
  repeat wp_step. split; [|done]. transitivity p'; [done|].
  apply parses_member; try done. by eapply parses_ok.
Qed.

(** A value is parsed whatever the nesting; a value that was found moved the
    cursor. *)
Lemma parse_value_parses fuel p :
  parser_ok p → (S (extent p) - cursor p < fuel)%nat →
  safe (parse_value fuel)
    (λ v p', parses p p' ∧ (v ≠ None → (cursor p < cursor p')%nat)) p.
Proof.
  revert p. induction fuel as [|fuel IH]; intros p Hok Hf; [lia|]. simpl.
  wp_call current_value_token_parses; [done| |by intros]. intros token p1 [Hp1 Hlt].
  assert (Hlt' : token ≠ GraphQlToken.EndOfDocument → (cursor p < cursor p1)%nat) by naive_solver.
  clear Hlt.
  assert (Hscalar : safe (parse_scalar_value token)
      (λ v p', parses p p' ∧ (v ≠ None → (cursor p < cursor p')%nat)) p1).
  { eapply wp_mono; [eapply parse_scalar_value_parses; side| |by intros].
    intros v p2 [Hp2 Hv]. split; [by transitivity p1|].
    intros Hv'%Hv. specialize (Hlt' Hv'). parses_arith. }
  destruct token; try exact Hscalar; specialize (Hlt' ltac:(done)); clear Hscalar.
  - (* an object *)
    parse_step. parse_step. parse_step.
    apply (wp_parse_loop (λ _ p', parses p1 p')); [side|].
    + intros fields p2 Hp2. wp_call take_next_token_parses; [side| |by intros].
      intros token p3 [Hp3 Hlt].
      assert (Hlt3 : token ≠ GraphQlToken.EndOfDocument → (cursor p2 < cursor p3)%nat)
        by naive_solver.
      destruct token; try specialize (Hlt3 ltac:(done)); repeat parse_step.
      all: try solve [parse_done].
      wp_call IH; [side|parses_arith| |by intros]. intros value p4 [Hp4 Hv].
      parse_step. parse_done.
  - (* a list *)
    parse_step. parse_step. parse_step.
    apply (wp_parse_loop (λ _ p', parses p1 p')); [side|].
    intros values p2 Hp2. wp_call IH; [side|parses_arith| |by intros].
    intros [v|] p3 [Hp3 Hv]; parse_step.
    + specialize (Hv ltac:(done)). parse_done.
    + repeat parse_step; parse_done.
Qed.

Lemma parse_value__parses p :
  parser_ok p → safe parse_value_ (λ _ p', parses p p') p.
Proof.
  intros Hok. unfold parse_value_. wp_step. wp_step.
  eapply wp_mono; [apply parse_value_parses; [done|unfold parse_fuel, scan_fuel; lia]| |by intros].
  by intros v p' [? _].
Qed.

Lemma parse_arguments_parses p :
  parser_ok p → safe parse_arguments_after_open_paren (λ _ p', parses p p') p.
Proof.
  intros Hok. unfold parse_arguments_after_open_paren.
  apply (wp_parse_loop (λ _ p', parses p p')); [side|].
  intros arguments p1 Hp1. wp_call take_next_token_parses; [side| |by intros].
  intros token p2 [Hp2 _]. repeat parse_step; try solve [parse_done].
  wp_call parse_value__parses; [side| |by intros]. intros value p3 Hp3.
  destruct (find _ _); repeat parse_step; parse_done.
Qed.

Lemma parses_directive d p :
  parser_ok p → good d → parses p (set_directives (directives p ++ [d]) p).
Proof.
  intros [Hsc Ht Hub Hd] Hg. split; [split| | |]; try done.
  - simpl. apply Forall_app; auto.
  - by apply advances_refl.
Qed.

(** The directives parsed at a location satisfy [good] if those with that
    location and parent do. *)
Lemma parse_directives_parses location parent p :
  parser_ok p →
  (∀ d, directive_parent d = parent → directive_location d = location → good d) →
  safe (parse_directives location parent) (λ _ p', parses p p') p.
Proof.
  intros Hok Hgood. unfold parse_directives.
  apply (wp_parse_loop (λ _ p', parses p p')); [side|].
  intros directives_ p1 Hp1. parse_step. parse_step.
  parse_step; [repeat parse_step; parse_done|].
  parse_step. wp_call take_next_token_parses; [side| |by intros].
  intros token p2 [Hp2 _]. parse_step; [repeat parse_step; parse_done|].
  do 7 parse_step. parse_step. parse_step.
  match goal with |- wp _ _ ?Q _ _ =>
    assert (Hrest : ∀ arguments p4, parses s' p4 → Q arguments p4) end.
  { intros arguments p4 Hp4. cbv beta. parse_step. parse_step.
    match goal with |- context [directives p4 ++ [?d]] =>
      pose proof (parses_directive d p4 ltac:(side) (Hgood d eq_refl eq_refl)) end.
    repeat parse_step; parse_done. }
  parse_step.
  - wp_call parse_arguments_parses; [side| |by intros]. intros arguments p4 Hp4.
    apply Hrest. parses_chain.
  - parse_step. apply Hrest. parses_chain.
Qed.
End values.
