(* ===== verification/SchemaInvariant.v ===== *)
(** * The heap invariant of the schema parser

    [schema_ok] is the invariant of a [GraphQlSchema] between the operations
    of its parse phase: every pointer its tables keep leads to a node of the
    class the program later uses it at, and every symbol is registered under
    the name of its declaration.  [builds] is what every operation guarantees
    of the state it ends in. *)
From S2P Require Import Prelude Monad Character Cstring Diagnostic StdMap Syntaxes.
From S2P Require Import TextWriter Scanner ScannerSpec Parser ParserSpec Schema.

(** ** Nodes *)

(** A type annotation that was completed: [get_type_name] prints it. *)
Definition type_valid (t : Type_) : Prop :=
  match type t with
  | T_Int | T_Float | T_String | T_Boolean | T_ID => True
  | T_Object | T_Enum => type_name t ≠ None
  | _ => False
  end.

Definition type_at (h : list Node) (p : ptr) : Prop :=
  ∃ t, h !! p = Some (NType t) ∧ type_valid t.

(** A declaration of a class, with a name. *)
Definition named_at (h : list Node) (p : ptr) (k : SyntaxKind) (name : ustring) : Prop :=
  ∃ d n, h !! p = Some (NDecl d) ∧ body_kind (body d) = k ∧ decl_name d = Some n
    ∧ identifier n = name.

Definition class_at (h : list Node) (p : ptr) (k : SyntaxKind) : Prop :=
  ∃ d, h !! p = Some (NDecl d) ∧ body_kind (body d) = k.

Definition parent_ok (h : list Node) (parent : option ptr) : Prop :=
  ∀ q, parent = Some q → ∃ name, named_at h q S_DirectiveDefinition name.

(** A type annotation in [forward_type_references]. *)
Definition reference_at (h : list Node) (p : ptr) : Prop :=
  ∃ t, h !! p = Some (NType t) ∧ type_name t ≠ None ∧ parent_ok h (type_parent t).

Definition directive_ok (h : list Node) (d : Directive) : Prop := parent_ok h (directive_parent d).

(** The definitions of a map are stored under their names, and their types are
    complete; the type of an argument may be missing. *)
Definition argument_ok (h : list Node) (entry : ustring * InputValueDefinition) : Prop :=
  identifier (ivd_name entry.2) = entry.1 ∧ ∀ p, ivd_type entry.2 = Some p → type_at h p.
Definition field_ok (h : list Node) (entry : ustring * FieldDefinition) : Prop :=
  identifier (fd_name entry.2) = entry.1 ∧ type_at h (fd_type entry.2)
  ∧ Forall (argument_ok h) (fd_arguments entry.2).
Definition input_field_ok (h : list Node) (entry : ustring * InputFieldDefinition) : Prop :=
  identifier (ifd_name entry.2) = entry.1 ∧ type_at h (ifd_type entry.2).

Definition body_ok (h : list Node) (b : Body) : Prop :=
  match b with
  | BObject o | BInterface o => ∀ m, fields o = Some m → Forall (field_ok h) m
  | BInputObject o => ∀ m, io_fields o = Some m → Forall (input_field_ok h) m
  | BDirectiveDefinition d => Forall (argument_ok h) (dd_arguments d)
  | BEnum _ | BUnion _ | BSchema _ => True
  end.

(** A declaration: its [SyntaxKind] tells its class. *)
Definition decl_ok (h : list Node) (d : Declaration) : Prop :=
  body_ok h (body d) ∧ kind (decl_syntax d) = body_kind (body d).

Definition heap_ok (h : list Node) : Prop :=
  ∀ p d, h !! p = Some (NDecl d) → decl_ok h d.

(** An object with an [implements] clause. *)
Definition implements (b : Body) : Prop :=
  match b with BObject o => object_implementations o ≠ None | _ => False end.

(** An object in [objects_with_implementations]. *)
Definition object_at (h : list Node) (p : ptr) : Prop :=
  ∃ d, h !! p = Some (NDecl d) ∧ implements (body d) ∧ decl_name d ≠ None.

(** ** How nodes change *)

Definition type_le (t t' : Type_) : Prop :=
  (type_valid t → type_valid t') ∧
  (type_name t ≠ None → type_name t' ≠ None ∧ type_parent t' = type_parent t).

Definition decl_le (d d' : Declaration) : Prop :=
  body_kind (body d') = body_kind (body d) ∧
  decl_syntax d' = decl_syntax d ∧
  (implements (body d) → implements (body d')) ∧
  (∀ n, decl_name d = Some n → decl_name d' = Some n).

Definition node_le (n n' : Node) : Prop :=
  match n, n' with
  | NType t, NType t' => type_le t t'
  | NDecl d, NDecl d' => decl_le d d'
  | _, _ => False
  end.

Definition heap_le (h h' : list Node) : Prop :=
  ∀ p n, h !! p = Some n → ∃ n', h' !! p = Some n' ∧ node_le n n'.

#[export] Instance node_le_preorder : PreOrder node_le.
Proof.
  split.
  - intros [t|d]; unfold node_le, type_le, decl_le; naive_solver.
  - intros [t1|d1] [t2|d2] [t3|d3]; unfold node_le, type_le, decl_le; try done.
    + intros [H1 H2] [H3 H4]. split; [naive_solver|]. intros Hn.
      destruct (H2 Hn) as [Hn' ->%eq_sym]. by apply H4.
    + intros (? & ? & ? & ?) (? & ? & ? & ?). split_and!; [congruence..| |]; naive_solver.
Qed.

#[export] Instance heap_le_preorder : PreOrder heap_le.
Proof.
  split.
  - intros h p n Hp. by exists n.
  - intros h1 h2 h3 H12 H23 p n Hp. destruct (H12 p n Hp) as (n2 & Hp2 & ?).
    destruct (H23 p n2 Hp2) as (n3 & ? & ?). exists n3. split; [done|]. by transitivity n2.
Qed.

Lemma heap_le_app h k : heap_le h (h ++ k).
Proof. intros p n Hp. exists n. split; [|done]. by apply lookup_app_l_Some. Qed.

Lemma heap_le_insert h p n n' : h !! p = Some n → node_le n n' → heap_le h (<[p := n']> h).
Proof.
  intros Hp Hle q m Hq. destruct (decide (p = q)) as [->|Hne].
  - exists n'. rewrite list_lookup_insert_eq by by eapply lookup_lt_Some.
    split; [done|]. by simplify_eq.
  - exists m. by rewrite list_lookup_insert_ne.
Qed.

Section heap_mono.
Context (h h' : list Node) (Hle : heap_le h h').

Lemma heap_le_decl p d :
  h !! p = Some (NDecl d) → ∃ d', h' !! p = Some (NDecl d') ∧ decl_le d d'.
Proof. intros Hp. destruct (Hle _ _ Hp) as ([t|d'] & ? & ?); [done|]. by exists d'. Qed.

Lemma heap_le_type p t :
  h !! p = Some (NType t) → ∃ t', h' !! p = Some (NType t') ∧ type_le t t'.
Proof. intros Hp. destruct (Hle _ _ Hp) as ([t'|d] & ? & ?); [|done]. by exists t'. Qed.

Lemma type_at_mono p : type_at h p → type_at h' p.
Proof.
  intros (t & Hp & Hv). destruct (heap_le_type p t Hp) as (t' & Hp' & [Hv' _]).
  exists t'. auto.
Qed.

Lemma named_at_mono p k name : named_at h p k name → named_at h' p k name.
Proof.
  intros (d & n & Hp & Hk & Hn & Hi). destruct (heap_le_decl p d Hp) as (d' & Hp' & ? & _ & _ & Hn').
  exists d', n. split_and!; [done|congruence|auto|done].
Qed.

Lemma parent_ok_mono parent : parent_ok h parent → parent_ok h' parent.
Proof. intros Hp q Hq. destruct (Hp q Hq) as [name ?]. exists name. by apply named_at_mono. Qed.

Lemma reference_at_mono p : reference_at h p → reference_at h' p.
Proof.
  intros (t & Hp & Hn & Hpar). destruct (heap_le_type p t Hp) as (t' & Hp' & _ & Hle').
  destruct (Hle' Hn) as [? Heq]. exists t'. rewrite Heq. eauto using parent_ok_mono.
Qed.

Lemma directive_ok_mono d : directive_ok h d → directive_ok h' d.
Proof. apply parent_ok_mono. Qed.

Lemma argument_ok_mono entry : argument_ok h entry → argument_ok h' entry.
Proof. intros [? H]. split; [done|]. eauto using type_at_mono. Qed.

Lemma arguments_ok_mono m : Forall (argument_ok h) m → Forall (argument_ok h') m.
Proof. apply Forall_impl, argument_ok_mono. Qed.

Lemma field_ok_mono entry : field_ok h entry → field_ok h' entry.
Proof. intros (? & ? & ?). split_and!; eauto using type_at_mono, arguments_ok_mono. Qed.

Lemma fields_ok_mono m : Forall (field_ok h) m → Forall (field_ok h') m.
Proof. apply Forall_impl, field_ok_mono. Qed.

Lemma input_field_ok_mono entry : input_field_ok h entry → input_field_ok h' entry.
Proof. intros [? ?]. split; eauto using type_at_mono. Qed.

Lemma input_fields_ok_mono m : Forall (input_field_ok h) m → Forall (input_field_ok h') m.
Proof. apply Forall_impl, input_field_ok_mono. Qed.

Lemma class_at_mono p k : class_at h p k → class_at h' p k.
Proof.
  intros (d & Hp & Hk). destruct (heap_le_decl p d Hp) as (d' & ? & ? & _).
  exists d'. split; [done|congruence].
Qed.

Lemma object_at_mono p : object_at h p → object_at h' p.
Proof.
  intros (d & Hp & Him & Hn). destruct (heap_le_decl p d Hp) as (d' & ? & _ & _ & ? & Hn').
  exists d'. split_and!; auto. destruct (decl_name d) as [n|]; [|done]. by rewrite (Hn' n).
Qed.

Lemma object_at_class p : object_at h p → class_at h p S_Object.
Proof. intros (d & Hp & Him & _). exists d. split; [done|]. by destruct (body d). Qed.

Lemma body_ok_mono b : body_ok h b → body_ok h' b.
Proof.
  destruct b; simpl; try done; eauto using arguments_ok_mono.
  all: intros H m Hm; eapply Forall_impl; [|exact (H m Hm)].
  all: first [exact field_ok_mono | exact input_field_ok_mono].
Qed.

Lemma decl_ok_mono d : decl_ok h d → decl_ok h' d.
Proof. intros [? ?]. split; [by apply body_ok_mono|done]. Qed.
End heap_mono.

Lemma heap_ok_alloc h n :
  heap_ok h → (∀ d, n = NDecl d → decl_ok h d) → heap_ok (h ++ [n]).
Proof.
  intros Hh Hn p d Hp. eapply decl_ok_mono; [apply heap_le_app|].
  apply lookup_app_Some in Hp as [Hp|[_ Hp]]; [by eapply Hh|].
  apply list_lookup_singleton_Some in Hp as [_ ->]. by apply Hn.
Qed.

Lemma heap_ok_insert h p n n' :
  heap_ok h → h !! p = Some n → node_le n n' →
  (∀ d, n' = NDecl d → body_ok h (body d)) → heap_ok (<[p := n']> h).
Proof.
  intros Hh Hp Hle Hn q d Hq. eapply decl_ok_mono; [by eapply heap_le_insert|].
  destruct (decide (p = q)) as [->|Hne].
  - rewrite list_lookup_insert_eq in Hq by by eapply lookup_lt_Some. simplify_eq.
    split; [by apply Hn|]. destruct n as [t|d0]; [done|]. destruct Hle as (Hk & Hs & _).
    rewrite Hk, Hs. by apply (Hh q).
  - rewrite list_lookup_insert_ne in Hq by done. by eapply Hh.
Qed.

Lemma named_at_class h p k name : named_at h p k name → class_at h p k.
Proof. intros (d & n & ? & ? & _). by exists d. Qed.

(** ** The invariant *)

Section invariant.
Context (ub : Prop).

(** The symbol of a declaration; [unnamed] is the declaration, if any, that is
    registered and not named yet. *)
Definition symbol_ok (h : list Node) (name : ustring) (sym : Symbol) : Prop :=
  symbol_name sym = name ∧ ∃ d n, h !! declaration sym = Some (NDecl d)
    ∧ decl_name d = Some n ∧ identifier n = name ∧ body_symbol (body d) = symbol_kind sym
    ∧ symbol_kind sym ≠ SL_None.

Record schema_ok (s : GraphQlSchema) : Prop := {
  so_parser : parser_ok ub (directive_ok (heap s)) (parser s);
  so_heap : heap_ok (heap s);
  so_symbols : ∀ name sym, find name (symbols s) = Some sym → symbol_ok (heap s) name sym;
  so_forward : Forall (reference_at (heap s)) (forward_type_references s);
  so_definitions : Forall (λ p, ∃ d, heap s !! p = Some (NDecl d)) (definitions s);
  so_interfaces : ∀ name p, find name (interfaces s) = Some p →
    named_at (heap s) p S_Interface name;
  so_objects : Forall (object_at (heap s)) (objects_with_implementations s);
  so_unions : Forall (λ p, ∃ name, named_at (heap s) p S_Union name) (unions s);
  so_directive_definitions : ∀ name p, find name (directive_definitions (parser s)) = Some p →
    named_at (heap s) p S_DirectiveDefinition name
}.

Record builds (s s' : GraphQlSchema) : Prop := {
  builds_ok : schema_ok s';
  builds_scanner : advances (scanner (parser s)) (scanner (parser s'));
  builds_diagnostics : diagnostics (parser s) `prefix_of` diagnostics (parser s');
  builds_heap : heap_le (heap s) (heap s');
  builds_symbols : ∀ name sym, find name (symbols s) = Some sym → find name (symbols s') = Some sym
}.

Lemma builds_refl s : schema_ok s → builds s s.
Proof. intros Hok. split; try done. apply advances_refl, Hok. Qed.

#[global] Instance builds_transitive : Transitive builds.
Proof. intros s1 s2 s3 [] []. split; try done; try (by etransitivity); auto. Qed.

(** Only the parser changed. *)
Definition reads (s s' : GraphQlSchema) : Prop :=
  builds s s' ∧ s' = set_parser (parser s') s.

#[global] Instance reads_transitive : Transitive reads.
Proof.
  intros s1 s2 s3 [Hb12 H12] [Hb23 H23]. split; [by etransitivity|].
  rewrite H23, H12. done.
Qed.

Lemma reads_builds s s' : reads s s' → builds s s'.
Proof. by intros []. Qed.

Lemma reads_refl s : schema_ok s → reads s s.
Proof. intros Hok. split; [by apply builds_refl|]. by destruct s. Qed.

Lemma builds_parser s p :
  schema_ok s → parses ub (directive_ok (heap s)) (parser s) p → reads s (set_parser p s).
Proof.
  intros [] Hp. destruct Hp as [Hok Hsc Hd Hdefs]. split; [|done].
  split; try done. split; try done. simpl. by rewrite Hdefs.
Qed.

Lemma symbol_ok_mono h h' name sym : heap_le h h' → symbol_ok h name sym → symbol_ok h' name sym.
Proof.
  intros Hle (Hn & d & n & Hp & Hd & Hi & Hb & Hs). split; [done|].
  destruct (heap_le_decl _ _ Hle _ _ Hp) as (d' & Hp' & Hk & _ & _ & Hname).
  exists d', n. split_and!; auto. rewrite <- Hb.
  destruct (body d), (body d'); simpl in *; congruence.
Qed.

(** The heap grew or a node changed; nothing else did. *)
Lemma builds_heap_only s h :
  schema_ok s → heap_le (heap s) h → heap_ok h → builds s (set_heap h s).
Proof.
  intros [Hp Hh Hs Hf Hd Hi Ho Hu Hdd] Hle Hh'. split; simpl; try done;
    [|apply advances_refl, Hp]. split; simpl; try done.
  - destruct Hp as [? ? ? Hgood]. split; try done.
    eapply Forall_impl; [|exact Hgood]. intros d. by apply directive_ok_mono.
  - intros name sym Hsym. eapply symbol_ok_mono; eauto.
  - eapply Forall_impl; [|exact Hf]. intros p. by apply reference_at_mono.
  - eapply Forall_impl; [|exact Hd]. intros p [d Hpd].
    destruct (heap_le_decl _ _ Hle _ _ Hpd) as (d' & ? & _). eauto.
  - intros name p Hnp. eapply named_at_mono; eauto.
  - eapply Forall_impl; [|exact Ho]. intros p. by apply object_at_mono.
  - eapply Forall_impl; [|exact Hu]. intros p [name ?]. exists name. by eapply named_at_mono.
  - intros name p Hnp. eapply named_at_mono; eauto.
Qed.

Lemma builds_same s s' :
  schema_ok s → schema_ok s' → scanner (parser s') = scanner (parser s) →
  diagnostics (parser s') = diagnostics (parser s) → heap s' = heap s →
  (∀ name sym, find name (symbols s) = Some sym → find name (symbols s') = Some sym) →
  builds s s'.
Proof.
  intros Hok Hok' Hs Hd Hh Hsym. split; [done|..|done].
  - rewrite Hs. apply advances_refl, Hok.
  - by rewrite Hd.
  - by rewrite Hh.
Qed.

(** The tables grow. *)
Lemma builds_forward s p :
  schema_ok s → reference_at (heap s) p →
  builds s (set_forward_type_references (forward_type_references s ++ [p]) s).
Proof.
  intros Hok Hp. apply builds_same; try done. destruct Hok. split; try done.
  simpl. apply Forall_app; auto.
Qed.

Lemma builds_forward_interface s n :
  schema_ok s → builds s (set_forward_interface_references (forward_interface_references s ++ [n]) s).
Proof. intros Hok. apply builds_same; try done. by destruct Hok. Qed.

Lemma builds_definition s p :
  schema_ok s → (∃ d, heap s !! p = Some (NDecl d)) →
  builds s (set_definitions (definitions s ++ [p]) s).
Proof.
  intros Hok Hp. apply builds_same; try done. destruct Hok. split; try done.
  simpl. apply Forall_app; auto.
Qed.

Lemma builds_interface s name p :
  schema_ok s → named_at (heap s) p S_Interface name →
  builds s (set_interfaces (emplace name p (interfaces s)) s).
Proof.
  intros Hok Hp. apply builds_same; try done. destruct Hok. split; try done.
  simpl. intros name' p' [H|(-> & -> & _)]%find_emplace_inv; auto.
Qed.

Lemma builds_object s p :
  schema_ok s → object_at (heap s) p →
  builds s (set_objects_with_implementations (objects_with_implementations s ++ [p]) s).
Proof.
  intros Hok Hp. apply builds_same; try done. destruct Hok. split; try done.
  simpl. apply Forall_app; auto.
Qed.

Lemma builds_union s p :
  schema_ok s → (∃ name, named_at (heap s) p S_Union name) →
  builds s (set_unions (unions s ++ [p]) s).
Proof.
  intros Hok Hp. apply builds_same; try done. destruct Hok. split; try done.
  simpl. apply Forall_app; auto.
Qed.

Lemma builds_duplicate s name :
  schema_ok s → builds s (set_duplicate_symbols (name :: duplicate_symbols s) s).
Proof. intros Hok. apply builds_same; try done. by destruct Hok. Qed.

Lemma builds_symbol s name sym :
  schema_ok s → symbol_ok (heap s) name sym →
  builds s (set_symbols (emplace name sym (symbols s)) s).
Proof.
  intros Hok Hsym. apply builds_same; try done.
  - destruct Hok. split; try done. simpl. intros name' sym' [H|(-> & -> & _)]%find_emplace_inv; auto.
  - simpl. intros name' sym' H. by apply find_emplace_Some.
Qed.

Lemma builds_directive_definition s name p :
  schema_ok s → named_at (heap s) p S_DirectiveDefinition name →
  builds s (set_parser (set_directive_definitions
    (emplace name p (directive_definitions (parser s))) (parser s)) s).
Proof.
  intros Hok Hp. apply builds_same; try done. destruct Hok as [[]].
  split; try done. simpl. intros name' p' [H|(-> & -> & _)]%find_emplace_inv; auto.
Qed.
End invariant.
