(* ===== verification/SchemaRules.v ===== *)
(** * Rules for the operations of the schema parser

    How the invariant of SchemaInvariant.v passes through the heap operations
    and through the operations of the base class: a rule per operation, stated
    for any postcondition. *)
From S2P Require Import Prelude Monad Character Cstring Diagnostic StdMap Syntaxes.
From S2P Require Import TextWriter Scanner ScannerSpec Parser ParserSpec Schema.
From S2P Require Import ValueSafety SchemaInvariant.

Abbreviation at_ s := (position (scanner (parser s))).
Abbreviation length_ s := (size (scanner (parser s))).

Section rules.
Context (ub : Prop).
Local Abbreviation builds := (builds ub).
Local Abbreviation reads := (reads ub).
Local Abbreviation schema_ok := (schema_ok ub).
Local Abbreviation good s := (directive_ok (heap s)).
Local Abbreviation safe m Q s := (wp ub m Q (λ e _, parse_exn e) s).

Lemma builds_le s s' : builds s s' → (at_ s ≤ at_ s' ≤ S (length_ s))%nat ∧ length_ s' = length_ s.
Proof. intros [_ [] _ _ _]. lia. Qed.

Lemma reads_heap s s' : reads s s' → heap s' = heap s.
Proof. by intros [_ ->]. Qed.
Lemma reads_symbols s s' : reads s s' → symbols s' = symbols s.
Proof. by intros [_ ->]. Qed.

Lemma reads_ok s s' : reads s s' → schema_ok s'.
Proof. intros [[] _]. done. Qed.

(** An operation of the base class. *)
Lemma wp_reads {A} (m : M GraphQlParser A) (R : A → GraphQlParser → Prop) Q s :
  schema_ok s →
  wp ub m (λ a p', parses ub (good s) (parser s) p' ∧ R a p') (λ e _, parse_exn e) (parser s) →
  (∀ a s', reads s s' → R a (parser s') → Q a s') →
  safe ⟨m⟩ Q s.
Proof.
  intros Hok Hm HQ. wp_step. eapply wp_mono; [exact Hm| |by intros].
  intros a p' [Hp HR]. by apply HQ; [apply builds_parser|].
Qed.

Lemma wp_reads_unit {A} (m : M GraphQlParser A) Q s :
  schema_ok s →
  wp ub m (λ _ p', parses ub (good s) (parser s) p') (λ e _, parse_exn e) (parser s) →
  (∀ a s', reads s s' → Q a s') →
  safe ⟨m⟩ Q s.
Proof.
  intros Hok Hm HQ. apply (wp_reads m (λ _ _, True)); [done| |auto].
  eapply wp_mono; [exact Hm|by intros|by intros].
Qed.

(** An operation of the base class that leaves its state as it was. *)
Lemma wp_pure {A} (m : M GraphQlParser A) (R : A → Prop) (Q : A → GraphQlSchema → Prop) s :
  (∀ K : A → GraphQlParser → Prop, (∀ a, R a → K a (parser s)) →
    wp ub m K (λ e _, parse_exn e) (parser s)) →
  (∀ a, R a → Q a s) → safe ⟨m⟩ Q s.
Proof.
  intros Hm HQ. wp_step. apply Hm. intros a Ha. change (parser s) with (sub s).
  rewrite put_sub_id. by apply HQ.
Qed.

Lemma wp_schema_loop {A B} (I : A → GraphQlSchema → Prop)
    (body : A → M GraphQlSchema (A + B)) Q a s :
  I a s →
  (∀ a s, I a s →
    safe (body a) (λ r s',
      match r with
      | inl a' => I a' s' ∧ length_ s' = length_ s ∧ (at_ s < at_ s' ≤ S (length_ s'))%nat
      | inr b => Q b s'
      end) s) →
  safe (schema_loop body a) Q s.
Proof.
  intros HI Hbody. unfold schema_loop. wp_step. wp_step.
  apply (wp_loop _ I (λ _ s, S (length_ s) - at_ s)%nat);
    [done|unfold parse_fuel, scan_fuel; lia|].
  intros a' p' HI'. eapply wp_mono; [by apply Hbody| |by intros].
  intros [a''|b] p''; [|done]. intros (? & ? & ?). split; [done|lia].
Qed.

(** ** The heap *)

Lemma wp_alloc n (Q : ptr → GraphQlSchema → Prop) s :
  schema_ok s → (∀ d, n = NDecl d → decl_ok (heap s) d) →
  (∀ s', builds s s' → s' = set_heap (heap s ++ [n]) s → Q (length (heap s)) s') →
  safe (alloc n) Q s.
Proof.
  intros Hok Hn HQ. unfold alloc. repeat wp_step. apply HQ; [|done].
  apply builds_heap_only; [done|apply heap_le_app|]. apply heap_ok_alloc; [apply Hok|done].
Qed.

Lemma wp_read_type p t (Q : Type_ → GraphQlSchema → Prop) s :
  heap s !! p = Some (NType t) → Q t s → safe (read_type p) Q s.
Proof. intros Hp HQ. unfold read_type. wp_step. wp_step. rewrite Hp. by wp_step. Qed.

Lemma wp_read_decl p d (Q : Declaration → GraphQlSchema → Prop) s :
  heap s !! p = Some (NDecl d) → Q d s → safe (read_decl p) Q s.
Proof. intros Hp HQ. unfold read_decl. wp_step. wp_step. rewrite Hp. by wp_step. Qed.

Lemma wp_read_decl_name p d n (Q : Name → GraphQlSchema → Prop) s :
  heap s !! p = Some (NDecl d) → decl_name d = Some n → Q n s → safe (read_decl_name p) Q s.
Proof.
  intros Hp Hn HQ. unfold read_decl_name. wp_step. eapply wp_read_decl; [done|].
  rewrite Hn. simpl. by wp_step.
Qed.

Lemma wp_update_type p t f (Q : unit → GraphQlSchema → Prop) s :
  schema_ok s → heap s !! p = Some (NType t) → type_le t (f t) →
  (∀ s', builds s s' → s' = set_heap (<[p := NType (f t)]> (heap s)) s →
    heap s' !! p = Some (NType (f t)) → Q tt s') →
  safe (update_type p f) Q s.
Proof.
  intros Hok Hp Hle HQ. unfold update_type. wp_step. eapply wp_read_type; [done|]. wp_step.
  apply HQ; [|done|simpl; apply list_lookup_insert_eq; by eapply lookup_lt_Some].
  apply builds_heap_only; [done|by eapply heap_le_insert|].
  eapply heap_ok_insert; [apply Hok|done|done|done].
Qed.

Lemma wp_update_decl p d f (Q : unit → GraphQlSchema → Prop) s :
  schema_ok s → heap s !! p = Some (NDecl d) → decl_le d (f d) → body_ok (heap s) (body (f d)) →
  (∀ s', builds s s' → s' = set_heap (<[p := NDecl (f d)]> (heap s)) s →
    heap s' !! p = Some (NDecl (f d)) → Q tt s') →
  safe (update_decl p f) Q s.
Proof.
  intros Hok Hp Hle Hb HQ. unfold update_decl. wp_step. eapply wp_read_decl; [done|]. wp_step.
  apply HQ; [|done|simpl; apply list_lookup_insert_eq; by eapply lookup_lt_Some].
  apply builds_heap_only; [done|by eapply heap_le_insert|].
  eapply heap_ok_insert; [apply Hok|done|done|]. intros d' [= <-]. done.
Qed.

Lemma wp_update_body p d f (Q : unit → GraphQlSchema → Prop) s :
  schema_ok s → heap s !! p = Some (NDecl d) → body_kind (f (body d)) = body_kind (body d) →
  (implements (body d) → implements (f (body d))) → body_ok (heap s) (f (body d)) →
  (∀ s', builds s s' →
    s' = set_heap (<[p := NDecl (set_body (f (body d)) d)]> (heap s)) s →
    heap s' !! p = Some (NDecl (set_body (f (body d)) d)) → Q tt s') →
  safe (update_body p f) Q s.
Proof.
  intros Hok Hp Hk Him Hb HQ. unfold update_body.
  by eapply wp_update_decl; [done|done|split_and!| |].
Qed.

(** An assignment to the members of a class. *)
Lemma wp_update_class p k f (Q : unit → GraphQlSchema → Prop) s :
  schema_ok s → class_at (heap s) p k →
  (∀ b, body_kind b = k → body_kind (f b) = k ∧ (implements b → implements (f b))
    ∧ (body_ok (heap s) b → body_ok (heap s) (f b))) →
  (∀ s', builds s s' → at_ s' = at_ s → Q tt s') →
  safe (update_body p f) Q s.
Proof.
  intros Hok (d & Hp & Hk) Hf HQ. destruct (Hf _ Hk) as (? & ? & Hb).
  eapply wp_update_body; [done|done|congruence|done| |].
  - apply Hb, (so_heap _ _ Hok _ _ Hp).
  - intros s' Hs' -> _. by apply HQ.
Qed.

(** A declaration that was created and is not in the symbol table. *)
Definition fresh (s : GraphQlSchema) (p : ptr) : Prop :=
  ∀ name sym, find name (symbols s) = Some sym → declaration sym ≠ p.

Lemma wp_create_declaration k b (Q : ptr → GraphQlSchema → Prop) s :
  schema_ok s → k = body_kind b → body_ok (heap s) b →
  (∀ p x s', builds s s' → heap s' !! p = Some (NDecl (new_Declaration x b)) → fresh s' p →
    at_ s' = at_ s → Q p s') →
  safe (create_declaration k b) Q s.
Proof.
  intros Hok Hk Hb HQ. unfold create_declaration. wp_step.
  apply (wp_pure _ (λ x, kind x = k)); [intros K HK; unfold CreateSyntax; do 3 wp_step; auto|].
  intros x Hx. apply wp_alloc; [done|intros d [= <-]; split; [done|simpl; congruence]|].
  intros s' Hs' ->. eapply HQ; [done|simpl; apply list_lookup_middle; done| |done].
  intros name sym Hsym Heq. destruct (so_symbols _ _ Hok _ _ Hsym) as (_ & d & n & Hd & _).
  apply lookup_lt_Some in Hd. rewrite Heq in Hd. lia.
Qed.

(** ** The operations of the base class, run by the schema parser *)

Lemma s_take k w (Q : GraphQlToken.t → GraphQlSchema → Prop) s :
  schema_ok s →
  (∀ token s', reads s s' →
    (token ≠ GraphQlToken.EndOfDocument → (at_ s < at_ s')%nat) → Q token s') →
  safe ⟨take_next_token k w⟩ Q s.
Proof.
  intros Hok HQ. eapply (wp_reads _ (λ token p', token ≠ GraphQlToken.EndOfDocument →
    (at_ s < cursor p')%nat)); [done| |by intros; apply HQ].
  eapply wp_mono; [apply take_next_token_parses, Hok| |by intros].
  intros token p' [Hp Hlt]. split; [done|]. naive_solver.
Qed.

Lemma s_TakeNextToken (Q : GraphQlToken.t → GraphQlSchema → Prop) s :
  schema_ok s →
  (∀ token s', reads s s' →
    (token ≠ GraphQlToken.EndOfDocument → (at_ s < at_ s')%nat) → Q token s') →
  safe ⟨TakeNextToken⟩ Q s.
Proof. apply s_take. Qed.

Lemma s_expected m (Q : bool → GraphQlSchema → Prop) s :
  schema_ok s →
  wp ub m (expected ub (good s) (parser s)) (λ e _, parse_exn e) (parser s) →
  (∀ a s', reads s s' → (a = true → (at_ s < at_ s')%nat) → Q a s') → safe ⟨m⟩ Q s.
Proof. intros Hok Hm HQ. by eapply wp_reads; [done|exact Hm|]. Qed.

Lemma s_expect token (Q : bool → GraphQlSchema → Prop) s :
  schema_ok s → token ≠ GraphQlToken.EndOfDocument →
  (∀ a s', reads s s' → (a = true → (at_ s < at_ s')%nat) → Q a s') → safe ⟨expect token⟩ Q s.
Proof. intros Hok Hne. apply s_expected; [done|]. apply expect_parses; [apply Hok|done]. Qed.

Lemma s_scan_optional token (Q : bool → GraphQlSchema → Prop) s :
  schema_ok s → token ≠ GraphQlToken.EndOfDocument →
  (∀ a s', reads s s' → (a = true → (at_ s < at_ s')%nat) → Q a s') →
  safe ⟨scan_optional token⟩ Q s.
Proof. intros Hok Hne. apply s_expected; [done|]. apply scan_optional_parses; [apply Hok|done]. Qed.

Lemma s_scan_expected_template token d k (Q : bool → GraphQlSchema → Prop) s :
  schema_ok s → token ≠ GraphQlToken.EndOfDocument →
  (∀ a s', reads s s' → (a = true → (at_ s < at_ s')%nat) → Q a s') →
  safe ⟨scan_expected_template token d k⟩ Q s.
Proof.
  intros Hok Hne. apply s_expected; [done|]. apply scan_expected_template_parses; [apply Hok|done].
Qed.

Lemma s_add_diagnostic d args (Q : unit → GraphQlSchema → Prop) s :
  schema_ok s → (∀ a s', reads s s' → Q a s') → safe ⟨add_diagnostic d args⟩ Q s.
Proof. intros Hok. apply wp_reads_unit; [done|]. apply add_diagnostic_parses, Hok. Qed.

Lemma s_add_diagnostic_at l d args (Q : unit → GraphQlSchema → Prop) s :
  schema_ok s → (∀ a s', reads s s' → Q a s') → safe ⟨add_diagnostic_at l d args⟩ Q s.
Proof. intros Hok. apply wp_reads_unit; [done|]. apply add_diagnostic_at_parses, Hok. Qed.

Lemma s_skip_to tokens (Q : GraphQlToken.t → GraphQlSchema → Prop) s :
  schema_ok s → (∀ a s', reads s s' → Q a s') → safe ⟨skip_to tokens⟩ Q s.
Proof. intros Hok. apply wp_reads_unit; [done|]. apply skip_to_parses, Hok. Qed.

Lemma s_skip_to_next_primary_token (Q : unit → GraphQlSchema → Prop) s :
  schema_ok s → (∀ a s', reads s s' → Q a s') → safe ⟨skip_to_next_primary_token⟩ Q s.
Proof. intros Hok. apply wp_reads_unit; [done|]. apply skip_to_next_primary_token_parses, Hok. Qed.

Lemma s_skip_block (Q : unit → GraphQlSchema → Prop) s :
  schema_ok s → (∀ a s', reads s s' → Q a s') → safe ⟨⟨skip_block⟩⟩ Q s.
Proof. intros Hok. apply wp_reads_unit; [done|]. apply skip_block_parses, Hok. Qed.

Lemma s_scan_directive_location (Q : DirectiveLocation.t → GraphQlSchema → Prop) s :
  schema_ok s → (∀ a s', reads s s' → Q a s') → safe ⟨⟨scan_directive_location⟩⟩ Q s.
Proof. intros Hok. apply wp_reads_unit; [done|]. apply scan_directive_location_parses, Hok. Qed.

Lemma s_take_errors (Q : unit → GraphQlSchema → Prop) s :
  schema_ok s → (∀ a s', reads s s' → Q a s') → safe ⟨take_errors_from_scanner⟩ Q s.
Proof. intros Hok. apply wp_reads_unit; [done|]. apply take_errors_from_scanner_parses, Hok. Qed.

Lemma s_parse_directives l parent (Q : std_map ustring Directive → GraphQlSchema → Prop) s :
  schema_ok s → parent_ok (heap s) parent → (∀ a s', reads s s' → Q a s') →
  safe ⟨parse_directives l parent⟩ Q s.
Proof.
  intros Hok Hpar. apply wp_reads_unit; [done|]. apply parse_directives_parses; [apply Hok|].
  intros d Hd _. unfold directive_ok. by rewrite Hd.
Qed.

Lemma s_get_token_value (Q : ustring → GraphQlSchema → Prop) s :
  (∀ v, Q v s) → safe ⟨get_token_value⟩ Q s.
Proof. intros HQ. apply (wp_pure _ (λ _, True)); [|auto]. intros; apply get_token_value_parses; auto. Qed.

Lemma s_get_string_value (Q : ustring → GraphQlSchema → Prop) s :
  (∀ v, Q v s) → safe ⟨get_string_value⟩ Q s.
Proof.
  intros HQ. apply (wp_pure _ (λ _, True)); [|auto]. intros K HK. unfold get_string_value.
  wp_step. auto.
Qed.

Lemma s_token_string token (Q : ustring → GraphQlSchema → Prop) s :
  (∀ v, Q v s) → safe ⟨token_string token⟩ Q s.
Proof. intros HQ. apply (wp_pure _ (λ _, True)); [|auto]. intros; apply token_string_parses; auto. Qed.

Lemma s_CreateSyntax k (Q : Syntax → GraphQlSchema → Prop) s :
  (∀ v, Q v s) → safe ⟨CreateSyntax k⟩ Q s.
Proof. intros HQ. apply (wp_pure _ (λ _, True)); [|auto]. intros; apply CreateSyntax_parses; auto. Qed.

Lemma s_FinishSyntax x (Q : Syntax → GraphQlSchema → Prop) s :
  (∀ v, Q v s) → safe ⟨FinishSyntax x⟩ Q s.
Proof. intros HQ. apply (wp_pure _ (λ _, True)); [|auto]. intros; apply FinishSyntax_parses; auto. Qed.

Lemma s_create_name v (Q : Name → GraphQlSchema → Prop) s :
  (∀ n, identifier n = v → Q n s) → safe ⟨create_name v⟩ Q s.
Proof.
  intros HQ. apply (wp_pure _ (λ n, identifier n = v)); [|auto].
  intros; apply create_name_parses; auto.
Qed.

Lemma s_get_location x (Q : Location → GraphQlSchema → Prop) s :
  schema_ok s → (∀ l, Q l s) → safe ⟨get_location_from_syntax x⟩ Q s.
Proof.
  intros Hok HQ. apply (wp_pure _ (λ _, True)); [|auto].
  intros K HK. eapply get_location_parses; [apply Hok|auto].
Qed.

(** Members of the base class are assigned. *)
Lemma s_modify f (Q : unit → GraphQlSchema → Prop) s :
  schema_ok s → (∀ p, scanner (f p) = scanner p ∧ directives (f p) = directives p
    ∧ diagnostics (f p) = diagnostics p ∧ directive_definitions (f p) = directive_definitions p) →
  (∀ a s', reads s s' → Q a s') → safe ⟨modify f⟩ Q s.
Proof.
  intros Hok Hf. apply wp_reads_unit; [done|]. wp_step.
  destruct (Hf (parser s)) as (? & ? & Hd & ?).
  apply parses_member; try done; [apply Hok|by rewrite Hd].
Qed.

(** A look-ahead that may be taken back. *)
Lemma s_save_take {B} (k : GraphQlToken.t → M GraphQlSchema B) (Q : B → GraphQlSchema → Prop) s :
  schema_ok s →
  (∀ token s', reads s s' →
    (token ≠ GraphQlToken.EndOfDocument → (at_ s < at_ s')%nat) →
    (∀ K : unit → GraphQlSchema → Prop, (∀ s'', reads s s'' → K tt s'') →
      safe ⟨⟨revert⟩⟩ K s') →
    safe (k token) Q s') →
  safe (⟨⟨save⟩⟩;; token ← ⟨TakeNextToken⟩; k token) Q s.
Proof.
  intros Hok HQ. pose proof (so_parser _ _ Hok) as Hp. pose proof (parser_ok_scanner _ _ _ Hp).
  do 3 wp_step. apply save_spec. cbv beta. wp_step. unfold TakeNextToken, take_next_token.
  do 2 wp_step.
  apply (wp_weaken_ub _ (ends_with_cr (saved (scanner (parser s)))));
    [intros Hcr; by apply (parser_ok_ub _ _ _ Hp), saved_ends_with_cr|].
  eapply wp_mono; [apply (take_next_token_spec (λ _ _, False)); by apply saved_ok| |done].
  intros token sc [Ht Hlt]. change (takes (saved (scanner (parser s))) sc) in Ht.
  match goal with |- wp _ _ _ _ ?st =>
    change st with (set_parser (set_scanner sc (parser s)) s) end.
  apply HQ; clear HQ.
  - apply builds_parser; [done|]. apply parses_advances; [done|].
    transitivity (saved (scanner (parser s))); [by apply saved_advances|by apply takes_advances].
  - simpl in *. naive_solver.
  - intros K HK. do 2 wp_step. eapply wp_mono; [by apply (revert_spec (λ _ _, False))| |done].
    intros [] sc' Hsame. apply HK. apply (builds_parser _ s (set_scanner sc' (parser s))); [done|].
    apply parses_advances; [done|]. by apply same_cursor_advances.
Qed.
End rules.

(** ** Automation *)

#[export] Hint Resolve reads_ok builds_ok reads_builds : flash.

(** What is known of the heap follows it. *)
Ltac carry_reads Hr s s' :=
  let Hh := fresh "Hh" in
  pose proof (reads_heap _ _ _ Hr) as Hh;
  repeat match goal with
  | H : context [heap s] |- _ =>
      lazymatch type of H with heap s' = heap s => fail | _ => rewrite <- Hh in H end
  end; clear Hh;
  let Hs := fresh "Hs" in
  pose proof (reads_symbols _ _ _ Hr) as Hs;
  repeat match goal with
  | H : fresh s ?p |- _ => unfold fresh in H; rewrite <- Hs in H; change (fresh s' p) in H
  end; clear Hs.

Ltac carry_builds Hb :=
  let Hle := fresh "Hle" in
  pose proof (builds_heap _ _ _ Hb) as Hle;
  repeat match goal with
  | H : type_at _ ?p |- _ => apply (type_at_mono _ _ Hle) in H
  | H : named_at _ _ _ _ |- _ => apply (named_at_mono _ _ Hle) in H
  | H : parent_ok _ _ |- _ => apply (parent_ok_mono _ _ Hle) in H
  | H : reference_at _ _ |- _ => apply (reference_at_mono _ _ Hle) in H
  | H : object_at _ _ |- _ => apply (object_at_mono _ _ Hle) in H
  | H : class_at _ _ _ |- _ => apply (class_at_mono _ _ Hle) in H
  | H : Forall (argument_ok _) _ |- _ => apply (arguments_ok_mono _ _ Hle) in H
  | H : Forall (field_ok _) _ |- _ => apply (fields_ok_mono _ _ Hle) in H
  | H : Forall (input_field_ok _) _ |- _ => apply (input_fields_ok_mono _ _ Hle) in H
  end; clear Hle.

(** The side conditions of the rules. *)
Ltac side := solve [done | eauto with flash].

Ltac reading :=
  let a := fresh "a" in let s' := fresh "s" in let Hr := fresh "Hr" in
  intros a s' Hr;
  match type of Hr with reads _ ?s _ => carry_reads Hr s s' end;
  try intros ?.

(** Assignments to members of the base class. *)
Ltac members :=
  eapply wp_reads_unit;
    [side|repeat wp_step; (eapply parses_member; [apply so_parser; side|done..])|reading].

(** Use what the branch taken says. *)
Ltac tidy :=
  repeat match goal with
  | H : negb _ = true |- _ => apply negb_true_iff in H
  | H : negb _ = false |- _ => apply negb_false_iff in H
  | H : ?b = true → _, H' : ?b = true |- _ => specialize (H H')
  | H : ¬ (?x ≠ ?y) |- _ => apply dec_stable in H
  | H : ?token ≠ GraphQlToken.EndOfDocument → _ |- _ => specialize (H ltac:(congruence))
  end.

(** One step through an operation of the schema parser. *)
Ltac schema_step :=
  lazymatch goal with
  | |- wp _ (zoom (take_next_token _ _)) _ _ _ => eapply s_take; [side|reading]
  | |- wp _ (zoom TakeNextToken) _ _ _ => eapply s_TakeNextToken; [side|reading]
  | |- wp _ (zoom (expect _)) _ _ _ => eapply s_expect; [side|done|reading]
  | |- wp _ (zoom (scan_optional _)) _ _ _ => eapply s_scan_optional; [side|done|reading]
  | |- wp _ (zoom (scan_expected_template _ _ _)) _ _ _ =>
      eapply s_scan_expected_template; [side|done|reading]
  | |- wp _ (zoom (add_diagnostic _ _)) _ _ _ => eapply s_add_diagnostic; [side|reading]
  | |- wp _ (zoom (add_diagnostic_at _ _ _)) _ _ _ => eapply s_add_diagnostic_at; [side|reading]
  | |- wp _ (zoom (skip_to _)) _ _ _ => eapply s_skip_to; [side|reading]
  | |- wp _ (zoom skip_to_next_primary_token) _ _ _ =>
      eapply s_skip_to_next_primary_token; [side|reading]
  | |- wp _ (zoom (zoom skip_block)) _ _ _ => eapply s_skip_block; [side|reading]
  | |- wp _ (zoom (zoom scan_directive_location)) _ _ _ =>
      eapply s_scan_directive_location; [side|reading]
  | |- wp _ (zoom take_errors_from_scanner) _ _ _ => eapply s_take_errors; [side|reading]
  | |- wp _ (zoom (parse_directives _ _)) _ _ _ => eapply s_parse_directives; [side|side|reading]
  | |- wp _ (zoom get_token_value) _ _ _ => apply s_get_token_value; intros ?
  | |- wp _ (zoom get_string_value) _ _ _ => apply s_get_string_value; intros ?
  | |- wp _ (zoom (token_string _)) _ _ _ => apply s_token_string; intros ?
  | |- wp _ (zoom (CreateSyntax _)) _ _ _ => apply s_CreateSyntax; intros ?
  | |- wp _ (zoom (FinishSyntax _)) _ _ _ => apply s_FinishSyntax; intros ?
  | |- wp _ (zoom (create_name _)) _ _ _ => apply s_create_name; intros ? ?
  | |- wp _ (zoom (get_location_from_syntax _)) _ _ _ => eapply s_get_location; [side|intros ?]
  | |- wp _ (zoom (modify _)) _ _ _ => members
  | |- wp _ (zoom (modify _ ≫= _)) _ _ _ => members
  | |- wp _ (zoom (when _ _)) _ _ _ => members
  | |- wp _ (if decide ?P then _ else _) _ _ _ => destruct (decide P)
  | |- wp _ (zoom _) _ _ _ => fail
  | _ => wp_step
  end; tidy.

(** Give a sub-program a postcondition of its own. *)
Ltac join P :=
  lazymatch goal with
  | |- wp _ (_ ≫= _) _ _ _ => apply wp_bind
  | _ => idtac
  end; apply (wp_mono _ _ P _ (λ e _, parse_exn e)); [|cbv beta|by intros].

(** Chains of [builds] and [reads], and the arithmetic of the cursor. *)
Ltac builds_chain :=
  repeat match goal with
  | |- builds _ ?s ?s => apply builds_refl; side
  | |- reads _ ?s ?s => apply reads_refl; side
  | H : builds _ ?s ?s' |- builds _ ?s ?s' => exact H
  | H : reads _ ?s ?s' |- builds _ ?s ?s' => exact (reads_builds _ _ _ H)
  | H : reads _ ?s ?s' |- reads _ ?s ?s' => exact H
  | H : builds _ ?t ?s' |- builds _ _ ?s' => transitivity t; [|exact H]; clear H
  | H : reads _ ?t ?s' |- builds _ _ ?s' => transitivity t; [|exact (reads_builds _ _ _ H)]; clear H
  | H : reads _ ?t ?s' |- reads _ _ ?s' => transitivity t; [|exact H]; clear H
  end.

Ltac heap_same :=
  first
    [ congruence
    | repeat match goal with
      | H : reads _ ?t ?s |- context [heap ?s] => rewrite (reads_heap _ _ _ H); clear H
      end; congruence ].

Ltac builds_arith :=
  repeat match goal with
  | H : reads _ _ _ |- _ => apply reads_builds in H
  | H : builds _ ?s ?s' |- _ => pose proof (builds_le _ _ _ H); clear H
  end; simpl in *; lia.

Ltac schema_done :=
  tidy; repeat match goal with |- _ ∧ _ => split end;
  try intros ?; first [done | by builds_chain | builds_arith | side].
