(* ===== verification/FieldSafety.v ===== *)
(** * Types, arguments and fields are parsed safely

    The operations of the schema parser below a declaration: type annotations,
    argument definitions, and the fields of objects, interfaces and input
    objects. *)
From S2P Require Import Prelude Monad Character Cstring Diagnostic StdMap Syntaxes.
From S2P Require Import TextWriter Scanner ScannerSpec Parser ParserSpec Schema.
From S2P Require Import ValueSafety SchemaInvariant SchemaRules.

Section fields.
Context (ub : Prop).
Local Abbreviation builds := (builds ub).
Local Abbreviation reads := (reads ub).
Local Abbreviation schema_ok := (schema_ok ub).
Local Abbreviation safe m Q s := (wp ub m Q (λ e _, parse_exn e) s).

(** ** Type annotations *)

Ltac updating :=
  match goal with
  | Hp : heap ?s !! ?p = Some (NType ?t) |- wp _ (update_type ?p _) _ _ ?s =>
      eapply wp_update_type; [side|exact Hp|
        unfold type_le, type_valid in *; simpl in *; by naive_solver|];
      let s' := fresh "s" in let Hb := fresh "Hb" in
      intros s' Hb _; clear Hp; intros Hp; carry_builds Hb
  | Hp : heap ?s !! ?p = Some (NType ?t) |- wp _ (read_type ?p) _ _ ?s =>
      eapply wp_read_type; [exact Hp|]
  end.

(** From the [!] after the name of a type to the end of the annotation. *)
Lemma finish_type_spec s0 s p t :
  builds s0 s → (at_ s0 < at_ s)%nat → heap s !! p = Some (NType t) → type_valid t →
  safe (non_null ← ⟨scan_optional GraphQlToken.Exclamation⟩;
    update_type p (set_is_non_null non_null);;
    t ← read_type p;
    closed ← (if is_list_type t then
        bracket ← ⟨expect GraphQlToken.CloseBracket⟩;
        if (bracket : bool) then
          non_null_list ← ⟨scan_optional GraphQlToken.Exclamation⟩;
          update_type p (set_is_non_null_list non_null_list);;
          mret true
        else mret false
      else mret true);
    if negb closed then mret None else
    t ← read_type p;
    syntax ← ⟨FinishSyntax (type_syntax t)⟩;
    update_type p (set_type_syntax syntax);;
    mret (Some p))
    (λ r s', builds s0 s' ∧
      ∀ p, r = Some p → type_at (heap s') p ∧ (at_ s0 < at_ s')%nat) s.
Proof.
  intros Hb Hlt Hp Hv. repeat first [updating | schema_step].
  all: split; [by builds_chain|]; intros q Hq; simplify_eq.
  all: split; [|builds_arith]; eexists; split; [eassumption|exact Hv].
Qed.

Ltac finishing :=
  lazymatch goal with
  | Hp : heap ?s1 !! ?p = Some (NType ?t)
    |- wp _ (modify (λ s, set_forward_type_references _ s)) _ _ ?s1 =>
      assert (reference_at (heap s1) p)
        by (eexists; split_and!; [exact Hp|done|by simpl; subst]);
      pose proof (builds_forward _ s1 p ltac:(side) ltac:(done)); apply wp_modify
  | |- wp _ (zoom (scan_optional GraphQlToken.Exclamation)) _ _ _ =>
      apply wp_unbind; eapply finish_type_spec;
        [by builds_chain|builds_arith|eassumption|done]
  end.

Lemma parse_type_annotation_spec b parent s :
  schema_ok s → parent_ok (heap s) parent →
  safe (parse_type_annotation b parent) (λ r s', builds s s' ∧
    ∀ p, r = Some p → type_at (heap s') p ∧ (at_ s < at_ s')%nat) s.
Proof.
  intros Hok Hpar. unfold parse_type_annotation. repeat schema_step.
  eapply wp_alloc; [side|done|]. intros s1 Hb1 Heq1.
  assert (Hp : heap s1 !! length (heap s0) = Some (NType (new_Type v))).
  { rewrite Heq1. simpl. by apply list_lookup_middle. }
  generalize dependent (length (heap s0)). intros p Hp. carry_builds Hb1. clear Heq1.
  do 2 (schema_step; updating).
  schema_step.
  match goal with |- wp _ (if _ then _ else _) ?Q _ _ =>
    assert (Hmid : ∀ token s4 t, builds s s4 →
      (token ≠ GraphQlToken.EndOfDocument → (at_ s < at_ s4)%nat) →
      heap s4 !! p = Some (NType t) → type_name t = None → type_parent t = parent →
      type t = T_None → parent_ok (heap s4) parent → Q token s4) end.
  { clear -Hok. intros token s4 t Hb Hlt Hp Hn Hpt Hv Hpar. cbv beta.
    assert (Hvalid : ¬ type_valid t) by (unfold type_valid; rewrite Hv; tauto).
    destruct token; try specialize (Hlt ltac:(done)).
    all: repeat first [updating | finishing | schema_step]; try schema_done.
  }
  schema_step.
  - schema_step. updating. schema_step.
    eapply Hmid; [by builds_chain|intros _|exact Hp|done..|done]. builds_arith.
  - schema_step. eapply Hmid; [by builds_chain|intros Ha|exact Hp|done..|done].
    specialize (H Ha). builds_arith.
Qed.

(** ** Definitions inside declarations *)

Ltac typing r s' Ht :=
  wp_call parse_type_annotation_spec; [side|side| |by intros];
  let Hb := fresh "Hb" in intros r s' [Hb Ht]; carry_builds Hb.

Lemma parse_arguments_definition_spec parent s :
  schema_ok s → parent_ok (heap s) parent →
  safe (parse_arguments_definition_after_open_paren parent) (λ r s', builds s s' ∧
    Forall (argument_ok (heap s')) r) s.
Proof.
  intros Hok Hpar. unfold parse_arguments_definition_after_open_paren.
  apply (wp_schema_loop _ (λ arguments s',
    builds s s' ∧ parent_ok (heap s') parent ∧ Forall (argument_ok (heap s')) arguments)).
  { split_and!; [by apply builds_refl|done|constructor]. }
  intros arguments s1 (Hb1 & Hpar1 & Hargs). clear Hpar.
  schema_step. schema_step. schema_step.
  { repeat schema_step. schema_done. }
  schema_step. schema_step. schema_step. schema_step. schema_step.
  destruct a; repeat schema_step; try schema_done.
  typing r st Ht. repeat schema_step; [schema_done|]. split; [|builds_arith].
  split_and!; [by builds_chain|done|]. apply Forall_emplace; [|done].
  split; [done|]. simpl. intros p Hp. by apply Ht.
Qed.

(** The fields collected so far. *)
Definition fields_so_far (s s' : GraphQlSchema) (l : FieldsLoop) : Prop :=
  builds s s' ∧ Forall (field_ok (heap s')) (fl_fields l).

Lemma parse_field_definition_spec s l :
  schema_ok s → Forall (field_ok (heap s)) (fl_fields l) →
  safe (parse_field_definition l) (λ r s', builds s s' ∧
    match r with
    | inl l' => Forall (field_ok (heap s')) (fl_fields l')
    | inr o => o = None
    end) s.
Proof.
  intros Hok Hl. unfold parse_field_definition. schema_step. schema_step.
  schema_step. schema_step. schema_step.
  join (λ (_ : unit) s', reads s s').
  { repeat schema_step; schema_done. }
  reading. do 4 schema_step.
  join (λ args s', builds s s' ∧ Forall (field_ok (heap s')) (fl_fields l)
    ∧ Forall (argument_ok (heap s')) args).
  { schema_step; [|schema_step; split_and!; [by builds_chain|done|constructor]].
    wp_call parse_arguments_definition_spec; [side|done| |by intros].
    intros args s2 [Hb Hargs]. carry_builds Hb. split_and!; [by builds_chain|done..]. }
  intros args s2 (Hb & Hl2 & Hargs). clear Hl.
  repeat schema_step; [schema_done|]. typing r st Ht. destruct r as [t|]; repeat schema_step; [|schema_done].
  destruct (Ht t eq_refl) as [Ht' _]. split; [by builds_chain|].
  apply Forall_emplace; [|done]. by split_and!.
Qed.

(** The fields of a definition, when it has any. *)
Definition fields_parsed (s : GraphQlSchema) (r : option (std_map ustring FieldDefinition))
    (s' : GraphQlSchema) : Prop :=
  builds s s' ∧ ∀ m, r = Some m → Forall (field_ok (heap s')) m.

Lemma parse_fields_after_open_brace_spec s :
  schema_ok s → safe parse_fields_definition_after_open_brace (fields_parsed s) s.
Proof.
  intros Hok. unfold parse_fields_definition_after_open_brace.
  apply (wp_schema_loop _ (λ l s', builds s s' ∧ Forall (field_ok (heap s')) (fl_fields l))).
  { split; [by apply builds_refl|constructor]. }
  intros l s1 [Hb1 Hl]. schema_step. schema_step.
  destruct a; repeat schema_step.
  all: try (split; [by builds_chain|]; intros m Hm; by simplify_eq).
  all: try schema_done.
  eapply wp_mono; [apply parse_field_definition_spec; [side|done]| |by intros].
  intros [l'|o] s2 [Hb2 Hl']; [schema_done|].
  split; [by builds_chain|]. intros m Hm. by simplify_eq.
Qed.

Lemma parse_fields_definition_spec s :
  schema_ok s → safe parse_fields_definition (fields_parsed s) s.
Proof.
  intros Hok. unfold parse_fields_definition.
  repeat schema_step; [split; [by builds_chain|done]|].
  eapply wp_mono; [apply parse_fields_after_open_brace_spec; side| |by intros].
  intros r s1 [Hb1 Hr1]. split; [by builds_chain|done].
Qed.

Definition input_fields_parsed (s : GraphQlSchema)
    (r : option (std_map ustring InputFieldDefinition)) (s' : GraphQlSchema) : Prop :=
  builds s s' ∧ ∀ m, r = Some m → Forall (input_field_ok (heap s')) m.

Lemma parse_input_field_definition_spec object m x s :
  schema_ok s → class_at (heap s) object S_InputObject → Forall (input_field_ok (heap s)) m →
  safe (parse_input_field_definition object m x) (λ r s', builds s s' ∧
    match r with
    | inl (m', _) => Forall (input_field_ok (heap s')) m'
    | inr o => o = None
    end) s.
Proof.
  intros Hok Hobj Hm. unfold parse_input_field_definition. repeat schema_step; [schema_done|].
  typing r st Ht. destruct r as [t|]; [|repeat schema_step; schema_done].
  destruct (Ht t eq_refl) as [Hty _]. destruct Hty as (ty & Hty & Hv).
  schema_step. eapply wp_read_type; [done|].
  assert (Hta : type_at (heap st) t) by by exists ty. clear Ht.
  join (λ (_ : unit) s', builds st s').
  { schema_step; [|schema_done]. eapply wp_update_class; [side|done| |].
    - intros b Hk. by destruct b.
    - intros s3 Hb3 _. schema_done. }
  intros _ s3 Hb3. carry_builds Hb3. repeat schema_step. split; [by builds_chain|].
  apply Forall_emplace; [|done]. by split.
Qed.

Lemma parse_input_fields_definition_spec object s :
  schema_ok s → class_at (heap s) object S_InputObject →
  safe (parse_input_fields_definition object) (input_fields_parsed s) s.
Proof.
  intros Hok Hobj. unfold parse_input_fields_definition.
  repeat schema_step; [split; [by builds_chain|done]|].
  apply (wp_schema_loop _ (λ '(m, _) s', builds s s' ∧ class_at (heap s') object S_InputObject
    ∧ Forall (input_field_ok (heap s')) m)).
  { split_and!; [by builds_chain|done|constructor]. }
  intros [m b] s1 (Hb1 & Hobj1 & Hm). clear Hobj. repeat schema_step.
  destruct a0; repeat schema_step.
  all: try (split; [by builds_chain|]; intros m' Hm'; by simplify_eq).
  all: try schema_done.
  eapply wp_mono; [apply parse_input_field_definition_spec; [side|done|done]| |by intros].
  intros [[m' b']|o] s3 [Hb3 Hm'].
  - carry_builds Hb3. schema_done.
  - split; [by builds_chain|]. intros m' Hm''. by simplify_eq.
Qed.
End fields.
