(* ===== verification/SchemaSafety.v ===== *)
(** * The parse phase of the schema parser is safe

    Whatever the document, the parse phase of [GraphQlSchema] terminates within
    its fuel, reads no null pointer and no node at a class it does not have,
    reads inside the source unless the source ends with a carriage return, and
    keeps the invariant of SchemaInvariant.v. *)
From S2P Require Import Prelude Monad Character Cstring Diagnostic StdMap Syntaxes.
From S2P Require Import TextWriter Scanner ScannerSpec Parser ParserSpec Schema.
From S2P Require Import ValueSafety SchemaInvariant SchemaRules FieldSafety.

Section declarations.
Context (ub : Prop).
Local Abbreviation builds := (builds ub).
Local Abbreviation reads := (reads ub).
Local Abbreviation schema_ok := (schema_ok ub).
Local Abbreviation safe m Q s := (wp ub m Q (λ e _, parse_exn e) s).

(** ** Names and symbols *)

(** A name is registered, or diagnosed as a duplicate. *)
Lemma register_symbol_spec name p k s :
  schema_ok s →
  safe (register_symbol name p k) (λ _ s',
    s' = set_symbols (emplace (identifier name) (mkSymbol (identifier name) p k) (symbols s)) s
    ∨ builds s s' ∧ heap s' = heap s) s.
Proof.
  intros Hok. unfold register_symbol. do 2 schema_step.
  destruct (find (identifier name) (symbols s)) as [result|] eqn:Hf.
  2:{ unfold add_symbol. wp_step. by left. }
  destruct (so_symbols _ _ Hok _ _ Hf) as (_ & d & n & Hd & Hn & _).
  do 7 schema_step.
  { schema_step. right. split; [by builds_chain|heap_same]. }
  schema_step. eapply wp_read_decl_name; [done..|]. repeat schema_step.
  match goal with |- context [set_duplicate_symbols (?x :: _) ?t] =>
    pose proof (builds_duplicate ub t x ltac:(side)) as Hdup; set (t' := t) in * end.
  right. split; [by builds_chain|]. simpl. heap_same.
Qed.

(** The declaration [p], with members [d], is given its name. *)
Definition named (p : ptr) (d : Declaration) (name : Name) (s : GraphQlSchema) : GraphQlSchema :=
  set_heap (<[p := NDecl (set_decl_name (Some name) d)]> (heap s)) s.

Lemma builds_named s p d name :
  schema_ok s → heap s !! p = Some (NDecl d) → decl_name d = None → builds s (named p d name s).
Proof.
  intros Hok Hp Hn. apply builds_heap_only; [done|..].
  - eapply heap_le_insert; [done|]. split_and!; try done. simpl. by rewrite Hn.
  - eapply heap_ok_insert; [apply Hok|done| |].
    + split_and!; try done. simpl. by rewrite Hn.
    + intros d' [= <-]. exact (proj1 (so_heap _ _ Hok _ _ Hp)).
Qed.

Lemma wp_assign_name p d name (Q : unit → GraphQlSchema → Prop) s :
  heap s !! p = Some (NDecl d) → Q tt (named p d name s) → safe (assign_name p name) Q s.
Proof.
  intros Hp HQ. unfold assign_name, update_decl. wp_step. eapply wp_read_decl; [done|]. by wp_step.
Qed.

Lemma named_lookup p d name s :
  heap s !! p = Some (NDecl d) →
  heap (named p d name s) !! p = Some (NDecl (set_decl_name (Some name) d)).
Proof. intros Hp. simpl. apply list_lookup_insert_eq. by eapply lookup_lt_Some. Qed.

(** Registering a name before it is assigned, as objects, interfaces and
    input objects do. *)
Lemma register_then_assign name p d k s s' :
  schema_ok s → heap s !! p = Some (NDecl d) → decl_name d = None →
  body_symbol (body d) = k → k ≠ SL_None →
  (s' = set_symbols (emplace (identifier name) (mkSymbol (identifier name) p k) (symbols s)) s
    ∨ builds s s' ∧ heap s' = heap s) →
  builds s (named p d name s').
Proof.
  intros Hok Hp Hn Hk Hne [->|[Hb Hh]].
  - pose proof (builds_named s p d name Hok Hp Hn) as Hb. transitivity (named p d name s); [done|].
    apply (builds_symbol _ (named p d name s)); [by eapply builds_ok|]. split; [done|].
    exists (set_decl_name (Some name) d), name. split_and!; try done. by apply named_lookup.
  - transitivity s'; [done|]. apply builds_named; [by eapply builds_ok|by rewrite Hh|done].
Qed.

(** The name of a declaration is parsed, registered and assigned. *)
Definition declared (p : ptr) (d : Declaration) (s : GraphQlSchema) (ok : bool)
    (s' : GraphQlSchema) : Prop :=
  builds s s' ∧ (ok = true → (at_ s < at_ s')%nat ∧ ∃ d' n,
    heap s' !! p = Some (NDecl d') ∧ body d' = body d ∧ decl_name d' = Some n).

Lemma assign_description_spec p d s :
  schema_ok s → heap s !! p = Some (NDecl d) →
  safe (assign_description p) (λ _ s', builds s s' ∧ at_ s' = at_ s ∧ ∃ d',
    heap s' !! p = Some (NDecl d') ∧ body d' = body d ∧ decl_name d' = decl_name d) s.
Proof.
  intros Hok Hp. unfold assign_description. repeat schema_step.
  - eapply wp_update_decl; [done|done|by split_and!|exact (proj1 (so_heap _ _ Hok _ _ Hp))|].
    intros s' Hb -> Hp'. split_and!; [done|done|]. eexists. by split_and!.
  - split_and!; [by apply builds_refl|done|]. by exists d.
Qed.

(** The result of [parse_object_name] and [parse_input_object_name]: the name
    is registered for [p] and not assigned yet. *)
Definition name_parsed (p : ptr) (k : SymbolKind) (s : GraphQlSchema) (r : option Name)
    (s' : GraphQlSchema) : Prop :=
  match r with
  | None => reads s s'
  | Some n => ∃ t, reads s t ∧ (at_ s < at_ t)%nat ∧
      (s' = set_symbols (emplace (identifier n) (mkSymbol (identifier n) p k) (symbols t)) t
       ∨ builds t s' ∧ heap s' = heap t)
  end.

Lemma parse_object_name_spec p k s :
  schema_ok s → safe (parse_object_name p k) (name_parsed p k s) s.
Proof.
  intros Hok. unfold parse_object_name. repeat schema_step; [done|].
  wp_call register_symbol_spec; [side| |by intros]. intros _ s2 Hreg. schema_step. by exists s0.
Qed.

Lemma parse_input_object_name_spec p s :
  schema_ok s → safe (parse_input_object_name p) (name_parsed p SL_InputObject s) s.
Proof.
  intros Hok. unfold parse_input_object_name. repeat schema_step; [done|].
  wp_call register_symbol_spec; [side| |by intros]. intros _ s2 Hreg. schema_step. by exists s0.
Qed.

Lemma name_declaration_spec p d k parse_name s :
  schema_ok s → heap s !! p = Some (NDecl d) → decl_name d = None →
  body_symbol (body d) = k → k ≠ SL_None →
  safe parse_name (name_parsed p k s) s →
  safe (name_declaration p parse_name) (declared p d s) s.
Proof.
  intros Hok Hp Hn Hk Hne Hparse. unfold name_declaration. wp_step.
  eapply wp_mono; [exact Hparse| |by intros]. intros [n|] s' Hr; simpl in Hr; wp_step.
  - destruct Hr as (t & Hr & Hlt & Hreg). carry_reads Hr s t.
    assert (Hb : builds t (named p d n s'))
      by by eapply register_then_assign; [side|..].
    assert (Hp' : heap s' !! p = Some (NDecl d)) by by destruct Hreg as [->|[_ ->]].
    eapply wp_assign_name; [done|].
    wp_call assign_description_spec; [side|by apply named_lookup| |by intros].
    intros _ s2 (Hb2 & Hat & d' & Hd' & Hbody & Hname). wp_step.
    split; [builds_chain|]. intros _. split; [builds_arith|]. exists d', n. by split_and!.
  - carry_reads Hr s s'. wp_step.
    wp_call assign_description_spec; [side|done| |by intros].
    intros _ s2 (Hb2 & _). wp_step. split; [builds_chain|done].
Qed.

(** ** Interfaces and objects *)

(** The result of a definition: the declaration, in the heap. *)
Definition defined (s : GraphQlSchema) (r : option ptr) (s' : GraphQlSchema) : Prop :=
  builds s s' ∧ ∀ p, r = Some p → ∃ d, heap s' !! p = Some (NDecl d).

Lemma class_at_named h p d k name :
  h !! p = Some (NDecl d) → body_kind (body d) = k → decl_name d = Some name →
  named_at h p k (identifier name).
Proof. intros. by exists d, name. Qed.

Lemma parse_interface_definition_spec s :
  schema_ok s → safe parse_interface_definition (defined s) s.
Proof.
  intros Hok. unfold parse_interface_definition. wp_step.
  eapply wp_create_declaration; [done|done|done|]. intros p x s1 Hb1 Hp Hfresh _.
  wp_call name_declaration_spec; [side|exact Hp|done|done|done| | |by intros].
  { apply parse_object_name_spec. side. }
  intros ok s2 [Hb2 Hd]. repeat schema_step; [split; [by builds_chain|done]|].
  destruct Hd as (_ & d & n & Hp2 & Hbody & Hn).
  assert (Hnamed : named_at (heap s0) p S_Interface (identifier n))
    by (eapply class_at_named; [done|by rewrite Hbody|done]).
  assert (Hclass : class_at (heap s0) p S_Interface) by (exists d; by rewrite Hbody). clear Hp2.
  eapply wp_update_class; [side|exact Hclass|by intros []|].
  intros s3 Hb3 _. carry_builds Hb3. wp_call parse_fields_definition_spec; [side| |by intros].
  intros r s4 [Hb4 Hr4]. carry_builds Hb4.
  schema_step. eapply wp_update_class; [side|exact Hclass|by intros []|].
  intros s5 Hb5 _. carry_builds Hb5. schema_step.
  destruct Hnamed as (d5 & n5 & Hp5 & Hk5 & Hn5 & Hi5).
  eapply wp_read_decl_name; [done..|]. repeat schema_step.
  pose proof (builds_interface ub s5 (identifier n5) p ltac:(side)) as Hb6.
  split; [transitivity s5; [by builds_chain|]|].
  - apply Hb6. by exists d5, n5.
  - intros q [= <-]. by exists d5.
Qed.

Lemma parse_implementations_spec s :
  schema_ok s → safe parse_implementations (λ _ s', builds s s' ∧ heap s' = heap s) s.
Proof.
  intros Hok. unfold parse_implementations. schema_step. schema_step.
  apply (wp_schema_loop _ (λ _ s', builds s s' ∧ heap s' = heap s)).
  { split; [by apply builds_refl|done]. }
  intros impls s1 [Hb1 Hh1]. do 2 schema_step. schema_step.
  { repeat schema_step. split; [by builds_chain|heap_same]. }
  schema_step; [repeat schema_step; split; [by builds_chain|heap_same]|].
  do 6 schema_step.
  join (λ (_ : unit) s', builds s0 s' ∧ heap s' = heap s0).
  { destruct (find _ _); repeat schema_step.
    - split; [by builds_chain|heap_same].
    - split; [apply builds_refl; side|done].
    - split; [|done]. apply builds_forward_interface. side. }
  intros _ s2 [Hb2 Hh2]. repeat schema_step. destruct a0; repeat schema_step.
  all: try (split; [by builds_chain|]; heap_same).
  all: tidy; split_and!; try builds_arith; [by builds_chain|].
  all: heap_same.
Qed.

Lemma parse_object_spec s : schema_ok s → safe parse_object (defined s) s.
Proof.
  intros Hok. unfold parse_object. wp_step.
  eapply wp_create_declaration; [done|done|done|]. intros p x s1 Hb1 Hp Hfresh _.
  wp_call name_declaration_spec; [side|exact Hp|done|done|done| | |by intros].
  { apply parse_object_name_spec. side. }
  intros ok s2 [Hb2 Hd]. schema_step; [schema_step; split; [by builds_chain|done]|].
  destruct Hd as (_ & d & n & Hp2 & Hbody & Hn).
  assert (Hno : ¬ implements (body d)) by (rewrite Hbody; intros Him; by apply Him).
  schema_step. schema_step. schema_step.
  eapply wp_update_body; [side|exact Hp2|by rewrite Hbody|done|by rewrite Hbody|].
  intros s3 Hb3 _ Hp3. clear Hp2. rewrite Hbody in Hp3. do 4 schema_step.
  - wp_call parse_implementations_spec; [side| |by intros]. intros impls s5 [Hb5 Hh5].
    rewrite <- Hh5 in Hp3. schema_step.
    eapply wp_update_body; [side|exact Hp3|done|intros Him; by destruct Him|done|].
    intros s6 Hb6 _ Hp6. destruct impls as [i|].
    2:{ rewrite decide_True by done. schema_step. split; [by builds_chain|done]. }
    rewrite decide_False by done.
    assert (Hobj : object_at (heap s6) p) by (eexists; split_and!; [exact Hp6|done|simpl; congruence]).
    schema_step. wp_call parse_fields_after_open_brace_spec; [side| |by intros].
    intros r s7 [Hb7 Hr7]. carry_builds Hb7. schema_step.
    eapply wp_update_class; [side|by apply object_at_class|by intros []|].
    intros s8 Hb8 _. carry_builds Hb8. schema_step. schema_step.
    pose proof (builds_object ub s8 p ltac:(side) Hobj) as Hb9.
    unfold finish_object. schema_step. split; [transitivity s8; [by builds_chain|done]|].
    intros q Hq. destruct Hobj as (d8 & ? & _). destruct r; simplify_eq. by exists d8.
  - assert (Hclass : class_at (heap s4) p S_Object) by (eexists; by split). clear Hp3.
    wp_call parse_fields_definition_spec; [side| |by intros].
    intros r s7 [Hb7 Hr7]. carry_builds Hb7. schema_step.
    eapply wp_update_class; [side|done|by intros []|].
    intros s8 Hb8 _. carry_builds Hb8. unfold finish_object. schema_step.
    split; [by builds_chain|]. intros q Hq. destruct Hclass as (d8 & ? & _).
    destruct r; simplify_eq. by exists d8.
Qed.

Lemma parse_input_object_spec s : schema_ok s → safe parse_input_object (defined s) s.
Proof.
  intros Hok. unfold parse_input_object. wp_step.
  eapply wp_create_declaration; [done|done|done|]. intros p x s1 Hb1 Hp Hfresh _.
  wp_call name_declaration_spec; [side|exact Hp|done|done|done| | |by intros].
  { apply parse_input_object_name_spec. side. }
  intros ok s2 [Hb2 Hd]. schema_step; [schema_step; split; [by builds_chain|done]|].
  destruct Hd as (_ & d & n & Hp2 & Hbody & Hn).
  assert (Hclass : class_at (heap s2) p S_InputObject) by (exists d; by rewrite Hbody). clear Hp2.
  do 3 schema_step. eapply wp_update_class; [side|exact Hclass|by intros []|].
  intros s3 Hb3 _. carry_builds Hb3.
  wp_call parse_input_fields_definition_spec; [side|done| |by intros].
  intros r s4 [Hb4 Hr4]. carry_builds Hb4. schema_step.
  eapply wp_update_class; [side|exact Hclass|by intros []|].
  intros s5 Hb5 _. carry_builds Hb5. schema_step. split; [by builds_chain|].
  intros q Hq. destruct Hclass as (d8 & ? & _). destruct r; simplify_eq. by exists d8.
Qed.

(** ** Unions and enums *)

(** The name of a declaration that was just created. *)
Lemma wp_assign_new_name p d name (Q : unit → GraphQlSchema → Prop) s :
  schema_ok s → heap s !! p = Some (NDecl d) → decl_name d = None →
  (∀ s', builds s s' → at_ s' = at_ s →
    named_at (heap s') p (body_kind (body d)) (identifier name) → fresh s p → fresh s' p →
    Q tt s') →
  fresh s p → safe (assign_name p name) Q s.
Proof.
  intros Hok Hp Hn HQ Hfr. eapply wp_assign_name; [done|].
  apply HQ; try done; [by apply builds_named|].
  eexists _, name. split_and!; [by apply named_lookup|done..].
Qed.

Lemma symbol_ok_named h p k kind name :
  named_at h p k name → kind ≠ SL_None →
  (∀ b, body_kind b = k → body_symbol b = kind) → symbol_ok h name (mkSymbol name p kind).
Proof.
  intros (d & n & Hp & Hk & Hn & Hi) Hne Hb. split; [done|]. exists d, n. by split_and!; auto.
Qed.

(** Assignments to the members of a named declaration. *)
Ltac assigning :=
  eapply wp_update_class; [side|eapply named_at_class; eassumption|by intros []|];
  let s' := fresh "s" in let Hb := fresh "Hb" in intros s' Hb _; carry_builds Hb.

Lemma parse_union_spec s : schema_ok s → safe parse_union_after_union_keyword (defined s) s.
Proof.
  intros Hok. unfold parse_union_after_union_keyword. wp_step.
  eapply wp_create_declaration; [done|done|done|]. intros p x s1 Hb1 Hp Hfresh _. cbv zeta.
  do 3 schema_step.
  { repeat schema_step. split; [by builds_chain|done]. }
  do 4 schema_step. schema_step.
  eapply wp_assign_new_name; [side|exact Hp|done| |done].
  intros s2 Hb2 _ Hnamed _ _. simpl in Hnamed. clear Hp Hfresh.
  repeat schema_step. assigning.
  do 3 schema_step. { repeat schema_step. split; [by builds_chain|done]. }
  do 5 schema_step. { repeat schema_step. split; [by builds_chain|done]. }
  do 5 schema_step. assigning.
  join (λ (_ : bool) s', builds s s' ∧ named_at (heap s') p S_Union (identifier n)).
  { apply (wp_schema_loop _ (λ _ s', builds s s' ∧ named_at (heap s') p S_Union (identifier n))).
    { split; [by builds_chain|done]. }
    clear Hnamed. intros _ u6 [Hb6 Hnamed].
    eapply s_save_take; [side|]. intros token u7 Hr7 Hlt Hrev. schema_step.
    - schema_step.
      + schema_step. apply Hrev. intros u8 Hr8. carry_reads Hr8 u6 u8. schema_step.
        split; [by builds_chain|done].
      + carry_reads Hr7 u6 u7. repeat schema_step. split; [by builds_chain|done].
    - carry_reads Hr7 u6 u7. do 3 schema_step.
      { repeat schema_step. split; [by builds_chain|done]. }
      do 5 schema_step. assigning. schema_step. schema_done. }
  clear Hnamed. intros complete u6 [Hb6 Hnamed].
  schema_step; [schema_step; split; [by builds_chain|done]|].
  unfold add_symbol. do 4 schema_step.
  assert (Hsym : symbol_ok (heap u6) v (mkSymbol v p SL_Union)).
  { subst v. eapply symbol_ok_named; [done|done|by intros []]. }
  pose proof (builds_symbol ub u6 v _ ltac:(side) Hsym) as Hb7.
  pose proof (builds_union ub _ p (builds_ok _ _ _ Hb7) (ex_intro _ _ Hnamed)) as Hb8.
  schema_step. split; [transitivity u6; [done|by builds_chain]|].
  intros q [= <-]. destruct Hnamed as (d & _ & ? & _). by exists d.
Qed.

Lemma register_named_spec name p k kind s :
  schema_ok s → named_at (heap s) p k (identifier name) → kind ≠ SL_None →
  (∀ b, body_kind b = k → body_symbol b = kind) →
  safe (register_symbol name p kind) (λ _ s', builds s s') s.
Proof.
  intros Hok Hp Hne Hk. eapply wp_mono; [by apply register_symbol_spec| |by intros].
  intros _ s' [->|[Hb _]]; [|done]. apply builds_symbol; [done|]. by eapply symbol_ok_named.
Qed.

Lemma parse_enum_value_spec p name b s :
  schema_ok s → named_at (heap s) p S_EnumTypeDefinition name →
  safe (parse_enum_value p b) (λ r s', builds s s' ∧
    match r with
    | inl _ => (at_ s < at_ s')%nat
    | inr o => ∀ q, o = Some q → q = p
    end) s.
Proof.
  intros Hok Hnamed. unfold parse_enum_value. do 3 schema_step.
  { schema_step. split; [by builds_chain|]. by intros q [= <-]. }
  schema_step; [repeat schema_step; schema_done|].
  schema_step; [repeat schema_step; split; [by builds_chain|done]|].
  schema_step.
  { repeat schema_step. split; [by builds_chain|]. by intros q [= <-]. }
  do 7 schema_step. assigning. schema_step. schema_done.
Qed.

Lemma parse_enum_spec s : schema_ok s → safe parse_enum (defined s) s.
Proof.
  intros Hok. unfold parse_enum. do 3 schema_step.
  { schema_step. split; [by builds_chain|done]. }
  schema_step. eapply wp_create_declaration; [side|done|done|]. intros p x s1 Hb1 Hp Hfresh _.
  do 5 schema_step.
  eapply wp_assign_new_name; [side|exact Hp|done| |done].
  intros s2 Hb2 _ Hnamed _ _. simpl in Hnamed. clear Hp Hfresh.
  wp_call register_named_spec; [side|exact Hnamed|done|by intros []| |by intros].
  intros _ s3 Hb3. carry_builds Hb3. do 3 schema_step. assigning. do 3 schema_step.
  { schema_step. split; [by builds_chain|done]. }
  apply (wp_schema_loop _ (λ _ s',
    builds s s' ∧ named_at (heap s') p S_EnumTypeDefinition (identifier n))).
  { split; [by builds_chain|done]. }
  clear Hnamed. intros b u4 [Hb4 Hnamed].
  eapply wp_mono; [eapply parse_enum_value_spec; [side|eassumption]| |by intros].
  intros [b'|o] u5 [Hb5 Ho]; carry_builds Hb5; [schema_done|].
  split; [by builds_chain|]. intros q ->%Ho. destruct Hnamed as (d & _ & ? & _). by exists d.
Qed.

(** ** Directive definitions *)

Lemma parse_directive_location_spec p name s :
  schema_ok s → named_at (heap s) p S_DirectiveDefinition name →
  safe (parse_directive_location p tt) (λ r s', builds s s' ∧
    (r = inl tt → (at_ s < at_ s')%nat)) s.
Proof.
  intros Hok Hnamed. unfold parse_directive_location.
  eapply s_save_take; [side|]. intros token s1 Hr1 Hlt Hrev. schema_step.
  { schema_step. apply Hrev. intros s2 Hr2. schema_step. split; [by builds_chain|done]. }
  carry_reads Hr1 s s1. schema_step; [repeat schema_step; split; [by builds_chain|done]|].
  do 2 schema_step. unfold add_location.
  destruct a; repeat schema_step.
  all: try (split; [by builds_chain|done]).
  all: assigning; schema_step; split; [by builds_chain|intros _; builds_arith].
Qed.

Lemma parse_directive_locations_spec p n s :
  schema_ok s → named_at (heap s) p S_DirectiveDefinition (identifier n) →
  safe (parse_directive_locations p n) (defined s) s.
Proof.
  intros Hok Hnamed. unfold parse_directive_locations. do 5 schema_step.
  { repeat schema_step. split; [by builds_chain|done]. }
  unfold add_location. schema_step. assigning.
  join (λ (_ : bool) s', builds s s' ∧ named_at (heap s') p S_DirectiveDefinition (identifier n)).
  { apply (wp_schema_loop _ (λ _ s',
      builds s s' ∧ named_at (heap s') p S_DirectiveDefinition (identifier n))).
    { split; [by builds_chain|done]. }
    clear Hnamed. intros [] u4 [Hb4 Hnamed].
    eapply wp_mono; [eapply parse_directive_location_spec; [side|eassumption]| |by intros].
    intros [[]|b] u5 [Hb5 Hlt]; carry_builds Hb5; [specialize (Hlt eq_refl)|]; schema_done. }
  clear Hnamed. intros complete u6 [Hb6 Hnamed].
  schema_step; [schema_step; split; [by builds_chain|done]|].
  do 3 wp_step.
  pose proof (builds_directive_definition ub u6 _ p ltac:(side) Hnamed) as Hb7.
  wp_step. split; [by transitivity u6|]. intros q [= <-].
  destruct Hnamed as (d & _ & ? & _). by exists d.
Qed.

Lemma parse_directive_definition_spec s :
  schema_ok s → safe parse_directive_definition_after_directive_keyword (defined s) s.
Proof.
  intros Hok. unfold parse_directive_definition_after_directive_keyword. do 3 schema_step.
  { repeat schema_step. split; [by builds_chain|done]. }
  do 3 schema_step. { repeat schema_step. split; [by builds_chain|done]. }
  schema_step. eapply wp_create_declaration; [side|done|constructor|].
  intros p x u1 Hb1 Hp Hfresh _.
  schema_step. eapply wp_mono; [eapply assign_description_spec; [side|exact Hp]| |by intros].
  intros _ u2 (Hb2 & _ & d & Hp2 & Hbody & Hn). clear Hp Hfresh. do 5 schema_step.
  eapply wp_assign_name; [done|].
  set (u3 := named p d n0 u2).
  assert (Hb3 : builds u2 u3) by by apply builds_named; [side|..].
  assert (Hnamed : named_at (heap u3) p S_DirectiveDefinition (identifier n0)).
  { eapply class_at_named; [by apply named_lookup|by simpl; rewrite Hbody|done]. }
  clearbody u3. do 2 schema_step.
  join (λ (_ : unit) s', builds u3 s' ∧
    named_at (heap s') p S_DirectiveDefinition (identifier n0)).
  { schema_step; [|schema_step; split; [by builds_chain|done]].
    wp_call parse_arguments_definition_spec; [side| | |by intros].
    { intros q [= <-]. by eexists. }
    intros arguments u4 [Hb4 Hargs]. carry_builds Hb4.
    eapply wp_update_class; [side|by eapply named_at_class|by intros []|].
    intros u5 Hb5 _. carry_builds Hb5. split; [by builds_chain|done]. }
  clear Hnamed. intros _ u4 [Hb4 Hnamed]. do 3 schema_step.
  { repeat schema_step. split; [by builds_chain|done]. }
  eapply wp_mono; [apply parse_directive_locations_spec; [side|done]| |by intros].
  intros r u5 [Hb5 Hr5]. split; [by builds_chain|done].
Qed.

(** ** The schema definition *)

Lemma parse_schema_field_parses p good :
  parser_ok ub good p →
  wp ub parse_schema_field_after_colon (λ _ p', parses ub good p p') (λ e _, parse_exn e) p.
Proof.
  intros Hok. unfold parse_schema_field_after_colon. pose proof (parses_refl _ _ _ Hok).
  wp_call expect_parses; [done|done| |by intros]. intros ok p1 [Hp1 _].
  wp_step; [wp_step; parses_chain|].
  wp_call expect_parses; [side|done| |by intros]. intros ok' p2 [Hp2 _].
  wp_step.
  { wp_call skip_to_next_primary_token_parses; [side| |by intros].
    intros _ p3 Hp3. wp_step. parses_chain. }
  wp_step. apply get_token_value_parses. intros v. wp_step. apply create_name_parses.
  intros n _. wp_step. parses_chain.
Qed.

Lemma s_parse_schema_field (Q : option Name → GraphQlSchema → Prop) s :
  schema_ok s → (∀ a s', reads s s' → Q a s') → safe ⟨parse_schema_field_after_colon⟩ Q s.
Proof. intros Hok. apply wp_reads_unit; [done|]. apply parse_schema_field_parses, Hok. Qed.

(** The keys of the root operation types that were added are set. *)
Definition keys_added (h : list Node) (p : ptr) (added : Z) : Prop :=
  ∃ d v, h !! p = Some (NDecl d) ∧ body d = BSchema v ∧
    ∀ r, is_absent added r = false → root_key r v ≠ None.

Lemma is_absent_lor added r r' :
  is_absent (Z.lor added (RootType_value r)) r' = false → r' = r ∨ is_absent added r' = false.
Proof.
  destruct (decide (r' = r)) as [->|Hne]; [by left|]. unfold is_absent. intros H. right.
  rewrite Z.land_lor_distr_l in H.
  replace (Z.land (RootType_value r) (RootType_value r')) with 0%Z in H
    by (destruct r, r'; done).
  by rewrite Z.lor_0_r in H.
Qed.

Lemma parse_root_field_spec p r added s :
  schema_ok s → keys_added (heap s) p added.1 →
  safe (parse_root_field p r added) (λ added' s', builds s s' ∧
    keys_added (heap s') p added'.1) s.
Proof.
  intros Hok (d & v & Hp & Hv & Hkeys). destruct added as [added dup]. unfold parse_root_field.
  simpl in Hkeys. schema_step.
  - do 3 schema_step.
    eapply wp_update_body; [side|exact Hp|by rewrite Hv|by rewrite Hv|by rewrite Hv|].
    intros s1 Hb1 _ Hp1. clear Hp. rewrite Hv in Hp1. schema_step.
    eapply s_parse_schema_field; [side|reading].
    schema_step. eapply wp_update_body; [side|exact Hp1|done|done|done|].
    intros s2 Hb2 _ Hp2. schema_step. split; [by builds_chain|].
    eexists _, _. split_and!; [exact Hp2|done|]. simpl. intros r' Hr'%is_absent_lor.
    assert (r' = r ∨ r' ≠ r) as [->|Hne] by (destruct r, r'; auto).
    + by destruct r.
    + destruct Hr' as [|Hr'%Hkeys]; [done|]. by destruct r, r'.
  - do 2 schema_step. schema_step. eapply s_parse_schema_field; [side|reading]. schema_step.
    + schema_step. unfold read_schema. schema_step. eapply wp_read_decl; [done|]. rewrite Hv.
      do 2 schema_step. pose proof (Hkeys r H) as Hset.
      destruct (root_key r v) as [key|] eqn:Hkey; [|done]. simpl. repeat schema_step.
      split; [by builds_chain|]. by exists d, v.
    + schema_step. split; [by builds_chain|]. by exists d, v.
Qed.

Lemma parse_schema_body_spec p added s :
  schema_ok s → keys_added (heap s) p added.1 →
  safe (parse_schema_body p added) (λ r s', builds s s' ∧
    match r with
    | inl added' => keys_added (heap s') p added'.1 ∧ (at_ s < at_ s')%nat
    | inr _ => True
    end) s.
Proof.
  intros Hok Hkeys. unfold parse_schema_body. do 2 schema_step.
  assert (Hroot : ∀ r, (at_ s < at_ s0)%nat →
    safe (a ← parse_root_field p r added; mret (inl a)) (λ (r : Z * Z + unit) s', builds s s' ∧
      match r with
      | inl added' => keys_added (heap s') p added'.1 ∧ (at_ s < at_ s')%nat
      | inr _ => True
      end) s0).
  { intros r Hlt. wp_call parse_root_field_spec; [side|done| |by intros].
    intros added' s1 [Hb1 Hk]. schema_step. split; [by builds_chain|]. split; [done|builds_arith]. }
  destruct a; tidy; try (by apply Hroot).
  all: repeat schema_step; try (split; [by builds_chain|done]).
  all: eapply s_parse_schema_field; [side|reading]; schema_step; schema_done.
Qed.

Lemma parse_schema_spec s : schema_ok s → safe parse_schema (defined s) s.
Proof.
  intros Hok. unfold parse_schema. do 5 schema_step.
  { repeat schema_step. split; [by builds_chain|done]. }
  schema_step. eapply wp_create_declaration; [side|done|done|]. intros p x u1 Hb1 Hp _ _.
  schema_step. eapply wp_update_body; [side|exact Hp|done|done|done|].
  intros u2 Hb2 _ Hp2. schema_step.
  join (λ (_ : unit) s', builds s s' ∧ class_at (heap s') p S_Schema).
  { apply (wp_schema_loop _ (λ added s', builds s s' ∧ keys_added (heap s') p added.1)).
    { split; [by builds_chain|]. eexists _, _. split_and!; [exact Hp2|done|by intros []]. }
    intros added u3 [Hb3 Hkeys].
    eapply wp_mono; [apply parse_schema_body_spec; [side|done]| |by intros].
    intros [added'|[]] u4 [Hb4 H4]; [destruct H4; schema_done|].
    split; [by builds_chain|]. destruct Hkeys as (d & v & Hd & Hv & _).
    assert (Hc : class_at (heap u3) p S_Schema) by (exists d; by rewrite Hv).
    by carry_builds Hb4. }
  intros _ u3 [Hb3 Hc]. schema_step. split; [done|]. intros q [= <-].
  destruct Hc as (d & ? & _). by exists d.
Qed.

(** ** The document *)

Lemma parse_primary_token_spec token s :
  schema_ok s → safe (parse_primary_token token) (defined s) s.
Proof.
  intros Hok. unfold parse_primary_token. destruct token.
  all: try (repeat schema_step; split; [by builds_chain|done]).
  - by apply parse_directive_definition_spec.
  - by apply parse_enum_spec.
  - by apply parse_input_object_spec.
  - by apply parse_interface_definition_spec.
  - by apply parse_schema_spec.
  - by apply parse_object_spec.
  - by apply parse_union_spec.
Qed.

(** The last schema definition is one. *)
Definition schema_definition (s : GraphQlSchema) (schema_ : option ptr) : Prop :=
  ∀ p, schema_ = Some p → class_at (heap s) p S_Schema.

Lemma schema_definition_mono s s' schema_ :
  builds s s' → schema_definition s schema_ → schema_definition s' schema_.
Proof. intros Hb H p Hp. by apply (class_at_mono _ _ (builds_heap _ _ _ Hb)), H. Qed.

(** What is left of the document: nothing once its end was taken. *)
Definition remaining (token : GraphQlToken.t) (s : GraphQlSchema) : nat :=
  if decide (token = GraphQlToken.EndOfDocument) then 0 else S (S (length_ s) - at_ s).

Lemma remaining_taken token token' s s' :
  builds s s' → token ≠ GraphQlToken.EndOfDocument →
  (token' ≠ GraphQlToken.EndOfDocument → (at_ s < at_ s')%nat) →
  (remaining token' s' < remaining token s)%nat.
Proof.
  intros Hb Hne Hlt. destruct (builds_le _ _ _ Hb) as [Hle Hsz]. unfold remaining.
  rewrite (decide_False (P := token = _)) by done.
  destruct (decide (token' = _)); [lia|]. specialize (Hlt ltac:(done)). lia.
Qed.

Lemma parse_document_body_spec token schema_ s :
  schema_ok s → schema_definition s schema_ →
  safe (parse_document_body (token, schema_)) (λ r s', builds s s' ∧
    match r with
    | inl (token', schema_') =>
        schema_definition s' schema_' ∧ (remaining token' s' < remaining token s)%nat
    | inr schema_' => schema_definition s' schema_'
    end) s.
Proof.
  intros Hok Hdef. unfold parse_document_body. schema_step.
  { schema_step. split; [by apply builds_refl|done]. }
  schema_step.
  { do 5 schema_step. repeat schema_step. assert (Hb : builds s s1) by builds_chain.
    split; [done|]. split; [by eapply schema_definition_mono|].
    apply remaining_taken; [done|done|]. intros Ht. tidy. builds_arith. }
  wp_call parse_primary_token_spec; [side| |by intros]. intros r s1 [Hb1 Hr]. do 2 schema_step.
  join (λ schema_' s', builds s s' ∧ schema_definition s' schema_').
  { assert (Hb0 : builds s s0) by builds_chain. destruct r as [p|].
    - destruct (Hr p eq_refl) as [d Hd]. schema_step. schema_step.
      assert (Hp : ∃ d, heap s0 !! p = Some (NDecl d)) by by exists d.
      pose proof (builds_definition ub s0 p ltac:(side) Hp) as Hb2.
      schema_step. eapply wp_read_decl; [exact Hd|]. schema_step.
      split; [by transitivity s0|].
      destruct (decide _) as [Hk|]; [|by eapply schema_definition_mono; [by transitivity s0|]].
      intros q [= <-]. exists d. split; [done|].
      by rewrite <- (proj2 (so_heap _ _ (builds_ok _ _ _ Hb0) p d Hd)).
    - repeat schema_step. split; [by builds_chain|]. eapply schema_definition_mono; [|done].
      by builds_chain. }
  intros schema_' s2 [Hb2 Hdef2]. repeat schema_step.
  assert (Hb : builds s s3) by builds_chain.
  split; [done|]. split; [eapply schema_definition_mono; [|done]; by builds_chain|].
  apply remaining_taken; [done|done|]. intros Ht. tidy. builds_arith.
Qed.

(** The parse phase. *)
Lemma parse_document_spec s :
  schema_ok s →
  safe parse_document (λ schema_ s', builds s s' ∧ schema_definition s' schema_) s.
Proof.
  intros Hok. unfold parse_document. do 2 schema_step. unfold schema_loop. do 2 schema_step.
  apply (wp_loop _ (λ '(token, schema_) s', builds s s' ∧ schema_definition s' schema_)
    (λ '(token, _) s', remaining token s')).
  - split; [by builds_chain|done].
  - unfold remaining, parse_fuel, scan_fuel. destruct (decide _); [lia|].
    specialize (H ltac:(done)). lia.
  - intros [token schema_] s1 [Hb1 Hdef].
    eapply wp_mono; [by apply parse_document_body_spec; [side|]| |by intros].
    intros [[token' schema_']|schema_'] s2 [Hb2 H2]; [destruct H2|];
      split_and!; try done; by builds_chain.
Qed.
End declarations.
