(* ===== verification/SchemaChecksSpec.v ===== *)
(** * What the checks of the schema parser report

    Each check runs on a state that satisfies the invariant of the parse phase
    and only adds diagnostics.  The theorems characterise the documents that
    get none. *)
From S2P Require Import Prelude Monad Character Cstring Diagnostic StdMap Syntaxes.
From S2P Require Import TextWriter Scanner ScannerSpec Parser ValueText ParserSpec Schema.
From S2P Require Import SchemaInvariant SchemaRules SchemaChecks.

(** ** Adding diagnostics *)

(** [s'] is [s] with the diagnostics [l] added. *)
Definition reported (l : list DiagnosticMessage) (s : GraphQlSchema) : GraphQlSchema :=
  set_parser (set_diagnostics (diagnostics (parser s) ++ l) (parser s)) s.

Lemma reported_nil s : reported [] s = s.
Proof. unfold reported. rewrite app_nil_r. by destruct s as [[] ]. Qed.

Lemma reported_app l l' s : reported l' (reported l s) = reported (l ++ l') s.
Proof. unfold reported. simpl. by rewrite app_assoc. Qed.

(** The line table can be searched. *)
Definition located (s : GraphQlSchema) : Prop :=
  position_to_line_list (scanner (parser s)) !! 0%nat = Some (mkPositionToLine 0 1).

Lemma located_reported l s : located s → located (reported l s).
Proof. done. Qed.

Lemma schema_ok_located ub s : schema_ok ub s → located s.
Proof. intros Hok. apply (parser_ok_table _ _ _ (so_parser _ _ Hok)). Qed.

(** The location of a node is found, or the search throws. *)
Lemma wp_get_location ub x (Q : Location → GraphQlSchema → Prop) s :
  located s → (∀ v, Q v s) → wp ub ⟨get_location_from_syntax x⟩ Q (λ e _, parse_exn e) s.
Proof.
  intros Hs HQ. unfold get_location_from_syntax. do 2 wp_step.
  eapply wp_mono; [by apply get_token_location_safe| |].
  - intros l s' ->.
    match goal with |- Q _ ?st => replace st with s by (by destruct s as [[] ]) end. apply HQ.
  - intros e s' [-> _]. apply parse_exn_location.
Qed.

Section reports.
Context (ub : Prop).

(** [m] adds the diagnostics of one of the lists in [P]; it throws, when the
    location of a diagnostic is not found, only if [E]. *)
Definition reports {A} (E : Prop) (m : M GraphQlSchema A)
    (P : A → list DiagnosticMessage → Prop) (s : GraphQlSchema) : Prop :=
  wp ub m (λ a s', ∃ l, s' = reported l s ∧ P a l) (λ e _, parse_exn e ∧ E) s.

Lemma reports_ret {A} E (a : A) (P : A → list DiagnosticMessage → Prop) s :
  P a [] → reports E (mret a) P s.
Proof. intros HP. unfold reports. wp_step. exists []. by rewrite reported_nil. Qed.

Lemma reports_bind {A B} E (m : M GraphQlSchema A) (k : A → M GraphQlSchema B)
    (P : A → list DiagnosticMessage → Prop) (R : B → list DiagnosticMessage → Prop) s :
  reports E m P s →
  (∀ a l, P a l → reports E (k a) (λ b l', R b (l ++ l')) (reported l s)) →
  reports E (m ≫= k) R s.
Proof.
  intros Hm Hk. unfold reports. wp_step. eapply wp_mono; [exact Hm| |by intros].
  intros a s' (l & -> & Ha). eapply wp_mono; [by apply Hk| |by intros].
  intros b s' (l' & -> & Hb). exists (l ++ l'). by rewrite reported_app.
Qed.

Lemma reports_mono {A} (E E' : Prop) (m : M GraphQlSchema A)
    (P P' : A → list DiagnosticMessage → Prop) s :
  reports E m P s → (∀ a l, P a l → P' a l) → (E → E') → reports E' m P' s.
Proof.
  intros Hm HP HE. eapply wp_mono; [exact Hm| |].
  - intros a s' (l & -> & Ha). exists l. auto.
  - intros e s' [He HE']. auto.
Qed.

Lemma reports_at E d location args s :
  reports E ⟨add_diagnostic_at location d args⟩
    (λ _ l, l = [create_diagnostic location d args]) s.
Proof. unfold reports, add_diagnostic_at. wp_step. wp_step. eexists. by split. Qed.

Lemma reports_diagnose (E : Prop) x d args s :
  located s → E → reports E (diagnose x d args) (λ _ l, map _template l = [d]) s.
Proof.
  intros Hs HE. unfold reports, diagnose. wp_step.
  eapply wp_mono; [apply (wp_get_location _ _ (λ _ s', s' = s)); [done|by intros]| |by split].
  intros location s' ->. eapply wp_mono; [apply (reports_at E)| |by intros].
  intros _ s' (l & -> & ->). eexists. by split.
Qed.

(** The diagnostics [l] say whether [G] holds: there are none exactly when it
    does, and those there are have one of the templates [T]. *)
Definition verdict (T : list D) (G : Prop) (l : list DiagnosticMessage) : Prop :=
  (l = [] ↔ G) ∧ Forall (λ m, _template m ∈ T) l.

Lemma verdict_accept T (G : Prop) : G → verdict T G [].
Proof. intros HG. by split. Qed.

Lemma verdict_reject T (G : Prop) d l : ¬ G → d ∈ T → map _template l = [d] → verdict T G l.
Proof.
  intros HG Hd Hl. destruct l as [|m [|]]; [done| |done]. injection Hl as Hm.
  split; [by split|]. constructor; [by rewrite Hm|constructor].
Qed.

Lemma verdict_iff T (G G' : Prop) l : (G ↔ G') → verdict T G l → verdict T G' l.
Proof. unfold verdict. intros ->. done. Qed.

Lemma verdict_app T (G G' : Prop) l l' :
  verdict T G l → verdict T G' l' → verdict T (G ∧ G') (l ++ l').
Proof.
  intros [HG HT] [HG' HT']. split; [|by apply Forall_app].
  rewrite <- HG, <- HG'. split; [apply app_nil|]. by intros [-> ->].
Qed.

(** [m] reports something, or throws, exactly when [G] does not hold. *)
Definition decides (T : list D) (G : Prop) (m : M GraphQlSchema unit) (s : GraphQlSchema) : Prop :=
  reports (¬ G) m (λ _, verdict T G) s.

Lemma decides_accept T (G : Prop) s : G → decides T G (mret tt) s.
Proof. intros HG. apply reports_ret. by apply verdict_accept. Qed.

Lemma decides_reject T (G : Prop) x d args s :
  located s → ¬ G → d ∈ T → decides T G (diagnose x d args) s.
Proof.
  intros Hs HG Hd. eapply reports_mono; [by apply (reports_diagnose (¬ G))| |done].
  intros ? l. by apply verdict_reject.
Qed.

Lemma decides_iff T (G G' : Prop) m s : (G ↔ G') → decides T G m s → decides T G' m s.
Proof.
  intros HG Hm. eapply reports_mono; [exact Hm| |by rewrite HG]. intros ? l. by apply verdict_iff.
Qed.

(** A loop accepts when all of its iterations do. *)
Lemma reports_for_each {A} T (G : A → Prop) (l : list A) body s :
  (∀ x k, x ∈ l → decides T (G x) (body x) (reported k s)) →
  decides T (∀ x, x ∈ l → G x) (for_each l body) s.
Proof.
  revert s. induction l as [|x l IH]; intros s Hbody; simpl.
  - apply reports_ret, verdict_accept. intros x Hx. by apply not_elem_of_nil in Hx.
  - eapply (reports_bind _ _ _ (λ _, verdict T (G x))).
    { eapply reports_mono; [rewrite <- (reported_nil s); apply Hbody; left|done|].
      intros Hx HG. apply Hx, HG. left. }
    intros ? k Hk. eapply reports_mono; [apply IH| |].
    + intros y k' Hy. rewrite reported_app. apply Hbody. by right.
    + intros ? k' Hk'. eapply verdict_iff; [|exact (verdict_app _ _ _ _ _ Hk Hk')].
      split; [|by intros HG; split; [apply HG; left|intros y Hy; apply HG; by right]].
      intros [Hx Hl] y [->|Hy]%elem_of_cons; auto.
    + intros Hno HG. apply Hno. intros y Hy. apply HG. by right.
Qed.

(** So does a loop that may be left early, if leaving it is a rejection. *)
Lemma reports_for_each_break {A} T (G : A → Prop) (l : list A) body s :
  (∀ x k, x ∈ l → reports (¬ G x) (body x) (λ b k', verdict T (G x) k' ∧ (b = true → ¬ G x))
    (reported k s)) →
  decides T (∀ x, x ∈ l → G x) (for_each_break l body) s.
Proof.
  revert s. induction l as [|x l IH]; intros s Hbody; simpl.
  - apply reports_ret, verdict_accept. intros x Hx. by apply not_elem_of_nil in Hx.
  - eapply (reports_bind _ _ _ (λ b k', verdict T (G x) k' ∧ (b = true → ¬ G x))).
    { eapply reports_mono; [rewrite <- (reported_nil s); apply Hbody; left|done|].
      intros Hx HG. apply Hx, HG. left. }
    intros [] k [Hk Hb].
    + apply reports_ret. rewrite app_nil_r. eapply verdict_iff; [|exact Hk].
      split; [intros HG; by destruct (Hb eq_refl)|]. intros HG. apply HG. left.
    + eapply reports_mono; [apply IH| |].
      * intros y k' Hy. rewrite reported_app. apply Hbody. by right.
      * intros ? k' Hk'. eapply verdict_iff; [|exact (verdict_app _ _ _ _ _ Hk Hk')].
        split; [|by intros HG; split; [apply HG; left|intros y Hy; apply HG; by right]].
        intros [Hx Hl] y [->|Hy]%elem_of_cons; auto.
      * intros Hno HG. apply Hno. intros y Hy. apply HG. by right.
Qed.
Lemma verdict_weaken (T T' : list D) G l : T ⊆ T' → verdict T G l → verdict T' G l.
Proof. intros HT [HG Hl]. split; [done|]. eapply list.Forall_impl; [exact Hl|]. auto. Qed.

Lemma decides_weaken (T T' : list D) G m s : T ⊆ T' → decides T G m s → decides T' G m s.
Proof. intros HT Hm. eapply reports_mono; [exact Hm| |done]. intros ? l. by apply verdict_weaken. Qed.

(** A diagnostic at the last token. *)
Lemma reports_add E d args s :
  reports E ⟨add_diagnostic d args⟩ (λ _ l, map _template l = [d]) s.
Proof.
  unfold reports, add_diagnostic, Parser.get_token_location, add_diagnostic_at. repeat wp_step.
  eexists. by split.
Qed.
End reports.

(** ** Unions *)

Section unions.
Context (ub : Prop).

(** A member of a union names an object type. *)
Definition is_object_type (table : std_map ustring Symbol) (name : ustring) : Prop :=
  ∃ symbol, find name table = Some symbol ∧ symbol_kind symbol = SL_Object.

Definition union_errors : list D :=
  [Type_0_is_not_defined; Only_objects_are_allowed_as_members_in_a_union].

Lemma check_union_member_reports member s :
  located s →
  decides ub union_errors (is_object_type (symbols s) (identifier member.2))
    (check_union_member member) s.
Proof.
  intros Hs. unfold check_union_member. apply wp_bind, wp_gets.
  destruct (find _ _) as [symbol|] eqn:Hf.
  - destruct (decide (symbol_kind symbol = SL_Object)) as [Hk|Hk].
    + rewrite bool_decide_false by tauto. apply decides_accept. by exists symbol.
    + rewrite bool_decide_true by done. apply decides_reject; [done| |by right; left].
      intros (symbol' & Hf' & ?). congruence.
  - apply decides_reject; [done| |by left]. intros (symbol' & Hf' & ?). congruence.
Qed.

(** The members of the union at [p]. *)
Definition union_members (h : list Node) (p : ptr) : std_map ustring Name :=
  match h !! p with
  | Some (NDecl d) => match as_union d with Some v => members v | None => [] end
  | _ => []
  end.

Definition union_ok (s : GraphQlSchema) (p : ptr) : Prop :=
  ∀ member, member ∈ union_members (heap s) p → is_object_type (symbols s) (identifier member.2).

Lemma reports_read_decl {A} E p d (k : Declaration → M GraphQlSchema A) P s :
  heap s !! p = Some (NDecl d) → reports ub E (k d) P s → reports ub E (read_decl p ≫= k) P s.
Proof. intros Hp Hk. apply wp_bind. unfold read_decl. do 2 wp_step. rewrite Hp. by wp_step. Qed.

Lemma reports_deref {A B} E (o : option A) a (k : A → M GraphQlSchema B) P s :
  o = Some a → reports ub E (k a) P s → reports ub E (deref o ≫= k) P s.
Proof. intros -> Hk. apply wp_bind. simpl. by apply wp_ret. Qed.

Lemma reports_gets {A B} E (f : GraphQlSchema → A) (k : A → M GraphQlSchema B) P s :
  reports ub E (k (f s)) P s → reports ub E (gets f ≫= k) P s.
Proof. intros Hk. by apply wp_bind, wp_gets. Qed.

Lemma check_union_reports p s :
  located s → class_at (heap s) p S_Union →
  decides ub union_errors (union_ok s p) (check_union p) s.
Proof.
  intros Hs (d & Hp & Hk). unfold check_union. eapply reports_read_decl; [exact Hp|].
  destruct (as_union d) as [v|] eqn:Hv;
    [|unfold as_union in Hv; by destruct (body d)].
  eapply reports_deref; [done|]. unfold union_ok, union_members. rewrite Hp, Hv.
  apply reports_for_each. intros member k _. by apply (check_union_member_reports _ (reported k s)).
Qed.
End unions.

(** ** Implementations of interfaces *)

(** The comparison of the check: the named type, whatever its list and
    non-null modifiers. *)
Definition same_type (h : list Node) (p q : ptr) : Prop :=
  ∃ t t', h !! p = Some (NType t) ∧ h !! q = Some (NType t') ∧ type t = type t' ∧
    (type_in (type t) T_SymbolicType = true →
      option_map identifier (type_name t) = option_map identifier (type_name t')).

(** The object has a field of the same name and type. *)
Definition field_implemented (h : list Node) (object_fields : std_map ustring FieldDefinition)
    (field : FieldDefinition) : Prop :=
  ∃ f, find (identifier (fd_name field)) object_fields = Some f
    ∧ same_type h (fd_type f) (fd_type field).

(** The fields of the object or interface at [p]. *)
Definition fields_at (h : list Node) (p : ptr) : option (std_map ustring FieldDefinition) :=
  match h !! p with
  | Some (NDecl d) => match as_object_like d with Some o => fields o | None => None end
  | _ => None
  end.

(** An interface exists and its fields are implemented. *)
Definition implements_interface (s : GraphQlSchema) (object_fields : option (std_map ustring FieldDefinition))
    (interface : ustring) : Prop :=
  ∃ p, find interface (interfaces s) = Some p ∧
    ∀ m, object_fields = Some m → ∀ i name field,
      fields_at (heap s) p = Some i → (name, field) ∈ i → field_implemented (heap s) m field.

(** The interfaces an object declares. *)
Definition interfaces_of (h : list Node) (p : ptr) : std_map ustring Name :=
  match h !! p with
  | Some (NDecl d) =>
      match as_object_like d with
      | Some o => from_option implementations [] (object_implementations o)
      | None => []
      end
  | _ => []
  end.

(** An interface was registered although its fields could not be parsed. *)
Definition interface_without_fields (s : GraphQlSchema) : Prop :=
  ∃ name p, find name (interfaces s) = Some p ∧ fields_at (heap s) p = None.

Definition implementation_errors : list D :=
  [Interface_0_is_not_defined; The_field_0_in_interface_1_is_not_implemented;
   Type_0_does_not_match_type_1_from_the_interface_2].

Section implementations.
Context (ub : Prop).
Local Abbreviation reports := (reports ub).
Local Abbreviation decides := (decides ub).

Lemma reports_read_type {A} E p t (k : Type_ → M GraphQlSchema A) P s :
  heap s !! p = Some (NType t) → reports E (k t) P s → reports E (read_type p ≫= k) P s.
Proof. intros Hp Hk. apply wp_bind. unfold read_type. do 2 wp_step. rewrite Hp. by wp_step. Qed.

(** A complete type can be printed. *)
Lemma reports_get_type_name {A} E t (k : ustring → M GraphQlSchema A) P s :
  type_valid t → (∀ v, reports E (k v) P s) → reports E (get_type_name t ≫= k) P s.
Proof.
  intros Hv Hk. apply wp_bind. unfold get_type_name. unfold type_valid in Hv. wp_step.
  destruct (type t); try done; repeat wp_step; try apply Hk.
  all: destruct (type_name t) as [n|]; [|done]; simpl; repeat wp_step; apply Hk.
Qed.

Lemma reports_get_location {A} (E : Prop) x (k : Location → M GraphQlSchema A) P s :
  located s → E → (∀ v, reports E (k v) P s) → reports E (⟨get_location_from_syntax x⟩ ≫= k) P s.
Proof.
  intros Hs HE Hk. apply wp_bind.
  eapply wp_mono; [apply (wp_get_location _ _ (λ _ s', s' = s)); [done|by intros]| |by split].
  intros v s' ->. apply Hk.
Qed.

Lemma does_not_match_reports (E : Prop) t t' i n s :
  located s → E → type_valid t → type_valid t' → decl_name i = Some n →
  reports E (does_not_match t t' i)
    (λ _ l, map _template l = [Type_0_does_not_match_type_1_from_the_interface_2]) s.
Proof.
  intros Hs HE Ht Ht' Hn. unfold does_not_match. apply reports_get_location; [done..|]. intros location.
  apply reports_get_type_name; [done|]. intros a. apply reports_get_type_name; [done|]. intros b.
  eapply reports_deref; [done|]. eapply reports_mono; [apply (reports_at _ E)| |done].
  by intros ? l ->.
Qed.

Lemma symbolic_valid t :
  type_valid t → type_in (type t) T_SymbolicType = true → ∃ n, type_name t = Some n.
Proof.
  unfold type_valid. destruct (type t); try done; destruct (type_name t); try done; eauto.
Qed.

Lemma check_interface_field_reports object m name i entry s n n' :
  located s → decl_name object = Some n → decl_name i = Some n' →
  Forall (field_ok (heap s)) m → field_ok (heap s) entry →
  reports (¬ field_implemented (heap s) m entry.2) (check_interface_field object m name i entry)
    (λ b l, verdict implementation_errors (field_implemented (heap s) m entry.2) l
      ∧ (b = true → ¬ field_implemented (heap s) m entry.2)) s.
Proof.
  intros Hs Hn Hn' Hm (_ & (ti & Hti & Hvi) & _). unfold check_interface_field. cbv zeta.
  destruct (find _ m) as [f|] eqn:Hf.
  2:{ assert (Hno : ¬ field_implemented (heap s) m entry.2) by (intros (f & Hf' & _); congruence).
      eapply reports_deref; [done|]. eapply reports_bind; [by apply reports_diagnose|].
      intros ? l Hl. apply reports_ret. rewrite app_nil_r. split; [|done].
      eapply verdict_reject; [done|right; left|done]. }
  destruct (Forall_elem _ _ _ Hm (find_Some_elem _ _ _ Hf)) as (_ & (to & Hto & Hvo) & _).
  simpl in Hto. eapply reports_read_type; [done|]. eapply reports_read_type; [done|].
  assert (Hreject : ¬ same_type (heap s) (fd_type f) (fd_type entry.2) →
    reports (¬ field_implemented (heap s) m entry.2) (does_not_match to ti i;; mret true)
      (λ b l, verdict implementation_errors (field_implemented (heap s) m entry.2) l
        ∧ (b = true → ¬ field_implemented (heap s) m entry.2)) s).
  { intros Hno. assert (Hno' : ¬ field_implemented (heap s) m entry.2)
      by (intros (f' & Hf' & ?); congruence).
    eapply reports_bind; [by eapply does_not_match_reports|]. intros ? l Hl. apply reports_ret.
    rewrite app_nil_r. split; [|done]. eapply verdict_reject; [done|do 2 right; left|done]. }
  assert (Haccept : same_type (heap s) (fd_type f) (fd_type entry.2) →
    reports (¬ field_implemented (heap s) m entry.2) (mret false)
      (λ b l, verdict implementation_errors (field_implemented (heap s) m entry.2) l
        ∧ (b = true → ¬ field_implemented (heap s) m entry.2)) s).
  { intros Hsame. apply reports_ret. split; [|done]. apply verdict_accept. by exists f. }
  destruct (decide (type to ≠ type ti)) as [Hne|Heq%dec_stable].
  { apply Hreject. intros (t & t' & ? & ? & ? & _). congruence. }
  destruct (type_in (type to) T_SymbolicType) eqn:Hsym.
  - destruct (symbolic_valid to Hvo Hsym) as [a Ha].
    destruct (symbolic_valid ti Hvi ltac:(congruence)) as [b Hb].
    eapply reports_deref; [done|]. eapply reports_deref; [done|].
    destruct (decide (identifier a ≠ identifier b)) as [Hne|Hab%dec_stable].
    + apply Hreject. intros (t & t' & ? & ? & _ & Hids). simplify_eq.
      specialize (Hids Hsym). rewrite Ha, Hb in Hids. simpl in Hids. congruence.
    + apply Haccept. exists to, ti. split_and!; try done. intros _. rewrite Ha, Hb. simpl. congruence.
  - apply Haccept. exists to, ti. split_and!; try done. congruence.
Qed.

(** A null map of fields is read only if an interface has none. *)
Lemma reports_deref_or {A B} E (o : option A) (k : A → M GraphQlSchema B) P s :
  (o = None → ub) → (∀ a, o = Some a → reports E (k a) P s) → reports E (deref o ≫= k) P s.
Proof. intros Hnone Hk. apply wp_bind, wp_deref; auto. Qed.

Lemma heap_fields_ok s ub' p m :
  schema_ok ub' s → fields_at (heap s) p = Some m → Forall (field_ok (heap s)) m.
Proof.
  intros Hok. unfold fields_at. destruct (heap s !! p) as [[t|d]|] eqn:Hp; try done.
  destruct (as_object_like d) as [o|] eqn:Ho; [|done]. intros Hm.
  destruct (so_heap _ _ Hok _ _ Hp) as [Hb _]. unfold as_object_like, body_ok in *.
  destruct (body d); simplify_eq; by apply Hb.
Qed.

Lemma check_implementation_reports ub' object o n impl k s :
  schema_ok ub' s → decl_name object = Some n →
  (∀ m, fields o = Some m → Forall (field_ok (heap s)) m) → (interface_without_fields s → ub) →
  decides implementation_errors (implements_interface s (fields o) impl.1)
    (check_implementation object o impl) (reported k s).
Proof.
  intros Hok Hn Hm Hub. destruct impl as [name x]. unfold check_implementation.
  pose proof (schema_ok_located _ _ Hok) as Hloc. apply reports_gets. simpl.
  destruct (find name (interfaces s)) as [p|] eqn:Hf.
  2:{ apply decides_reject; [done| |left]. intros (p & Hf' & _). congruence. }
  destruct (fields o) as [m|] eqn:Hfields.
  2:{ apply decides_accept. exists p. by split. }
  destruct (so_interfaces _ _ Hok _ _ Hf) as (d & n' & Hp & Hk & Hn' & _).
  eapply reports_read_decl; [exact Hp|]. destruct (body d) as [|i| | | | |] eqn:Hbody; try done.
  eapply reports_deref; [unfold as_object_like; by rewrite Hbody|].
  assert (Hat : fields_at (heap s) p = fields i).
  { unfold fields_at, as_object_like. by rewrite Hp, Hbody. }
  apply reports_deref_or; [intros Hnone; apply Hub; exists name, p; by rewrite Hat|].
  intros mi Hmi.
  eapply decides_iff; [|apply (reports_for_each_break ub implementation_errors
    (λ entry, field_implemented (heap s) m entry.2))].
  2: { intros entry k' Hentry. rewrite reported_app.
    apply (check_interface_field_reports _ _ _ _ _ (reported (k ++ k') s) n n');
      [exact Hloc|done|done|by apply Hm|].
    eapply Forall_elem; [|exact Hentry].
    apply (heap_fields_ok s ub' p); [done|by rewrite Hat]. }
  split.
  - intros Hall. exists p. split; [done|]. intros m' [= <-] i' name' field Hi' Hin.
    assert (i' = mi) as -> by congruence. by apply (Hall (name', field)).
  - intros (p' & Hp' & Hall) [name' field] Hin. simplify_eq.
    by eapply Hall; [|rewrite Hat|].
Qed.

Lemma check_object_implementation_reports ub' p k s :
  schema_ok ub' s → object_at (heap s) p → (interface_without_fields s → ub) →
  decides implementation_errors (∀ entry, entry ∈ interfaces_of (heap s) p →
      implements_interface s (fields_at (heap s) p) entry.1)
    (check_object_implementation p) (reported k s).
Proof.
  intros Hok (d & Hp & Him & Hn) Hub. unfold check_object_implementation, implements in *.
  eapply reports_read_decl; [exact Hp|]. destruct (body d) as [o| | | | | |] eqn:Hbody; try done.
  eapply reports_deref; [unfold as_object_like; by rewrite Hbody|].
  destruct (object_implementations o) as [i|] eqn:Hi; [|done].
  eapply reports_deref; [done|]. destruct (decl_name d) as [n|] eqn:Hname; [|done].
  assert (Hat : fields_at (heap s) p = fields o).
  { unfold fields_at, as_object_like. by rewrite Hp, Hbody. }
  replace (interfaces_of (heap s) p) with (implementations i)
    by (unfold interfaces_of, as_object_like; by rewrite Hp, Hbody, Hi).
  rewrite Hat. apply reports_for_each. intros impl k' _. rewrite reported_app.
  eapply check_implementation_reports; [done|done| |done].
  intros m Hm. eapply heap_fields_ok; [done|]. by rewrite Hat.
Qed.
End implementations.

(** ** Values against types *)

(** The type of the elements of a list. *)
Definition element_type (t : Type_) : Type_ :=
  set_is_non_null_list false (set_is_list_type false t).

Fixpoint assignable (v : Value) (t : Type_) : bool :=
  match v with
  | NullValue _ =>
      negb (is_non_null_list t) && (is_list_type t || negb (is_non_null t))
  | ListValue _ values => is_list_type t && forallb (λ v, assignable v (element_type t)) values
  | StringValue _ _ =>
      negb (is_list_type t) && match type t with T_String | T_ID => true | _ => false end
  | IntValue _ _ =>
      negb (is_list_type t) && match type t with T_Int | T_ID => true | _ => false end
  | FloatValue _ _ => negb (is_list_type t) && bool_decide (type t = T_Float)
  | BooleanValue _ _ => negb (is_list_type t) && bool_decide (type t = T_Boolean)
  | EnumValue _ _ => negb (is_list_type t) && bool_decide (type t = T_Enum)
  | ObjectValue _ _ => false
  end.

(** A location is not found, or an empty list cannot be printed. *)
Definition value_exn (v : Value) (e : exn) : Prop :=
  parse_exn e ∨ e = no_saves ∧ printable v = false.

Definition value_errors : list D := [The_value_0_is_not_assignable_to_type_1].

(** The value gets its diagnostic, or the run throws. *)
Definition checked (G : Prop) (s : GraphQlSchema) (_ : unit) (s' : GraphQlSchema) : Prop :=
  ∃ l, s' = reported l s ∧ verdict value_errors G l.

#[local] Arguments get_value_string : simpl never.
#[local] Arguments u : simpl never.

Section check_value.

Lemma wp_update_type_raw p t f (Q : unit → GraphQlSchema → Prop) X s :
  heap s !! p = Some (NType t) → Q tt (set_heap (<[p := NType (f t)]> (heap s)) s) →
  wp False (update_type p f) Q X s.
Proof.
  intros Hp HQ. unfold update_type. wp_step. unfold read_type. do 2 wp_step. rewrite Hp.
  by do 2 wp_step.
Qed.

Lemma not_assignable_checked (G : Prop) v x (m : M GraphQlSchema ustring) t s :
  located s → type_valid t → ¬ G →
  wp False m (λ _ s', s' = s) (λ e _, value_exn v e) s →
  wp False (not_assignable x m t) (checked G s) (λ e _, value_exn v e ∧ ¬ G) s.
Proof.
  intros Hs Ht HG Hm. unfold not_assignable. wp_step.
  eapply wp_mono; [by apply (wp_get_location False x (λ _ s', s' = s))| |by split; [left|]].
  intros location s' ->.
  wp_step. eapply wp_mono; [exact Hm| |by split]. intros w s' ->.
  eapply wp_mono; [apply (reports_get_type_name False True t (λ name,
    ⟨add_diagnostic_at location The_value_0_is_not_assignable_to_type_1 [w; name]⟩)
    (λ _ l, map _template l = [The_value_0_is_not_assignable_to_type_1])); [done|]| |].
  - intros name. eapply reports_mono; [apply (reports_at _ True)| |done]. by intros ? l ->.
  - intros ? s' (l & -> & Hl). exists l. split; [done|].
    eapply verdict_reject; [done|by left|done].
  - intros e s' [He _]. by split; [left|].
Qed.

Lemma accept (G : Prop) s : G → checked G s tt s.
Proof. intros HG. exists []. rewrite reported_nil. split; [done|by apply verdict_accept]. Qed.

(** A test that rejects the value, or accepts it. *)
Lemma when_not_assignable (b g : bool) v x (m : M GraphQlSchema ustring) t s :
  located s → type_valid t → b = negb g →
  wp False m (λ _ s', s' = s) (λ e _, value_exn v e) s →
  wp False (when b (not_assignable x m t)) (checked (g = true) s)
    (λ e _, value_exn v e ∧ ¬ g = true) s.
Proof.
  intros Hs Ht -> Hm. destruct g; simpl; [wp_step; by apply accept|].
  by apply not_assignable_checked.
Qed.

Lemma value_string_spec v (s : GraphQlSchema) :
  flat v = true → wp False (get_value_string v) (λ _ s', s' = s) (λ e _, value_exn v e) s.
Proof.
  intros Hv. eapply wp_mono; [by apply get_value_string_spec| |].
  - by intros ? ? (-> & _).
  - intros e s' (_ & -> & Hp). by right.
Qed.

(** The state while the elements of a list are visited. *)
Definition elements (p : ptr) (t : Type_) (s : GraphQlSchema) : GraphQlSchema :=
  set_heap (<[p := NType (element_type t)]> (heap s)) s.

Lemma elements_restored p t l s :
  heap s !! p = Some (NType t) → is_list_type t = true →
  set_heap (<[p := NType (set_is_non_null_list (is_non_null_list t)
      (set_is_list_type true (element_type t)))]>
    (<[p := NType (set_is_list_type true (element_type t))]>
      (heap (reported l (elements p t s)))))
    (set_heap (<[p := NType (set_is_list_type true (element_type t))]>
      (heap (reported l (elements p t s)))) (reported l (elements p t s))) = reported l s.
Proof.
  intros Hp Hl. unfold elements, reported. simpl. rewrite !list_insert_insert_eq.
  assert (set_is_non_null_list (is_non_null_list t)
    (set_is_list_type true (element_type t)) = t) as -> by (destruct t; cbn in Hl; by subst).
  rewrite list_insert_id by done. by destruct s as [[] ].
Qed.

Lemma check_value_flat v :
  flat v = true → ∀ p t s,
  located s → heap s !! p = Some (NType t) → type_valid t →
  wp False (check_value v p) (checked (assignable v t = true) s)
    (λ e _, value_exn v e ∧ ¬ assignable v t = true) s.
Proof.
  induction v as [x|x f|x n|x c|x b|x e|x fields|x values IH] using value_list_ind;
    intros Hflat p t s Hs Hp Ht; simpl check_value; wp_step; unfold read_type; do 2 wp_step;
    rewrite Hp; wp_step; cbv zeta.
  1-6: apply when_not_assignable; [done|done| |first [by wp_step|by apply value_string_spec]].
  1-6: by destruct t as [? [] [] [] [] ? ? ?].
  { done. }
  destruct (is_list_type t) eqn:Hl; simpl.
  2:{ apply not_assignable_checked; [done|done|by rewrite Hl|by apply value_string_spec]. }
  wp_step. eapply wp_update_type_raw; [done|]. wp_step.
  eapply wp_update_type_raw; [simpl; apply list_lookup_insert_eq; by eapply lookup_lt_Some|].
  simpl. rewrite list_insert_insert_eq. fold (element_type t). wp_step.
  apply (wp_for_each _ (λ rest s', ∃ pre l, values = pre ++ rest ∧
    s' = reported l (elements p t s) ∧
    verdict value_errors (forallb (λ v, assignable v (element_type t)) pre = true) l)).
  { exists [], []. split_and!; [done|by rewrite reported_nil|by apply verdict_accept]. }
  - intros v rest s' (pre & l & -> & -> & Hv). simpl in Hflat. rewrite forallb_app in Hflat.
    apply andb_prop in Hflat as [_ [Hfl _]%andb_prop].
    apply Forall_app in IH as [_ [IH _]%list.Forall_cons].
    eapply wp_mono; [apply (IH Hfl p (element_type t))| |].
    + done.
    + simpl. apply list_lookup_insert_eq. by eapply lookup_lt_Some.
    + done.
    + intros _ s' (l' & -> & Hv'). exists (pre ++ [v]), (l ++ l'). rewrite reported_app.
      split_and!; [by rewrite <- app_assoc|done|].
      eapply verdict_iff; [|exact (verdict_app _ _ _ _ _ Hv Hv')].
      rewrite forallb_app, andb_true_iff. simpl. by rewrite andb_true_r.
    + intros e s' [He Hno]. split.
      * destruct He as [?|[? Hp']]; [by left|right]. split; [done|]. cbn [printable].
        rewrite forallb_app. cbn [forallb]. by rewrite Hp', !andb_false_r.
      * cbn [assignable]. rewrite forallb_app. cbn [forallb]. intros [_ [_ [H _]%andb_prop]%andb_prop]%andb_prop.
        by apply Hno.
  - intros s' (pre & l & Heq & -> & Hv). rewrite app_nil_r in Heq. subst pre. wp_step.
    eapply wp_update_type_raw; [simpl; apply list_lookup_insert_eq; by eapply lookup_lt_Some|].
    eapply wp_update_type_raw.
    { simpl. apply list_lookup_insert_eq. rewrite length_insert. by eapply lookup_lt_Some. }
    exists l. split; [by apply elements_restored|]. simpl. by rewrite Hl.
Qed.
End check_value.

(** ** Directives *)

Definition directive_errors : list D :=
  [Undefined_directive_0; Directive_cannot_reference_itself;
   The_directive_0_does_not_support_the_location_1; Missing_required_argument_0;
   The_value_0_is_not_assignable_to_type_1; Unknown_argument_0].

(** An argument of the definition: what is given for it is assignable, and where
    nothing is, its type takes null. *)
Definition argument_given (h : list Node) (directive : Directive)
    (entry : ustring * InputValueDefinition) : Prop :=
  ∃ p t, ivd_type entry.2 = Some p ∧ h !! p = Some (NType t) ∧
    match find entry.1 (directive_arguments directive) with
    | None => is_non_null t || is_non_null_list t = false
    | Some argument => ∃ v, argument_value argument = Some v ∧ assignable v t = true
    end.

(** Either all arguments are those of the definition, or none is: where some are, the
    check takes those for the ones that are not. *)
Definition arguments_known (directive : Directive) (definition : DirectiveDefinition) : Prop :=
  let known name := name ∈ map fst (dd_arguments definition) in
  (∀ name, name ∈ map fst (directive_arguments directive) → known name) ∨
  (∀ name, name ∈ map fst (directive_arguments directive) → ¬ known name).

Record directive_fits (s : GraphQlSchema) (directive : Directive) (definition : DirectiveDefinition) :
    Prop := {
  di_parent : ∀ p, directive_parent directive = Some p →
    ¬ named_at (heap s) p S_DirectiveDefinition (identifier (directive_name directive));
  di_location : directive_location directive ∈ locations definition;
  di_arguments : ∀ entry, entry ∈ dd_arguments definition → argument_given (heap s) directive entry;
  di_known : arguments_known directive definition
}.

Definition directive_valid (s : GraphQlSchema) (directive : Directive) : Prop :=
  ∃ p d definition, find (identifier (directive_name directive)) (directive_definitions (parser s)) = Some p ∧
    heap s !! p = Some (NDecl d) ∧ as_directive_definition d = Some definition ∧
    directive_fits s directive definition.

(** What is needed of a directive and of its definition: each argument is given once
    and stored under its name, the types were parsed, and the values are there, without
    objects and empty lists. *)
Definition arguments_complete (directive : Directive) (definition : DirectiveDefinition) : Prop :=
  NoDup (map fst (directive_arguments directive)) ∧
  Forall (λ entry, identifier (argument_name entry.2) = entry.1) (directive_arguments directive) ∧
  Forall (λ entry, ivd_type entry.2 ≠ None) (dd_arguments definition) ∧
  Forall (λ entry, match argument_value entry.2 with
    | Some v => flat v && printable v = true
    | None => False
    end) (directive_arguments directive).

(** Every directive is, where it has a definition. *)
Definition directives_complete (s : GraphQlSchema) : Prop :=
  Forall (λ directive,
    match find (identifier (directive_name directive)) (directive_definitions (parser s)) with
    | Some p =>
        match heap s !! p with
        | Some (NDecl d) =>
            match as_directive_definition d with
            | Some definition => arguments_complete directive definition
            | None => True
            end
        | _ => True
        end
    | None => True
    end) (directives (parser s)).

#[export] Instance arguments_complete_dec directive definition :
  Decision (arguments_complete directive definition).
Proof.
  unfold arguments_complete. repeat apply and_dec; try apply _.
  apply list.Forall_dec. intros entry. destruct (argument_value entry.2); apply _.
Defined.

#[export] Instance directives_complete_dec s : Decision (directives_complete s).
Proof.
  apply list.Forall_dec. intros directive. destruct (find _ _) as [p|]; [|apply _].
  destruct (heap s !! p) as [[|d]|]; [apply _| |apply _]. destruct (as_directive_definition d); apply _.
Defined.

Section directives.
Context (ub : Prop).
Local Abbreviation reports := (reports ub).
Local Abbreviation decides := (decides ub).

Lemma reports_fold_each {A B} T (G : A → Prop) (f : B → A → B) (l : list A) body b s :
  (∀ x acc k, x ∈ l → reports (¬ G x) (body acc x) (λ acc' k', acc' = f acc x ∧ verdict T (G x) k')
    (reported k s)) →
  reports (¬ ∀ x, x ∈ l → G x) (fold_each l body b)
    (λ acc k, acc = foldl f b l ∧ verdict T (∀ x, x ∈ l → G x) k) s.
Proof.
  revert b s. induction l as [|x l IH]; intros b s Hbody; simpl.
  - apply reports_ret. split; [done|]. apply verdict_accept. intros x Hx. by apply not_elem_of_nil in Hx.
  - eapply (reports_bind _ _ _ _ (λ acc k, acc = f b x ∧ verdict T (G x) k)).
    { eapply reports_mono; [rewrite <- (reported_nil s); apply Hbody; left|done|].
      intros Hx HG. apply Hx, HG. left. }
    intros ? k [-> Hk]. eapply reports_mono; [apply IH| |].
    + intros y acc k' Hy. rewrite reported_app. apply Hbody. by right.
    + intros acc k' [-> Hk']. split; [done|]. eapply verdict_iff; [|exact (verdict_app _ _ _ _ _ Hk Hk')].
      split; [|by intros HG; split; [apply HG; left|intros y Hy; apply HG; by right]].
      intros [Hx Hl] y [->|Hy]%elem_of_cons; auto.
    + intros Hno HG. apply Hno. intros y Hy. apply HG. by right.
Qed.

(** What follows a check that decides. *)
Lemma decides_bind {B} T (G : Prop) (m : M GraphQlSchema unit) (k : unit → M GraphQlSchema B)
    (R : B → list DiagnosticMessage → Prop) s :
  decides T G m s →
  (∀ l, verdict T G l → reports (¬ G) (k tt) (λ b l', R b (l ++ l')) (reported l s)) →
  reports (¬ G) (m ≫= k) R s.
Proof. intros Hm Hk. eapply reports_bind; [exact Hm|]. intros [] l Hl. by apply Hk. Qed.

Lemma check_value_reports v p t s :
  flat v = true → printable v = true → located s → heap s !! p = Some (NType t) → type_valid t →
  decides value_errors (assignable v t = true) (check_value v p) s.
Proof.
  intros Hf Hp Hs Hpt Ht. apply (wp_weaken_ub _ False); [done|].
  eapply wp_mono; [by apply check_value_flat|done|].
  intros e s' [[He|[_ Hno]] HG]; [done|congruence].
Qed.

(** The arguments of the definition that were given, in front of those before. *)
Definition given (directive : Directive) (names : list ustring)
    (entry : ustring * InputValueDefinition) : list ustring :=
  match find entry.1 (directive_arguments directive) with
  | Some _ => if decide (entry.1 ∈ names) then names else entry.1 :: names
  | None => names
  end.

Lemma check_directive_argument_reports directive definition entry names k s :
  located s → arguments_complete directive definition → argument_ok (heap s) entry →
  entry ∈ dd_arguments definition →
  reports (¬ argument_given (heap s) directive entry) (check_directive_argument directive names entry)
    (λ names' l, names' = given directive names entry ∧
      verdict directive_errors (argument_given (heap s) directive entry) l) (reported k s).
Proof.
  intros Hs Hc [Hname Htype] Hin. destruct entry as [key a]. cbn [fst snd] in Hname, Htype.
  unfold check_directive_argument, argument_given, given. cbn [fst snd]. rewrite Hname.
  destruct Hc as (_ & _ & Htypes & Hvalues).
  pose proof (Forall_elem _ _ _ Htypes Hin) as Hsome. cbn [snd] in Hsome.
  destruct (ivd_type a) as [p|]; [|done]. destruct (Htype p eq_refl) as (t & Hp & Ht).
  eapply reports_deref; [done|]. destruct (find key (directive_arguments directive)) as [argument|] eqn:Hf.
  - pose proof (Forall_elem _ _ _ Hvalues (find_Some_elem _ _ _ Hf)) as Hv. cbn [snd] in Hv.
    destruct (argument_value argument) as [v|] eqn:Ev; [|done]. apply andb_true_iff in Hv as [Hflat Hprint].
    eapply reports_deref; [done|].
    assert (HG : assignable v t = true ↔ ∃ p' t', Some p = Some p' ∧ heap s !! p' = Some (NType t') ∧
      ∃ v', Some v = Some v' ∧ assignable v' t' = true) by naive_solver.
    eapply decides_bind.
    + eapply (decides_weaken _ value_errors); [by intros d ->%list_elem_of_singleton; do 4 right; left|].
      eapply decides_iff; [exact HG|]. by apply (check_value_reports v p t (reported k s)).
    + intros l Hl. apply reports_ret. rewrite app_nil_r. by split.
  - eapply reports_read_type; [exact Hp|].
    assert (HG : is_non_null t || is_non_null_list t = false ↔ ∃ p' t', Some p = Some p' ∧
      heap s !! p' = Some (NType t') ∧ is_non_null t' || is_non_null_list t' = false) by naive_solver.
    eapply decides_bind.
    + eapply decides_iff; [exact HG|]. destruct (is_non_null t || is_non_null_list t).
      * apply decides_reject; [done|done|by do 3 right; left].
      * by apply decides_accept.
    + intros l Hl. apply reports_ret. rewrite app_nil_r. by split.
Qed.

Lemma given_elem directive l names n :
  n ∈ foldl (given directive) names l ↔
    n ∈ names ∨ n ∈ map fst l ∧ find n (directive_arguments directive) ≠ None.
Proof.
  revert names. induction l as [|[key a] l IH]; intros names; cbn [foldl map fst].
  - split; [by left|]. intros [?|[?%not_elem_of_nil _]]; done.
  - rewrite IH, elem_of_cons. unfold given. cbn [fst].
    destruct (find key (directive_arguments directive)) eqn:Hf; [case_decide|]; rewrite ?elem_of_cons; naive_solver.
Qed.

Lemma given_distinct directive l names : NoDup names → NoDup (foldl (given directive) names l).
Proof.
  revert names. induction l as [|[key a] l IH]; intros names Hn; cbn [foldl]; [done|]. apply IH.
  unfold given. cbn [fst]. destruct (find key _); [|done]. case_decide; [done|]. by apply list.NoDup_cons.
Qed.

Lemma find_key {V} (m : std_map ustring V) n : n ∈ map fst m ↔ find n m ≠ None.
Proof.
  induction m as [|[key v] m IH]; cbn [map fst find].
  - by rewrite elem_of_nil.
  - rewrite elem_of_cons, IH. case_decide; naive_solver.
Qed.

Lemma given_names directive definition n :
  n ∈ foldl (given directive) [] (dd_arguments definition) ↔
    n ∈ map fst (dd_arguments definition) ∧ n ∈ map fst (directive_arguments directive).
Proof. rewrite given_elem, (find_key (directive_arguments directive)), elem_of_nil. tauto. Qed.

(** There are as many names that were given as there are arguments exactly when all
    arguments are known. *)
Lemma given_all directive definition :
  arguments_complete directive definition →
  (length (directive_arguments directive) ≤ length (foldl (given directive) [] (dd_arguments definition)))%nat ↔
  ∀ name, name ∈ map fst (directive_arguments directive) → name ∈ map fst (dd_arguments definition).
Proof.
  intros Hc. pose proof (proj1 Hc) as Hkeys%NoDup_ListNoDup.
  pose proof (given_distinct directive (dd_arguments definition) [] NoDup_nil_2) as Hnames%NoDup_ListNoDup.
  rewrite <- (length_map fst (directive_arguments directive)). split.
  - intros Hlen name Hname%list_elem_of_In.
    pose proof (List.NoDup_length_incl Hnames Hlen) as Hincl.
    apply (given_names directive definition name), list_elem_of_In, Hincl; [|done].
    intros x Hx%list_elem_of_In. apply list_elem_of_In. by apply given_names in Hx as [_ ?].
  - intros Hall. apply (List.NoDup_incl_length Hkeys).
    intros x Hx%list_elem_of_In. apply list_elem_of_In, given_names. auto.
Qed.

Lemma unknown_reports directive definition k s :
  arguments_complete directive definition →
  let names := foldl (given directive) [] (dd_arguments definition) in
  decides directive_errors (arguments_known directive definition)
    (when (length names <? length (directive_arguments directive))%nat
      (for_each (directive_arguments directive) (check_unknown_argument names))) (reported k s).
Proof.
  intros Hc names. pose proof (given_all _ _ Hc) as Hall. fold names in Hall.
  assert (Hkey : ∀ a, a ∈ directive_arguments directive → a.1 ∈ map fst (directive_arguments directive))
    by (intros a Ha; by apply list_elem_of_In, (in_map fst), list_elem_of_In).
  destruct (Nat.ltb_spec (length names) (length (directive_arguments directive))) as [Hlt|Hle].
  2: { apply decides_accept. left. by apply Hall. }
  eapply decides_iff; [|apply (reports_for_each _ directive_errors (λ a, a.1 ∉ names))].
  - unfold arguments_known. split.
    + intros Hno. right. intros name Hname Hknown. pose proof Hname as Hname'.
      apply list_elem_of_In, List.in_map_iff in Hname as (a & <- & Ha). apply list_elem_of_In in Ha.
      by apply (Hno a Ha), given_names.
    + intros [Hyes|Hnone] a Ha; [apply Hall in Hyes; lia|].
      intros [Hknown _]%given_names. by apply (Hnone a.1); [apply Hkey|].
  - intros a k' Ha. unfold check_unknown_argument. rewrite (Forall_elem _ _ _ (proj1 (proj2 Hc)) Ha).
    case_bool_decide as E; [|by apply decides_accept].
    eapply reports_mono; [apply (reports_add _ (¬ (a.1 ∉ names)))| |done].
    intros ? l Hl. eapply verdict_reject; [|by do 5 right; left|exact Hl]. by intros Hno.
Qed.

(** One check behind another. *)
Lemma decides_and T (G G' : Prop) m m' s :
  decides T G m s → (∀ k, decides T G' m' (reported k s)) → decides T (G ∧ G') (m;; m') s.
Proof.
  intros Hm Hm'. eapply (reports_bind _ _ _ _ (λ _, verdict T G)).
  - eapply reports_mono; [exact Hm|done|tauto].
  - intros ? l Hl. eapply reports_mono; [apply Hm'| |tauto]. intros ? l' Hl'. by apply verdict_app.
Qed.

Definition other_parent (h : list Node) (directive : Directive) : Prop :=
  ∀ p, directive_parent directive = Some p →
    ¬ named_at h p S_DirectiveDefinition (identifier (directive_name directive)).

Lemma check_parent_reports directive k s :
  located s → parent_ok (heap s) (directive_parent directive) →
  decides directive_errors (other_parent (heap s) directive)
    (match directive_parent directive with
     | None => mret tt
     | Some parent =>
         parent_name ← read_decl_name parent;
         when (bool_decide (identifier parent_name = identifier (directive_name directive)))
           (diagnose (directive_syntax directive) Directive_cannot_reference_itself [])
     end) (reported k s).
Proof.
  intros Hs Hparent. unfold other_parent.
  destruct (directive_parent directive) as [p|]; [|by apply decides_accept].
  destruct (Hparent p eq_refl) as (name & d & n & Hp & Hk & Hn & Hname).
  apply wp_bind. unfold read_decl_name. wp_step. unfold read_decl. do 2 wp_step. cbn. rewrite Hp. wp_step.
  rewrite Hn. unfold deref. wp_step. case_bool_decide as E.
  - apply decides_reject; [done| |by right; left]. intros Hno. apply (Hno p eq_refl). by exists d, n.
  - apply decides_accept. intros ? [= <-] (d' & n' & Hp' & _ & Hn' & ?). congruence.
Qed.

Lemma check_location_reports directive definition k s :
  located s →
  decides directive_errors (directive_location directive ∈ locations definition)
    (check_directive_location directive definition) (reported k s).
Proof.
  intros Hs. unfold check_directive_location. case_bool_decide as E; [|apply decides_accept].
  - eapply (reports_bind _ _ _ _ (λ _ l, l = [])).
    + unfold location_string. destruct (directiveLocationToString _); [by apply reports_ret|].
      apply wp_throw. by split; [right|].
    + intros text ? ->. cbn [app]. rewrite reported_nil. by apply decides_reject; [done| |do 2 right; left].
  - done.
Qed.

Lemma check_directive_reference_reports ub' directive k s :
  schema_ok ub' s → parent_ok (heap s) (directive_parent directive) →
  (∀ p d definition, find (identifier (directive_name directive)) (directive_definitions (parser s)) = Some p →
    heap s !! p = Some (NDecl d) → as_directive_definition d = Some definition →
    arguments_complete directive definition) →
  decides directive_errors (directive_valid s directive) (check_directive_reference directive) (reported k s).
Proof.
  intros Hok Hparent Hcomplete. pose proof (schema_ok_located _ _ Hok) as Hs.
  unfold check_directive_reference. apply reports_gets. cbn [reported parser set_parser].
  change (directive_definitions (set_diagnostics _ (parser s))) with (directive_definitions (parser s)).
  destruct (find (identifier (directive_name directive)) (directive_definitions (parser s))) as [p|] eqn:Hf.
  2: { apply decides_reject; [done| |by left]. intros (p & _ & _ & Hp & _). congruence. }
  destruct (so_directive_definitions _ _ Hok _ _ Hf) as (d & n & Hp & Hk & _).
  destruct (body d) as [| | | | |definition|] eqn:Hb; try done.
  assert (Hd : as_directive_definition d = Some definition) by (unfold as_directive_definition; by rewrite Hb).
  pose proof (Hcomplete p d definition eq_refl Hp Hd) as Hc.
  pose proof (so_heap _ _ Hok _ _ Hp) as [Hargs _]. rewrite Hb in Hargs.
  eapply decides_iff; [|apply (decides_and directive_errors (other_parent (heap s) directive)
    (directive_location directive ∈ locations definition ∧
     (∀ entry, entry ∈ dd_arguments definition → argument_given (heap s) directive entry) ∧
     arguments_known directive definition)); [by apply check_parent_reports|]].
  { split.
    - intros (H1 & H2 & H3 & H4). exists p, d, definition. split_and!; [done..|]. by split.
    - intros (p' & d' & definition' & Hf' & Hp' & Hd' & [H1 H2 H3 H4]). simplify_eq. by split_and!. }
  intros k1. rewrite reported_app. eapply reports_read_decl; [exact Hp|]. eapply reports_deref; [exact Hd|].
  apply decides_and; [by apply check_location_reports|]. intros k2. rewrite reported_app.
  eapply (reports_bind _ _ _ _ (λ names l, names = foldl (given directive) [] (dd_arguments definition) ∧
    verdict directive_errors (∀ entry, entry ∈ dd_arguments definition → argument_given (heap s) directive entry) l)).
  - eapply reports_mono; [apply (reports_fold_each directive_errors (argument_given (heap s) directive)
      (given directive))|done|tauto].
    intros entry names k3 Hin. rewrite reported_app. eapply check_directive_argument_reports; [done|exact Hc| |done].
    by eapply Forall_elem.
  - intros ? l [-> Hl]. rewrite reported_app. eapply reports_mono; [by apply unknown_reports| |tauto].
    intros ? l' Hl'. by apply verdict_app.
Qed.
End directives.
