(* ===== verification/SchemaFrames.v ===== *)
(** * The checks that write: roots and references to types

    Which declaration [query], [mutation] and [subscription] are assigned -- the one
    registered under the name the schema definition gives, or under the default
    name -- and what becomes of the references to types.  Both checks leave the
    tables and the invariant as they are. *)
From S2P Require Import Prelude Monad Character Cstring Diagnostic StdMap Syntaxes.
From S2P Require Import TextWriter Scanner ScannerSpec Parser ParserSpec Schema.
From S2P Require Import SchemaInvariant SchemaRules SchemaChecks SchemaChecksSpec.

Definition root_of (r : RootType) (s : GraphQlSchema) : root :=
  match r with
  | Query => query s
  | Mutation => mutation s
  | Subscription => subscription s
  end.

(** The root the schema definition at [p] declares. *)
Definition declared_root (h : list Node) (p : ptr) (r : RootType) : option Name :=
  match h !! p with
  | Some (NDecl d) => match body d with BSchema v => schema_root r v | _ => None end
  | _ => None
  end.

(** The name of a root operation type. *)
Definition root_name (h : list Node) (p : ptr) (r : RootType) : ustring :=
  from_option identifier (root_type_name r) (declared_root h p r).

Definition root_declaration (s : GraphQlSchema) (p : ptr) (r : RootType) : option ptr :=
  declaration <$> find (root_name (heap s) p r) (symbols s).

(** Only the query type is required when none is declared. *)
Definition root_ok (s : GraphQlSchema) (p : ptr) (r : RootType) : Prop :=
  root_declaration s p r ≠ None ∨ (declared_root (heap s) p r = None ∧ r ≠ Query).

Definition root_errors : list D := [Type_0_is_not_defined; No_query_root_operation_type_defined].

#[local] Arguments u : simpl never.

(** What a root operation type depends on. *)
Record same_roots (p : ptr) (s s' : GraphQlSchema) : Prop := {
  sr_symbols : symbols s' = symbols s;
  sr_declared : ∀ r, declared_root (heap s') p r = declared_root (heap s) p r;
  sr_class : class_at (heap s) p S_Schema → class_at (heap s') p S_Schema
}.

#[export] Instance same_roots_preorder p : PreOrder (same_roots p).
Proof.
  split; [by split|]. intros s1 s2 s3 [] []. split; [congruence| |auto].
  intros r. congruence.
Qed.

Lemma same_roots_declaration p s s' r :
  same_roots p s s' → root_declaration s' p r = root_declaration s p r.
Proof. intros [Hs Hd _]. unfold root_declaration, root_name. by rewrite Hs, Hd. Qed.

Lemma same_roots_ok p s s' r : same_roots p s s' → root_ok s' p r ↔ root_ok s p r.
Proof.
  intros Hs. unfold root_ok. rewrite (same_roots_declaration _ _ _ r Hs). by rewrite (sr_declared _ _ _ Hs).
Qed.

(** One root was set: [r] and no other one is assigned. *)
Definition root_set (p : ptr) (r : RootType) (s s' : GraphQlSchema) : Prop :=
  same_roots p s s' ∧
  (∀ r', r' ≠ r → root_of r' s' = root_of r' s) ∧
  (root_ok s p r → root_of r s' = Assigned (root_declaration s p r)) ∧
  (¬ root_ok s p r → root_of r s' = root_of r s) ∧
  ∃ l, diagnostics (parser s') = diagnostics (parser s) ++ l ∧ verdict root_errors (root_ok s p r) l.

Lemma assign_root_set p r q s t :
  root_ok s p r → root_declaration s p r = q → same_roots p s t →
  parser t = parser s → (∀ r', root_of r' t = root_of r' s) →
  ∀ ub X, wp ub (assign_root r q) (λ _ s', root_set p r s s') X t.
Proof.
  intros Hok Hq Hs Hp Hr ub X. unfold assign_root. wp_step.
  split; [transitivity t; [done|by destruct r; split]|].
  split; [intros r' Hne; rewrite <- Hr; by destruct r, r'|].
  split; [intros _; rewrite Hq; by destruct r|].
  split; [done|]. exists []. rewrite app_nil_r. split; [rewrite <- Hp; by destruct r|].
  by apply verdict_accept.
Qed.

Lemma root_rejected p r l s :
  ¬ root_ok s p r → (∃ d, d ∈ root_errors ∧ map _template l = [d]) →
  root_set p r s (reported l s).
Proof.
  intros Hno (d & Hd & Hl). split; [by split|]. split; [by intros []|]. split; [done|].
  split; [by destruct r|]. exists l. split; [done|]. by eapply verdict_reject.
Qed.

(** [x->query_object = ...] changes no declared root. *)
Lemma set_root_object_same p d v r q s :
  heap s !! p = Some (NDecl d) → body d = BSchema v →
  same_roots p s (set_heap (<[p := NDecl (set_body (map_schema (set_root_object r q) (body d)) d)]>
    (heap s)) s).
Proof.
  intros Hp Hb. pose proof (lookup_lt_Some _ _ _ Hp) as Hlt. split; [done| |].
  - intros r'. unfold declared_root. simpl. rewrite list_lookup_insert_eq by done. rewrite Hp, Hb.
    simpl. by destruct v, r, r'.
  - intros _. eexists. simpl. rewrite list_lookup_insert_eq by done. rewrite Hb. by split.
Qed.

Lemma wp_add_diagnostic ub d args (Q : unit → GraphQlSchema → Prop) X s :
  (∀ l, map _template l = [d] → Q tt (reported l s)) → wp ub ⟨add_diagnostic d args⟩ Q X s.
Proof.
  intros HQ. wp_step. unfold add_diagnostic, Parser.get_token_location, add_diagnostic_at.
  repeat wp_step. by apply HQ.
Qed.

Lemma set_root_type_spec ub p r s X :
  class_at (heap s) p S_Schema →
  wp ub (set_root_type p r) (λ _ s', root_set p r s s') X s.
Proof.
  intros (d & Hp & Hk). destruct (body d) as [| | | | | |v] eqn:Hb; try done.
  assert (Hdecl : declared_root (heap s) p r = schema_root r v).
  { unfold declared_root. by rewrite Hp, Hb. }
  assert (Hread : ∀ Q, Q v s → wp ub (read_schema p) Q X s).
  { intros Q HQ. unfold read_schema, read_decl. do 3 wp_step. rewrite Hp. wp_step. by rewrite Hb. }
  unfold set_root_type. wp_step. apply Hread. do 2 wp_step.
  unfold root_declaration, root_name, root_ok in *.
  destruct (schema_root r v) as [name|] eqn:Hr.
  - destruct (find (identifier name) (symbols s)) as [symbol|] eqn:Hf.
    + assert (Hd : root_declaration s p r = Some (declaration symbol)).
      { unfold root_declaration, root_name. rewrite Hdecl. simpl. by rewrite Hf. }
      wp_step. unfold update_body, update_decl, read_decl. do 3 wp_step. rewrite Hp. wp_step. wp_step.
      apply assign_root_set; [left; by rewrite Hd|done|by apply (set_root_object_same _ _ v)|done|].
      by intros [].
    + apply wp_add_diagnostic. intros l Hl. apply root_rejected.
      * intros [H|[H _]]; [|congruence]. apply H. unfold root_declaration, root_name.
        rewrite Hdecl. simpl. by rewrite Hf.
      * eexists. split; [|done]. by left.
  - destruct (find (root_type_name r) (symbols s)) as [symbol|] eqn:Hf.
    + assert (Hd : root_declaration s p r = Some (declaration symbol)).
      { unfold root_declaration, root_name. rewrite Hdecl. simpl. by rewrite Hf. }
      apply assign_root_set; [left; by rewrite Hd|done|done|done|done].
    + assert (Hd : root_declaration s p r = None).
      { unfold root_declaration, root_name. rewrite Hdecl. simpl. by rewrite Hf. }
      destruct r; simpl.
      2-3: apply assign_root_set; [by right|done..].
      wp_step. unfold add_diagnostic_at. wp_step.
      apply (root_rejected _ _ [_]); [by intros [H|[_ H]]|].
      eexists. split; [|done]. right. by left.
Qed.

Lemma root_set_ok p r r' s s' : root_set p r s s' → root_ok s' p r' ↔ root_ok s p r'.
Proof. intros [Hs _]. by apply same_roots_ok. Qed.

(** The roots of [s'] against the state the roots are looked up in. *)
Definition roots_set (p : ptr) (s s' : GraphQlSchema) : Prop :=
  (∀ r, root_ok s p r → root_of r s' = Assigned (root_declaration s p r)) ∧
  (∀ r, ¬ root_ok s p r → root_of r s' = root_of r s) ∧
  ∃ l, diagnostics (parser s') = diagnostics (parser s) ++ l ∧
    verdict root_errors (∀ r, root_ok s p r) l.

Lemma roots_set_chain p s s1 s2 s3 :
  root_set p Query s s1 → root_set p Mutation s1 s2 → root_set p Subscription s2 s3 →
  roots_set p s s3.
Proof.
  intros (F1 & O1 & A1 & N1 & l1 & D1 & V1) (F2 & O2 & A2 & N2 & l2 & D2 & V2)
    (F3 & O3 & A3 & N3 & l3 & D3 & V3).
  assert (F12 : same_roots p s s2) by by transitivity s1.
  pose proof (same_roots_ok _ _ _ Mutation F1) as Hm.
  pose proof (same_roots_ok _ _ _ Subscription F12) as Hs.
  rewrite (same_roots_declaration _ _ _ _ F1) in A2.
  rewrite (same_roots_declaration _ _ _ _ F12) in A3.
  split_and!.
  - intros [] Hr; [rewrite O3, O2 by done; auto|rewrite O3 by done; tauto|tauto].
  - intros [] Hr.
    + rewrite O3, O2 by done. auto.
    + rewrite O3 by done. etransitivity; [apply N2; tauto|by apply O1].
    + etransitivity; [apply N3; tauto|]. etransitivity; [by apply O2|by apply O1].
  - exists (l1 ++ l2 ++ l3). split; [by rewrite D3, D2, D1, <- !app_assoc|].
    eapply verdict_iff; [|eapply verdict_app; [exact V1|eapply verdict_app; [exact V2|exact V3]]].
    split; [|intros H; pose proof (H Query); pose proof (H Mutation); pose proof (H Subscription); tauto].
    intros (? & ? & ?) []; tauto.
Qed.

(** The roots after [set_root_types]. *)
Lemma set_root_types_spec ub p s X :
  class_at (heap s) p S_Schema →
  wp ub (set_root_types p) (λ _ s', roots_set p s s') X s.
Proof.
  intros Hp. unfold set_root_types.
  wp_call set_root_type_spec; [done| |done]. intros _ s1 H1.
  assert (Hp1 : class_at (heap s1) p S_Schema) by by apply H1.
  wp_call set_root_type_spec; [done| |done]. intros _ s2 H2.
  assert (Hp2 : class_at (heap s2) p S_Schema) by by apply H2.
  eapply wp_mono; [by apply set_root_type_spec| |done]. intros ? s3 H3.
  by eapply roots_set_chain.
Qed.

(** ** Frames *)

(** Everything but the roots, the diagnostics and what the heap has of types and
    schema definitions. *)
Record keeps (s s' : GraphQlSchema) : Prop := {
  kp_ok : ∀ ub, schema_ok ub s → schema_ok ub s';
  kp_definitions : definitions s' = definitions s;
  kp_symbols : symbols s' = symbols s;
  kp_interfaces : interfaces s' = interfaces s;
  kp_unions : unions s' = unions s;
  kp_objects : objects_with_implementations s' = objects_with_implementations s;
  kp_forward : forward_type_references s' = forward_type_references s;
  kp_directives : directives (parser s') = directives (parser s);
  kp_heap : heap_le (heap s) (heap s');
  kp_decls : ∀ q d, heap s !! q = Some (NDecl d) → body_kind (body d) ≠ S_Schema →
    heap s' !! q = Some (NDecl d)
}.

#[export] Instance keeps_preorder : PreOrder keeps.
Proof.
  split; [by split|]. intros s1 s2 s3 [] []. split; [auto|congruence..|by etrans|auto].
Qed.

Lemma keeps_reported l s : keeps s (reported l s).
Proof. split; [|done..]. intros ub [[] ]. by split. Qed.

Lemma keeps_heap h s :
  heap_le (heap s) h → (heap_ok (heap s) → heap_ok h) →
  (∀ q d, heap s !! q = Some (NDecl d) → body_kind (body d) ≠ S_Schema → h !! q = Some (NDecl d)) →
  keeps s (set_heap h s).
Proof.
  intros Hle Hok Hd. split; [|done..]. intros ub Hs.
  eapply builds_ok, builds_heap_only; [done|done|]. apply Hok, Hs.
Qed.

(** The types of a heap stay. *)
Definition same_types (h h' : list Node) : Prop :=
  ∀ (p : ptr) t, h !! p = Some (NType t) → h' !! p = Some (NType t).

#[export] Instance same_types_preorder : PreOrder same_types.
Proof. split; [by intros h p t|]. intros h h' h'' H H' p t Hp. by apply H', H. Qed.

(** ** The roots *)

Definition keeps_types (s s' : GraphQlSchema) : Prop := keeps s s' ∧ same_types (heap s) (heap s').

#[export] Instance keeps_types_preorder : PreOrder keeps_types.
Proof. split; [by intros s; split|]. intros s1 s2 s3 [? ?] [? ?]. split; by etrans. Qed.

Lemma keeps_parser_heap s s' :
  keeps s s' → heap s' = heap s → keeps_types s s'.
Proof. intros Hk Hh. split; [done|by rewrite Hh]. Qed.

Lemma assign_root_keeps ub r p s X :
  wp ub (assign_root r p) (λ _ s', keeps_types s s') X s.
Proof.
  unfold assign_root. wp_step. apply keeps_parser_heap; [|by destruct r].
  destruct r; (split; [|done..]); intros ub' []; by split.
Qed.

Lemma set_root_object_keeps p d v r q s :
  heap s !! p = Some (NDecl d) → body d = BSchema v →
  keeps_types s (set_heap (<[p := NDecl (set_body (map_schema (set_root_object r q) (body d)) d)]>
    (heap s)) s).
Proof.
  intros Hp Hb. pose proof (lookup_lt_Some _ _ _ Hp) as Hlt.
  assert (Hle : node_le (NDecl d) (NDecl (set_body (map_schema (set_root_object r q) (body d)) d))).
  { rewrite Hb. split_and!; cbn; rewrite ?Hb; auto. }
  split.
  - apply keeps_heap; [by eapply heap_le_insert|..].
    + intros Hok. eapply heap_ok_insert; [done..|]. intros d' [= <-]. by rewrite Hb.
    + intros q' d' Hq' Hk. rewrite list_lookup_insert_ne; [done|]. intros <-.
      rewrite Hp in Hq'. injection Hq' as <-. by rewrite Hb in Hk.
  - intros q' t Hq'. cbn. rewrite list_lookup_insert_ne; [done|]. intros <-. by rewrite (Hp : heap s !! (p : ptr) = _) in Hq'.
Qed.

Lemma set_root_type_keeps ub p r s X :
  class_at (heap s) p S_Schema →
  wp ub (set_root_type p r) (λ _ s', keeps_types s s') X s.
Proof.
  intros (d & Hp & Hk). destruct (body d) as [| | | | | |v] eqn:Hb; try done.
  assert (Hread : ∀ Q, Q v s → wp ub (read_schema p) Q X s).
  { intros Q HQ. unfold read_schema, read_decl. do 3 wp_step. rewrite Hp. wp_step. by rewrite Hb. }
  assert (Hreject : ∀ l, keeps_types s (reported l s)).
  { intros l. apply keeps_parser_heap; [apply keeps_reported|done]. }
  unfold set_root_type. wp_step. apply Hread. do 2 wp_step.
  destruct (schema_root r v) as [name|]; destruct (find _ (symbols s)) as [symbol|].
  - wp_step. unfold update_body, update_decl, read_decl. do 3 wp_step. rewrite Hp. wp_step. wp_step.
    eapply wp_mono; [apply assign_root_keeps| |done]. intros ? s' Hs'. etrans; [|exact Hs'].
    by eapply set_root_object_keeps.
  - apply wp_add_diagnostic. auto.
  - apply assign_root_keeps.
  - destruct r; simpl; [|apply assign_root_keeps..]. wp_step. unfold add_diagnostic_at. wp_step.
    apply (Hreject [_]).
Qed.

(** The roots, and everything else. *)
Lemma set_root_types_keeps ub p s X :
  class_at (heap s) p S_Schema →
  wp ub (set_root_types p) (λ _ s', roots_set p s s' ∧ keeps_types s s') X s.
Proof.
  intros Hp. eapply (wp_mono _ _ (λ _ s', roots_set p s s' ∧ keeps_types s s') _ (λ e s', X e s' ∧ X e s'));
    [apply wp_and; [by apply set_root_types_spec|]|done|by intros ? ? []].
  unfold set_root_types. wp_call set_root_type_keeps; [done| |done]. intros _ s1 H1.
  assert (Hp1 : class_at (heap s1) p S_Schema) by (eapply class_at_mono; [exact (kp_heap _ _ (proj1 H1))|done]).
  wp_call set_root_type_keeps; [done| |done]. intros _ s2 H2.
  assert (Hp2 : class_at (heap s2) p S_Schema) by (eapply class_at_mono; [exact (kp_heap _ _ (proj1 H2))|done]).
  eapply wp_mono; [by apply set_root_type_keeps| |done]. intros ? s3 H3.
  etrans; [exact H1|]. by etrans.
Qed.

(** ** References to types *)

(** A type of the kind can be used there. *)
Definition usable (k : SymbolKind) (input : bool) : bool :=
  match k with
  | SL_Enum | SL_None => true
  | SL_InputObject => input
  | _ => negb input
  end.

Definition reference_ok (table : std_map ustring Symbol) (name : ustring) (input : bool) : Prop :=
  ∃ symbol, find name table = Some symbol ∧ usable (symbol_kind symbol) input = true.

Definition reference_errors : list D :=
  [Type_0_is_not_defined; Cannot_add_an_input_type_to_an_output_location;
   Cannot_add_an_output_type_to_an_input_location].

(** A reference to an enum becomes one of an enum type. *)
Definition resolve (table : std_map ustring Symbol) (t : Type_) : Type_ :=
  match type_name t ≫= λ n, find (identifier n) table with
  | Some symbol => if decide (symbol_kind symbol = SL_Enum) then set_type T_Enum t else t
  | None => t
  end.

Lemma resolve_same table t :
  type_name (resolve table t) = type_name t ∧ type_parent (resolve table t) = type_parent t ∧
  in_input_location (resolve table t) = in_input_location t.
Proof. unfold resolve. repeat case_match; done. Qed.

Lemma resolve_valid table t : type_valid t → type_valid (resolve table t).
Proof.
  unfold resolve. destruct (type_name t) as [n|] eqn:Hn; [|done]. cbn [mbind option_bind].
  destruct (find _ _) as [symbol|]; [|done]. case_decide; [|done].
  intros _. unfold type_valid. cbn. by rewrite Hn.
Qed.

Lemma resolve_twice table t : resolve table (resolve table t) = resolve table t.
Proof.
  unfold resolve at 1. rewrite (proj1 (resolve_same table t)). unfold resolve. by repeat case_match.
Qed.

(** The references [done_] were checked. *)
Definition resolved (table : std_map ustring Symbol) (done_ : list ptr) (h h' : list Node) : Prop :=
  ∀ p : ptr, h' !! p = match h !! p with
    | Some (NType t) => Some (NType (if decide (p ∈ done_) then resolve table t else t))
    | n => n
    end.

Lemma resolved_nil table h : resolved table [] h h.
Proof.
  intros p. destruct (h !! p) as [[t|d]|]; [|done..].
  by rewrite decide_False by apply not_elem_of_nil.
Qed.

Lemma resolved_snoc table done_ p t h h' :
  resolved table done_ h h' → h !! p = Some (NType t) →
  resolved table (done_ ++ [p]) h (<[p := NType (resolve table t)]> h').
Proof.
  intros Hh Hp q. pose proof (Hh p) as Hp'. rewrite Hp in Hp'. destruct (decide (p = q)) as [<-|Hne].
  - rewrite list_lookup_insert_eq by by eapply lookup_lt_Some.
    rewrite Hp, decide_True; [done|]. rewrite elem_of_app. right; left.
  - rewrite list_lookup_insert_ne, Hh by done. destruct (h !! q) as [[t'|d]|]; [|done..].
    do 3 f_equal. apply decide_ext. rewrite elem_of_app, list_elem_of_singleton.
    split; [by left|]. by intros [?|E]; [|by destruct Hne].
Qed.

(** The references of the schema parser, which are those of no directive definition. *)
Definition free_reference (h : list Node) (p : ptr) : Prop :=
  ∃ t n, h !! p = Some (NType t) ∧ type_name t = Some n ∧ type_parent t = None.

(** Every type that is referred to is defined, and can be used there. *)
Definition references_ok (s : GraphQlSchema) (l : list ptr) : Prop :=
  ∀ p t n, p ∈ l → heap s !! p = Some (NType t) → type_name t = Some n →
    reference_ok (symbols s) (identifier n) (in_input_location t).

Section references.
Context (ub : Prop).

Lemma no_parent_reports p t s :
  heap s !! p = Some (NType t) → type_parent t = None →
  reports ub False (check_parent_directive p) (λ _ l, l = []) s.
Proof.
  intros Hp Ht. unfold check_parent_directive. eapply reports_read_type; [exact Hp|].
  rewrite Ht. by apply reports_ret.
Qed.

Lemma reference_reports p t n symbol s :
  located s → heap s !! p = Some (NType t) → type_name t = Some n → type_parent t = None →
  find (identifier n) (symbols s) = Some symbol → symbol_kind symbol ≠ SL_Enum →
  decides ub reference_errors (reference_ok (symbols s) (identifier n) (in_input_location t))
    (when (symbol_in (symbol_kind symbol) SymbolKind_Input)
      (when (negb (in_input_location t))
        (diagnose (name_syntax n) Cannot_add_an_input_type_to_an_output_location [identifier n]);;
       check_parent_directive p);;
     when (symbol_in (symbol_kind symbol) SymbolKind_Output && in_input_location t)
       (diagnose (name_syntax n) Cannot_add_an_output_type_to_an_input_location [identifier n])) s.
Proof.
  intros Hs Hp Hn Ht Hf Hk.
  assert (HG : reference_ok (symbols s) (identifier n) (in_input_location t) ↔
    usable (symbol_kind symbol) (in_input_location t) = true).
  { split; [intros (symbol' & Hf' & ?); congruence|by exists symbol]. }
  eapply decides_iff; [symmetry; exact HG|].
  destruct (decide (symbol_kind symbol = SL_InputObject)) as [E|E].
  - rewrite E. cbn [symbol_in]. change (symbol_in SL_InputObject SymbolKind_Input) with true.
    change (symbol_in SL_InputObject SymbolKind_Output) with false. cbn [when andb usable].
    eapply (reports_bind _ _ _ _ (λ _, verdict reference_errors (in_input_location t = true))).
    + destruct (in_input_location t); cbn [negb when].
      * eapply (reports_bind _ _ _ _ (λ _ l, l = [])); [by apply reports_ret|]. intros ? ? ->.
        rewrite reported_nil. eapply reports_mono; [by eapply no_parent_reports| |done].
        intros ? ? ->. by apply verdict_accept.
      * eapply (reports_bind _ _ _ _ (λ _, verdict reference_errors (false = true))).
        { eapply (decides_reject _ _ (false = true)); [done|done|right; left]. }
        intros ? l Hl. eapply reports_mono; [by eapply no_parent_reports| |done].
        intros ? ? ->. by rewrite app_nil_r.
    + intros ? l Hl. apply reports_ret. by rewrite app_nil_r.
  - assert (Hin : symbol_in (symbol_kind symbol) SymbolKind_Input = false)
      by by destruct (symbol_kind symbol).
    rewrite Hin. cbn [when]. eapply (reports_bind _ _ _ _ (λ _ l, l = [])); [by apply reports_ret|].
    intros ? ? ->. rewrite reported_nil. cbn [app].
    destruct (symbol_kind symbol) eqn:E'; try done; cbn -[reference_errors];
      first [by apply decides_accept | destruct (in_input_location t)];
      first [by apply decides_accept | eapply (decides_reject _ _ (false = true)); [done|done|]];
      right; right; left.
Qed.
(** The reference is checked, and becomes one of an enum type when it is one. *)
Lemma check_forward_reference_spec p t n s :
  located s → heap s !! p = Some (NType t) → type_name t = Some n → type_parent t = None →
  let G := reference_ok (symbols s) (identifier n) (in_input_location t) in
  wp ub (check_forward_reference p) (λ _ s', ∃ l,
    s' = reported l (set_heap (<[p := NType (resolve (symbols s) t)]> (heap s)) s) ∧
    verdict reference_errors G l) (λ e _, parse_exn e ∧ ¬ G) s.
Proof.
  intros Hs Hp Hn Ht G. pose proof (lookup_lt_Some _ _ _ Hp) as Hlt.
  unfold check_forward_reference, read_type. do 3 wp_step. rewrite Hp. wp_step.
  rewrite Hn. cbn [deref]. do 4 wp_step.
  assert (Hkept : resolve (symbols s) t = t → ∀ (m : M GraphQlSchema unit), decides ub reference_errors G m s →
    wp ub m (λ _ s', ∃ l,
      s' = reported l (set_heap (<[p := NType (resolve (symbols s) t)]> (heap s)) s) ∧
      verdict reference_errors G l) (λ e _, parse_exn e ∧ ¬ G) s).
  { intros Hr m Hm. eapply wp_mono; [exact Hm| |done]. intros ? s' (l & -> & Hl). exists l.
    rewrite Hr, list_insert_id by done. by destruct s. }
  unfold resolve in *. rewrite Hn in *. cbn [mbind option_bind] in *.
  destruct (find (identifier n) (symbols s)) as [symbol|] eqn:Hf.
  2: { apply Hkept; [done|]. apply decides_reject; [done| |left]. intros (symbol & ? & _). congruence. }
  destruct (decide (symbol_kind symbol = SL_Enum)) as [E|E].
  - rewrite E. change (symbol_in SL_Enum (SymbolKind_value SL_Enum)) with true. cbv iota beta zeta.
    unfold update_type, read_type. do 4 wp_step. rewrite Hp. do 2 wp_step.
    eapply wp_mono; [apply (no_parent_reports p (set_type T_Enum t))| |by intros ? ? []].
    + cbn. by rewrite list_lookup_insert_eq.
    + done.
    + intros ? s' (l & -> & ->). exists []. split; [done|]. apply verdict_accept.
      exists symbol. by rewrite E.
  - replace (symbol_in (symbol_kind symbol) (SymbolKind_value SL_Enum)) with false
      by by destruct (symbol_kind symbol).
    apply Hkept; [done|]. by apply reference_reports.
Qed.
End references.

Lemma check_forward_references_spec ub s :
  located s → Forall (free_reference (heap s)) (forward_type_references s) →
  let G := references_ok s (forward_type_references s) in
  wp ub check_forward_references (λ _ s', ∃ l h, s' = reported l (set_heap h s) ∧
    resolved (symbols s) (forward_type_references s) (heap s) h ∧ verdict reference_errors G l)
    (λ e _, parse_exn e ∧ ¬ G) s.
Proof.
  intros Hs Hfree G. unfold check_forward_references. do 2 wp_step.
  apply (wp_for_each _ (λ rest s', ∃ pre l h, forward_type_references s = pre ++ rest ∧
    s' = reported l (set_heap h s) ∧ resolved (symbols s) pre (heap s) h ∧
    verdict reference_errors (references_ok s pre) l)).
  - exists [], [], (heap s). split_and!; [done| |apply resolved_nil|].
    + rewrite reported_nil. by destruct s.
    + apply verdict_accept. by intros p t n ?%elem_of_nil.
  - intros p rest s' (pre & l & h & Hrefs & -> & Hh & Hl).
    assert (Hp : p ∈ forward_type_references s) by (rewrite Hrefs, elem_of_app; right; left).
    destruct (Forall_elem _ _ _ Hfree Hp) as (t & n & Ht & Hn & Hparent).
    set (t' := if decide (p ∈ pre) then resolve (symbols s) t else t).
    destruct (resolve_same (symbols s) t) as (Hn' & Hparent' & Hinput').
    assert (Hsame : type_name t' = Some n ∧ type_parent t' = None ∧
      in_input_location t' = in_input_location t ∧ resolve (symbols s) t' = resolve (symbols s) t).
    { unfold t'. case_decide; [|done]. rewrite resolve_twice. by split_and!; etrans. }
    destruct Hsame as (Hname & Hpar & Hin & Hres).
    eapply wp_mono; [apply (check_forward_reference_spec _ p t' n); [done| |done..]| |].
    + cbn. pose proof (Hh p) as Hp'. by rewrite Ht in Hp'.
    + intros _ s' (l' & -> & Hl'). cbn in Hl'. rewrite Hin in Hl'.
      exists (pre ++ [p]), (l ++ l'), (<[p := NType (resolve (symbols s) t)]> h).
      split_and!; [by rewrite <- (assoc_L (++))|..].
      * rewrite <- reported_app. cbn. by rewrite Hres.
      * by eapply resolved_snoc.
      * eapply verdict_iff; [|exact (verdict_app _ _ _ _ _ Hl Hl')]. split.
        { intros [Hpre Hthis] q tq nq [Hq| ->%list_elem_of_singleton]%elem_of_app; [by apply Hpre|].
          intros Htq Hnq. by simplify_eq. }
        { intros Hall. split; [|apply (Hall p t n); [rewrite elem_of_app; right; left|done..]].
          intros q tq nq Hq. apply Hall. rewrite elem_of_app. by left. }
    + intros e s' [He Hno]. split; [done|]. intros HG. apply Hno. cbn. rewrite Hin. by apply (HG p t n).
  - intros s' (pre & l & h & Hrefs & -> & Hh & Hl). rewrite app_nil_r in Hrefs. rewrite <- Hrefs in *.
    by exists l, h.
Qed.

(** ** The checks of a document *)

Lemma resolved_keeps l h s : resolved (symbols s) l (heap s) h → keeps s (set_heap h s).
Proof.
  intros Hh. assert (Hle : heap_le (heap s) h).
  { intros p [t|d] Hp; specialize (Hh p); rewrite (Hp : heap s !! (p : ptr) = _) in Hh;
      eexists; (split; [exact Hh|]); [|done].
    case_decide; [|done]. destruct (resolve_same (symbols s) t) as (Hn & Hparent & _).
    split; [apply resolve_valid|by rewrite Hn, Hparent]. }
  apply keeps_heap; [done|..].
  - intros Hok p d Hp. apply (decl_ok_mono (heap s)); [done|]. specialize (Hh p). apply (Hok p).
    rewrite (Hp : h !! (p : ptr) = _) in Hh. change (heap s !! (p : ptr) = Some (NDecl d)).
    destruct (heap s !! (p : ptr)) as [[t|d']|]; congruence.
  - intros p d Hp _. specialize (Hh p). by rewrite (Hp : heap s !! (p : ptr) = _) in Hh.
Qed.

(** The types once the references [l] were checked. *)
Definition types_resolved (s : GraphQlSchema) (h : list Node) : Prop :=
  ∀ (p : ptr) t, heap s !! p = Some (NType t) → h !! p =
    Some (NType (if decide (p ∈ forward_type_references s) then resolve (symbols s) t else t)).

Definition implementations_ok (s : GraphQlSchema) : Prop :=
  ∀ p, p ∈ objects_with_implementations s → ∀ entry, entry ∈ interfaces_of (heap s) p →
    implements_interface s (fields_at (heap s) p) entry.1.

Definition unions_ok (s : GraphQlSchema) : Prop := ∀ p, p ∈ unions s → union_ok s p.

Definition check_errors : list D :=
  root_errors ++ reference_errors ++ implementation_errors ++ union_errors.

(** The checks that only report. *)
Lemma check_definitions_spec ub k s :
  schema_ok ub s → directives (parser s) = [] → ¬ interface_without_fields s →
  decides False check_errors (implementations_ok s ∧ unions_ok s)
    (check_directive_references;; check_object_implementations;; check_union_members) (reported k s).
Proof.
  intros Hok Hd Hi. unfold check_directive_references. eapply (reports_bind _ _ _ _ (λ _ l, l = [])).
  { apply reports_gets. cbn. rewrite Hd. by apply reports_ret. }
  intros ? ? ->. rewrite reported_nil. cbn [app].
  eapply (reports_bind _ _ _ _ (λ _, verdict check_errors (implementations_ok s))).
  - eapply (reports_mono _ (¬ implementations_ok s) _ _ (λ _, verdict check_errors (implementations_ok s)));
      [apply (decides_weaken False implementation_errors)|done|tauto].
    { unfold check_errors. intros d Hd'. rewrite !elem_of_app. auto. }
    apply reports_gets, reports_for_each. intros p k' Hp. rewrite reported_app.
    eapply check_object_implementation_reports; [done| |done].
    exact (Forall_elem _ _ _ (so_objects _ _ Hok) Hp).
  - intros ? l Hl. eapply (reports_mono _ (¬ unions_ok s) _ _ (λ _, verdict check_errors (unions_ok s)));
      [apply (decides_weaken False union_errors)| |tauto].
    { unfold check_errors. intros d Hd'. rewrite !elem_of_app. auto. }
    + apply reports_gets, reports_for_each. intros p k' Hp. rewrite !reported_app.
      apply (check_union_reports _ _ (reported (k ++ l ++ k') s)); [exact (schema_ok_located _ _ Hok)|].
      destruct (Forall_elem _ _ _ (so_unions _ _ Hok) Hp) as [name ?]. by eapply named_at_class.
    + intros ? l' Hl'. exact (verdict_app _ _ _ _ _ Hl Hl').
Qed.

(** A state that the checks went through up to the definitions, from [s]. *)
Definition settled (s s' : GraphQlSchema) : Prop := keeps s s' ∧ types_resolved s (heap s').

Lemma settled_resolved s s1 h :
  keeps_types s s1 → resolved (symbols s1) (forward_type_references s1) (heap s1) h →
  settled s (set_heap h s1).
Proof.
  intros [Hk Ht] Hh. split; [etrans; [exact Hk|by eapply resolved_keeps]|].
  intros p t Hp. specialize (Hh p). rewrite (Ht p t Hp) in Hh. cbn. rewrite Hh.
  by rewrite (kp_symbols _ _ Hk), (kp_forward _ _ Hk).
Qed.

Lemma free_reference_kept h h' p : same_types h h' → free_reference h p → free_reference h' p.
Proof. intros Hh (t & n & Hp & Ht). exists t, n. split; [by apply Hh|done]. Qed.

Lemma references_ok_kept s s' l :
  keeps_types s s' → Forall (free_reference (heap s)) l → references_ok s' l ↔ references_ok s l.
Proof.
  intros [Hk Ht] Hl. unfold references_ok. rewrite (kp_symbols _ _ Hk). split; intros H p t n Hp Hpt.
  - apply (H p); [done|by apply Ht].
  - destruct (Forall_elem _ _ _ Hl Hp) as (t' & n' & Hp' & _). pose proof (Ht _ _ Hp'). simplify_eq. by apply (H p).
Qed.

Section checks.
Context (ub : Prop) (p : ptr) (s : GraphQlSchema) (G : Prop).
Context (ok : schema_ok ub s) (schema_ : class_at (heap s) p S_Schema).
Context (no_directives : directives (parser s) = []).
Context (free : Forall (free_reference (heap s)) (forward_type_references s)).
Context (complete : ∀ s', settled s s' → ¬ interface_without_fields s').
Context (definitions_ok : ∀ s', settled s s' → implementations_ok s' ∧ unions_ok s' ↔ G).

(** There are no diagnostics exactly when there is nothing to report, and nothing
    is thrown then. *)
Lemma checks_spec :
  let accepted := (∀ r, root_ok s p r) ∧ references_ok s (forward_type_references s) ∧ G in
  wp False (set_root_types p;; check_forward_references;; check_directive_references;;
      check_object_implementations;; check_union_members)
    (λ _ s', (∃ l, diagnostics (parser s') = diagnostics (parser s) ++ l ∧
        verdict check_errors accepted l) ∧ settled s s' ∧
      ∀ r, root_ok s p r → root_of r s' = Assigned (root_declaration s p r))
    (λ e _, parse_exn e ∧ ¬ accepted) s.
Proof.
  intros accepted. wp_step. eapply wp_mono; [apply (set_root_types_keeps _ _ _ (λ _ _, False)), schema_| |done].
  intros _ s1 [(Hroots & _ & l1 & Hd1 & Hl1) Hk1]. wp_step.
  assert (Hok1 : schema_ok ub s1) by by apply (kp_ok _ _ (proj1 Hk1)).
  pose proof (references_ok_kept _ _ _ Hk1 free) as Hrefs.
  rewrite <- (kp_forward _ _ (proj1 Hk1)) in Hrefs.
  eapply wp_mono; [apply (check_forward_references_spec False)| |].
  { exact (schema_ok_located _ _ Hok1). }
  { rewrite (kp_forward _ _ (proj1 Hk1)). eapply list.Forall_impl; [exact free|].
    intros q. apply free_reference_kept, Hk1. }
  2: { intros e ? [He Hno]. split; [done|]. intros (_ & H & _). apply Hno, Hrefs.
    by rewrite (kp_forward _ _ (proj1 Hk1)). }
  intros _ s2 (l2 & h & -> & Hh & Hl2).
  pose proof (settled_resolved _ _ _ Hk1 Hh) as Hset.
  eapply wp_mono; [apply (check_definitions_spec ub l2 (set_heap h s1))| |].
  { by apply (kp_ok _ _ (proj1 Hset)). }
  { by rewrite (kp_directives _ _ (proj1 Hset)). }
  { by apply complete. }
  2: { intros e ? [He Hno]. split; [done|]. intros (_ & _ & H). by apply Hno, (definitions_ok _ Hset). }
  intros _ s3 (l3 & -> & Hl3). split_and!.
  - exists (l1 ++ l2 ++ l3). cbn. rewrite Hd1, <- !(assoc_L (++)). split; [done|].
    apply (verdict_weaken root_errors check_errors) in Hl1;
      [|unfold check_errors; intros d Hd'; rewrite !elem_of_app; auto].
    apply (verdict_weaken reference_errors check_errors) in Hl2;
      [|unfold check_errors; intros d Hd'; rewrite !elem_of_app; auto].
    eapply verdict_iff; [|exact (verdict_app _ _ _ _ _ Hl1 (verdict_app _ _ _ _ _ Hl2 Hl3))].
    unfold accepted. rewrite Hrefs, (definitions_ok _ Hset). by rewrite (kp_forward _ _ (proj1 Hk1)).
  - split; [|exact (proj2 Hset)]. etrans; [apply Hset|]. etrans; apply keeps_reported.
  - intros r Hr. rewrite <- (Hroots r Hr). by destruct r.
Qed.
End checks.
