(* ===== verification/ExecutorRules.v ===== *)
(** * Rules for the operations of the executor

    [steps s s'] is what every operation of the executor guarantees of the
    state it ends in: the parser moved forward, the schema's declarations are
    as they were and its types are up to their list flag, and the references to
    fragments were only added to.  Undefined behaviour is left open: the rules
    are about termination and about what a run without new diagnostics means. *)
From S2P Require Import Prelude Monad Character Cstring Diagnostic StdMap Syntaxes.
From S2P Require Import TextWriter Scanner ScannerSpec Parser ParserSpec Schema ValueSafety.
From S2P Require Import Executor.

Abbreviation xparses := (parses True (λ _, True)).
Abbreviation xok s := (parser_ok True (λ _, True) (parser s)).
Abbreviation xat s := (cursor (parser s)).
Abbreviation xextent s := (extent (parser s)).
Abbreviation xreported s := (reported (parser s)).

(** The exceptions: those of the parser, and that of [get_type_name] for a type
    that is no output of [parse_type_annotation]. *)
Definition exec_exn (e : exn) : Prop := parse_exn e ∨ e = should_not_reach_here.

Abbreviation xsafe m Q s := (wp True m Q (λ e _, exec_exn e) s).

(** ** The shared memory *)

(** A node as an operation may leave it. *)
Definition node_like (n n' : Node) : Prop :=
  match n with
  | NDecl _ => n' = n
  | NType t => ∃ b, n' = NType (set_is_list_type b t)
  end.

Definition heap_like (h h' : list Node) : Prop :=
  ∀ p n, h !! p = Some n → ∃ n', h' !! p = Some n' ∧ node_like n n'.

#[export] Instance node_like_preorder : PreOrder node_like.
Proof.
  split.
  - intros [t|d]; simpl; [|done]. exists (is_list_type t). by destruct t.
  - intros [t|d] n2 n3; simpl; [|by intros ->; simpl]. intros [b ->] [b' ->]. by exists b'.
Qed.

#[export] Instance heap_like_preorder : PreOrder heap_like.
Proof.
  split.
  - intros h p n Hp. by exists n.
  - intros h1 h2 h3 H12 H23 p n Hp. destruct (H12 _ _ Hp) as (n2 & Hp2 & Hn2).
    destruct (H23 _ _ Hp2) as (n3 & Hp3 & Hn3). exists n3. split; [done|]. by transitivity n2.
Qed.

Lemma heap_like_extends h h' : h `prefix_of` h' → heap_like h h'.
Proof. intros Hh p n Hp. exists n. split; [|done]. by eapply prefix_lookup_Some. Qed.

Lemma heap_like_flag h p t b :
  h !! p = Some (NType t) → heap_like h (<[p := NType (set_is_list_type b t)]> h).
Proof.
  intros Hp q n Hq. destruct (decide (p = q)) as [->|Hne].
  - exists (NType (set_is_list_type b t)). split.
    + apply list_lookup_insert_eq. by eapply lookup_lt_Some.
    + simplify_eq. by exists b.
  - exists n. by rewrite list_lookup_insert_ne.
Qed.

(** ** Steps *)

Record steps (s s' : GraphQlExecutor) : Prop := {
  steps_parser : xparses (parser s) (parser s');
  steps_heap : heap_like (heap s) (heap s');
  steps_symbols : symbols s' = symbols s;
  steps_definitions : directive_definitions s' = directive_definitions s;
  steps_roots : query s' = query s ∧ mutation s' = mutation s ∧ subscription s' = subscription s;
  steps_references : forward_fragment_references s `prefix_of` forward_fragment_references s';
  steps_duplicates n :
    contains n (duplicate_fields s) = true → contains n (duplicate_fields s') = true;
  steps_fragments n : contains n (fragments s) = true → contains n (fragments s') = true
}.

(** The operations below the selections: they do not touch the stack of types
    and the fragments, and leave the memory as it was if they report nothing. *)
Record reads_values (s s' : GraphQlExecutor) : Prop := {
  values_steps : steps s s';
  values_stack : current_object_types s' = current_object_types s;
  values_references : forward_fragment_references s' = forward_fragment_references s;
  values_heap : xreported s' = xreported s → heap s' = heap s
}.

Lemma steps_ok s s' : steps s s' → xok s'.
Proof. intros []. by eapply parses_ok. Qed.

Lemma steps_arith s s' :
  steps s s' → (xat s ≤ xat s' ≤ S (xextent s))%nat ∧ xextent s' = xextent s ∧
    (xreported s ≤ xreported s')%nat.
Proof.
  intros []. split_and!; [by eapply parses_le..|by eapply parses_extent|by eapply parses_reported].
Qed.

Lemma steps_refl s : xok s → steps s s.
Proof. intros Hok. split; try done. by apply parses_refl. Qed.

Lemma values_refl s : xok s → reads_values s s.
Proof. intros Hok. split; try done. by apply steps_refl. Qed.

#[export] Instance steps_transitive : Transitive steps.
Proof.
  intros s1 s2 s3 [? ? ? ? (?&?&?) ? Hd Hf] [? ? ? ? (?&?&?) ? Hd' Hf'].
  split; [by etransitivity..|congruence|congruence|split_and!; congruence|by etransitivity| |]; auto.
Qed.

#[export] Instance values_transitive : Transitive reads_values.
Proof.
  intros s1 s2 s3 [H12 Hs12 Hr12 Hh12] [H23 Hs23 Hr23 Hh23].
  split; [by etransitivity|congruence..|]. intros Hrep.
  pose proof (steps_arith _ _ H12) as (_ & _ & ?). pose proof (steps_arith _ _ H23) as (_ & _ & ?).
  rewrite Hh23, Hh12; [done|lia..].
Qed.

(** An operation of the base class moved the parser. *)
Lemma steps_set_parser s p : xparses (parser s) p → steps s (set_parser p s).
Proof. by intros; split. Qed.

Lemma values_set_parser s p : xparses (parser s) p → reads_values s (set_parser p s).
Proof. intros; by split. Qed.

Lemma values_reads_steps s s' : reads_values s s' → steps s s'.
Proof. by intros []. Qed.

Lemma steps_set_heap s h : xok s → heap_like (heap s) h → steps s (set_heap h s).
Proof. intros Hok Hh. split; try done. by apply parses_refl. Qed.

Lemma steps_push s v : xok s → steps s (set_current_object_types v s).
Proof. intros Hok. split; try done. by apply parses_refl. Qed.

Lemma steps_refer s r :
  xok s → steps s (set_forward_fragment_references (forward_fragment_references s ++ [r]) s).
Proof.
  intros Hok. split; try done; [by apply parses_refl|]. simpl. by apply prefix_app_r.
Qed.

#[export] Hint Resolve steps_refl values_refl steps_ok values_reads_steps steps_set_parser
  values_set_parser parses_refl parses_ok : flash.

(** ** The base class *)

(** An operation of the base class: it ends in [set_parser] of a later state. *)
Lemma wp_base {A} (m : M GraphQlParser A) (R : A → GraphQlParser → Prop) Q s :
  wp True m (λ a p', xparses (parser s) p' ∧ R a p') (λ e _, parse_exn e) (parser s) →
  (∀ a p', xparses (parser s) p' → R a p' → Q a (set_parser p' s)) →
  xsafe ⟨m⟩ Q s.
Proof.
  intros Hm HQ. wp_step. eapply wp_mono; [exact Hm| |by left]. intros a p' [Hp HR]. by apply HQ.
Qed.

Lemma wp_base_unit {A} (m : M GraphQlParser A) Q s :
  wp True m (λ _ p', xparses (parser s) p') (λ e _, parse_exn e) (parser s) →
  (∀ a p', xparses (parser s) p' → Q a (set_parser p' s)) →
  xsafe ⟨m⟩ Q s.
Proof.
  intros Hm HQ. apply (wp_base m (λ _ _, True)); [|auto].
  eapply wp_mono; [exact Hm|by intros|by intros].
Qed.

(** One that leaves its state as it was. *)
Lemma wp_base_pure {A} (m : M GraphQlParser A) (R : A → Prop) (Q : A → GraphQlExecutor → Prop) s :
  (∀ K : A → GraphQlParser → Prop, (∀ a, R a → K a (parser s)) →
    wp True m K (λ e _, parse_exn e) (parser s)) →
  (∀ a, R a → Q a s) → xsafe ⟨m⟩ Q s.
Proof.
  intros Hm HQ. wp_step. eapply (wp_mono _ _ (λ a p, p = parser s ∧ R a)); [by apply Hm| |by left].
  intros a p [-> Ha]. change (parser s) with (sub s). rewrite put_sub_id. by apply HQ.
Qed.

Section base.
Context (s : GraphQlExecutor) (Hok : xok s).

Lemma x_take k w (Q : GraphQlToken.t → GraphQlExecutor → Prop) :
  (∀ token p', xparses (parser s) p' →
    (token ≠ GraphQlToken.EndOfDocument → (xat s < cursor p')%nat) → Q token (set_parser p' s)) →
  xsafe ⟨take_next_token k w⟩ Q s.
Proof.
  intros HQ. apply (wp_base _ (λ token p',
    token ≠ GraphQlToken.EndOfDocument → (xat s < cursor p')%nat)); [|done].
  eapply wp_mono; [by apply take_next_token_parses| |by intros].
  intros token p' [Hp Hlt]. split; [done|]. intros Hne. by destruct Hlt as [|[? _]].
Qed.

Lemma x_take_value (Q : GraphQlToken.t → GraphQlExecutor → Prop) :
  (∀ token p', xparses (parser s) p' → current_value_token p' = token →
    (token ≠ GraphQlToken.EndOfDocument → (xat s < cursor p')%nat) → Q token (set_parser p' s)) →
  xsafe ⟨set_current_value_token_from_scanner⟩ Q s.
Proof.
  intros HQ. apply (wp_base _ (λ token p', current_value_token p' = token ∧
    (token ≠ GraphQlToken.EndOfDocument → (xat s < cursor p')%nat)));
    [|intros token p' Hp []; by apply HQ].
  unfold set_current_value_token_from_scanner, TakeNextToken.
  wp_call take_next_token_parses; [done| |by intros]. intros token p' [Hp Hlt].
  repeat wp_step. split_and!; [|done|intros ?; by destruct Hlt as [|[? _]]]. transitivity p'; [done|].
  apply parses_member; try done. by eapply parses_ok.
Qed.

Lemma x_expect token (Q : bool → GraphQlExecutor → Prop) :
  token ≠ GraphQlToken.EndOfDocument →
  (∀ ok p', xparses (parser s) p' → (ok = true → (xat s < cursor p')%nat) →
    (ok = false → (xreported s < reported p')%nat) → Q ok (set_parser p' s)) →
  xsafe ⟨expect token⟩ Q s.
Proof.
  intros Hne HQ. apply (wp_base _ (λ ok p', (ok = true → (xat s < cursor p')%nat) ∧
    (ok = false → (xreported s < reported p')%nat))); [|intros ok p' Hp []; by apply HQ].
  unfold expect. eapply wp_mono; [apply scan_expected_reports; [exact Hok|exact Hne]| |by intros].
  intros ok p' [[Hp ?] ?]. by split_and!.
Qed.

Lemma x_scan_optional token (Q : bool → GraphQlExecutor → Prop) :
  token ≠ GraphQlToken.EndOfDocument →
  (∀ ok p', xparses (parser s) p' → (ok = true → (xat s < cursor p')%nat) →
    Q ok (set_parser p' s)) →
  xsafe ⟨scan_optional token⟩ Q s.
Proof.
  intros Hne HQ. apply (wp_base _ (λ ok p', ok = true → (xat s < cursor p')%nat)); [|done].
  eapply wp_mono; [by apply scan_optional_parses| |by intros]. by intros ok p' [].
Qed.

Lemma x_scan_optional_name token k (Q : bool → GraphQlExecutor → Prop) :
  token ≠ GraphQlToken.EndOfDocument →
  (∀ ok p', xparses (parser s) p' → Q ok (set_parser p' s)) →
  xsafe ⟨scan_optional_name token k⟩ Q s.
Proof.
  intros Hne HQ. apply (wp_base_unit _ Q); [|done].
  eapply wp_mono; [by apply scan_optional_name_parses| |by intros]. by intros ok p' [].
Qed.

Lemma x_report d args (Q : unit → GraphQlExecutor → Prop) :
  (∀ p', xparses (parser s) p' → reported p' = S (xreported s) → Q tt (set_parser p' s)) →
  xsafe ⟨add_diagnostic d args⟩ Q s.
Proof.
  intros HQ. apply (wp_base _ (λ _ p', reported p' = S (xreported s))).
  - by apply add_diagnostic_reports.
  - intros []. auto.
Qed.

Lemma x_report_at l d args (Q : unit → GraphQlExecutor → Prop) :
  (∀ p', xparses (parser s) p' → reported p' = S (xreported s) → Q tt (set_parser p' s)) →
  xsafe ⟨add_diagnostic_at l d args⟩ Q s.
Proof.
  intros HQ. apply (wp_base _ (λ _ p', reported p' = S (xreported s))).
  - by apply add_diagnostic_at_reports.
  - intros []. auto.
Qed.

Lemma x_skip_to tokens (Q : GraphQlToken.t → GraphQlExecutor → Prop) :
  (∀ t p', xparses (parser s) p' → Q t (set_parser p' s)) → xsafe ⟨skip_to tokens⟩ Q s.
Proof. apply wp_base_unit. by apply skip_to_parses. Qed.

Lemma x_skip_primary (Q : unit → GraphQlExecutor → Prop) :
  (∀ t p', xparses (parser s) p' → Q t (set_parser p' s)) →
  xsafe ⟨skip_to_next_primary_token⟩ Q s.
Proof.
  apply wp_base_unit. unfold skip_to_next_primary_token.
  wp_call skip_to_parses; [done| |by intros]. intros _ p' Hp. by wp_step.
Qed.

Lemma x_skip_block (Q : unit → GraphQlExecutor → Prop) :
  (∀ t p', xparses (parser s) p' → Q t (set_parser p' s)) → xsafe skip_block_ Q s.
Proof. apply wp_base_unit. by apply skip_block_parses. Qed.

Lemma x_get_token_value (Q : ustring → GraphQlExecutor → Prop) :
  (∀ v, Q v s) → xsafe ⟨get_token_value⟩ Q s.
Proof.
  intros HQ. apply (wp_base_pure _ (λ _, True)); [|auto]. intros; apply get_token_value_parses; auto.
Qed.

Lemma x_get_token_location (Q : Location → GraphQlExecutor → Prop) :
  (∀ v, Q v s) → xsafe ⟨get_token_location⟩ Q s.
Proof.
  intros HQ. apply (wp_base_pure _ (λ _, True)); [|auto]. intros K HK.
  unfold get_token_location. repeat wp_step. auto.
Qed.

Lemma x_get_text m (Q : ustring → GraphQlExecutor → Prop) :
  (∃ i n, m = (s ← get; source_substr i (n s))) → (∀ v, Q v s) → xsafe ⟨⟨m⟩⟩ Q s.
Proof.
  intros (i & n & ->) HQ. apply (wp_base_pure _ (λ _, True)); [|auto]. intros K HK.
  unfold source_substr. repeat wp_step; [apply parse_exn_range|].
  replace (put_sub _ _) with (parser s) by (simpl; by destruct (parser s)). by apply HK.
Qed.

Lemma x_CreateSyntax k (Q : Syntax → GraphQlExecutor → Prop) :
  (∀ v, Q v s) → xsafe ⟨CreateSyntax k⟩ Q s.
Proof.
  intros HQ. apply (wp_base_pure _ (λ _, True)); [|auto]. intros; apply CreateSyntax_parses; auto.
Qed.

Lemma x_FinishSyntax x (Q : Syntax → GraphQlExecutor → Prop) :
  (∀ v, Q v s) → xsafe ⟨FinishSyntax x⟩ Q s.
Proof.
  intros HQ. apply (wp_base_pure _ (λ _, True)); [|auto]. intros; apply FinishSyntax_parses; auto.
Qed.

Lemma x_create_name v (Q : Name → GraphQlExecutor → Prop) :
  (∀ n, identifier n = v → Q n s) → xsafe ⟨create_name v⟩ Q s.
Proof.
  intros HQ. apply (wp_base_pure _ (λ n, identifier n = v)); [|auto].
  intros; apply create_name_parses; auto.
Qed.

Lemma x_get_location x (Q : Location → GraphQlExecutor → Prop) :
  (∀ l, Q l s) → xsafe ⟨get_location_from_syntax x⟩ Q s.
Proof.
  intros HQ. apply (wp_base_pure _ (λ _, True)); [|auto].
  intros K HK. eapply get_location_parses; [apply Hok|auto].
Qed.

Lemma x_add_directive d (Q : unit → GraphQlExecutor → Prop) :
  (∀ p', xparses (parser s) p' → Q tt (set_parser p' s)) →
  xsafe ⟨modify (λ p, set_directives (directives p ++ [d]) p)⟩ Q s.
Proof.
  intros HQ. apply wp_base_unit; [|intros []; apply HQ]. wp_step. by apply parses_directive.
Qed.
End base.

(** ** The memory and the stack *)

Lemma x_deref {A} (p : option A) (Q : A → GraphQlExecutor → Prop) s :
  (∀ a, p = Some a → Q a s) → xsafe (deref p) Q s.
Proof. intros HQ. by apply wp_deref. Qed.

Lemma x_read_type p (Q : Type_ → GraphQlExecutor → Prop) s :
  (∀ q t, p = Some q → heap s !! q = Some (NType t) → Q t s) → xsafe (read_type p) Q s.
Proof.
  intros HQ. unfold read_type. wp_step. apply x_deref. intros q ->. repeat wp_step.
  destruct (heap s !! q) as [[t|d]|] eqn:E; wp_step; eauto.
Qed.

Lemma x_read_decl p (Q : Declaration → GraphQlExecutor → Prop) s :
  (∀ d, heap s !! p = Some (NDecl d) → Q d s) → xsafe (read_decl p) Q s.
Proof.
  intros HQ. unfold read_decl. wp_step. wp_step.
  destruct (heap s !! p) as [[t|d]|] eqn:E; wp_step; eauto.
Qed.

Lemma x_decl_identifier d (Q : ustring → GraphQlExecutor → Prop) s :
  (∀ n, decl_name d = Some n → Q (identifier n) s) → xsafe (decl_identifier d) Q s.
Proof. intros HQ. unfold decl_identifier. wp_step. apply x_deref. intros n Hn. wp_step. eauto. Qed.

Lemma x_object_type_at r (Q : Declaration → GraphQlExecutor → Prop) s :
  (∀ p d, r = Assigned (Some p) → heap s !! p = Some (NDecl d) → Q d s) →
  xsafe (object_type_at r) Q s.
Proof.
  intros HQ. unfold object_type_at. wp_step. destruct r as [|p]; simpl; wp_step; [done|].
  wp_step. apply x_deref. intros q ->. apply x_read_decl. eauto.
Qed.

Lemma x_top_object_type (Q : root → GraphQlExecutor → Prop) s :
  (∀ r rest, current_object_types s = r :: rest → Q r s) → xsafe top_object_type Q s.
Proof.
  intros HQ. unfold top_object_type. wp_step. wp_step.
  destruct (current_object_types s) as [|r rest] eqn:E; simpl; wp_step; eauto.
Qed.

Lemma x_get_type_name t (Q : ustring → GraphQlExecutor → Prop) s :
  (∀ v, Q v s) → xsafe (get_type_name t) Q s.
Proof.
  intros HQ. unfold get_type_name. wp_step.
  destruct (type t); repeat wp_step; auto; try (by right);
    apply wp_deref; auto; intros; repeat wp_step; auto.
Qed.

Lemma x_report_type d what type_ (Q : unit → GraphQlExecutor → Prop) s :
  xok s →
  (∀ p', xparses (parser s) p' → reported p' = S (xreported s) → Q tt (set_parser p' s)) →
  xsafe (report_type d what type_) Q s.
Proof.
  intros Hok HQ. unfold report_type. wp_step. apply x_read_type. intros q t -> Ht.
  wp_step. apply x_get_type_name. intros name. by apply x_report.
Qed.

(** Each iteration of a loop takes a token. *)
Lemma wp_executor_loop {A B} (I : A → GraphQlExecutor → Prop)
    (body : A → M GraphQlExecutor (A + B)) Q a s :
  I a s →
  (∀ a s1, I a s1 →
    xsafe (body a) (λ r s2,
      match r with
      | inl a' => I a' s2 ∧ xextent s2 = xextent s1 ∧ (xat s1 < xat s2 ≤ S (xextent s2))%nat
      | inr b => Q b s2
      end) s1) →
  xsafe (executor_loop body a) Q s.
Proof.
  intros HI Hbody. unfold executor_loop. wp_step. wp_step.
  apply (wp_loop _ I (λ _ s, S (xextent s) - xat s)%nat);
    [done|unfold executor_fuel, parse_fuel, scan_fuel; lia|].
  intros a' s1 HI'. eapply wp_mono; [by apply Hbody| |done].
  intros [a''|b] s2; [|done]. intros (? & ? & ?). split; [done|lia].
Qed.

(** ** Automation *)

(** The side conditions of the rules: the state is well formed. *)
Ltac xside := first [assumption | solve [simpl; eauto using parses_ok with flash]].

(** The state after an operation of the base class, over the state it started in. *)
Ltac xnormal :=
  repeat match goal with
  | |- context [set_parser ?p' (set_parser ?p ?s)] =>
      change (set_parser p' (set_parser p s)) with (set_parser p' s)
  end.

(** Use what the branch taken says. *)
Ltac xtidy :=
  repeat match goal with
  | H : negb _ = true |- _ => apply negb_true_iff in H
  | H : negb _ = false |- _ => apply negb_false_iff in H
  | H : ?b = true → _, H' : ?b = true |- _ => specialize (H H')
  | H : ?b = false → _, H' : ?b = false |- _ => specialize (H H')
  | H : ?b = true → _, H' : ?b = false |- _ => clear H
  | H : ?b = false → _, H' : ?b = true |- _ => clear H
  | H : true = false → _ |- _ => clear H
  | H : false = true → _ |- _ => clear H
  | H : true = true → _ |- _ => specialize (H eq_refl)
  | H : false = false → _ |- _ => specialize (H eq_refl)
  | H : ¬ (?x ≠ ?y) |- _ => apply dec_stable in H
  | H : ?token ≠ GraphQlToken.EndOfDocument → _ |- _ => specialize (H ltac:(congruence))
  end.

(** One step through an operation of the executor. *)
Ltac xstep :=
  lazymatch goal with
  | |- wp _ (zoom (take_next_token _ _)) _ _ _ => eapply x_take; [xside|intros ? ? ? ?]
  | |- wp _ (zoom TakeNextToken) _ _ _ => eapply x_take; [xside|intros ? ? ? ?]
  | |- wp _ (zoom set_current_value_token_from_scanner) _ _ _ =>
      eapply x_take_value; [xside|intros ? ? ? ? ?]
  | |- wp _ (zoom (expect _)) _ _ _ => eapply x_expect; [xside|discriminate|intros ? ? ? ? ?]
  | |- wp _ (zoom (scan_optional _)) _ _ _ =>
      eapply x_scan_optional; [xside|discriminate|intros ? ? ? ?]
  | |- wp _ (zoom (scan_optional_name _ _)) _ _ _ =>
      eapply x_scan_optional_name; [xside|discriminate|intros ? ? ?]
  | |- wp _ (zoom (add_diagnostic _ _)) _ _ _ => eapply x_report; [xside|intros ? ? ?]
  | |- wp _ (zoom (add_diagnostic_at _ _ _)) _ _ _ => eapply x_report_at; [xside|intros ? ? ?]
  | |- wp _ (zoom (skip_to _)) _ _ _ => eapply x_skip_to; [xside|intros ? ? ?]
  | |- wp _ (zoom skip_to_next_primary_token) _ _ _ => eapply x_skip_primary; [xside|intros ? ? ?]
  | |- wp _ skip_block_ _ _ _ => eapply x_skip_block; [xside|intros ? ? ?]
  | |- wp _ (zoom get_token_value) _ _ _ => apply x_get_token_value; intros ?
  | |- wp _ (zoom get_token_location) _ _ _ => apply x_get_token_location; intros ?
  | |- wp _ (zoom (CreateSyntax _)) _ _ _ => apply x_CreateSyntax; intros ?
  | |- wp _ (zoom (FinishSyntax _)) _ _ _ => apply x_FinishSyntax; intros ?
  | |- wp _ (zoom (create_name _)) _ _ _ => apply x_create_name; intros ? ?
  | |- wp _ (zoom (get_location_from_syntax _)) _ _ _ => eapply x_get_location; [xside|intros ?]
  | |- wp _ (zoom (zoom _)) _ _ _ => eapply x_get_text; [xside|do 2 eexists; reflexivity|intros ?]
  | |- wp _ (zoom (modify (λ p, set_directives _ p))) _ _ _ =>
      eapply x_add_directive; [xside|intros ? ?]
  | |- wp _ (deref _) _ _ _ => apply x_deref; intros ? ?
  | |- wp _ (read_type _) _ _ _ => apply x_read_type; intros ? ? ? ?
  | |- wp _ (read_decl _) _ _ _ => apply x_read_decl; intros ? ?
  | |- wp _ (decl_identifier _) _ _ _ => apply x_decl_identifier; intros ? ?
  | |- wp _ (object_type_at _) _ _ _ => apply x_object_type_at; intros ? ? ? ?
  | |- wp _ top_object_type _ _ _ => apply x_top_object_type; intros ? ? ?
  | |- wp _ (report_type _ _ _) _ _ _ => eapply x_report_type; [xside|intros ? ? ?]
  | |- wp _ (get_type_name _) _ _ _ => apply x_get_type_name; intros ?
  | |- wp _ (if decide ?P then _ else _) _ _ _ => destruct (decide P)
  | |- wp _ (zoom _) _ _ _ => fail
  | _ => wp_step
  end; xtidy; xnormal.

(** Give a sub-program a postcondition of its own. *)
Ltac xjoin P :=
  lazymatch goal with
  | |- wp _ (_ ≫= _) _ _ _ => apply wp_bind
  | _ => idtac
  end; apply (wp_mono _ _ P _ (λ e _, exec_exn e)); [|cbv beta|by intros].

Ltac xcall lem := wp_call lem; [..|by intros].

(** Chains of steps, and the arithmetic of cursors and diagnostics. *)
Ltac xparses_chain :=
  simpl;
  repeat match goal with
  | |- xparses ?p ?p => apply parses_refl; xside
  | H : xparses ?p ?p' |- xparses ?p ?p' => exact H
  | H : xparses ?t ?p' |- xparses _ ?p' => transitivity t; [|exact H]; clear H
  end.

Ltac xarith :=
  simpl in *;
  repeat match goal with
  | H : reads_values ?s ?s' |- _ => apply values_steps in H
  | H : steps ?s ?s' |- _ => pose proof (steps_arith _ _ H); clear H
  | H : xparses ?p ?p' |- _ =>
      pose proof (parses_le _ _ _ _ H); pose proof (parses_extent _ _ _ _ H);
      pose proof (parses_reported _ _ _ _ H); clear H
  end; simpl in *; lia.
