(* ===== verification/ExecutorValues.v ===== *)
(** * Values, arguments and directives of a query

    [fits] is when a value is one of a type.  A value that is parsed without a
    diagnostic fits the type it is parsed for, and the types of the schema are
    then as they were: the list flags that are cleared are set again. *)
From S2P Require Import Prelude Monad Character Cstring Diagnostic StdMap Syntaxes.
From S2P Require Import TextWriter Scanner ScannerSpec Parser ParserSpec Schema ValueSafety.
From S2P Require Import Executor ExecutorRules.

(** ** Values of a type *)

Section fits.
Context (env : std_map ustring Symbol).

Definition field_names (fs : list ObjectField) : list ustring :=
  map (λ f, identifier (field_name f)) fs.

(** [fits h p v]: [v] is a value of the type at [p].  The elements of a list are
    values of the same node with the list flag cleared, so a list of lists has
    no type, and a type that contains itself is a list type only on the
    outside. *)
Inductive fits (h : list Node) (p : ptr) : Value → Prop :=
  | fits_null t s :
      h !! p = Some (NType t) → is_non_null t = false → is_non_null_list t = false →
      fits h p (NullValue s)
  | fits_string t s v :
      h !! p = Some (NType t) → type_in (type t) T_StringType = true → is_list_type t = false →
      fits h p (StringValue s v)
  | fits_int t s v :
      h !! p = Some (NType t) → type_in (type t) T_IntegerType = true → is_list_type t = false →
      fits h p (IntValue s v)
  | fits_float t s v :
      h !! p = Some (NType t) → type t = T_Float → is_list_type t = false →
      fits h p (FloatValue s v)
  | fits_boolean t s v :
      h !! p = Some (NType t) → type t = T_Boolean → is_list_type t = false →
      fits h p (BooleanValue s v)
  | fits_enum t s v name symbol d e :
      h !! p = Some (NType t) → type t = T_Enum → is_list_type t = false →
      type_name t = Some name → find (identifier name) env = Some symbol →
      h !! declaration symbol = Some (NDecl d) → body d = BEnum e →
      contains v (enum_values e) = true →
      fits h p (EnumValue s v)
  | fits_object t s fs name symbol d io :
      h !! p = Some (NType t) → type t = T_Object → is_list_type t = false →
      type_name t = Some name → find (identifier name) env = Some symbol →
      symbol_kind symbol = SL_InputObject →
      h !! declaration symbol = Some (NDecl d) → body d = BInputObject io →
      Forall (λ f, ∃ input_fields field, io_fields io = Some input_fields ∧
        find (identifier (field_name f)) input_fields = Some field ∧
        ∀ v, field_value f = Some v → fits h (ifd_type field) v) fs →
      NoDup (field_names fs) →
      Forall (λ r, r ∈ field_names fs) (required_fields io) →
      fits h p (ObjectValue s fs)
  | fits_list t s vs :
      h !! p = Some (NType t) → is_list_type t = true →
      Forall (fits (<[p := NType (set_is_list_type false t)]> h) p) vs →
      fits h p (ListValue s vs).
End fits.

(** What reading a value for a type gives; without a value there was a closing
    bracket or a diagnostic. *)
Definition value_read (s : GraphQlExecutor) (type_ : option ptr) (v : option Value)
    (s' : GraphQlExecutor) : Prop :=
  xreported s' = xreported s → ∀ p w h,
    type_ = Some p → v = Some w → heap s `prefix_of` h → fits (symbols s) h p w.

Lemma value_read_none s type_ s' : value_read s type_ None s'.
Proof. by intros ? ? ? ?. Qed.

Lemma value_read_reported s type_ v s' : (xreported s < xreported s')%nat → value_read s type_ v s'.
Proof. intros ? ?. lia. Qed.

(** The operations before the value read nothing from the memory. *)
Lemma value_read_from s p type_ v s' :
  xparses (parser s) p → (reported p ≤ xreported s')%nat →
  value_read (set_parser p s) type_ v s' → value_read s type_ v s'.
Proof. intros Hp Hle Hv Hrep. apply Hv. simpl. apply parses_reported in Hp. lia. Qed.

Ltac xdone :=
  repeat match goal with |- _ ∧ _ => split end;
  try solve
    [ done | apply value_read_none | apply value_read_reported; xarith
    | apply values_set_parser; xparses_chain | xarith ].

(** A check that reports or not. *)
Lemma x_check b m (Q : unit → GraphQlExecutor → Prop) s :
  (b = true → xsafe m (λ _ s', ∃ p', s' = set_parser p' s ∧ xparses (parser s) p' ∧
    (xreported s < reported p')%nat) s) →
  (∀ p', b = true → xparses (parser s) p' → (xreported s < reported p')%nat →
    Q tt (set_parser p' s)) →
  (b = false → Q tt s) →
  xsafe (when b m) Q s.
Proof.
  intros Hm HQ HQ'. apply wp_when; intros Hb; [|by apply HQ'].
  eapply wp_mono; [by apply Hm| |done]. intros [] s' (p' & -> & ? & ?). by apply HQ.
Qed.

(** ** Values that are no lists and objects *)

Ltac fit :=
  intros ? ? ? ? ? ? ?; simplify_eq; simpl in *; bool_hyps;
  repeat match goal with
  | H : bool_decide _ = false |- _ => apply bool_decide_eq_false, dec_stable in H
  | H : heap ?s !! _ = Some _, Hh : heap ?s `prefix_of` _ |- _ =>
      apply (λ H', prefix_lookup_Some _ _ _ _ H' Hh) in H
  end;
  econstructor; eauto.

Lemma parse_boolean_value_spec type_ value s :
  xok s →
  xsafe (parse_boolean_value type_ value)
    (λ v s', reads_values s s' ∧ value_read s type_ v s') s.
Proof. intros Hok. unfold parse_boolean_value. repeat xstep; xdone; [by apply values_refl|fit]. Qed.

Lemma enum_value_spec type_ s :
  xok s →
  xsafe (parse_enum_value type_) (λ v s', reads_values s s' ∧ value_read s type_ v s') s.
Proof.
  intros Hok. unfold parse_enum_value.
  repeat (xstep; unfold as_enum in *); xdone; [by apply values_refl|].
  match goal with H : match body ?d with _ => _ end = Some _ |- _ =>
    destruct (body d) eqn:?; simplify_eq end. fit.
Qed.

Lemma parse_scalar_value_spec token type_ s :
  xok s →
  xsafe (Executor.parse_scalar_value token type_)
    (λ v s', reads_values s s' ∧ (v ≠ None → token ≠ GraphQlToken.EndOfDocument) ∧
      value_read s type_ v s') s.
Proof.
  intros Hok. unfold Executor.parse_scalar_value. pose proof (values_refl _ Hok).
  destruct token; repeat xstep; xdone; try solve [fit].
  all: first
    [ xcall parse_boolean_value_spec; [done|]; by intros ? ? []
    | xcall enum_value_spec; [done|]; by intros ? ? [] ].
Qed.

(** ** Objects *)

Lemma skip_object_value_spec type_ s :
  xok s →
  xsafe (skip_object_value type_)
    (λ v s', reads_values s s' ∧ v = None ∧ (xreported s < xreported s')%nat) s.
Proof. intros Hok. unfold skip_object_value. repeat xstep. xdone. Qed.

(** An operation that only reports: it reports nothing if [P]. *)
Definition checks (P : Prop) (s s' : GraphQlExecutor) : Prop :=
  ∃ p, s' = set_parser p s ∧ xparses (parser s) p ∧ (reported p = xreported s → P).

Lemma checks_nothing (P : Prop) s : xok s → P → checks P s s.
Proof. intros. exists (parser s). split_and!; [by destruct s|by apply parses_refl|done]. Qed.

Lemma checks_reported P s p :
  xparses (parser s) p → (xreported s < reported p)%nat → checks P s (set_parser p s).
Proof. intros. exists p. split_and!; [done..|lia]. Qed.

(** A pass over a list that may report for each element: without a report, each
    satisfies [P]. *)
Lemma x_check_each {A} (P : A → Prop) (l : list A) body s :
  xok s →
  (∀ x p1, x ∈ l → xparses (parser s) p1 →
    xsafe (body x) (λ _ s2, checks (P x) (set_parser p1 s) s2) (set_parser p1 s)) →
  xsafe (for_each l body) (λ _ s', checks (Forall P l) s s') s.
Proof.
  intros Hok Hbody.
  apply (wp_for_each _ (λ l' s', ∃ done_, l = done_ ++ l' ∧ checks (Forall P done_) s s')).
  - exists []. split; [done|]. by apply checks_nothing.
  - intros x l' s1 (done_ & Hl & p & -> & Hp & HP).
    eapply wp_mono; [apply Hbody; [rewrite Hl; apply elem_of_app; right; left|done]| |done].
    intros _ s2 (p2 & -> & Hp2 & HP2). exists (done_ ++ [x]). split; [by rewrite <- app_assoc|].
    exists p2. simpl in *. split_and!; [done|xparses_chain|]. intros Hrep.
    apply Forall_app. split; [apply HP|constructor; [apply HP2|done]]; xarith.
  - intros s1 (done_ & Hl & Hc). rewrite app_nil_r in Hl. by subst.
Qed.

Lemma check_duplicate_fields_spec fs s :
  xok s →
  xsafe (check_duplicate_fields fs)
    (λ _ s', checks (∀ n, contains n (duplicate_fields s) = true → n ∉ field_names fs) s s') s.
Proof.
  intros Hok. unfold check_duplicate_fields. wp_step. wp_step.
  xcall (x_check_each (λ duplicate : ustring * unit, fst duplicate ∉ field_names fs)); [done|..].
  - intros [n []] p1 _ Hp1. xcall (x_check_each (λ f : ObjectField, identifier (field_name f) ≠ n)); [xside|..].
    + intros f p2 _ Hp2. simpl in Hp2. xnormal. simpl. wp_step; bool_hyps.
      * repeat xstep. apply (checks_reported _ (set_parser p2 s)); [xparses_chain|xarith].
      * rewrite bool_decide_eq_false in *. apply checks_nothing; [xside|done].
    + intros _ s2 (p & -> & Hp & HF). exists p. split_and!; [done..|]. simpl. intros Hrep Hin.
      apply list_elem_of_fmap in Hin as (f & Hn & Hin). specialize (HF Hrep).
      eapply list.Forall_forall in HF; [|exact Hin]. by apply HF.
  - intros _ s1 (p & -> & Hp & HF). exists p. split_and!; [done..|]. intros Hrep n Hn Hin.
    specialize (HF Hrep). unfold contains in Hn.
    destruct (find n (duplicate_fields s)) as [[]|] eqn:E; [|done]. apply find_Some_elem in E.
    eapply list.Forall_forall in HF; [|exact E]. done.
Qed.

Lemma check_required_fields_spec required parsed syntax s :
  xok s →
  xsafe (check_required_fields required parsed syntax)
    (λ _ s', checks (Forall (λ r, r ∈ parsed) required) s s') s.
Proof.
  intros Hok. unfold check_required_fields. apply x_check_each; [done|].
  intros r p1 _ Hp1. wp_step; bool_hyps.
  - repeat xstep. apply (checks_reported _ (set_parser p1 s)); [xparses_chain|xarith].
  - rewrite bool_decide_eq_false in *. apply checks_nothing; [xside|]. by apply dec_stable.
Qed.

(** The fields of an object are fields of the input object, with values that fit. *)
Definition fields_fit (env : std_map ustring Symbol) (h : list Node)
    (input_fields : option (std_map ustring InputFieldDefinition)) (fs : list ObjectField) : Prop :=
  Forall (λ f, ∃ ifs field, input_fields = Some ifs ∧
    find (identifier (field_name f)) ifs = Some field ∧
    ∀ v, field_value f = Some v → fits env h (ifd_type field) v) fs.

(** A name that was parsed twice is kept in [duplicate_fields]. *)
Definition duplicates_noted (parsed : list ustring) (s : GraphQlExecutor) : Prop :=
  NoDup parsed ∨ ∃ n, n ∈ parsed ∧ contains n (duplicate_fields s) = true.

Lemma contains_emplace {V} n n' (v : V) (m : std_map ustring V) :
  contains n (emplace n' v m) = bool_decide (n = n') || contains n m.
Proof. unfold contains at 1. rewrite find_emplace. by case_decide as Hn; [rewrite bool_decide_true|rewrite bool_decide_false]. Qed.

Section object_values.
Context (fuel : nat) (parse_field_value : option ptr → M GraphQlExecutor (option Value)).

(** What is assumed of the call for the value of a field. *)
Definition reads_value (type_ : option ptr) (s : GraphQlExecutor) (v : option Value)
    (s' : GraphQlExecutor) : Prop :=
  reads_values s s' ∧ (v ≠ None → (xat s < xat s')%nat) ∧ value_read s type_ v s'.

Context (Hvalue : ∀ type_ s, xok s → (S (xextent s) - xat s < fuel)%nat →
  xsafe (parse_field_value type_) (reads_value type_ s) s).

(** The fields found since [s0]. *)
Record fields_found (s0 : GraphQlExecutor)
    (input_fields : option (std_map ustring InputFieldDefinition))
    (f : list ObjectField * list ustring) (s : GraphQlExecutor) : Prop := {
  found_steps : reads_values s0 s;
  found_names : field_names (fst f) = snd f;
  found_duplicates : duplicates_noted (snd f) s;
  found_fit h : xreported s = xreported s0 → heap s0 `prefix_of` h →
    fields_fit (symbols s0) h input_fields (fst f)
}.

Lemma found_moved s0 input_fields f s p :
  fields_found s0 input_fields f s → xparses (parser s) p →
  fields_found s0 input_fields f (set_parser p s).
Proof.
  intros [Hst Hn Hd Hf] Hp. split; [|done..|].
  - etransitivity; [done|by apply values_set_parser].
  - intros h Hrep. apply Hf. xarith.
Qed.

Lemma note_duplicate_spec name parsed s (Q : unit → GraphQlExecutor → Prop) :
  xok s → duplicates_noted parsed s →
  (∀ s1, reads_values s s1 → duplicates_noted (parsed ++ [name]) s1 → Q tt s1) →
  xsafe (when (bool_decide (name ∈ parsed))
    (modify (λ s, set_duplicate_fields (emplace name tt (duplicate_fields s)) s))) Q s.
Proof.
  intros Hok Hd HQ. wp_step.
  - rewrite bool_decide_eq_true in *. wp_step. apply HQ.
    + split; try done. split; try done; [by apply parses_refl|].
      intros n Hn. simpl. by rewrite contains_emplace, Hn, orb_true_r.
    + right. exists name. split; [apply elem_of_app; by left|]. simpl.
      rewrite contains_emplace. by rewrite bool_decide_true.
  - rewrite bool_decide_eq_false in *. apply HQ; [by apply values_refl|].
    destruct Hd as [Hnd|(n & Hn & Hc)];
      [left|right; exists n; split; [apply elem_of_app; by left|done]].
    apply list.NoDup_app. split_and!; [done| |apply NoDup_singleton].
    by intros x Hx ->%list_elem_of_singleton.
Qed.

Lemma parse_object_field_spec s0 input_fields ifs name field f s :
  fields_found s0 input_fields f s → input_fields = Some ifs → find name ifs = Some field →
  (S (xextent s) - xat s < fuel)%nat →
  xsafe (parse_object_field parse_field_value name field f)
    (λ r s', reads_values s s' ∧
      match r with
      | inl f' => fields_found s0 input_fields f' s'
      | inr r' => r' = None ∧ (xreported s < xreported s')%nat
      end) s.
Proof.
  intros [Hst Hn Hd Hf] Hifs Hfield Hfuel. destruct f as [fs parsed]. simpl in *.
  assert (Hok : xok s) by (by eapply steps_ok, values_steps).
  unfold parse_object_field. wp_step. eapply note_duplicate_spec; [done|exact Hd|].
  intros s1 Hs1 Hd1. assert (Hok1 : xok s1) by (by eapply steps_ok, values_steps).
  repeat xstep; [split_and!; [etransitivity; [done|by apply values_set_parser]|done|xarith]|].
  xcall Hvalue; [xside|xarith|]. intros value s2 (Hs2 & Hlt & Hv). wp_step.
  assert (Hs02 : reads_values s s2).
  { etransitivity; [done|]. etransitivity; [|exact Hs2]. by apply values_set_parser. }
  split; [done|]. split; simpl.
  - by etransitivity.
  - unfold field_names in *. rewrite map_app, Hn. simpl. by f_equal; f_equal.
  - destruct Hd1 as [Hnd|(m & Hn' & Hc)]; [by left|right]. exists m. split; [done|].
    apply (steps_duplicates _ _ (values_steps _ _ Hs2)). done.
  - intros h Hrep Hh. apply Forall_app. split; [apply Hf; [xarith|done]|].
    constructor; [|constructor]. exists ifs, field. split_and!; [done|by simpl; congruence|].
    simpl. intros w ->. assert (Hrep' : xreported s2 = reported p') by xarith.
    rewrite <- (steps_symbols _ _ (values_steps _ _ Hst)), <- (steps_symbols _ _ (values_steps _ _ Hs1)).
    apply (Hv Hrep'); [done..|]. simpl.
    rewrite (values_heap _ _ Hs1), (values_heap _ _ Hst); [done|xarith..].
Qed.

Lemma parse_object_fields_spec input_fields type_identifier s :
  xok s → (S (xextent s) - xat s < fuel)%nat →
  xsafe (parse_object_fields parse_field_value type_identifier input_fields)
    (λ r s', reads_values s s' ∧
      match r with
      | Some f => fields_found s input_fields f s'
      | None => (xreported s < xreported s')%nat
      end) s.
Proof.
  intros Hok Hfuel. unfold parse_object_fields.
  apply (wp_executor_loop (λ f s1, fields_found s input_fields f s1)).
  { split; [by apply values_refl|done|left; apply NoDup_nil_2|intros; constructor]. }
  intros f s1 Hf1. assert (Hok1 : xok s1) by (eapply steps_ok, values_steps, Hf1).
  pose proof (found_steps _ _ _ _ Hf1) as Hs1.
  xstep. xstep.
  assert (Hend : xsafe (mret (inr (Some f)) : M _ (_ + option _)) (λ r s2,
      match r with
      | inl a' => fields_found s input_fields a' s2 ∧ xextent s2 = xextent s1 ∧
          (xat s1 < xat s2 ≤ S (xextent s2))%nat
      | inr b => reads_values s s2 ∧
          match b with
          | Some f0 => fields_found s input_fields f0 s2
          | None => (xreported s < xreported s2)%nat
          end
      end) (set_parser p' s1)).
  { wp_step. pose proof (found_moved _ _ _ _ p' Hf1 ltac:(done)) as Hf'.
    split; [apply Hf'|done]. }
  destruct token; try exact Hend; xtidy; repeat xstep.
  all: try solve [split_and!; [eapply found_moved; [done|xparses_chain]|xarith..]].
  all: try solve [split; eapply found_moved; [done|xparses_chain|done|xparses_chain]].
  destruct (find _ _) as [field|] eqn:E; repeat xstep.
  - xcall parse_object_field_spec; [by eapply found_moved|done|done|xarith|].
    intros [f'|r] s2 [Hs2 Hr].
    + split_and!; [done|xarith..].
    + destruct Hr as [-> Hr]. split; [|xarith]. etransitivity; [done|].
      etransitivity; [|exact Hs2]. by apply values_set_parser.
  - split_and!; [eapply found_moved; [done|xparses_chain]|xarith..].
Qed.

Lemma check_object_spec type_ required parsed fs syntax s :
  xok s → field_names fs = parsed → duplicates_noted parsed s →
  xsafe (check_object type_ required parsed fs syntax)
    (λ _ s', reads_values s s' ∧ (xreported s' = xreported s →
      NoDup (field_names fs) ∧ Forall (λ r, r ∈ field_names fs) required)) s.
Proof.
  intros Hok Hnames Hd. unfold check_object. xstep. xstep.
  xjoin (λ (_ : unit) s', ∃ p, s' = set_parser p s ∧ xparses (parser s) p).
  { wp_step; [repeat xstep; eexists; split; [done|xparses_chain]|].
    exists (parser s). split; [by destruct s|by apply parses_refl]. }
  intros _ ? (p1 & -> & Hp1). xcall check_duplicate_fields_spec; [xside|].
  intros _ ? (p2 & -> & Hp2 & Hdup). xnormal.
  xcall check_required_fields_spec; [xside|]. intros _ ? (p3 & -> & Hp3 & Hreq). xnormal.
  split; [apply values_set_parser; xparses_chain|]. simpl in *. intros Hrep. split.
  - destruct Hd as [Hnd|(n & Hn & Hc)]; [by rewrite Hnames|]. exfalso.
    apply (Hdup ltac:(xarith) n Hc). by rewrite Hnames.
  - rewrite Hnames. apply Hreq. xarith.
Qed.

Lemma parse_object_value_spec type_ q t s :
  xok s → (S (xextent s) - xat s < fuel)%nat →
  type_ = Some q → heap s !! q = Some (NType t) → type t = T_Object → is_list_type t = false →
  xsafe (parse_object_value parse_field_value type_)
    (λ v s', reads_values s s' ∧ value_read s type_ v s') s.
Proof.
  intros Hok Hfuel -> Hq Ht Hl. unfold parse_object_value. do 6 xstep. simplify_eq.
  do 4 xstep. destruct (decide _) as [Hk|Hk]; [repeat xstep; xdone|]. apply dec_stable in Hk.
  xstep. xstep. xstep. xstep.
  match goal with H : as_input_object ?d = Some ?o |- _ => rename d into d, o into io, H into Hio end.
  assert (Hbody : body d = BInputObject io)
    by (unfold as_input_object in Hio; destruct (body d); congruence).
  xcall parse_object_fields_spec; [done|done|]. intros [[fs parsed]|] s1 [Hs1 Hf]; [|wp_step; xdone].
  destruct Hf as [_ Hnames Hdup Hfit]. simpl in *. assert (Hok1 : xok s1) by (by eapply steps_ok, values_steps).
  xstep. xstep. xcall check_object_spec; [done|exact Hnames|exact Hdup|].
  intros _ s2 [Hs2 Hck]. wp_step. split; [by etransitivity|].
  intros Hrep ? ? h [= <-] [= <-] Hh. destruct Hck as [Hnd Hreq]; [xarith|].
  assert (Hrep1 : xreported s1 = xreported s) by xarith.
  assert (Hlook : ∀ x n, heap s !! x = Some n → h !! x = Some n)
    by (intros; by eapply prefix_lookup_Some).
  eapply fits_object; eauto. by apply Hfit.
Qed.
End object_values.

(** ** Lists, and all values *)

Lemma x_assign_is_list type_ b (Q : unit → GraphQlExecutor → Prop) s :
  (∀ q t, type_ = Some q → heap s !! q = Some (NType t) →
    Q tt (set_heap (<[q := NType (set_is_list_type b t)]> (heap s)) s)) →
  xsafe (assign_is_list_type type_ b) Q s.
Proof. intros HQ. unfold assign_is_list_type. repeat xstep. simplify_eq. by apply HQ. Qed.

Lemma set_is_list_type_twice b b' t :
  is_list_type t = b → set_is_list_type b (set_is_list_type b' t) = t.
Proof. destruct t. simpl. by intros ->. Qed.

(** The elements of a list, with the list flag of the type cleared. *)
Lemma list_elements_spec fuel q s :
  (∀ type_ s, xok s → (S (xextent s) - xat s < fuel)%nat →
    xsafe (Executor.parse_value fuel type_) (reads_value type_ s) s) →
  xok s → (S (xextent s) - xat s < fuel)%nat →
  xsafe (executor_loop (λ values,
      value ← Executor.parse_value fuel (Some q);
      match value with
      | Some v => mret (inl (values ++ [v]))
      | None => mret (inr values)
      end) [])
    (λ vs s', reads_values s s' ∧ (xreported s' = xreported s →
      ∀ h, heap s `prefix_of` h → Forall (fits (symbols s) h q) vs)) s.
Proof.
  intros IH Hok Hfuel.
  apply (wp_executor_loop (λ vs s1, reads_values s s1 ∧ (xreported s1 = xreported s →
    ∀ h, heap s `prefix_of` h → Forall (fits (symbols s) h q) vs))).
  { split; [by apply values_refl|]. by constructor. }
  intros vs s1 [Hs1 Hvs]. assert (Hok1 : xok s1) by (by eapply steps_ok, values_steps).
  xcall IH; [done|xarith|]. intros [v|] s2 (Hs2 & Hlt & Hv); wp_step.
  - specialize (Hlt ltac:(done)). split_and!; [by etransitivity| |xarith..].
    intros Hrep h Hh. apply Forall_app. split; [apply Hvs; [xarith|done]|].
    constructor; [|constructor]. rewrite <- (steps_symbols _ _ (values_steps _ _ Hs1)).
    apply Hv; [xarith|done..|]. rewrite (values_heap _ _ Hs1); [done|xarith].
  - split; [by etransitivity|]. intros Hrep. apply Hvs. xarith.
Qed.

(** What happens around the elements: from [s] the flag is cleared, from [s2] it
    is set. *)
Lemma list_flag_steps s p0 q t b s2 p2 t2 :
  xparses (parser s) p0 → heap s !! q = Some (NType t) →
  reads_values (set_heap (<[q := NType (set_is_list_type false t)]> (heap s)) (set_parser p0 s)) s2 →
  xparses (parser s2) p2 → heap s2 !! q = Some (NType t2) → b = true →
  (reported p2 = xreported s → is_list_type t = true) →
  reads_values s (set_heap (<[q := NType (set_is_list_type b t2)]> (heap s2)) (set_parser p2 s2)).
Proof.
  intros Hp0 Hq Hs2 Hp2 Hq2 -> Hflag. set (s1 := set_heap _ _) in Hs2.
  assert (Hst1 : steps s s1).
  { transitivity (set_parser p0 s); [by apply steps_set_parser|].
    apply steps_set_heap; [xside|]. by apply heap_like_flag. }
  assert (Hst2 : steps s (set_parser p2 s2)).
  { etransitivity; [exact Hst1|]. etransitivity; [by apply values_steps|]. by apply steps_set_parser. }
  split.
  - etransitivity; [exact Hst2|]. apply steps_set_heap; [xside|]. by apply heap_like_flag.
  - simpl. by rewrite (values_stack _ _ Hs2).
  - simpl. by rewrite (values_references _ _ Hs2).
  - simpl. intros Hrep. pose proof (Hflag Hrep) as Hl.
    assert (Hrep2 : xreported s2 = xreported s1).
    { subst s1. simpl in *. apply values_steps, steps_arith in Hs2 as (_ & _ & Hs2). simpl in Hs2.
      apply parses_reported in Hp0, Hp2. lia. }
    apply (values_heap _ _ Hs2) in Hrep2. simpl in Hrep2. rewrite Hrep2 in Hq2 |- *.
    rewrite list_lookup_insert_eq in Hq2 by (by eapply lookup_lt_Some). simplify_eq.
    rewrite list_insert_insert_eq, set_is_list_type_twice by done. by apply list_insert_id.
Qed.

Lemma parse_value_spec fuel type_ s :
  xok s → (S (xextent s) - xat s < fuel)%nat →
  xsafe (Executor.parse_value fuel type_) (reads_value type_ s) s.
Proof.
  revert type_ s. induction fuel as [|fuel IH]; intros type_ s Hok Hf; [lia|]. simpl.
  xstep. xstep. rename p' into p0.
  assert (Hscalar : xsafe (Executor.parse_scalar_value token type_) (reads_value type_ s)
      (set_parser p0 s)).
  { xcall parse_scalar_value_spec; [xside|]. intros v s1 (Hs1 & Hne & Hv).
    split_and!.
    - etransitivity; [by apply values_set_parser|done].
    - intros Hv'%Hne. xtidy. xarith.
    - eapply value_read_from; [done|xarith|done]. }
  destruct token; try exact Hscalar; clear Hscalar; xtidy.
  - (* an object *)
    xstep. xstep. wp_step; bool_hyps.
    + xcall skip_object_value_spec; [xside|]. intros v s1 (Hs1 & -> & Hrep).
      split_and!; [etransitivity; [by apply values_set_parser|done]|done|xdone].
    + rewrite bool_decide_eq_false in *. xtidy.
      xcall parse_object_value_spec; [exact IH|xside|xarith|done|done|done|done|].
      intros v s1 [Hs1 Hv]. split_and!.
      * etransitivity; [by apply values_set_parser|done].
      * intros _. xarith.
      * eapply value_read_from; [done|xarith|done].
  - (* a list *)
    xstep. xstep. rename q into q'. subst type_.
    match goal with H : heap _ !! q' = _ |- _ => simpl in H; rename H into Hqt end.
    xjoin (λ (_ : unit) s1, ∃ p1, s1 = set_parser p1 s ∧ xparses p0 p1 ∧
      (reported p1 = xreported s → is_list_type t = true)).
    { wp_step; bool_hyps; [repeat xstep; eexists; split_and!; [done|xparses_chain|xarith]|].
      exists p0. split_and!; [done|xside|done]. }
    intros _ ? (p1 & -> & Hp1 & Hflag). repeat xstep. apply x_assign_is_list.
    intros q t' [= <-] Hq. simpl in *. simplify_eq.
    set (s1 := set_heap _ _). assert (Hp01 : xparses (parser s) p1) by xparses_chain.
    xcall (list_elements_spec fuel q' s1); [exact IH|subst s1; xside|subst s1; xarith|].
    intros vs s2 [Hs2 Hvs]. assert (Hok2 : xok s2) by (by eapply steps_ok, values_steps).
    xstep. xstep.
    xjoin (λ (_ : unit) s3, ∃ p3, s3 = set_parser p3 s2 ∧ xparses (parser s2) p3).
    { wp_step; [repeat xstep; eexists; split; [done|xparses_chain]|].
      exists (parser s2). split; [by destruct s2|by apply parses_refl]. }
    intros _ ? (p3 & -> & Hp3). wp_step. apply x_assign_is_list.
    intros q t2 [= <-] Hq2. simpl in Hq2. repeat xstep.
    assert (Hrep3 : reported p3 = xreported s → reported p1 = xreported s ∧ xreported s2 = reported p1).
    { intros. subst s1. xarith. }
    split_and!.
    + apply (list_flag_steps s p1 q' t true s2 p3 t2); [done..|]. intros Hr%Hrep3. apply Hflag, Hr.
    + intros _. subst s1. xarith.
    + intros [Hr1 Hr2]%Hrep3 p w h [= <-] [= <-] Hh.
      eapply fits_list; [exact (prefix_lookup_Some _ _ _ _ Hqt Hh)|by apply Hflag|].
      apply (Hvs Hr2). subst s1. simpl.
      destruct Hh as [k ->]. exists k. rewrite insert_app_l; [done|by eapply lookup_lt_Some].
Qed.

Lemma parse_value__spec type_ s :
  xok s → xsafe (Executor.parse_value_ type_) (reads_value type_ s) s.
Proof.
  intros Hok. unfold Executor.parse_value_. xstep. xstep. apply parse_value_spec; [done|].
  unfold executor_fuel, parse_fuel, scan_fuel. lia.
Qed.

(** ** Arguments and directives *)

Section arguments.
Context (env : std_map ustring Symbol) (h : list Node).

(** The arguments given are defined, with values that fit. *)
Definition arguments_fit (defs : std_map ustring InputValueDefinition)
    (args : std_map ustring Argument) : Prop :=
  Forall (λ '(k, a), ∃ d, find k defs = Some d ∧
    ∀ p v, ivd_type d = Some p → argument_value a = Some v → fits env h p v) args.

Definition argument_required (d : InputValueDefinition) : Prop :=
  ∃ p t, ivd_type d = Some p ∧ h !! p = Some (NType t) ∧
    ((is_non_null t && negb (is_list_type t)) || is_non_null_list t) = true.

(** The required arguments are given. *)
Definition arguments_complete (defs : std_map ustring InputValueDefinition)
    (args : std_map ustring Argument) : Prop :=
  Forall (λ '(_, d), argument_required d → contains (identifier (ivd_name d)) args = true) defs.

(** The directives are defined and allowed at the location. *)
Definition directives_fit (definitions : std_map ustring ptr) (location : DirectiveLocation.t)
    (ds : std_map ustring Directive) : Prop :=
  Forall (λ '(k, d), ∃ p decl dd, find k definitions = Some p ∧ h !! p = Some (NDecl decl) ∧
    body decl = BDirectiveDefinition dd ∧ location ∈ locations dd ∧
    arguments_fit (dd_arguments dd) (directive_arguments d)) ds.
End arguments.

Lemma check_missing_arguments_spec defs args target s :
  xok s →
  xsafe (check_missing_arguments defs args target)
    (λ _ s', checks (∀ h, heap s `prefix_of` h → arguments_complete h defs args) s s') s.
Proof.
  intros Hok. unfold check_missing_arguments.
  xcall (x_check_each (λ ad : ustring * InputValueDefinition, ∀ h, heap s `prefix_of` h →
    argument_required h (snd ad) → contains (identifier (ivd_name (snd ad))) args = true)); [done|..].
  - intros [k d] p1 _ Hp1. xstep. xstep. simpl in *. wp_step.
    + repeat xstep. apply (checks_reported _ (set_parser p1 s)); [xparses_chain|xarith].
    + apply checks_nothing; [xside|]. intros h Hh (q' & t' & Hq' & Ht' & Hreq). simplify_eq.
      simpl in *. simplify_eq.
      match goal with H : heap s !! _ = _ |- _ =>
        pose proof (eq_trans (eq_sym Ht') (prefix_lookup_Some _ _ _ _ H Hh)) end. simplify_eq.
      rewrite Hreq in *. simpl in *.
      by destruct (contains _ args).
  - intros _ s1 (p & -> & Hp & HF). exists p. split_and!; [done..|]. intros Hrep h Hh.
    eapply list.Forall_impl; [by apply HF|]. intros [k d] Hd. by apply Hd.
Qed.

Definition directives_read (location : DirectiveLocation.t) (s : GraphQlExecutor)
    (ds : std_map ustring Directive) (s' : GraphQlExecutor) : Prop :=
  reads_values s s' ∧ (xreported s' = xreported s → ∀ h, heap s `prefix_of` h →
    directives_fit (symbols s) h (directive_definitions s) location ds).

Definition arguments_read (defs : std_map ustring InputValueDefinition) (s : GraphQlExecutor)
    (r : option (std_map ustring Argument * Syntax)) (s' : GraphQlExecutor) : Prop :=
  reads_values s s' ∧ (xreported s' = xreported s → ∃ args target, r = Some (args, target) ∧
    ∀ h, heap s `prefix_of` h →
      arguments_fit (symbols s) h defs args ∧ arguments_complete h defs args).

Section mutual.
Context (fuel : nat).
Context (Hdirectives : ∀ location s, xok s → (S (xextent s) - xat s < fuel)%nat →
  xsafe (Executor.parse_directives fuel location) (directives_read location s) s).
Context (Harguments : ∀ defs target s, xok s → (S (xextent s) - xat s < fuel)%nat →
  xsafe (parse_arguments fuel defs target) (arguments_read defs s) s).

Lemma parse_arguments_step defs target s :
  xok s → (S (xextent s) - xat s < S fuel)%nat →
  xsafe (parse_arguments (S fuel) defs target) (arguments_read defs s) s.
Proof.
  intros Hok Hf. simpl.
  xjoin (λ r s', reads_values s s' ∧ (xreported s' = xreported s → ∃ args, r = Some args ∧
    ∀ h, heap s `prefix_of` h → arguments_fit (symbols s) h defs args)).
  { apply (wp_executor_loop (λ args s1, reads_values s s1 ∧ (xreported s1 = xreported s →
      ∀ h, heap s `prefix_of` h → arguments_fit (symbols s) h defs args))).
    { split; [by apply values_refl|]. intros. constructor. }
    intros args s1 [Hs1 Hargs]. assert (Hok1 : xok s1) by (by eapply steps_ok, values_steps).
    xstep. xstep. destruct (decide _) as [Hne|Heq].
    { wp_step. split; [etransitivity; [done|by apply values_set_parser]|].
      intros Hrep. exists args. split; [done|]. apply Hargs. xarith. }
    apply dec_stable in Heq as ->. xtidy. rename p' into p0. do 6 xstep.
    xjoin (λ (_ : unit) s', checks (find v defs ≠ None) (set_parser p0 s1) s').
    { wp_step; [repeat xstep; apply (checks_reported _ (set_parser p0 s1)); [xparses_chain|xarith]|].
      rewrite bool_decide_eq_false in *. apply checks_nothing; [xside|done]. }
    intros _ ? (p1 & -> & Hp1 & Hdef). simpl in Hp1, Hdef. xnormal. xstep. xstep. xstep.
    { repeat xstep. split; [etransitivity; [done|apply values_set_parser; xparses_chain]|xarith]. }
    rename p' into p2. assert (Hp2 : xparses (parser s1) p2) by xparses_chain.
    xjoin (λ value s3, reads_values s1 s3 ∧ (xat s1 < xat s3)%nat ∧
      (xreported s3 = xreported s1 → ∃ d, find v defs = Some d ∧
        value_read s1 (ivd_type d) value s3)).
    { destruct (find v defs) as [d|] eqn:Ed.
      - xcall parse_value__spec; [xside|]. intros value s3 (Hs3 & _ & Hv). split_and!.
        + etransitivity; [by apply values_set_parser|done].
        + xarith.
        + intros Hrep. exists d. split; [done|]. eapply value_read_from; [exact Hp2|xarith|done].
      - repeat xstep. split_and!; [apply values_set_parser; xparses_chain|xarith|].
        intros Hrep. exfalso. apply Hdef; [xarith|done]. }
    intros value s3 (Hs3 & Hlt & Hv). assert (Hok3 : xok s3) by (by eapply steps_ok, values_steps).
    xcall Hdirectives; [done|xarith|]. intros ds s4 [Hs4 _]. wp_step.
    assert (Hs04 : reads_values s s4) by (do 2 (etransitivity; [done|]); done).
    split_and!; [done| |xarith..]. intros Hrep h Hh.
    destruct Hv as (d & Hd & Hv); [xarith|].
    apply Forall_emplace; [|apply Hargs; [xarith|done]]. exists d. split; [done|].
    intros q w Hq Hw. rewrite <- (steps_symbols _ _ (values_steps _ _ Hs1)).
    apply Hv; [xarith|done|done|]. rewrite (values_heap _ _ Hs1); [done|xarith]. }
  intros [args|] s1 [Hs1 Hargs]; [|wp_step; split; [done|intros Hrep; by destruct (Hargs Hrep) as (?&?&?)]].
  assert (Hok1 : xok s1) by (by eapply steps_ok, values_steps).
  xstep. xstep. xcall check_missing_arguments_spec; [done|]. intros _ ? (p & -> & Hp & Hc). wp_step.
  split; [etransitivity; [done|by apply values_set_parser]|]. intros Hrep.
  destruct Hargs as (args' & [= <-] & Hargs); [xarith|]. do 2 eexists. split; [done|].
  intros h Hh. split; [by apply Hargs|]. apply Hc; [xarith|].
  rewrite (values_heap _ _ Hs1); [done|xarith].
Qed.

Lemma directive_text_spec location s (Q : ustring → GraphQlExecutor → Prop) :
  (∀ text, Q text s) →
  xsafe (match directiveLocationToString location with
    | Some text => mret text
    | None => throw std_out_of_range
    end) Q s.
Proof. intros HQ. destruct (directiveLocationToString _); wp_step; [done|]. left. by right. Qed.

Definition given_fit (s : GraphQlExecutor) (dd : DirectiveDefinition)
    (r : option (std_map ustring Argument * Syntax)) : Prop :=
  ∃ args target, r = Some (args, target) ∧
    ∀ h, heap s `prefix_of` h → arguments_fit (symbols s) h (dd_arguments dd) args.

Lemma directive_arguments_spec paren dd target s :
  xok s → (S (xextent s) - xat s < fuel)%nat →
  xsafe (if (paren : bool) then parse_arguments fuel (dd_arguments dd) target
         else mret (Some ([], target)))
    (λ r s', reads_values s s' ∧ (xreported s' = xreported s → given_fit s dd r)) s.
Proof.
  intros Hok Hf. destruct paren.
  - xcall Harguments; [done..|]. intros r s1 [Hs1 Hr]. split; [done|].
    intros (args & t & -> & Hargs)%Hr. exists args, t. split; [done|]. intros h Hh. by apply Hargs.
  - wp_step. split; [by apply values_refl|]. intros _. exists [], target. split; [done|].
    intros. constructor.
Qed.

Lemma parse_defined_directive_spec location syntax name q ds s :
  xok s → (S (xextent s) - xat s < fuel)%nat → find name (directive_definitions s) = Some q →
  xsafe (parse_defined_directive (parse_arguments fuel) location syntax name q ds)
    (λ r s', reads_values s s' ∧ (xreported s' = xreported s → ∀ h, heap s `prefix_of` h →
      directives_fit (symbols s) h (directive_definitions s) location ds →
      directives_fit (symbols s) h (directive_definitions s) location
        (match r with inl ds' => ds' | inr ds' => ds' end))) s.
Proof.
  intros Hok Hf Hq. unfold parse_defined_directive. xstep. xstep. xstep. xstep.
  rename d into decl, a into dd, H into Hdecl, H0 into Hdd.
  assert (Hbody : body decl = BDirectiveDefinition dd)
    by (unfold as_directive_definition in Hdd; destruct (body decl); congruence).
  xjoin (λ (_ : unit) s', checks (location ∈ locations dd) s s').
  { wp_step.
    - xstep. xstep. wp_step. apply directive_text_spec. intros text. xstep.
      by apply checks_reported; [|xarith].
    - rewrite bool_decide_eq_false in *. apply checks_nothing; [done|by apply dec_stable]. }
  intros _ ? (p1 & -> & Hp1 & Hloc). do 4 xstep.
  xcall directive_arguments_spec; [xside|xarith|]. intros r s2 [Hs2 Hr].
  assert (Hs02 : reads_values s s2).
  { etransitivity; [|exact Hs2]. apply values_set_parser. xparses_chain. }
  assert (Hok2 : xok s2) by (by eapply steps_ok, values_steps).
  destruct r as [[args target]|]; [|wp_step; by split].
  xstep. xstep. rename p'0 into p2.
  wp_step; [repeat xstep; split; [|xarith]; etransitivity; [done|apply values_set_parser; xparses_chain]|].
  wp_step. split; [etransitivity; [done|by apply values_set_parser]|].
  intros Hrep h Hh Hds. apply Forall_emplace; [|done].
  destruct Hr as (args' & target' & [= <- <-] & Hargs); [xarith|].
  exists q, decl, dd. split_and!; [done| |done|apply Hloc; xarith|by apply Hargs].
  by eapply prefix_lookup_Some.
Qed.

Lemma parse_directives_step location s :
  xok s → (S (xextent s) - xat s < S fuel)%nat →
  xsafe (Executor.parse_directives (S fuel) location) (directives_read location s) s.
Proof.
  intros Hok Hf. simpl.
  apply (wp_executor_loop (λ ds s1, directives_read location s ds s1)).
  { split; [by apply values_refl|]. intros. constructor. }
  intros ds s1 [Hs1 Hds]. assert (Hok1 : xok s1) by (by eapply steps_ok, values_steps).
  assert (Hend : ∀ p, xparses (parser s1) p → directives_read location s ds (set_parser p s1)).
  { intros p Hp. split; [etransitivity; [done|by apply values_set_parser]|].
    intros Hrep. apply Hds. xarith. }
  xstep. xstep. xstep; [wp_step; by apply Hend|].
  xstep. xstep. destruct (decide _); [repeat xstep; apply Hend; xparses_chain|].
  do 5 xstep. xstep. rename v0 into name, p'0 into p0. xtidy.
  assert (Hp0 : xparses (parser s1) p0) by xparses_chain.
  simpl. rewrite (steps_definitions _ _ (values_steps _ _ Hs1)).
  destruct (find name (directive_definitions s)) as [q|] eqn:Eq;
    [|repeat xstep; apply Hend; xparses_chain].
  xcall parse_defined_directive_spec;
    [xside|xarith|simpl; by rewrite (steps_definitions _ _ (values_steps _ _ Hs1))|].
  intros r s2 [Hs2 Hr].
  assert (Hread : directives_read location s (match r with inl ds' => ds' | inr ds' => ds' end) s2).
  { split.
    - etransitivity; [done|]. etransitivity; [|done]. by apply values_set_parser.
    - intros Hrep h Hh. simpl in Hr.
      rewrite (steps_symbols _ _ (values_steps _ _ Hs1)),
        (steps_definitions _ _ (values_steps _ _ Hs1)), (values_heap _ _ Hs1) in Hr by xarith.
      apply Hr; [xarith|done|]. apply Hds; [xarith|done]. }
  destruct r; [|done]. split; [done|xarith].
Qed.
End mutual.

(** Directives and arguments are parsed within the fuel, whatever the nesting. *)
Lemma mutual_spec fuel :
  (∀ location s, xok s → (S (xextent s) - xat s < fuel)%nat →
    xsafe (Executor.parse_directives fuel location) (directives_read location s) s) ∧
  (∀ defs target s, xok s → (S (xextent s) - xat s < fuel)%nat →
    xsafe (parse_arguments fuel defs target) (arguments_read defs s) s).
Proof.
  induction fuel as [|fuel [IHd IHa]]; [split; intros; lia|]. split; intros.
  - by apply parse_directives_step.
  - by apply parse_arguments_step.
Qed.

Lemma parse_directives__spec location s :
  xok s → xsafe (parse_directives_ location) (directives_read location s) s.
Proof.
  intros Hok. unfold parse_directives_. xstep. xstep. apply mutual_spec; [done|].
  unfold executor_fuel, parse_fuel, scan_fuel. lia.
Qed.

Lemma parse_arguments__spec defs target s :
  xok s → xsafe (parse_arguments_ defs target) (arguments_read defs s) s.
Proof.
  intros Hok. unfold parse_arguments_. xstep. xstep. apply mutual_spec; [done|].
  unfold executor_fuel, parse_fuel, scan_fuel. lia.
Qed.
