(* ===== verification/ExecutorSelections.v ===== *)
(** * Selections of a query

    [condition_ok] is when an object type can be asked for where another type is
    selected from, and [set_ok] when a selection set only selects fields of its
    type.  A selection set that is parsed without a diagnostic is one, and the
    stack of types is then one shorter. *)
From S2P Require Import Prelude Monad Character Cstring Diagnostic StdMap Syntaxes.
From S2P Require Import TextWriter Scanner ScannerSpec Parser ParserSpec Schema ValueSafety.
From S2P Require Import Executor ExecutorRules ExecutorValues.

(** ** Type conditions *)

Definition condition_ok (object current : Declaration) : Prop :=
  match kind (decl_syntax current) with
  | S_Interface => ∃ o i n, body object = BObject o ∧ object_implementations o = Some i ∧
      decl_name current = Some n ∧ contains (identifier n) (implementations i) = true
  | S_Object => ∃ n m, decl_name current = Some n ∧ decl_name object = Some m ∧
      identifier n = identifier m
  | S_Union => ∃ v m, body current = BUnion v ∧ decl_name object = Some m ∧
      contains (identifier m) (members v) = true
  | _ => False
  end.

(** The diagnostic of an object that can not be asked for. *)
Definition assignment_template (current : Declaration) : D :=
  match kind (decl_syntax current) with
  | S_Interface => The_object_0_does_not_implement_the_interface_1
  | S_Object => The_object_0_does_not_match_the_object_1
  | S_Union => The_type_0_is_not_member_of_the_union_1
  | _ => Type_conditions_are_only_applicable_inside_object_interfaces_and_unions
  end.

(** Declarations as the schema parser leaves them: named, and with the kind of
    their class. *)
Definition declared (d : Declaration) : Prop :=
  is_Some (decl_name d) ∧ kind (decl_syntax d) = body_kind (body d).

Definition is_object (d : Declaration) : Prop := ∃ o, body d = BObject o.

(** The state with one more diagnostic. *)
Definition with_diagnostic (m : DiagnosticMessage) (s : GraphQlExecutor) : GraphQlExecutor :=
  set_parser (set_diagnostics (diagnostics (parser s) ++ [m]) (parser s)) s.

Definition assignment_verdict (object current : Declaration) (s s' : GraphQlExecutor) : Prop :=
  (condition_ok object current ∧ s' = s) ∨
  (¬ condition_ok object current ∧
    ∃ m, _template m = assignment_template current ∧ s' = with_diagnostic m s).

Section assignment.
Context (ub : Prop) (good : Directive → Prop) (s : GraphQlExecutor).
Context (Hok : parser_ok ub good (parser s)).
Local Abbreviation safe m Q := (wp ub m Q (λ e _, parse_exn e) s).

Lemma wp_location syntax (Q : Location → GraphQlExecutor → Prop) :
  (∀ l, Q l s) → safe ⟨get_location_from_syntax syntax⟩ Q.
Proof.
  intros HQ. wp_step. eapply get_location_parses; [exact Hok|]. intros l.
  change (parser s) with (sub s). rewrite put_sub_id. apply HQ.
Qed.

Lemma wp_decl_identifier d (Q : ustring → GraphQlExecutor → Prop) :
  (decl_name d = None → ub) → (∀ n, decl_name d = Some n → Q (identifier n) s) →
  safe (decl_identifier d) Q.
Proof.
  intros Hub HQ. unfold decl_identifier. wp_step. apply wp_deref; [|done]. intros n Hn. wp_step. auto.
Qed.

Lemma wp_add_diagnostic_at l d args (Q : unit → GraphQlExecutor → Prop) :
  Q tt (with_diagnostic (create_diagnostic l d args) s) → safe ⟨add_diagnostic_at l d args⟩ Q.
Proof. intros HQ. by repeat wp_step. Qed.

Lemma report_assignment_spec object current name :
  declared object ∧ declared current ∨ ub → ¬ condition_ok object current →
  safe (report_assignment (assignment_template current) name object current)
    (λ _ s', assignment_verdict object current s s').
Proof.
  intros Hwf Hno. unfold report_assignment. wp_step. apply wp_location. intros l.
  wp_step. apply wp_decl_identifier; [intros HN; destruct Hwf as [[[[? ?] _] _]|]; [congruence|done]|].
  intros n Hn. wp_step.
  apply wp_decl_identifier; [intros HN; destruct Hwf as [[_ [[? ?] _]]|]; [congruence|done]|].
  intros m Hm. apply wp_add_diagnostic_at. right. split; [done|].
  eexists. split; [|reflexivity]. done.
Qed.

Lemma check_when object current name b d :
  declared object ∧ declared current ∨ ub → d = assignment_template current →
  (b = false ↔ condition_ok object current) →
  safe (when b (report_assignment d name object current))
    (λ _ s', assignment_verdict object current s s').
Proof.
  intros Hwf -> Hb. wp_step; subst b.
  - apply report_assignment_spec; [done|]. intros Hc%Hb. done.
  - left. split; [by apply Hb|done].
Qed.

Lemma check_interface_condition object current name :
  is_object object ∧ declared object ∧ declared current ∨ ub →
  kind (decl_syntax current) = S_Interface →
  safe (o ← deref (as_object object);
        implements ← match object_implementations o with
          | None => mret false
          | Some i =>
              name ← decl_identifier current;
              mret (contains name (implementations i))
          end;
        when (negb implements)
          (report_assignment The_object_0_does_not_implement_the_interface_1 name object current))
    (λ _ s', assignment_verdict object current s s').
Proof.
  intros Hwf Ek. wp_step. unfold as_object.
  apply wp_deref; [|intros HN; destruct Hwf as [[[o Ho] _]|]; [by rewrite Ho in HN|done]].
  intros o Ho. assert (Hbody : body object = BObject o) by (destruct (body object); congruence).
  clear Ho. wp_step. destruct (object_implementations o) as [i|] eqn:Ei.
  - wp_step. apply wp_decl_identifier.
    { intros HN; destruct Hwf as [[_ [_ [[? ?] _]]]|]; [congruence|done]. }
    intros n Hn. wp_step. apply check_when; [tauto| |].
    { unfold assignment_template. by rewrite Ek. }
    unfold condition_ok. rewrite Ek, negb_false_iff. split; [by intros; exists o, i, n|].
    intros (o' & i' & n' & ? & ? & ? & ?). assert (o' = o) as -> by congruence. by simplify_eq.
  - wp_step. apply check_when; [tauto| |].
    { unfold assignment_template. by rewrite Ek. }
    unfold condition_ok. rewrite Ek. split; [done|].
    intros (o' & i' & n' & ? & ? & ? & ?). assert (o' = o) as -> by congruence. congruence.
Qed.

Lemma check_object_condition object current name :
  is_object object ∧ declared object ∧ declared current ∨ ub →
  kind (decl_syntax current) = S_Object →
  safe (a ← decl_identifier current;
        b ← decl_identifier object;
        when (bool_decide (a ≠ b))
          (report_assignment The_object_0_does_not_match_the_object_1 name object current))
    (λ _ s', assignment_verdict object current s s').
Proof.
  intros Hwf Ek. wp_step. apply wp_decl_identifier.
  { intros HN; destruct Hwf as [[_ [_ [[? ?] _]]]|]; [congruence|done]. }
  intros n Hn. wp_step. apply wp_decl_identifier.
  { intros HN; destruct Hwf as [[_ [[[? ?] _] _]]|]; [congruence|done]. }
  intros m Hm. apply check_when; [tauto| |].
  { unfold assignment_template. by rewrite Ek. }
  unfold condition_ok. rewrite Ek, bool_decide_eq_false. split.
  - intros He%dec_stable. by exists n, m.
  - intros (n' & m' & ? & ? & ?). simplify_eq. auto.
Qed.

Lemma check_union_condition object current name :
  is_object object ∧ declared object ∧ declared current ∨ ub →
  kind (decl_syntax current) = S_Union →
  safe (v ← deref (as_union current);
        n ← decl_identifier object;
        when (negb (contains n (members v)))
          (report_assignment The_type_0_is_not_member_of_the_union_1 name object current))
    (λ _ s', assignment_verdict object current s s').
Proof.
  intros Hwf Ek. wp_step. unfold as_union. apply wp_deref.
  2: { intros HN; destruct Hwf as [[_ [_ [_ Hk]]]|]; [|done]. rewrite Ek in Hk.
       by destruct (body current). }
  intros v Hv. assert (Hbody : body current = BUnion v) by (destruct (body current); congruence).
  wp_step. apply wp_decl_identifier.
  { intros HN; destruct Hwf as [[_ [[[? ?] _] _]]|]; [congruence|done]. }
  intros m Hm. apply check_when; [tauto| |].
  { unfold assignment_template. by rewrite Ek. }
  unfold condition_ok. rewrite Ek, negb_false_iff. split; [by intros; exists v, m|].
  intros (v' & m' & ? & ? & ?). assert (v' = v) as -> by congruence. by simplify_eq.
Qed.

(** The check reports exactly what can not be asked for. *)
Lemma check_fragment_assignment_spec name object current :
  is_object object ∧ declared object ∧ declared current ∨ ub →
  safe (check_fragment_assignment name object current)
    (λ _ s', assignment_verdict object current s s').
Proof.
  intros Hwf. unfold check_fragment_assignment. cbv zeta.
  destruct (kind (decl_syntax current)) eqn:Ek;
    first
      [ by apply check_interface_condition | by apply check_object_condition
      | by apply check_union_condition
      | wp_step; apply wp_location; intros l; apply wp_add_diagnostic_at; right;
        unfold condition_ok, assignment_template; rewrite Ek;
        split; [tauto|]; eexists; split; [|reflexivity]; done ].
Qed.
End assignment.

(** ** Selections of the fields of a type *)

Section selection_ok.
Context (env : std_map ustring Symbol) (definitions : std_map ustring ptr).
Context (h : list Node) (references : list (Name * root)).

(** The name that is looked up among the fields: the alias, if there is one. *)
Definition looked_up (alias name : option Name) : option ustring :=
  identifier <$> (match alias with Some a => Some a | None => name end).

(** The type whose fields a field of type [p] has. *)
Definition selects_from (p : ptr) (symbol : Symbol) : Prop :=
  ∃ t n, h !! p = Some (NType t) ∧ type_in (type t) T_ObjectType = true ∧
    type_name t = Some n ∧ find (identifier n) env = Some symbol.

(** The arguments, where there are any in parentheses. *)
Definition field_arguments_ok (fd : FieldDefinition)
    (arguments : option (std_map ustring Argument)) : Prop :=
  ∀ args, arguments = Some args →
    arguments_fit env h (fd_arguments fd) args ∧ arguments_complete h (fd_arguments fd) args.

Inductive selection_ok : root → Selection → Prop :=
  | field_ok p d o fs key fd s alias name arguments ds set_ :
      h !! p = Some (NDecl d) → as_object_like d = Some o → fields o = Some fs →
      looked_up alias name = Some key → find key fs = Some fd →
      field_arguments_ok fd arguments →
      directives_fit env h definitions DirectiveLocation.FIELD ds →
      (∀ set', set_ = Some set' → ∃ symbol, selects_from (fd_type fd) symbol ∧
        set_ok (Assigned (Some (declaration symbol))) set') →
      selection_ok (Assigned (Some p)) (Field s alias name arguments ds set_)
  | spread_ok top s name ds :
      (name, top) ∈ references →
      directives_fit env h definitions DirectiveLocation.FRAGMENT_SPREAD ds →
      selection_ok top (FragmentSpread s name ds)
  | inline_ok p current q object s ds set_ :
      h !! p = Some (NDecl current) → h !! q = Some (NDecl object) →
      kind (decl_syntax object) = S_Object → condition_ok object current →
      directives_fit env h definitions DirectiveLocation.INLINE_FRAGMENT ds →
      set_ok (Assigned (Some q)) set_ →
      selection_ok (Assigned (Some p)) (InlineFragment s ds (Some set_))
with set_ok : root → SelectionSet → Prop :=
  | set_ok_all top s selections :
      Forall (selection_ok top) selections → set_ok top (mkSelectionSet s selections).
End selection_ok.

(** A selection set was read without a diagnostic: it selects from the type on
    the top of the stack, which is popped; the memory is as it was. *)
Definition set_accepted (s : GraphQlExecutor) (r : option SelectionSet) (s' : GraphQlExecutor) :
    Prop :=
  ∃ set_ top rest, r = Some set_ ∧ current_object_types s = top :: rest ∧
    current_object_types s' = rest ∧ heap s' = heap s ∧
    ∀ h references, heap s `prefix_of` h → forward_fragment_references s' `prefix_of` references →
      set_ok (symbols s) (directive_definitions s) h references top set_.

Definition set_read (s : GraphQlExecutor) (r : option SelectionSet) (s' : GraphQlExecutor) : Prop :=
  steps s s' ∧ (xreported s' = xreported s → set_accepted s r s').

(** One more selection of the type on the top of the stack. *)
Definition selection_accepted (s : GraphQlExecutor) (selections : list Selection) (r : selected)
    (s' : GraphQlExecutor) : Prop :=
  ∃ x, r = inl (selections ++ [x]) ∧ current_object_types s' = current_object_types s ∧
    heap s' = heap s ∧
    ∀ top rest h references, current_object_types s = top :: rest →
      heap s `prefix_of` h → forward_fragment_references s' `prefix_of` references →
      selection_ok (symbols s) (directive_definitions s) h references top x.

Definition selection_read (s : GraphQlExecutor) (selections : list Selection) (r : selected)
    (s' : GraphQlExecutor) : Prop :=
  steps s s' ∧ (xreported s' = xreported s → selection_accepted s selections r s').

Ltac steps_chain :=
  simpl;
  repeat match goal with
  | |- steps ?s ?s => apply steps_refl; xside
  | H : steps ?s ?s' |- steps ?s ?s' => exact H
  | H : steps ?t ?s' |- steps _ ?s' => transitivity t; [|exact H]; clear H
  | |- steps ?s (set_parser ?p ?s) => apply steps_set_parser; xparses_chain
  | |- steps _ (set_parser ?p ?t) =>
      transitivity t; [|apply steps_set_parser; xparses_chain]
  end.

(** A diagnostic was added. *)
Ltac rejected :=
  split; [steps_chain|intros; exfalso; xarith].

Section nested.
Context (fuel : nat) (nested : M GraphQlExecutor (option SelectionSet)).
Context (Hnested : ∀ s, xok s → (S (xextent s) - xat s < fuel)%nat → xsafe nested (set_read s) s).

Lemma parse_selection_set_with_spec s :
  xok s → (S (xextent s) - xat s < fuel)%nat →
  xsafe (parse_selection_set_with nested) (set_read s) s.
Proof.
  intros Hok Hf. unfold parse_selection_set_with. xstep. xstep. xstep; [wp_step; rejected|].
  xcall Hnested; [xside|xarith|]. intros r s1 [Hs1 Hr]. split.
  - etransitivity; [|done]. by apply steps_set_parser.
  - intros Hrep. apply Hr. xarith.
Qed.

Lemma parse_fragment_spread_spec selections s :
  xok s → xsafe (parse_fragment_spread selections) (selection_read s selections) s.
Proof.
  intros Hok. unfold parse_fragment_spread. repeat xstep.
  set (s1 := set_forward_fragment_references _ _).
  assert (Hs01 : steps s s1) by (by apply steps_refer).
  xcall parse_directives__spec; [xside|]. intros ds s2 [Hs2 Hds]. wp_step. split.
  - etransitivity; [done|]. by apply values_steps.
  - intros Hrep. eexists. split; [done|].
    assert (Hrep2 : xreported s2 = xreported s1) by (subst s1; xarith).
    split_and!; [by rewrite (values_stack _ _ Hs2)|by rewrite (values_heap _ _ Hs2)|].
    intros top rest' h references Ht Hh Href. constructor.
    + rewrite (values_references _ _ Hs2) in Href. subst s1. simpl in Href.
      destruct Href as [k ->]. apply elem_of_app. left. apply elem_of_app. right.
      assert (top = r) as -> by congruence. by left.
    + by apply Hds.
Qed.

(** The check as a rule: the state moves to [set_parser]. *)
Lemma x_check_fragment name object current s (Q : unit → GraphQlExecutor → Prop) :
  xok s →
  (∀ p, xparses (parser s) p → (reported p = xreported s → condition_ok object current) →
    Q tt (set_parser p s)) →
  xsafe (check_fragment_assignment name object current) Q s.
Proof.
  intros Hok HQ.
  eapply wp_mono; [eapply (check_fragment_assignment_spec True (λ _, True)); [done|by right]| |by left].
  intros [] s' [[Hc ->]|(Hno & m & Hm & ->)].
  - specialize (HQ (parser s) (parses_refl _ _ _ Hok) (λ _, Hc)). by destruct s.
  - apply HQ.
    + apply parses_member; try done. simpl. by apply prefix_app_r.
    + simpl. rewrite length_app. simpl. lia.
Qed.

(** What follows a type condition. *)
Definition inline_read (q : ptr) (s : GraphQlExecutor)
    (r : std_map ustring Directive * option SelectionSet) (s' : GraphQlExecutor) : Prop :=
  steps s s' ∧ (xreported s' = xreported s →
    current_object_types s' = current_object_types s ∧ heap s' = heap s ∧ ∃ set',
    snd r = Some set' ∧ ∀ h references, heap s `prefix_of` h →
      forward_fragment_references s' `prefix_of` references →
      directives_fit (symbols s) h (directive_definitions s) DirectiveLocation.INLINE_FRAGMENT
        (fst r) ∧
      set_ok (symbols s) (directive_definitions s) h references (Assigned (Some q)) set').

Lemma parse_inline_selections_spec q s :
  xok s → (S (xextent s) - xat s < fuel)%nat →
  xsafe (parse_inline_selections nested q) (inline_read q s) s.
Proof.
  intros Hok Hf. unfold parse_inline_selections, push_object_type. xstep. xstep.
  set (s2 := set_current_object_types _ s).
  assert (Hs12 : steps s s2) by (by apply steps_push).
  xcall parse_directives__spec; [xside|]. intros ds s3 [Hs3 Hds].
  assert (Hok3 : xok s3) by (by eapply steps_ok, values_steps).
  assert (Hf3 : (S (xextent s3) - xat s3 < fuel)%nat) by xarith.
  xcall parse_selection_set_with_spec; [done..|]. intros set_ s4 [Hs4 Hset]. wp_step. split.
  - etransitivity; [done|]. etransitivity; [by apply values_steps|done].
  - intros Hrep. assert (Hr4 : xreported s4 = xreported s3 ∧ xreported s3 = xreported s2)
      by (subst s2; xarith).
    destruct Hr4 as [Hr4 Hr3]. destruct (Hset Hr4) as (set' & top & rest & -> & Ht & Hr & Hh & Hsel).
    pose proof (values_stack _ _ Hs3) as Hst3. pose proof (values_heap _ _ Hs3 Hr3) as Hh3.
    simpl in Hst3, Hh3. rewrite Hst3 in Ht. simplify_eq.
    split_and!; [done|congruence|]. eexists. split; [done|]. intros h references Hp Href. split.
    + apply (Hds Hr3). done.
    + rewrite (steps_symbols _ _ (values_steps _ _ Hs3)),
        (steps_definitions _ _ (values_steps _ _ Hs3)) in Hsel. apply Hsel; [|done].
      by rewrite Hh3.
Qed.

Lemma parse_inline_fragment_spec start_ selections s :
  xok s → (S (xextent s) - xat s < fuel)%nat →
  xsafe (parse_inline_fragment nested start_ selections) (selection_read s selections) s.
Proof.
  intros Hok Hf. unfold parse_inline_fragment. xstep. xstep. xstep; [repeat xstep; rejected|].
  rename p' into p0. repeat xstep. simpl.
  destruct (find v (symbols s)) as [symbol|]; [|repeat xstep; rejected].
  do 4 xstep. rename d into object. destruct (decide _) as [|Hk]; [repeat xstep; rejected|].
  apply dec_stable in Hk. do 4 xstep. rename d into current.
  wp_step. apply x_check_fragment; [xside|]. intros p1 Hp1 Hc. xnormal. simpl in Hp1, Hc.
  assert (Hp01 : xparses (parser s) p1) by xparses_chain.
  xcall parse_inline_selections_spec; [xside|xarith|]. intros [ds set_] s2 [Hs2 Hset].
  repeat xstep. split; [etransitivity; [by apply steps_set_parser|done]|]. intros Hrep.
  destruct Hset as (Hst & Hh2 & set' & Hset' & Hok2); [xarith|]. simpl in Hset', Hok2.
  eexists. split; [done|]. split_and!; [done..|].
  intros top rest' h references Ht Hh Href. subst set_. simpl in *.
  assert (top = Assigned (Some p)) as -> by congruence.
  destruct (Hok2 _ _ Hh Href) as [Hds Hsel].
  apply (inline_ok _ _ _ _ p current (declaration symbol) object);
    [by eapply prefix_lookup_Some..|done|apply Hc; xarith|done|done].
Qed.

Lemma parse_ellipses_spec start_ selections s :
  xok s → (S (xextent s) - xat s < fuel)%nat →
  xsafe (parse_ellipses nested start_ selections) (selection_read s selections) s.
Proof.
  intros Hok Hf. unfold parse_ellipses. xstep. xstep. rename p' into p.
  assert (Hlift : ∀ r s', selection_read (set_parser p s) selections r s' →
    selection_read s selections r s').
  { intros r s' [Hs' Hr]. split; [etransitivity; [by apply steps_set_parser|done]|].
    intros Hrep. apply Hr. xarith. }
  destruct token; try solve [repeat xstep; rejected].
  - xcall parse_fragment_spread_spec; [xside|exact Hlift].
  - xcall parse_inline_fragment_spec; [xside|xarith|exact Hlift].
Qed.

(** The selections of a field of type [p]: without a diagnostic the field can be
    selected from. *)
Definition field_set_read (p : ptr) (s : GraphQlExecutor) (r : bool * option SelectionSet)
    (s' : GraphQlExecutor) : Prop :=
  steps s s' ∧ (xreported s' = xreported s →
    fst r = true ∧ current_object_types s' = current_object_types s ∧ heap s' = heap s ∧
    ∀ h references set', heap s `prefix_of` h →
      forward_fragment_references s' `prefix_of` references → snd r = Some set' →
      ∃ symbol, selects_from (symbols s) h p symbol ∧
        set_ok (symbols s) (directive_definitions s) h references
          (Assigned (Some (declaration symbol))) set').

Lemma parse_field_selection_set_spec p s :
  xok s → (S (xextent s) - xat s < fuel)%nat →
  xsafe (parse_field_selection_set nested (Some p)) (field_set_read p s) s.
Proof.
  intros Hok Hf. unfold parse_field_selection_set. xstep. xstep.
  xstep; [wp_step; split; [steps_chain|by intros _]|].
  rename p' into p0. xstep. xstep. simplify_eq. wp_step; [|repeat xstep; rejected].
  do 6 xstep. unfold push_object_type. xstep. xstep.
  set (s2 := set_current_object_types _ _).
  assert (Hs2 : steps s s2).
  { etransitivity; [by apply (steps_set_parser _ p0)|]. apply steps_push. xside. }
  xcall Hnested; [by eapply steps_ok|subst s2; xarith|]. intros r s3 [Hs3 Hr]. wp_step.
  split; [by etransitivity|]. intros Hrep.
  destruct Hr as (set_ & top & rest & -> & Ht & Hrest & Hh & Hsel); [subst s2; xarith|].
  simpl in Ht. simplify_eq. split_and!; [done..|].
  intros h references set' Hp Href [= <-]. eexists. split; [|by apply Hsel].
  do 2 eexists. split_and!; [by eapply prefix_lookup_Some|done..].
Qed.

Lemma field_names_spec value name (colon : bool) s :
  xok s → identifier name = value →
  xsafe (if colon then aliased ← parse_expected_name; mret (Some name, aliased)
         else mret (None, Some name))
    (λ names s', ∃ p, s' = set_parser p s ∧ xparses (parser s) p ∧
      looked_up (fst names) (snd names) = Some value) s.
Proof.
  intros Hok <-. destruct colon.
  - unfold parse_expected_name. repeat xstep; eexists; (split_and!; [done|xparses_chain|done]).
  - wp_step. exists (parser s). split_and!; [by destruct s|by apply parses_refl|done].
Qed.

Lemma field_arguments_spec fd target (paren : bool) s :
  xok s →
  xsafe (if paren then parse_arguments_ (fd_arguments fd) target else mret None)
    (λ parsed s', reads_values s s' ∧ (xreported s' = xreported s → ∀ h, heap s `prefix_of` h →
      field_arguments_ok (symbols s) h fd (fst <$> parsed))) s.
Proof.
  intros Hok. destruct paren.
  - xcall parse_arguments__spec; [done|]. intros parsed s1 [Hs1 Hp]. split; [done|].
    intros (args & t & -> & Hargs)%Hp h Hh args' [= <-]. by apply Hargs.
  - wp_step. split; [by apply values_refl|]. by intros _ h Hh args'.
Qed.

(** A field of the type on the top of the stack. *)
Lemma parse_defined_field_spec selections token_value fd s :
  xok s → (S (xextent s) - xat s < fuel)%nat →
  xsafe (parse_defined_field nested selections token_value fd)
    (λ r s', steps s s' ∧ (xreported s' = xreported s →
      ∃ x, r = inl (selections ++ [x]) ∧ current_object_types s' = current_object_types s ∧
        heap s' = heap s ∧
        ∀ p d o fs h references, heap s `prefix_of` h →
          forward_fragment_references s' `prefix_of` references →
          heap s !! p = Some (NDecl d) → as_object_like d = Some o → fields o = Some fs →
          find token_value fs = Some fd →
          selection_ok (symbols s) (directive_definitions s) h references (Assigned (Some p)) x)) s.
Proof.
  intros Hok Hf. unfold parse_defined_field. do 6 xstep. rename p' into p0.
  xcall field_names_spec; [xside|done|]. intros names ? (p1 & -> & Hp1 & Hnames). simpl in Hp1.
  do 2 xstep. rename p' into p2. assert (Hp2 : xparses (parser s) p2) by xparses_chain.
  xcall field_arguments_spec; [xside|]. intros parsed s2 [Hs2 Hargs].
  assert (Hs02 : reads_values s s2)
    by (etransitivity; [by apply (values_set_parser _ p2)|exact Hs2]).
  assert (Hok2 : xok s2) by (by eapply steps_ok, values_steps).
  xcall parse_directives__spec; [done|]. intros ds s3 [Hs3 Hds].
  assert (Hs03 : reads_values s s3) by (by etransitivity).
  assert (Hok3 : xok s3) by (by eapply steps_ok, values_steps).
  xcall parse_field_selection_set_spec; [done|xarith|]. intros r s4 [Hs4 Hset].
  assert (Hst : steps s s4) by (by etransitivity; [apply values_steps|]).
  xstep; wp_step; [split; [done|intros Hrep; destruct Hset as [? _]; [xarith|congruence]]|].
  split; [done|]. intros Hrep. eexists. split; [done|].
  assert (Hrep2 : xreported s2 = xreported (set_parser p2 s)) by xarith.
  assert (Hrep3 : xreported s3 = xreported s2) by xarith.
  destruct Hset as (_ & Hstack & Hheap & Hset); [xarith|].
  pose proof (values_heap _ _ Hs03 ltac:(xarith)) as Hh3.
  split_and!; [by rewrite Hstack, (values_stack _ _ Hs03)|congruence|].
  intros p d o fs h references Hh Href Hp Ho Hfs Hfd.
  pose proof (values_heap _ _ Hs02 ltac:(xarith)) as Hh2.
  rewrite Hh2, (steps_symbols _ _ (values_steps _ _ Hs02)),
    (steps_definitions _ _ (values_steps _ _ Hs02)) in Hds.
  rewrite Hh3, (steps_symbols _ _ (values_steps _ _ Hs03)),
    (steps_definitions _ _ (values_steps _ _ Hs03)) in Hset.
  eapply field_ok; [by eapply prefix_lookup_Some|done..| | |].
  - by apply Hargs.
  - by apply Hds.
  - intros set' Hset'. by apply Hset.
Qed.

Lemma parse_field_spec selections s :
  xok s → (S (xextent s) - xat s < fuel)%nat →
  xsafe (parse_field nested selections) (selection_read s selections) s.
Proof.
  intros Hok Hf. unfold parse_field. repeat xstep.
  rename a into o, a0 into fs, p into q.
  destruct (find v fs) as [fd|] eqn:Efd; [|repeat xstep; rejected].
  xcall parse_defined_field_spec; [done..|]. intros r' s1 [Hs1 Hr]. split; [done|].
  intros Hrep. destruct (Hr Hrep) as (x & -> & Hst & Hh & Hx). exists x. split_and!; [done..|].
  intros top rest' h references Ht Hp Href.
  assert (top = Assigned (Some q)) as -> by congruence. by eapply Hx.
Qed.

(** The selections found since [s], in a state later on. *)
Definition selections_hold (s : GraphQlExecutor) (selections : list Selection)
    (s1 : GraphQlExecutor) : Prop :=
  ∀ top rest h references, current_object_types s = top :: rest →
    heap s `prefix_of` h → forward_fragment_references s1 `prefix_of` references →
    Forall (selection_ok (symbols s) (directive_definitions s) h references top) selections.

Definition selecting (s : GraphQlExecutor) (selections : list Selection) (s1 : GraphQlExecutor) :
    Prop :=
  steps s s1 ∧ (xreported s1 = xreported s →
    current_object_types s1 = current_object_types s ∧ heap s1 = heap s ∧
    selections_hold s selections s1).

Definition selections_done (s : GraphQlExecutor) (r : option (list Selection))
    (s' : GraphQlExecutor) : Prop :=
  steps s s' ∧ (xreported s' = xreported s → ∃ selections top rest,
    r = Some selections ∧ current_object_types s = top :: rest ∧
    current_object_types s' = rest ∧ heap s' = heap s ∧ selections_hold s selections s').

Lemma selecting_more s selections s1 p0 r s2 :
  selecting s selections s1 → xparses (parser s1) p0 → (xat s1 < cursor p0)%nat →
  selection_read (set_parser p0 s1) selections r s2 →
  match r with
  | inl a' => selecting s a' s2 ∧ xextent s2 = xextent s1 ∧ (xat s1 < xat s2 ≤ S (xextent s2))%nat
  | inr b => selections_done s b s2
  end.
Proof.
  intros [Hs1 Hsel] Hp0 Hlt [Hs2 Hr].
  assert (Hst : steps s s2).
  { etransitivity; [done|]. etransitivity; [by apply (steps_set_parser _ p0)|done]. }
  destruct r as [sels|b].
  - split_and!; [|xarith..]. split; [done|]. intros Hrep.
    destruct Hr as (x & [= ->] & Hstk & Hh & Hx); [xarith|].
    destruct Hsel as (Hstk1 & Hh1 & Hsel); [xarith|]. simpl in *.
    split_and!; [congruence..|]. intros top rest h references Ht Hp Href.
    apply Forall_app. split.
    + eapply Hsel; [done|done|]. etransitivity; [|done]. exact (steps_references _ _ Hs2).
    + constructor; [|constructor].
      rewrite (steps_symbols _ _ Hs1), (steps_definitions _ _ Hs1) in Hx.
      eapply (Hx top rest); congruence.
  - split; [done|]. intros Hrep. by destruct Hr as (x & ? & _); [xarith|].
Qed.

Lemma parse_selections_spec s :
  xok s → (S (xextent s) - xat s < S fuel)%nat →
  xsafe (parse_selections nested) (selections_done s) s.
Proof.
  intros Hok Hf. unfold parse_selections.
  apply (wp_executor_loop (λ selections s1, selecting s selections s1)).
  { split; [by apply steps_refl|]. intros _. split_and!; [done..|]. constructor. }
  intros selections s1 Hsel. pose proof (proj1 Hsel) as Hs1.
  assert (Hok1 : xok s1) by (by eapply steps_ok).
  xstep. xstep. xstep. xstep. rename p' into p0.
  destruct token; xtidy; try solve [repeat xstep; rejected].
  - eapply wp_mono; [eapply parse_field_spec; [xside|xarith]| |done].
    intros r s2 Hr. by eapply selecting_more.
  - (* a closing brace *)
    unfold pop_object_type. xstep. wp_step. wp_step. simpl.
    destruct (current_object_types s1) as [|top rest] eqn:Et; repeat xstep; [done|].
    split; [etransitivity; [done|]; etransitivity; [by apply (steps_set_parser _ p0)|];
            apply steps_push; xside|].
    intros Hrep. destruct Hsel as [_ Hsel].
    destruct Hsel as (Hstk & Hh & Hsel); [xarith|]. exists selections, top, rest.
    split_and!; [done|congruence|done|done|exact Hsel].
  - eapply wp_mono; [eapply parse_ellipses_spec; [xside|xarith]| |done].
    intros r s2 Hr. by eapply selecting_more.
  - (* the end of the document *)
    destruct selections; repeat xstep; rejected.
Qed.
End nested.

Lemma parse_selection_set_after_open_brace_spec fuel s :
  xok s → (S (xextent s) - xat s < fuel)%nat →
  xsafe (parse_selection_set_after_open_brace fuel) (set_read s) s.
Proof.
  revert s. induction fuel as [|fuel IH]; intros s Hok Hf; [lia|]. simpl. xstep. xstep.
  xcall parse_selections_spec; [exact IH|done|done|].
  intros [selections|] s1 [Hs1 Hsel]; repeat xstep.
  - split; [done|]. intros Hrep.
    destruct (Hsel Hrep) as (sels & top & rest & [= <-] & Ht & Hr & Hh & Hall).
    eexists _, top, rest. split_and!; [done..|]. intros h references Hp Href. constructor.
    by eapply Hall.
  - split; [done|]. intros Hrep. by destruct (Hsel Hrep) as (sels & top & rest & ? & _).
Qed.

Lemma parse_selection_set_after_open_brace__spec s :
  xok s → xsafe parse_selection_set_after_open_brace_ (set_read s) s.
Proof.
  intros Hok. unfold parse_selection_set_after_open_brace_. xstep. xstep.
  apply parse_selection_set_after_open_brace_spec; [done|].
  unfold executor_fuel, parse_fuel, scan_fuel. lia.
Qed.

Lemma parse_selection_set_spec s : xok s → xsafe Executor.parse_selection_set (set_read s) s.
Proof.
  intros Hok. unfold Executor.parse_selection_set.
  apply (parse_selection_set_with_spec (S (S (xextent s)))); [|done|lia].
  intros s1 Hok1 _. by apply parse_selection_set_after_open_brace__spec.
Qed.
