(* ===== verification/ExecutorDefinitions.v ===== *)
(** * Operations and fragments of a query

    [executable_ok] is what an executed query satisfies when no diagnostic is
    added: every operation selects from the root type of its kind, every
    fragment from its object type, fragments have names of their own, and every
    spread names a fragment that can be asked for where it is. *)
From S2P Require Import Prelude Monad Character Cstring Diagnostic StdMap Syntaxes.
From S2P Require Import TextWriter Scanner ScannerSpec Parser ParserSpec Schema ValueSafety.
From S2P Require Import Executor ExecutorRules ExecutorValues ExecutorSelections.

Section executable_ok.
Context (s : GraphQlExecutor) (h : list Node) (references : list (Name * root)).

(** The root type of an operation. *)
Definition root_of (o : OperationType) : root :=
  match o with
  | Query => query s
  | Mutation => mutation s
  | Subscription => subscription s
  end.

Definition operation_ok (d : OperationDefinition) : Prop :=
  directives_fit (symbols s) h (directive_definitions s) (operation_location (operation_type d))
    (operation_directives d) ∧
  ∃ set_, operation_selection_set d = Some set_ ∧
    set_ok (symbols s) (directive_definitions s) h references (root_of (operation_type d)) set_.

(** The declaration of an object type. *)
Definition object_named (n : ustring) (p : ptr) (object : Declaration) : Prop :=
  ∃ symbol, find n (symbols s) = Some symbol ∧ declaration symbol = p ∧
    h !! p = Some (NDecl object) ∧ kind (decl_syntax object) = S_Object.

Definition fragment_ok (d : FragmentDefinition) : Prop :=
  directives_fit (symbols s) h (directive_definitions s) DirectiveLocation.FRAGMENT_DEFINITION
    (fragment_directives d) ∧
  ∃ n p object set_, fragment_type d = Some n ∧ object_named (identifier n) p object ∧
    fragment_selection_set d = Some set_ ∧
    set_ok (symbols s) (directive_definitions s) h references (Assigned (Some p)) set_.

(** A spread of a name in the selections of a type. *)
Definition reference_ok (definitions : list FragmentDefinition) (r : Name * root) : Prop :=
  ∃ d n symbol object p current, named_fragment (fst r) definitions = Some d ∧
    fragment_type d = Some n ∧ find (identifier n) (symbols s) = Some symbol ∧
    h !! declaration symbol = Some (NDecl object) ∧
    snd r = Assigned (Some p) ∧ h !! p = Some (NDecl current) ∧ condition_ok object current.
End executable_ok.

Definition fragment_identifier (d : FragmentDefinition) : ustring := identifier (fragment_name d).

Record executable_ok (s : GraphQlExecutor) (h : list Node) (references : list (Name * root))
    (x : ExecutableDefinition) : Prop := {
  executable_operations : Forall (operation_ok s h references) (operation_definitions x);
  executable_fragments : Forall (fragment_ok s h references) (fragment_definitions x);
  executable_names : NoDup (map fragment_identifier (fragment_definitions x));
  executable_references : Forall (reference_ok s h (fragment_definitions x)) references
}.

(** ** Variables *)

Lemma parse_type_spec s :
  xok s →
  xsafe parse_type (λ _ s', steps s s' ∧ current_object_types s' = current_object_types s ∧
    forward_fragment_references s' = forward_fragment_references s ∧
    heap s `prefix_of` heap s') s.
Proof.
  intros Hok. unfold parse_type. repeat xstep.
  - unfold alloc. repeat xstep. simpl. split_and!; [|done|done|by apply prefix_app_r].
    transitivity (set_parser p'3 s); [apply steps_set_parser; xparses_chain|].
    apply steps_set_heap; [xside|]. apply heap_like_extends. by apply prefix_app_r.
  - unfold alloc. repeat xstep. simpl. split_and!; [|done|done|by apply prefix_app_r].
    transitivity (set_parser p'1 s); [apply steps_set_parser; xparses_chain|].
    apply steps_set_heap; [xside|]. apply heap_like_extends. by apply prefix_app_r.
Qed.

(** The variables of an operation: they neither select nor refer, and what they
    allocate is after the memory of the schema. *)
Definition variables_read (s s' : GraphQlExecutor) : Prop :=
  steps s s' ∧ current_object_types s' = current_object_types s ∧
  forward_fragment_references s' = forward_fragment_references s ∧
  (xreported s' = xreported s → heap s `prefix_of` heap s').

Lemma variables_refl s : xok s → variables_read s s.
Proof. intros Hok. split_and!; [by apply steps_refl|done..]. Qed.

#[export] Instance variables_transitive : Transitive variables_read.
Proof.
  intros s1 s2 s3 (H12 & ? & ? & Hh12) (H23 & ? & ? & Hh23).
  split_and!; [by etransitivity|congruence..|]. intros Hrep.
  transitivity (heap s2); [apply Hh12|apply Hh23]; xarith.
Qed.

Lemma variables_set_parser s p : xparses (parser s) p → variables_read s (set_parser p s).
Proof. intros Hp. split_and!; [by apply steps_set_parser|done..]. Qed.

Lemma variables_values s s' : reads_values s s' → variables_read s s'.
Proof.
  intros [Hs Ht Hr Hh]. split_and!; [done..|]. intros Hrep. by rewrite Hh.
Qed.

Lemma default_value_spec (equal : bool) p s :
  xok s →
  xsafe (if equal then Executor.parse_value_ (Some p) else mret None)
    (λ _ s', variables_read s s') s.
Proof.
  intros Hok. destruct equal; [|wp_step; by apply variables_refl].
  xcall parse_value__spec; [done|]. intros v s' (Hs & _). by apply variables_values.
Qed.

Lemma parse_variable_definitions_spec s :
  xok s → xsafe parse_variable_definitions (λ _ s', variables_read s s') s.
Proof.
  intros Hok. unfold parse_variable_definitions. xstep. xstep. xstep.
  xjoin (λ (_ : list VariableDefinition) s', variables_read s s').
  2: { intros ds s' Hs'. assert (xok s') by (by eapply steps_ok, Hs'). by repeat xstep. }
  apply (wp_executor_loop (λ _ s1, variables_read s s1)); [by apply variables_refl|].
  intros ds s1 Hs1. assert (Hok1 : xok s1) by (by eapply steps_ok, Hs1).
  do 4 xstep. rename p' into p0.
  assert (Hp0 : variables_read s (set_parser p0 s1))
    by (transitivity s1; [done|by apply variables_set_parser]).
  xstep; [by wp_step|]. do 6 xstep. rename p' into p1.
  assert (Hp1 : xparses (parser s1) p1) by xparses_chain.
  xstep. xcall parse_type_spec; [xside|]. intros type_ s2 (Hs2 & Ht2 & Hr2 & Hh2).
  assert (Hv2 : variables_read s1 s2).
  { transitivity (set_parser p1 s1); [by apply variables_set_parser|]. by split_and!. }
  assert (Hok2 : xok s2) by (by eapply steps_ok). xstep. xstep. rename p' into p2.
  xstep. xcall default_value_spec; [xside|]. intros value s3 Hs3.
  assert (Hv3 : variables_read s1 s3).
  { transitivity s2; [done|]. transitivity (set_parser p2 s2); [by apply variables_set_parser|done]. }
  assert (Hok3 : xok s3) by (by eapply steps_ok, Hv3). xstep. xstep. rename p' into p3.
  assert (Hv4 : variables_read s (set_parser p3 s3)).
  { transitivity s1; [done|]. transitivity s3; [done|]. by apply variables_set_parser. }
  xstep; wp_step; [done|]. destruct Hv3 as [Hv3 _]. split; [done|xarith].
Qed.

Lemma parse_operation_name_spec s :
  xok s → xsafe parse_operation_name (λ _ s', variables_read s s') s.
Proof.
  intros Hok. unfold parse_operation_name. xstep. xstep. rename p' into p0.
  xstep; [wp_step; by apply variables_set_parser|]. do 6 xstep. rename p' into p1.
  assert (Hp1 : variables_read s (set_parser p1 s)) by (apply variables_set_parser; xparses_chain).
  xstep; [by wp_step|]. xstep. xcall parse_variable_definitions_spec; [xside|].
  intros variables s2 Hs2. assert (Hv2 : variables_read s s2) by (by etransitivity).
  assert (Hok2 : xok s2) by (by eapply steps_ok, Hv2). repeat xstep.
  transitivity s2; [done|]. by apply variables_set_parser.
Qed.

(** ** Operations *)

(** A part of the document, in the environment of the state. *)
Definition part_ok (s : GraphQlExecutor) (h : list Node) (references : list (Name * root))
    (part : ExecutablePart) : Prop :=
  match part with
  | OperationPart d => operation_ok s h references d
  | FragmentPart d => fragment_ok s h references d
  end.

(** The name of a fragment is registered when it is parsed. *)
Definition part_new (s : GraphQlExecutor) (part : ExecutablePart) (s' : GraphQlExecutor) : Prop :=
  match part with
  | OperationPart _ => True
  | FragmentPart d => contains (fragment_identifier d) (fragments s) = false ∧
      contains (fragment_identifier d) (fragments s') = true
  end.

Definition part_accepted (s : GraphQlExecutor) (r : option ExecutablePart) (s' : GraphQlExecutor) :
    Prop :=
  heap s `prefix_of` heap s' ∧ ∃ part, r = Some part ∧ part_new s part s' ∧
    ∀ h references, heap s' `prefix_of` h → forward_fragment_references s' `prefix_of` references →
      part_ok s h references part.

Definition part_read (s : GraphQlExecutor) (r : option ExecutablePart) (s' : GraphQlExecutor) :
    Prop :=
  steps s s' ∧ (xreported s' = xreported s → part_accepted s r s').

(** The environment does not change. *)
Lemma root_of_steps s s' o : steps s s' → root_of s' o = root_of s o.
Proof. intros [_ _ _ _ (? & ? & ?) _ _ _]. by destruct o. Qed.

Lemma part_ok_steps s s' h references part :
  steps s s' → part_ok s' h references part → part_ok s h references part.
Proof.
  intros Hs. pose proof (root_of_steps _ _ Query Hs) as Hq.
  pose proof (root_of_steps _ _ Mutation Hs) as Hm.
  pose proof (root_of_steps _ _ Subscription Hs) as Hb. destruct Hs as [_ _ Hsym Hdef _ _ _ _].
  destruct part as [d|d]; simpl; unfold operation_ok, fragment_ok, object_named;
    rewrite Hsym, Hdef; [|done].
  by destruct (operation_type d); rewrite ?Hq, ?Hm, ?Hb.
Qed.

Section operations.
Context (parse_set : M GraphQlExecutor (option SelectionSet)).
Context (Hset : ∀ s, xok s → xsafe parse_set (set_read s) s).

(** The directives were parsed before. *)
Lemma parse_operation_definition_body_spec definition rest s :
  xok s → current_object_types s = root_of s (operation_type definition) :: rest →
  (∀ h, heap s `prefix_of` h → directives_fit (symbols s) h (directive_definitions s)
    (operation_location (operation_type definition)) (operation_directives definition)) →
  xsafe (parse_operation_definition_body definition parse_set) (part_read s) s.
Proof.
  intros Hok Ht Hds. unfold parse_operation_definition_body.
  xcall Hset; [done|]. intros [set_|] s1 [Hs1 Hr]; wp_step; (split; [done|intros Hrep]).
  - destruct (Hr Hrep) as (set' & top & rest' & [= <-] & Ht' & _ & Hh & Hok').
    assert (top = root_of s (operation_type definition)) as -> by congruence.
    split; [by rewrite Hh|]. eexists. split; [done|]. split; [done|].
    intros h references Hh' Href. rewrite Hh in Hh'. split; simpl; [by apply Hds|].
    exists set_. split; [done|]. by apply Hok'.
  - by destruct (Hr Hrep) as (set' & top & rest' & ? & _).
Qed.
End operations.

(** Over the state an operation started in. *)
Lemma part_read_after s s1 r s' :
  steps s s1 → (xreported s1 = xreported s → heap s `prefix_of` heap s1) →
  part_read s1 r s' → part_read s r s'.
Proof.
  intros Hs1 Hh1 [Hs' Hr]. split; [by etransitivity|]. intros Hrep.
  assert (Hrep1 : xreported s1 = xreported s) by xarith.
  destruct Hr as (Hh & part & -> & Hnew & Hok); [xarith|].
  split; [transitivity (heap s1); [by apply Hh1|done]|]. exists part. split; [done|]. split.
  - destruct part as [|d]; [done|]. destruct Hnew as [Hnew ?]. split; [|done].
    destruct (contains _ (fragments s)) eqn:E; [|done].
    apply (steps_fragments _ _ Hs1) in E. congruence.
  - intros h references Hh' Href. eapply part_ok_steps; [exact Hs1|]. by apply Hok.
Qed.

Lemma parse_operation_definition_spec operation rest s :
  xok s → current_object_types s = root_of s operation :: rest →
  xsafe (parse_operation_definition operation) (part_read s) s.
Proof.
  intros Hok Ht. unfold parse_operation_definition. xstep. xstep.
  xcall parse_operation_name_spec; [done|]. intros named s1 Hs1.
  assert (Hok1 : xok s1) by (by eapply steps_ok, Hs1).
  xcall parse_directives__spec; [done|]. intros ds s2 [Hs2 Hds].
  assert (Hv2 : variables_read s s2) by (transitivity s1; [done|by apply variables_values]).
  assert (Hok2 : xok s2) by (by eapply steps_ok, Hv2).
  pose proof (steps_arith _ _ (proj1 Hv2)) as Ha.
  destruct (decide (xreported s2 = xreported s)) as [Hrep|Hne].
  - assert (Hrep2 : xreported s2 = xreported s1) by (destruct Hs1; xarith).
    eapply wp_mono; [apply (parse_operation_definition_body_spec _ parse_selection_set_spec _ rest);
      [done|simpl..]| |done].
    + rewrite (root_of_steps _ _ _ (proj1 Hv2)). by destruct Hv2 as (_ & -> & _).
    + rewrite (values_heap _ _ Hs2 Hrep2), (steps_symbols _ _ (values_steps _ _ Hs2)),
        (steps_definitions _ _ (values_steps _ _ Hs2)). by apply Hds.
    + intros r s3 Hr. destruct Hv2 as (? & _ & _ & ?). by eapply part_read_after.
  - unfold parse_operation_definition_body.
    xcall parse_selection_set_spec; [done|]. intros [set_|] s3 [Hs3 _]; wp_step;
      (split; [transitivity s2; [apply Hv2|done]|intros ?; exfalso; xarith]).
Qed.

(** ** Fragments *)

Definition fragment_registered (fragment : FragmentDefinition) (s s' : GraphQlExecutor) : Prop :=
  variables_read s s' ∧ contains (fragment_identifier fragment) (fragments s') = true ∧
  (xreported s' = xreported s → contains (fragment_identifier fragment) (fragments s) = false).

Lemma register_fragment_spec fragment s :
  xok s → xsafe (register_fragment fragment) (λ _ s', fragment_registered fragment s s') s.
Proof.
  intros Hok. unfold register_fragment. cbv zeta. do 2 xstep.
  destruct (find _ (fragments s)) as [first|] eqn:Ef.
  - assert (Hreg : contains (fragment_identifier fragment) (fragments s) = true)
      by (unfold contains, fragment_identifier; by rewrite Ef).
    repeat xstep; (split; [apply variables_set_parser; xparses_chain|]);
      (split; [done|intros; exfalso; xarith]).
  - wp_step. split; [split_and!; try done|split].
    + split; try done; [by apply parses_refl|]. intros n Hn. simpl.
      rewrite contains_emplace. by rewrite Hn, orb_true_r.
    + simpl. by rewrite contains_emplace, bool_decide_true.
    + intros _. unfold contains, fragment_identifier. by rewrite Ef.
Qed.

(** The selections of a fragment on [object]: accepted if it is an object. *)
Definition fragment_accepted (fragment : FragmentDefinition) (object : Declaration)
    (s : GraphQlExecutor) (r : option ExecutablePart) (s' : GraphQlExecutor) : Prop :=
  heap s' = heap s ∧ ∃ d, r = Some (FragmentPart d) ∧ fragment_name d = fragment_name fragment ∧
    ∀ h references, heap s `prefix_of` h →
      forward_fragment_references s' `prefix_of` references →
      kind (decl_syntax object) = S_Object → fragment_ok s h references d.

Lemma parse_fragment_selections_spec fragment name symbol object s :
  xok s → find name (symbols s) = Some symbol →
  heap s !! declaration symbol = Some (NDecl object) →
  xsafe (parse_fragment_selections fragment name (declaration symbol))
    (λ r s', steps s s' ∧
      (xreported s' = xreported s → fragment_accepted fragment object s r s')) s.
Proof.
  intros Hok Hsym Hdecl. unfold parse_fragment_selections, push_object_type. do 4 xstep.
  set (s1 := set_current_object_types _ s).
  assert (Hs1 : steps s s1) by (by apply steps_push).
  xcall parse_directives__spec; [xside|]. intros ds s2 [Hs2 Hds].
  assert (Hok2 : xok s2) by (by eapply steps_ok, values_steps).
  xcall parse_selection_set_spec; [done|]. intros set_ s3 [Hs3 Hset].
  assert (Hs13 : steps s s3) by (transitivity s1; [done|]; transitivity s2; [apply Hs2|done]).
  assert (Hok3 : xok s3) by (by eapply steps_ok).
  destruct set_ as [set_|]; repeat xstep.
  - split; [done|]. intros Hrep.
    assert (Hrep2 : xreported s2 = xreported s1) by (subst s1; xarith).
    destruct Hset as (set' & top & rest & [= <-] & Ht & _ & Hh & Hok'); [subst s1; xarith|].
    pose proof (values_heap _ _ Hs2 Hrep2) as Hh2. rewrite (values_stack _ _ Hs2) in Ht.
    simpl in Ht, Hh2. simplify_eq. split; [congruence|].
    eexists. split; [done|]. split; [done|]. intros h references Hp Href Hk. split; [by apply Hds|].
    do 4 eexists. split_and!; [done|exists symbol|done|].
    + split_and!; [congruence|done| |done]. by eapply prefix_lookup_Some.
    + rewrite (steps_symbols _ _ (values_steps _ _ Hs2)),
        (steps_definitions _ _ (values_steps _ _ Hs2)) in Hok'. apply Hok'; [congruence|done].
  - split; [steps_chain|]. intros Hrep.
    by destruct Hset as (set' & top & rest & ? & _); [subst s1; xarith|].
Qed.

Lemma parse_fragment_type_spec fragment s :
  xok s → contains (fragment_identifier fragment) (fragments s) = true →
  xsafe (parse_fragment_type fragment)
    (λ r s', steps s s' ∧ (xreported s' = xreported s → heap s' = heap s ∧
      contains (fragment_identifier fragment) (fragments s') = true ∧
      ∃ d, r = Some (FragmentPart d) ∧ fragment_name d = fragment_name fragment ∧
        ∀ h references, heap s `prefix_of` h →
          forward_fragment_references s' `prefix_of` references → fragment_ok s h references d)) s.
Proof.
  intros Hok Hreg. unfold parse_fragment_type. xstep. xstep. rename p' into p0.
  xstep; [wp_step; rejected|]. do 4 xstep.
  destruct (find v (symbols _)) as [symbol|] eqn:Ef; [|repeat xstep; rejected].
  xstep. xstep. rename d into object. xstep.
  xjoin (λ (_ : unit) s', ∃ p, s' = set_parser p s ∧ xparses p0 p ∧
    (reported p = reported p0 → kind (decl_syntax object) = S_Object)).
  { xstep.
    - xstep. eexists. split; [done|]. split; [xparses_chain|]. intros; exfalso; xarith.
    - exists p0. split; [done|]. split; [by apply parses_refl; xside|].
      intros _. match goal with H : bool_decide _ = false |- _ =>
        by apply bool_decide_eq_false, dec_stable in H end. }
  intros _ ? (p & -> & Hp & Hk). assert (Hp0 : xparses (parser s) p) by xparses_chain.
  xcall (parse_fragment_selections_spec fragment v symbol object); [xside|done|done|].
  intros r s2 [Hs2 Hr]. split; [transitivity (set_parser p s); [by apply steps_set_parser|done]|].
  intros Hrep. destruct Hr as (Hh & d & -> & Hn & Hd); [xarith|]. split; [done|].
  split; [by apply (steps_fragments _ _ Hs2)|]. exists d. split; [done|]. split; [done|].
  intros h references Hh' Href. apply Hd; [done|done|]. apply Hk. xarith.
Qed.

Lemma parse_fragment_definition_spec s :
  xok s → xsafe parse_fragment_definition_after_fragment_keyword (part_read s) s.
Proof.
  intros Hok. unfold parse_fragment_definition_after_fragment_keyword. cbv zeta.
  do 4 xstep. rename p' into p0. xstep; [wp_step; rejected|]. do 5 xstep.
  set (fragment := mkFragmentDefinition _ _ _ _ _).
  xcall (register_fragment_spec fragment); [xside|]. intros _ s1 (Hs1 & Hreg & Hnew).
  assert (Hv1 : variables_read s s1)
    by (transitivity (set_parser p0 s); [by apply variables_set_parser|done]).
  assert (Hok1 : xok s1) by (by eapply steps_ok, Hv1). xstep. xstep. rename p' into p1.
  assert (Hv2 : variables_read s (set_parser p1 s1))
    by (transitivity s1; [done|by apply variables_set_parser]).
  pose proof (proj1 Hv1) as Hst1.
  xstep; [wp_step; split; [apply Hv2|intros; exfalso; xarith]|].
  xcall (parse_fragment_type_spec fragment); [xside|done|]. intros r s2 [Hs2 Hr].
  split; [transitivity (set_parser p1 s1); [apply Hv2|done]|]. intros Hrep.
  destruct Hr as (Hh & Hreg' & d & -> & Hn & Hd); [xarith|].
  assert (Hrep1 : xreported s1 = xreported s) by xarith. destruct Hs1 as (Hsf & _ & _ & Hh1).
  unfold fragment_identifier in *. simpl in Hh. specialize (Hh1 ltac:(xarith)).
  split; [by rewrite Hh|]. eexists. split; [done|]. split.
  - simpl. unfold fragment_identifier. rewrite Hn. split; [|done]. apply Hnew. xarith.
  - intros h references Hh' Href. apply (part_ok_steps _ _ _ _ (FragmentPart d) (proj1 Hv2)).
    apply Hd; [simpl; congruence|done].
Qed.

(** ** The parts of a document *)

Lemma part_read_pushed v s r s' :
  xok s → part_read (set_current_object_types v s) r s' → part_read s r s'.
Proof. intros Hok. apply part_read_after; [by apply steps_push|done]. Qed.

Lemma parse_optional_operation_spec operation unsupported s :
  xok s → xsafe (parse_optional_operation (root_of s operation) unsupported operation) (part_read s) s.
Proof.
  intros Hok. unfold parse_optional_operation. xstep.
  destruct (root_of s operation) as [|p] eqn:Hr; simpl; xstep; [done|].
  destruct p as [p|]; [|repeat xstep; rejected].
  unfold push_object_type. xstep. xstep.
  xcall parse_operation_definition_spec; [done|by rewrite <- Hr|].
  intros r s' Hr'. by eapply part_read_pushed.
Qed.

Lemma parse_anonymous_query_spec s :
  xok s →
  xsafe (push_object_type (query s);;
      syntax ← ⟨CreateSyntax S_OperationDefinition⟩;
      parse_operation_definition_body (mkOperationDefinition syntax Query None None None [])
        parse_selection_set_after_open_brace_) (part_read s) s.
Proof.
  intros Hok. unfold push_object_type. do 4 xstep.
  xcall parse_operation_definition_body_spec; [apply parse_selection_set_after_open_brace__spec|
    done|done|by constructor|].
  intros r s' Hr'. by eapply part_read_pushed.
Qed.

Lemma parse_part_spec token s :
  xok s → xsafe (Executor.parse_primary_token token) (part_read s) s.
Proof.
  intros Hok. unfold Executor.parse_primary_token. xstep. xstep.
  destruct token; try solve [repeat xstep; rejected].
  all: first
    [ by apply parse_anonymous_query_spec
    | by apply parse_fragment_definition_spec
    | by apply (parse_optional_operation_spec Mutation)
    | by apply (parse_optional_operation_spec Subscription)
    | idtac ].
  unfold push_object_type. xstep. xstep.
  xcall (parse_operation_definition_spec Query); [done|done|].
  intros r s' Hr'. by eapply part_read_pushed.
Qed.

(** ** The references *)

Lemma check_references_spec definitions s :
  xok s →
  xsafe (check_forward_fragment_references definitions)
    (λ _ s', checks (Forall (reference_ok s (heap s) definitions)
      (forward_fragment_references s)) s s') s.
Proof.
  intros Hok. unfold check_forward_fragment_references. xstep. xstep.
  apply x_check_each; [done|]. intros [name top] p1 _ Hp1.
  destruct (named_fragment name definitions) as [d|] eqn:Hd.
  - repeat xstep. simpl in *.
    apply x_check_fragment; [xside|]. intros p2 Hp2 Hc. xnormal. exists p2.
    split_and!; [done..|]. intros Hrep. simpl in Hrep. do 6 eexists. split_and!; try done. by apply Hc.
  - repeat xstep. apply (checks_reported _ (set_parser p1 s)); [xparses_chain|xarith].
Qed.

(** ** The document *)

(** What was found of the document since [s]. *)
Definition document_accepted (s : GraphQlExecutor) (operations : list OperationDefinition)
    (fragments_ : list FragmentDefinition) (s' : GraphQlExecutor) : Prop :=
  heap s `prefix_of` heap s' ∧ NoDup (map fragment_identifier fragments_) ∧
  Forall (λ d, contains (fragment_identifier d) (fragments s') = true) fragments_ ∧
  ∀ h references, heap s' `prefix_of` h → forward_fragment_references s' `prefix_of` references →
    Forall (operation_ok s h references) operations ∧
    Forall (fragment_ok s h references) fragments_.

Definition document_read (s : GraphQlExecutor) (operations : list OperationDefinition)
    (fragments_ : list FragmentDefinition) (s' : GraphQlExecutor) : Prop :=
  steps s s' ∧ (xreported s' = xreported s → document_accepted s operations fragments_ s').

Lemma document_moved s operations fragments_ s1 p :
  document_read s operations fragments_ s1 → xparses (parser s1) p →
  document_read s operations fragments_ (set_parser p s1).
Proof.
  intros [Hs1 Hd] Hp. split; [transitivity s1; [done|by apply steps_set_parser]|].
  intros Hrep. apply Hd. xarith.
Qed.

(** One more part. *)
Definition with_part (part : ExecutablePart)
    (d : list OperationDefinition * list FragmentDefinition) :
    list OperationDefinition * list FragmentDefinition :=
  match part with
  | OperationPart o => (fst d ++ [o], snd d)
  | FragmentPart f => (fst d, snd d ++ [f])
  end.

Lemma document_more s operations fragments_ s1 r s2 :
  document_read s operations fragments_ s1 → part_read s1 r s2 →
  document_read s (fst (from_option (λ part, with_part part (operations, fragments_)) (operations, fragments_) r))
    (snd (from_option (λ part, with_part part (operations, fragments_)) (operations, fragments_) r)) s2.
Proof.
  intros [Hs1 Hd] [Hs2 Hr]. split; [by etransitivity|]. intros Hrep.
  destruct Hd as (Hh1 & Hnd & Hreg & Hok); [xarith|].
  destruct Hr as (Hh2 & part & -> & Hnew & Hpart); [xarith|]. simpl.
  assert (Hreg2 : Forall (λ d, contains (fragment_identifier d) (fragments s2) = true) fragments_).
  { eapply list.Forall_impl; [exact Hreg|]. intros d. apply (steps_fragments _ _ Hs2). }
  split; [by etransitivity|]. split_and!.
  - destruct part as [o|f]; simpl; [done|]. rewrite map_app. apply list.NoDup_app.
    split_and!; [done| |apply NoDup_singleton]. intros n Hn Hf%list_elem_of_singleton. subst n.
    apply list_elem_of_fmap in Hn as (d & Hn & Hd). destruct Hnew as [Hnew _].
    eapply list.Forall_forall in Hreg; [|exact Hd]. cbv beta in Hreg. congruence.
  - destruct part as [o|f]; simpl; [done|]. apply Forall_app. split; [done|].
    destruct Hnew as [_ Hnew]. by constructor.
  - intros h references Hh Href.
    destruct (Hok h references) as [Hops Hfrs]; [by etransitivity| |].
    { transitivity (forward_fragment_references s2); [apply (steps_references _ _ Hs2)|done]. }
    pose proof (part_ok_steps _ _ _ _ _ Hs1 (Hpart h references Hh Href)) as Hp.
    destruct part as [o|f]; simpl; (split; [|try done]); try done;
      apply Forall_app; (split; [done|by constructor]).
Qed.

(** What is left of the document: nothing once its end was taken. *)
Definition remaining (token : GraphQlToken.t) (s : GraphQlExecutor) : nat :=
  if decide (token = GraphQlToken.EndOfDocument) then 0 else S (S (xextent s) - xat s).

Lemma execute_body_spec s token operations fragments_ s1 :
  document_read s operations fragments_ s1 →
  xsafe (execute_body (token, operations, fragments_)) (λ r s2,
    match r with
    | inl (token', operations', fragments') =>
        document_read s operations' fragments' s2 ∧ (remaining token' s2 < remaining token s1)%nat
    | inr (operations', fragments') => document_read s operations' fragments' s2
    end) s1.
Proof.
  intros Hd. assert (Hok1 : xok s1) by (by eapply steps_ok; destruct Hd).
  unfold execute_body. xstep; [by wp_step|].
  xcall parse_part_spec; [done|]. intros r s2 Hr.
  assert (Hok2 : xok s2) by (by eapply steps_ok; destruct Hr). repeat xstep.
  rename p' into p, token0 into token'.
  pose proof (document_moved _ _ _ _ p (document_more _ _ _ _ _ _ Hd Hr) ltac:(done)) as Hd'.
  assert (Hlt : (remaining token' (set_parser p s2) < remaining token s1)%nat).
  { destruct Hr as [Hs2 _]. unfold remaining. rewrite (decide_False (P := token = _)) by done.
    destruct (decide (token' = _)) as [|Hne]; [lia|]. specialize (H0 Hne). xarith. }
  by destruct r as [[]|].
Qed.

(** An executor as it starts on a query. *)
Definition on_query (query_ : ustring) (s : GraphQlExecutor) : GraphQlExecutor :=
  set_parser (set_scanner (new_GraphQlScanner query_) (parser s)) s.

Lemma on_query_ok query_ s : xok (on_query query_ s).
Proof. split; simpl; [by split; simpl; lia|done|done|by apply list.Forall_true]. Qed.

Lemma on_query_defined query_ s :
  list.last query_ ≠ Some Character.CarriageReturn →
  parser_ok False (λ _, True) (parser (on_query query_ s)).
Proof.
  intros Hcr. split; simpl; [by split; simpl; lia|done| |by apply list.Forall_true].
  intros Hend. apply ends_with_cr_source in Hend as [pre ->]. by rewrite last_snoc in Hcr.
Qed.

(** Executing a query ends, and without a new diagnostic the query is well formed. *)
Lemma Execute_spec query_ s :
  xsafe (Execute query_) (λ x s', steps (on_query query_ s) s' ∧
    (xreported s' = xreported s →
      executable_ok s (heap s') (forward_fragment_references s') x ∧
      executable_diagnostics x = diagnostics (parser s) ∧ heap s `prefix_of` heap s')) s.
Proof.
  pose proof (on_query_ok query_ s) as Hok. unfold Execute. xstep. wp_step. wp_step.
  change (put_sub _ _) with (on_query query_ s). set (s0 := on_query query_ s) in *.
  do 6 xstep. rename p' into p0. xstep.
  xjoin (λ (d : list OperationDefinition * list FragmentDefinition) s',
    document_read s0 (fst d) (snd d) s').
  { apply (wp_loop _ (λ '(_, operations, fragments_) s1, document_read s0 operations fragments_ s1)
      (λ '(token, _, _) s1, remaining token s1)).
    - split; [by apply steps_set_parser|]. intros _. split_and!; simpl; try done; by constructor.
    - unfold remaining, executor_fuel, parse_fuel, scan_fuel. destruct (decide _) as [|Hne]; [lia|].
      specialize (H0 Hne). xarith.
    - intros [[token' operations] fragments_] s1 Hd.
      eapply wp_mono; [by apply execute_body_spec| |done].
      intros [[[token'' operations'] fragments']|[operations' fragments']] s2; [tauto|done]. }
  intros [operations fragments_] s1 Hd. simpl in Hd.
  assert (Hok1 : xok s1) by (by eapply steps_ok; destruct Hd).
  xcall check_references_spec; [done|]. intros _ ? (p & -> & Hp & Hrefs). repeat xstep.
  assert (Hst : steps s0 (set_parser p s1)).
  { transitivity s1; [apply Hd|by apply steps_set_parser]. }
  split; [done|]. intros Hrep. destruct Hd as [Hs1 Hd]. simpl in Hrep.
  destruct Hd as (Hh & Hnd & _ & Hall); [subst s0; xarith|].
  destruct (Hall (heap s1) (forward_fragment_references s1)) as [Hops Hfrs]; [done..|].
  split_and!; [|symmetry|exact Hh].
  - split; simpl; [exact Hops|exact Hfrs|exact Hnd|].
    unfold reference_ok in *. rewrite (steps_symbols _ _ Hs1) in Hrefs. apply Hrefs. xarith.
  - apply prefix_length_eq; [apply (parses_diagnostics _ _ _ _ (steps_parser _ _ Hst))|simpl; lia].
Qed.
