(* ===== verification/ExecutorProperties.v ===== *)
(** * Properties of the executor

    A query is parsed and checked in one pass.  The theorems are about any
    schema memory and any query text; the schemas of the witnesses are those the
    constructor of [GraphQlSchema] leaves. *)
From S2P Require Import Prelude Monad Character Cstring Diagnostic StdMap Syntaxes.
From S2P Require Import TextWriter Scanner ScannerSpec Parser ParserSpec Schema SchemaChecks ValueSafety.
From S2P Require Import Executor ExecutorRules ExecutorValues ExecutorSelections ExecutorDefinitions.

#[local] Arguments u : simpl never.

(** An executor with the schema of a source that is constructed without an
    exception. *)
Definition executor_on (source_ : ustring) : GraphQlExecutor :=
  match construct_GraphQlSchema source_ with
  | Ok _ schema =>
      match add_schema schema new_GraphQlExecutor with
      | Ok _ s => s
      | _ => new_GraphQlExecutor
      end
  | _ => new_GraphQlExecutor
  end.

(** The schema and the query of the witnesses. *)
Definition example_schema : ustring :=
  u "interface N { id: ID } type A implements N { id: ID } type Query { n: N a(x: [Int]!): A }".
Definition example_query : ustring :=
  u "query q { n { ...f } a(x: [1 2]) { id } } fragment f on A { id }".

(** The result of executing a query, for the queries that are executed. *)
Definition executed (query_ : ustring) (s : GraphQlExecutor) : GraphQlExecutor :=
  match Execute query_ s with Ok _ s' => s' | _ => s end.

(** ** Queries *)

(** C8: executing any query on any schema ends: the loops and the recursion are
    within the fuel, whatever the nesting of the selections, values and
    directives.  The exceptions are those of the scanner and of [get_type_name]. *)
Theorem execute_terminates query_ s :
  (∃ x s', Execute query_ s = Ok x s') ∨
  (∃ e s', Execute query_ s = Throw e s' ∧ exec_exn e) ∨
  Execute query_ s = Undefined.
Proof.
  destruct (wp_ends _ _ _ _ _ (Execute_spec query_ s)) as [(x & s' & Hrun & _)|[|]]; eauto.
Qed.

(** C7: when a query is executed without a new diagnostic, every operation
    selects from the root type of its kind and every fragment from an object type
    of the schema; each selected field is one of its type, with arguments that are
    defined, have values that fit their types and, in parentheses, are complete;
    directives are defined and allowed where they are; inline fragments and
    spreads are on objects that can occur where they are; no two fragments have
    the same name. *)
Theorem execute_accepts query_ s x s' :
  Execute query_ s = Ok x s' →
  length (diagnostics (parser s')) = length (diagnostics (parser s)) →
  executable_ok s (heap s') (forward_fragment_references s') x ∧
  executable_diagnostics x = diagnostics (parser s) ∧ heap s `prefix_of` heap s'.
Proof. intros Hrun. by apply (wp_ok _ _ _ _ _ _ _ (Execute_spec query_ s) Hrun). Qed.

Lemma execute_accepts_witness :
  let s := executor_on example_schema in
  ∃ x s', Execute example_query s = Ok x s' ∧
    length (diagnostics (parser s')) = length (diagnostics (parser s)) ∧
    length (operation_definitions x) = 1%nat ∧ length (fragment_definitions x) = 1%nat ∧
    length (forward_fragment_references s') = 1%nat ∧
    executable_ok s (heap s') (forward_fragment_references s') x.
Proof.
  intros s. destruct (Execute example_query s) as [x s'| | |] eqn:Hrun;
    [|vm_compute in Hrun; discriminate..].
  exists x, s'. split; [done|].
  assert (Hrep : length (diagnostics (parser s')) = length (diagnostics (parser s)) ∧
    length (operation_definitions x) = 1%nat ∧ length (fragment_definitions x) = 1%nat ∧
    length (forward_fragment_references s') = 1%nat).
  { vm_compute in Hrun. injection Hrun as <- <-. by vm_compute. }
  destruct Hrep as (Hrep & H1 & H2 & H3). split_and!; [done..|].
  by apply (execute_accepts example_query s x s' Hrun).
Defined.

(** A query with a defect has diagnostics. *)
Example execute_rejects :
  map (λ query_, length (diagnostics (parser (executed query_ (executor_on example_schema)))))
    [u "{ id }"; u "{ a(x: [true]) { id } }"; u "{ n { ...g } }"; u "{ a(x: 1) { id } }";
     u "{ a() { id } }"; u "{ n { ... on Query { n { id } } } }"; u "{ n @d { id } }"]
  = [1; 1; 1; 1; 1; 1; 2]%nat.
Proof. vm_compute. reflexivity. Qed.

(** The name that is looked up is the alias: an alias that is a field hides a name
    that is none, and one that is no field is rejected. *)
Example alias_looked_up :
  map (λ query_, length (diagnostics (parser (executed query_ (executor_on example_schema)))))
    [u "{ n: zzz { id } }"; u "{ m: n { id } }"] = [0; 1]%nat.
Proof. vm_compute. reflexivity. Qed.

(** C12: whatever the query, the executor leaves the schema as it was but for the
    list flags of its types: the declarations, the symbols, the definitions of
    directives and the root types are the same, and diagnostics are only added. *)
Theorem execute_keeps_schema query_ s x s' :
  Execute query_ s = Ok x s' →
  (∀ p d, heap s !! p = Some (NDecl d) → heap s' !! p = Some (NDecl d)) ∧
  (∀ p t, heap s !! p = Some (NType t) →
    ∃ b, heap s' !! p = Some (NType (set_is_list_type b t))) ∧
  symbols s' = symbols s ∧ directive_definitions s' = directive_definitions s ∧
  (∀ o, root_of s' o = root_of s o) ∧
  diagnostics (parser s) `prefix_of` diagnostics (parser s').
Proof.
  intros Hrun. destruct (wp_ok _ _ _ _ _ _ _ (Execute_spec query_ s) Hrun) as [Hs _].
  split_and!; [|..|by apply (steps_symbols _ _ Hs)|by apply (steps_definitions _ _ Hs)
    |intros o; exact (root_of_steps _ _ o Hs)|by apply (parses_diagnostics _ _ _ _ (steps_parser _ _ Hs))].
  - intros p d Hp. by destruct (steps_heap _ _ Hs p (NDecl d) Hp) as (n & ? & ->).
  - intros p t Hp. destruct (steps_heap _ _ Hs p (NType t) Hp) as (n & Hn & b & ->). by exists b.
Qed.

(** A list for a type that is no list leaves the list flag of the type set. *)
Definition flag_query : ustring := u "{ a(x: [1] y: [2]) { id } }".
Definition flag_schema : ustring :=
  u "type A { id: ID } type Query { a(x: [Int] y: Int): A }".

Lemma execute_keeps_schema_witness :
  let s := executor_on flag_schema in
  ∃ x s' t, Execute flag_query s = Ok x s' ∧ heap s !! 4%nat = Some (NType t) ∧
    is_list_type t = false ∧ heap s' !! 4%nat = Some (NType (set_is_list_type true t)) ∧
    symbols s' = symbols s.
Proof.
  intros s. destruct (Execute flag_query s) as [x s'| | |] eqn:Hrun;
    [|vm_compute in Hrun; discriminate..].
  destruct (execute_keeps_schema flag_query s x s' Hrun) as (_ & _ & Hsym & _).
  exists x, s'. assert (Hs' : executed flag_query s = s') by (unfold executed; by rewrite Hrun).
  rewrite <- Hs'. eexists. split; [done|]. split; [vm_compute; reflexivity|].
  split; [reflexivity|]. split; [vm_compute; reflexivity|]. by rewrite Hs'.
Defined.

(** ** Values *)

(** C9: a value that is read for a type without a new diagnostic is one of the
    type: null where null is allowed, a scalar of the type, a value of the enum,
    an object whose fields are distinct fields of the input object, none of the
    required ones missing, or a list for a list type.  The memory is then as
    before: the list flags that were cleared for the elements are set again. *)
Theorem parse_value_fits p v s s' :
  parser_ok True (λ _, True) (parser s) →
  Executor.parse_value_ (Some p) s = Ok (Some v) s' →
  length (diagnostics (parser s')) = length (diagnostics (parser s)) →
  fits (symbols s) (heap s) p v ∧ heap s' = heap s.
Proof.
  intros Hok Hrun Hrep.
  destruct (wp_ok _ _ _ _ _ _ _ (parse_value__spec (Some p) s Hok) Hrun) as (Hs & _ & Hv).
  split; [by apply (Hv Hrep)|by apply (values_heap _ _ Hs)].
Qed.

Definition value_schema : ustring :=
  u "enum E { X Y } input I { e: E! l: [Int]! } type Query { a(x: [I]): Int }".
Definition value_text : ustring := u "[{ e: X l: [1 2] } { l: [] e: Y }]".

Lemma parse_value_fits_witness :
  let s := on_query value_text (executor_on value_schema) in
  ∃ v s', Executor.parse_value_ (Some 5%nat) s = Ok (Some v) s' ∧
    parser_ok True (λ _, True) (parser s) ∧
    length (diagnostics (parser s')) = length (diagnostics (parser s)) ∧
    fits (symbols s) (heap s) 5 v ∧ heap s' = heap s.
Proof.
  intros s. assert (Hok : parser_ok True (λ _, True) (parser s)) by apply on_query_ok.
  destruct (Executor.parse_value_ (Some 5%nat) s) as [[v|] s'| | |] eqn:Hrun;
    [|vm_compute in Hrun; discriminate..].
  assert (Hrep : length (diagnostics (parser s')) = length (diagnostics (parser s))).
  { vm_compute in Hrun. injection Hrun as <- <-. by vm_compute. }
  exists v, s'. split; [done|]. split; [done|]. split; [done|].
  exact (parse_value_fits 5 v s s' Hok Hrun Hrep).
Defined.

(** A name where a value of a type without a name is expected, a scalar, is
    never read: after the diagnostic the null name of the type is dereferenced. *)
Theorem name_for_scalar_undefined p t s :
  parser_ok True (λ _, True) (parser s) →
  heap s !! p = Some (NType t) → type_name t = None →
  wp True (parse_enum_value (Some p)) (λ _ _, False) (λ e _, exec_exn e) s.
Proof.
  intros Hok Hp Hn. unfold parse_enum_value. do 5 xstep. repeat xstep; congruence.
Qed.

Definition scalar_schema : ustring := u "type Query { a(x: Int!): Int }".

Lemma name_for_scalar_undefined_witness :
  let s := on_query (u "foo") (executor_on scalar_schema) in
  ∃ t, heap s !! 1%nat = Some (NType t) ∧ type_name t = None ∧
    parser_ok True (λ _, True) (parser s) ∧
    wp True (parse_enum_value (Some 1%nat)) (λ _ _, False) (λ e _, exec_exn e) s.
Proof.
  intros s. assert (Hok : parser_ok True (λ _, True) (parser s)) by apply on_query_ok.
  destruct (heap s !! 1%nat) as [[t|]|] eqn:Ht; [|vm_compute in Ht; discriminate..].
  assert (Hn : type_name t = None) by (vm_compute in Ht; by injection Ht as <-).
  exists t. split_and!; [done..|]. exact (name_for_scalar_undefined 1 t s Hok Ht Hn).
Defined.

(** In a query this is undefined behaviour of [Execute]. *)
Example execute_undefined :
  Execute (u "{ a(x: foo) }") (executor_on scalar_schema) = Undefined.
Proof. vm_compute. reflexivity. Qed.

(** ** Type conditions *)

(** C13: the check of a fragment on [object] where [current] is selected from
    reports nothing and changes nothing exactly when the fragment can apply: the
    object implements the interface, has the name of the object, or is a member of
    the union.  Otherwise it adds one diagnostic, which is that of the kind of
    [current]. *)
Theorem check_fragment_assignment_verdict name object current s :
  parser_ok False (λ _, True) (parser s) →
  is_object object → declared object → declared current →
  wp False (check_fragment_assignment name object current) (λ _ s',
      (condition_ok object current ∧ s' = s) ∨
      (¬ condition_ok object current ∧ ∃ m, _template m = assignment_template current ∧
        s' = with_diagnostic m s))
    (λ e _, parse_exn e) s.
Proof.
  intros Hok Ho Hd Hc.
  apply (check_fragment_assignment_spec False (λ _, True) s Hok name object current). by left.
Qed.

(** The object [A] and the interface [N] of the example. *)
Definition declaration_at (p : ptr) (s : GraphQlExecutor) : option Declaration :=
  match heap s !! p with Some (NDecl d) => Some d | _ => None end.

Lemma check_fragment_assignment_verdict_witness :
  let s := on_query example_query (executor_on example_schema) in
  ∃ object current name,
    parser_ok False (λ _, True) (parser s) ∧
    declaration_at 2 s = Some object ∧ declaration_at 0 s = Some current ∧
    is_object object ∧ declared object ∧ declared current ∧ condition_ok object current ∧
    wp False (check_fragment_assignment name object current) (λ _ s',
      (condition_ok object current ∧ s' = s) ∨
      (¬ condition_ok object current ∧ ∃ m, _template m = assignment_template current ∧
        s' = with_diagnostic m s))
    (λ e _, parse_exn e) s.
Proof.
  intros s. assert (Hok : parser_ok False (λ _, True) (parser s)).
  { apply on_query_defined. vm_compute. congruence. }
  destruct (declaration_at 2 s) as [object|] eqn:Ho; [|vm_compute in Ho; discriminate].
  destruct (declaration_at 0 s) as [current|] eqn:Hc; [|vm_compute in Hc; discriminate].
  vm_compute in Ho, Hc. injection Ho as <-. injection Hc as <-.
  do 2 eexists. exists (mkName (new_Syntax S_Name 0 1) (u "f")). split; [exact Hok|].
  split; [reflexivity|]. split; [reflexivity|].
  match goal with |- is_object ?o ∧ _ ∧ declared ?c ∧ _ =>
    assert (Hio : is_object o) by (eexists; reflexivity);
    assert (Hdo : declared o) by (split; [eexists; reflexivity|reflexivity]);
    assert (Hdc : declared c) by (split; [eexists; reflexivity|reflexivity])
  end.
  split_and!; [done..| |].
  - do 3 eexists. split_and!; vm_compute; reflexivity.
  - by apply check_fragment_assignment_verdict.
Defined.
