(* ===== verification/SchemaProperties.v ===== *)
(** * The theorems about the schema parser

    The parse phase is safe and leaves well-formed tables; what each check of
    the document reports.  The witnesses run the parse phase on a document. *)
From S2P Require Import Prelude Monad Character Cstring Diagnostic StdMap Syntaxes.
From S2P Require Import TextWriter Scanner ScannerSpec Parser ParserSpec ValueText Schema.
From S2P Require Import SchemaInvariant SchemaRules SchemaSafety SchemaChecks SchemaChecksSpec.
From S2P Require Import SchemaFrames.

#[local] Arguments u : simpl never.

(** ** The state a document is parsed in *)

Lemma new_GraphQlSchema_ok source_ :
  schema_ok (∃ pre, source_ = pre ++ [Character.CarriageReturn]) (new_GraphQlSchema source_).
Proof.
  split; simpl; try done.
  split; simpl; [by split; simpl; lia|done|by apply ends_with_cr_source|done].
Qed.

(** The state after the parse phase, for a source it does not throw on. *)
Definition parsed (source_ : ustring) : GraphQlSchema :=
  match parse_document (new_GraphQlSchema source_) with
  | Ok _ s => s
  | _ => new_GraphQlSchema source_
  end.

Lemma new_GraphQlSchema_defined source_ :
  list.last source_ ≠ Some Character.CarriageReturn → schema_ok False (new_GraphQlSchema source_).
Proof.
  intros Hcr. destruct (new_GraphQlSchema_ok source_) as [[? ? Hub ?] ? ? ? ? ? ? ? ?].
  split; try done. split; try done. intros Hend. destruct (Hub Hend) as [pre ->].
  by rewrite last_snoc in Hcr.
Qed.

Lemma parsed_ok source_ :
  list.last source_ ≠ Some Character.CarriageReturn → schema_ok False (parsed source_).
Proof.
  intros Hcr. pose proof (new_GraphQlSchema_defined source_ Hcr) as Hok. unfold parsed.
  destruct (parse_document _) as [schema_ s'| | |] eqn:Hrun; try done.
  pose proof (wp_ok _ _ _ _ _ _ _ (parse_document_spec False _ Hok) Hrun) as [Hb _].
  by eapply builds_ok.
Qed.

(** ** The parse phase *)

(** C1: whatever the document, the parse phase terminates, dereferences no null
    pointer and no node of another class, and reads only inside the source,
    unless the source ends with a carriage return.  The only exceptions are the
    two of [search_for_line] and [substr].  The tables it leaves satisfy the
    invariant [schema_ok] and the schema definition it returns is one. *)
Theorem parse_document_safe source_ :
  wp (∃ pre, source_ = pre ++ [Character.CarriageReturn]) parse_document
    (λ schema_ s', schema_ok (∃ pre, source_ = pre ++ [Character.CarriageReturn]) s' ∧
      ∀ p, schema_ = Some p → class_at (heap s') p S_Schema)
    (λ e _, parse_exn e) (new_GraphQlSchema source_).
Proof.
  eapply wp_mono; [apply parse_document_spec, new_GraphQlSchema_ok| |done].
  intros schema_ s' [Hb Hdef]. split; [by eapply builds_ok|exact Hdef].
Qed.

(** C10: after the parse phase every symbol is registered under the name of its
    declaration, and its kind is the class of the declaration. *)
Theorem parse_document_symbols source_ :
  wp (∃ pre, source_ = pre ++ [Character.CarriageReturn]) parse_document
    (λ _ s', ∀ key symbol, find key (symbols s') = Some symbol →
      symbol_name symbol = key ∧
      ∃ d n, heap s' !! declaration symbol = Some (NDecl d) ∧ decl_name d = Some n ∧
        identifier n = key ∧ symbol_kind symbol = body_symbol (body d) ∧ symbol_kind symbol ≠ SL_None)
    (λ _ _, True) (new_GraphQlSchema source_).
Proof.
  eapply wp_mono; [apply parse_document_spec, new_GraphQlSchema_ok| |done].
  intros schema_ s' [Hb _] key symbol Hf.
  destruct (so_symbols _ _ (builds_ok _ _ _ Hb) _ _ Hf) as (Hk & d & n & ? & ? & ? & ? & ?).
  split; [done|]. by exists d, n.
Qed.

(** The fields of an object or interface are stored under their names and have
    complete types, which [get_type_name] prints; so do the fields of an input
    object.  Type annotations that are checked later have a name. *)
Definition fields_complete (s : GraphQlSchema) : Prop :=
  (∀ p m key field, fields_at (heap s) p = Some m → (key, field) ∈ m →
    identifier (fd_name field) = key ∧ type_at (heap s) (fd_type field)) ∧
  (∀ p d o m key field, heap s !! p = Some (NDecl d) → body d = BInputObject o →
    io_fields o = Some m → (key, field) ∈ m →
    identifier (ifd_name field) = key ∧ type_at (heap s) (ifd_type field)) ∧
  (∀ p, p ∈ forward_type_references s → ∃ t, heap s !! p = Some (NType t) ∧ type_name t ≠ None).

Lemma schema_ok_fields ub s : schema_ok ub s → fields_complete s.
Proof.
  intros Hok. split_and!.
  - intros p m key field Hat Hin. unfold fields_at, as_object_like in Hat.
    destruct (heap s !! p) as [[|d]|] eqn:Hp; try done.
    pose proof (proj1 (so_heap _ _ Hok _ _ Hp)) as Hb.
    destruct (body d); try done; simpl in Hb; specialize (Hb _ Hat);
      apply (Forall_elem _ _ _ Hb) in Hin as (? & ? & _); done.
  - intros p d o m key field Hp Hd Ho Hin. pose proof (proj1 (so_heap _ _ Hok _ _ Hp)) as Hb.
    rewrite Hd in Hb. by apply (Forall_elem _ _ _ (Hb _ Ho)) in Hin as (? & ?).
  - intros p Hin. apply (Forall_elem _ _ _ (so_forward _ _ Hok)) in Hin as (t & ? & ? & _).
    by exists t.
Qed.

(** After the parse phase the fields of every object, interface and input
    object are stored under their own names with a complete type annotation. *)
Theorem parse_document_fields source_ :
  wp (∃ pre, source_ = pre ++ [Character.CarriageReturn]) parse_document
    (λ _ s', fields_complete s') (λ _ _, True) (new_GraphQlSchema source_).
Proof.
  eapply wp_mono; [apply parse_document_spec, new_GraphQlSchema_ok| |done].
  intros schema_ s' [Hb _]. eapply schema_ok_fields, builds_ok, Hb.
Qed.

(** ** Interfaces and unions *)

(** C18: the check of [implements] clauses adds no diagnostic exactly when every
    interface an object declares exists and each of its fields is in the object
    with the same named type; a diagnostic it adds has one of three templates.
    It throws only where something is to be reported, and dereferences null only if
    an interface was registered without fields. *)
Theorem check_object_implementations_verdict s :
  schema_ok False s →
  let G := ∀ p interface name, p ∈ objects_with_implementations s →
    (interface, name) ∈ interfaces_of (heap s) p →
    implements_interface s (fields_at (heap s) p) interface in
  wp (interface_without_fields s) check_object_implementations (λ _ s', ∃ l, s' = reported l s ∧
    (l = [] ↔ G) ∧ Forall (λ m, _template m ∈ implementation_errors) l)
    (λ e _, parse_exn e ∧ ¬ G) s.
Proof.
  intros Hok G. apply (decides_iff _ implementation_errors
    (∀ p, p ∈ objects_with_implementations s → ∀ entry, entry ∈ interfaces_of (heap s) p →
      implements_interface s (fields_at (heap s) p) entry.1)).
  - split; [unfold G; naive_solver|]. intros Hall p Hp [interface name]. by apply Hall.
  - apply reports_gets, reports_for_each. intros p k Hp.
    eapply check_object_implementation_reports; [done| |done].
    exact (Forall_elem _ _ _ (so_objects _ _ Hok) Hp).
Qed.

(** An object that implements an interface, one that does not, and a union. *)
Definition example_source : ustring :=
  u "interface I { a: Int! } type A implements I { a: Int! } type B implements I { b: Int }
     union U = A | B type Query { a: A }".

Lemma check_object_implementations_verdict_witness :
  schema_ok False (parsed example_source) ∧
  let G := ∀ p interface name, p ∈ objects_with_implementations (parsed example_source) →
    (interface, name) ∈ interfaces_of (heap (parsed example_source)) p →
    implements_interface (parsed example_source) (fields_at (heap (parsed example_source)) p) interface in
  wp (interface_without_fields (parsed example_source)) check_object_implementations
    (λ _ s', ∃ l, s' = reported l (parsed example_source) ∧
      (l = [] ↔ G) ∧ Forall (λ m, _template m ∈ implementation_errors) l)
    (λ e _, parse_exn e ∧ ¬ G) (parsed example_source).
Proof.
  assert (Hok : schema_ok False (parsed example_source)) by (apply parsed_ok; vm_compute; congruence).
  split; [exact Hok|]. exact (check_object_implementations_verdict _ Hok).
Defined.

(** The check of unions adds no diagnostic exactly when every member of
    every union names an object type, throws only where something is to be reported,
    and dereferences no null pointer. *)
Theorem check_union_members_verdict s :
  schema_ok False s →
  let G := ∀ p member, p ∈ unions s → member ∈ union_members (heap s) p →
    is_object_type (symbols s) (identifier member.2) in
  wp False check_union_members (λ _ s', ∃ l, s' = reported l s ∧
    (l = [] ↔ G) ∧ Forall (λ m, _template m ∈ union_errors) l)
    (λ e _, parse_exn e ∧ ¬ G) s.
Proof.
  intros Hok G. apply (decides_iff _ union_errors (∀ p, p ∈ unions s → union_ok s p)).
  - unfold G, union_ok. naive_solver.
  - apply reports_gets, reports_for_each. intros p k Hp. apply (check_union_reports _ _ (reported k s)).
    + exact (schema_ok_located _ _ Hok).
    + destruct (Forall_elem _ _ _ (so_unions _ _ Hok) Hp) as [name ?]. by eapply named_at_class.
Qed.

Lemma check_union_members_verdict_witness :
  schema_ok False (parsed example_source) ∧
  let G := ∀ p member, p ∈ unions (parsed example_source) →
    member ∈ union_members (heap (parsed example_source)) p →
    is_object_type (symbols (parsed example_source)) (identifier member.2) in
  wp False check_union_members (λ _ s', ∃ l, s' = reported l (parsed example_source) ∧
    (l = [] ↔ G) ∧ Forall (λ m, _template m ∈ union_errors) l)
    (λ e _, parse_exn e ∧ ¬ G) (parsed example_source).
Proof.
  assert (Hok : schema_ok False (parsed example_source)) by (apply parsed_ok; vm_compute; congruence).
  split; [exact Hok|]. exact (check_union_members_verdict _ Hok).
Defined.

(** ** Values *)

(** C19: for a value without objects and a complete type, [check_value] adds no
    diagnostic exactly when the value is assignable to the type, the only
    diagnostic it adds says so, and the list flags of the type it clears while
    it visits the elements of a list are back in place.  It throws only for a value
    that is not assignable, where the location is not found or the text of the value
    has an empty list. *)
Theorem check_value_verdict v p t s :
  flat v = true →
  located s → heap s !! p = Some (NType t) → type_valid t →
  wp False (check_value v p)
    (λ _ s', ∃ l, s' = reported l s ∧ (l = [] ↔ assignable v t = true) ∧
      Forall (λ m, _template m = The_value_0_is_not_assignable_to_type_1) l)
    (λ e _, (parse_exn e ∨ e = no_saves ∧ printable v = false) ∧ ¬ assignable v t = true) s.
Proof.
  intros Hv Hs Hp Ht. eapply wp_mono; [by apply check_value_flat| |done].
  intros _ s' (l & -> & Hl & HT). exists l. split_and!; [done..|].
  eapply Forall_impl; [|exact HT]. intros m Hm. by apply list_elem_of_singleton in Hm.
Qed.

(** [[1, "a"]] is not a list of integers. *)
Lemma check_value_verdict_witness :
  let s := set_heap [NType (set_is_list_type true (set_type T_Int
    (new_Type (new_Syntax S_Type 0 3))))] (new_GraphQlSchema (u "[Int]")) in
  let v := ListValue (new_Syntax S_ListValue 0 1)
    [IntValue (new_Syntax S_IntValue 0 1) 1; StringValue (new_Syntax S_StringValue 0 1) (u "a")] in
  wp False (check_value v 0)
    (λ _ s', ∃ l, s' = reported l s ∧ (l = [] ↔ false = true) ∧
      Forall (λ m, _template m = The_value_0_is_not_assignable_to_type_1) l)
    (λ e _, (parse_exn e ∨ e = no_saves ∧ true = false) ∧ ¬ false = true) s.
Proof.
  intros s v. exact (check_value_verdict v 0 _ s eq_refl eq_refl eq_refl I).
Defined.

(** ** Directives *)


(** A directive that is valid, one at the wrong location and without a value, one
    that is not defined, and two with unknown arguments. *)
Definition directive_source : ustring :=
  u "directive @a(x: Int!, y: [String]) on OBJECT | INTERFACE directive @b(z: Int) on OBJECT
     type A @a(x: 1, y: [null]) { f: Int @a } interface I @c { f: Int } type B @b(w: 1) { f: Int }
     type C @b(z: 1, w: 1) { f: Int }".


(** What is reported for it: nothing for the directive whose only argument is unknown. *)
Example directives_reported :
  let s := parsed directive_source in
  match check_directive_references s with
  | Ok _ s' => map _template (drop (length (diagnostics (parser s))) (diagnostics (parser s')))
      = [The_directive_0_does_not_support_the_location_1; Missing_required_argument_0;
         Undefined_directive_0; Unknown_argument_0]
  | _ => False
  end.
Proof. vm_compute. reflexivity. Qed.

(** ** Root operation types *)

(** After [set_root_types] the query, mutation and subscription roots are
    the declarations registered under the names the schema definition gives, or
    under the default names; a missing mutation or subscription type is
    assigned null.  There is no diagnostic exactly when every declared root
    names a defined type and there is a query type; a root that is diagnosed
    keeps the value it had. *)
Theorem set_root_types_assigns p s :
  class_at (heap s) p S_Schema →
  wp False (set_root_types p) (λ _ s',
    (∀ r, root_ok s p r → root_of r s' = Assigned (root_declaration s p r)) ∧
    (∀ r, ¬ root_ok s p r → root_of r s' = root_of r s) ∧
    ∃ l, diagnostics (parser s') = diagnostics (parser s) ++ l ∧
      (l = [] ↔ ∀ r, root_ok s p r) ∧ Forall (λ m, _template m ∈ root_errors) l)
    (λ _ _, False) s.
Proof. apply set_root_types_spec. Qed.

Definition root_source : ustring :=
  u "schema { query: A mutation: B } type A { a: Int } type Subscription { b: Int }".

Lemma set_root_types_assigns_witness :
  class_at (heap (parsed root_source)) 0 S_Schema ∧
  wp False (set_root_types 0) (λ _ s',
    (∀ r, root_ok (parsed root_source) 0 r →
      root_of r s' = Assigned (root_declaration (parsed root_source) 0 r)) ∧
    (∀ r, ¬ root_ok (parsed root_source) 0 r → root_of r s' = root_of r (parsed root_source)) ∧
    ∃ l, diagnostics (parser s') = diagnostics (parser (parsed root_source)) ++ l ∧
      (l = [] ↔ ∀ r, root_ok (parsed root_source) 0 r) ∧ Forall (λ m, _template m ∈ root_errors) l)
    (λ _ _, False) (parsed root_source).
Proof.
  assert (Hp : class_at (heap (parsed root_source)) 0 S_Schema).
  { eexists. split; [vm_compute; reflexivity|reflexivity]. }
  split; [exact Hp|]. exact (set_root_types_assigns 0 _ Hp).
Defined.

(** ** Symbols *)

(** Registering a name twice keeps the first declaration.  A new name adds
    its symbol and no diagnostic; a name that is taken adds a diagnostic for
    the second declaration, and one for the first if it has none yet. *)
Theorem register_symbol_first_wins name p k s :
  schema_ok False s →
  wp False (register_symbol name p k) (λ _ s',
    heap s' = heap s ∧
    match find (identifier name) (symbols s) with
    | None =>
        symbols s' = emplace (identifier name) (mkSymbol (identifier name) p k) (symbols s) ∧
        diagnostics (parser s') = diagnostics (parser s)
    | Some _ =>
        symbols s' = symbols s ∧ identifier name ∈ duplicate_symbols s' ∧
        ∃ l, diagnostics (parser s') = diagnostics (parser s) ++ l ∧
          Forall (λ m, _template m = Duplicate_type_0) l ∧
          length l = if decide (identifier name ∈ duplicate_symbols s) then 1%nat else 2%nat
    end)
    (λ e _, parse_exn e) s.
Proof.
  intros Hok. pose proof (schema_ok_located _ _ Hok) as Hs. unfold register_symbol. wp_step. wp_step.
  destruct (find (identifier name) (symbols s)) as [symbol|] eqn:Hf.
  2:{ unfold add_symbol. wp_step. by split_and!. }
  destruct (so_symbols _ _ Hok _ _ Hf) as (_ & d & n & Hd & Hn & _).
  wp_step. apply wp_get_location; [done|]. intros location. do 2 wp_step.
  unfold add_diagnostic_at. do 3 wp_step. simpl. destruct (decide _) as [Hdup|Hdup].
  - wp_step. split; [done|]. split; [done|]. split; [done|]. eexists. split; [done|].
    split; [|done]. by repeat constructor.
  - wp_step. unfold read_decl_name, read_decl. repeat wp_step. simpl. rewrite Hd. wp_step. rewrite Hn.
    simpl. wp_step. wp_step. apply wp_get_location; [done|]. intros location'. repeat wp_step.
    split; [done|]. split; [done|]. split; [by left|]. eexists. split; [simpl; by rewrite <- app_assoc|].
    split; [|done]. by repeat constructor.
Qed.

Lemma register_symbol_first_wins_witness :
  let s := parsed (u "type A { a: Int }") in
  let name := mkName (new_Syntax S_Name 0 1) (u "A") in
  schema_ok False s ∧ find (u "A") (symbols s) ≠ None ∧
  wp False (register_symbol name 0 SL_Object) (λ _ s',
    heap s' = heap s ∧
    match find (identifier name) (symbols s) with
    | None =>
        symbols s' = emplace (identifier name) (mkSymbol (identifier name) 0 SL_Object) (symbols s) ∧
        diagnostics (parser s') = diagnostics (parser s)
    | Some _ =>
        symbols s' = symbols s ∧ identifier name ∈ duplicate_symbols s' ∧
        ∃ l, diagnostics (parser s') = diagnostics (parser s) ++ l ∧
          Forall (λ m, _template m = Duplicate_type_0) l ∧
          length l = if decide (identifier name ∈ duplicate_symbols s) then 1%nat else 2%nat
    end)
    (λ e _, parse_exn e) s.
Proof.
  intros s name. assert (Hok : schema_ok False s) by (apply parsed_ok; vm_compute; congruence).
  split; [exact Hok|]. split; [vm_compute; congruence|].
  exact (register_symbol_first_wins name 0 SL_Object s Hok).
Defined.

(** ** Recursive directives *)

Lemma run_read_type p t s : heap s !! p = Some (NType t) → read_type p s = Ok t s.
Proof. intros Hp. unfold read_type, mbind, M_bind, gets. by rewrite Hp. Qed.

Lemma run_read_decl p d s : heap s !! p = Some (NDecl d) → read_decl p s = Ok d s.
Proof. intros Hp. unfold read_decl, mbind, M_bind, gets. by rewrite Hp. Qed.

(** The type at [p] is an input object that carries no directive [parent], and
    one of whose fields has a type in [P] again; the fields before it are not
    of object types. *)
Definition recursive_input (P : ptr → Prop) (parent : ustring) (s : GraphQlSchema) (p : ptr) : Prop :=
  ∃ t n symbol d o pre key f post ft,
    heap s !! p = Some (NType t) ∧ kind (type_syntax t) = S_Type ∧ type_name t = Some n ∧
    find (identifier n) (symbols s) = Some symbol ∧
    heap s !! declaration symbol = Some (NDecl d) ∧ body d = BInputObject o ∧
    contains parent (io_directives o) = false ∧
    io_fields o = Some (pre ++ (key, f) :: post) ∧
    Forall (λ entry, contains parent (ifd_directives entry.2) = false ∧
      ∃ t', heap s !! ifd_type entry.2 = Some (NType t') ∧ type t' ≠ T_Object) pre ∧
    contains parent (ifd_directives f) = false ∧
    heap s !! ifd_type f = Some (NType ft) ∧ type ft = T_Object ∧ P (ifd_type f).

(** C21: the search for recursive directives does not end on input objects that
    contain themselves: no amount of fuel is enough. *)
Theorem check_recursive_directives_diverges (P : ptr → Prop) parent location s p :
  (∀ q, P q → recursive_input P parent s q) → P p →
  ∀ fuel, check_recursive_directives fuel parent location p s = OutOfFuel.
Proof.
  intros HP Hp fuel. revert p Hp. induction fuel as [|fuel IH]; intros p Hp; [done|].
  destruct (HP p Hp) as (t & n & symbol & d & o & pre & key & f & post & ft & Ht & Hkind & Hn & Hsym &
    Hd & Hbody & Hdir & Hfields & Hpre & Hfdir & Hft & Hfty & HPf).
  simpl. rewrite (run_bind _ _ _ _ _ (run_read_type _ _ _ Ht)).
  rewrite Hkind, Hn. simpl. erewrite run_bind by done. erewrite run_bind by done. rewrite Hsym.
  erewrite run_bind by done. rewrite (run_bind _ _ _ _ _ (run_read_decl _ _ _ Hd)).
  unfold as_input_type. rewrite Hbody. simpl. erewrite run_bind by done.
  unfold check_directive_map. rewrite Hdir. simpl. erewrite run_bind by done.
  rewrite Hfields. simpl. erewrite run_bind by done. rewrite run_for_each.
  2:{ eapply Forall_impl; [|exact Hpre]. intros [k' f'] (Hf' & t' & Ht' & Hty). simpl in *.
      rewrite Hf'. simpl. erewrite run_bind by done.
      rewrite (run_bind _ _ _ _ _ (run_read_type _ _ _ Ht')). by rewrite decide_False. }
  simpl. apply run_bind_fuel. rewrite Hfdir. simpl. erewrite run_bind by done.
  rewrite (run_bind _ _ _ _ _ (run_read_type _ _ _ Hft)). rewrite decide_True by done.
  by apply IH.
Qed.

(** [input A { a: A }] is such an input object. *)
Definition recursive_source : ustring := u "directive @d(a: A) on FIELD input A { a: A }".

Lemma check_recursive_directives_diverges_witness :
  let s := parsed recursive_source in
  let P p := p = 1%nat ∨ p = 3%nat in
  (∀ q, P q → recursive_input P (u "d") s q) ∧ P 1%nat ∧
  ∀ fuel, check_recursive_directives fuel (u "d") 1 1 s = OutOfFuel.
Proof.
  intros s P. assert (HP : ∀ q, P q → recursive_input P (u "d") s q).
  { intros q [-> | ->]; do 4 eexists; eexists; exists []; do 4 eexists;
      split_and!; first [vm_compute; reflexivity|by right|by apply list.Forall_nil]. }
  split; [exact HP|]. split; [by left|].
  exact (check_recursive_directives_diverges P (u "d") 1 s 1 HP (or_introl eq_refl)).
Defined.
