(* ===== verification/LexerText.v ===== *)
(** * The text of tokens

    What the scanner returns on a text that is known: [at_text t s] says that
    [t] is what is left of the source.  Every lexeme is taken as its token,
    whatever white space and comments precede it. *)
From S2P Require Import Prelude Monad Character Cstring Diagnostic StdMap Syntaxes Scanner ScannerSpec.

#[local] Arguments u : simpl never.

(** ** What is left of the source *)

Record at_text (t : ustring) (s : GraphQlScanner) : Prop := {
  at_ok : scanner_ok s;
  at_size : size s = (position s + length t)%nat;
  at_drop : drop (position s) (source s) = t
}.

(** The source and the saved cursors, which taking a token keeps. *)
Record same_source (s s' : GraphQlScanner) : Prop := {
  ss_source : source s' = source s;
  ss_size : size s' = size s;
  ss_saved : saved_text_cursors s' = saved_text_cursors s;
  ss_errors : errors s' = errors s
}.

#[export] Instance same_source_preorder : PreOrder same_source.
Proof. split; [by split|]. intros s1 s2 s3 [] []. split; congruence. Qed.

(** The state [n] characters further. *)
Definition advance_by (n : nat) (s : GraphQlScanner) : GraphQlScanner :=
  set_position (position s + n) (set_column (column s + n) s).

Lemma advance_by_0 s : advance_by 0 s = s.
Proof. unfold advance_by. rewrite !Nat.add_0_r. by destruct s. Qed.

Lemma advance_by_S n s : advance_by n (advance s) = advance_by (S n) s.
Proof. unfold advance_by, advance. simpl. by rewrite !Nat.add_succ_r. Qed.

Lemma at_text_advance_by w t s : at_text (w ++ t) s → at_text t (advance_by (length w) s).
Proof.
  intros [[Hs Hp Hst] Hsz Hd]. rewrite length_app in Hsz. split; simpl.
  - split; simpl; [done|lia|lia].
  - lia.
  - by rewrite <- drop_drop, Hd, drop_app_length.
Qed.

Lemma at_text_advance c t s : at_text (c :: t) s → at_text t (advance s).
Proof.
  intros Ht. rewrite <- (advance_by_0 (advance s)), advance_by_S.
  by apply (at_text_advance_by [c]).
Qed.

Lemma at_text_same t s s' :
  at_text t s → source s' = source s → size s' = size s → position s' = position s →
  (start_position s' ≤ position s')%nat → at_text t s'.
Proof. intros [[]]. intros Hs Hn Hp Hst. split; [split|..]; congruence || lia. Qed.

Lemma at_text_eq t s s' :
  at_text t s → source s' = source s → size s' = size s → position s' = position s →
  start_position s' = start_position s → at_text t s'.
Proof. intros Ht Hs Hn Hp Hst. eapply at_text_same; [done..|]. destruct Ht as [[]]. lia. Qed.

Lemma at_text_char t s i : at_text t s → char_at s (position s + i) = nth i t 0%Z.
Proof.
  intros [[Hs _ _] Hsz Hd]. unfold char_at.
  destruct (Nat.ltb_spec (position s + i) (size s)).
  - by rewrite <- Hd, nth_skipn.
  - rewrite nth_overflow; [done|lia].
Qed.

Lemma at_text_head t s : at_text t s → char_at s (position s) = nth 0 t 0%Z.
Proof. intros Ht. rewrite <- (at_text_char _ _ 0 Ht). by rewrite Nat.add_0_r. Qed.

(** The text between the start of the token and the cursor. *)
Lemma at_text_value w t s :
  at_text t s → (start_position s + length w = position s)%nat →
  drop (start_position s) (source s) = w ++ t →
  substr (start_position s) (token_length s) (source s) = w.
Proof.
  intros _ Hw Hd. unfold substr, token_length. rewrite Hd.
  replace (position s - start_position s)%nat with (length w) by lia. apply take_app_length.
Qed.

Section text_rules.
Context (ub : Prop) (X : exn → GraphQlScanner → Prop).

Lemma wp_char c t s Q : at_text (c :: t) s → Q c s → wp ub current_char Q X s.
Proof.
  intros Ht HQ. apply wp_current_char; [rewrite (at_size _ _ Ht); lia|].
  by rewrite (at_text_head _ _ Ht).
Qed.

(** The character after the cursor, or the terminator. *)
Lemma wp_any_char t s Q : at_text t s → Q (nth 0 t 0%Z) s → wp ub current_char Q X s.
Proof.
  intros Ht HQ. apply wp_current_char; [rewrite (at_size _ _ Ht); lia|].
  by rewrite (at_text_head _ _ Ht).
Qed.

Lemma wp_char_after i t s Q :
  at_text t s → (i ≤ length t)%nat → Q (nth i t 0%Z) s → wp ub (source_at (position s + i)) Q X s.
Proof.
  intros Ht Hi HQ. apply wp_source_at; [rewrite (at_size _ _ Ht); lia|].
  by rewrite (at_text_char _ _ _ Ht).
Qed.

(** A loop that reads one character of [w] per iteration. *)
Lemma wp_text_loop {A B} (I : list Z → A → GraphQlScanner → Prop) w t a s
    (body : A → M GraphQlScanner (A + B)) Q :
  at_text (w ++ t) s → I w a s →
  (∀ c w' a s, at_text (c :: w' ++ t) s → I (c :: w') a s →
    wp ub (body a) (λ r s', ∃ a', r = inl a' ∧ at_text (w' ++ t) s' ∧ size s' = size s ∧
      I w' a' s') X s) →
  (∀ a s, at_text t s → I [] a s →
    wp ub (body a) (λ r s', ∃ b, r = inr b ∧ Q b s') X s) →
  wp ub (scan_loop body a) Q X s.
Proof.
  intros Ht HI Hstep Hstop.
  apply (wp_scan_loop _ (λ a s, ∃ w, at_text (w ++ t) s ∧ I w a s)); [by exists w|].
  intros a' s' ([|c w'] & Ht' & HI').
  - eapply wp_mono; [by apply Hstop| |done]. by intros r s'' (b & -> & ?).
  - eapply wp_mono; [by eapply Hstep| |done]. intros r s'' (a'' & -> & Ht'' & Hsz & HI'').
    pose proof (at_size _ _ Ht'). pose proof (at_size _ _ Ht''). simpl in *.
    split_and!; [by exists w'|done|lia|lia].
Qed.
End text_rules.

(** ** Names *)

(** [t] does not go on with a character of a name. *)
Definition stops (p : char32 → bool) (t : ustring) : Prop := p (nth 0 t 0%Z) = false.

Lemma scan_name_part_text ub X w t s :
  at_text (w ++ t) s → forallb is_name_part w = true → stops is_name_part t →
  wp ub scan_name_part (λ n s', n = S (length w) ∧ s' = advance_by (length w) s) X s.
Proof.
  intros Ht Hw Hstop. unfold scan_name_part.
  apply (wp_text_loop _ _ (λ w' n s', forallb is_name_part w' = true ∧ ∃ k,
    length w = (k + length w')%nat ∧ n = S k ∧ s' = advance_by k s) w t); [done|..].
  - split; [done|]. exists 0%nat. by rewrite advance_by_0.
  - intros c w' n s' Ht' [[Hc Hw']%andb_prop (k & Hk & -> & ->)]. pose proof (at_size _ _ Ht').
    simpl in *. do 2 wp_step. wp_step; [|inside; simpl in *; lia].
    wp_step. eapply wp_char; [done|]. rewrite Hc. wp_step. apply wp_increment_position. wp_step.
    eexists. split_and!; [done|by eapply at_text_advance|done|done|].
    exists (S k). split_and!; [lia|done|].
    unfold advance, advance_by. simpl. by rewrite !Nat.add_succ_r.
  - intros n s' Ht' [_ (k & Hk & -> & ->)]. simpl in *. rewrite Nat.add_0_r in Hk. do 2 wp_step.
    wp_step; [|wp_step; eexists; split_and!; [done|congruence..]].
    wp_step. eapply wp_any_char; [done|]. rewrite Hstop. wp_step.
    eexists. split_and!; [done|congruence..].
Qed.

(** ** White space and comments *)

Definition in_comment (ch : char32) : bool := negb (is_line_break ch).

Lemma is_white_space_cases c :
  is_white_space c = true →
  c = Character.ByteOrderMark ∨ c = Character.Space ∨ c = Character.Comma.
Proof. unfold is_white_space. rewrite !orb_true_iff, !Z.eqb_eq. tauto. Qed.

(** What [take_next_token] skips: blanks, line feeds and comments. *)
Inductive ignored : ustring → Prop :=
  | ignored_nil : ignored []
  | ignored_blank c l : is_white_space c = true → ignored l → ignored (c :: l)
  | ignored_line l : ignored l → ignored (Character.NewLine :: l)
  | ignored_comment w l :
      forallb in_comment w = true → ignored l →
      ignored (Character.Hash :: w ++ Character.NewLine :: l).

(** The scanner between two tokens. *)
Record between (t : ustring) (s s' : GraphQlScanner) : Prop := {
  between_text : at_text t s';
  between_source : same_source s s';
  between_start : start_position s' = position s'
}.

(** Only lines, columns and the start of the token change, which goes to the
    cursor. *)
Lemma between_change t s s1 s2 :
  same_source s s1 → at_text t s1 → source s2 = source s1 → size s2 = size s1 →
  saved_text_cursors s2 = saved_text_cursors s1 → errors s2 = errors s1 →
  position s2 = position s1 → start_position s2 = position s2 → between t s s2.
Proof.
  intros [] Ht ??????. split; [|split; congruence|done].
  eapply at_text_same; [done..|]. lia.
Qed.

Section ignored_text.
Context (ub : Prop) (X : exn → GraphQlScanner → Prop).

Lemma skip_comment_text w t s0 s :
  at_text (w ++ Character.NewLine :: t) s → same_source s0 s →
  start_position s = pred (position s) → (0 < position s)%nat → forallb in_comment w = true →
  wp ub skip_comment (λ _ s', between (Character.NewLine :: t) s0 s') X s.
Proof.
  intros Ht Hs Hst Hpos Hw. unfold skip_comment, start_position_incr, start_column_incr.
  do 4 wp_step. unfold while_in_source.
  apply (wp_text_loop _ _ (λ w' _ s', forallb in_comment w' = true ∧
    between (w' ++ Character.NewLine :: t) s0 s') w (Character.NewLine :: t)).
  { eapply at_text_same; [done..|simpl; lia]. }
  { split; [done|]. eapply (between_change _ _ s); try done. simpl. lia. }
  - intros c w' [] s' Ht' [[Hc Hw']%andb_prop [_ Hs' Hst']]. pose proof (at_size _ _ Ht').
    simpl in *. do 2 wp_step. wp_step; [|inside; simpl in *; lia].
    wp_step. eapply wp_char; [done|]. unfold in_comment in Hc. rewrite Hc. wp_step.
    wp_step. apply wp_increment_position. unfold start_position_incr, start_column_incr.
    repeat wp_step. pose proof (at_text_advance _ _ _ Ht') as Ha.
    assert (Hb : between (w' ++ Character.NewLine :: t) s0
      (set_start_column (S (start_column (advance s')))
        (set_start_position (S (start_position (advance s'))) (advance s')))).
    { eapply (between_change _ _ (advance s')); try done; [|simpl; lia]. by destruct Hs'. }
    eexists. split_and!; [done|by apply Hb|done|done|exact Hb].
  - intros [] s' Ht' [_ Hb]. do 2 wp_step. wp_step; [|wp_step; eexists; by split].
    wp_step. eapply wp_char; [done|]. simpl. wp_step. eexists; by split.
Qed.

(** One iteration on an ignored character. *)
Lemma take_next_token_body_ignored k c ig t s0 s :
  ignored (c :: ig) → between (c :: ig ++ t) s0 s →
  wp ub (take_next_token_body k true tt) (λ r s', r = inl tt ∧
    ∃ ig', ignored ig' ∧ (length ig' ≤ length ig)%nat ∧ between (ig' ++ t) s0 s') X s.
Proof.
  intros Hig [Ht Hs Hst]. pose proof (at_size _ _ Ht) as Hsz. simpl in Hsz.
  unfold take_next_token_body. do 2 wp_step. wp_step; [inside; lia|]. wp_step.
  eapply wp_char; [done|]. wp_step. apply wp_increment_position.
  pose proof (at_text_advance _ _ _ Ht) as Ha.
  inversion Hig as [|? ? Hc Hl|? Hl|w l Hw Hl]; subst.
  - assert (Hb : between (ig ++ t) s0 (set_start_column (S (start_column (advance s)))
      (set_start_position (S (start_position (advance s))) (advance s)))).
    { eapply (between_change _ _ (advance s)); try done; [by destruct Hs|simpl; lia]. }
    apply is_white_space_cases in Hc as [->|[->| ->]]; simpl;
      unfold start_position_incr, start_column_incr; repeat wp_step; (split; [done|]; by exists ig).
  - simpl. unfold add_line, skip_line_end, start_line_incr, start_position_incr. repeat wp_step.
    split; [done|]. exists ig. split_and!; [done|done|].
    eapply (between_change _ _ (advance s)); try done; [by destruct Hs|simpl; lia].
  - simpl. rewrite <- app_assoc in Ha. simpl in Ha. wp_step.
    eapply wp_mono; [apply (skip_comment_text w (l ++ t) s0)|..]; try done.
    + by destruct Hs.
    + simpl. lia.
    + intros [] s' Hb. wp_step. split; [done|]. exists (Character.NewLine :: l).
      split_and!; [by constructor| |done]. rewrite length_app. apply Nat.le_add_l.
Qed.

(** The token after the ignored text is the one the last iteration returns. *)
Lemma take_next_token_ignored k ig t s Q :
  ignored ig → at_text (ig ++ t) s →
  (∀ s', between t s s' →
    wp ub (take_next_token_body k true tt) (λ r s'', ∃ token, r = inr token ∧ Q token s'') X s') →
  wp ub (take_next_token k true) Q X s.
Proof.
  intros Hig Ht HQ. unfold take_next_token, set_token_start_position. repeat wp_step.
  apply (wp_scan_loop _ (λ _ s', ∃ ig, ignored ig ∧ between (ig ++ t) s s')).
  { exists ig. split; [done|]. by eapply (between_change _ _ s). }
  intros [] s' ([|c ig'] & Hig' & Hb).
  - eapply wp_mono; [by apply HQ| |done]. by intros r s'' (token & -> & ?).
  - eapply wp_mono; [by eapply take_next_token_body_ignored| |done].
    intros r s'' (-> & ig'' & Hig'' & Hlen & Hb''). pose proof (at_size _ _ (between_text _ _ _ Hb)).
    pose proof (at_size _ _ (between_text _ _ _ Hb'')). 
    pose proof (ss_size _ _ (between_source _ _ _ Hb)).
    pose proof (ss_size _ _ (between_source _ _ _ Hb'')).
    simpl in *. rewrite !length_app in *. split_and!; [by exists ig''|congruence|lia|lia].
Qed.
End ignored_text.

(** ** Lexemes *)

(** The texts of tokens: names and keywords, punctuators, the spread, integers
    whose digits the scanner keeps together, and strings without escapes. *)
Inductive lexeme :=
  | Word (w : ustring)
  | Punctuator (c : char32)
  | Spread
  | Integer (c : char32) (w : ustring)
  | Quoted (w : ustring).

(** A character that stands for itself in a string. *)
Definition plain (c : char32) : bool :=
  negb (c =? Character.DoubleQuote)%Z && negb (c =? Character.Backslash)%Z && negb (is_line_break c).

Definition lexeme_text (l : lexeme) : ustring :=
  match l with
  | Word w => w
  | Punctuator c => [c]
  | Spread => [Character.Dot; Character.Dot; Character.Dot]
  | Integer c w => c :: w
  | Quoted w => Character.DoubleQuote :: w ++ [Character.DoubleQuote]
  end.

Definition lexeme_ok (l : lexeme) : bool :=
  match l with
  | Word [] => false
  | Word (c :: w) => is_name_start c && forallb is_name_part w
  | Punctuator c => bool_decide (punctuation c ≠ None)
  | Spread => true
  | Integer c w =>
      (is_digit c || (c =? Character.Minus)%Z) && forallb is_digit w
      && negb (nth 0 w 0 =? Character._0)%Z
  | Quoted w => forallb plain w
  end.

(** The token of a lexeme; [k] is [treat_keyword_as_name]. *)
Definition lexeme_token (k : bool) (l : lexeme) : GraphQlToken.t :=
  match l with
  | Word w =>
      if k then GraphQlToken.G_Name else from_option id GraphQlToken.G_Name (keyword_switch (length w) w)
  | Punctuator c => from_option id GraphQlToken.Unknown (punctuation c)
  | Spread => GraphQlToken.Ellipses
  | Integer _ _ => GraphQlToken.IntegerLiteral
  | Quoted _ => GraphQlToken.G_StringValue
  end.

(** [t] does not go on with a digit, a fraction or an exponent. *)
Definition ends_number (t : ustring) : Prop :=
  stops is_digit t ∧ stops (λ c, (c =? Character.Dot) || (c =? Character.e) || (c =? Character.E))%Z t.

(** What may follow a lexeme without changing it. *)
Definition ends_before (l : lexeme) (t : ustring) : Prop :=
  match l with
  | Word _ => stops is_name_part t
  | Integer _ _ => ends_number t
  | Quoted [] => nth 0 t 0%Z ≠ Character.DoubleQuote
  | _ => True
  end.

(** The scanner after the token with text [w]. *)
Record lexed (w t : ustring) (s s' : GraphQlScanner) : Prop := {
  lexed_text : at_text t s';
  lexed_source : same_source s s';
  lexed_start : (start_position s' + length w = position s')%nat;
  lexed_value : substr (start_position s') (token_length s') (source s') = w
}.

Lemma between_lexed w t s s1 s2 :
  between (w ++ t) s s1 → at_text t s2 → same_source s1 s2 →
  start_position s2 = start_position s1 → lexed w t s s2.
Proof.
  intros [Ht1 Hs1 Hst1] Ht2 Hs2 Hst2. pose proof (at_size _ _ Ht1) as H1.
  pose proof (at_size _ _ Ht2) as H2. rewrite length_app in H1. pose proof (ss_size _ _ Hs2).
  assert (Hst : (start_position s2 + length w = position s2)%nat) by lia.
  split; [done|by etransitivity|done|]. apply (at_text_value w t); [done..|].
  rewrite (ss_source _ _ Hs2), Hst2, Hst1. apply Ht1.
Qed.

Lemma lexed_get_value w t s s' ub Q X : lexed w t s s' → Q w s' → wp ub get_value Q X s'.
Proof.
  intros [Ht _ Hst Hv] HQ. apply wp_get_value; [rewrite (at_size _ _ Ht); lia|]. by rewrite Hv.
Qed.

Ltac char_arith :=
  unfold plain, in_comment, is_name_start, is_name_part, is_white_space, is_digit, is_line_break in *;
  cbv [Character.A Character.Z Character.a Character.z Character._0 Character._9
    Character.Underscore Character.NewLine Character.CarriageReturn Character.ByteOrderMark
    Character.Space Character.Comma Character.Hash Character.Ampersand Character.OpenParen
    Character.CloseParen Character.OpenBracket Character.CloseBracket Character.OpenBrace
    Character.CloseBrace Character.Colon Character.Exclamation Character.At Character.Pipe
    Character.Equal Character.DoubleQuote Character.Dot Character.Minus Character.e Character.E Character.Backslash] in *;
  lia.

Lemma punctuation_other c :
  is_name_start c = true ∨ is_digit c = true ∨ c = Character.DoubleQuote ∨ c = Character.Dot
    ∨ c = Character.Minus → punctuation c = None.
Proof.
  intros Hc. unfold punctuation.
  repeat (case_match; [exfalso; char_arith|]). done.
Qed.

Section lexemes.
Context (ub : Prop) (X : exn → GraphQlScanner → Prop).

(** The body of the loop on a character that is not ignored. *)
Lemma body_token k c t s0 s Q :
  between (c :: t) s0 s → is_white_space c = false → is_line_break c = false →
  c ≠ Character.Hash →
  wp ub match punctuation c with
    | Some token => mret (inr token)
    | None =>
        if (c =? Character.DoubleQuote)%Z then finish scan_string_value
        else if (c =? Character.Dot)%Z then finish scan_ellipses_after_first_dot
        else if ((c =? Character.Minus)%Z || is_digit c) then finish scan_number
        else finish (take_name k c)
    end Q X (advance s) →
  wp ub (take_next_token_body k true tt) Q X s.
Proof.
  intros [Ht _ _] Hw Hl Hh HQ. pose proof (at_size _ _ Ht) as Hsz. simpl in Hsz.
  unfold take_next_token_body. do 2 wp_step. wp_step; [inside; lia|]. wp_step.
  eapply wp_char; [done|]. wp_step. apply wp_increment_position.
  wp_step; [exfalso; char_arith|]. wp_step; [exfalso; char_arith|].
  wp_step; [congruence|]. wp_step; [exfalso; char_arith|]. done.
Qed.

Lemma take_name_text k c w t s0 s1 s :
  between ((c :: w) ++ t) s0 s1 → s = advance s1 → is_name_start c = true →
  forallb is_name_part w = true → stops is_name_part t →
  wp ub (take_name k c) (λ token s', token = lexeme_token k (Word (c :: w)) ∧
    lexed (c :: w) t s0 s') X s.
Proof.
  intros Hb -> Hc Hw Hstop. pose proof (between_text _ _ _ Hb) as Ht. simpl in Ht.
  pose proof (at_text_advance _ _ _ Ht) as Ha. unfold take_name. rewrite Hc. wp_step.
  eapply wp_mono; [by eapply scan_name_part_text| |done]. intros n s' [-> ->].
  assert (Hlexed : ∀ s', at_text t s' → same_source (advance s1) s' →
    start_position s' = start_position s1 → lexed (c :: w) t s0 s').
  { intros s' Ht' Hs' Hst'. eapply between_lexed; [done|done| |done]. by destruct Hs'. }
  assert (Hl : lexed (c :: w) t s0 (advance_by (length w) (advance s1))).
  { apply Hlexed; [by apply at_text_advance_by|by split|done]. }
  destruct k; [by wp_step|]. wp_step. eapply lexed_get_value; [done|].
  assert (Hascii : forallb is_ascii (c :: w) = true).
  { apply forallb_forall. intros x Hx. unfold is_ascii. destruct Hx as [<-|Hx]; [char_arith|].
    apply forallb_forall with (x := x) in Hw; [char_arith|done]. }
  unfold get_token_from_value. rewrite raw_ascii by done. simpl lexeme_token.
  destruct (keyword_switch _ _) as [token|] eqn:Hk; simpl in Hk |- *; rewrite Hk; simpl.
  - by wp_step.
  - repeat wp_step. split; [done|]. apply Hlexed; [by eapply at_text_eq; [apply Hl|..]|by split|done].
Qed.

Lemma scan_string_literal_text w t s :
  at_text (w ++ Character.DoubleQuote :: t) s → forallb plain w = true →
  wp ub scan_string_literal (λ token s', token = GraphQlToken.G_StringValue ∧
    at_text t s' ∧ same_source s s' ∧ start_position s' = start_position s ∧
    string_literal s' = w) X s.
Proof.
  intros Ht Hw. unfold scan_string_literal. repeat wp_step.
  apply (wp_text_loop _ _ (λ w' b s', b = false ∧ forallb plain w' = true ∧
    same_source s s' ∧ start_position s' = start_position s ∧ string_literal s' = [] ∧
    (position s' + length w' = position s + length w)%nat) w (Character.DoubleQuote :: t)).
  { by eapply at_text_eq. }
  { by split_and!. }
  - intros c w' b s' Ht' (-> & [Hc Hw']%andb_prop & Hs & Hst & Hlit & Hpos).
    pose proof (at_size _ _ Ht'). simpl in *. unfold scan_string_literal_body. do 2 wp_step.
    wp_step; [inside; lia|]. wp_step. eapply wp_char; [done|].
    do 3 (wp_step; [exfalso; char_arith|]). wp_step. apply wp_increment_position. wp_step.
    pose proof (at_text_advance _ _ _ Ht').
    eexists. split_and!; try done; [by destruct Hs|simpl; lia].
  - intros b s' Ht' (-> & _ & Hs & Hst & Hlit & Hpos). pose proof (at_size _ _ Ht').
    simpl in *. unfold scan_string_literal_body. do 2 wp_step.
    wp_step; [inside; lia|]. wp_step. eapply wp_char; [done|]. simpl.
    wp_step. wp_step. wp_step. apply wp_source_substr; [pose proof (at_size _ _ Ht); lia|].
    unfold append_string_literal. repeat wp_step. apply wp_increment_position. wp_step.
    eexists. split; [done|]. simpl. wp_step. split; [done|].
    pose proof (at_text_advance _ _ _ Ht') as Ha. split_and!; [|by destruct Hs|done|].
    + by eapply at_text_eq.
    + rewrite Hlit. simpl. rewrite (ss_source _ _ Hs). unfold substr. rewrite (at_drop _ _ Ht).
      replace (position s' - position s)%nat with (length w) by lia. apply take_app_length.
Qed.

Lemma scan_string_value_text w t s :
  at_text (w ++ Character.DoubleQuote :: t) s → forallb plain w = true →
  ends_before (Quoted w) t →
  wp ub scan_string_value (λ token s', token = GraphQlToken.G_StringValue ∧
    at_text t s' ∧ same_source s s' ∧ start_position s' = start_position s ∧
    string_literal s' = w) X s.
Proof.
  intros Ht Hw Hend. unfold scan_string_value. wp_step. eapply wp_any_char; [done|].
  wp_step; [|by apply scan_string_literal_text]. destruct w as [|c w].
  - do 2 wp_step. wp_step. eapply wp_char_after; [done|simpl; lia|]. simpl.
    wp_step; [exfalso; simpl in Hend; lia|]. by apply (scan_string_literal_text []).
  - simpl in *. exfalso. apply andb_prop in Hw as [Hc _]. char_arith.
Qed.

Lemma scan_ellipses_text t s :
  at_text (Character.Dot :: Character.Dot :: t) s →
  wp ub scan_ellipses_after_first_dot
    (λ token s', token = GraphQlToken.Ellipses ∧ s' = advance (advance s)) X s.
Proof.
  intros Ht. pose proof (at_text_advance _ _ _ Ht) as Ht'. unfold scan_ellipses_after_first_dot.
  wp_step. eapply wp_char; [done|]. simpl. wp_step. apply wp_increment_position.
  wp_step. eapply wp_char; [done|]. simpl. wp_step. apply wp_increment_position. by wp_step.
Qed.

Lemma scan_digit_list_text w t s :
  at_text (w ++ t) s → forallb is_digit w = true → stops is_digit t →
  wp ub scan_digit_list (λ _ s', s' = advance_by (length w) s) X s.
Proof.
  intros Ht Hw Hstop. unfold scan_digit_list.
  apply (wp_text_loop _ _ (λ w' _ s', forallb is_digit w' = true ∧ ∃ k,
    length w = (k + length w')%nat ∧ s' = advance_by k s) w t); [done|..].
  - split; [done|]. exists 0%nat. by rewrite advance_by_0.
  - intros c w' [] s' Ht' [[Hc Hw']%andb_prop (k & Hk & ->)]. simpl in *.
    wp_step. eapply wp_char; [done|]. rewrite Hc. wp_step. apply wp_increment_position. wp_step.
    eexists. split_and!; [done|by eapply at_text_advance|done|done|].
    exists (S k). split; [lia|]. unfold advance, advance_by. simpl. by rewrite !Nat.add_succ_r.
  - intros [] s' Ht' [_ (k & Hk & ->)]. simpl in *. rewrite Nat.add_0_r in Hk.
    wp_step. eapply wp_any_char; [done|]. rewrite Hstop. wp_step. eexists. split; [done|congruence].
Qed.

(** The end of a number without fraction or exponent. *)
Lemma number_end t s (Q : GraphQlToken.t → GraphQlScanner → Prop) (m1 m2 : M GraphQlScanner GraphQlToken.t) :
  at_text t s → ends_number t → Q GraphQlToken.IntegerLiteral s →
  wp ub (sw ← current_char;
    if (sw =? Character.Dot)%Z then m1
    else if ((sw =? Character.e) || (sw =? Character.E))%Z then m2
    else mret GraphQlToken.IntegerLiteral) Q X s.
Proof.
  intros Ht [_ Hend] HQ. unfold stops in Hend. wp_step. eapply wp_any_char; [done|].
  wp_step; [exfalso; lia|]. wp_step; [exfalso; lia|]. by wp_step.
Qed.

Lemma scan_number_text w t s :
  at_text (w ++ t) s → forallb is_digit w = true → (nth 0 w 0 =? Character._0)%Z = false →
  ends_number t →
  wp ub scan_number (λ token s', token = GraphQlToken.IntegerLiteral ∧
    s' = advance_by (length w) s) X s.
Proof.
  intros Ht Hw H0 Hend. unfold scan_number. wp_step. unfold scan_integer_part.
  destruct w as [|c w].
  - simpl in *. wp_step. eapply wp_any_char; [done|]. destruct Hend as [Hd Hend]. unfold stops in Hd.
    wp_step. eapply (wp_mono _ _ (λ c s', c = nth 0 t 0%Z ∧ s' = s)).
    { wp_step; [by eapply wp_any_char|by wp_step]. }
    2:{ done. }
    intros c s' [-> ->]. wp_step; [exfalso; char_arith|]. rewrite Hd. simpl. wp_step.
    rewrite advance_by_0. by eapply number_end.
  - simpl in Hw, Ht, H0. apply andb_prop in Hw as [Hc Hw].
    wp_step. eapply wp_char; [done|].
    wp_step. wp_step; [exfalso; char_arith|]. wp_step. wp_step; [congruence|]. rewrite Hc. simpl. wp_step.
    eapply wp_mono; [apply (scan_digit_list_text (c :: w) t); [done|simpl; by rewrite Hc|apply Hend]| |done].
    intros ? s' ->. wp_step. eapply number_end; [|done|done].
    by apply (at_text_advance_by (c :: w)).
Qed.

(** Taking a lexeme: its token, its text, and the text of a string. *)
Definition lexeme_taken (k : bool) (l : lexeme) (t : ustring) (s : GraphQlScanner)
    (token : GraphQlToken.t) (s' : GraphQlScanner) : Prop :=
  token = lexeme_token k l ∧ lexed (lexeme_text l) t s s' ∧
  match l with Quoted w => string_literal s' = w | _ => True end.

Lemma body_lexeme k l t s0 s :
  lexeme_ok l = true → ends_before l t → between (lexeme_text l ++ t) s0 s →
  wp ub (take_next_token_body k true tt)
    (λ r s', ∃ token, r = inr token ∧ lexeme_taken k l t s0 token s') X s.
Proof.
  intros Hl Hend Hb.
  unfold lexeme_taken. destruct l as [[|c w]|c| |c w|w]; simpl in Hl, Hb; try done;
    pose proof (at_text_advance _ _ _ (between_text _ _ _ Hb)) as Ha.
  - apply andb_prop in Hl as [Hc Hw].
    eapply (body_token _ _ _ s0); [exact Hb|char_arith|char_arith|intros ->; char_arith|].
    rewrite punctuation_other by by left.
    do 3 (wp_step; [exfalso; char_arith|]). unfold finish. wp_step.
    eapply wp_mono; [by eapply take_name_text| |done]. intros token s' [-> Hl]. wp_step. eauto.
  - apply bool_decide_eq_true in Hl. destruct (punctuation c) as [token|] eqn:Hp; [|done].
    assert (Hc : is_white_space c = false ∧ is_line_break c = false ∧ c ≠ Character.Hash).
    { unfold punctuation in Hp.
      repeat (case_match; [split_and!; [char_arith|char_arith|intros ->; char_arith]|]). done. }
    destruct Hc as (? & ? & ?). eapply (body_token _ _ _ s0); [exact Hb|done..|].
    rewrite Hp. wp_step. eexists. split; [done|]. split; [simpl; by rewrite Hp|]. split; [|done].
    by apply (between_lexed [c] t _ s).
  - eapply (body_token _ _ _ s0); [exact Hb|done|done|done|].
    rewrite punctuation_other by (do 3 right; by left). simpl. unfold finish. wp_step.
    eapply wp_mono; [by eapply scan_ellipses_text| |done]. intros token s' [-> ->]. wp_step.
    eexists. split; [done|]. split; [done|]. split; [|done].
    apply (between_lexed [Character.Dot; Character.Dot; Character.Dot] t _ s); [done| |done|done].
    by do 2 eapply at_text_advance.
  - apply andb_prop in Hl as [[Hc Hw]%andb_prop H0]. apply negb_true_iff in H0.
    eapply (body_token _ _ _ s0); [exact Hb|char_arith|char_arith|intros ->; char_arith|].
    rewrite punctuation_other by (apply orb_prop in Hc as [Hc|Hc]; [by right; left|];
      apply Z.eqb_eq in Hc; by do 4 right).
    do 2 (wp_step; [exfalso; char_arith|]). wp_step; [|exfalso; char_arith]. unfold finish. wp_step.
    eapply wp_mono; [by eapply (scan_number_text w t)| |done]. intros token s' [-> ->]. wp_step.
    eexists. split; [done|]. split; [done|]. split; [|done].
    apply (between_lexed (c :: w) t _ s); [done|by apply at_text_advance_by|by split|done].
  - eapply (body_token _ _ _ s0); [exact Hb|done|done|done|].
    rewrite punctuation_other by (do 2 right; by left). simpl. unfold finish. wp_step.
    rewrite <- app_assoc in Ha.
    eapply wp_mono; [by eapply (scan_string_value_text w t)| |done].
    intros token s' (-> & Ht' & Hs' & Hst' & Hlit). wp_step.
    eexists. split; [done|]. split; [done|]. split; [|done].
    apply (between_lexed (Character.DoubleQuote :: w ++ [Character.DoubleQuote]) t _ s); try done.
    by destruct Hs'.
Qed.

Lemma take_lexeme k ig l t s :
  ignored ig → lexeme_ok l = true → ends_before l t → at_text (ig ++ lexeme_text l ++ t) s →
  wp ub (take_next_token k true) (lexeme_taken k l t s) X s.
Proof.
  intros Hig Hl Hend Ht. eapply take_next_token_ignored; [done..|].
  intros s' Hb. by apply body_lexeme.
Qed.

(** After the last token, what is left is ignored. *)
Lemma take_end k ig s :
  ignored ig → at_text ig s →
  wp ub (take_next_token k true) (λ token s', token = GraphQlToken.EndOfDocument ∧
    at_text [] s' ∧ same_source s s') X s.
Proof.
  intros Hig Ht. apply (take_next_token_ignored _ _ _ ig []); [done|by rewrite app_nil_r|].
  intros s' [Ht' Hs' _]. pose proof (at_size _ _ Ht'). simpl in *.
  unfold take_next_token_body. do 2 wp_step. wp_step; [|inside; lia]. wp_step. eauto.
Qed.
End lexemes.

(** ** Token streams *)

(** Lexemes, each after some ignored text and before a blank. *)
Fixpoint rendered (l : list (ustring * lexeme)) : ustring :=
  match l with
  | [] => []
  | (ig, x) :: l' => ig ++ lexeme_text x ++ Character.Space :: rendered l'
  end.

Definition renderable (l : list (ustring * lexeme)) : Prop :=
  Forall (λ entry, ignored entry.1 ∧ lexeme_ok entry.2 = true) l.

(** [n] tokens and their texts. *)
Fixpoint take_tokens (n : nat) : M GraphQlScanner (list (GraphQlToken.t * ustring)) :=
  match n with
  | O => mret []
  | S n' =>
      token ← take_next_token false true;
      value ← get_value;
      rest ← take_tokens n';
      mret ((token, value) :: rest)
  end.

Lemma space_ends x t : ends_before x (Character.Space :: t).
Proof. by destruct x as [w|c| |c w|[|c w]]. Qed.

Lemma take_tokens_rendered ub X l ig s :
  renderable l → ignored ig → at_text (ig ++ rendered l) s →
  wp ub (take_tokens (length l)) (λ tokens s',
    tokens = map (λ entry, (lexeme_token false entry.2, lexeme_text entry.2)) l ∧
    ∃ ig', ignored ig' ∧ at_text ig' s') X s.
Proof.
  revert ig s. induction l as [|[ig0 x] l IH]; intros ig s Hl Hig Ht; simpl.
  - wp_step. split; [done|]. exists ig. by rewrite app_nil_r in Ht.
  - apply list.Forall_cons in Hl as [[Hig0 Hx] Hl]. simpl in Hig0, Hx, Ht. rewrite app_assoc in Ht.
    wp_step. eapply wp_mono; [apply (take_lexeme _ _ _ (ig ++ ig0)); [|done|apply space_ends|done]| |done].
    { clear -Hig Hig0. induction Hig as [| | |w l Hw Hl IH]; simpl;
        [done|by constructor|by constructor|]. rewrite <- app_assoc. by constructor. }
    intros token s' (-> & Hlexed & _). wp_step. eapply lexed_get_value; [done|]. wp_step.
    eapply wp_mono; [apply (IH [Character.Space]); [done| |apply Hlexed]| |done].
    { by constructor; [|constructor]. }
    intros tokens s'' [-> Hs'']. wp_step. by split.
Qed.
