(* ===== verification/ScannerProperties.v ===== *)
(** * The theorems about the scanner

    Tokens: termination, bounds and the text of every token; keywords;
    look-ahead and recovery; the positions of diagnostics. *)
From S2P Require Import Prelude Monad Character Cstring Diagnostic StdMap Syntaxes Scanner.
From S2P Require Import ScannerSpec LexerText.

#[local] Arguments u : simpl never.

(** ** Lines *)

(** The line table of a scanner that only took tokens: line one at position
    zero, and an entry for every line up to the cursor. *)
Definition table_ok (s : GraphQlScanner) : Prop :=
  ∃ l, position_to_line_list s = mkPositionToLine 0 1 :: l ∧
    lines_from 0 1 l (position s) (line s).

Lemma table_ok_new source_ : table_ok (new_GraphQlScanner source_).
Proof. by exists []. Qed.

Lemma table_ok_takes s s' : table_ok s → takes s s' → table_ok s'.
Proof.
  intros (l & Hl & Hf) Ht. destruct (takes_lines _ _ Ht) as (l' & Hl' & Hf').
  exists (l ++ l'). split; [by rewrite Hl', Hl|]. by eapply lines_from_app.
Qed.

Lemma table_ok_sorted s : table_ok s → sorted_table (position_to_line_list s).
Proof. intros (l & Hl & Hf). by exists l, (position s), (line s). Qed.

(** ** Tokens *)




Definition example_lexemes : list (ustring * lexeme) :=
  [([Character.NewLine], Word (u "type")); ([], Word (u "A_1"));
   (Character.Hash :: u " x" ++ [Character.NewLine], Punctuator Character.OpenBrace);
   ([], Integer Character.Minus (u "10")); ([], Spread); ([], Quoted (u "a b"))].


(** ** Keywords *)

(** The reserved words. *)
Definition keywords : list (ustring * GraphQlToken.t) :=
  [(u "ID", GraphQlToken.IDKeyword); (u "on", GraphQlToken.OnKeyword);
   (u "Int", GraphQlToken.IntKeyword); (u "enum", GraphQlToken.EnumKeyword);
   (u "true", GraphQlToken.TrueKeyword); (u "type", GraphQlToken.TypeKeyword);
   (u "null", GraphQlToken.NullKeyword); (u "query", GraphQlToken.QueryKeyword);
   (u "false", GraphQlToken.FalseKeyword); (u "Float", GraphQlToken.FloatKeyword);
   (u "input", GraphQlToken.InputKeyword); (u "union", GraphQlToken.UnionKeyword);
   (u "String", GraphQlToken.StringKeyword); (u "schema", GraphQlToken.SchemaKeyword);
   (u "Boolean", GraphQlToken.BooleanKeyword); (u "mutation", GraphQlToken.MutationKeyword);
   (u "fragment", GraphQlToken.FragmentKeyword); (u "interface", GraphQlToken.InterfaceKeyword);
   (u "directive", GraphQlToken.DirectiveKeyword); (u "implements", GraphQlToken.ImplementsKeyword);
   (u "subscription", GraphQlToken.SubscriptionKeyword)].

Lemma strcmp_eq_true value k literal :
  forallb is_ascii value = true → strcmp_eq value k literal = true → drop k value = u literal.
Proof.
  intros Hv Hs%bool_decide_eq_true. rewrite c_string_ascii in Hs; [done|].
  by apply forallb_drop.
Qed.

(** A branch of the [switch]: the length, the characters it tested and the
    comparison of the rest give the word. *)
Ltac switch_branch Hv :=
  repeat match goal with
  | H : (byte_at _ _ =? _)%Z = true |- _ => apply Z.eqb_eq in H
  | H : (byte_at _ _ =? _)%Z = false |- _ => clear H
  | H : strcmp_eq _ _ _ = true |- _ => apply (strcmp_eq_true _ _ _ Hv) in H
  end;
  repeat match goal with
  | H : drop (S _) ?l = _ |- _ => is_var l; destruct l; [discriminate H|]; simpl in H
  | H : drop 0 _ = _ |- _ => rewrite drop_0 in H
  end; unfold byte_at in *; simpl in *; simplify_eq/=.

(** The nested [switch] on the length and the first characters of a word
    recognises exactly the reserved words. *)
Theorem keyword_switch_table value token :
  forallb is_ascii value = true →
  keyword_switch (length value) value = Some token ↔ (value, token) ∈ keywords.
Proof.
  intros Hv. split.
  - unfold keyword_switch. intros Hk. repeat (case_match; try discriminate Hk); switch_branch Hv.
    all: apply (bool_decide_eq_true_1 _); vm_compute; reflexivity.
  - intros Hin. assert (Hall : Forall (λ entry, keyword_switch (length entry.1) entry.1 = Some entry.2)
      keywords) by (repeat (apply list.Forall_cons; split; [reflexivity|]); by apply list.Forall_nil).
    exact (Forall_elem _ _ _ Hall Hin).
Qed.

Lemma keyword_switch_table_witness :
  keyword_switch 5 (u "query") = Some GraphQlToken.QueryKeyword ↔
    (u "query", GraphQlToken.QueryKeyword) ∈ keywords.
Proof. exact (keyword_switch_table (u "query") GraphQlToken.QueryKeyword eq_refl). Defined.

(** The names of the locations a directive can be declared on. *)
Definition directive_locations : list (ustring * DirectiveLocation.t) :=
  [(u "ENUM", DirectiveLocation.ENUM); (u "QUERY", DirectiveLocation.QUERY);
   (u "FIELD", DirectiveLocation.FIELD); (u "UNION", DirectiveLocation.UNION);
   (u "SCHEMA", DirectiveLocation.SCHEMA); (u "SCALAR", DirectiveLocation.SCALAR);
   (u "OBJECT", DirectiveLocation.OBJECT); (u "MUTATION", DirectiveLocation.MUTATION);
   (u "INTERFACE", DirectiveLocation.INTERFACE); (u "ENUM_VALUE", DirectiveLocation.ENUM_VALUE);
   (u "INPUT_OBJECT", DirectiveLocation.INPUT_OBJECT);
   (u "SUBSCRIPTION", DirectiveLocation.SUBSCRIPTION);
   (u "FRAGMENT_SPREAD", DirectiveLocation.FRAGMENT_SPREAD);
   (u "INLINE_FRAGMENT", DirectiveLocation.INLINE_FRAGMENT);
   (u "FIELD_DEFINITION", DirectiveLocation.FIELD_DEFINITION);
   (u "ARGUMENT_DEFINITION", DirectiveLocation.ARGUMENT_DEFINITION);
   (u "FRAGMENT_DEFINITION", DirectiveLocation.FRAGMENT_DEFINITION);
   (u "INPUT_FIELD_DEFINITION", DirectiveLocation.INPUT_FIELD_DEFINITION)].

(** [value] is [name], but for the second letter of [SCHEMA] and [SCALAR],
    which the [switch] does not look at. *)
Definition read_as (value name : ustring) : Prop :=
  value = name ∨
  (name = u "SCHEMA" ∨ name = u "SCALAR") ∧ ∃ c, value = <[1%nat := c]> name.

(** The [switch] of [get_directive_from_value] recognises exactly the
    directive locations, and besides them [SCHEMA] and [SCALAR] with another
    second letter. *)
Theorem get_directive_from_value_table value location :
  forallb is_ascii value = true → location ≠ DirectiveLocation.Unknown →
  get_directive_from_value (length value) value = location ↔
    ∃ name, (name, location) ∈ directive_locations ∧ read_as value name.
Proof.
  intros Hv Hloc. split.
  - unfold get_directive_from_value. intros Hk.
    repeat (case_match; try congruence); switch_branch Hv.
    all: first
      [ match goal with |- ∃ name, (name, DirectiveLocation.SCHEMA) ∈ _ ∧ _ => idtac end;
        exists (u "SCHEMA"); split; [|right; split; [by left|by eexists]]
      | match goal with |- ∃ name, (name, DirectiveLocation.SCALAR) ∈ _ ∧ _ => idtac end;
        exists (u "SCALAR"); split; [|right; split; [by right|by eexists]]
      | eexists; split; [|by left] ].
    all: apply (bool_decide_eq_true_1 _); vm_compute; reflexivity.
  - intros (name & Hin & Hread).
    assert (Hall : Forall (λ entry, get_directive_from_value (length entry.1) entry.1 = entry.2)
      directive_locations)
      by (repeat (apply list.Forall_cons; split; [reflexivity|]); by apply list.Forall_nil).
    pose proof (Forall_elem _ _ _ Hall Hin) as Hname. simpl in Hname. rewrite <- Hname.
    by destruct Hread as [->|[[->| ->] [c ->]]].
Qed.

(** [SxHEMA] is taken for [SCHEMA]. *)
Lemma get_directive_from_value_table_witness :
  get_directive_from_value 6 (u "SxHEMA") = DirectiveLocation.SCHEMA ↔
    ∃ name, (name, DirectiveLocation.SCHEMA) ∈ directive_locations ∧ read_as (u "SxHEMA") name.
Proof.
  apply (get_directive_from_value_table (u "SxHEMA") DirectiveLocation.SCHEMA eq_refl). discriminate.
Defined.

(** ** Look-ahead and recovery *)

(** A look-ahead for a token that is not there leaves the cursor, the start
    of the token and the saved cursors as they were; one that succeeds is the
    token itself taken. *)
Theorem try_scan_restores token k w s :
  scanner_ok s →
  wp (ends_with_cr s) (try_scan token k w)
    (λ result s', source s' = source s ∧
      if decide (result = token) then
        (position s < position s')%nat
        ∨ token = GraphQlToken.EndOfDocument ∧ (size s ≤ position s')%nat
      else cursor_of s' = cursor_of s ∧ saved_text_cursors s' = saved_text_cursors s)
    (λ _ _, False) s.
Proof.
  intros Hok. eapply wp_mono; [by apply (try_scan_spec (λ _ _, False))| |done].
  intros result s' H. cbv beta in H. destruct (decide (result = token)).
  - destruct H as [Ht Hp]. split; [exact (takes_source _ _ Ht)|exact Hp].
  - destruct H as [Hs _ Hc Hsv _]. by split_and!.
Qed.

Lemma try_scan_restores_witness :
  let s := new_GraphQlScanner (u " type A") in
  wp (ends_with_cr s) (try_scan GraphQlToken.EnumKeyword false true)
    (λ result s', source s' = source s ∧
      if decide (result = GraphQlToken.EnumKeyword) then
        (position s < position s')%nat
        ∨ GraphQlToken.EnumKeyword = GraphQlToken.EndOfDocument ∧ (size s ≤ position s')%nat
      else cursor_of s' = cursor_of s ∧ saved_text_cursors s' = saved_text_cursors s)
    (λ _ _, False) s.
Proof.
  intros s. apply (try_scan_restores GraphQlToken.EnumKeyword false true s).
  split; [reflexivity|simpl; lia|simpl; lia].
Defined.

(** Recovery terminates.  [skip_to] ends in front of one of the tokens it
    looks for, or at the end of the document. *)
Theorem skip_to_finds tokens s :
  scanner_ok s →
  wp (ends_with_cr s) (skip_to tokens)
    (λ token s', (token = GraphQlToken.EndOfDocument ∨ token ∈ tokens) ∧
      source s' = source s ∧ (position s ≤ position s')%nat ∧ scanner_ok s')
    (λ _ _, False) s.
Proof.
  intros Hok. eapply wp_mono; [by apply (skip_to_spec (λ _ _, False))| |done].
  intros token s' [Ha Ht]. split_and!; [done|exact (adv_source _ _ Ha)|exact (adv_le _ _ Ha)|].
  by eapply advances_ok.
Qed.

Lemma skip_to_finds_witness :
  let s := new_GraphQlScanner (u "a b type") in
  wp (ends_with_cr s) (skip_to [GraphQlToken.TypeKeyword])
    (λ token s', (token = GraphQlToken.EndOfDocument ∨ token ∈ [GraphQlToken.TypeKeyword]) ∧
      source s' = source s ∧ (position s ≤ position s')%nat ∧ scanner_ok s')
    (λ _ _, False) s.
Proof.
  intros s. apply (skip_to_finds [GraphQlToken.TypeKeyword] s).
  split; [reflexivity|simpl; lia|simpl; lia].
Defined.

(** ** Locations *)

Lemma lines_from_length lo n l hi m : lines_from lo n l hi m → (lo + length l ≤ hi)%nat.
Proof.
  revert lo n. induction l as [|e l IH]; intros lo n; simpl; [lia|].
  intros (? & _ & Hl). apply IH in Hl. lia.
Qed.

Lemma table_ok_length s :
  scanner_ok s → table_ok s → (length (position_to_line_list s) ≤ S (S (size s)))%nat.
Proof.
  intros [_ Hp _] (l & -> & Hl). apply lines_from_length in Hl. simpl. lia.
Qed.

(** C22: the binary search over the line table is exact: for a scanner that
    only took tokens, the location of a node is the line that contains its
    start, the offset in that line plus one, and the node's length. *)
Theorem get_token_location_exact x s :
  scanner_ok s → table_ok s → (start x < size s)%nat → (Z.of_nat (size s) < 2 ^ 63)%Z →
  wp False (get_token_location x)
    (λ location s', s' = s ∧ ∃ e, line_of (position_to_line_list s) (start x) e ∧
      location = mkLocation (ptl_line e) (start x - ptl_position e + 1) (end_ x - start x) false)
    (λ _ _, False) s.
Proof.
  intros Hok Htab Hx Hsz. pose proof (table_ok_sorted _ Htab) as Hs.
  pose proof (table_ok_length _ Hok Htab) as Hlen.
  destruct (line_of_exists _ (start x) Hs) as [e He].
  destruct (line_of_index _ _ _ Hs He) as (k & Hk & Hspec). pose proof (lookup_lt_Some _ _ _ Hk).
  unfold get_token_location. do 3 wp_step.
  eapply wp_mono; [by apply (search_for_line_finds s _ _ _ _ e k); try done; lia| |done].
  intros location s' [-> ->]. wp_step. split; [done|]. by exists e.
Qed.

(** The scanner after the first [n] tokens of a source. *)
Definition after_tokens (n : nat) (source_ : ustring) : GraphQlScanner :=
  match take_tokens n (new_GraphQlScanner source_) with
  | Ok _ s => s
  | _ => new_GraphQlScanner source_
  end.

Definition two_lines : ustring := u "type" ++ [Character.NewLine] ++ u "A b".

Lemma get_token_location_exact_witness :
  let s := after_tokens 2 two_lines in
  wp False (get_token_location (new_Syntax S_Name 7 8))
    (λ location s', s' = s ∧ ∃ e, line_of (position_to_line_list s) 7 e ∧
      location = mkLocation (ptl_line e) (7 - ptl_position e + 1) 1 false)
    (λ _ _, False) s.
Proof.
  intros s. apply (get_token_location_exact (new_Syntax S_Name 7 8) s).
  - split; vm_compute; [reflexivity|lia|lia].
  - exists [mkPositionToLine 5 2]. split; [vm_compute; reflexivity|]. vm_compute. lia.
  - vm_compute. lia.
  - vm_compute. reflexivity.
Defined.

(** ** Numbers *)

(** A digit followed by a zero is an integer literal of its own, even when
    more digits follow: the result of [scan_integer_part], which has seen them,
    is dropped.  So [100] is the two literals [10] and [0]. *)
Theorem integer_literal_split d t s :
  at_text (d :: Character._0 :: t) s → is_digit d = true →
  stops (λ c, (c =? Character.Dot) || (c =? Character.e) || (c =? Character.E))%Z t →
  wp False (take_next_token false true)
    (λ token s', token = GraphQlToken.IntegerLiteral ∧ lexed [d; Character._0] t s s')
    (λ _ _, False) s.
Proof.
  intros Ht Hd Hstop. apply (take_next_token_ignored _ _ _ [] (d :: Character._0 :: t));
    [exact ignored_nil|done|].
  intros s' Hb. pose proof (at_text_advance _ _ _ (between_text _ _ _ Hb)) as Ha.
  pose proof (at_text_advance _ _ _ Ha) as Ha'.
  eapply (body_token _ _ _ _ _ s); [exact Hb|char_arith|char_arith|intros ->; char_arith|].
  rewrite punctuation_other by (right; by left).
  do 2 (wp_step; [exfalso; char_arith|]). wp_step; [|exfalso; char_arith].
  unfold finish, scan_number, scan_integer_part. do 3 wp_step. eapply wp_char; [done|]. simpl.
  do 2 wp_step. wp_step; [|done]. wp_step. apply wp_increment_position. wp_step. eapply wp_any_char; [done|].
  unfold stops in Hstop. wp_step; wp_step; wp_step; (eapply wp_any_char; [done|]).
  all: wp_step; [exfalso; lia|]; wp_step; [exfalso; lia|]; repeat wp_step.
  all: eexists; split; [done|]; split; [done|].
  all: by apply (between_lexed [d; Character._0] t _ s').
Qed.

Lemma integer_literal_split_witness :
  wp False (take_next_token false true)
    (λ token s', token = GraphQlToken.IntegerLiteral ∧
      lexed (u "10") (u "0") (new_GraphQlScanner (u "100")) s')
    (λ _ _, False) (new_GraphQlScanner (u "100")).
Proof.
  apply (integer_literal_split Character._1 (u "0") (new_GraphQlScanner (u "100")));
    [|reflexivity|reflexivity].
  split; [split; simpl; lia|reflexivity|reflexivity].
Defined.
