(* ===== verification/SchemaText.v ===== *)
(** * The text of schemas

    Type definitions as data, their lexemes, and what it means that the heap of the
    schema parser describes them. *)
From S2P Require Import Prelude Monad Character Cstring Diagnostic StdMap Syntaxes.
From S2P Require Import TextWriter Scanner Parser Schema SchemaChecks LexerText ScannerProperties.

#[local] Arguments u : simpl never.

(** ** Texts of lexemes *)

(** Lexemes with white space, line feeds and comments before each and at the end,
    where something has to be between them. *)
Inductive rendering : list lexeme → ustring → Prop :=
  | rendering_end ig : ignored ig → rendering [] ig
  | rendering_next ig x ls t :
      ignored ig → lexeme_ok x = true → ends_before x t → rendering ls t →
      rendering (x :: ls) (ig ++ lexeme_text x ++ t).

(** ** Definitions *)

Inductive type_base :=
  | IntType | FloatType | StringType | BooleanType | IDType
  | NamedTypeOf (name : ustring).

(** A type annotation; the modifier of a list, when it is one, is that of the list. *)
Record type_ref := mkTypeRef {
  ref_base : type_base;
  ref_non_null : bool;
  ref_list : option bool
}.

Definition argument_def : Type := ustring * type_ref.

Record field_def := mkFieldDef {
  def_name : ustring;
  def_arguments : list argument_def;
  def_type : type_ref
}.

Inductive definition :=
  | ObjectDef (name : ustring) (implements : list ustring) (fields : list field_def)
  | InterfaceDef (name : ustring) (fields : list field_def)
  | InputDef (name : ustring) (fields : list argument_def)
  | UnionDef (name first : ustring) (rest : list ustring)
  | EnumDef (name : ustring) (values : list ustring)
  | SchemaDef (roots : list (RootType * ustring)).

(** The name and the kind of the symbol a definition declares. *)
Definition definition_symbol (d : definition) : option (ustring * SymbolKind) :=
  match d with
  | ObjectDef name _ _ => Some (name, SL_Object)
  | InterfaceDef name _ => Some (name, SL_Interface)
  | InputDef name _ => Some (name, SL_InputObject)
  | UnionDef name _ _ => Some (name, SL_Union)
  | EnumDef name _ => Some (name, SL_Enum)
  | SchemaDef _ => None
  end.

Definition defined_names (doc : list definition) : list ustring :=
  map fst (omap definition_symbol doc).

(** ** Printing *)

Abbreviation Punct := Punctuator.

Definition base_text (b : type_base) : ustring :=
  match b with
  | IntType => u "Int"
  | FloatType => u "Float"
  | StringType => u "String"
  | BooleanType => u "Boolean"
  | IDType => u "ID"
  | NamedTypeOf name => name
  end.

Definition bang (b : bool) : list lexeme := if b then [Punct Character.Exclamation] else [].

Definition type_lexemes (t : type_ref) : list lexeme :=
  match ref_list t with
  | None => Word (base_text (ref_base t)) :: bang (ref_non_null t)
  | Some non_null_list =>
      Punct Character.OpenBracket :: Word (base_text (ref_base t)) :: bang (ref_non_null t)
        ++ Punct Character.CloseBracket :: bang non_null_list
  end.

Definition argument_lexemes (a : argument_def) : list lexeme :=
  Word a.1 :: Punct Character.Colon :: type_lexemes a.2.

(** Parentheses without arguments are not printed. *)
Definition arguments_lexemes (l : list argument_def) : list lexeme :=
  match l with
  | [] => []
  | _ => Punct Character.OpenParen :: flat_map argument_lexemes l ++ [Punct Character.CloseParen]
  end.

Definition field_lexemes (f : field_def) : list lexeme :=
  Word (def_name f) :: arguments_lexemes (def_arguments f)
    ++ Punct Character.Colon :: type_lexemes (def_type f).

(** The fields and the closing brace. *)
Definition fields_lexemes (l : list field_def) : list lexeme :=
  flat_map field_lexemes l ++ [Punct Character.CloseBrace].

Definition separated_lexemes (separator : char32) (l : list ustring) : list lexeme :=
  flat_map (λ n, [Punct separator; Word n]) l.

(** The interfaces up to the opening brace. *)
Definition implements_lexemes (l : list ustring) : list lexeme :=
  match l with
  | [] => []
  | n :: l' => Word (u "implements") :: Word n :: separated_lexemes Character.Ampersand l'
  end.

Definition root_lexemes (r : RootType * ustring) : list lexeme :=
  [Word (Schema.root_name r.1); Punct Character.Colon; Word r.2].

Definition definition_keyword (d : definition) : ustring :=
  match d with
  | ObjectDef _ _ _ => u "type"
  | InterfaceDef _ _ => u "interface"
  | InputDef _ _ => u "input"
  | UnionDef _ _ _ => u "union"
  | EnumDef _ _ => u "enum"
  | SchemaDef _ => u "schema"
  end.

(** What follows the keyword. *)
Definition definition_rest (d : definition) : list lexeme :=
  match d with
  | ObjectDef name implements fields =>
      Word name :: implements_lexemes implements
        ++ Punct Character.OpenBrace :: fields_lexemes fields
  | InterfaceDef name fields => Word name :: Punct Character.OpenBrace :: fields_lexemes fields
  | InputDef name fields =>
      Word name :: Punct Character.OpenBrace
        :: flat_map argument_lexemes fields ++ [Punct Character.CloseBrace]
  | UnionDef name first rest =>
      Word name :: Punct Character.Equal :: Word first :: separated_lexemes Character.Pipe rest
  | EnumDef name values =>
      Word name :: Punct Character.OpenBrace :: map Word values ++ [Punct Character.CloseBrace]
  | SchemaDef roots =>
      Punct Character.OpenBrace :: flat_map root_lexemes roots ++ [Punct Character.CloseBrace]
  end.

Definition definition_lexemes (d : definition) : list lexeme :=
  Word (definition_keyword d) :: definition_rest d.

Definition document_lexemes : list definition → list lexeme := flat_map definition_lexemes.

(** ** What can be printed *)

(** A name that is no keyword. *)
Definition plain_word (w : ustring) : Prop :=
  lexeme_ok (Word w) = true ∧ lexeme_token false (Word w) = GraphQlToken.G_Name.

Definition any_word (w : ustring) : Prop := lexeme_ok (Word w) = true.

Definition type_ok (t : type_ref) : Prop :=
  match ref_base t with NamedTypeOf name => plain_word name | _ => True end.

(** Names of fields and arguments, which are distinct, and may be keywords. *)
Definition arguments_ok (l : list argument_def) : Prop :=
  Forall (λ a, any_word a.1 ∧ type_ok a.2) l ∧ NoDup (map fst l).

Definition fields_ok (l : list field_def) : Prop :=
  l ≠ [] ∧ Forall (λ f, any_word (def_name f) ∧ arguments_ok (def_arguments f) ∧ type_ok (def_type f)) l
  ∧ NoDup (map def_name l).

(** A value of an enum is a name or a keyword but those of other values. *)
Definition enum_value_ok (w : ustring) : Prop :=
  lexeme_ok (Word w) = true ∧ is_valid_enum_value (lexeme_token false (Word w)) = true.

Definition definition_ok (d : definition) : Prop :=
  match d with
  | ObjectDef name implements fields =>
      any_word name ∧ Forall plain_word implements ∧ fields_ok fields
  | InterfaceDef name fields => any_word name ∧ fields_ok fields
  | InputDef name fields => plain_word name ∧ fields ≠ [] ∧ arguments_ok fields
  | UnionDef name first rest => plain_word name ∧ plain_word first ∧ Forall plain_word rest
  | EnumDef name values => plain_word name ∧ values ≠ [] ∧ Forall enum_value_ok values
  | SchemaDef roots => Forall (λ r, plain_word r.2) roots ∧ NoDup (map fst roots)
  end.

(** What is implemented is an interface, where it is defined at all. *)
Definition implements_interfaces (doc : list definition) (d : definition) : Prop :=
  match d with
  | ObjectDef _ implements _ =>
      Forall (λ x, x.1 ∈ implements → x.2 = SL_Interface) (omap definition_symbol doc)
  | _ => True
  end.

Definition document_ok (doc : list definition) : Prop :=
  Forall definition_ok doc ∧ NoDup (defined_names doc) ∧ Forall (implements_interfaces doc) doc.

#[export] Instance plain_word_dec w : Decision (plain_word w).
Proof. unfold plain_word. apply _. Defined.

#[export] Instance any_word_dec w : Decision (any_word w).
Proof. unfold any_word. apply _. Defined.

#[export] Instance type_ok_dec t : Decision (type_ok t).
Proof. unfold type_ok. destruct (ref_base t); apply _. Defined.

#[export] Instance arguments_ok_dec l : Decision (arguments_ok l).
Proof. unfold arguments_ok. apply _. Defined.

#[export] Instance fields_ok_dec l : Decision (fields_ok l).
Proof. unfold fields_ok. destruct l; apply _. Defined.

#[export] Instance enum_value_ok_dec w : Decision (enum_value_ok w).
Proof. unfold enum_value_ok. apply _. Defined.

#[export] Instance definition_ok_dec d : Decision (definition_ok d).
Proof. destruct d as [| |? []| |? []|]; simpl; apply _. Defined.

#[export] Instance implements_interfaces_dec doc d : Decision (implements_interfaces doc d).
Proof.
  destruct d; simpl; [|apply _..]. apply list.Forall_dec. intros x. apply impl_dec; apply _.
Defined.

#[export] Instance document_ok_dec doc : Decision (document_ok doc).
Proof. unfold document_ok. apply _. Defined.

(** ** Printing with a space behind each lexeme *)

Definition spaced (ls : list lexeme) : ustring :=
  flat_map (λ x, lexeme_text x ++ [Character.Space]) ls.

Lemma rendering_spaced ls : forallb lexeme_ok ls = true → rendering ls (spaced ls).
Proof.
  intros Hls. cut (∀ ig, ignored ig → rendering ls (ig ++ spaced ls)); [intros H; by apply (H []), ignored_nil|].
  induction ls as [|x ls IH]; intros ig Hig; simpl.
  - rewrite app_nil_r. by constructor.
  - simpl in Hls. apply andb_true_iff in Hls as [Hx Hls]. rewrite <- (assoc_L (++)).
    constructor; [done|done|apply space_ends|]. apply (IH Hls [Character.Space]). by repeat constructor.
Qed.

(** ** What the heap describes *)

(** A map with an entry for every element of a list, under its key, and no other. *)
Definition map_of {A V} (key : A → ustring) (R : A → V → Prop) (l : list A)
    (m : std_map ustring V) : Prop :=
  sorted m ∧ ∀ k, match find k m with
  | Some v => ∃ a, a ∈ l ∧ key a = k ∧ R a v
  | None => k ∉ map key l
  end.

Definition base_is (b : type_base) (t : Type_) : Prop :=
  match b with
  | IntType => type t = T_Int
  | FloatType => type t = T_Float
  | StringType => type t = T_String
  | BooleanType => type t = T_Boolean
  | IDType => type t = T_ID
  | NamedTypeOf name => type t = T_Object ∧ identifier <$> type_name t = Some name
  end.

Definition type_is (input : bool) (r : type_ref) (t : Type_) : Prop :=
  base_is (ref_base r) t ∧ is_non_null t = ref_non_null r ∧
  is_list_type t = bool_decide (is_Some (ref_list r)) ∧
  is_non_null_list t = default false (ref_list r) ∧ in_input_location t = input.

Section described.
Context (h : list Node).

Definition type_at (input : bool) (r : type_ref) (p : ptr) : Prop :=
  ∃ t, h !! p = Some (NType t) ∧ type_is input r t.

Definition argument_is (a : argument_def) (v : InputValueDefinition) : Prop :=
  identifier (ivd_name v) = a.1 ∧ ∃ p, ivd_type v = Some p ∧ type_at true a.2 p.

Definition field_is (f : field_def) (v : FieldDefinition) : Prop :=
  identifier (Syntaxes.fd_name v) = def_name f ∧ type_at false (def_type f) (fd_type v) ∧
  map_of fst argument_is (def_arguments f) (fd_arguments v).

Definition input_field_is (a : argument_def) (v : InputFieldDefinition) : Prop :=
  identifier (ifd_name v) = a.1 ∧ type_at true a.2 (ifd_type v).

Definition has_fields (l : list field_def) (o : ObjectLike) : Prop :=
  ∃ m, fields o = Some m ∧ map_of def_name field_is l m.

Definition named (n : ustring) (v : Name) : Prop := identifier v = n.

Definition implements_is (l : list ustring) (o : ObjectLike) : Prop :=
  match l with
  | [] => object_implementations o = None
  | _ => ∃ i, object_implementations o = Some i ∧ map_of id named l (implementations i)
  end.

(** The fields of an input object whose type is not nullable. *)
Definition is_required (a : argument_def) : bool :=
  ref_non_null a.2 || default false (ref_list a.2).

Definition body_is (d : definition) (b : Body) : Prop :=
  match d, b with
  | ObjectDef _ implements fields, BObject o => implements_is implements o ∧ has_fields fields o
  | InterfaceDef _ fields, BInterface o => has_fields fields o
  | InputDef _ fields, BInputObject o =>
      required_fields o = map fst (base.filter is_required fields) ∧
      ∃ m, io_fields o = Some m ∧ map_of fst input_field_is fields m
  | UnionDef _ first rest, BUnion v => map_of id named (first :: rest) (members v)
  | EnumDef _ values, BEnum e => map_of id (λ n v, named n (evd_name v)) values (enum_values e)
  | SchemaDef roots, BSchema s =>
      ∀ r, match schema_root r s with
      | Some n => (r, identifier n) ∈ roots
      | None => r ∉ map fst roots
      end
  | _, _ => False
  end.

Definition describes (p : ptr) (d : definition) : Prop :=
  ∃ decl, h !! p = Some (NDecl decl) ∧
    identifier <$> decl_name decl = fst <$> definition_symbol d ∧
    kind (decl_syntax decl) = body_kind (body decl) ∧ body_is d (body decl).
End described.

(** *** References *)

(** The names of types in the order they are read, with whether they are of
    arguments or of fields of input objects. *)
Definition type_references (input : bool) (r : type_ref) : list (ustring * bool) :=
  match ref_base r with NamedTypeOf n => [(n, input)] | _ => [] end.

Definition arguments_references : list argument_def → list (ustring * bool) :=
  flat_map (λ a, type_references true a.2).

Definition fields_references : list field_def → list (ustring * bool) :=
  flat_map (λ f, arguments_references (def_arguments f) ++ type_references false (def_type f)).

Definition definition_references (d : definition) : list (ustring * bool) :=
  match d with
  | ObjectDef _ _ fields | InterfaceDef _ fields => fields_references fields
  | InputDef _ fields => arguments_references fields
  | _ => []
  end.

Definition reference_is (h : list Node) (p : ptr) (r : ustring * bool) : Prop :=
  ∃ t, h !! p = Some (NType t) ∧ type t = T_Object ∧ identifier <$> type_name t = Some r.1 ∧
    in_input_location t = r.2 ∧ type_parent t = None.

(** Every type with a name is in the list of references. *)
Definition covered (s : GraphQlSchema) : Prop :=
  ∀ p t, heap s !! p = Some (NType t) → type t = T_Object → p ∈ forward_type_references s.

(** ** Growing maps and heaps *)

Lemma map_of_nil {A V} (key : A → ustring) (R : A → V → Prop) : map_of key R [] [].
Proof. split; [done|]. intros k. by apply not_elem_of_nil. Qed.

Lemma map_of_mono {A V} (key : A → ustring) (R R' : A → V → Prop) l m :
  (∀ a v, R a v → R' a v) → map_of key R l m → map_of key R' l m.
Proof.
  intros HR [Hs Hm]. split; [done|]. intros k. specialize (Hm k). destruct (find k m) as [v|]; [|done].
  destruct Hm as (a & ? & ? & ?). exists a. auto.
Qed.

(** An element whose key is there already does not matter. *)
Lemma map_of_emplace {A V} (key : A → ustring) (R : A → V → Prop) l m a v :
  map_of key R l m → R a v → map_of key R (l ++ [a]) (emplace (key a) v m).
Proof.
  intros [Hs Hm] Ha. split; [by apply sorted_emplace|]. intros k. rewrite find_emplace.
  pose proof (Hm k) as Hk. pose proof (Hm (key a)) as Hka. case_decide as E.
  - subst. destruct (find (key a) m) as [v'|]; simpl.
    + destruct Hka as (a' & Hin & Hkey & HR). exists a'. rewrite elem_of_app. auto.
    + exists a. rewrite elem_of_app, list_elem_of_singleton. auto.
  - destruct (find k m) as [v'|].
    + destruct Hk as (a' & Hin & Hkey & HR). exists a'. rewrite elem_of_app. auto.
    + rewrite map_app, elem_of_app. intros [?|?%list_elem_of_singleton]; auto.
Qed.

Lemma map_of_absent {A V} (key : A → ustring) (R : A → V → Prop) l m k :
  map_of key R l m → k ∉ map key l → contains k m = false.
Proof.
  intros [_ Hm] Hk. unfold contains. specialize (Hm k). destruct (find k m) as [v|]; [|done].
  destruct Hm as (a & Hin & <- & _). destruct Hk. apply list_elem_of_In, in_map.
  by apply list_elem_of_In.
Qed.

Lemma map_of_entry {A V} (key : A → ustring) (R : A → V → Prop) l m k v :
  map_of key R l m → (k, v) ∈ m → ∃ a, a ∈ l ∧ key a = k ∧ R a v.
Proof.
  intros [Hs Hm] Hin. specialize (Hm k). by rewrite (sorted_elem_find None k v m Hs Hin) in Hm.
Qed.

(** Where the keys are distinct, an element is what its key is mapped to. *)
Lemma map_of_find {A V} (key : A → ustring) (R : A → V → Prop) l m a :
  map_of key R l m → NoDup (map key l) → a ∈ l → ∃ v, find (key a) m = Some v ∧ R a v.
Proof.
  intros [_ Hm] Hnodup Ha. specialize (Hm (key a)).
  assert (Hk : ∀ b, b ∈ l → key b ∈ map key l)
    by (intros b Hb; apply list_elem_of_In, in_map; by apply list_elem_of_In).
  destruct (find (key a) m) as [v|]; [|by destruct Hm; apply Hk].
  exists v. split; [done|]. destruct Hm as (b & Hb & Hkey & HR).
  cut (b = a); [by intros <-|]. clear -Hnodup Ha Hb Hkey.
  apply list_elem_of_lookup in Ha as [i Hi]. apply list_elem_of_lookup in Hb as [j Hj].
  assert (i = j) as <-; [|congruence].
  apply (list.NoDup_lookup (map key l) i j (key a)); [done|..].
  - by rewrite list_lookup_fmap, Hi.
  - rewrite list_lookup_fmap, Hj. simpl. by rewrite Hkey.
Qed.

(** The types of a heap stay. *)
Definition types_kept (h h' : list Node) : Prop :=
  ∀ p t, h !! p = Some (NType t) → h' !! p = Some (NType t).

#[export] Instance types_kept_preorder : PreOrder types_kept.
Proof. split; [by intros h p t|]. intros h h' h'' H H' p t Hp. by apply H', H. Qed.

Lemma types_kept_app h h' : types_kept h (h ++ h').
Proof. intros p t Hp. by apply lookup_app_l_Some. Qed.

Lemma types_kept_decl h d d' h' : types_kept (h ++ NDecl d :: h') (h ++ NDecl d' :: h').
Proof.
  intros p t Hp. destruct (decide (p < length h)%nat).
  - rewrite lookup_app_l in * by done. done.
  - rewrite lookup_app_r in * by lia. by destruct (p - length h)%nat.
Qed.

Lemma reference_is_kept h h' p r : types_kept h h' → reference_is h p r → reference_is h' p r.
Proof. intros Hk (t & Hp & Ht). exists t. auto. Qed.

Lemma type_at_kept h h' input r p : types_kept h h' → type_at h input r p → type_at h' input r p.
Proof. intros Hk (t & Hp & Ht). exists t. auto. Qed.

Lemma argument_is_kept h h' a v : types_kept h h' → argument_is h a v → argument_is h' a v.
Proof. intros Hk (Hn & p & Hp & Ht). split; [done|]. exists p. eauto using type_at_kept. Qed.

Lemma field_is_kept h h' f v : types_kept h h' → field_is h f v → field_is h' f v.
Proof.
  intros Hk (Hn & Ht & Ha). split_and!; [done|by eapply type_at_kept|].
  eapply map_of_mono; [|exact Ha]. intros ??. by apply argument_is_kept.
Qed.

Lemma input_field_is_kept h h' a v : types_kept h h' → input_field_is h a v → input_field_is h' a v.
Proof. intros Hk (Hn & Ht). split; [done|by eapply type_at_kept]. Qed.

Lemma has_fields_kept h h' l o : types_kept h h' → has_fields h l o → has_fields h' l o.
Proof.
  intros Hk (m & Hm & Hl). exists m. split; [done|]. eapply map_of_mono; [|exact Hl].
  intros ??. by apply field_is_kept.
Qed.

Lemma body_is_kept h h' d b : types_kept h h' → body_is h d b → body_is h' d b.
Proof.
  intros Hk. destruct d, b; simpl; try done.
  - intros [? ?]. eauto using has_fields_kept.
  - eauto using has_fields_kept.
  - intros (? & m & ? & Hm). split; [done|]. exists m. split; [done|].
    eapply map_of_mono; [|exact Hm]. intros ??. by apply input_field_is_kept.
Qed.

Lemma describes_app h h' p d : describes h p d → describes (h ++ h') p d.
Proof.
  intros (decl & Hp & Hn & Hk & Hb). exists decl.
  split_and!; [by apply lookup_app_l_Some|done|done|].
  eapply body_is_kept; [apply types_kept_app|done].
Qed.

(** ** States with more references *)

(** The types that are kept, and the references that are new. *)
Record adds (refs : list (ustring * bool)) (v v' : GraphQlSchema) : Prop := {
  ad_types : types_kept (heap v) (heap v');
  ad_references : ∃ ps, forward_type_references v' = forward_type_references v ++ ps ∧
    Forall2 (reference_is (heap v')) ps refs;
  ad_covered : covered v → covered v'
}.

Lemma adds_trans refs refs' v v' v'' :
  adds refs v v' → adds refs' v' v'' → adds (refs ++ refs') v v''.
Proof.
  intros [Ht (ps & Hps & Hrefs) Hc] [Ht' (ps' & Hps' & Hrefs') Hc']. split; [by etrans| |auto].
  exists (ps ++ ps'). split; [by rewrite Hps', Hps, <- (assoc_L (++))|].
  apply Forall2_app; [|done]. eapply list.Forall2_impl; [exact Hrefs|].
  intros p r. by apply reference_is_kept.
Qed.

(** Nothing but other tables changed. *)
Lemma adds_same v v' :
  heap v' = heap v → forward_type_references v' = forward_type_references v → adds [] v v'.
Proof.
  intros Hh Hf. split; [by rewrite Hh|exists []; by rewrite app_nil_r|].
  unfold covered. by rewrite Hh, Hf.
Qed.

Lemma adds_nil_l refs v v' v'' : adds [] v v' → adds refs v' v'' → adds refs v v''.
Proof. intros H H'. exact (adds_trans [] refs _ _ _ H H'). Qed.

Lemma adds_nil_r refs v v' v'' : adds refs v v' → adds [] v' v'' → adds refs v v''.
Proof. intros H H'. rewrite <- (app_nil_r refs). by eapply adds_trans. Qed.
