(* ===== verification/Reading.v ===== *)
(** * Reading lexemes

    The parser on a rendering of lexemes: what each of its steps takes of it, and
    what it leaves of the state.  Everything but the scanner is given exactly. *)
From S2P Require Import Prelude Monad Character Cstring Diagnostic StdMap Syntaxes.
From S2P Require Import TextWriter Scanner ScannerSpec Parser Schema LexerText ScannerProperties SchemaText.

#[local] Arguments u : simpl never.

(** ** The scanner *)

Definition reading (ls : list lexeme) (s : GraphQlScanner) : Prop :=
  ∃ t, rendering ls t ∧ at_text t s.

(** The text of the token that was taken last. *)
Definition has_value (w : ustring) (s : GraphQlScanner) : Prop := get_value s = Ok w s.

Definition next_token (k : bool) (ls : list lexeme) : GraphQlToken.t :=
  match ls with [] => GraphQlToken.EndOfDocument | x :: _ => lexeme_token k x end.

Definition next_text (ls : list lexeme) : ustring :=
  match ls with [] => [] | x :: _ => lexeme_text x end.

Lemma has_value_same w s s' :
  source s' = source s → size s' = size s → position s' = position s →
  start_position s' = start_position s → has_value w s → has_value w s'.
Proof.
  intros Hs Hz Hp Hst. unfold has_value, get_value, source_substr, token_length.
  unfold mbind, M_bind, get. cbv beta iota. rewrite Hs, Hz, Hp, Hst.
  destruct (_ <? _)%nat; [done|]. unfold mret, M_ret. by intros [= ->].
Qed.

Lemma lexemes_reading_same ls s s' :
  source s' = source s → size s' = size s → position s' = position s →
  start_position s' = start_position s → reading ls s → reading ls s'.
Proof. intros ???? (t & Ht & Hat). exists t. split; [done|]. by eapply at_text_eq. Qed.

Lemma take_reading k ls s :
  reading ls s →
  wp False (Scanner.take_next_token k true) (λ token s', token = next_token k ls ∧
    reading (tail ls) s' ∧ (ls ≠ [] → has_value (next_text ls) s') ∧ same_source s s')
    (λ _ _, False) s.
Proof.
  intros (t & Hr & Ht). destruct Hr as [ig Hig|ig x ls t Hig Hx Hend Hr].
  - eapply wp_mono; [by apply (take_end False (λ _ _, False) k ig)| |done].
    intros token s' (-> & Ht' & Hs). split_and!; [done| |done|done].
    exists []. split; [constructor; constructor|done].
  - eapply wp_mono; [by apply (take_lexeme False (λ _ _, False) k ig x t)| |done].
    intros token s' (-> & Hl & _). split_and!; [done|by exists t; split; [|apply Hl]| |apply Hl].
    intros _. destruct (wp_total get_value (λ w s2, w = lexeme_text x ∧ s2 = s') s') as (w & s2 & Hrun & -> & ->);
      [by eapply lexed_get_value|done].
Qed.

(** Looking ahead for a token. *)
Lemma try_scan_reading k token ls s :
  reading ls s →
  wp False (try_scan token k true) (λ r s', r = next_token k ls ∧
    if decide (next_token k ls = token)
    then reading (tail ls) s' ∧ (ls ≠ [] → has_value (next_text ls) s')
    else reading ls s' ∧ ∀ w, has_value w s → has_value w s') (λ _ _, False) s.
Proof.
  intros Hr. unfold try_scan, save. do 2 wp_step. set (s1 := set_saved_text_cursors _ s).
  assert (Hr1 : reading ls s1) by exact (lexemes_reading_same ls s s1 eq_refl eq_refl eq_refl eq_refl Hr).
  wp_step. eapply wp_mono; [by apply take_reading| |done].
  intros r s2 (-> & Hr2 & Hv2 & Hs2). destruct (decide (next_token k ls = token)) as [E|E].
  - wp_step. by split.
  - unfold revert. do 3 wp_step. rewrite (ss_saved _ _ Hs2). cbn [saved_text_cursors s1 set_saved_text_cursors].
    repeat wp_step. split; [done|]. pose proof (ss_source _ _ Hs2) as Hsrc. pose proof (ss_size _ _ Hs2) as Hsz.
    split; [apply (lexemes_reading_same ls s); [exact Hsrc|exact Hsz|reflexivity|reflexivity|exact Hr]|].
    intros w Hw. apply (has_value_same w s); [exact Hsrc|exact Hsz|reflexivity|reflexivity|exact Hw].
Qed.

(** ** Parsers *)

Abbreviation reads m Q s := (wp False m Q (λ _ _, False) s).

(** A class that derives from the parser. *)
Section parsers.
Context {T : Type} `{Has GraphQlParser T}.

Definition put_scanner (sc : GraphQlScanner) (s : T) : T := put_sub (set_scanner sc (sub s)) s.

(** Everything but the scanner. *)
Definition view (s : T) : T := put_scanner (new_GraphQlScanner []) s.

Lemma put_scanner_same s : put_scanner (scanner (sub s)) s = s.
Proof.
  unfold put_scanner. change (set_scanner (scanner (sub s)) (sub s))
    with (put_sub (P := GraphQlScanner) (sub (sub s)) (sub s)). by rewrite !put_sub_id.
Qed.

Lemma view_put_scanner sc s : view (put_scanner sc s) = view s.
Proof. unfold view, put_scanner. by rewrite sub_put, put_put. Qed.

Lemma scanner_put sc s : scanner (sub (put_scanner sc s)) = sc.
Proof. unfold put_scanner. by rewrite sub_put. Qed.

(** The lexemes that are left, the text of the last token where it is known, and
    the rest of the state. *)
Record at_lexemes (w : option ustring) (ls : list lexeme) (v s : T) : Prop := {
  al_view : view s = v;
  al_reading : reading ls (scanner (sub s));
  al_value : ∀ w', w = Some w' → has_value w' (scanner (sub s))
}.

Lemma at_lexemes_same w ls v s sc :
  at_lexemes w ls v s → reading ls sc → (∀ w', has_value w' (scanner (sub s)) → has_value w' sc) →
  at_lexemes w ls v (put_scanner sc s).
Proof.
  intros [Hv Hr Hw] Hr' Hw'. split; rewrite ?view_put_scanner, ?scanner_put; [done..|].
  intros w' E. by apply Hw', Hw.
Qed.

Lemma at_lexemes_taken w ls ls' v s sc w' :
  at_lexemes w ls v s → reading ls' sc → (∀ x, w' = Some x → has_value x sc) →
  at_lexemes w' ls' v (put_scanner sc s).
Proof. intros [Hv Hr Hw] Hr' Hw'. by split; rewrite ?view_put_scanner, ?scanner_put. Qed.

Lemma at_lexemes_forget w ls v s : at_lexemes w ls v s → at_lexemes None ls v s.
Proof. intros [Hv Hr Hw]. by split. Qed.

Section steps.
Context {B : Type} (Q : B → T → Prop).

(** An operation of the scanner. *)
Lemma scanner_step {A} (m : M GraphQlScanner A) (P : A → GraphQlScanner → Prop)
    (k : A → M T B) s :
  wp False m P (λ _ _, False) (scanner (sub s)) →
  (∀ a sc, P a sc → reads (k a) Q (put_scanner sc s)) →
  reads (⟨⟨m⟩⟩ ≫= k) Q s.
Proof.
  intros Hm Hk. do 3 wp_step. eapply wp_mono; [exact Hm| |done]. intros a sc Ha. by apply Hk.
Qed.

Lemma take_lexeme_step kw w x ls v k s :
  at_lexemes w (x :: ls) v s →
  (∀ s', at_lexemes (Some (lexeme_text x)) ls v s' → reads (k (lexeme_token kw x)) Q s') →
  reads (⟨take_next_token kw true⟩ ≫= k) Q s.
Proof.
  intros Hat Hk. eapply scanner_step; [apply take_reading, Hat|].
  intros token sc (-> & Hr & Hv & _). apply Hk. eapply at_lexemes_taken; [done..|].
  intros y [= <-]. by apply Hv.
Qed.

Lemma take_end_step kw w v k s :
  at_lexemes w [] v s →
  (∀ s', at_lexemes None [] v s' → reads (k GraphQlToken.EndOfDocument) Q s') →
  reads (⟨take_next_token kw true⟩ ≫= k) Q s.
Proof.
  intros Hat Hk. eapply scanner_step; [apply take_reading, Hat|].
  intros token sc (-> & Hr & _). apply Hk. by eapply at_lexemes_taken.
Qed.

(** The token that follows, whatever it is. *)
Lemma take_any_step kw w ls v k s :
  at_lexemes w ls v s →
  (∀ s', at_lexemes None (tail ls) v s' → reads (k (next_token kw ls)) Q s') →
  reads (⟨take_next_token kw true⟩ ≫= k) Q s.
Proof.
  intros Hat Hk. destruct ls as [|x ls]; [by eapply take_end_step|].
  eapply take_lexeme_step; [done|]. intros s' Hs'. by apply Hk, (at_lexemes_forget (Some (lexeme_text x))).
Qed.

Lemma value_step w ls v k s :
  at_lexemes (Some w) ls v s → reads (k w) Q s → reads (⟨get_token_value⟩ ≫= k) Q s.
Proof.
  intros Hat Hk. eapply (scanner_step _ (λ a sc, a = w ∧ sc = scanner (sub s))).
  - by eapply wp_intro_ok; [apply (al_value _ _ _ _ Hat)|].
  - intros a sc [-> ->]. by rewrite put_scanner_same.
Qed.

(** Nodes are created at positions that do not matter here. *)
Lemma syntax_step kind_ k s :
  (∀ syntax, kind syntax = kind_ → reads (k syntax) Q s) → reads (⟨CreateSyntax kind_⟩ ≫= k) Q s.
Proof.
  intros Hk. do 2 wp_step. unfold CreateSyntax. repeat wp_step. rewrite put_sub_id. by apply Hk.
Qed.

Lemma name_step w k s :
  (∀ name, identifier name = w → reads (k name) Q s) → reads (⟨create_name w⟩ ≫= k) Q s.
Proof.
  intros Hk. do 2 wp_step. unfold create_name, CreateSyntax. repeat wp_step.
  rewrite put_sub_id. by apply Hk.
Qed.

Lemma finish_step syntax k s :
  (∀ syntax', kind syntax' = kind syntax → reads (k syntax') Q s) →
  reads (⟨FinishSyntax syntax⟩ ≫= k) Q s.
Proof.
  intros Hk. do 2 wp_step. unfold FinishSyntax. repeat wp_step. rewrite put_sub_id. by apply Hk.
Qed.

Lemma expect_step token w x ls v k s :
  at_lexemes w (x :: ls) v s → lexeme_token false x = token →
  (∀ s', at_lexemes (Some (lexeme_text x)) ls v s' → reads (k true) Q s') →
  reads (⟨expect token⟩ ≫= k) Q s.
Proof.
  intros Hat Htoken Hk. do 2 wp_step. unfold expect, scan_expected, Scanner.scan_expected.
  do 3 wp_step. eapply wp_mono; [apply take_reading, Hat| |done].
  intros token' sc (-> & Hr & Hv & _). cbn [next_token]. rewrite Htoken, decide_True by done. wp_step.
  rewrite decide_True by done. wp_step. apply Hk. eapply at_lexemes_taken; [done..|].
  intros y [= <-]. by apply Hv.
Qed.

Lemma expect_template_step kw template w x ls v k s :
  at_lexemes w (x :: ls) v s → lexeme_token kw x = GraphQlToken.G_Name →
  (∀ s', at_lexemes (Some (lexeme_text x)) ls v s' → reads (k true) Q s') →
  reads (⟨scan_expected_template GraphQlToken.G_Name template kw⟩ ≫= k) Q s.
Proof.
  intros Hat Htoken Hk. do 2 wp_step. unfold scan_expected_template, Scanner.scan_expected.
  do 3 wp_step. eapply wp_mono; [apply take_reading, Hat| |done].
  intros token' sc (-> & Hr & Hv & _). cbn [next_token]. rewrite Htoken, decide_True by done. wp_step.
  rewrite decide_True by done. wp_step. apply Hk. eapply at_lexemes_taken; [done..|].
  intros y [= <-]. by apply Hv.
Qed.

Lemma scan_optional_step token w ls v k s :
  at_lexemes w ls v s →
  (next_token false ls = token → ∀ s', at_lexemes None (tail ls) v s' → reads (k true) Q s') →
  (next_token false ls ≠ token → ∀ s', at_lexemes w ls v s' → reads (k false) Q s') →
  reads (⟨scan_optional token⟩ ≫= k) Q s.
Proof.
  intros Hat Hyes Hno. do 2 wp_step. unfold scan_optional. do 2 wp_step.
  eapply wp_mono; [apply try_scan_reading, Hat| |done].
  intros r sc (-> & Hr). wp_step. case_decide as E.
  - rewrite bool_decide_eq_true_2 by done. apply Hyes; [done|]. by eapply at_lexemes_taken; [..|apply Hr|].
  - rewrite bool_decide_eq_false_2 by done. apply Hno; [done|]. eapply at_lexemes_same; [done|apply Hr..].
Qed.

(** A write to anything but the scanner. *)
Lemma modify_step f w ls v k s :
  at_lexemes w ls v s → (∀ s, view (f s) = f (view s)) →
  (∀ s, scanner (sub (f s)) = scanner (sub s)) →
  (∀ s', at_lexemes w ls (f v) s' → reads (k tt) Q s') → reads (modify f ≫= k) Q s.
Proof.
  intros [Hv Hr Hw] Hview Hsc Hk. do 2 wp_step. apply Hk. split; [by rewrite Hview, Hv|by rewrite Hsc|].
  intros w' E. rewrite Hsc. by apply Hw.
Qed.
End steps.
End parsers.

(** ** Loops *)

Lemma lexeme_text_length x : lexeme_ok x = true → (0 < length (lexeme_text x))%nat.
Proof. destruct x as [[|c w]|c| |c w|w]; simpl; try done; intros; lia. Qed.

Lemma rendering_length ls t : rendering ls t → (length ls ≤ length t)%nat.
Proof.
  induction 1 as [|ig x ls t Hig Hx Hend Hr IH]; simpl; [lia|].
  pose proof (lexeme_text_length x Hx). rewrite !length_app. lia.
Qed.

Lemma reading_fuel ls s : reading ls s → (length ls < scan_fuel s)%nat.
Proof.
  intros (t & Hr & Ht). pose proof (rendering_length _ _ Hr). pose proof (at_size _ _ Ht).
  unfold scan_fuel. lia.
Qed.

Lemma run_bind_ret {S A} (m : M S A) s : (m ≫= mret) s = m s.
Proof. unfold mbind, M_bind, mret, M_ret. by destruct (m s). Qed.

(** Each iteration but the last takes a lexeme. *)
Lemma loop_step {T A C B} `{Has GraphQlParser T} (I : A → list lexeme → T → Prop)
    (body : A → M T (A + C)) fuel a w ls v (k : C → M T B) Q s :
  (length ls < fuel)%nat → at_lexemes w ls v s → I a ls v →
  (∀ a ls v s, at_lexemes None ls v s → I a ls v →
    reads (body a) (λ r s', match r with
      | inl a' => ∃ ls' v', at_lexemes None ls' v' s' ∧ I a' ls' v' ∧ (length ls' < length ls)%nat
      | inr b => reads (k b) Q s'
      end) s) →
  reads (loop fuel body a ≫= k) Q s.
Proof.
  intros Hfuel Hat%at_lexemes_forget HI Hbody. wp_step. revert a ls v s Hfuel Hat HI.
  induction fuel as [|fuel IH]; [lia|]. intros a ls v s Hfuel Hat HI. cbn [loop]. wp_step.
  eapply wp_mono; [by eapply Hbody| |done]. intros [a'|b] s' Hr.
  - destruct Hr as (ls' & v' & Hat' & HI' & Hlen). eapply IH; [|done..]. lia.
  - by wp_step.
Qed.

(** ** The schema parser *)

(** Nothing is annotated. *)
Lemma no_directives_step {B} location parent w ls v (k : _ → M GraphQlSchema B) Q s :
  at_lexemes w ls v s → next_token false ls ≠ GraphQlToken.At →
  (∀ s', at_lexemes w ls v s' → reads (k []) Q s') →
  reads (⟨parse_directives location parent⟩ ≫= k) Q s.
Proof.
  intros Hat Hnext Hk. do 2 wp_step. unfold parse_directives, parse_loop. do 2 wp_step.
  unfold parse_fuel, scan_fuel. cbn [loop]. wp_step. unfold scan_optional. do 3 wp_step.
  eapply wp_mono; [apply try_scan_reading, Hat| |done].
  intros r sc (-> & Hr). rewrite decide_False in Hr by done. wp_step.
  rewrite bool_decide_eq_false_2 by done. cbn [negb]. do 2 wp_step. apply Hk.
  eapply at_lexemes_same; [done|apply Hr..].
Qed.

Lemma schema_loop_step {A C B} (I : A → list lexeme → GraphQlSchema → Prop)
    (body : A → M GraphQlSchema (A + C)) a w ls v (k : C → M GraphQlSchema B) Q s :
  at_lexemes w ls v s → I a ls v →
  (∀ a ls v s, at_lexemes None ls v s → I a ls v →
    reads (body a) (λ r s', match r with
      | inl a' => ∃ ls' v', at_lexemes None ls' v' s' ∧ I a' ls' v' ∧ (length ls' < length ls)%nat
      | inr b => reads (k b) Q s'
      end) s) →
  reads (schema_loop body a ≫= k) Q s.
Proof.
  intros Hat HI Hbody. wp_step. unfold schema_loop. do 2 wp_step. apply wp_unbind.
  eapply loop_step; [apply reading_fuel, Hat|done..].
Qed.

(** ** The heap *)

Lemma at_lexemes_heap w ls v s : at_lexemes w ls v s → heap s = heap v.
Proof. by intros [<- _ _]. Qed.

Section heap_steps.
Context {B : Type} (Q : B → GraphQlSchema → Prop).

Lemma alloc_step n w ls v k s :
  at_lexemes w ls v s →
  (∀ s', at_lexemes w ls (set_heap (heap v ++ [n]) v) s' → reads (k (length (heap v))) Q s') →
  reads (alloc n ≫= k) Q s.
Proof.
  intros Hat Hk. pose proof (at_lexemes_heap _ _ _ _ Hat) as Hh. destruct Hat as [Hv Hr Hw].
  wp_step. unfold alloc. repeat wp_step. rewrite Hh. apply Hk. split; [by subst v|done|done].
Qed.

Lemma create_declaration_step kind_ b w ls v k s :
  at_lexemes w ls v s →
  (∀ syntax s', kind syntax = kind_ →
    at_lexemes w ls (set_heap (heap v ++ [NDecl (new_Declaration syntax b)]) v) s' →
    reads (k (length (heap v))) Q s') →
  reads (create_declaration kind_ b ≫= k) Q s.
Proof.
  intros Hat Hk. wp_step. unfold create_declaration. apply syntax_step. intros syntax Hsyntax.
  apply wp_unbind. eapply alloc_step; [done|]. intros s' Hs'. by eapply Hk.
Qed.

(** The type that was allocated last. *)
Lemma update_type_step f h t w ls v k s :
  at_lexemes w ls v s → heap v = h ++ [NType t] →
  (∀ s', at_lexemes w ls (set_heap (h ++ [NType (f t)]) v) s' → reads (k tt) Q s') →
  reads (update_type (length h) f ≫= k) Q s.
Proof.
  intros Hat Hh Hk. pose proof (at_lexemes_heap _ _ _ _ Hat) as Hs. destruct Hat as [Hv Hr Hw].
  wp_step. unfold update_type, read_type. do 2 wp_step. wp_step. rewrite Hs, Hh.
  rewrite lookup_app_r, Nat.sub_diag by done. cbn [lookup list_lookup]. repeat wp_step.
  rewrite Hs, Hh, insert_app_r_alt, Nat.sub_diag by done. apply Hk. split; [by subst v|done|done].
Qed.

Lemma read_type_step h t w ls v k s :
  at_lexemes w ls v s → heap v = h ++ [NType t] → reads (k t) Q s →
  reads (read_type (length h) ≫= k) Q s.
Proof.
  intros Hat Hh Hk. pose proof (at_lexemes_heap _ _ _ _ Hat) as Hs.
  wp_step. unfold read_type. do 2 wp_step. rewrite Hs, Hh.
  rewrite lookup_app_r, Nat.sub_diag by done. cbn [lookup list_lookup]. by wp_step.
Qed.

(** A declaration with other nodes behind it. *)
Lemma update_decl_step f h d h' w ls v k s :
  at_lexemes w ls v s → heap v = h ++ NDecl d :: h' →
  (∀ s', at_lexemes w ls (set_heap (h ++ NDecl (f d) :: h') v) s' → reads (k tt) Q s') →
  reads (update_decl (length h) f ≫= k) Q s.
Proof.
  intros Hat Hh Hk. pose proof (at_lexemes_heap _ _ _ _ Hat) as Hs. destruct Hat as [Hv Hr Hw].
  wp_step. unfold update_decl, read_decl. do 2 wp_step. wp_step. rewrite Hs, Hh.
  rewrite lookup_app_r, Nat.sub_diag by done. cbn [lookup list_lookup]. repeat wp_step.
  rewrite Hs, Hh, insert_app_r_alt, Nat.sub_diag by done. apply Hk. split; [by subst v|done|done].
Qed.

Lemma update_body_step f h d h' w ls v k s :
  at_lexemes w ls v s → heap v = h ++ NDecl d :: h' →
  (∀ s', at_lexemes w ls (set_heap (h ++ NDecl (set_body (f (body d)) d) :: h') v) s' →
    reads (k tt) Q s') →
  reads (update_body (length h) f ≫= k) Q s.
Proof. intros Hat Hh Hk. unfold update_body. by eapply update_decl_step. Qed.

Lemma read_decl_step h d h' w ls v k s :
  at_lexemes w ls v s → heap v = h ++ NDecl d :: h' → reads (k d) Q s →
  reads (read_decl (length h) ≫= k) Q s.
Proof.
  intros Hat Hh Hk. pose proof (at_lexemes_heap _ _ _ _ Hat) as Hs.
  wp_step. unfold read_decl. do 2 wp_step. rewrite Hs, Hh.
  rewrite lookup_app_r, Nat.sub_diag by done. cbn [lookup list_lookup]. by wp_step.
Qed.
End heap_steps.
