(* ===== verification/SchemaTypes.v ===== *)
(** * Reading types and arguments

    What [parse_type_annotation] and the loops over arguments leave of a rendering
    of them. *)
From S2P Require Import Prelude Monad Character Cstring Diagnostic StdMap Syntaxes.
From S2P Require Import TextWriter Scanner Parser Schema LexerText SchemaText Reading.

#[local] Arguments u : simpl never.

(** ** States with more types *)

(** More types behind the heap, and what that leaves of [forward_type_references]. *)
Definition with_types (ts : list Type_) (fr : list ptr) (v : GraphQlSchema) : GraphQlSchema :=
  set_heap (heap v ++ map NType ts) (set_forward_type_references fr v).

(** Types are added, with the references [refs]. *)
Definition types_added (refs : list (ustring * bool)) (v v' : GraphQlSchema) : Prop :=
  (∃ ts fr, v' = with_types ts fr v) ∧ adds refs v v'.

Lemma types_added_refl v : types_added [] v v.
Proof.
  split; [|by apply adds_same]. exists [], (forward_type_references v). unfold with_types.
  rewrite app_nil_r. by destruct v.
Qed.

Lemma types_added_trans refs refs' v v' v'' :
  types_added refs v v' → types_added refs' v' v'' → types_added (refs ++ refs') v v''.
Proof.
  intros [(ts & fr & ->) H] [(ts' & fr' & ->) H']. split; [|by eapply adds_trans].
  exists (ts ++ ts'), fr'. unfold with_types. cbn. by rewrite map_app, (assoc_L (++)).
Qed.

Lemma types_added_kept refs v v' : types_added refs v v' → types_kept (heap v) (heap v').
Proof. intros [_ H]. apply H. Qed.

Lemma next_token_app k ls ls' :
  next_token k (ls ++ ls') = match ls with [] => next_token k ls' | x :: _ => lexeme_token k x end.
Proof. by destruct ls. Qed.

Section reading.
Context {B : Type} (Q : B → GraphQlSchema → Prop).

(** ** Types *)

Lemma bang_step b ls w v k s :
  at_lexemes w (bang b ++ ls) v s → next_token false ls ≠ GraphQlToken.Exclamation →
  (∀ s', at_lexemes None ls v s' → reads (k b) Q s') →
  reads (⟨scan_optional GraphQlToken.Exclamation⟩ ≫= k) Q s.
Proof.
  intros Hat Hnext Hk. eapply scan_optional_step; [done|..].
  - destruct b; [intros _; exact Hk|done].
  - destruct b; [done|]. intros _ s' Hs'. apply Hk. by eapply at_lexemes_forget.
Qed.

(** The type that is being built is the last node. *)
Abbreviation building t v := (set_heap (heap v ++ [NType t]) v).

Lemma building_step f t w ls v k s :
  at_lexemes w ls (building t v) s →
  (∀ s', at_lexemes w ls (building (f t) v) s' → reads (k tt) Q s') →
  reads (update_type (length (heap v)) f ≫= k) Q s.
Proof. intros Hat Hk. by eapply update_type_step. Qed.

Lemma building_read_step t w ls v k s :
  at_lexemes w ls (building t v) s → reads (k t) Q s →
  reads (read_type (length (heap v)) ≫= k) Q s.
Proof. intros Hat Hk. by eapply read_type_step. Qed.

End reading.

Abbreviation building t v := (set_heap (heap v ++ [NType t]) v).

Section types.
Context {B : Type} (Q : B → GraphQlSchema → Prop).

(** The end of a list. *)
Lemma list_end_step r t ls w v k s :
  at_lexemes w (match ref_list r with
    | Some b => Punct Character.CloseBracket :: bang b
    | None => [] end ++ ls) (building t v) s →
  next_token false ls ≠ GraphQlToken.Exclamation →
  is_list_type t = bool_decide (is_Some (ref_list r)) → is_non_null_list t = false →
  (∀ t' w' s', at_lexemes w' ls (building t' v) s' →
    t' = set_is_non_null_list (default false (ref_list r)) t → reads (k true) Q s') →
  reads ((if is_list_type t then
      bracket ← ⟨expect GraphQlToken.CloseBracket⟩;
      if (bracket : bool) then
        non_null_list ← ⟨scan_optional GraphQlToken.Exclamation⟩;
        update_type (length (heap v)) (set_is_non_null_list non_null_list);;
        mret true
      else mret false
    else mret true) ≫= k) Q s.
Proof.
  intros Hat Hnext Hl Hnn Hk. rewrite Hl. destruct (ref_list r) as [b|].
  - rewrite bool_decide_eq_true_2 by eauto. wp_step.
    eapply expect_step; [exact Hat|done|]. intros s1 Hs1. cbv beta iota.
    eapply bang_step; [exact Hs1|done|]. intros s2 Hs2.
    eapply building_step; [exact Hs2|]. intros s3 Hs3. wp_step. by eapply Hk.
  - rewrite bool_decide_eq_false_2 by (intros [? ?]; done). do 2 wp_step.
    eapply Hk; [exact Hat|]. destruct t; simpl in *; by subst.
Qed.


(** The tokens before the name. *)
Definition base_token (b : type_base) : GraphQlToken.t :=
  match b with
  | IntType => GraphQlToken.IntKeyword
  | FloatType => GraphQlToken.FloatKeyword
  | StringType => GraphQlToken.StringKeyword
  | BooleanType => GraphQlToken.BooleanKeyword
  | IDType => GraphQlToken.IDKeyword
  | NamedTypeOf _ => GraphQlToken.G_Name
  end.

Lemma type_ok_token r :
  type_ok r → lexeme_token false (Word (base_text (ref_base r))) = base_token (ref_base r).
Proof. unfold type_ok. destruct (ref_base r); [reflexivity..|]. by intros [_ ?]. Qed.

Lemma base_token_not_bracket b : base_token b ≠ GraphQlToken.OpenBracket.
Proof. by destruct b. Qed.

(** What follows the name, and its modifier. *)
Definition closing_lexemes (r : type_ref) : list lexeme :=
  match ref_list r with Some b => Punct Character.CloseBracket :: bang b | None => [] end.

Lemma type_start_step (f : GraphQlToken.t → M GraphQlSchema B) syntax input parent r x ls ls' w v s :
  x :: ls' = type_lexemes r ++ ls → type_ok r →
  at_lexemes w ls' (building (mkType syntax T_None false false false input None parent) v) s →
  w = Some (lexeme_text x) →
  (∀ s', at_lexemes (Some (base_text (ref_base r))) (bang (ref_non_null r) ++ closing_lexemes r ++ ls)
    (building (mkType syntax T_None false (bool_decide (is_Some (ref_list r))) false input None parent) v)
    s' → reads (f (base_token (ref_base r))) Q s') →
  reads ((if decide (lexeme_token false x = GraphQlToken.OpenBracket)
    then update_type (length (heap v)) (set_is_list_type true);; ⟨TakeNextToken⟩
    else mret (lexeme_token false x)) ≫= f) Q s.
Proof.
  intros Hx Hr Hat -> Hk. unfold type_lexemes in Hx. unfold closing_lexemes in Hk.
  pose proof (type_ok_token _ Hr) as Ht. destruct (ref_list r) as [b|].
  - injection Hx as -> ->. rewrite decide_True by done. rewrite <- (assoc_L (++)) in Hat.
    apply wp_bind, wp_bind, wp_unbind. eapply building_step; [exact Hat|].
    intros s1 Hs1. apply wp_unbind. eapply take_lexeme_step; [exact Hs1|]. rewrite Ht. exact Hk.
  - injection Hx as -> ->. rewrite Ht, decide_False by apply base_token_not_bracket. wp_step. wp_step.
    apply Hk. exact Hat.
Qed.

End types.

(** The type a name stands for. *)
Definition base_type (b : type_base) : TypeEnum :=
  match b with
  | IntType => T_Int
  | FloatType => T_Float
  | StringType => T_String
  | BooleanType => T_Boolean
  | IDType => T_ID
  | NamedTypeOf _ => T_Object
  end.

Section base.
Context (r : type_ref) (input : bool) (syntax : Syntax) (parent : option ptr).

Definition base_node (ty : TypeEnum) (n : option Name) : Type_ :=
  mkType syntax ty false (bool_decide (is_Some (ref_list r))) false input n parent.

(** The references behind the type. *)
Definition with_reference (v : GraphQlSchema) : list ptr :=
  forward_type_references v ++
    match ref_base r with NamedTypeOf _ => [length (heap v)] | _ => [] end.

(** The name is read. *)
Definition based (ls : list lexeme) (v : GraphQlSchema) (known : bool) (s : GraphQlSchema) : Prop :=
  known = true ∧ ∃ n, base_is (ref_base r) (base_node (base_type (ref_base r)) n) ∧
    at_lexemes None ls (with_types [base_node (base_type (ref_base r)) n] (with_reference v) v) s.

Lemma builtin_step ls w v s :
  (∀ name, ref_base r ≠ NamedTypeOf name) →
  base_is (ref_base r) (base_node (base_type (ref_base r)) None) →
  at_lexemes w ls (building (base_node T_None None) v) s →
  reads (update_type (length (heap v)) (set_type (base_type (ref_base r)));; mret true)
    (based ls v) s.
Proof.
  intros Hn Hb Hs. eapply building_step; [exact Hs|]. intros s1 Hs1%at_lexemes_forget. wp_step.
  split; [done|]. exists None. split; [done|].
  assert (Href : with_reference v = forward_type_references v).
  { unfold with_reference. destruct (ref_base r); [by rewrite app_nil_r..|by destruct (Hn name)]. }
  rewrite Href. by destruct v.
Qed.

Lemma named_step name ls v s :
  ref_base r = NamedTypeOf name →
  at_lexemes (Some name) ls (building (base_node T_None None) v) s →
  reads (update_type (length (heap v)) (set_type T_Object);;
    value ← ⟨get_token_value⟩;
    name ← ⟨create_name value⟩;
    update_type (length (heap v)) (set_type_name (Some name));;
    modify (λ s, set_forward_type_references (forward_type_references s ++ [length (heap v)]) s);;
    mret true) (based ls v) s.
Proof.
  intros Hb Hs. eapply building_step; [exact Hs|]. intros s1 Hs1.
  eapply value_step; [exact Hs1|]. apply name_step. intros n Hn.
  eapply building_step; [exact Hs1|]. intros s2 Hs2.
  eapply (modify_step _ (λ s, set_forward_type_references
    (forward_type_references s ++ [length (heap v)]) s)); [exact Hs2|done|done|].
  intros s3 Hs3%at_lexemes_forget. wp_step. split; [done|].
  exists (Some n). unfold with_reference. rewrite Hb.
  split; [split; [done|]; cbn; by rewrite Hn|exact Hs3].
Qed.
End base.

Lemma type_lexemes_cons r ls : ∃ x ls', x :: ls' = type_lexemes r ++ ls.
Proof. unfold type_lexemes. destruct (ref_list r); simpl; eauto. Qed.

Lemma reference_added input r t v :
  type_is input r t → type_parent t = None →
  types_added (type_references input r) v (with_types [t] (with_reference r v) v).
Proof.
  intros (Hbase & _ & _ & _ & Hinput) Hparent. split; [by eexists [t], _|].
  assert (Hlast : heap (with_types [t] (with_reference r v) v) !! length (heap v) = Some (NType t))
    by (cbn; by rewrite lookup_app_r, Nat.sub_diag).
  split; [apply types_kept_app| |].
  - eexists. split; [reflexivity|]. unfold type_references.
    destruct (ref_base r); [constructor..|]. destruct Hbase as [Ht Hn].
    constructor; [|constructor]. exists t. by split_and!.
  - intros Hc p t' Hp Ht'. unfold with_reference. cbn [with_types set_heap set_forward_type_references
      forward_type_references]. rewrite elem_of_app.
    apply lookup_app_Some in Hp as [Hp|[Hle Hp]]; [left; by eapply Hc|right].
    apply list_lookup_singleton_Some in Hp as [Hp [= ->]].
    destruct (ref_base r); cbn in Hbase; [congruence..|]. replace p with (length (heap v)) by lia. left.
Qed.

Lemma type_step {B} (Q : B → GraphQlSchema → Prop) input r ls w v k s :
  at_lexemes w (type_lexemes r ++ ls) v s → type_ok r →
  next_token false ls ≠ GraphQlToken.Exclamation →
  (∀ t fr s', type_is input r t → types_added (type_references input r) v (with_types [t] fr v) →
    at_lexemes None ls (with_types [t] fr v) s' →
    reads (k (Some (length (heap v)))) Q s') →
  reads (parse_type_annotation input None ≫= k) Q s.
Proof.
  intros Hat Hr Hnext Hk. wp_step. unfold parse_type_annotation.
  destruct (type_lexemes_cons r ls) as (x & ls' & Hlex). rewrite <- Hlex in Hat.
  eapply take_lexeme_step; [exact Hat|]. intros s1 Hs1.
  apply syntax_step. intros syntax _. eapply alloc_step; [exact Hs1|]. intros s2 Hs2.
  eapply building_step; [exact Hs2|]. intros s3 Hs3.
  eapply building_step; [exact Hs3|]. intros s4 Hs4.
  eapply type_start_step; [done..|]. clear dependent s. clear dependent x. intros s Hs.
  apply wp_bind. set (ls1 := bang (ref_non_null r) ++ closing_lexemes r ++ ls) in *.
  eapply (wp_mono _ _ (based r input syntax None ls1 v)).
  { pose proof (builtin_step r input syntax None ls1 (Some (base_text (ref_base r))) v s) as Hstep.
    pose proof (λ name, named_step r input syntax None name ls1 v s) as Hname.
    destruct (ref_base r); cbn [base_token base_text] in *; [by apply Hstep; [discriminate|..]..|by eapply Hname]. }
  2: done.
  intros known s5 (-> & n & Hbase & Hs5). cbn [negb].
  eapply bang_step; [exact Hs5|unfold closing_lexemes; by destruct (ref_list r)|].
  set (v' := set_forward_type_references (with_reference r v) v) in *. intros s6 Hs6.
  eapply (building_step _ _ _ _ _ v'); [exact Hs6|]. intros s7 Hs7.
  eapply (building_read_step _ _ _ _ v'); [exact Hs7|].
  eapply (list_end_step _ r _ _ _ v'); [exact Hs7|done..|].
  intros t w' s8 Hs8 ->. cbn [negb].
  eapply (building_read_step _ _ _ _ v'); [exact Hs8|].
  apply finish_step. intros syntax' _.
  eapply (building_step _ _ _ _ _ v'); [exact Hs8|]. intros s9 Hs9. wp_step.
  eapply (Hk _ (with_reference r v)); [|apply reference_added|eapply at_lexemes_forget, Hs9]; done.
Qed.
