(* ===== verification/SchemaFields.v ===== *)
(** * Reading fields

    What the loops over arguments, fields, input fields and enum values leave of a
    rendering of them. *)
From S2P Require Import Prelude Monad Character Cstring Diagnostic StdMap Syntaxes.
From S2P Require Import TextWriter Scanner Parser Schema LexerText SchemaText Reading SchemaTypes.

#[local] Arguments u : simpl never.

(** ** Tokens of words *)

Definition word_like (token : GraphQlToken.t) : bool :=
  bool_decide (token = GraphQlToken.G_Name) || bool_decide (token = GraphQlToken.OnKeyword)
  || is_keyword token.

Lemma word_like_word w : word_like (lexeme_token false (Word w)) = true.
Proof. simpl. unfold keyword_switch. repeat case_match; reflexivity. Qed.

Lemma word_not w ls token : word_like token = false → next_token false (Word w :: ls) ≠ token.
Proof. intros Ht <-. simpl in Ht. pose proof (word_like_word w) as Hw. simpl in Hw. congruence. Qed.

Lemma at_lexemes_description w ls v s :
  at_lexemes w ls v s → has_description (parser s) = has_description (parser v).
Proof. by intros [<- _ _]. Qed.

Lemma quiet_step {B} (Q : B → GraphQlSchema → Prop) m k s :
  reads (k tt) Q s → reads (⟨when false m⟩ ≫= k) Q s.
Proof. intros Hk. do 3 wp_step; [done|]. by destruct s. Qed.

(** Fewer lexemes are left. *)
Ltac shorter := repeat first [rewrite length_app | progress cbn [length]]; lia.

(** ** Arguments *)

Section arguments.
Context (l : list argument_def) (ls : list lexeme) (v : GraphQlSchema).
Context (no_description : has_description (parser v) = false).

(** Before the arguments [todo]. *)
Definition arguments_read (args : std_map ustring InputValueDefinition) (ls' : list lexeme)
    (v' : GraphQlSchema) : Prop :=
  ∃ done_ todo, l = done_ ++ todo ∧
    ls' = flat_map argument_lexemes todo ++ Punct Character.CloseParen :: ls ∧
    types_added (arguments_references done_) v v' ∧ map_of fst (argument_is (heap v')) done_ args.

Lemma next_argument token todo :
  word_like token = false → token ≠ GraphQlToken.CloseParen →
  next_token false (flat_map argument_lexemes todo ++ Punct Character.CloseParen :: ls) ≠ token.
Proof. destruct todo as [|a todo]; intros; [by symmetry|by apply word_not]. Qed.

End arguments.

Lemma added_description refs v v' :
  types_added refs v v' → has_description (parser v) = false → has_description (parser v') = false.
Proof. by intros [(ts & fr & ->) _]. Qed.

Lemma with_types_at ts t fr v input r :
  type_is input r t → type_at (heap (with_types (t :: ts) fr v)) input r (length (heap v)).
Proof. intros Ht. exists t. split; [|done]. cbn. by rewrite lookup_app_r, Nat.sub_diag by done. Qed.

Lemma flat_map_arguments a l ls :
  flat_map argument_lexemes (a :: l) ++ ls
  = Word a.1 :: Punct Character.Colon :: type_lexemes a.2 ++ flat_map argument_lexemes l ++ ls.
Proof. simpl. by rewrite <- (assoc_L (++)). Qed.

Lemma arguments_references_snoc l a :
  arguments_references (l ++ [a]) = arguments_references l ++ type_references true a.2.
Proof. unfold arguments_references. rewrite flat_map_app. simpl. by rewrite app_nil_r. Qed.

Lemma fields_references_snoc l f :
  fields_references (l ++ [f])
  = fields_references l ++ arguments_references (def_arguments f) ++ type_references false (def_type f).
Proof. unfold fields_references. rewrite flat_map_app. simpl. by rewrite app_nil_r. Qed.

Lemma arguments_step {B} (Q : B → GraphQlSchema → Prop) l ls w v k s :
  at_lexemes w (flat_map argument_lexemes l ++ Punct Character.CloseParen :: ls) v s →
  arguments_ok l → has_description (parser v) = false →
  (∀ args v' s', map_of fst (argument_is (heap v')) l args →
    types_added (arguments_references l) v v' →
    at_lexemes None ls v' s' → reads (k args) Q s') →
  reads (parse_arguments_definition_after_open_paren None ≫= k) Q s.
Proof.
  intros Hat [Hl Hnodup] Hdesc Hk. unfold parse_arguments_definition_after_open_paren.
  eapply (schema_loop_step (arguments_read l ls v)); [exact Hat| |].
  { exists [], l. split_and!; [done..|apply types_added_refl|apply map_of_nil]. }
  clear dependent s. intros args ? v1 s Hat (done_ & todo & -> & -> & Hadd & Hargs).
  pose proof (added_description _ _ _ Hadd Hdesc) as Hdesc1.
  destruct todo as [|a todo].
  - eapply take_lexeme_step; [exact Hat|]. intros s1 Hs1. rewrite decide_False by done.
    apply syntax_step. intros syntax _. do 2 wp_step.
    rewrite (at_lexemes_description _ _ _ _ Hs1), Hdesc1. apply quiet_step. cbn. wp_step.
    rewrite app_nil_r in Hk. eapply Hk; [done..|by eapply at_lexemes_forget].
  - rewrite flat_map_arguments in Hat |- *. eapply take_lexeme_step; [exact Hat|]. intros s1 Hs1.
    rewrite decide_False by done. apply syntax_step. intros syntax _. do 2 wp_step.
    rewrite (at_lexemes_description _ _ _ _ Hs1), Hdesc1. apply quiet_step. cbn [lexeme_token].
    eapply value_step; [exact Hs1|]. apply name_step. intros name Hname.
    eapply expect_step; [exact Hs1|done|]. intros s2 Hs2. cbn [negb].
    apply list.Forall_app in Hl as [_ [[_ Ht] Hl]%list.Forall_cons].
    eapply type_step; [exact Hs2|done|by apply next_argument|]. intros t fr s3 Hty Hadd3 Hs3.
    eapply no_directives_step; [exact Hs3|by apply next_argument|]. intros s4 Hs4.
    cbn [lexeme_text]. rewrite (map_of_absent fst (argument_is (heap v1)) done_); [|done|].
    2: { rewrite map_app in Hnodup. apply list.NoDup_app in Hnodup as (_ & Hnot & _).
      intros Hin. apply (Hnot _ Hin). left. }
    wp_step. eexists _, _. split_and!; [exact Hs4| |shorter].
    exists (done_ ++ [a]), todo. split_and!; [by rewrite <- (assoc_L (++))|done| |].
    + rewrite arguments_references_snoc. by eapply types_added_trans.
    + apply map_of_emplace.
      * eapply map_of_mono; [|exact Hargs]. intros ??. apply argument_is_kept, types_kept_app.
      * split; [done|]. eexists. split; [reflexivity|]. by apply with_types_at.
Qed.

(** ** Fields *)

Lemma field_arguments_step {B} (Q : B → GraphQlSchema → Prop) l x ls w v k s :
  at_lexemes w (arguments_lexemes l ++ x :: ls) v s → arguments_ok l →
  has_description (parser v) = false → lexeme_token false x = GraphQlToken.Colon →
  (∀ args v' s', map_of fst (argument_is (heap v')) l args →
    types_added (arguments_references l) v v' →
    at_lexemes None (x :: ls) v' s' → reads (k args) Q s') →
  reads (⟨scan_optional GraphQlToken.OpenParen⟩ ≫= λ paren : bool,
    (if paren then parse_arguments_definition_after_open_paren None else mret []) ≫= k) Q s.
Proof.
  intros Hat Hl Hdesc Hx Hk. destruct l as [|a l].
  - eapply scan_optional_step; [exact Hat|simpl; congruence|]. intros _ s1 Hs1. wp_step. wp_step.
    eapply Hk; [apply map_of_nil|apply types_added_refl|by eapply at_lexemes_forget].
  - unfold arguments_lexemes in Hat. cbn [app] in Hat. rewrite <- (assoc_L (++)) in Hat.
    eapply scan_optional_step; [exact Hat| |done]. intros _ s1 Hs1. by eapply arguments_step.
Qed.

Section fields.
Context (l : list field_def) (ls : list lexeme) (v : GraphQlSchema).

(** Before the fields [todo]. *)
Definition fields_read (fl : FieldsLoop) (ls' : list lexeme) (v' : GraphQlSchema) : Prop :=
  ∃ done_ todo, l = done_ ++ todo ∧
    ls' = flat_map field_lexemes todo ++ Punct Character.CloseBrace :: ls ∧
    types_added (fields_references done_) v v' ∧
    map_of def_name (field_is (heap v')) done_ (fl_fields fl) ∧
    fl_has_at_least_one_field fl = bool_decide (done_ ≠ []) ∧
    (∀ n, n ∈ fl_field_names fl → n ∈ map def_name done_).

Lemma next_field token todo :
  word_like token = false → token ≠ GraphQlToken.CloseBrace →
  next_token false (flat_map field_lexemes todo ++ Punct Character.CloseBrace :: ls) ≠ token.
Proof. destruct todo as [|a todo]; intros; [by symmetry|by apply word_not]. Qed.

Lemma flat_map_fields f todo ls' :
  flat_map field_lexemes (f :: todo) ++ ls'
  = Word (def_name f) :: arguments_lexemes (def_arguments f)
      ++ Punct Character.Colon :: type_lexemes (def_type f) ++ flat_map field_lexemes todo ++ ls'.
Proof. simpl. by rewrite <- !(assoc_L (++)). Qed.

Lemma NoDup_middle (done_ todo : list field_def) f :
  NoDup (map def_name (done_ ++ f :: todo)) → def_name f ∉ map def_name done_.
Proof.
  rewrite map_app. intros (_ & Hnot & _)%list.NoDup_app Hin. apply (Hnot _ Hin). left.
Qed.

Lemma field_step f done_ todo fl v1 s :
  l = done_ ++ f :: todo → fields_ok l → has_description (parser v) = false →
  at_lexemes (Some (def_name f)) (arguments_lexemes (def_arguments f)
      ++ Punct Character.Colon :: type_lexemes (def_type f)
      ++ flat_map field_lexemes todo ++ Punct Character.CloseBrace :: ls) v1 s →
  types_added (fields_references done_) v v1 →
  map_of def_name (field_is (heap v1)) done_ (fl_fields fl) →
  (∀ n, n ∈ fl_field_names fl → n ∈ map def_name done_) →
  reads (parse_field_definition fl) (λ r s', ∃ fl' v', r = inl fl' ∧
    at_lexemes None (flat_map field_lexemes todo ++ Punct Character.CloseBrace :: ls) v' s' ∧
    fields_read fl' (flat_map field_lexemes todo ++ Punct Character.CloseBrace :: ls) v') s.
Proof.
  intros Hl (_ & Hok & Hnodup) Hdesc Hat Hadd Hfields Hnames. unfold parse_field_definition.
  rewrite Hl in Hok, Hnodup. apply NoDup_middle in Hnodup.
  apply list.Forall_app in Hok as [_ [(_ & Hargs & Hty) _]%list.Forall_cons].
  apply syntax_step. intros syntax _. eapply value_step; [exact Hat|].
  rewrite decide_False by auto. do 2 wp_step. apply name_step. intros name Hname.
  eapply field_arguments_step; [exact Hat|done|by eapply added_description|done|].
  intros args v2 s2 Hargs2 Hadd2 Hs2. eapply expect_step; [exact Hs2|done|]. intros s3 Hs3. cbn [negb].
  eapply type_step; [exact Hs3|done|by apply next_field|]. intros t fr s4 Ht Hadd3 Hs4. cbv beta iota.
  eapply no_directives_step; [exact Hs4|by apply next_field|]. intros s5 Hs5. wp_step.
  eexists _, _. split_and!; [done|exact Hs5|]. set (v3 := with_types [t] fr v2) in *.
  pose proof (types_added_trans _ _ _ _ _ Hadd2 Hadd3) as Hadd13.
  exists (done_ ++ [f]), todo. split_and!; cbn.
  - by rewrite <- (assoc_L (++)).
  - done.
  - rewrite fields_references_snoc. by eapply types_added_trans.
  - apply map_of_emplace.
    + eapply map_of_mono; [|exact Hfields]. intros ??.
      apply (field_is_kept (heap v1)), (types_added_kept _ _ _ Hadd13).
    + split_and!; [done|by apply (with_types_at [] t fr v2)|]. eapply map_of_mono; [|exact Hargs2].
      intros ??. apply (argument_is_kept (heap v2)), (types_added_kept _ _ _ Hadd3).
  - by rewrite bool_decide_eq_true_2 by (by destruct done_).
  - intros n. rewrite map_app, elem_of_app, elem_of_cons. simpl. intros [->|?]; [right; left|auto].
Qed.
End fields.

Lemma fields_step {B} (Q : B → GraphQlSchema → Prop) l ls w v k s :
  at_lexemes w (fields_lexemes l ++ ls) v s → fields_ok l → has_description (parser v) = false →
  (∀ m v' s', map_of def_name (field_is (heap v')) l m →
    types_added (fields_references l) v v' → at_lexemes None ls v' s' → reads (k (Some m)) Q s') →
  reads (parse_fields_definition_after_open_brace ≫= k) Q s.
Proof.
  intros Hat Hl Hdesc Hk. unfold parse_fields_definition_after_open_brace.
  unfold fields_lexemes in Hat. rewrite <- (assoc_L (++)) in Hat.
  eapply (schema_loop_step (fields_read l ls v)); [exact Hat| |].
  { exists [], l. split_and!; [done..|apply types_added_refl|apply map_of_nil|done|].
    by intros n ?%elem_of_nil. }
  clear dependent s.
  intros fl ? v1 s Hat (done_ & todo & Hdone & -> & Hadd & Hfields & Hfl & Hnames).
  destruct todo as [|f todo].
  - eapply take_lexeme_step; [exact Hat|]. intros s1 Hs1. cbn. rewrite Hfl, app_nil_r in *. subst done_.
    rewrite !bool_decide_eq_true_2 by (done || apply Hl). cbn [andb]. wp_step.
    by eapply Hk; [..|eapply at_lexemes_forget].
  - rewrite flat_map_fields in Hat |- *. eapply take_lexeme_step; [exact Hat|]. intros s1 Hs1. cbn [lexeme_token].
    eapply wp_mono; [by eapply (field_step l ls v f done_ todo)| |done].
    intros r s2 (fl' & v' & -> & Hs2 & Hread). eexists _, _. split_and!; [exact Hs2|done|shorter].
Qed.

(** ** The declaration that is being read *)

(** Behind the heap [h] the declaration and the types of its fields. *)
Definition with_decl (h : list Node) (d : Declaration) (ts : list Type_) (fr : list ptr)
    (v : GraphQlSchema) : GraphQlSchema :=
  set_heap (h ++ NDecl d :: map NType ts) (set_forward_type_references fr v).

Lemma with_decl_types h d ts fr v t fr' :
  with_types [t] fr' (with_decl h d ts fr v) = with_decl h d (ts ++ [t]) fr' v.
Proof. unfold with_types, with_decl. cbn. by rewrite map_app, <- (assoc_L (++)). Qed.

Lemma with_decl_added refs h d ts fr v v' :
  types_added refs (with_decl h d ts fr v) v' →
  ∃ ts' fr', v' = with_decl h d ts' fr' v ∧ adds refs (with_decl h d ts fr v) (with_decl h d ts' fr' v).
Proof.
  intros [(ts' & fr' & ->) Hadds]. exists (ts ++ ts'), fr'.
  assert (E : with_types ts' fr' (with_decl h d ts fr v) = with_decl h d (ts ++ ts') fr' v).
  { unfold with_types, with_decl. cbn. by rewrite map_app, <- (assoc_L (++)). }
  split; [exact E|]. by rewrite <- E.
Qed.

(** The declaration has no types. *)
Lemma with_decl_adds h d d' ts fr v v' : adds [] (with_decl h d ts fr v) (with_decl h d' ts fr v').
Proof.
  split; [apply types_kept_decl|exists []; by rewrite app_nil_r|].
  intros Hc p t Hp Ht. apply (Hc p t); [|done]. revert Hp. cbn. apply types_kept_decl.
Qed.

Lemma new_decl_adds d v v2 : adds [] v (with_decl (heap v) d [] (forward_type_references v) v2).
Proof.
  split; [apply types_kept_app|exists []; by rewrite app_nil_r|].
  intros Hc p t Hp Ht. apply (Hc p t); [|done]. cbn in Hp.
  apply lookup_app_Some in Hp as [?|[_ ?%list_lookup_singleton_Some]]; [done|naive_solver].
Qed.

(** From before the declaration to when it is complete. *)
Lemma definition_adds refs d d' d'' ts fr v v1 v2 v3 :
  adds refs (with_decl (heap v) d [] (forward_type_references v) v1) (with_decl (heap v) d' ts fr v2) →
  adds refs v (with_decl (heap v) d'' ts fr v3).
Proof.
  intros H. eapply adds_nil_l; [apply (new_decl_adds d v v)|].
  eapply adds_nil_l; [apply with_decl_adds|]. eapply adds_nil_r; [exact H|apply with_decl_adds].
Qed.

Lemma with_decl_kept h d d' ts fr v fr' v' :
  types_kept (heap (with_decl h d ts fr v)) (heap (with_decl h d' ts fr' v')).
Proof. apply types_kept_decl. Qed.

Lemma with_decl_at h d ts fr v : heap (with_decl h d ts fr v) !! length h = Some (NDecl d).
Proof. cbn. by rewrite lookup_app_r, Nat.sub_diag. Qed.

Lemma body_step {B} (Q : B → GraphQlSchema → Prop) f h d ts fr w ls v k s :
  at_lexemes w ls (with_decl h d ts fr v) s →
  (∀ s', at_lexemes w ls (with_decl h (set_body (f (body d)) d) ts fr v) s' → reads (k tt) Q s') →
  reads (update_body (length h) f ≫= k) Q s.
Proof. intros Hat Hk. by eapply update_body_step. Qed.

Lemma decl_step {B} (Q : B → GraphQlSchema → Prop) f h d ts fr w ls v k s :
  at_lexemes w ls (with_decl h d ts fr v) s →
  (∀ s', at_lexemes w ls (with_decl h (f d) ts fr v) s' → reads (k tt) Q s') →
  reads (update_decl (length h) f ≫= k) Q s.
Proof. intros Hat Hk. by eapply update_decl_step. Qed.

Lemma create_step {B} (Q : B → GraphQlSchema → Prop) kind_ b w ls v k s :
  at_lexemes w ls v s →
  (∀ syntax s', kind syntax = kind_ →
    at_lexemes w ls
      (with_decl (heap v) (new_Declaration syntax b) [] (forward_type_references v) v) s' →
    reads (k (length (heap v))) Q s') →
  reads (create_declaration kind_ b ≫= k) Q s.
Proof.
  intros Hat Hk. eapply create_declaration_step; [exact Hat|]. intros syntax s' Hsyntax Hs'.
  eapply Hk; [done|]. by destruct v.
Qed.

(** ** Input fields *)

Section input_fields.
Context (l : list argument_def) (ls : list lexeme) (h : list Node) (d : Declaration) (o : InputObject)
  (v v0 : GraphQlSchema).

(** The fields [done_] are read. *)
Definition input_decl (done_ : list argument_def) : Declaration :=
  set_body (BInputObject (set_required_fields
    (required_fields o ++ map fst (base.filter is_required done_)) o)) d.

Definition input_fields_read (a : std_map ustring InputFieldDefinition * bool) (ls' : list lexeme)
    (v' : GraphQlSchema) : Prop :=
  ∃ done_ todo ts fr, l = done_ ++ todo ∧
    ls' = flat_map argument_lexemes todo ++ Punct Character.CloseBrace :: ls ∧
    v' = with_decl h (input_decl done_) ts fr v ∧ adds (arguments_references done_) v0 v' ∧
    map_of fst (input_field_is (heap v')) done_ a.1 ∧ a.2 = bool_decide (done_ ≠ []).

Lemma next_input_field token todo :
  word_like token = false → token ≠ GraphQlToken.CloseBrace →
  next_token false (flat_map argument_lexemes todo ++ Punct Character.CloseBrace :: ls) ≠ token.
Proof. destruct todo as [|a todo]; intros; [by symmetry|by apply word_not]. Qed.

Lemma required_step {B} (Q : B → GraphQlSchema → Prop) a t done_ ts fr w ls' k s :
  type_is true a.2 t → at_lexemes w ls' (with_decl h (input_decl done_) ts fr v) s →
  (∀ s', at_lexemes w ls' (with_decl h (input_decl (done_ ++ [a])) ts fr v) s' →
    reads (k tt) Q s') →
  reads (when (is_non_null t || is_non_null_list t)
    (update_body (length h) (map_input_object (λ o,
      set_required_fields (required_fields o ++ [a.1]) o))) ≫= k) Q s.
Proof.
  intros (_ & Hnn & _ & Hnnl & _) Hat Hk. apply wp_bind, wp_when; rewrite Hnn, Hnnl; intros Hr.
  - apply wp_unbind. eapply body_step; [exact Hat|]. intros s' Hs'. apply Hk.
    unfold input_decl. rewrite list.filter_app, map_app, (assoc_L (++)). cbn [base.filter list_filter].
    by rewrite decide_True by (apply Is_true_true; exact Hr).
  - apply Hk. unfold input_decl. rewrite list.filter_app, map_app, (assoc_L (++)).
    cbn [base.filter list_filter]. rewrite decide_False by (unfold is_required; rewrite Hr; tauto).
    by rewrite app_nil_r.
Qed.

Lemma input_field_step a done_ todo m syntax ts fr s :
  any_word a.1 ∧ type_ok a.2 → l = done_ ++ a :: todo →
  adds (arguments_references done_) v0 (with_decl h (input_decl done_) ts fr v) →
  map_of fst (input_field_is (heap (with_decl h (input_decl done_) ts fr v))) done_ m →
  at_lexemes (Some a.1) (Punct Character.Colon :: type_lexemes a.2
    ++ flat_map argument_lexemes todo ++ Punct Character.CloseBrace :: ls)
    (with_decl h (input_decl done_) ts fr v) s →
  reads (parse_input_field_definition (length h) m syntax) (λ r s', ∃ m' v', r = inl (m', true) ∧
    at_lexemes None (flat_map argument_lexemes todo ++ Punct Character.CloseBrace :: ls) v' s' ∧
    input_fields_read (m', true) (flat_map argument_lexemes todo ++ Punct Character.CloseBrace :: ls) v')
    s.
Proof.
  intros [_ Hty] Hl Hadds Hm Hat. unfold parse_input_field_definition.
  eapply value_step; [exact Hat|]. apply name_step. intros name Hname.
  eapply expect_step; [exact Hat|done|]. intros s1 Hs1. cbn [negb].
  eapply type_step; [exact Hs1|done|by apply next_input_field|]. intros t fr' s2 Ht [_ Hadds2] Hs2.
  cbv beta iota. eapply read_type_step; [exact Hs2|reflexivity|]. rewrite with_decl_types in Hs2, Hadds2.
  eapply required_step; [exact Ht|exact Hs2|]. intros s3 Hs3.
  eapply no_directives_step; [exact Hs3|by apply next_input_field|]. intros s4 Hs4. wp_step.
  eexists _, _. split_and!; [done|exact Hs4|]. exists (done_ ++ [a]), todo, (ts ++ [t]), fr'.
  split_and!; cbn [fst snd]; [by rewrite <- (assoc_L (++))|done..| | |].
  - rewrite arguments_references_snoc. eapply adds_nil_r; [by eapply adds_trans|apply with_decl_adds].
  - apply map_of_emplace.
    + eapply map_of_mono; [|exact Hm]. intros ??. apply input_field_is_kept.
      transitivity (heap (with_decl h (input_decl done_) (ts ++ [t]) fr' v)); [|apply types_kept_decl].
      rewrite <- (with_decl_types _ _ _ fr). apply types_kept_app.
    + split; [done|]. apply (type_at_kept (heap (with_decl h (input_decl done_) (ts ++ [t]) fr' v)));
        [apply types_kept_decl|]. rewrite <- (with_decl_types _ _ _ fr). by apply with_types_at.
  - by rewrite bool_decide_eq_true_2 by (by destruct done_).
Qed.
End input_fields.

Lemma input_fields_step {B} (Q : B → GraphQlSchema → Prop) l ls h d o ts fr w v k s :
  at_lexemes w (Punct Character.OpenBrace :: flat_map argument_lexemes l
    ++ Punct Character.CloseBrace :: ls) (with_decl h d ts fr v) s →
  l ≠ [] → arguments_ok l → body d = BInputObject o → required_fields o = [] →
  (∀ m ts' fr' s', let v' := with_decl h (input_decl d o l) ts' fr' v in
    adds (arguments_references l) (with_decl h d ts fr v) v' →
    map_of fst (input_field_is (heap v')) l m →
    at_lexemes None ls v' s' → reads (k (Some m)) Q s') →
  reads (parse_input_fields_definition (length h) ≫= k) Q s.
Proof.
  intros Hat Hne [Hl _] Hd Ho Hk. unfold parse_input_fields_definition. apply wp_bind.
  eapply expect_step; [exact Hat|done|]. intros s1 Hs1. cbn [negb]. apply wp_unbind.
  eapply (schema_loop_step (input_fields_read l ls h d o v (with_decl h d ts fr v))); [exact Hs1| |].
  { exists [], l, ts, fr. split_and!; [done..| |by apply adds_same|apply map_of_nil|done].
    unfold input_decl. cbn. rewrite Ho. f_equal. destruct d, o; cbn in *; by subst. }
  clear dependent s s1.
  intros a ? ? s Hat (done_ & todo & ts1 & fr1 & Hdone & -> & -> & Hadds & Hm & Ha). destruct a as [m has].
  apply syntax_step. intros syntax _. cbn [fst snd] in Hm, Ha. destruct todo as [|a todo].
  - eapply take_lexeme_step; [exact Hat|]. intros s1 Hs1. cbn. rewrite app_nil_r in *. subst done_ has.
    rewrite !bool_decide_eq_true_2 by done. cbn [andb]. wp_step.
    eapply Hk; [exact Hadds|exact Hm|]. by eapply at_lexemes_forget.
  - rewrite flat_map_arguments in Hat |- *. eapply take_lexeme_step; [exact Hat|]. intros s1 Hs1.
    cbn [lexeme_token]. rewrite Hdone in Hl. apply list.Forall_app in Hl as [_ [Hok _]%list.Forall_cons].
    eapply wp_mono; [by eapply (input_field_step l ls h d o v (with_decl h d ts fr v) a done_ todo)| |done].
    intros r s2 (m' & v' & -> & Hs2 & Hread). eexists _, _. split_and!; [exact Hs2|done|shorter].
Qed.
