(* ===== verification/SchemaParts.v ===== *)
(** * Reading the parts of definitions

    What the registration of names and the loops over interfaces, union members,
    enum values and the fields of a schema definition leave of a rendering of them. *)
From S2P Require Import Prelude Monad Character Cstring Diagnostic StdMap Syntaxes.
From S2P Require Import TextWriter Scanner Parser Schema SchemaChecks LexerText SchemaText Reading SchemaTypes.
From S2P Require Import SchemaFields.

#[local] Arguments u : simpl never.

(** ** Names *)

Definition registered (n : ustring) (p : ptr) (kind_ : SymbolKind) (v : GraphQlSchema) :
    GraphQlSchema :=
  set_symbols (emplace n (mkSymbol n p kind_) (symbols v)) v.

Lemma at_lexemes_symbols w ls v s : at_lexemes w ls v s → symbols s = symbols v.
Proof. by intros [<- _ _]. Qed.

Section names.
Context {B : Type} (Q : B → GraphQlSchema → Prop).

Lemma add_symbol_step n p kind_ w ls v k s :
  at_lexemes w ls v s →
  (∀ s', at_lexemes w ls (registered n p kind_ v) s' → reads (k tt) Q s') →
  reads (add_symbol n p kind_ ≫= k) Q s.
Proof. intros Hat Hk. unfold add_symbol. eapply modify_step; [exact Hat|done..]. Qed.

Lemma register_step name p kind_ w ls v k s :
  at_lexemes w ls v s → find (identifier name) (symbols v) = None →
  (∀ s', at_lexemes w ls (registered (identifier name) p kind_ v) s' → reads (k tt) Q s') →
  reads (register_symbol name p kind_ ≫= k) Q s.
Proof.
  intros Hat Hfind Hk. wp_step. unfold register_symbol. do 2 wp_step.
  rewrite (at_lexemes_symbols _ _ _ _ Hat), Hfind. apply wp_unbind. by eapply add_symbol_step.
Qed.

Lemma no_description_step p w ls v k s :
  at_lexemes w ls v s → has_description (parser v) = false → reads (k tt) Q s →
  reads (assign_description p ≫= k) Q s.
Proof.
  intros Hat Hdesc Hk. wp_step. unfold assign_description. do 2 wp_step.
  rewrite (at_lexemes_description _ _ _ _ Hat), Hdesc. by wp_step.
Qed.
End names.

Section declared.
Context {B : Type} (Q : B → GraphQlSchema → Prop).
Context (h : list Node) (d : Declaration) (ts : list Type_) (fr : list ptr) (v : GraphQlSchema).
Context (no_description : has_description (parser v) = false).

Lemma assign_name_step name w ls k s :
  at_lexemes w ls (with_decl h d ts fr v) s →
  (∀ s', at_lexemes w ls (with_decl h (set_decl_name (Some name) d) ts fr v) s' →
    reads (k tt) Q s') →
  reads (assign_name (length h) name ≫= k) Q s.
Proof. intros Hat Hk. unfold assign_name. by eapply decl_step. Qed.

(** [parse_object_name] and [parse_input_object_name] differ in what they scan. *)
Lemma declaration_name_step kw kind_ n w ls k s :
  at_lexemes w (Word n :: ls) (with_decl h d ts fr v) s →
  lexeme_token kw (Word n) = GraphQlToken.G_Name → find n (symbols v) = None →
  (∀ name w' s', identifier name = n →
    at_lexemes w' ls (with_decl h (set_decl_name (Some name) d) ts fr
      (registered n (length h) kind_ v)) s' → reads (k true) Q s') →
  reads (name_declaration (length h) (
    ok ← ⟨scan_expected_template GraphQlToken.G_Name Expected_type_name_instead_got_0 kw⟩;
    if negb ok then mret None else
    value ← ⟨get_token_value⟩;
    name ← ⟨create_name value⟩;
    register_symbol name (length h) kind_;;
    mret (Some name)) ≫= k) Q s.
Proof.
  intros Hat Hn Hfind Hk. apply wp_bind. unfold name_declaration. apply wp_bind.
  eapply expect_template_step; [exact Hat|exact Hn|]. intros s1 Hs1. cbn [negb].
  eapply value_step; [exact Hs1|]. apply name_step. intros name Hname.
  eapply register_step; [exact Hs1|by rewrite Hname|]. intros s2 Hs2. wp_step.
  cbn [lexeme_text] in Hname. rewrite Hname in Hs2.
  eapply (decl_step _ _ h d ts fr _ _ (registered n (length h) kind_ v)); [exact Hs2|].
  intros s3 Hs3. eapply no_description_step; [exact Hs3|done|]. wp_step.
  by eapply Hk.
Qed.
End declared.

(** ** Interfaces *)

Section implementations.
Context (l : list ustring) (ls : list lexeme) (v : GraphQlSchema).

(** Before the name [n]. *)
Definition implementations_read (m : std_map ustring Name) (ls' : list lexeme) (v' : GraphQlSchema) :
    Prop :=
  ∃ done_ n todo fi, l = done_ ++ n :: todo ∧
    ls' = Word n :: separated_lexemes Character.Ampersand todo ++ Punct Character.OpenBrace :: ls ∧
    v' = set_forward_interface_references fi v ∧ map_of id named done_ m.

Lemma interface_step {B} (Q : B → GraphQlSchema → Prop) name n fi w ls' k s :
  at_lexemes w ls' (set_forward_interface_references fi v) s →
  (∀ symbol, find n (symbols v) = Some symbol → symbol_kind symbol = SL_Interface) →
  (∀ fi' s', at_lexemes w ls' (set_forward_interface_references fi' v) s' → reads (k tt) Q s') →
  reads (match find n (symbols v) with
    | None => modify (λ s,
        set_forward_interface_references (forward_interface_references s ++ [name]) s)
    | Some symbol =>
        when (bool_decide (symbol_kind symbol ≠ SL_Interface))
          ⟨add_diagnostic Expected_name_of_interface []⟩
    end ≫= k) Q s.
Proof.
  intros Hat Hn Hk. destruct (find n (symbols v)) as [symbol|].
  - rewrite bool_decide_eq_false_2 by (intros H; by apply H, Hn). do 2 wp_step; [done|].
    by eapply Hk.
  - eapply (modify_step _ (λ s, set_forward_interface_references
      (forward_interface_references s ++ [name]) s)); [exact Hat|done|done|].
    intros s' Hs'. by eapply Hk.
Qed.
End implementations.

Lemma implementations_step {B} (Q : B → GraphQlSchema → Prop) n l ls w v k s :
  at_lexemes w (Word n :: separated_lexemes Character.Ampersand l ++ Punct Character.OpenBrace :: ls) v s →
  Forall plain_word (n :: l) →
  (∀ n' symbol, n' ∈ n :: l → find n' (symbols v) = Some symbol → symbol_kind symbol = SL_Interface) →
  (∀ i fi s', map_of id named (n :: l) (implementations i) →
    at_lexemes None ls (set_forward_interface_references fi v) s' → reads (k (Some i)) Q s') →
  reads (parse_implementations ≫= k) Q s.
Proof.
  intros Hat Hl Hsymbols Hk. apply wp_bind. unfold parse_implementations.
  apply syntax_step. intros syntax _. apply wp_unbind.
  eapply (schema_loop_step (implementations_read (n :: l) ls v)); [exact Hat| |].
  { exists [], n, l, (forward_interface_references v). split_and!; [done..| |apply map_of_nil].
    by destruct v. }
  clear dependent s. intros m ? ? s Hat (done_ & n' & todo & fi & Hdone & -> & -> & Hm).
  assert (Hn' : n' ∈ n :: l) by (rewrite Hdone, elem_of_app; right; left).
  assert (Hplain : plain_word n') by exact (Forall_elem _ _ _ Hl Hn').
  eapply take_lexeme_step; [exact Hat|]. intros s1 Hs1. rewrite (proj2 Hplain).
  rewrite decide_False, decide_False by (by intros H; try apply H).
  eapply value_step; [exact Hs1|]. apply name_step. intros name Hname. do 2 wp_step.
  rewrite (at_lexemes_symbols _ _ _ _ Hs1). cbn [lexeme_text set_forward_interface_references symbols].
  eapply interface_step; [exact Hs1|intros symbol; by apply Hsymbols|]. intros fi' s2 Hs2.
  assert (Hm' : map_of id named (done_ ++ [n']) (emplace n' name m)) by by apply map_of_emplace.
  destruct todo as [|n2 todo].
  - eapply take_lexeme_step; [exact Hs2|]. intros s3 Hs3%at_lexemes_forget. cbn. wp_step.
    eapply (Hk _ fi'); [|exact Hs3]. by rewrite Hdone.
  - eapply take_lexeme_step; [exact Hs2|]. intros s3 Hs3%at_lexemes_forget. cbn. wp_step.
    exists (Word n2 :: separated_lexemes Character.Ampersand todo ++ Punct Character.OpenBrace :: ls).
    eexists. split_and!; [exact Hs3| |unfold separated_lexemes; cbn [flat_map]; shorter].
    exists (done_ ++ [n']), n2, todo, fi'. by rewrite <- (assoc_L (++)).
Qed.

(** ** Union members *)

(** From here [revert] goes back to before [ls]. *)
Definition reverts (ls : list lexeme) (v s : GraphQlSchema) : Prop :=
  ∀ (B : Type) (Q : B → GraphQlSchema → Prop) k,
    (∀ s', at_lexemes None ls v s' → reads (k tt) Q s') → reads (⟨⟨revert⟩⟩ ≫= k) Q s.

Lemma save_take_step {B} (Q : B → GraphQlSchema → Prop) w ls v k s :
  at_lexemes w ls v s →
  (∀ s', at_lexemes None (tail ls) v s' → reverts ls v s' →
    reads (k (next_token false ls)) Q s') →
  reads (⟨⟨save⟩⟩ ≫= λ _, ⟨TakeNextToken⟩ ≫= k) Q s.
Proof.
  intros Hat Hk. pose proof (al_reading _ _ _ _ Hat) as Hread.
  set (sc0 := scanner (parser s)) in *.
  set (sc1 := set_saved_text_cursors (mkSavedTextCursor (position sc0) (Scanner.line sc0)
    (column sc0) (start_position sc0) (start_line sc0) (start_column sc0)
    :: saved_text_cursors sc0) sc0).
  eapply (scanner_step _ save (λ _ sc, sc = sc1)); [by apply wp_modify|]. intros _ ? ->.
  eapply scanner_step; [by apply take_reading, (lexemes_reading_same ls sc0)|].
  intros token sc2 (-> & Hr & _ & Hss). apply Hk; [exact (at_lexemes_taken w ls _ v s sc2 None Hat Hr ltac:(done))|].
  intros C Q' k' Hk'.
  eapply (scanner_step _ revert (λ _ sc, reading ls sc)).
  - unfold revert. do 2 wp_step. cbn. rewrite (ss_saved _ _ Hss). cbn. repeat wp_step.
    apply (lexemes_reading_same ls sc0); [exact (ss_source _ _ Hss)|exact (ss_size _ _ Hss)|done..].
  - intros [] sc3 Hsc3. apply Hk'. destruct Hat as [Hv _ _]. by split.
Qed.

Section union.
Context (l : list ustring) (ls : list lexeme) (h : list Node) (d : Declaration)
  (dirs : std_map ustring Directive) (ts : list Type_) (fr : list ptr) (v : GraphQlSchema).

Definition union_decl (m : std_map ustring Name) : Declaration :=
  set_body (BUnion (mkUnionTypeDefinition m dirs)) d.

(** The members [done_] are read. *)
Definition members_read (_ : unit) (ls' : list lexeme) (v' : GraphQlSchema) : Prop :=
  ∃ done_ todo m, l = done_ ++ todo ∧ ls' = separated_lexemes Character.Pipe todo ++ ls ∧
    v' = with_decl h (union_decl m) ts fr v ∧ map_of id named done_ m.

Lemma member_step {B} (Q : B → GraphQlSchema → Prop) n m w ls' k s :
  at_lexemes w ls' (with_decl h (union_decl m) ts fr v) s →
  (∀ name s', identifier name = n →
    at_lexemes w ls' (with_decl h (union_decl (emplace n name m)) ts fr v) s' → reads (k tt) Q s') →
  reads ((name ← ⟨create_name n⟩;
    update_body (length h) (map_union (λ v, set_members (emplace n name (members v)) v))) ≫= k) Q s.
Proof.
  intros Hat Hk. apply wp_bind. apply name_step. intros name Hname. apply wp_unbind.
  eapply body_step; [exact Hat|]. intros s' Hs'. by eapply Hk.
Qed.
End union.

Lemma separated_cons c n todo ls :
  separated_lexemes c (n :: todo) ++ ls = Punct c :: Word n :: separated_lexemes c todo ++ ls.
Proof. done. Qed.

Lemma members_step {B} (Q : B → GraphQlSchema → Prop) first rest ls h d dirs m ts fr w v k s :
  at_lexemes w (separated_lexemes Character.Pipe rest ++ ls)
    (with_decl h (union_decl d dirs m) ts fr v) s →
  Forall plain_word (first :: rest) → token_is_primary (next_token false ls) = true →
  map_of id named [first] m →
  (∀ m' s', map_of id named (first :: rest) m' →
    at_lexemes None ls (with_decl h (union_decl d dirs m') ts fr v) s' → reads (k true) Q s') →
  reads (schema_loop (λ _ : unit,
    ⟨⟨save⟩⟩;;
    token ← ⟨TakeNextToken⟩;
    if decide (token ≠ GraphQlToken.Pipe) then
      if token_is_primary token then ⟨⟨revert⟩⟩;; mret (inr true)
      else ⟨skip_to_next_primary_token⟩;; mret (inr false)
    else
      ok ← ⟨expect GraphQlToken.G_Name⟩;
      if negb ok then ⟨skip_to_next_primary_token⟩;; mret (inr false)
      else member ← ⟨get_token_value⟩;
        (name ← ⟨create_name member⟩;
         update_body (length h) (map_union (λ v, set_members (emplace member name (members v)) v)));;
        mret (inl tt)) tt ≫= k) Q s.
Proof.
  intros Hat Hrest Hls Hm Hk.
  eapply (schema_loop_step (members_read (first :: rest) ls h d dirs ts fr v)); [exact Hat| |].
  { by exists [first], rest, m. }
  clear dependent s m. intros [] ? ? s Hat (done_ & todo & m & Hdone & -> & -> & Hm).
  eapply save_take_step; [exact Hat|]. intros s1 Hs1 Hrev. destruct todo as [|n todo].
  - cbn [separated_lexemes flat_map app] in *. rewrite decide_True, Hls by (intros E; by rewrite E in Hls).
    apply Hrev. intros s2 Hs2. wp_step. eapply Hk; [|exact Hs2]. by rewrite Hdone, app_nil_r.
  - rewrite separated_cons in *. cbn [next_token]. rewrite decide_False by (intros H; by apply H).
    assert (Hn : plain_word n).
    { apply (Forall_elem _ _ _ Hrest). rewrite Hdone, elem_of_app. right; left. }
    eapply expect_step; [exact Hs1|apply Hn|]. intros s2 Hs2. cbn [negb].
    eapply value_step; [exact Hs2|].
    eapply member_step; [exact Hs2|]. intros name s3 Hname Hs3%at_lexemes_forget. wp_step.
    eexists _, _. split_and!; [exact Hs3| |shorter].
    exists (done_ ++ [n]), todo, (emplace n name m). rewrite <- (assoc_L (++)).
    split_and!; [done..|]. by apply map_of_emplace.
Qed.

(** ** Enum values *)

Section enum.
Context (l : list ustring) (ls : list lexeme) (h : list Node) (d : Declaration)
  (dirs : std_map ustring Directive) (ts : list Type_) (fr : list ptr) (v : GraphQlSchema).

Definition enum_decl (m : std_map ustring EnumValueDefinition) : Declaration :=
  set_body (BEnum (mkEnumTypeDefinition dirs m)) d.

Definition value_is (n : ustring) (v : EnumValueDefinition) : Prop := named n (evd_name v).

(** The values [done_] are read. *)
Definition values_read (has : bool) (ls' : list lexeme) (v' : GraphQlSchema) : Prop :=
  ∃ done_ todo m, l = done_ ++ todo ∧ ls' = map Word todo ++ Punct Character.CloseBrace :: ls ∧
    v' = with_decl h (enum_decl m) ts fr v ∧ map_of id value_is done_ m ∧
    has = bool_decide (done_ ≠ []).

Lemma next_value token todo :
  word_like token = false → token ≠ GraphQlToken.CloseBrace →
  next_token false (map Word todo ++ Punct Character.CloseBrace :: ls) ≠ token.
Proof. destruct todo as [|a todo]; intros; [by symmetry|by apply word_not]. Qed.

Lemma enum_value_step n done_ todo m has s :
  at_lexemes None (Word n :: map Word todo ++ Punct Character.CloseBrace :: ls)
    (with_decl h (enum_decl m) ts fr v) s →
  enum_value_ok n → l = done_ ++ n :: todo → map_of id value_is done_ m →
  reads (parse_enum_value (length h) has) (λ r s', ∃ v', r = inl true ∧
    at_lexemes None (map Word todo ++ Punct Character.CloseBrace :: ls) v' s' ∧
    values_read true (map Word todo ++ Punct Character.CloseBrace :: ls) v') s.
Proof.
  intros Hat [_ Hn] Hl Hm. unfold parse_enum_value.
  eapply take_lexeme_step; [exact Hat|]. intros s1 Hs1.
  assert (Hne : ∀ t, is_valid_enum_value t = false → lexeme_token false (Word n) ≠ t) by congruence.
  rewrite bool_decide_eq_false_2 by by apply Hne. cbn [andb].
  rewrite decide_False, decide_False by by apply Hne. rewrite Hn. cbn [negb].
  eapply value_step; [exact Hs1|]. apply name_step. intros name Hname.
  eapply no_directives_step; [exact Hs1|by apply next_value|]. intros s2 Hs2.
  eapply body_step; [exact Hs2|]. intros s3 Hs3%at_lexemes_forget. wp_step.
  eexists. split_and!; [done|exact Hs3|].
  exists (done_ ++ [n]), todo, (emplace n (mkEnumValueDefinition name [] []) m).
  rewrite <- (assoc_L (++)). split_and!; [done..|by apply map_of_emplace|].
  by rewrite bool_decide_eq_true_2 by (by destruct done_).
Qed.
End enum.

Lemma enum_values_step {B} (Q : B → GraphQlSchema → Prop) l ls h d dirs ts fr w v k s :
  at_lexemes w (map Word l ++ Punct Character.CloseBrace :: ls)
    (with_decl h (enum_decl d dirs []) ts fr v) s →
  Forall enum_value_ok l → l ≠ [] →
  (∀ m s', map_of id value_is l m →
    at_lexemes None ls (with_decl h (enum_decl d dirs m) ts fr v) s' →
    reads (k (Some (length h))) Q s') →
  reads (schema_loop (parse_enum_value (length h)) false ≫= k) Q s.
Proof.
  intros Hat Hl Hne Hk.
  eapply (schema_loop_step (values_read l ls h d dirs ts fr v)); [exact Hat| |].
  { exists [], l, []. split_and!; [done..|apply map_of_nil|done]. }
  clear dependent s. intros has ? ? s Hat (done_ & todo & m & Hdone & -> & -> & Hm & ->).
  destruct todo as [|n todo].
  - unfold parse_enum_value. eapply take_lexeme_step; [exact Hat|]. intros s1 Hs1%at_lexemes_forget.
    rewrite app_nil_r in Hdone. subst done_. cbn. rewrite !bool_decide_eq_true_2 by done. cbn [andb].
    wp_step. by eapply Hk.
  - eapply wp_mono; [by eapply (enum_value_step l ls h d dirs ts fr v n done_ todo); 
      [exact Hat|apply (Forall_elem _ _ _ Hl); rewrite Hdone, elem_of_app; right; left|..]| |done].
    intros r s1 (v' & -> & Hs1 & Hread). eexists _, _. split_and!; [exact Hs1|done|cbn [map]; shorter].
Qed.

(** ** The fields of a schema definition *)

Section roots.
Context (l : list (RootType * ustring)) (ls : list lexeme) (h : list Node) (d : Declaration)
  (ts : list Type_) (fr : list ptr) (v : GraphQlSchema).

Definition schema_decl (x : Schema) : Declaration := set_body (BSchema x) d.

Definition has_roots (roots : list (RootType * ustring)) (x : Schema) : Prop :=
  ∀ r, match schema_root r x with
  | Some n => (r, identifier n) ∈ roots
  | None => r ∉ map fst roots
  end.

(** The fields [done_] are read; no field was there twice. *)
Definition roots_read (added : Z * Z) (ls' : list lexeme) (v' : GraphQlSchema) : Prop :=
  ∃ done_ todo x, l = done_ ++ todo ∧
    ls' = flat_map root_lexemes todo ++ Punct Character.CloseBrace :: ls ∧
    v' = with_decl h (schema_decl x) ts fr v ∧ has_roots done_ x ∧
    (∀ r, is_absent added.1 r = bool_decide (r ∉ map fst done_)).

Lemma is_absent_added a r r' :
  is_absent (Z.lor a (RootType_value r)) r' = is_absent a r' && bool_decide (r' ≠ r).
Proof.
  unfold is_absent. rewrite Z.land_lor_distr_l.
  replace (Z.land (RootType_value r) (RootType_value r'))
    with (if decide (r' = r) then RootType_value r else 0%Z) by (by destruct r, r').
  case_decide as E.
  - subst. rewrite (bool_decide_eq_false_2 (_ ≠ _)) by tauto. rewrite andb_false_r.
    apply Z.eqb_neq. intros [_ H]%Z.lor_eq_0_iff. by destruct r.
  - rewrite Z.lor_0_r, (bool_decide_eq_true_2 (_ ≠ _)) by done. by rewrite andb_true_r.
Qed.

Lemma schema_root_set r r' n x :
  schema_root r' (set_root r n x) = if decide (r' = r) then n else schema_root r' x.
Proof. by destruct r, r'. Qed.

Lemma schema_root_key r r' n x : schema_root r' (set_root_key r n x) = schema_root r' x.
Proof. by destruct r, r'. Qed.
End roots.

Lemma field_after_colon_step {B} (Q : B → GraphQlSchema → Prop) n w ls v k s :
  at_lexemes w (Punct Character.Colon :: Word n :: ls) v s → plain_word n →
  (∀ name s', identifier name = n → at_lexemes None ls v s' → reads (k (Some name)) Q s') →
  reads (⟨parse_schema_field_after_colon⟩ ≫= k) Q s.
Proof.
  intros Hat [_ Hn] Hk. unfold parse_schema_field_after_colon.
  eapply wp_eq; [apply run_zoom_bind|]. eapply expect_step; [exact Hat|done|]. intros s1 Hs1. cbn [negb].
  eapply wp_eq; [apply run_zoom_bind|]. eapply expect_step; [exact Hs1|exact Hn|]. intros s2 Hs2.
  cbn [negb]. eapply wp_eq; [apply run_zoom_bind|]. eapply value_step; [exact Hs2|].
  eapply wp_eq; [apply run_zoom_bind|]. apply name_step. intros name Hname.
  do 3 wp_step. destruct s2 as [[]]. by eapply Hk; [|eapply at_lexemes_forget].
Qed.

Section schema_definition.
Context (l : list (RootType * ustring)) (ls : list lexeme) (h : list Node) (d : Declaration)
  (ts : list Type_) (fr : list ptr) (v : GraphQlSchema).

Lemma root_step r n done_ todo x added w s :
  at_lexemes w (Punct Character.Colon :: Word n
    :: flat_map root_lexemes todo ++ Punct Character.CloseBrace :: ls)
    (with_decl h (schema_decl d x) ts fr v) s →
  plain_word n → l = done_ ++ (r, n) :: todo → NoDup (map fst l) → has_roots done_ x →
  (∀ r, is_absent added.1 r = bool_decide (r ∉ map fst done_)) →
  reads (parse_root_field (length h) r added) (λ a s', ∃ v',
    at_lexemes None (flat_map root_lexemes todo ++ Punct Character.CloseBrace :: ls) v' s' ∧
    roots_read l ls h d ts fr v a (flat_map root_lexemes todo ++ Punct Character.CloseBrace :: ls) v') s.
Proof.
  intros Hat Hn Hl Hnodup Hx Hadded. unfold parse_root_field. destruct added as [added dup].
  cbn [fst] in Hadded.
  assert (Hr : r ∉ map fst done_).
  { rewrite Hl, map_app in Hnodup. apply list.NoDup_app in Hnodup as (_ & Hnot & _).
    intros Hin. apply (Hnot _ Hin). left. }
  rewrite Hadded, bool_decide_eq_true_2 by done. apply name_step. intros key _.
  eapply body_step; [exact Hat|]. intros s1 Hs1.
  eapply field_after_colon_step; [exact Hs1|exact Hn|]. intros name s2 Hname Hs2.
  eapply body_step; [exact Hs2|]. intros s3 Hs3. wp_step. eexists. split; [exact Hs3|].
  exists (done_ ++ [(r, n)]), todo, (set_root r (Some name) (set_root_key r (Some key) x)).
  split_and!; [by rewrite <- (assoc_L (++))|done..| |].
  - intros r'. rewrite schema_root_set. case_decide as E.
    + subst r'. rewrite elem_of_app. right. rewrite Hname. left.
    + rewrite schema_root_key. specialize (Hx r'). destruct (schema_root r' x).
      * rewrite elem_of_app. by left.
      * rewrite map_app, elem_of_app. simpl. rewrite list_elem_of_singleton. by intros [?|?].
  - intros r'. cbn [fst]. rewrite is_absent_added, Hadded.
    rewrite <- bool_decide_and. apply bool_decide_ext. rewrite map_app, elem_of_app. simpl.
    rewrite list_elem_of_singleton. tauto.
Qed.
End schema_definition.

Lemma root_token r : lexeme_token false (Word (root_name r)) =
  match r with
  | Query => GraphQlToken.QueryKeyword
  | Mutation => GraphQlToken.MutationKeyword
  | Subscription => GraphQlToken.SubscriptionKeyword
  end.
Proof. by destruct r. Qed.

Lemma schema_fields_step {B} (Q : B → GraphQlSchema → Prop) l ls h d ts fr w v k s :
  at_lexemes w (flat_map root_lexemes l ++ Punct Character.CloseBrace :: ls)
    (with_decl h (schema_decl d new_Schema) ts fr v) s →
  Forall (λ r, plain_word r.2) l → NoDup (map fst l) →
  (∀ x s', has_roots l x → at_lexemes None ls (with_decl h (schema_decl d x) ts fr v) s' →
    reads (k tt) Q s') →
  reads (schema_loop (parse_schema_body (length h)) (0%Z, 0%Z) ≫= k) Q s.
Proof.
  intros Hat Hl Hnodup Hk.
  eapply (schema_loop_step (roots_read l ls h d ts fr v)); [exact Hat| |].
  { exists [], l, new_Schema. split_and!; [done..| |].
    - intros r. destruct r; apply not_elem_of_nil.
    - intros r. rewrite bool_decide_eq_true_2 by apply not_elem_of_nil. by destruct r. }
  clear dependent s. intros added ? ? s Hat (done_ & todo & x & Hdone & -> & -> & Hx & Hadded).
  unfold parse_schema_body. destruct todo as [|[r n] todo].
  - eapply take_lexeme_step; [exact Hat|]. intros s1 Hs1%at_lexemes_forget.
    rewrite app_nil_r in Hdone. subst done_. cbn. wp_step. by eapply Hk.
  - eapply take_lexeme_step; [exact Hat|]. intros s1 Hs1%at_lexemes_forget. cbn [fst snd] in Hs1. rewrite root_token.
    assert (Hn : plain_word n).
    { apply (Forall_elem (λ r, plain_word r.2) l (r, n)); [done|]. rewrite Hdone, elem_of_app. right; left. }
    pose proof (root_step l ls h d ts fr v r n done_ todo x added None s1 Hs1 Hn Hdone Hnodup Hx Hadded) as Hstep.
    destruct r; cbn [fst]; wp_step; (eapply wp_mono; [exact Hstep| |done]);
      intros a s2 (v' & Hs2 & Hread); wp_step;
      (eexists _, _; split_and!; [exact Hs2|done|simpl; lia]).
Qed.
