(* ===== verification/SchemaRoundTrip.v ===== *)
(** * Printed schemas are parsed back

    The parser of type definitions on the text of a document of them: what the heap
    and the symbols describe afterwards is the document. *)
From S2P Require Import Prelude Monad Character Cstring Diagnostic StdMap Syntaxes.
From S2P Require Import TextWriter Scanner Parser Schema SchemaChecks LexerText ScannerProperties SchemaText.
From S2P Require Import Reading SchemaTypes SchemaFields SchemaParts.

#[local] Arguments u : simpl never.

(** ** Definitions *)

(** What the checks go through, once the declaration at [p] is read. *)
Definition tables_with (d : definition) (p : ptr) (v v' : GraphQlSchema) : Prop :=
  interfaces v' = match d with
    | InterfaceDef name _ => emplace name p (interfaces v)
    | _ => interfaces v
    end ∧
  unions v' = match d with UnionDef _ _ _ => unions v ++ [p] | _ => unions v end ∧
  objects_with_implementations v' = match d with
    | ObjectDef _ (_ :: _) _ => objects_with_implementations v ++ [p]
    | _ => objects_with_implementations v
    end.

(** The definition is the first new node, and its symbol the new symbol. *)
Record defined (d : definition) (v v' : GraphQlSchema) : Prop := {
  df_describes : describes (heap v') (length (heap v)) d;
  df_heap : ∃ h, heap v' = heap v ++ h;
  df_symbols : symbols v' = match definition_symbol d with
    | Some (n, kind_) => emplace n (mkSymbol n (length (heap v)) kind_) (symbols v)
    | None => symbols v
    end;
  df_parser : parser v' = parser v;
  df_definitions : definitions v' = definitions v;
  df_tables : tables_with d (length (heap v)) v v';
  df_adds : adds (definition_references d) v v'
}.

(** The symbol of the definition is new. *)
Definition undeclared (d : definition) (v : GraphQlSchema) : Prop :=
  match definition_symbol d with Some (n, _) => find n (symbols v) = None | None => True end.

Lemma defined_decl d v decl ts fr v2 :
  identifier <$> decl_name decl = fst <$> definition_symbol d →
  kind (decl_syntax decl) = body_kind (body decl) →
  body_is (heap (with_decl (heap v) decl ts fr v2)) d (body decl) →
  symbols v2 = match definition_symbol d with
    | Some (n, kind_) => emplace n (mkSymbol n (length (heap v)) kind_) (symbols v)
    | None => symbols v
    end →
  parser v2 = parser v → definitions v2 = definitions v →
  tables_with d (length (heap v)) v v2 →
  adds (definition_references d) v (with_decl (heap v) decl ts fr v2) →
  defined d v (with_decl (heap v) decl ts fr v2).
Proof.
  intros Hname Hkind Hbody Hsymbols Hparser Hdefs Htables Hadds. split; [| |done..].
  - exists decl. split_and!; [apply with_decl_at|done..].
  - eexists. reflexivity.
Qed.

Lemma map_of_fields_kept l m h d d' ts fr v fr' v' :
  map_of def_name (field_is (heap (with_decl h d ts fr v))) l m →
  map_of def_name (field_is (heap (with_decl h d' ts fr' v'))) l m.
Proof. apply map_of_mono. intros ??. apply field_is_kept, types_kept_decl. Qed.

(** The lexemes up to the closing brace. *)
Lemma enum_rest name values ls :
  definition_rest (EnumDef name values) ++ ls
  = Word name :: Punct Character.OpenBrace :: map Word values ++ Punct Character.CloseBrace :: ls.
Proof. simpl. by rewrite <- (assoc_L (++)). Qed.

Lemma input_rest name l ls :
  definition_rest (InputDef name l) ++ ls
  = Word name :: Punct Character.OpenBrace :: flat_map argument_lexemes l
      ++ Punct Character.CloseBrace :: ls.
Proof. simpl. by rewrite <- (assoc_L (++)). Qed.

Lemma schema_rest roots ls :
  definition_rest (SchemaDef roots) ++ ls
  = Punct Character.OpenBrace :: flat_map root_lexemes roots ++ Punct Character.CloseBrace :: ls.
Proof. simpl. by rewrite <- (assoc_L (++)). Qed.

Lemma union_rest name first rest ls :
  definition_rest (UnionDef name first rest) ++ ls
  = Word name :: Punct Character.Equal :: Word first :: separated_lexemes Character.Pipe rest ++ ls.
Proof. done. Qed.

Lemma interface_rest name l ls :
  definition_rest (InterfaceDef name l) ++ ls
  = Word name :: Punct Character.OpenBrace :: fields_lexemes l ++ ls.
Proof. done. Qed.

Lemma object_rest name implements l ls :
  definition_rest (ObjectDef name implements l) ++ ls
  = Word name :: implements_lexemes implements ++ Punct Character.OpenBrace :: fields_lexemes l ++ ls.
Proof. simpl. by rewrite <- (assoc_L (++)). Qed.

Section definitions.
Context {B : Type} (Q : B → GraphQlSchema → Prop) (k : option ptr → M GraphQlSchema B).
Context (ls : list lexeme) (v : GraphQlSchema) (no_description : has_description (parser v) = false).

(** What is left to do after the definition. *)
Definition continues (d : definition) : Prop :=
  ∀ v' s', defined d v v' → at_lexemes None ls v' s' → reads (k (Some (length (heap v)))) Q s'.

Lemma plain_any w : plain_word w → any_word w.
Proof. by intros []. Qed.

Lemma fields_definition_step {C} (Q' : C → GraphQlSchema → Prop) l h d ts fr w v2 k' s :
  at_lexemes w (Punct Character.OpenBrace :: fields_lexemes l ++ ls) (with_decl h d ts fr v2) s →
  fields_ok l → has_description (parser v2) = false →
  (∀ m ts' fr' s', map_of def_name (field_is (heap (with_decl h d ts' fr' v2))) l m →
    adds (fields_references l) (with_decl h d ts fr v2) (with_decl h d ts' fr' v2) →
    at_lexemes None ls (with_decl h d ts' fr' v2) s' → reads (k' (Some m)) Q' s') →
  reads (parse_fields_definition ≫= k') Q' s.
Proof.
  intros Hat Hl Hdesc Hk. apply wp_bind. unfold parse_fields_definition.
  eapply expect_step; [exact Hat|done|]. intros s1 Hs1. cbn [negb]. apply wp_unbind.
  eapply fields_step; [exact Hs1|done..|]. intros m v' s2 Hm Hadd Hs2.
  destruct (with_decl_added _ _ _ _ _ _ _ Hadd) as (ts' & fr' & -> & Hadds). by eapply Hk.
Qed.

Lemma interface_definition_step name fields_ w s :
  at_lexemes w (definition_rest (InterfaceDef name fields_) ++ ls) v s →
  definition_ok (InterfaceDef name fields_) → undeclared (InterfaceDef name fields_) v →
  continues (InterfaceDef name fields_) →
  reads (parse_interface_definition ≫= k) Q s.
Proof.
  intros Hat [Hname Hfields] Hnew Hk. rewrite interface_rest in Hat. apply wp_bind. unfold parse_interface_definition.
  eapply create_step; [exact Hat|]. intros syntax s1 Hsyntax Hs1.
  eapply (declaration_name_step _ (heap v) _ _ _ v); [done|exact Hs1|done|exact Hnew|].
  intros n w2 s2 Hn Hs2. cbn [negb].
  eapply no_directives_step; [exact Hs2|discriminate|]. intros s3 Hs3.
  eapply (body_step _ _ (heap v)); [exact Hs3|]. intros s4 Hs4.
  eapply (fields_definition_step _ fields_ (heap v)); [exact Hs4|done..|]. intros m ts fr s5 Hm Hadds Hs5.
  eapply (body_step _ _ (heap v)); [exact Hs5|]. intros s6 Hs6.
  apply wp_bind. unfold read_decl_name.
  eapply (read_decl_step _ (heap v)); [exact Hs6|reflexivity|].
  apply wp_deref; [|discriminate]. intros ? [= <-].
  eapply (modify_step _ (λ s, set_interfaces (emplace (identifier n) (length (heap v))
    (interfaces s)) s)); [exact Hs6|done|done|].
  intros s7 Hs7. wp_step. eapply Hk; [|eapply at_lexemes_forget, Hs7].
  apply (defined_decl _ v _ ts fr (set_interfaces (emplace (identifier n) (length (heap v))
    (interfaces v)) (registered name (length (heap v)) SL_Interface v)));
    [by cbn; rewrite Hn|by cbn; rewrite Hsyntax| |done..|split_and!; cbn; by rewrite ?Hn
    |eapply definition_adds, Hadds].
  exists m. split; [done|]. by eapply map_of_fields_kept.
Qed.

Lemma enum_definition_step name values w s :
  at_lexemes w (definition_rest (EnumDef name values) ++ ls) v s →
  definition_ok (EnumDef name values) → undeclared (EnumDef name values) v →
  continues (EnumDef name values) →
  reads (parse_enum ≫= k) Q s.
Proof.
  intros Hat (Hname & Hne & Hvalues) Hnew Hk. rewrite enum_rest in Hat. apply wp_bind. unfold parse_enum.
  eapply expect_step; [exact Hat|apply Hname|]. intros s1 Hs1. cbn [negb].
  eapply create_step; [exact Hs1|]. intros syntax s2 Hsyntax Hs2.
  eapply value_step; [exact Hs2|]. apply name_step. intros n Hn.
  eapply (assign_name_step _ (heap v)); [exact Hs2|]. intros s3 Hs3.
  eapply register_step; [exact Hs3|by rewrite Hn|]. intros s4 Hs4.
  eapply no_directives_step; [exact Hs4|discriminate|]. intros s5 Hs5.
  eapply (body_step _ _ (heap v) _ _ _ _ _ (registered _ _ _ v)); [exact Hs5|]. intros s6 Hs6.
  eapply expect_step; [exact Hs6|done|]. intros s7 Hs7. cbn [negb].
  apply wp_unbind.
  eapply (enum_values_step _ values ls (heap v)); [exact Hs7|done..|]. intros m s8 Hm Hs8. 
  eapply Hk; [|exact Hs8].
  apply defined_decl; [by cbn; rewrite Hn|by cbn; rewrite Hsyntax|exact Hm|by cbn; rewrite Hn|done..
    |apply (new_decl_adds _ v)].
Qed.

Lemma input_definition_step name fields_ w s :
  at_lexemes w (definition_rest (InputDef name fields_) ++ ls) v s →
  definition_ok (InputDef name fields_) → undeclared (InputDef name fields_) v →
  continues (InputDef name fields_) →
  reads (parse_input_object ≫= k) Q s.
Proof.
  intros Hat ([_ Hname] & Hne & Hfields) Hnew Hk. rewrite input_rest in Hat. apply wp_bind. unfold parse_input_object.
  eapply create_step; [exact Hat|]. intros syntax s1 Hsyntax Hs1.
  eapply (declaration_name_step _ (heap v) _ _ _ v); [done|exact Hs1|done|exact Hnew|].
  intros n w2 s2 Hn Hs2. cbn [negb].
  eapply no_directives_step; [exact Hs2|discriminate|]. intros s3 Hs3.
  eapply (body_step _ _ (heap v)); [exact Hs3|]. intros s4 Hs4.
  eapply (input_fields_step _ fields_ ls (heap v)); [exact Hs4|done..|].
  intros m ts fr s5 v' Hadds Hm Hs5.
  eapply (body_step _ _ (heap v)); [exact Hs5|]. intros s6 Hs6. wp_step.
  eapply Hk; [|exact Hs6].
  apply (defined_decl _ v _ ts fr (registered name _ SL_InputObject v));
    [by cbn; rewrite Hn|by cbn; rewrite Hsyntax| |done..|eapply definition_adds, Hadds].
  split; [done|]. exists m. split; [done|]. eapply map_of_mono; [|exact Hm].
  intros ??. apply input_field_is_kept, types_kept_decl.
Qed.

Lemma union_definition_step name first rest w s :
  at_lexemes w (definition_rest (UnionDef name first rest) ++ ls) v s →
  definition_ok (UnionDef name first rest) → undeclared (UnionDef name first rest) v →
  token_is_primary (next_token false ls) = true → continues (UnionDef name first rest) →
  reads (parse_union_after_union_keyword ≫= k) Q s.
Proof.
  intros Hat (Hname & Hfirst & Hrest) Hnew Hls Hk. rewrite union_rest in Hat. apply wp_bind. unfold parse_union_after_union_keyword.
  eapply create_step; [exact Hat|]. intros syntax s1 Hsyntax Hs1.
  eapply expect_step; [exact Hs1|apply Hname|]. intros s2 Hs2. cbn [negb].
  eapply value_step; [exact Hs2|]. apply name_step. intros n Hn.
  eapply (assign_name_step _ (heap v)); [exact Hs2|]. intros s3 Hs3.
  eapply no_directives_step; [exact Hs3|discriminate|]. intros s4 Hs4.
  eapply (body_step _ _ (heap v)); [exact Hs4|]. intros s5 Hs5.
  eapply expect_step; [exact Hs5|done|]. intros s6 Hs6. cbn [negb].
  eapply scan_optional_step; [exact Hs6|by intros ?%word_not|]. intros _ s7 Hs7.
  eapply expect_step; [exact Hs7|apply Hfirst|]. intros s8 Hs8. cbn [negb].
  eapply value_step; [exact Hs8|].
  eapply (member_step (heap v)); [exact Hs8|]. intros member s9 Hmember Hs9.
  eapply (members_step _ first rest ls (heap v)); [exact Hs9|by constructor|done| |].
  { apply (map_of_emplace id named [] [] first member); [apply map_of_nil|done]. }
  intros m s10 Hm Hs10. cbn [negb].
  eapply (add_symbol_step _ _ _ _ _ _ _ _ _ Hs10). intros s11 Hs11.
  eapply (modify_step _ (λ s, set_unions (unions s ++ [length (heap v)]) s)); [exact Hs11|done|done|].
  intros s12 Hs12. wp_step. eapply Hk; [|exact Hs12].
  apply (defined_decl _ v _ [] (forward_type_references v) (set_unions (unions v ++ [length (heap v)])
    (registered name (length (heap v)) SL_Union v)));
    [by cbn; rewrite Hn|by cbn; rewrite Hsyntax|exact Hm|done..|apply (new_decl_adds _ v)].
Qed.

Lemma schema_definition_step roots w s :
  at_lexemes w (definition_rest (SchemaDef roots) ++ ls) v s →
  definition_ok (SchemaDef roots) → continues (SchemaDef roots) →
  reads (parse_schema ≫= k) Q s.
Proof.
  intros Hat [Hroots Hnodup] Hk. rewrite schema_rest in Hat. apply wp_bind. unfold parse_schema.
  eapply no_directives_step; [exact Hat|discriminate|]. intros s1 Hs1.
  eapply expect_step; [exact Hs1|done|]. intros s2 Hs2. cbn [negb].
  eapply create_step; [exact Hs2|]. intros syntax s3 Hsyntax Hs3.
  eapply (body_step _ _ (heap v)); [exact Hs3|]. intros s4 Hs4.
  eapply (schema_fields_step _ roots ls (heap v)); [exact Hs4|done..|]. intros x s5 Hx Hs5. wp_step.
  eapply Hk; [|exact Hs5].
  apply defined_decl; [done|by cbn; rewrite Hsyntax|exact Hx|done..|apply (new_decl_adds _ v)].
Qed.

(** What an object implements is an interface, where it is declared. *)
Definition implements_declared (d : definition) : Prop :=
  match d with
  | ObjectDef name implements _ => ∀ n symbol, n ∈ implements →
      find n (emplace name (mkSymbol name (length (heap v)) SL_Object) (symbols v)) = Some symbol →
      symbol_kind symbol = SL_Interface
  | _ => True
  end.

Lemma object_definition_step name implements fields_ w s :
  at_lexemes w (definition_rest (ObjectDef name implements fields_) ++ ls) v s →
  definition_ok (ObjectDef name implements fields_) → undeclared (ObjectDef name implements fields_) v →
  implements_declared (ObjectDef name implements fields_) →
  continues (ObjectDef name implements fields_) →
  reads (parse_object ≫= k) Q s.
Proof.
  intros Hat (Hname & Himpl & Hfields) Hnew Hdecl Hk. rewrite object_rest in Hat.
  apply wp_bind. unfold parse_object.
  eapply create_step; [exact Hat|]. intros syntax s1 Hsyntax Hs1.
  eapply (declaration_name_step _ (heap v) _ _ _ v); [done|exact Hs1|done|exact Hnew|].
  intros n w2 s2 Hn Hs2. cbn [negb].
  eapply no_directives_step; [exact Hs2|destruct implements; discriminate|]. intros s3 Hs3.
  eapply (body_step _ _ (heap v)); [exact Hs3|]. intros s4 Hs4.
  eapply scan_optional_step; [exact Hs4|..]; destruct implements as [|i0 implements];
    try done; intros _ s5 Hs5; cbn [implements_lexemes app tail] in Hs5.
  - eapply (implementations_step _ i0 implements); [exact Hs5|done|exact Hdecl|].
    intros i fi s6 Hi Hs6. set (v2 := set_forward_interface_references fi v).
    eapply (body_step _ _ (heap v) _ _ _ _ _ (registered name (length (heap v)) SL_Object v2));
      [exact Hs6|]. intros s7 Hs7. rewrite decide_False by done.
    eapply fields_step; [exact Hs7|done..|]. intros m v' s8 Hm Hadd Hs8.
    apply with_decl_added in Hadd as (ts & fr & -> & Hadds).
    eapply (body_step _ _ (heap v)); [exact Hs8|]. intros s9 Hs9.
    eapply (modify_step _ (λ s, set_objects_with_implementations
      (objects_with_implementations s ++ [length (heap v)]) s)); [exact Hs9|done|done|].
    intros s10 Hs10. unfold finish_object. wp_step. eapply Hk; [|exact Hs10].
    apply (defined_decl _ v _ ts fr (set_objects_with_implementations
      (objects_with_implementations v ++ [length (heap v)])
      (registered name (length (heap v)) SL_Object v2)));
      [by cbn; rewrite Hn|by cbn; rewrite Hsyntax| |done..|eapply definition_adds, Hadds].
    split; [by exists i|]. exists m. split; [done|]. by eapply map_of_fields_kept.
  - eapply (fields_definition_step _ fields_ (heap v) _ _ _ _ (registered name _ SL_Object v));
      [exact Hs5|done..|]. intros m ts fr s6 Hm Hadds Hs6.
    eapply (body_step _ _ (heap v)); [exact Hs6|]. intros s7 Hs7. unfold finish_object. wp_step.
    eapply Hk; [|exact Hs7].
    apply defined_decl; [by cbn; rewrite Hn|by cbn; rewrite Hsyntax| |done..|eapply definition_adds, Hadds].
    split; [done|]. exists m. split; [done|]. by eapply map_of_fields_kept.
Qed.

Definition definition_token (d : definition) : GraphQlToken.t :=
  match d with
  | ObjectDef _ _ _ => GraphQlToken.TypeKeyword
  | InterfaceDef _ _ => GraphQlToken.InterfaceKeyword
  | InputDef _ _ => GraphQlToken.InputKeyword
  | UnionDef _ _ _ => GraphQlToken.UnionKeyword
  | EnumDef _ _ => GraphQlToken.EnumKeyword
  | SchemaDef _ => GraphQlToken.SchemaKeyword
  end.

Lemma definition_step d w s :
  at_lexemes w (definition_rest d ++ ls) v s → definition_ok d → undeclared d v →
  implements_declared d → token_is_primary (next_token false ls) = true → continues d →
  reads (parse_primary_token (definition_token d) ≫= k) Q s.
Proof.
  intros Hat Hok Hnew Hdecl Hls Hk. destruct d; cbn [definition_token parse_primary_token].
  - by eapply object_definition_step.
  - by eapply interface_definition_step.
  - by eapply input_definition_step.
  - by eapply union_definition_step.
  - by eapply enum_definition_step.
  - by eapply schema_definition_step.
Qed.
End definitions.

(** ** Documents *)

(** The symbols are those of the definitions, and point to them. *)
Definition symbols_of (doc : list definition) (ps : list ptr) (m : std_map ustring Symbol) : Prop :=
  ∀ n, match find n m with
  | Some symbol => ∃ i d, doc !! i = Some d ∧ ps !! i = Some (declaration symbol) ∧
      definition_symbol d = Some (n, symbol_kind symbol)
  | None => n ∉ defined_names doc
  end.

(** The last schema definition. *)
Definition schema_pointer (doc : list definition) (ps : list ptr) : option ptr :=
  list.last (omap (λ x : definition * ptr, match x.1 with SchemaDef _ => Some x.2 | _ => None end)
    (zip doc ps)).

(** The pointers to the definitions of a kind. *)
Definition pointers (f : definition → bool) (doc : list definition) (ps : list ptr) : list ptr :=
  omap (λ x : definition * ptr, if f x.1 then Some x.2 else None) (zip doc ps).

Definition is_union (d : definition) : bool :=
  match d with UnionDef _ _ _ => true | _ => false end.

Definition is_implementing (d : definition) : bool :=
  match d with ObjectDef _ (_ :: _) _ => true | _ => false end.

Definition interfaces_of_document (doc : list definition) (ps : list ptr)
    (m : std_map ustring ptr) : Prop :=
  ∀ n, match find n m with
  | Some p => ∃ i fields, doc !! i = Some (InterfaceDef n fields) ∧ ps !! i = Some p
  | None => ∀ fields, InterfaceDef n fields ∉ doc
  end.

(** The document is what was parsed. *)
Record parsed_as (doc : list definition) (s : GraphQlSchema) : Prop := {
  pa_describes : Forall2 (describes (heap s)) (definitions s) doc;
  pa_symbols : symbols_of doc (definitions s) (symbols s);
  pa_interfaces : interfaces_of_document doc (definitions s) (interfaces s);
  pa_unions : unions s = pointers is_union doc (definitions s);
  pa_objects : objects_with_implementations s = pointers is_implementing doc (definitions s);
  pa_references :
    Forall2 (reference_is (heap s)) (forward_type_references s) (flat_map definition_references doc);
  pa_covered : covered s
}.

Lemma defined_names_app doc doc' :
  defined_names (doc ++ doc') = defined_names doc ++ defined_names doc'.
Proof. unfold defined_names. by rewrite omap_app, map_app. Qed.

Lemma defined_names_elem doc d n kind_ :
  d ∈ doc → definition_symbol d = Some (n, kind_) → n ∈ defined_names doc.
Proof.
  intros Hd Hn. unfold defined_names. apply list_elem_of_In, (in_map fst _ (n, kind_)), list_elem_of_In.
  apply list_elem_of_omap. eauto.
Qed.

Lemma symbols_of_elem doc ps m n symbol :
  symbols_of doc ps m → find n m = Some symbol →
  ∃ d, d ∈ doc ∧ definition_symbol d = Some (n, symbol_kind symbol).
Proof.
  intros Hm Hn. specialize (Hm n). rewrite Hn in Hm. destruct Hm as (i & d & Hd & _ & Hs).
  exists d. split; [by eapply list_elem_of_lookup_2|done].
Qed.

Section document.
Context (doc : list definition) (ok : document_ok doc).

Lemma next_undeclared done_ d todo v :
  doc = done_ ++ d :: todo → parsed_as done_ v → undeclared d v.
Proof.
  intros Hdoc Hparsed. pose proof (pa_symbols _ _ Hparsed) as Hsym. destruct ok as (_ & Hnodup & _). unfold undeclared.
  destruct (definition_symbol d) as [[n kind_]|] eqn:Hd; [|done].
  destruct (find n (symbols v)) as [symbol|] eqn:Hn; [|done].
  destruct (symbols_of_elem _ _ _ _ _ Hsym Hn) as (d' & Hd' & Hs').
  rewrite Hdoc, defined_names_app in Hnodup. apply list.NoDup_app in Hnodup as (_ & Hnot & _).
  destruct (Hnot n); [by eapply defined_names_elem|]. eapply defined_names_elem; [left|done].
Qed.

Lemma next_implements done_ d todo v :
  doc = done_ ++ d :: todo → parsed_as done_ v → implements_declared v d.
Proof.
  intros Hdoc Hparsed. pose proof (pa_symbols _ _ Hparsed) as Hsym. destruct ok as (_ & _ & Himpl).
  assert (Hd : d ∈ doc) by (rewrite Hdoc, elem_of_app; right; left).
  assert (Hdone : ∀ d', d' ∈ done_ → d' ∈ doc) by (intros d'; rewrite Hdoc, elem_of_app; auto).
  assert (Hin : ∀ d' n kind_, d' ∈ doc → definition_symbol d' = Some (n, kind_) →
    (n, kind_) ∈ omap definition_symbol doc) by (intros; apply list_elem_of_omap; eauto).
  pose proof (Forall_elem _ _ _ Himpl Hd) as Hi. destruct d as [name implements fields_| | | | |]; try done.
  assert (Hi' : ∀ n kind_, n ∈ implements → (n, kind_) ∈ omap definition_symbol doc → kind_ = SL_Interface).
  { intros n kind_ Hn Hk. exact (Forall_elem _ _ (n, kind_) Hi Hk Hn). }
  clear Hi. rename Hi' into Hi. intros n symbol Hn Hfind. rewrite find_emplace in Hfind. case_decide as E.
  - subst n. destruct (find name (symbols v)) as [symbol'|] eqn:Hf; injection Hfind as <-.
    + destruct (symbols_of_elem _ _ _ _ _ Hsym Hf) as (d' & Hd' & Hs').
      apply (Hi name); [done|]. by eapply Hin; [apply Hdone|].
    + apply (Hi name); [done|]. by eapply Hin.
  - destruct (symbols_of_elem _ _ _ _ _ Hsym Hfind) as (d' & Hd' & Hs').
    apply (Hi n); [done|]. by eapply Hin; [apply Hdone|].
Qed.
End document.

Lemma pointers_snoc f doc ps d p :
  length doc = length ps →
  pointers f (doc ++ [d]) (ps ++ [p]) = pointers f doc ps ++ if f d then [p] else [].
Proof.
  intros Hlen. unfold pointers. rewrite zip_with_app, omap_app by done. cbn. by destruct (f d).
Qed.

Section snoc.
Context (done_ : list definition) (d : definition) (v v' : GraphQlSchema).
Context (parsed : parsed_as done_ v) (new : undeclared d v) (last_ : defined d v v').

Lemma definitions_length : length (definitions v) = length done_.
Proof. by eapply list.Forall2_length, parsed. Qed.

Lemma snoc_here : (done_ ++ [d]) !! length done_ = Some d ∧
  (definitions v ++ [length (heap v)]) !! length done_ = Some (length (heap v)).
Proof.
  split; [by rewrite lookup_app_r, Nat.sub_diag|].
  by rewrite <- definitions_length, lookup_app_r, Nat.sub_diag.
Qed.

Lemma snoc_describes :
  Forall2 (describes (heap v')) (definitions v ++ [length (heap v)]) (done_ ++ [d]).
Proof.
  destruct (df_heap _ _ _ last_) as [h Hheap].
  apply Forall2_app; [|repeat constructor; apply last_].
  eapply list.Forall2_impl; [apply parsed|]. intros p d'. rewrite Hheap. apply describes_app.
Qed.

Lemma snoc_symbols : symbols_of (done_ ++ [d]) (definitions v ++ [length (heap v)]) (symbols v').
Proof.
  rewrite (df_symbols _ _ _ last_). intros n. pose proof (pa_symbols _ _ parsed n) as Hsym.
  assert (Hold : match find n (symbols v) with
    | Some symbol => ∃ i d', (done_ ++ [d]) !! i = Some d' ∧
        (definitions v ++ [length (heap v)]) !! i = Some (declaration symbol) ∧
        definition_symbol d' = Some (n, symbol_kind symbol)
    | None => n ∉ defined_names done_
    end).
  { destruct (find n (symbols v)) as [symbol|]; [|done].
    destruct Hsym as (i & d' & Hi & Hp & Hs). exists i, d'.
    split_and!; [by apply lookup_app_l_Some..|done]. }
  rewrite defined_names_app. unfold undeclared in new. unfold defined_names at 2. cbn [omap list_omap].
  destruct (definition_symbol d) as [[n' kind_]|] eqn:Hs; cbn.
  - rewrite find_emplace. case_decide as E.
    + subst n'. rewrite new. exists (length done_), d. destruct snoc_here. by split_and!.
    + destruct (find n (symbols v)); [exact Hold|]. rewrite elem_of_app, list_elem_of_singleton. tauto.
  - rewrite app_nil_r. exact Hold.
Qed.

(** No interface has the name. *)
Lemma snoc_no_interface name fields_ : d = InterfaceDef name fields_ → find name (interfaces v) = None.
Proof.
  intros Hd. destruct (find name (interfaces v)) as [p|] eqn:Hp; [|done].
  pose proof (pa_interfaces _ _ parsed name) as Hi. rewrite Hp in Hi. destruct Hi as (i & fs & Hi & _).
  pose proof (pa_symbols _ _ parsed name) as Hsym. unfold undeclared in new. rewrite Hd in new. cbn in new.
  rewrite new in Hsym. destruct Hsym.
  by eapply defined_names_elem; [eapply list_elem_of_lookup_2, Hi|].
Qed.

Lemma snoc_interfaces :
  interfaces_of_document (done_ ++ [d]) (definitions v ++ [length (heap v)]) (interfaces v').
Proof.
  destruct (df_tables _ _ _ last_) as (Hi & _). intros n.
  pose proof (pa_interfaces _ _ parsed n) as Hold.
  pose proof snoc_no_interface as Hno. pose proof snoc_here as Hhere.
  assert (Hkeep : ∀ p, find n (interfaces v) = Some p → ∃ i fields,
    (done_ ++ [d]) !! i = Some (InterfaceDef n fields) ∧
    (definitions v ++ [length (heap v)]) !! i = Some p).
  { intros p Hp. rewrite Hp in Hold. destruct Hold as (i & fs & ? & ?). exists i, fs.
    split; by apply lookup_app_l_Some. }
  assert (Hnone : find n (interfaces v) = None → (∀ fs, d ≠ InterfaceDef n fs) →
    ∀ fs, InterfaceDef n fs ∉ done_ ++ [d]).
  { intros Hn Hd fs. rewrite Hn in Hold. rewrite elem_of_app, list_elem_of_singleton.
    intros [?|E]; [by eapply Hold|by eapply Hd]. }
  destruct d as [| name fields_ | | | | ] eqn:Hd; rewrite Hi;
    try (by destruct (find n (interfaces v)) as [p|] eqn:Hn; [apply Hkeep|apply Hnone]).
  rewrite find_emplace. case_decide as E.
  - subst n. rewrite (Hno name fields_) by done. by exists (length done_), fields_.
  - destruct (find n (interfaces v)) as [p|] eqn:Hn; [by apply Hkeep|apply Hnone; congruence].
Qed.

Lemma parsed_as_snoc :
  parsed_as (done_ ++ [d]) (set_definitions (definitions v' ++ [length (heap v)]) v').
Proof.
  pose proof (df_definitions _ _ _ last_) as Hdefs. destruct (df_tables _ _ _ last_) as (_ & Hu & Ho).
  destruct (df_adds _ _ _ last_) as [Ht (ps & Hps & Hrefs) Hcov].
  pose proof (eq_sym definitions_length) as Hlen.
  split; cbn -[flat_map]; rewrite ?Hdefs.
  - apply snoc_describes.
  - apply snoc_symbols.
  - apply snoc_interfaces.
  - rewrite Hu, (pa_unions _ _ parsed), pointers_snoc by done.
    destruct d; cbn; by rewrite ?app_nil_r.
  - rewrite Ho, (pa_objects _ _ parsed), pointers_snoc by done.
    destruct d as [? []| | | | |]; cbn; by rewrite ?app_nil_r.
  - rewrite flat_map_app, Hps. apply Forall2_app; [|cbn; by rewrite app_nil_r].
    eapply list.Forall2_impl; [apply parsed|]. intros p r. by apply reference_is_kept.
  - apply Hcov, parsed.
Qed.
End snoc.

Lemma schema_pointer_snoc doc ps d p :
  length doc = length ps →
  schema_pointer (doc ++ [d]) (ps ++ [p]) =
    match d with SchemaDef _ => Some p | _ => schema_pointer doc ps end.
Proof.
  intros Hlen. unfold schema_pointer. rewrite zip_with_app, omap_app by done.
  destruct d; cbn; rewrite ?app_nil_r; [done..|]. by rewrite last_snoc.
Qed.

(** *** The loop over the document *)

Lemma document_cons d todo :
  document_lexemes (d :: todo) = Word (definition_keyword d) :: definition_rest d ++ document_lexemes todo.
Proof. done. Qed.

Lemma document_next d todo : next_token false (document_lexemes (d :: todo)) = definition_token d.
Proof. rewrite document_cons. by destruct d. Qed.

Lemma document_primary todo : token_is_primary (next_token false (document_lexemes todo)) = true.
Proof. destruct todo as [|d todo]; [done|]. rewrite document_next. by destruct d. Qed.

Lemma definition_rest_length d : (0 < length (definition_rest d))%nat.
Proof. destruct d; simpl; lia. Qed.

(** The definitions [done_] are parsed, and the token behind them is taken. *)
Definition document_read (doc : list definition) (a : GraphQlToken.t * option ptr)
    (ls : list lexeme) (v : GraphQlSchema) : Prop :=
  ∃ done_ todo, doc = done_ ++ todo ∧ a.1 = next_token false (document_lexemes todo) ∧
    ls = tail (document_lexemes todo) ∧ parsed_as done_ v ∧ parser v = new_GraphQlParser [] ∧
    a.2 = schema_pointer done_ (definitions v).

Section steps.
Context {B : Type} (Q : B → GraphQlSchema → Prop).

Lemma forget_description_step w ls v k s :
  at_lexemes w ls v s → has_description (parser v) = false →
  reads (k tt) Q s → reads (⟨modify (set_has_description false)⟩ ≫= k) Q s.
Proof.
  intros Hat Hdesc Hk. rewrite <- (at_lexemes_description _ _ _ _ Hat) in Hdesc. do 3 wp_step.
  destruct s as [[]]. cbn in *. by subst.
Qed.

Lemma read_described_step d p w ls v k s :
  at_lexemes w ls v s → describes (heap v) p d →
  (∀ decl, (kind (decl_syntax decl) = S_Schema ↔ ∃ roots, d = SchemaDef roots) → reads (k decl) Q s) →
  reads (read_decl p ≫= k) Q s.
Proof.
  intros Hat (decl & Hp & _ & Hkind & Hbody) Hk. wp_step. unfold read_decl. do 2 wp_step.
  rewrite (at_lexemes_heap _ _ _ _ Hat), Hp. wp_step. apply Hk. rewrite Hkind.
  destruct d, (body decl); try done; naive_solver.
Qed.
End steps.

Lemma document_step doc done_ d todo sch v s :
  document_ok doc → doc = done_ ++ d :: todo →
  at_lexemes None (definition_rest d ++ document_lexemes todo) v s →
  parsed_as done_ v → parser v = new_GraphQlParser [] → sch = schema_pointer done_ (definitions v) →
  reads (parse_document_body (definition_token d, sch)) (λ r s', ∃ a v', r = inl a ∧
    at_lexemes None (tail (document_lexemes todo)) v' s' ∧
    document_read doc a (tail (document_lexemes todo)) v') s.
Proof.
  intros Hok Hdoc Hat Hparsed Hparser Hsch. unfold parse_document_body.
  rewrite decide_False, decide_False by by destruct d.
  assert (Hd : definition_ok d).
  { apply (Forall_elem _ _ _ (proj1 Hok)). rewrite Hdoc, elem_of_app. right; left. }
  assert (Hdesc : has_description (parser v) = false) by by rewrite Hparser.
  pose proof (next_undeclared _ Hok _ _ _ _ Hdoc Hparsed) as Hnew.
  eapply (definition_step _ _ (document_lexemes todo) v Hdesc d); [exact Hat|done|done| | |].
  { by eapply next_implements. }
  { apply document_primary. }
  intros v' s1 Hdef Hs1. pose proof (df_parser _ _ _ Hdef) as Hparser'. rewrite Hparser in Hparser'.
  eapply forget_description_step; [exact Hs1|by rewrite Hparser'|]. apply wp_bind.
  eapply (modify_step _ (λ s, set_definitions (definitions s ++ [length (heap v)]) s));
    [exact Hs1|done|done|]. intros s2 Hs2.
  eapply (read_described_step _ d); [exact Hs2|exact (df_describes _ _ _ Hdef)|].
  intros decl Hdecl. wp_step.
  eapply take_any_step; [exact Hs2|]. intros s3 Hs3. wp_step.
  eexists _, _. split_and!; [done|exact Hs3|].
  exists (done_ ++ [d]), todo. rewrite <- (assoc_L (++)). split_and!; [done..| |done|].
  - by apply parsed_as_snoc.
  - cbn. rewrite (df_definitions _ _ _ Hdef), schema_pointer_snoc.
    2: { symmetry. by apply definitions_length. }
    case_decide as E; [apply Hdecl in E as [roots ->]; done|]. destruct d; try done.
    destruct E. apply Hdecl. eauto.
Qed.

(** What is left of a printed document. *)
Lemma document_parsed doc text :
  document_ok doc → rendering (document_lexemes doc) text →
  wp False parse_document (λ r s, parsed_as doc s ∧ parser (view s) = new_GraphQlParser [] ∧
    r = schema_pointer doc (definitions s))
    (λ _ _, False) (new_GraphQlSchema text).
Proof.
  intros Hok Hr. unfold parse_document.
  assert (Hat : at_lexemes None (document_lexemes doc) (new_GraphQlSchema []) (new_GraphQlSchema text)).
  { split; [done| |done]. exists text. split; [done|]. split; [split; simpl; lia|done|done]. }
  eapply take_any_step; [exact Hat|]. intros s Hs.
  eapply wp_eq; [apply run_bind_ret|]. clear Hr Hat.
  eapply (schema_loop_step (document_read doc)); [exact Hs| |].
  { exists [], doc. split_and!; [done..| |done|done]. split; [constructor| |..|done].
    - intros n. by apply not_elem_of_nil.
    - intros n fields_. by apply not_elem_of_nil.
    - done.
    - done.
    - constructor. }
  clear dependent s text. intros [token sch] ? v s Hat (done_ & todo & Hdoc & Ht & -> & Hp & Hv & Hsch).
  cbn [fst snd] in Ht, Hsch. subst token. destruct todo as [|d todo].
  - unfold parse_document_body. cbn [document_lexemes flat_map next_token]. rewrite decide_True by done.
    do 2 wp_step. rewrite app_nil_r in Hdoc. subst done_. destruct Hat as [Hview _ _]. subst v.
    split_and!; [|exact Hv|exact Hsch]. by destruct Hp; split.
  - rewrite document_next. rewrite document_cons in *. cbn [tail] in *.
    eapply wp_mono; [by eapply (document_step doc done_ d todo)| |done].
    intros r s1 (a & v' & -> & Hs1 & Hread). eexists _, _. split_and!; [exact Hs1|exact Hread|].
    pose proof (definition_rest_length d). rewrite length_app.
    destruct (document_lexemes todo); simpl; lia.
Qed.

(** C2: reading a printed document of type definitions -- object types with
    interfaces and arguments, interfaces, input objects, unions, enums and schema
    definitions, with any white space, line feeds, commas and comments between the
    lexemes -- gives it back: the definitions of the parser are in the order of the
    document and have its names, fields, arguments, types, members, values and
    roots, the symbols are those of the named definitions and point to them, the
    result is the last schema definition, and there are no diagnostics. *)
Theorem printed_schema_parsed doc text :
  document_ok doc → rendering (document_lexemes doc) text →
  wp False parse_document (λ r s,
    Forall2 (describes (heap s)) (definitions s) doc ∧
    symbols_of doc (definitions s) (symbols s) ∧
    diagnostics (parser s) = [] ∧ r = schema_pointer doc (definitions s))
    (λ _ _, False) (new_GraphQlSchema text).
Proof.
  intros Hok Hr. eapply wp_mono; [by apply document_parsed| |done].
  intros r s (Hp & Hv & Hs). split_and!; [apply Hp..| |exact Hs]. exact (f_equal diagnostics Hv).
Qed.

Definition plain_type (b : type_base) : type_ref := mkTypeRef b false None.

Definition example_document : list definition :=
  [InterfaceDef (u "Node") [mkFieldDef (u "id") [] (mkTypeRef IDType true None)];
   SchemaDef [(Query, u "Root"); (Mutation, u "Change")];
   ObjectDef (u "Root") [u "Node"; u "Later"]
     [mkFieldDef (u "id") [] (mkTypeRef IDType true None);
      mkFieldDef (u "type") [(u "on", plain_type IntType); (u "near", plain_type (NamedTypeOf (u "Place")))]
        (mkTypeRef (NamedTypeOf (u "Pet")) true (Some true))];
   InterfaceDef (u "Later") [mkFieldDef (u "x") [] (plain_type FloatType)];
   ObjectDef (u "Change") [] [mkFieldDef (u "x") [] (plain_type BooleanType)];
   InputDef (u "Place") [(u "lat", mkTypeRef FloatType true None);
     (u "names", mkTypeRef StringType false (Some false))];
   UnionDef (u "Pet") (u "Root") [u "Change"];
   EnumDef (u "Size") [u "SMALL"; u "query"]].

Lemma printed_schema_parsed_witness :
  document_ok example_document ∧
  wp False parse_document (λ r s,
    Forall2 (describes (heap s)) (definitions s) example_document ∧
    symbols_of example_document (definitions s) (symbols s) ∧
    diagnostics (parser s) = [] ∧ r = schema_pointer example_document (definitions s))
    (λ _ _, False)
    (new_GraphQlSchema (u "interface Node { id : ID ! } schema { query : Root mutation : Change } type Root implements Node & Later { id : ID ! type ( on : Int near : Place ) : [ Pet ! ] ! } interface Later { x : Float } type Change { x : Boolean } input Place { lat : Float ! names : [ String ] } union Pet = Root | Change enum Size { SMALL query } ")).
Proof.
  assert (Hok : document_ok example_document) by (apply (bool_decide_unpack _); vm_compute; exact I).
  split; [exact Hok|].
  apply (printed_schema_parsed example_document _ Hok).
  exact (rendering_spaced (document_lexemes example_document) eq_refl).
Defined.

(** A description behind a union ends it in the middle: neither the union nor the
    type the description is of is kept, and nothing is reported. *)
Lemma described_behind_union_dropped :
  let source_ := u "union A = B " ++ lexeme_text (Quoted (u "text")) ++ u " type B { x: Int } enum C { D }" in
  match parse_document (new_GraphQlSchema source_) with
  | Ok _ s => length (definitions s) = 1%nat ∧ map fst (symbols s) = [u "C"] ∧ diagnostics (parser s) = []
  | _ => False
  end.
Proof. vm_compute. repeat split. Qed.
