(* ===== verification/SchemaVerdict.v ===== *)
(** * The verdict of the schema parser on a document

    What it means that a document of type definitions is valid, and that the
    constructor of [GraphQlSchema] reports nothing on its text exactly then. *)
From S2P Require Import Prelude Monad Character Cstring Diagnostic StdMap Syntaxes.
From S2P Require Import TextWriter Scanner Parser ParserSpec Schema SchemaInvariant SchemaRules SchemaSafety.
From S2P Require Import SchemaChecks SchemaChecksSpec SchemaFrames SchemaProperties.
From S2P Require Import LexerText SchemaText Reading SchemaTypes SchemaFields SchemaParts SchemaRoundTrip.

#[local] Arguments u : simpl never.

(** ** Valid documents *)

#[export] Instance type_base_eq_dec : EqDecision type_base.
Proof. solve_decision. Defined.

(** The names and the kinds that are defined. *)
Definition document_symbols (doc : list definition) : list (ustring * SymbolKind) :=
  omap definition_symbol doc.

(** The roots of the last schema definition. *)
Definition schema_roots (doc : list definition) : list (RootType * ustring) :=
  default [] (list.last (omap (λ d, match d with SchemaDef roots => Some roots | _ => None end) doc)).

Definition declared_name (r : RootType) (roots : list (RootType * ustring)) : option ustring :=
  head (omap (λ x : RootType * ustring, if decide (x.1 = r) then Some x.2 else None) roots).

(** The name of a root operation type: the one the schema definition gives it, or
    the default one. *)
Definition document_root (doc : list definition) (r : RootType) : ustring :=
  default (root_type_name r) (declared_name r (schema_roots doc)).

(** Only the query type is required when the schema definition does not give it. *)
Definition root_valid (doc : list definition) (r : RootType) : Prop :=
  document_root doc r ∈ defined_names doc ∨ declared_name r (schema_roots doc) = None ∧ r ≠ Query.

Definition reference_valid (doc : list definition) (x : ustring * bool) : Prop :=
  Exists (λ y : ustring * SymbolKind, y.1 = x.1 ∧ usable y.2 x.2 = true) (document_symbols doc).

(** The object has a field of the name, with the same type up to lists and [!]. *)
Definition has_field (fields : list field_def) (f : field_def) : Prop :=
  Exists (λ g, def_name g = def_name f ∧ ref_base (def_type g) = ref_base (def_type f)) fields.

Definition implements_valid (doc : list definition) (fields : list field_def) (i : ustring) : Prop :=
  Exists (λ d, match d with
    | InterfaceDef name required => name = i ∧ Forall (has_field fields) required
    | _ => False
    end) doc.

Definition definition_valid (doc : list definition) (d : definition) : Prop :=
  match d with
  | ObjectDef _ implements fields => Forall (implements_valid doc fields) implements
  | UnionDef _ first rest => Forall (λ n, (n, SL_Object) ∈ document_symbols doc) (first :: rest)
  | _ => True
  end.

Definition valid_document (doc : list definition) : Prop :=
  Forall (root_valid doc) [Query; Mutation; Subscription] ∧
  Forall (reference_valid doc) (flat_map definition_references doc) ∧
  Forall (definition_valid doc) doc.

#[export] Instance has_field_dec fields f : Decision (has_field fields f).
Proof. unfold has_field. apply _. Defined.

#[export] Instance implements_valid_dec doc fields i : Decision (implements_valid doc fields i).
Proof.
  unfold implements_valid. apply list.Exists_dec. intros [|name required| | | |]; apply _.
Defined.

#[export] Instance definition_valid_dec doc d : Decision (definition_valid doc d).
Proof. destruct d; simpl; apply _. Defined.

#[export] Instance valid_document_dec doc : Decision (valid_document doc).
Proof. unfold valid_document, root_valid, reference_valid. apply _. Defined.

(** ** Definitions with a name *)

Section unique.
Context (doc : list definition) (distinct : NoDup (defined_names doc)).

Lemma symbols_unique n k k' :
  (n, k) ∈ document_symbols doc → (n, k') ∈ document_symbols doc → k = k'.
Proof.
  unfold defined_names, document_symbols in *. revert distinct.
  generalize (omap definition_symbol doc). intros l Hl Hk Hk'.
  apply list_elem_of_lookup in Hk as [i Hi]. apply list_elem_of_lookup in Hk' as [j Hj].
  assert (i = j) as <-; [|congruence].
  apply (list.NoDup_lookup (map fst l) i j n); [done|..]; rewrite list_lookup_fmap;
    [by rewrite Hi|by rewrite Hj].
Qed.

Lemma definitions_unique d d' n k k' :
  d ∈ doc → d' ∈ doc → definition_symbol d = Some (n, k) → definition_symbol d' = Some (n, k') → d = d'.
Proof.
  unfold defined_names in distinct. induction doc as [|x l IH]; [by intros ?%elem_of_nil|].
  intros Hd Hd' Hs Hs'.
  assert (Hin : ∀ y k, y ∈ l → definition_symbol y = Some (n, k) → n ∈ map fst (omap definition_symbol l)).
  { intros y k0 Hy Hys. apply list_elem_of_In, (in_map fst _ (n, k0)), list_elem_of_In, list_elem_of_omap. eauto. }
  cbn [omap list_omap] in distinct.
  apply elem_of_cons in Hd as [->|Hd]; apply elem_of_cons in Hd' as [->|Hd']; [done|..].
  - rewrite Hs in distinct. cbn in distinct. apply list.NoDup_cons in distinct as [Hno _]. destruct Hno. by eapply Hin.
  - rewrite Hs' in distinct. cbn in distinct. apply list.NoDup_cons in distinct as [Hno _]. destruct Hno. by eapply Hin.
  - apply IH; [|done..]. destruct (definition_symbol x); [|done]. by apply list.NoDup_cons in distinct as [_ ?].
Qed.
End unique.

(** ** The tables of a parsed document *)

Lemma elem_of_pointers f doc ps p :
  p ∈ pointers f doc ps ↔ ∃ i d, doc !! i = Some d ∧ ps !! i = Some p ∧ f d = true.
Proof.
  unfold pointers. rewrite list_elem_of_omap. split.
  - intros ([d q] & Hin & Hq). apply list_elem_of_lookup in Hin as [i Hi].
    apply lookup_zip_with_Some in Hi as (d' & q' & [= <- <-] & Hd & Hp). cbn in Hq.
    destruct (f d) eqn:Hf; [|done]. injection Hq as <-. eauto.
  - intros (i & d & Hd & Hp & Hf). exists (d, p). cbn. rewrite Hf. split; [|done].
    apply list_elem_of_lookup. exists i. apply lookup_zip_with_Some. eauto.
Qed.

Section document.
Context (doc : list definition) (ok : document_ok doc) (s : GraphQlSchema) (parsed : parsed_as doc s).

Lemma definition_at i d p :
  doc !! i = Some d → definitions s !! i = Some p → describes (heap s) p d.
Proof.
  intros Hd Hp. destruct (list.Forall2_lookup_r _ _ _ _ _ (pa_describes _ _ parsed) Hd) as (q & Hq & H).
  congruence.
Qed.

Lemma definition_pointer i d : doc !! i = Some d → ∃ p, definitions s !! i = Some p.
Proof.
  intros Hd. destruct (list.Forall2_lookup_r _ _ _ _ _ (pa_describes _ _ parsed) Hd) as (q & Hq & _).
  eauto.
Qed.

Lemma elem_definition_ok d : d ∈ doc → definition_ok d.
Proof. apply Forall_elem, ok. Qed.

Lemma symbol_iff n k :
  (n, k) ∈ document_symbols doc ↔ ∃ symbol, find n (symbols s) = Some symbol ∧ symbol_kind symbol = k.
Proof.
  pose proof (pa_symbols _ _ parsed n) as Hn. split.
  - intros Hk. destruct (find n (symbols s)) as [symbol|].
    + exists symbol. split; [done|]. destruct Hn as (i & d & Hd & _ & Hs).
      apply (symbols_unique doc (proj1 (proj2 ok)) n); [|done]. unfold document_symbols.
      apply list_elem_of_omap. exists d. split; [by eapply list_elem_of_lookup_2|done].
    + destruct Hn. apply list_elem_of_In, (in_map fst _ (n, k)), list_elem_of_In, Hk.
  - intros (symbol & Hf & <-). rewrite Hf in Hn. destruct Hn as (i & d & Hd & _ & Hs).
    apply list_elem_of_omap. exists d. split; [by eapply list_elem_of_lookup_2|done].
Qed.

Lemma symbol_none n : find n (symbols s) = None ↔ n ∉ defined_names doc.
Proof.
  pose proof (pa_symbols _ _ parsed n) as Hn. split; [by intros E; rewrite E in Hn|].
  intros Hno. destruct (find n (symbols s)) as [symbol|]; [|done]. destruct Hno.
  destruct Hn as (i & d & Hd & _ & Hs). eapply defined_names_elem; [by eapply list_elem_of_lookup_2|done].
Qed.

(** *** References *)

Lemma references_free : Forall (free_reference (heap s)) (forward_type_references s).
Proof.
  apply list.Forall_forall. intros p Hp. apply list_elem_of_lookup in Hp as [i Hi].
  destruct (list.Forall2_lookup_l _ _ _ _ _ (pa_references _ _ parsed) Hi) as (r & _ & t & Ht & _ & Hn & _ & Hpar).
  destruct (type_name t) as [n|] eqn:E; [|done]. by exists t, n.
Qed.

Lemma references_valid :
  references_ok s (forward_type_references s) ↔
  Forall (reference_valid doc) (flat_map definition_references doc).
Proof.
  assert (Hiff : ∀ n input, reference_ok (symbols s) n input ↔ reference_valid doc (n, input)).
  { intros n input. unfold reference_ok, reference_valid. rewrite list.Exists_exists. split.
    - intros (symbol & Hf & Hu). exists (n, symbol_kind symbol).
      split; [apply symbol_iff; eauto|done].
    - intros ([n' k] & Hin & Hn & Hu). cbn in Hn, Hu. subst n'.
      apply symbol_iff in Hin as (symbol & ? & <-). eauto. }
  pose proof (pa_references _ _ parsed) as Hrefs. unfold references_ok. rewrite list.Forall_forall. split.
  - intros H [n input] Hin. apply list_elem_of_lookup in Hin as [i Hi].
    destruct (list.Forall2_lookup_r _ _ _ _ _ Hrefs Hi) as (p & Hp & t & Ht & _ & Hn & Hinput & _).
    cbn in Hn, Hinput. destruct (type_name t) as [name|] eqn:E; [|done]. injection Hn as <-.
    rewrite <- Hiff, <- Hinput. by eapply H; [eapply list_elem_of_lookup_2| |].
  - intros H p t name Hp Ht Hn. apply list_elem_of_lookup in Hp as [i Hi].
    destruct (list.Forall2_lookup_l _ _ _ _ _ Hrefs Hi) as ([n input] & Hr & t' & Ht' & _ & Hn' & Hinput & _).
    cbn in Hn', Hinput. assert (t' = t) as -> by congruence. rewrite Hn in Hn'. injection Hn' as Hn'.
    apply Hiff. rewrite Hinput, Hn'. by eapply H, list_elem_of_lookup_2.
Qed.
(** *** Roots *)

Section roots.
Context (p : ptr) (declares : ∀ r, identifier <$> declared_root (heap s) p r = declared_name r (schema_roots doc)).

Lemma document_root_name r : SchemaFrames.root_name (heap s) p r = document_root doc r.
Proof.
  unfold SchemaFrames.root_name, document_root. rewrite <- declares. by destruct (declared_root _ _ _).
Qed.

Lemma document_root_declaration r :
  root_declaration s p r = declaration <$> find (document_root doc r) (symbols s).
Proof. unfold root_declaration. by rewrite document_root_name. Qed.

Lemma roots_valid r : root_ok s p r ↔ root_valid doc r.
Proof.
  unfold root_ok, root_valid. rewrite document_root_declaration, <- declares.
  assert (H : declaration <$> find (document_root doc r) (symbols s) ≠ None ↔
    document_root doc r ∈ defined_names doc).
  { pose proof (symbol_none (document_root doc r)) as Hn.
    destruct (find _ (symbols s)) as [symbol|]; cbn; split; try done.
    - intros _. destruct (decide (document_root doc r ∈ defined_names doc)) as [?|E]; [done|].
      by apply Hn in E.
    - intros Hin. by destruct (proj1 Hn eq_refl). }
  rewrite H. destruct (declared_root _ _ _); cbn; naive_solver.
Qed.
End roots.
End document.

Lemma declared_name_elem r n roots :
  NoDup (map fst roots) → (r, n) ∈ roots → declared_name r roots = Some n.
Proof.
  unfold declared_name. induction roots as [|[r' n'] roots IH]; [by intros _ ?%elem_of_nil|].
  intros [Hno Hnodup]%list.NoDup_cons [E|Hin]%elem_of_cons; cbn.
  - injection E as <- <-. by rewrite decide_True.
  - rewrite decide_False; [by apply IH|]. intros ->. destruct Hno.
    by apply list_elem_of_In, (in_map fst _ (r, n)), list_elem_of_In.
Qed.

Lemma declared_name_none r roots : r ∉ map fst roots → declared_name r roots = None.
Proof.
  unfold declared_name. induction roots as [|[r' n'] roots IH]; [done|]. cbn.
  rewrite not_elem_of_cons. intros [Hne Hno]. rewrite decide_False by congruence. by apply IH.
Qed.

Lemma described_roots h p roots r :
  describes h p (SchemaDef roots) → definition_ok (SchemaDef roots) →
  class_at h p S_Schema ∧ identifier <$> declared_root h p r = declared_name r roots.
Proof.
  intros (decl & Hp & _ & Hk & Hb) [_ Hnodup]. unfold declared_root. rewrite Hp.
  destruct (body decl) as [| | | | | |x] eqn:E; try done. split; [exists decl; by rewrite E|].
  specialize (Hb r). destruct (schema_root r x) as [n|]; cbn.
  - by rewrite (declared_name_elem r (identifier n)).
  - by rewrite declared_name_none.
Qed.

Lemma schema_roots_snoc doc d :
  schema_roots (doc ++ [d]) = match d with SchemaDef roots => roots | _ => schema_roots doc end.
Proof.
  unfold schema_roots. rewrite omap_app. destruct d; cbn; rewrite ?app_nil_r; [done..|]. by rewrite last_snoc.
Qed.

Lemma schema_pointer_describes h doc ps :
  Forall2 (describes h) ps doc →
  match schema_pointer doc ps with
  | Some p => describes h p (SchemaDef (schema_roots doc)) ∧ SchemaDef (schema_roots doc) ∈ doc
  | None => schema_roots doc = []
  end.
Proof.
  revert ps. induction doc as [|d doc IH] using rev_ind; intros ps Hps.
  - by inversion Hps.
  - apply list.Forall2_app_inv_r in Hps as (ps' & l & Hps' & Hl & ->).
    inversion Hl as [|p ? l' ? Hp Hl']; subst. inversion Hl'; subst.
    rewrite schema_pointer_snoc, schema_roots_snoc by by symmetry; eapply list.Forall2_length.
    specialize (IH ps' Hps'). destruct d;
      try (destruct (schema_pointer doc ps'); [split; [apply IH|]; rewrite elem_of_app; left; apply IH|exact IH]).
    split; [done|]. rewrite elem_of_app. right; left.
Qed.

(** ** Definitions once the references are checked *)

(** The type a reference to it has. *)
Definition resolved_base (table : std_map ustring Symbol) (b : type_base) : TypeEnum :=
  match b with
  | NamedTypeOf n =>
      match find n table with
      | Some symbol => if decide (symbol_kind symbol = SL_Enum) then T_Enum else T_Object
      | None => T_Object
      end
  | _ => base_type b
  end.

Section settled.
Context (doc : list definition) (ok : document_ok doc) (s : GraphQlSchema) (parsed : parsed_as doc s).
Context (s' : GraphQlSchema) (after : settled s s').

Lemma settled_type input r p :
  type_at (heap s) input r p → ∃ t, heap s' !! p = Some (NType t) ∧
    type t = resolved_base (symbols s) (ref_base r) ∧
    ∀ n, ref_base r = NamedTypeOf n → identifier <$> type_name t = Some n.
Proof.
  intros (t & Hp & Hbase & _). pose proof (proj2 after p t Hp) as Hp'.
  destruct (decide (p ∈ forward_type_references s)) as [Hin|Hno].
  - eexists. split; [exact Hp'|]. destruct (resolve_same (symbols s) t) as (-> & _ & _).
    apply list_elem_of_lookup in Hin as [i Hi].
    destruct (list.Forall2_lookup_l _ _ _ _ _ (pa_references _ _ parsed) Hi) as (x & _ & t' & Ht' & Hty & _).
    assert (t' = t) as -> by congruence.
    destruct (ref_base r) as [| | | | |n]; cbn in Hbase; try congruence. destruct Hbase as [_ Hn].
    split; [|by intros ? [= <-]]. unfold resolve, resolved_base.
    destruct (type_name t) as [name|]; [|done]. injection Hn as <-. cbn [mbind option_bind].
    destruct (find _ _) as [symbol|]; [|done]. by case_decide.
  - exists t. split; [done|]. destruct (ref_base r) as [| | | | |n]; cbn in Hbase; try done.
    destruct Hbase as [Hty _]. destruct Hno. by apply (pa_covered _ _ parsed p t).
Qed.

(** The comparison of the check is that of the names. *)
Lemma settled_same_type input input' r r' p q :
  type_at (heap s) input r p → type_at (heap s) input' r' q →
  same_type (heap s') p q ↔ ref_base r = ref_base r'.
Proof.
  intros (t & Hp & Ht & Hn)%settled_type (t' & Hq & Ht' & Hn')%settled_type. split.
  - intros (t1 & t2 & Hp1 & Hq2 & Hty & Hnames).
    assert (t1 = t) as -> by congruence. assert (t2 = t') as -> by congruence.
    rewrite Ht in Hty, Hnames. rewrite Ht' in Hty.
    destruct (ref_base r) as [| | | | |n], (ref_base r') as [| | | | |n']; try done;
      try (unfold resolved_base in Hty; cbn in Hty; repeat case_match; congruence).
    assert (Hsym : type_in (resolved_base (symbols s) (NamedTypeOf n)) T_SymbolicType = true)
      by (unfold resolved_base; by repeat case_match).
    specialize (Hnames Hsym). specialize (Hn n eq_refl). specialize (Hn' n' eq_refl).
    destruct (type_name t), (type_name t'); try done. cbn in *. congruence.
  - intros E. exists t, t'. split_and!; [done..|congruence|]. intros Hsym.
    destruct (ref_base r) as [| | | | |n]; try (by rewrite Ht in Hsym).
    rewrite <- E in Hn'. specialize (Hn n eq_refl). specialize (Hn' n eq_refl).
    destruct (type_name t), (type_name t'); try done. cbn in *. congruence.
Qed.

Lemma settled_field fields_ m f v :
  map_of def_name (field_is (heap s)) fields_ m → NoDup (map def_name fields_) →
  field_is (heap s) f v → field_implemented (heap s') m v ↔ has_field fields_ f.
Proof.
  intros Hm Hnodup (Hf & Ht & _). unfold field_implemented, has_field. rewrite list.Exists_exists, Hf. split.
  - intros (w & Hw & Hsame). apply find_Some_elem in Hw.
    destruct (map_of_entry _ _ _ _ _ _ Hm Hw) as (g & Hg & Hname & _ & Htg & _).
    exists g. split_and!; [done..|]. by eapply settled_same_type.
  - intros (g & Hg & Hname & Hbase). destruct (map_of_find _ _ _ _ _ Hm Hnodup Hg) as (w & Hw & _ & Htg & _).
    exists w. rewrite <- Hname. split; [done|]. by eapply settled_same_type.
Qed.

Lemma settled_definition i d p :
  doc !! i = Some d → definitions s !! i = Some p → (∀ roots, d ≠ SchemaDef roots) →
  ∃ decl, heap s' !! p = Some (NDecl decl) ∧ body_is (heap s) d (body decl).
Proof.
  intros Hd Hp Hno. destruct (definition_at doc s parsed i d p Hd Hp) as (decl & Hdecl & _ & _ & Hb).
  exists decl. split; [|done]. apply (kp_decls _ _ (proj1 after)); [done|].
  destruct d, (body decl); try done. by edestruct Hno.
Qed.

Lemma settled_interface n p :
  find n (interfaces s') = Some p → ∃ required m, InterfaceDef n required ∈ doc ∧
    fields_at (heap s') p = Some m ∧ map_of def_name (field_is (heap s)) required m.
Proof.
  rewrite (kp_interfaces _ _ (proj1 after)). intros Hf.
  pose proof (pa_interfaces _ _ parsed n) as Hn. rewrite Hf in Hn. destruct Hn as (i & required & Hi & Hp).
  destruct (settled_definition i _ p Hi Hp ltac:(done)) as (decl & Hdecl & Hb).
  destruct (body decl) as [|o| | | | |] eqn:E; try done. destruct Hb as (m & Hm & Hmap).
  exists required, m. split_and!; [by eapply list_elem_of_lookup_2| |done].
  unfold fields_at, as_object_like. by rewrite Hdecl, E.
Qed.

Lemma settled_complete : ¬ interface_without_fields s'.
Proof.
  intros (n & p & Hf & Hno). destruct (settled_interface n p Hf) as (required & m & _ & Hm & _). congruence.
Qed.

Lemma settled_implements fields_ m i :
  map_of def_name (field_is (heap s)) fields_ m → NoDup (map def_name fields_) →
  implements_interface s' (Some m) i ↔ implements_valid doc fields_ i.
Proof.
  intros Hm Hnodup. unfold implements_interface, implements_valid. rewrite list.Exists_exists. split.
  - intros (p & Hp & Hall). destruct (settled_interface i p Hp) as (required & mi & Hd & Hat & Hmi).
    exists (InterfaceDef i required). split_and!; [done..|]. apply list.Forall_forall. intros f Hf.
    destruct (elem_definition_ok doc ok _ Hd) as (_ & _ & _ & Hdistinct).
    destruct (map_of_find _ _ _ _ _ Hmi Hdistinct Hf) as (v & Hv & Hfv).
    apply (settled_field fields_ m f v); [done..|].
    by eapply Hall; [|exact Hat|apply find_Some_elem].
  - intros (d & Hd & Hcase). destruct d as [|name required| | | |]; try done. destruct Hcase as [-> Hreq].
    pose proof (pa_interfaces _ _ parsed i) as Hi. rewrite (kp_interfaces _ _ (proj1 after)).
    destruct (find i (interfaces s)) as [p|] eqn:Hf; [|by destruct (Hi required)].
    exists p. split; [done|]. intros m' [= <-] mi name field Hat Hin.
    rewrite <- (kp_interfaces _ _ (proj1 after)) in Hf.
    destruct (settled_interface i p Hf) as (required' & mi' & Hd' & Hat' & Hmi).
    assert (mi' = mi) as -> by congruence.
    pose proof (definitions_unique doc (proj1 (proj2 ok)) _ _ i _ _ Hd Hd' eq_refl eq_refl) as E.
    injection E as <-. destruct (map_of_entry _ _ _ _ _ _ Hmi Hin) as (f & Hfr & _ & Hfv).
    apply (settled_field fields_ m f field); [done..|]. by eapply Forall_elem.
Qed.
(** *** Objects and unions *)

Definition names_valid (d : definition) : Prop :=
  match d with ObjectDef _ _ _ => definition_valid doc d | _ => True end.

Definition members_valid (d : definition) : Prop :=
  match d with UnionDef _ _ _ => definition_valid doc d | _ => True end.

(** The names in a map of names are those of the list. *)
Lemma named_entries l m (P : ustring → Prop) :
  map_of id named l m → (∀ entry, entry ∈ m → P entry.1) ↔ Forall P l.
Proof.
  intros Hm. rewrite list.Forall_forall. split.
  - intros H n Hn. destruct Hm as [_ Hm]. specialize (Hm n). destruct (find n m) as [v|] eqn:Hf.
    + by apply (H (n, v)), find_Some_elem.
    + destruct Hm. by rewrite map_id.
  - intros H [n v] Hin. destruct (map_of_entry _ _ _ _ _ _ Hm Hin) as (n' & Hn' & <- & _). by apply H.
Qed.

Lemma settled_object i d p :
  doc !! i = Some d → definitions s !! i = Some p → is_implementing d = true →
  (∀ entry, entry ∈ interfaces_of (heap s') p →
    implements_interface s' (fields_at (heap s') p) entry.1) ↔ names_valid d.
Proof.
  intros Hd Hp Hi. destruct (settled_definition i d p Hd Hp) as (decl & Hdecl & Hb); [by intros ? ->|].
  destruct d as [name implements fields_| | | | |]; try done.
  destruct (body decl) as [o| | | | | |] eqn:E; try done. destruct Hb as [Himpl (m & Hm & Hmap)].
  destruct (elem_definition_ok doc ok _ (list_elem_of_lookup_2 _ _ _ Hd)) as (_ & _ & _ & _ & Hdistinct).
  assert (Hat : fields_at (heap s') p = Some m) by (unfold fields_at, as_object_like; by rewrite Hdecl, E).
  destruct implements as [|n l]; [done|]. destruct Himpl as (x & Hx & Hnames).
  assert (Hof : interfaces_of (heap s') p = implementations x)
    by (unfold interfaces_of, as_object_like; by rewrite Hdecl, E, Hx).
  rewrite Hof, Hat. unfold names_valid. cbn [definition_valid].
  rewrite <- (named_entries (n :: l) (implementations x) (implements_valid doc fields_)) by done.
  split; intros H entry Hentry; by apply (settled_implements fields_ m), H.
Qed.

Lemma settled_implementations : implementations_ok s' ↔ Forall names_valid doc.
Proof.
  unfold implementations_ok. rewrite (kp_objects _ _ (proj1 after)), (pa_objects _ _ parsed), list.Forall_forall.
  split.
  - intros H d Hd. destruct (is_implementing d) eqn:Hi; [|by destruct d as [? []| | | | |]; cbn; constructor].
    apply list_elem_of_lookup in Hd as [i Hd]. destruct (definition_pointer doc s parsed i d Hd) as [p Hp].
    apply (settled_object i d p); [done..|]. apply H, elem_of_pointers. eauto.
  - intros H p (i & d & Hd & Hp & Hi)%elem_of_pointers. apply (settled_object i d p); [done..|].
    by eapply H, list_elem_of_lookup_2.
Qed.

Lemma settled_union i d p :
  doc !! i = Some d → definitions s !! i = Some p → is_union d = true →
  union_ok s' p ↔ members_valid d.
Proof.
  intros Hd Hp Hi. destruct (settled_definition i d p Hd Hp) as (decl & Hdecl & Hb); [by intros ? ->|].
  destruct d as [| | |name first rest| |]; try done. destruct (body decl) as [| | | |x| |] eqn:E; try done.
  unfold union_ok, union_members, as_union. rewrite Hdecl, E. unfold members_valid. cbn [definition_valid].
  rewrite <- (named_entries (first :: rest) (members x) (λ n, (n, SL_Object) ∈ document_symbols doc)) by done.
  assert (Hobj : ∀ n, is_object_type (symbols s') n ↔ (n, SL_Object) ∈ document_symbols doc).
  { intros n. rewrite (symbol_iff doc ok s parsed), (kp_symbols _ _ (proj1 after)). done. }
  assert (Hname : ∀ member, member ∈ members x → identifier member.2 = member.1).
  { intros [n v] Hin. by destruct (map_of_entry _ _ _ _ _ _ Hb Hin) as (n' & _ & <- & Hv). }
  split; intros H member Hin; specialize (H member Hin); rewrite (Hname member Hin), Hobj in *; done.
Qed.

Lemma settled_unions : unions_ok s' ↔ Forall members_valid doc.
Proof.
  unfold unions_ok. rewrite (kp_unions _ _ (proj1 after)), (pa_unions _ _ parsed), list.Forall_forall.
  split.
  - intros H d Hd. destruct (is_union d) eqn:Hi; [|by destruct d].
    apply list_elem_of_lookup in Hd as [i Hd]. destruct (definition_pointer doc s parsed i d Hd) as [p Hp].
    apply (settled_union i d p); [done..|]. apply H, elem_of_pointers. eauto.
  - intros H p (i & d & Hd & Hp & Hi)%elem_of_pointers. apply (settled_union i d p); [done..|].
    by eapply H, list_elem_of_lookup_2.
Qed.

Lemma settled_valid :
  implementations_ok s' ∧ unions_ok s' ↔ Forall (definition_valid doc) doc.
Proof.
  rewrite settled_implementations, settled_unions, <- list.Forall_and. apply list.Forall_iff.
  intros []; cbn; tauto.
Qed.
End settled.

(** ** The constructor *)

(** Without a schema definition one without roots is created. *)
Lemma create_schema_spec ub s X :
  wp ub (create_declaration S_Schema (BSchema new_Schema)) (λ p s', ∃ d,
    p = length (heap s) ∧ s' = set_heap (heap s ++ [NDecl d]) s ∧
    kind (decl_syntax d) = S_Schema ∧ body d = BSchema new_Schema) X s.
Proof.
  unfold create_declaration, alloc, CreateSyntax. repeat wp_step.
  rewrite put_sub_id. eexists. by split_and!.
Qed.

(** What the checks start from. *)
Record ready (ub : Prop) (doc : list definition) (p : ptr) (s : GraphQlSchema) : Prop := {
  rd_parsed : parsed_as doc s;
  rd_ok : schema_ok ub s;
  rd_no_directives : directives (parser s) = [];
  rd_no_diagnostics : diagnostics (parser s) = [];
  rd_schema : class_at (heap s) p S_Schema;
  rd_roots : ∀ r, identifier <$> declared_root (heap s) p r = declared_name r (schema_roots doc)
}.

Lemma parsed_as_alloc doc s d :
  parsed_as doc s → parsed_as doc (set_heap (heap s ++ [NDecl d]) s).
Proof.
  intros [Hdesc ? ? ? ? Hrefs Hcov]. split; cbn; try done.
  - eapply list.Forall2_impl; [eassumption|]. intros p x. apply describes_app.
  - eapply list.Forall2_impl; [eassumption|]. intros p x. apply reference_is_kept, types_kept_app.
  - intros p t Hp Ht. cbn in Hp. apply lookup_app_Some in Hp as [Hp|[_ Hp]]; [by eapply Hcov|].
    by apply list_lookup_singleton_Some in Hp as [_ ?].
Qed.

Lemma ready_schema ub doc s :
  document_ok doc → parsed_as doc s → schema_ok ub s →
  directives (parser s) = [] → diagnostics (parser s) = [] →
  wp False (match schema_pointer doc (definitions s) with
    | Some p => mret p
    | None => create_declaration S_Schema (BSchema new_Schema)
    end) (λ p s', ready ub doc p s') (λ _ _, False) s.
Proof.
  intros Hok Hp Hs Hd Hn. pose proof (schema_pointer_describes _ _ _ (pa_describes _ _ Hp)) as Hptr.
  destruct (schema_pointer doc (definitions s)) as [p|].
  - wp_step. destruct Hptr as [Hdesc Hin]. pose proof (elem_definition_ok doc Hok _ Hin) as Hroots.
    split; try done; [by eapply (described_roots _ _ _ Query)|].
    intros r. by eapply described_roots.
  - eapply wp_mono; [apply (create_schema_spec False s (λ _ _, False))| |done].
    intros ? s' (d & -> & -> & Hk & Hb).
    assert (Hok' : heap_ok (heap s) → heap_ok (heap s ++ [NDecl d])).
    { intros Hh. apply heap_ok_alloc; [done|]. intros ? [= <-]. unfold decl_ok. rewrite Hb. by split. }
    split; try done; cbn.
    + by apply parsed_as_alloc.
    + eapply builds_ok, builds_heap_only; [done|apply heap_le_app|apply Hok', Hs].
    + exists d. rewrite Hb. split; [|done]. by rewrite lookup_app_r, Nat.sub_diag.
    + intros r. unfold declared_root. rewrite lookup_app_r, Nat.sub_diag by done. cbn. rewrite Hb, Hptr.
      by destruct r.
Qed.

(** The constructor on a document: it was parsed, and the checks left the rest of it. *)
Definition constructed (doc : list definition) (s : GraphQlSchema) : Prop :=
  ∃ s0, parsed_as doc s0 ∧ settled s0 s.

Definition judged (doc : list definition) (s : GraphQlSchema) : Prop :=
  symbols_of doc (definitions s) (symbols s) ∧
  (diagnostics (parser s) = [] ↔ valid_document doc) ∧
  Forall (λ m, _template m ∈ check_errors) (diagnostics (parser s)) ∧
  ∀ r, root_valid doc r →
    root_of r s = Assigned (declaration <$> find (document_root doc r) (symbols s)).

Lemma document_checked ub doc p s :
  document_ok doc → ready ub doc p s →
  wp False (set_root_types p;; check_forward_references;; check_directive_references;;
      check_object_implementations;; check_union_members) (λ _ s', constructed doc s' ∧ judged doc s')
    (λ e _, parse_exn e ∧ ¬ valid_document doc) s.
Proof.
  intros Hok [Hp Hs Hdir Hdiag Hsch Hroots].
  pose proof (checks_spec ub p s (Forall (definition_valid doc) doc) Hs Hsch Hdir
    (references_free doc s Hp) (settled_complete doc s Hp)
    (settled_valid doc Hok s Hp)) as Hchecks.
  assert (Hvalid : (∀ r, root_ok s p r) ∧ references_ok s (forward_type_references s) ∧
    Forall (definition_valid doc) doc ↔ valid_document doc).
  { unfold valid_document. rewrite (references_valid doc Hok s Hp), !list.Forall_cons, list.Forall_nil.
    pose proof (roots_valid doc s Hp p Hroots) as Hr. split.
    - intros (H & ? & ?). split_and!; [by apply Hr..|done|done|done].
    - intros ((Hq & Hm & Hsub & _) & ? & ?). split; [|done]. intros []; by apply Hr. }
  cbv zeta in Hchecks. eapply wp_mono; [exact Hchecks| |].
  2: { intros e s' [He Hno]. split; [done|]. by rewrite <- Hvalid. }
  intros _ s' ((l & Hl & Hlv & Hall) & Hsettled & Hassigned). split; [by exists s|].
  pose proof (proj1 Hsettled) as Hk. unfold judged. rewrite Hl, Hdiag. cbn [app]. split_and!.
  - rewrite (kp_definitions _ _ Hk), (kp_symbols _ _ Hk). apply Hp.
  - by rewrite Hlv.
  - done.
  - intros r Hr. rewrite (kp_symbols _ _ Hk), <- (document_root_declaration doc s p Hroots).
    by apply Hassigned, (roots_valid doc s Hp p Hroots).
Qed.

Lemma schema_constructed doc text :
  document_ok doc → rendering (document_lexemes doc) text →
  wp False parse_schema_document (λ _ s, constructed doc s ∧ judged doc s)
    (λ e _, parse_exn e ∧ ¬ valid_document doc) (new_GraphQlSchema text).
Proof.
  intros Hok Hr. unfold parse_schema_document. wp_step.
  eapply wp_mono; [eapply wp_and_defined;
    [by apply document_parsed|apply parse_document_spec, new_GraphQlSchema_ok]| |by intros ?? [[] _]].
  intros sch s [(Hp & Hv & ->) [Hb _]]. unfold check_document. wp_step.
  eapply wp_mono; [eapply ready_schema; [done|exact Hp|by eapply builds_ok|..]| |done].
  - exact (f_equal directives Hv).
  - exact (f_equal diagnostics Hv).
  - intros p s' Hready. by eapply document_checked.
Qed.

(** C3: the constructor of the schema on a printed document of type definitions
    -- with any white space, line feeds, commas and comments between the lexemes --
    adds no diagnostic exactly when the document is valid: the roots of the last
    schema definition are defined, and so is the query type where there is none;
    every type that is referred to is defined, input objects only in arguments and
    input fields and the others but enums only elsewhere; what an object implements is
    an interface with all of whose fields, at the same types up to lists and [!]; and
    the members of unions are object types.  The diagnostics of other documents are
    those of these checks, the valid roots are assigned the definitions of their
    names, or null, and an exception leaves the constructor only where there is
    something to report. *)
Theorem printed_schema_checked doc text :
  document_ok doc → rendering (document_lexemes doc) text →
  wp False parse_schema_document (λ _ s,
    symbols_of doc (definitions s) (symbols s) ∧
    (diagnostics (parser s) = [] ↔ valid_document doc) ∧
    Forall (λ m, _template m ∈ check_errors) (diagnostics (parser s)) ∧
    ∀ r, root_valid doc r →
      root_of r s = Assigned (declaration <$> find (document_root doc r) (symbols s)))
    (λ e _, parse_exn e ∧ ¬ valid_document doc) (new_GraphQlSchema text).
Proof.
  intros Hok Hr. eapply wp_mono; [by apply schema_constructed| |done]. by intros _ s [_ H].
Qed.

(** The example is not valid: objects implement [Later] without its field. *)
Definition checked_document : list definition :=
  [InterfaceDef (u "Node") [mkFieldDef (u "id") [] (mkTypeRef IDType true None)];
   SchemaDef [(Query, u "Root")];
   ObjectDef (u "Root") [u "Node"]
     [mkFieldDef (u "id") [] (plain_type IDType);
      mkFieldDef (u "pet") [(u "near", plain_type (NamedTypeOf (u "Place")))]
        (mkTypeRef (NamedTypeOf (u "Pet")) true (Some true));
      mkFieldDef (u "size") [(u "of", plain_type (NamedTypeOf (u "Size")))]
        (plain_type (NamedTypeOf (u "Size")))];
   InputDef (u "Place") [(u "lat", mkTypeRef FloatType true None)];
   UnionDef (u "Pet") (u "Root") [];
   EnumDef (u "Size") [u "SMALL"]].

Lemma printed_schema_checked_witness :
  document_ok checked_document ∧ valid_document checked_document ∧ ¬ valid_document example_document ∧
  wp False parse_schema_document (λ _ s,
    symbols_of checked_document (definitions s) (symbols s) ∧
    (diagnostics (parser s) = [] ↔ valid_document checked_document) ∧
    Forall (λ m, _template m ∈ check_errors) (diagnostics (parser s)) ∧
    ∀ r, root_valid checked_document r →
      root_of r s = Assigned (declaration <$> find (document_root checked_document r) (symbols s)))
    (λ e _, parse_exn e ∧ ¬ valid_document checked_document)
    (new_GraphQlSchema (spaced (document_lexemes checked_document))).
Proof.
  assert (Hok : document_ok checked_document) by (apply (bool_decide_unpack _); vm_compute; exact I).
  split; [exact Hok|]. split; [apply (bool_decide_unpack _); vm_compute; exact I|].
  split; [apply (bool_decide_unpack _); vm_compute; exact I|].
  apply (printed_schema_checked checked_document _ Hok).
  apply rendering_spaced. vm_compute. reflexivity.
Defined.
