(* ===== verification/QueryText.v ===== *)
(** * The text of queries

    Queries as data, their lexemes, when they are valid for a document of type
    definitions, and what it means that the result of the executor describes them. *)
From S2P Require Import Prelude Monad Character Cstring Diagnostic StdMap Syntaxes.
From S2P Require Import TextWriter Scanner Parser Schema SchemaChecks LexerText SchemaText Executor.
From S2P Require Import SchemaVerdict.

#[local] Arguments u : simpl never.

(** ** Queries *)

Inductive query_value :=
  | NullOf
  | IntegerOf (c : char32) (w : ustring)
  | StringOf (w : ustring)
  | BooleanOf (b : bool)
  | EnumOf (w : ustring)
  | ListOf (l : list query_value)
  | ObjectOf (l : list (ustring * query_value)).

Inductive query_selection :=
  | FieldOf (alias_ : option ustring) (name : ustring) (arguments_ : list (ustring * query_value))
      (set_ : option (list query_selection))
  | SpreadOf (name : ustring)
  | InlineOf (on : ustring) (set_ : list query_selection).

Inductive query_definition :=
  | OperationOf (o : OperationType) (name : option ustring) (set_ : list query_selection)
  | ShorthandOf (set_ : list query_selection)
  | FragmentOf (name on : ustring) (set_ : list query_selection).

(** ** Printing *)

Fixpoint value_lexemes (v : query_value) : list lexeme :=
  match v with
  | NullOf => [Word (u "null")]
  | IntegerOf c w => [Integer c w]
  | StringOf w => [Quoted w]
  | BooleanOf b => [Word (if b then u "true" else u "false")]
  | EnumOf w => [Word w]
  | ListOf l => Punct Character.OpenBracket :: flat_map value_lexemes l ++ [Punct Character.CloseBracket]
  | ObjectOf l =>
      Punct Character.OpenBrace
        :: flat_map (λ x, Word x.1 :: Punct Character.Colon :: value_lexemes x.2) l
        ++ [Punct Character.CloseBrace]
  end.

Definition named_value_lexemes (x : ustring * query_value) : list lexeme :=
  Word x.1 :: Punct Character.Colon :: value_lexemes x.2.

(** Parentheses without arguments are not printed. *)
Definition call_lexemes (l : list (ustring * query_value)) : list lexeme :=
  match l with
  | [] => []
  | _ => Punct Character.OpenParen :: flat_map named_value_lexemes l ++ [Punct Character.CloseParen]
  end.

Definition alias_lexemes (alias_ : option ustring) : list lexeme :=
  match alias_ with
  | Some a => [Word a; Punct Character.Colon]
  | None => []
  end.

Fixpoint selection_lexemes (q : query_selection) : list lexeme :=
  match q with
  | FieldOf alias_ name arguments_ set_ =>
      alias_lexemes alias_ ++ Word name :: call_lexemes arguments_ ++
      match set_ with
      | Some l =>
          Punct Character.OpenBrace :: flat_map selection_lexemes l ++ [Punct Character.CloseBrace]
      | None => []
      end
  | SpreadOf name => [Spread; Word name]
  | InlineOf on set_ =>
      Spread :: Word (u "on") :: Word on :: Punct Character.OpenBrace
        :: flat_map selection_lexemes set_ ++ [Punct Character.CloseBrace]
  end.

(** A selection set behind its opening brace. *)
Definition set_lexemes (l : list query_selection) : list lexeme :=
  flat_map selection_lexemes l ++ [Punct Character.CloseBrace].

Definition operation_root (o : OperationType) : RootType :=
  match o with
  | Query => Schema.Query
  | Mutation => Schema.Mutation
  | Subscription => Schema.Subscription
  end.

Definition query_definition_lexemes (d : query_definition) : list lexeme :=
  match d with
  | OperationOf o name set_ =>
      Word (Schema.root_name (operation_root o))
        :: match name with Some n => [Word n] | None => [] end
        ++ Punct Character.OpenBrace :: set_lexemes set_
  | ShorthandOf set_ => Punct Character.OpenBrace :: set_lexemes set_
  | FragmentOf name on set_ =>
      Word (u "fragment") :: Word name :: Word (u "on") :: Word on
        :: Punct Character.OpenBrace :: set_lexemes set_
  end.

Definition query_lexemes : list query_definition → list lexeme := flat_map query_definition_lexemes.

(** ** What can be printed *)

(** A name where a keyword is not one. *)
Definition plain_wordb (w : ustring) : bool := bool_decide (plain_word w).

Fixpoint value_words (v : query_value) : bool :=
  match v with
  | EnumOf w => plain_wordb w
  | ListOf l => forallb value_words l
  | ObjectOf l => forallb (λ x, plain_wordb x.1 && value_words x.2) l
  | _ => true
  end.

Definition arguments_words (l : list (ustring * query_value)) : bool :=
  forallb (λ x, value_words x.2) l.

Fixpoint selection_words (q : query_selection) : bool :=
  match q with
  | FieldOf alias_ name arguments_ set_ =>
      match alias_ with Some _ => plain_wordb name | None => true end
      && arguments_words arguments_
      && match set_ with Some l => forallb selection_words l | None => true end
  | SpreadOf name => plain_wordb name
  | InlineOf on set_ => plain_wordb on && forallb selection_words set_
  end.

Definition query_definition_words (d : query_definition) : bool :=
  match d with
  | OperationOf _ _ set_ | ShorthandOf set_ => forallb selection_words set_
  | FragmentOf name on set_ =>
      plain_wordb name && plain_wordb on && forallb selection_words set_
  end.

Definition query_ok (q : list query_definition) : bool := forallb query_definition_words q.

(** ** Valid queries *)

Definition ref_is_list (r : type_ref) : bool := bool_decide (is_Some (ref_list r)).

(** Neither the type nor the elements of a list have a [!]. *)
Definition ref_nullable (r : type_ref) : bool :=
  negb (ref_non_null r) && negb (default false (ref_list r)).

(** An argument of a list type is required when the list itself is not nullable. *)
Definition argument_required (r : type_ref) : bool := default (ref_non_null r) (ref_list r).

Definition type_of (name : ustring) (l : list argument_def) : option type_ref :=
  snd <$> List.find (λ a, bool_decide (a.1 = name)) l.

Section valid.
Context (doc : list definition).

Definition definition_of (name : ustring) : option definition :=
  List.find (λ d, bool_decide (fst <$> definition_symbol d = Some name)) doc.

Definition enum_values_of (b : type_base) : option (list ustring) :=
  match b with
  | NamedTypeOf n =>
      match definition_of n with Some (EnumDef _ values) => Some values | _ => None end
  | _ => None
  end.

Definition input_fields_of (b : type_base) : option (list argument_def) :=
  match b with
  | NamedTypeOf n =>
      match definition_of n with Some (InputDef _ fields) => Some fields | _ => None end
  | _ => None
  end.

(** A value for the type with the base [b]; [inside] of a list there are no more lists. *)
Fixpoint value_valid (v : query_value) (b : type_base) (nullable is_list inside : bool) : bool :=
  match v with
  | NullOf => nullable
  | IntegerOf _ _ => negb is_list && bool_decide (b = IntType ∨ b = IDType)
  | StringOf _ => negb is_list && bool_decide (b = StringType ∨ b = IDType)
  | BooleanOf _ => negb is_list && bool_decide (b = BooleanType)
  | EnumOf w =>
      negb is_list && match enum_values_of b with Some values => bool_decide (w ∈ values) | None => false end
  | ListOf l => is_list && negb inside && forallb (λ x, value_valid x b nullable false true) l
  | ObjectOf l =>
      negb is_list && match input_fields_of b with
      | Some fields =>
          forallb (λ x, match type_of x.1 fields with
            | Some r => value_valid x.2 (ref_base r) (ref_nullable r) (ref_is_list r) inside
            | None => false
            end) l
          && bool_decide (NoDup (map fst l))
          && forallb (λ f, negb (is_required f) || bool_decide (f.1 ∈ map fst l)) fields
      | None => false
      end
  end.

Definition value_fits (v : query_value) (r : type_ref) : bool :=
  value_valid v (ref_base r) (ref_nullable r) (ref_is_list r) false.

Definition arguments_valid (defs : list argument_def) (l : list (ustring * query_value)) : bool :=
  forallb (λ x, match type_of x.1 defs with Some r => value_fits x.2 r | None => false end) l
  && bool_decide (NoDup (map fst l))
  && forallb (λ a, negb (argument_required a.2) || bool_decide (a.1 ∈ map fst l)) defs.

Definition fields_of (name : ustring) : option (list field_def) :=
  match definition_of name with
  | Some (ObjectDef _ _ fields) | Some (InterfaceDef _ fields) => Some fields
  | _ => None
  end.

Definition field_of (type_ name : ustring) : option field_def :=
  fields_of type_ ≫= List.find (λ f, bool_decide (def_name f = name)).

(** The types with selection sets. *)
Definition is_selectable (name : ustring) : bool :=
  match definition_of name with
  | Some (ObjectDef _ _ _) | Some (InterfaceDef _ _) | Some (UnionDef _ _ _) => true
  | _ => false
  end.

(** Selections on the object [on] can be made where the type is [parent]. *)
Definition applies (on parent : ustring) : bool :=
  match definition_of on, definition_of parent with
  | Some (ObjectDef _ implements _), Some (InterfaceDef _ _) => bool_decide (parent ∈ implements)
  | Some (ObjectDef _ _ _), Some (ObjectDef _ _ _) => bool_decide (on = parent)
  | Some (ObjectDef _ _ _), Some (UnionDef _ first rest) => bool_decide (on ∈ first :: rest)
  | _, _ => false
  end.

(** The type a fragment is on. *)
Definition fragment_on (name : ustring) (fragments_ : list (ustring * ustring)) : option ustring :=
  snd <$> List.find (λ x, bool_decide (x.1 = name)) fragments_.

Section selections.
Context (fragments_ : list (ustring * ustring)).

(** A field is the one of its alias where it has one, as the executor looks it up. *)
Fixpoint selection_valid (parent : ustring) (q : query_selection) : bool :=
  match q with
  | FieldOf alias_ name arguments_ set_ =>
      match field_of parent (default name alias_) with
      | Some f =>
          arguments_valid (def_arguments f) arguments_
          && match set_ with
             | Some l =>
                 match ref_base (def_type f) with
                 | NamedTypeOf n => is_selectable n && forallb (selection_valid n) l
                 | _ => false
                 end
             | None => true
             end
      | None => false
      end
  | SpreadOf name =>
      match fragment_on name fragments_ with Some on => applies on parent | None => false end
  | InlineOf on set_ => applies on parent && forallb (selection_valid on) set_
  end.

Definition query_definition_valid (d : query_definition) : bool :=
  match d with
  | OperationOf o _ set_ =>
      let root := document_root doc (operation_root o) in
      is_selectable root && forallb (selection_valid root) set_
  | ShorthandOf set_ =>
      let root := document_root doc Schema.Query in
      is_selectable root && forallb (selection_valid root) set_
  | FragmentOf _ on set_ => applies on on && forallb (selection_valid on) set_
  end.
End selections.

Definition query_fragments (q : list query_definition) : list (ustring * ustring) :=
  omap (λ d, match d with FragmentOf name on _ => Some (name, on) | _ => None end) q.

Definition query_valid (q : list query_definition) : bool :=
  forallb (query_definition_valid (query_fragments q)) q
  && bool_decide (NoDup (map fst (query_fragments q))).
End valid.

(** ** What the result describes *)

(** Lists whose elements are related, where a [Fixpoint] goes through them. *)
Section all2.
Context {A B : Type} (R : A → B → Prop).

Fixpoint all2 (l : list A) (k : list B) : Prop :=
  match l, k with
  | [], [] => True
  | a :: l', b :: k' => R a b ∧ all2 l' k'
  | _, _ => False
  end.

Lemma all2_snoc l k a b : all2 l k → R a b → all2 (l ++ [a]) (k ++ [b]).
Proof.
  revert k. induction l as [|a' l IH]; intros [|b' k] Hl Hab; try done.
  destruct Hl as [? ?]. cbn [app all2]. split; [done|]. by apply IH.
Qed.
End all2.

(** The text of a string has its quotes. *)
Fixpoint value_is (v : query_value) (x : Value) : Prop :=
  match v, x with
  | NullOf, NullValue _ => True
  | IntegerOf c w, IntValue _ n => n = atoi (c_string (raw (c :: w)))
  | StringOf w, StringValue _ text => text = lexeme_text (Quoted w)
  | BooleanOf b, BooleanValue _ b' => b' = b
  | EnumOf w, EnumValue _ w' => w' = w
  | ListOf l, ListValue _ values => all2 value_is l values
  | ObjectOf l, ObjectValue _ fields =>
      all2 (λ y f, identifier (field_name f) = y.1 ∧
        match field_value f with Some x => value_is y.2 x | None => False end) l fields
  | _, _ => False
  end.

Definition named_value_is (x : ustring * query_value) (a : Argument) : Prop :=
  identifier (argument_name a) = x.1 ∧ argument_directives a = [] ∧
  ∃ v, argument_value a = Some v ∧ value_is x.2 v.

Definition arguments_are (l : list (ustring * query_value)) (m : option (std_map ustring Argument)) :
    Prop :=
  match l, m with
  | [], None => True
  | _ :: _, Some m => map_of fst named_value_is l m
  | _, _ => False
  end.

Fixpoint selection_is (q : query_selection) (x : Selection) : Prop :=
  match q, x with
  | FieldOf alias_ name arguments_ set_, Field _ alias name' args dirs sel =>
      identifier <$> alias = alias_ ∧ identifier <$> name' = Some name ∧
      arguments_are arguments_ args ∧ dirs = [] ∧
      match set_, sel with
      | Some l, Some (mkSelectionSet _ xs) => all2 selection_is l xs
      | None, None => True
      | _, _ => False
      end
  | SpreadOf name, FragmentSpread _ name' dirs => identifier name' = name ∧ dirs = []
  | InlineOf _ l, InlineFragment _ dirs (Some (mkSelectionSet _ xs)) =>
      dirs = [] ∧ all2 selection_is l xs
  | _, _ => False
  end.

Definition set_is (l : list query_selection) (x : SelectionSet) : Prop :=
  let 'mkSelectionSet _ xs := x in all2 selection_is l xs.

Definition operation_is (d : query_definition) (x : OperationDefinition) : Prop :=
  operation_variables x = None ∧ operation_directives x = [] ∧
  match d, operation_selection_set x with
  | OperationOf o name l, Some s =>
      operation_type x = o ∧ identifier <$> operation_name x = name ∧ set_is l s
  | ShorthandOf l, Some s => operation_type x = Query ∧ operation_name x = None ∧ set_is l s
  | _, _ => False
  end.

Definition fragment_is (d : query_definition) (x : FragmentDefinition) : Prop :=
  fragment_directives x = [] ∧
  match d, fragment_selection_set x with
  | FragmentOf name on l, Some s =>
      identifier (fragment_name x) = name ∧ identifier <$> fragment_type x = Some on ∧ set_is l s
  | _, _ => False
  end.

Definition is_fragment (d : query_definition) : bool :=
  match d with FragmentOf _ _ _ => true | _ => false end.

(** The operations and the fragments, each in the order of the query. *)
Definition query_is (q : list query_definition) (operations : list OperationDefinition)
    (fragments_ : list FragmentDefinition) : Prop :=
  Forall2 operation_is (base.filter (λ d, is_fragment d = false) q) operations ∧
  Forall2 fragment_is (base.filter (λ d, is_fragment d = true) q) fragments_.
