(* ===== verification/QueryReading.v ===== *)
(** * Reading queries

    What the steps of the executor leave of a rendering of values and arguments that
    are valid for the document its schema was parsed from, and which fields and
    fragments that document has. *)
From S2P Require Import Prelude Monad Character Cstring Diagnostic StdMap Syntaxes.
From S2P Require Import TextWriter Scanner Parser Schema SchemaChecks LexerText SchemaText Reading.
From S2P Require Import SchemaFrames SchemaTypes SchemaFields SchemaParts SchemaRoundTrip SchemaVerdict Executor QueryText.

#[local] Arguments u : simpl never.

(** ** Steps of the executor *)

Definition with_token (token : GraphQlToken.t) (v : GraphQlExecutor) : GraphQlExecutor :=
  set_parser (set_current_value_token token (parser v)) v.

Lemma at_lexemes_view {A} (f : GraphQlExecutor → A) w ls v (s : GraphQlExecutor) :
  at_lexemes w ls v s → (∀ s, f (view s) = f s) → f s = f v.
Proof. intros [<- _ _] Hf. by rewrite Hf. Qed.

Section steps.
Context {B : Type} (Q : B → GraphQlExecutor → Prop).

Lemma silent_step b m (k : unit → M GraphQlExecutor B) s :
  b = false → reads (k tt) Q s → reads (when b m ≫= k) Q s.
Proof. intros -> Hk. do 2 wp_step; [done|]. done. Qed.

Lemma silent_for_each {A} (b : A → bool) m (l : list A) (k : unit → M GraphQlExecutor B) s :
  (∀ x, x ∈ l → b x = false) → reads (k tt) Q s →
  reads (for_each l (λ x, when (b x) (m x)) ≫= k) Q s.
Proof.
  intros Hb Hk. induction l as [|x l IH]; cbn [for_each]; [by do 2 wp_step|].
  do 3 wp_step; [by rewrite Hb in * by left|]. apply wp_unbind, IH. intros y Hy. apply Hb. by right.
Qed.

(** A loop that leaves the state as it is. *)
Lemma still_for_each {A} (body : A → M GraphQlExecutor unit) l (k : unit → M GraphQlExecutor B) s :
  (∀ x, x ∈ l → reads (body x) (λ _ s', s' = s) s) → reads (k tt) Q s →
  reads (for_each l body ≫= k) Q s.
Proof.
  intros Hb Hk. induction l as [|x l IH]; cbn [for_each]; [by do 2 wp_step|].
  do 2 wp_step. eapply wp_mono; [apply Hb; left| |done]. intros ? ? ->.
  apply wp_unbind, IH. intros y Hy. apply Hb. by right.
Qed.

Lemma deref_step {A} (o : option A) a (k : A → M GraphQlExecutor B) s :
  o = Some a → reads (k a) Q s → reads (deref o ≫= k) Q s.
Proof. intros -> Hk. wp_step. unfold deref. by wp_step. Qed.

Lemma read_type_at_step p t w ls v k s :
  at_lexemes w ls v s → heap v !! p = Some (NType t) → reads (k t) Q s →
  reads (read_type (Some p) ≫= k) Q s.
Proof.
  intros Hat Hp Hk. wp_step. unfold read_type. cbn [deref]. do 4 wp_step.
  rewrite (at_lexemes_view heap _ _ _ _ Hat) by done. rewrite Hp. by wp_step.
Qed.

Lemma assign_list_step p t b w ls v k s :
  at_lexemes w ls v s → heap v !! p = Some (NType t) →
  (∀ s', at_lexemes w ls (set_heap (<[p := NType (set_is_list_type b t)]> (heap v)) v) s' →
    reads (k tt) Q s') →
  reads (assign_is_list_type (Some p) b ≫= k) Q s.
Proof.
  intros Hat Hp Hk. wp_step. unfold assign_is_list_type. cbn [deref]. do 3 wp_step.
  eapply (wp_mono _ _ (λ t' s', t' = t ∧ s' = s) _ (λ _ _, False)); [|intros ? ? [-> ->]|done].
  - unfold read_type. cbn [deref]. do 4 wp_step. rewrite (at_lexemes_view heap _ _ _ _ Hat), Hp by done. by wp_step.
  - wp_step. apply Hk. rewrite (at_lexemes_view heap _ _ _ _ Hat) by done. destruct Hat as [Hv Hr Hw].
    split; [by subst v|done|done].
Qed.

Lemma read_decl_at_step p d w ls v k s :
  at_lexemes w ls v s → heap v !! p = Some (NDecl d) → reads (k d) Q s →
  reads (read_decl p ≫= k) Q s.
Proof.
  intros Hat Hp Hk. wp_step. unfold read_decl. do 2 wp_step.
  rewrite (at_lexemes_view heap _ _ _ _ Hat), Hp by done. by wp_step.
Qed.

Lemma value_token_step w x ls v k s :
  at_lexemes w (x :: ls) v s →
  (∀ s', at_lexemes (Some (lexeme_text x)) ls (with_token (lexeme_token false x) v) s' →
    reads (k (lexeme_token false x)) Q s') →
  reads (⟨set_current_value_token_from_scanner⟩ ≫= k) Q s.
Proof.
  intros Hat Hk. do 2 wp_step. unfold set_current_value_token_from_scanner, TakeNextToken, take_next_token.
  do 2 wp_step. eapply wp_mono; [apply take_reading, Hat| |done].
  intros token sc (-> & Hr & Hv & _). do 3 wp_step. apply Hk.
  destruct Hat as [<- _ _]. split; [done|exact Hr|]. intros y [= <-]. by apply Hv.
Qed.
End steps.

Lemma executor_loop_step {A C B} (I : A → list lexeme → GraphQlExecutor → Prop)
    (body : A → M GraphQlExecutor (A + C)) a w ls v (k : C → M GraphQlExecutor B) Q s :
  at_lexemes w ls v s → I a ls v →
  (∀ a ls v s, at_lexemes None ls v s → I a ls v →
    reads (body a) (λ r s', match r with
      | inl a' => ∃ ls' v', at_lexemes None ls' v' s' ∧ I a' ls' v' ∧ (length ls' < length ls)%nat
      | inr b => reads (k b) Q s'
      end) s) →
  reads (executor_loop body a ≫= k) Q s.
Proof.
  intros Hat HI Hbody. wp_step. unfold executor_loop. do 2 wp_step. apply wp_unbind.
  eapply loop_step; [apply reading_fuel, Hat|done..].
Qed.

(** ** The schema the query is executed on *)

Lemma map_of_contains {A V} (key : A → ustring) (R : A → V → Prop) l m k :
  map_of key R l m → k ∈ map key l → contains k m = true.
Proof. intros [_ Hm] Hk. unfold contains. specialize (Hm k). by destruct (find k m). Qed.

Lemma list_find_some {A} (f : A → bool) l x : List.find f l = Some x → x ∈ l ∧ f x = true.
Proof. intros [Hx Hf]%List.find_some. by split; [apply list_elem_of_In|]. Qed.

Lemma definition_of_some doc n d :
  definition_of doc n = Some d → d ∈ doc ∧ ∃ k, definition_symbol d = Some (n, k).
Proof.
  intros [Hd Hn]%list_find_some. split; [done|]. apply bool_decide_eq_true in Hn.
  destruct (definition_symbol d) as [[n' k]|]; [|done]. injection Hn as ->. by exists k.
Qed.

Section served.
Context (doc : list definition) (ok : document_ok doc).

(** The heap right after the document was parsed, and the symbols. *)
Context (h0 : list Node) (table : std_map ustring Symbol).

(** A type as the checks left it, up to the list flag. *)
Record type_now (r : type_ref) (t : Type_) : Prop := {
  tn_type : type t = resolved_base table (ref_base r);
  tn_name : ∀ n, ref_base r = NamedTypeOf n → identifier <$> type_name t = Some n;
  tn_non_null : is_non_null t = ref_non_null r;
  tn_non_null_list : is_non_null_list t = default false (ref_list r)
}.

Definition declared_as (n : ustring) (d : definition) (symbol : Symbol) (decl : Declaration) : Prop :=
  find n table = Some symbol ∧ definition_symbol d = Some (n, symbol_kind symbol) ∧
  identifier <$> decl_name decl = Some n ∧ kind (decl_syntax decl) = body_kind (body decl) ∧
  body_is h0 d (body decl).

(** The heap while a query is executed: [inside] of a list the list flag of a type may
    be cleared. *)
Record serves (inside : bool) (h : list Node) : Prop := {
  sv_symbol : ∀ n d, definition_of doc n = Some d → ∃ symbol decl,
    declared_as n d symbol decl ∧ h !! declaration symbol = Some (NDecl decl);
  sv_type : ∀ input r p, type_at h0 input r p → ∃ t, h !! p = Some (NType t) ∧ type_now r t ∧
    (is_list_type t = ref_is_list r ∨ inside = true ∧ is_list_type t = false)
}.

Lemma type_now_list r t b : type_now r t → type_now r (set_is_list_type b t).
Proof. by intros [? ? ? ?]. Qed.

Lemma serves_cleared (h : list Node) (p : ptr) t :
  serves false h → h !! p = Some (NType t) → serves true (<[p := NType (set_is_list_type false t)]> h).
Proof.
  intros [Hs Ht] Hp. pose proof (lookup_lt_Some _ _ _ Hp). split.
  - intros n d Hn. destruct (Hs n d Hn) as (symbol & decl & Hd & Hl). exists symbol, decl. split; [done|].
    rewrite list_lookup_insert_ne; [done|]. intros ->. congruence.
  - intros input r q Hq. destruct (Ht input r q Hq) as (t' & Ht' & Hnow & Hlist).
    destruct (decide (p = q)) as [<-|E].
    + assert (t' = t) as -> by congruence. eexists. rewrite list_lookup_insert_eq by done.
      split; [done|]. split; [by apply type_now_list|]. by right.
    + exists t'. rewrite list_lookup_insert_ne by done. split; [done|]. split; [done|].
      destruct Hlist as [?|[? _]]; [by left|done].
Qed.

Lemma assigned_back (h : list Node) (p : ptr) t :
  h !! p = Some (NType t) → is_list_type t = true →
  <[p := NType (set_is_list_type true (set_is_list_type false t))]>
    (<[p := NType (set_is_list_type false t)]> h) = h.
Proof.
  intros Hp Ht. assert (E : set_is_list_type true (set_is_list_type false t) = t) by (destruct t; simpl in *; by rewrite Ht).
  rewrite list_insert_insert_eq, E. by apply list_insert_id.
Qed.

(** ** Scalars *)

Section scalars.
Context {B : Type} (Q : B → GraphQlExecutor → Prop).

(** What every value does to the state. *)
Definition value_read (x : query_value) (ls : list lexeme) (v : GraphQlExecutor)
    (k : option Value → M GraphQlExecutor B) : Prop :=
  ∀ y token s', value_is x y → at_lexemes None ls (with_token token v) s' → reads (k (Some y)) Q s'.

Section value.
Context (r : type_ref) (t : Type_) (now : type_now r t).
Context (p : ptr) (ls : list lexeme) (v : GraphQlExecutor) (Hp : heap v !! p = Some (NType t)).
Context (inside : bool) (served : serves inside (heap v)) (symbols_ : symbols v = table).
Context (k : option Value → M GraphQlExecutor B) (fuel : nat).

Abbreviation valid x := (value_valid doc x (ref_base r) (ref_nullable r) (is_list_type t) inside = true).

Lemma null_step w s :
  at_lexemes w (value_lexemes NullOf ++ ls) v s → valid NullOf → value_read NullOf ls v k →
  reads (parse_value (S fuel) (Some p) ≫= k) Q s.
Proof.
  intros Hat Hnull Hk. destruct now as [_ _ Hn Hl]. apply andb_true_iff in Hnull as [Hn' Hl'].
  apply negb_true_iff in Hn', Hl'.
  cbn [parse_value]. wp_step. eapply value_token_step; [exact Hat|]. intros s1 Hs1.
  change (lexeme_token false (Word (u "null"))) with GraphQlToken.NullKeyword in *. cbn [parse_scalar_value].
  eapply read_type_at_step; [exact Hs1|exact Hp|]. apply silent_step; [by rewrite Hn, Hl, Hn', Hl'|].
  apply syntax_step. intros syntax _. wp_step. eapply Hk; [done|by eapply at_lexemes_forget].
Qed.

Lemma integer_step c i w s :
  at_lexemes w (value_lexemes (IntegerOf c i) ++ ls) v s → valid (IntegerOf c i) →
  value_read (IntegerOf c i) ls v k → reads (parse_value (S fuel) (Some p) ≫= k) Q s.
Proof.
  intros Hat [Hl Hb]%andb_true_iff Hk. apply negb_true_iff in Hl. apply bool_decide_eq_true in Hb.
  cbn [parse_value]. wp_step. eapply value_token_step; [exact Hat|]. intros s1 Hs1.
  cbn [lexeme_token parse_scalar_value] in *. eapply read_type_at_step; [exact Hs1|exact Hp|].
  apply silent_step; [rewrite Hl, (tn_type _ _ now); by destruct Hb as [-> | ->]|].
  apply syntax_step. intros syntax _. eapply value_step; [exact Hs1|]. wp_step.
  eapply Hk; [done|by eapply at_lexemes_forget].
Qed.

Lemma string_step i w s :
  at_lexemes w (value_lexemes (StringOf i) ++ ls) v s → valid (StringOf i) →
  value_read (StringOf i) ls v k → reads (parse_value (S fuel) (Some p) ≫= k) Q s.
Proof.
  intros Hat [Hl Hb]%andb_true_iff Hk. apply negb_true_iff in Hl. apply bool_decide_eq_true in Hb.
  cbn [parse_value]. wp_step. eapply value_token_step; [exact Hat|]. intros s1 Hs1.
  cbn [lexeme_token parse_scalar_value] in *. eapply read_type_at_step; [exact Hs1|exact Hp|].
  apply silent_step; [rewrite Hl, (tn_type _ _ now); by destruct Hb as [-> | ->]|].
  apply syntax_step. intros syntax _. eapply value_step; [exact Hs1|]. wp_step.
  eapply Hk; [done|by eapply at_lexemes_forget].
Qed.

Lemma boolean_step b w s :
  at_lexemes w (value_lexemes (BooleanOf b) ++ ls) v s → valid (BooleanOf b) →
  value_read (BooleanOf b) ls v k → reads (parse_value (S fuel) (Some p) ≫= k) Q s.
Proof.
  intros Hat [Hl Hb]%andb_true_iff Hk. apply negb_true_iff in Hl. apply bool_decide_eq_true in Hb.
  cbn [parse_value]. wp_step. eapply value_token_step; [exact Hat|]. intros s1 Hs1.
  assert (Htoken : lexeme_token false (Word (if b then u "true" else u "false"))
    = if b then GraphQlToken.TrueKeyword else GraphQlToken.FalseKeyword) by by destruct b.
  rewrite Htoken in *. cut (reads (parse_boolean_value (Some p) b) (λ a s', reads (k a) Q s') s1); [by destruct b|].
  unfold parse_boolean_value. eapply read_type_at_step; [exact Hs1|exact Hp|].
  apply silent_step; [rewrite Hl, (tn_type _ _ now), Hb; done|].
  apply syntax_step. intros syntax _. wp_step. eapply Hk; [done|by eapply at_lexemes_forget].
Qed.

(** The declaration of an enum or an input object. *)
Lemma named_declaration n d :
  ref_base r = NamedTypeOf n → definition_of doc n = Some d → ∃ name symbol decl,
    type_name t = Some name ∧ identifier name = n ∧ declared_as n d symbol decl ∧
    heap v !! declaration symbol = Some (NDecl decl).
Proof.
  intros Hr Hd. destruct (sv_symbol _ _ served n d Hd) as (symbol & decl & Hdecl & Hl).
  pose proof (tn_name _ _ now n Hr) as Hn. destruct (type_name t) as [name|]; [|done].
  injection Hn as Hn. by exists name, symbol, decl.
Qed.

Lemma enum_step i w s :
  at_lexemes w (value_lexemes (EnumOf i) ++ ls) v s → plain_word i → valid (EnumOf i) →
  value_read (EnumOf i) ls v k → reads (parse_value (S fuel) (Some p) ≫= k) Q s.
Proof.
  intros Hat [_ Hi] [Hl Hb]%andb_true_iff Hk. apply negb_true_iff in Hl.
  destruct (enum_values_of doc (ref_base r)) as [values|] eqn:E; [|done]. apply bool_decide_eq_true in Hb.
  unfold enum_values_of in E. destruct (ref_base r) as [| | | | |n] eqn:Hr; try done.
  destruct (definition_of doc n) as [d|] eqn:Hd; [|done]. destruct d as [| | | |n' values'|]; try done.
  injection E as ->. destruct (named_declaration n _ Hr Hd) as (name & symbol & decl & Hname & Hid & Hdecl & Hat_decl).
  destruct Hdecl as (Hf & [= _ Hkind] & _ & _ & Hbody). destruct (body decl) as [| | |e| | |] eqn:Hbd; try done.
  cbn [parse_value]. wp_step. eapply value_token_step; [exact Hat|]. intros s1 Hs1.
  rewrite Hi in *. cbn [parse_scalar_value]. unfold parse_enum_value. eapply value_step; [exact Hs1|].
  eapply read_type_at_step; [exact Hs1|exact Hp|].
  apply silent_step; [rewrite Hl, (tn_type _ _ now), Hr; unfold resolved_base; rewrite Hf, decide_True by done; done|].
  eapply deref_step; [exact Hname|]. do 2 wp_step.
  rewrite (at_lexemes_view symbols _ _ _ _ Hs1) by done. cbn [with_token set_parser symbols].
  eapply deref_step; [rewrite symbols_, Hid; exact Hf|].
  eapply read_decl_at_step; [exact Hs1|exact Hat_decl|].
  eapply deref_step; [unfold as_enum; by rewrite Hbd|].
  apply silent_step; [apply negb_false_iff; eapply map_of_contains; [exact Hbody|by rewrite map_id]|].
  apply syntax_step. intros syntax _. wp_step. eapply Hk; [done|by eapply at_lexemes_forget].
Qed.
End value.
End scalars.

(** ** Lists and objects *)

Lemma value_lexemes_length x : (0 < length (value_lexemes x))%nat.
Proof. destruct x; simpl; lia. Qed.

(** What a call with the given fuel does, which the values are an induction on. *)
Definition reads_value (fuel : nat) : Prop :=
  ∀ B (Q : B → GraphQlExecutor → Prop) r t p ls v inside k x w s,
    type_now r t → heap v !! p = Some (NType t) → serves inside (heap v) →
    symbols v = table → duplicate_fields v = [] →
    (length (value_lexemes x ++ ls) < fuel)%nat → at_lexemes w (value_lexemes x ++ ls) v s →
    value_words x = true →
    value_valid doc x (ref_base r) (ref_nullable r) (is_list_type t) inside = true →
    value_read Q x ls v k → reads (parse_value fuel (Some p) ≫= k) Q s.

Lemma close_bracket_step {B} (Q : B → GraphQlExecutor → Prop) fuel p ls v w k s :
  (0 < fuel)%nat → at_lexemes w (Punct Character.CloseBracket :: ls) v s →
  (∀ s', at_lexemes None ls (with_token GraphQlToken.CloseBracket v) s' → reads (k None) Q s') →
  reads (parse_value fuel p ≫= k) Q s.
Proof.
  intros Hfuel Hat Hk. destruct fuel as [|fuel]; [lia|]. cbn [parse_value]. wp_step.
  eapply value_token_step; [exact Hat|]. intros s1 Hs1. cbn. wp_step.
  eapply Hk, at_lexemes_forget, Hs1.
Qed.

Section list.
Context (fuel : nat) (IH : reads_value fuel).
Context (r : type_ref) (t : Type_) (now : type_now r t) (list_ : is_list_type t = true).
Context (p : ptr) (ls : list lexeme) (v : GraphQlExecutor) (Hp : heap v !! p = Some (NType t)).
Context (served_ : serves false (heap v)) (symbols_ : symbols v = table).
Context (fields_ : duplicate_fields v = []) (l : list query_value).

Definition unlisted : GraphQlExecutor :=
  set_heap (<[p := NType (set_is_list_type false t)]> (heap v)) v.

Definition elements_read (values : list Value) (ls' : list lexeme) (v' : GraphQlExecutor) : Prop :=
  ∃ done_ todo token, l = done_ ++ todo ∧
    ls' = flat_map value_lexemes todo ++ Punct Character.CloseBracket :: ls ∧
    v' = with_token token unlisted ∧ all2 value_is done_ values.

Lemma unlisted_back token :
  set_heap (<[p := NType (set_is_list_type true (set_is_list_type false t))]> (heap unlisted))
    (with_token token unlisted) = with_token token v.
Proof.
  unfold unlisted. cbn [heap set_heap]. rewrite assigned_back by done. by destruct v.
Qed.

Lemma unlisted_at token :
  heap (with_token token unlisted) !! p = Some (NType (set_is_list_type false t)).
Proof. apply list_lookup_insert_eq. by eapply lookup_lt_Some. Qed.

Lemma elements_step {B} (Q : B → GraphQlExecutor → Prop) token w k s :
  (length (flat_map value_lexemes l ++ Punct Character.CloseBracket :: ls) < fuel)%nat →
  at_lexemes w (flat_map value_lexemes l ++ Punct Character.CloseBracket :: ls)
    (with_token token unlisted) s →
  forallb value_words l = true →
  forallb (λ x, value_valid doc x (ref_base r) (ref_nullable r) false true) l = true →
  (∀ values s', all2 value_is l values →
    at_lexemes None ls (with_token GraphQlToken.CloseBracket unlisted) s' → reads (k values) Q s') →
  reads (executor_loop (λ values,
    value ← parse_value fuel (Some p);
    match value with
    | Some v => mret (inl (values ++ [v]))
    | None => mret (inr values)
    end) [] ≫= k) Q s.
Proof.
  intros Hfuel Hat Hwords Hvalid Hk.
  eapply (executor_loop_step (λ values ls' v', elements_read values ls' v' ∧ (length ls' < fuel)%nat));
    [exact Hat|split; [|exact Hfuel]; by exists [], l, token|].
  clear dependent s w. intros values ? ? s Hat [(done_ & todo & token' & Hl & -> & -> & Hdone) Hlen].
  destruct todo as [|x todo].
  - eapply close_bracket_step; [lia|exact Hat|]. intros s1 Hs1. wp_step. apply Hk; [|exact Hs1].
    by rewrite Hl, app_nil_r.
  - cbn [flat_map] in Hat, Hlen |- *. rewrite <- (assoc_L (++)) in Hat, Hlen.
    rewrite Hl, forallb_app in Hwords, Hvalid. apply andb_true_iff in Hwords as [_ [Hw _]%andb_true_iff].
    apply andb_true_iff in Hvalid as [_ [Hx _]%andb_true_iff].
    eapply (IH _ _ r (set_is_list_type false t) p _ (with_token token' unlisted) true); try done.
    + by apply type_now_list.
    + apply unlisted_at.
    + by apply serves_cleared.
    + intros y token2 s1 Hy Hs1. wp_step. eexists _, _. split; [exact Hs1|]. split.
      * split; [|rewrite length_app in Hlen; lia]. exists (done_ ++ [x]), todo, token2.
        split_and!; [by rewrite <- (assoc_L (++))|done..|by apply all2_snoc].
      * pose proof (value_lexemes_length x). rewrite <- (assoc_L (++)), (length_app (value_lexemes x)). lia.
Qed.

Lemma list_step {B} (Q : B → GraphQlExecutor → Prop) w k s :
  (length (value_lexemes (ListOf l) ++ ls) < S fuel)%nat →
  at_lexemes w (value_lexemes (ListOf l) ++ ls) v s → value_words (ListOf l) = true →
  forallb (λ x, value_valid doc x (ref_base r) (ref_nullable r) false true) l = true →
  value_read Q (ListOf l) ls v k → reads (parse_value (S fuel) (Some p) ≫= k) Q s.
Proof.
  intros Hfuel Hat Hwords Hvalid Hk. cbn [value_lexemes app] in Hat, Hfuel.
  rewrite <- (assoc_L (++)) in Hat, Hfuel. cbn [parse_value]. wp_step.
  eapply value_token_step; [exact Hat|]. intros s1 Hs1.
  change (lexeme_token false (Punct Character.OpenBracket)) with GraphQlToken.OpenBracket in *. cbv iota.
  eapply read_type_at_step; [exact Hs1|exact Hp|]. apply silent_step; [by rewrite list_|].
  apply syntax_step. intros syntax _. eapply assign_list_step; [exact Hs1|exact Hp|]. intros s2 Hs2.
  eapply (elements_step _ GraphQlToken.OpenBracket); [cbn in Hfuel |- *; lia|exact Hs2|exact Hwords|exact Hvalid|].
  intros values s3 Hvalues Hs3. do 2 wp_step.
  apply silent_step.
  { rewrite (at_lexemes_view (λ s, current_value_token (parser s)) _ _ _ _ Hs3) by done. done. }
  eapply assign_list_step; [exact Hs3|apply unlisted_at|]. intros s4 Hs4. cbn [with_token set_parser heap] in Hs4. apply finish_step. intros syntax' _. wp_step.
  eapply Hk; [exact Hvalues|]. rewrite <- unlisted_back. exact Hs4.
Qed.
End list.

Lemma type_of_some name l r : type_of name l = Some r → (name, r) ∈ l.
Proof.
  unfold type_of. destruct (List.find (λ a, bool_decide (a.1 = name)) l) as [[n r']|] eqn:E; [|done].
  intros [= <-].
  apply list_find_some in E as [Hin Hn]. apply bool_decide_eq_true in Hn. cbn in Hn. by subst n.
Qed.

Lemma value_valid_flag x b nullable flag flag' inside :
  flag = flag' ∨ inside = true ∧ flag = false → value_valid doc x b nullable flag' inside = true →
  value_valid doc x b nullable flag inside = true.
Proof. intros [->|[-> ->]]; [done|]. by destruct flag', x; cbn. Qed.

Lemma elem_of_ok d : d ∈ doc → definition_ok d.
Proof. apply Forall_elem, ok. Qed.

Section object.
Context (fuel : nat) (IH : reads_value fuel).
Context (fields : list argument_def) (distinct : NoDup (map fst fields)).
Context (m : std_map ustring InputFieldDefinition) (map_ : map_of fst (input_field_is h0) fields m).
Context (ls : list lexeme) (v : GraphQlExecutor) (inside : bool).
Context (served_ : serves inside (heap v)) (symbols_ : symbols v = table).
Context (fields_ : duplicate_fields v = []) (l : list (ustring * query_value)).
Context (words : forallb (λ x, plain_wordb x.1 && value_words x.2) l = true).
Context (valid_ : forallb (λ x, match type_of x.1 fields with
    | Some r => value_valid doc x.2 (ref_base r) (ref_nullable r) (ref_is_list r) inside
    | None => false
    end) l = true).
Context (once : NoDup (map fst l)).

Definition object_field_is (x : ustring * query_value) (f : ObjectField) : Prop :=
  identifier (field_name f) = x.1 ∧
  match field_value f with Some y => value_is x.2 y | None => False end.

Definition object_fields_read (f : list ObjectField * list ustring) (ls' : list lexeme)
    (v' : GraphQlExecutor) : Prop :=
  ∃ done_ todo token, l = done_ ++ todo ∧
    ls' = flat_map named_value_lexemes todo ++ Punct Character.CloseBrace :: ls ∧
    v' = with_token token v ∧ all2 object_field_is done_ f.1 ∧ f.2 = map fst done_.

(** One field. *)
Lemma object_field_step done_ x todo f token s :
  l = done_ ++ x :: todo → all2 object_field_is done_ f.1 → f.2 = map fst done_ →
  let rest := flat_map named_value_lexemes todo ++ Punct Character.CloseBrace :: ls in
  (length (named_value_lexemes x ++ rest) < fuel)%nat →
  at_lexemes (Some x.1) (Punct Character.Colon :: value_lexemes x.2 ++ rest) (with_token token v) s →
  ∀ field, find x.1 m = Some field →
  reads (parse_object_field (parse_value fuel) x.1 field f) (λ r s', ∃ f' ls' v', r = inl f' ∧
    at_lexemes None ls' v' s' ∧ object_fields_read f' ls' v' ∧ (length ls' < fuel)%nat ∧
    (length ls' < length (named_value_lexemes x ++ rest))%nat) s.
Proof.
  intros Hl Hdone Hf rest Hfuel Hat field Hfield.
  rewrite Hl, forallb_app in words, valid_. apply andb_true_iff in words as [_ [[_ Hw]%andb_true_iff _]%andb_true_iff].
  apply andb_true_iff in valid_ as [_ [Hx _]%andb_true_iff]. cbn beta in Hx.
  destruct (type_of x.1 fields) as [r|] eqn:Hr; [|done]. apply type_of_some in Hr.
  destruct (map_of_find _ _ _ _ (x.1, r) map_ distinct Hr) as (field' & Hfield' & _ & Ht). cbn [fst snd] in *.
  assert (field' = field) as -> by congruence.
  destruct (sv_type _ _ served_ _ _ _ Ht) as (t & Hp & Hnow & Hflag).
  unfold parse_object_field. destruct f as [object_fields parsed]. cbn [fst snd] in *. subst parsed.
  apply silent_step.
  { apply bool_decide_eq_false. rewrite Hl, map_app in once. apply list.NoDup_app in once as (_ & Hno & _).
    intros Hin. apply (Hno _ Hin). left. }
  apply syntax_step. intros syntax _. apply name_step. intros name Hname.
  eapply expect_step; [exact Hat|done|]. intros s1 Hs1. cbn [negb].
  eapply (IH _ _ r t (ifd_type field) rest (with_token token v) inside); try done.
  - cbn [named_value_lexemes length app] in Hfuel. lia.
  - eapply value_valid_flag; [exact Hflag|done].
  - intros y token' s2 Hy Hs2. wp_step. eexists _, _, _. split; [done|]. split; [exact Hs2|].
    split; [|cbn [named_value_lexemes length app] in *; rewrite length_app in *; lia].
    exists (done_ ++ [x]), todo, token'. rewrite <- (assoc_L (++)), map_app. split_and!; [done..| |done].
    apply all2_snoc; [done|]. split; [exact Hname|exact Hy].
Qed.

Lemma object_fields_step {B} (Q : B → GraphQlExecutor → Prop) type_ token w k s :
  (length (flat_map named_value_lexemes l ++ Punct Character.CloseBrace :: ls) < fuel)%nat →
  at_lexemes w (flat_map named_value_lexemes l ++ Punct Character.CloseBrace :: ls)
    (with_token token v) s →
  (∀ object_fields token' s', all2 object_field_is l object_fields →
    at_lexemes None ls (with_token token' v) s' →
    reads (k (Some (object_fields, map fst l))) Q s') →
  reads (parse_object_fields (parse_value fuel) type_ (Some m) ≫= k) Q s.
Proof.
  intros Hfuel Hat Hk. unfold parse_object_fields.
  eapply (executor_loop_step (λ f ls' v', object_fields_read f ls' v' ∧ (length ls' < fuel)%nat));
    [exact Hat|split; [|exact Hfuel]; by exists [], l, token|].
  clear dependent s w. intros f ? ? s Hat [(done_ & todo & token' & Hl & -> & -> & Hdone & Hf) Hlen].
  destruct todo as [|x todo].
  - eapply take_lexeme_step; [exact Hat|]. intros s1 Hs1.
    change (lexeme_token false (Punct Character.CloseBrace)) with GraphQlToken.CloseBrace. cbv iota. wp_step.
    rewrite app_nil_r in Hl. subst done_. destruct f as [fs names]. cbn [fst snd] in *. subst names.
    eapply Hk; [exact Hdone|by eapply at_lexemes_forget].
  - cbn [flat_map] in Hat, Hlen |- *. rewrite <- (assoc_L (++)) in Hat, Hlen |- *.
    cbn [named_value_lexemes app] in Hat. pose proof words as Hwords. pose proof valid_ as Hvalid.
    rewrite Hl, forallb_app in Hwords, Hvalid.
    apply andb_true_iff in Hwords as [_ [[Hname _]%andb_true_iff _]%andb_true_iff].
    apply andb_true_iff in Hvalid as [_ [Hx _]%andb_true_iff].
    apply bool_decide_eq_true in Hname as [_ Hname].
    eapply take_lexeme_step; [exact Hat|]. intros s1 Hs1. rewrite Hname. cbv iota.
    eapply value_step; [exact Hs1|]. cbn [deref]. wp_step. wp_step.
    destruct (type_of x.1 fields) as [r|] eqn:Hr; [|done]. apply type_of_some in Hr.
    destruct (map_of_find _ _ _ _ (x.1, r) map_ distinct Hr) as (field & Hfield & _). cbn [fst] in Hfield.
    cbn [lexeme_text]. rewrite Hfield. eapply wp_mono; [by eapply object_field_step| |done].
    intros ? s2 (f' & ls' & v' & -> & Hs2 & Hread & Hlt & Hless). exists ls', v'. by split_and!.
Qed.
End object.

Lemma object_checked_step {B} (Q : B → GraphQlExecutor → Prop) p t w ls v required parsed object_fields
    syntax k s :
  at_lexemes w ls v s → heap v !! p = Some (NType t) → type t = T_Object →
  duplicate_fields v = [] → (∀ n, n ∈ required → n ∈ parsed) → reads (k tt) Q s →
  reads (check_object (Some p) required parsed object_fields syntax ≫= k) Q s.
Proof.
  intros Hat Hp Ht Hdup Hreq Hk. wp_step. unfold check_object.
  eapply read_type_at_step; [exact Hat|exact Hp|].
  apply silent_step; [by rewrite bool_decide_eq_false_2 by auto|].
  unfold check_duplicate_fields. do 2 wp_step. wp_step.
  rewrite (at_lexemes_view duplicate_fields _ _ _ _ Hat), Hdup by done. cbn [for_each iter_list]. wp_step.
  unfold check_required_fields. apply wp_unbind. eapply silent_for_each; [|exact Hk].
  intros n Hn. apply bool_decide_eq_false. intros Hno. by apply Hno, Hreq.
Qed.

Lemma object_step {B} fuel (Q : B → GraphQlExecutor → Prop) r t p ls v inside k l w s :
  reads_value fuel → type_now r t → is_list_type t = false → heap v !! p = Some (NType t) →
  serves inside (heap v) → symbols v = table → duplicate_fields v = [] →
  (length (value_lexemes (ObjectOf l) ++ ls) < S fuel)%nat →
  at_lexemes w (value_lexemes (ObjectOf l) ++ ls) v s → value_words (ObjectOf l) = true →
  value_valid doc (ObjectOf l) (ref_base r) (ref_nullable r) false inside = true →
  value_read Q (ObjectOf l) ls v k → reads (parse_value (S fuel) (Some p) ≫= k) Q s.
Proof.
  intros IH Hnow Hlist Hp Hserved Hsym Hdup Hfuel Hat Hwords Hvalid Hk.
  cbn [value_valid negb andb] in Hvalid. unfold input_fields_of in Hvalid.
  destruct (ref_base r) as [| | | | |n] eqn:Hr; try done.
  destruct (definition_of doc n) as [d|] eqn:Hd; [|done]. destruct d as [| |n' fields| | |]; try done.
  apply andb_true_iff in Hvalid as [[Hx Honce]%andb_true_iff Hreq]. apply bool_decide_eq_true in Honce.
  destruct (definition_of_some _ _ _ Hd) as [Hin _]. destruct (elem_of_ok _ Hin) as (_ & _ & _ & Hdistinct).
  destruct (named_declaration r t Hnow v inside Hserved n _ Hr Hd) as (name & symbol & decl & Hname & Hid & Hdecl & Hl).
  destruct Hdecl as (Hf & [= _ Hkind] & _ & _ & Hbody). destruct (body decl) as [| |o| | | |] eqn:Hbd; try done.
  destruct Hbody as [Hrequired (m & Hm & Hmap)].
  assert (Htype : type t = T_Object)
    by (rewrite (tn_type _ _ Hnow), Hr; unfold resolved_base; rewrite Hf, decide_False; [done|by rewrite <- Hkind]).
  change (value_lexemes (ObjectOf l)) with
    (Punct Character.OpenBrace :: flat_map named_value_lexemes l ++ [Punct Character.CloseBrace]) in *.
  cbn [app] in Hat, Hfuel. rewrite <- (assoc_L (++)) in Hat, Hfuel. cbn [parse_value]. wp_step.
  eapply value_token_step; [exact Hat|]. intros s1 Hs1.
  change (lexeme_token false (Punct Character.OpenBrace)) with GraphQlToken.OpenBrace in *. cbv iota.
  eapply read_type_at_step; [exact Hs1|exact Hp|].
  rewrite Htype, Hlist. cbn [bool_decide orb]. cbv iota. rewrite bool_decide_eq_false_2 by auto. cbv iota.
  unfold parse_object_value. eapply read_type_at_step; [exact Hs1|exact Hp|].
  apply syntax_step. intros syntax _. eapply deref_step; [exact Hname|]. do 2 wp_step.
  rewrite (at_lexemes_view symbols _ _ _ _ Hs1) by done.
  eapply deref_step; [cbn; rewrite Hsym, Hid; exact Hf|]. rewrite decide_False by (intros Hne; by apply Hne).
  eapply read_decl_at_step; [exact Hs1|exact Hl|]. eapply deref_step; [unfold as_input_object; by rewrite Hbd|].
  rewrite Hm. eapply (object_fields_step fuel IH fields Hdistinct m Hmap ls v inside Hserved Hsym Hdup l Hwords Hx Honce);
    [cbn in Hfuel |- *; lia|exact Hs1|].
  intros object_fields token s2 Hfields Hs2. apply finish_step. intros syntax' _.
  eapply object_checked_step; [exact Hs2|exact Hp|exact Htype|exact Hdup| |wp_step; by eapply Hk].
  rewrite Hrequired. intros n0 Hn0. apply list_elem_of_In, List.in_map_iff in Hn0 as (f & <- & Hf0).
  apply list_elem_of_In, list_elem_of_filter in Hf0 as [Hf1 Hf2]. apply list_elem_of_In in Hf2.
  rewrite forallb_forall in Hreq. specialize (Hreq f Hf2). apply orb_true_iff in Hreq as [Hno|Hyes].
  - apply negb_true_iff in Hno. by rewrite Hno in Hf1.
  - by apply bool_decide_eq_true in Hyes.
Qed.

(** ** Any value *)

Lemma values_read fuel : reads_value fuel.
Proof.
  induction fuel as [|fuel IH]; intros B Q r t p ls v inside k x w s Hnow Hp Hserved Hsym Hdup Hfuel Hat
    Hwords Hvalid Hk; [lia|].
  destruct x as [|c i|i|b|i|l|l].
  - by eapply null_step.
  - by eapply integer_step.
  - by eapply string_step.
  - by eapply boolean_step.
  - eapply enum_step; try done. by apply bool_decide_eq_true in Hwords.
  - apply andb_true_iff in Hvalid as [[Hlist Hinside]%andb_true_iff Hvalid].
    apply negb_true_iff in Hinside as ->. by eapply list_step.
  - assert (Hlist : is_list_type t = false) by by apply andb_true_iff in Hvalid as [?%negb_true_iff _].
    rewrite Hlist in Hvalid. by eapply object_step.
Qed.

(** ** Arguments *)

Lemma no_directives_here {B} (Q : B → GraphQlExecutor → Prop) fuel location w ls v k s :
  (0 < fuel)%nat → at_lexemes w ls v s → next_token false ls ≠ GraphQlToken.At →
  (∀ s', at_lexemes w ls v s' → reads (k []) Q s') →
  reads (parse_directives fuel location ≫= k) Q s.
Proof.
  intros Hfuel Hat Hnext Hk. destruct fuel as [|fuel]; [lia|]. cbn [parse_directives]. wp_step.
  unfold executor_loop. do 2 wp_step. unfold executor_fuel, parse_fuel, scan_fuel. cbn [loop]. wp_step.
  eapply scan_optional_step; [exact Hat|done|]. intros _ s1 Hs1. cbn [negb]. do 2 wp_step. by apply Hk.
Qed.

Lemma no_directives_any {B} (Q : B → GraphQlExecutor → Prop) location w ls v k s :
  at_lexemes w ls v s → next_token false ls ≠ GraphQlToken.At →
  (∀ s', at_lexemes w ls v s' → reads (k []) Q s') →
  reads (parse_directives_ location ≫= k) Q s.
Proof.
  intros Hat Hnext Hk. wp_step. unfold parse_directives_. do 2 wp_step. apply wp_unbind.
  eapply no_directives_here; [|done..]. unfold executor_fuel, parse_fuel, scan_fuel. lia.
Qed.

Lemma any_value_step {B} (Q : B → GraphQlExecutor → Prop) r t p ls v inside k x w s :
  type_now r t → heap v !! p = Some (NType t) → serves inside (heap v) →
  symbols v = table → duplicate_fields v = [] → at_lexemes w (value_lexemes x ++ ls) v s →
  value_words x = true →
  value_valid doc x (ref_base r) (ref_nullable r) (is_list_type t) inside = true →
  value_read Q x ls v k → reads (parse_value_ (Some p) ≫= k) Q s.
Proof.
  intros ????? Hat Hw Hvalid Hk. wp_step. unfold parse_value_. do 2 wp_step. apply wp_unbind.
  eapply values_read; [done..| |done|done|exact Hvalid|done]. apply reading_fuel, Hat.
Qed.

Section call.
Context (defs : list argument_def) (distinct : NoDup (map fst defs)).
Context (m : std_map ustring InputValueDefinition) (map_ : map_of fst (argument_is h0) defs m).
Context (ls : list lexeme) (v : GraphQlExecutor).
Context (served_ : serves false (heap v)) (symbols_ : symbols v = table).
Context (fields_ : duplicate_fields v = []) (l : list (ustring * query_value)).
Context (words : arguments_words l = true) (valid_ : arguments_valid doc defs l = true).

Definition arguments_done (args : std_map ustring Argument) (ls' : list lexeme) (v' : GraphQlExecutor) :
    Prop :=
  ∃ done_ todo token, l = done_ ++ todo ∧
    ls' = flat_map named_value_lexemes todo ++ Punct Character.CloseParen :: ls ∧
    v' = with_token token v ∧ map_of fst named_value_is done_ args.

Lemma missing_step {B} (Q : B → GraphQlExecutor → Prop) args target token w ls' k s :
  at_lexemes w ls' (with_token token v) s → map_of fst named_value_is l args →
  reads (k tt) Q s → reads (check_missing_arguments m args target ≫= k) Q s.
Proof.
  intros Hat Hargs Hk. unfold check_missing_arguments. apply still_for_each; [|exact Hk].
  intros [n x] Hx. destruct (map_of_entry _ _ _ _ _ _ map_ Hx) as (a & Ha & <- & Hname & p & Hp & Ht).
  destruct (sv_type _ _ served_ _ _ _ Ht) as (t & Hpt & Hnow & [Hflag|[? _]]); [|done].
  cbn [snd]. rewrite Hp, Hname. eapply read_type_at_step; [exact Hat|exact Hpt|].
  wp_step; [|done]. exfalso. destruct Hnow as [_ _ Hn Hl].
  apply andb_true_iff in valid_ as [_ Hreq]. rewrite forallb_forall in Hreq.
  apply list_elem_of_In in Ha. specialize (Hreq a Ha). unfold argument_required in Hreq.
  match goal with H : _ && _ = true |- _ => apply andb_true_iff in H as [Hmust Hno] end.
  rewrite Hn, Hl, Hflag in Hmust. unfold ref_is_list in Hmust. apply negb_true_iff in Hno.
  assert (Hin : a.1 ∈ map fst l).
  { destruct (ref_list a.2), (ref_non_null a.2); cbn in *; try done;
      repeat match goal with b : bool |- _ => destruct b end; cbn in *; try done;
      by apply bool_decide_eq_true in Hreq. }
  by rewrite (map_of_contains _ _ _ _ _ Hargs Hin) in Hno.
Qed.

Lemma next_named_value todo :
  next_token false (flat_map named_value_lexemes todo ++ Punct Character.CloseParen :: ls) ≠ GraphQlToken.At.
Proof. destruct todo; [done|]. by apply word_not. Qed.

(** An argument behind its name. *)
Lemma argument_step done_ x todo args token fuel s :
  l = done_ ++ x :: todo → map_of fst named_value_is done_ args → (0 < fuel)%nat →
  let rest := flat_map named_value_lexemes todo ++ Punct Character.CloseParen :: ls in
  at_lexemes (Some x.1) (Punct Character.Colon :: value_lexemes x.2 ++ rest) (with_token token v) s →
  reads (name ← ⟨create_name x.1⟩;
    syntax ← ⟨CreateSyntax S_Argument⟩;
    let defined := find x.1 m in
    when (bool_decide (defined = None)) ⟨add_diagnostic Unknown_argument_0 [x.1]⟩;;
    colon ← ⟨expect GraphQlToken.Colon⟩;
    if negb colon then
      ⟨Parser.skip_to [GraphQlToken.CloseBrace]⟩;;
      mret (inr None)
    else
    value ← match defined with
      | Some definition => parse_value_ (ivd_type definition)
      | None => ⟨Parser.skip_to [GraphQlToken.G_Name; GraphQlToken.CloseParen]⟩;; mret None
      end;
    directives_ ← parse_directives fuel DirectiveLocation.ARGUMENT_DEFINITION;
    mret (inl (emplace x.1 (mkArgument syntax name value directives_) args)))
    (λ r s', ∃ args' ls' v', r = (inl args' : _ + option (std_map ustring Argument)) ∧ at_lexemes None ls' v' s' ∧
      arguments_done args' ls' v' ∧ (length ls' < length (named_value_lexemes x ++ rest))%nat) s.
Proof.
  intros Hl Hargs Hfuel rest Hat. pose proof words as Hwords.
  pose proof valid_ as [[Hvalid Honce]%andb_true_iff _]%andb_true_iff. unfold arguments_words in Hwords.
  rewrite Hl, forallb_app in Hwords, Hvalid. apply andb_true_iff in Hwords as [_ [Hw _]%andb_true_iff].
  apply andb_true_iff in Hvalid as [_ [Hx _]%andb_true_iff]. cbn beta in Hx, Hw.
  destruct (type_of x.1 defs) as [r|] eqn:Hr; [|done]. apply type_of_some in Hr.
  destruct (map_of_find _ _ _ _ (x.1, r) map_ distinct Hr) as (definition & Hdef & _ & p & Hp & Ht).
  cbn [fst snd] in Hdef, Ht. destruct (sv_type _ _ served_ _ _ _ Ht) as (t & Hpt & Hnow & [Hflag|[? _]]); [|done].
  apply name_step. intros name Hname. apply syntax_step. intros syntax _. cbv zeta. rewrite Hdef.
  apply silent_step; [done|]. eapply expect_step; [exact Hat|done|]. intros s1 Hs1. cbn [negb]. rewrite Hp.
  eapply (any_value_step _ r t p rest (with_token token v) false _ x.2); try done.
  { by rewrite Hflag. }
  intros y token' s2 Hy Hs2. eapply no_directives_here; [done|exact Hs2|apply next_named_value|].
  intros s3 Hs3. wp_step. eexists _, _, _. split; [done|]. split; [exact Hs3|].
  split; [|cbn [named_value_lexemes length app]; rewrite !length_app; lia].
  exists (done_ ++ [x]), todo, token'. split_and!; [by rewrite <- (assoc_L (++))|done..|].
  apply map_of_emplace; [done|]. split; [exact Hname|]. split; [done|]. by exists y.
Qed.

Lemma call_step {B} (Q : B → GraphQlExecutor → Prop) target w k s :
  at_lexemes w (flat_map named_value_lexemes l ++ Punct Character.CloseParen :: ls) v s →
  (∀ args target' token s', map_of fst named_value_is l args →
    at_lexemes None ls (with_token token v) s' → reads (k (Some (args, target'))) Q s') →
  reads (parse_arguments_ m target ≫= k) Q s.
Proof.
  intros Hat Hk. wp_step. unfold parse_arguments_. do 2 wp_step.
  pose proof (reading_fuel _ _ (al_reading _ _ _ _ Hat)) as Hfuel. rewrite length_app in Hfuel. cbn [length] in Hfuel.
  change (scan_fuel (scanner (sub s))) with (executor_fuel s) in Hfuel.
  destruct (executor_fuel s) as [|[|fuel]]; [lia..|]. clear Hfuel. remember (S fuel) as fuel' eqn:Hfuel'.
  cbn [parse_arguments]. eapply (executor_loop_step arguments_done); [exact Hat| |].
  { exists [], l, (current_value_token (parser v)). split_and!; [done..| |apply map_of_nil]. by destruct v as [[] ]. }
  clear dependent s w. intros args ? ? s Hat (done_ & todo & token & Hl & -> & -> & Hargs).
  destruct todo as [|x todo].
  - eapply take_lexeme_step; [exact Hat|]. intros s1 Hs1. rewrite decide_True by done. wp_step.
    rewrite app_nil_r in Hl. subst done_. apply finish_step. intros target' _.
    eapply missing_step; [exact Hs1|exact Hargs|]. wp_step. by eapply Hk, at_lexemes_forget.
  - cbn [flat_map] in Hat |- *. rewrite <- (assoc_L (++)) in Hat |- *. cbn [named_value_lexemes app] in Hat.
    eapply take_lexeme_step; [exact Hat|]. intros s1 Hs1. rewrite decide_False by (intros Hne; by apply Hne).
    eapply value_step; [exact Hs1|]. eapply wp_mono; [eapply (argument_step done_ x todo); [done..| |exact Hs1]|..|done].
    { lia. }
    intros ? s2 (args' & ls' & v' & -> & Hs2 & Hdone & Hlen). by exists ls', v'.
Qed.
End call.

(** ** Types that are selected from *)

Lemma definition_distinct n d :
  definition_of doc n = Some d → definition_ok d.
Proof. intros [Hd _]%definition_of_some. by apply elem_of_ok. Qed.

(** A field of an object or an interface, as the heap has it. *)
Lemma field_declared parent key f h :
  serves false h → field_of doc parent key = Some f → ∃ symbol decl o m fd,
    find parent table = Some symbol ∧ h !! declaration symbol = Some (NDecl decl) ∧
    as_object_like decl = Some o ∧ fields o = Some m ∧ find key m = Some fd ∧
    NoDup (map fst (def_arguments f)) ∧ map_of fst (argument_is h0) (def_arguments f) (fd_arguments fd) ∧
    type_at h0 false (def_type f) (fd_type fd).
Proof.
  intros Hserved Hf. unfold field_of, fields_of in Hf.
  destruct (definition_of doc parent) as [d|] eqn:Hd; [|done].
  destruct (sv_symbol _ _ Hserved parent d Hd) as (symbol & decl & (Hfind & _ & _ & _ & Hbody) & Hl).
  pose proof (definition_distinct _ _ Hd) as Hok.
  assert (∃ l o, List.find (λ f, bool_decide (def_name f = key)) l = Some f ∧ fields_ok l ∧
    as_object_like decl = Some o ∧ has_fields h0 l o) as (l & o & Hin & (_ & Hwords & Hdistinct) & Ho & m & Hm & Hmap).
  { unfold as_object_like. destruct d as [name implements l|name l| | | |]; try done; cbn [mbind option_bind] in Hf;
      destruct (body decl) as [o|o| | | | |]; try done.
    - destruct Hbody as [_ Hfields]. destruct Hok as (_ & _ & ?). by exists l, o.
    - destruct Hok as [_ ?]. by exists l, o. }
  apply list_find_some in Hin as [Hin Hkey]. apply bool_decide_eq_true in Hkey.
  destruct (map_of_find _ _ _ _ f Hmap Hdistinct Hin) as (fd & Hfd & _ & Ht & Ha). rewrite Hkey in Hfd.
  exists symbol, decl, o, m, fd. split_and!; try done.
  apply (Forall_elem _ _ _ Hwords) in Hin as (_ & [_ ?] & _). done.
Qed.

Lemma selectable_declared n r t h :
  serves false h → ref_base r = NamedTypeOf n → type_now r t → is_selectable doc n = true →
  type_in (type t) T_ObjectType = true ∧ ∃ name symbol, type_name t = Some name ∧
    find (identifier name) table = Some symbol ∧ identifier name = n.
Proof.
  intros Hserved Hr Hnow Hsel. unfold is_selectable in Hsel.
  destruct (definition_of doc n) as [d|] eqn:Hd; [|done].
  destruct (sv_symbol _ _ Hserved n d Hd) as (symbol & decl & (Hfind & Hsym & _ & _ & Hbody) & Hl).
  split.
  - rewrite (tn_type _ _ Hnow), Hr. unfold resolved_base. rewrite Hfind.
    rewrite decide_False; [done|]. intros E. rewrite E in Hsym. by destruct d.
  - pose proof (tn_name _ _ Hnow n Hr) as Hn. destruct (type_name t) as [name|]; [|done].
    injection Hn as <-. by exists name, symbol.
Qed.

(** ** Fragments that apply *)

Lemma decl_identifier_step {B} (Q : B → GraphQlExecutor → Prop) d n (k : ustring → M GraphQlExecutor B) s :
  identifier <$> decl_name d = Some n → reads (k n) Q s → reads (decl_identifier d ≫= k) Q s.
Proof.
  intros Hd Hk. wp_step. unfold decl_identifier. destruct (decl_name d) as [name|]; [|done].
  injection Hd as <-. cbn [deref]. by do 3 wp_step.
Qed.

Lemma assignment_step {B} (Q : B → GraphQlExecutor → Prop) on parent d d' symbol symbol' object current
    name k s :
  definition_of doc on = Some d → definition_of doc parent = Some d' → applies doc on parent = true →
  declared_as on d symbol object → declared_as parent d' symbol' current →
  reads (k tt) Q s → reads (check_fragment_assignment name object current ≫= k) Q s.
Proof.
  intros Hd Hd' Happ (_ & _ & Hon & _ & Hbody) (_ & _ & Hparent & Hkind & Hbody') Hk.
  unfold applies in Happ. rewrite Hd, Hd' in Happ. destruct d as [name_ implements fields_| | | | |]; try done.
  destruct (body object) as [o| | | | | |] eqn:Ho; try done. destruct Hbody as [Himpl _].
  wp_step. unfold check_fragment_assignment. rewrite Hkind.
  destruct d' as [| | |? first rest| |]; try done; destruct (body current) as [| | | |x| |] eqn:Hc; try done;
    cbn [body_kind]; apply bool_decide_eq_true in Happ.
  - eapply decl_identifier_step; [done|]. eapply decl_identifier_step; [done|]. wp_step; [|done].
    by match goal with H : bool_decide _ = true |- _ => apply bool_decide_eq_true in H end.
  - eapply deref_step; [unfold as_object; by rewrite Ho|].
    assert (Hi : ∃ i, object_implementations o = Some i ∧ contains parent (implementations i) = true).
    { destruct implements; [by apply elem_of_nil in Happ|]. destruct Himpl as (i & Hi & Hmap).
      exists i. split; [done|]. eapply map_of_contains; [exact Hmap|]. by rewrite map_id. }
    destruct Hi as (i & -> & Hi). wp_step. eapply decl_identifier_step; [done|]. rewrite Hi. do 2 wp_step; done.
  - eapply deref_step; [unfold as_union; by rewrite Hc|]. eapply decl_identifier_step; [done|]. wp_step; [|done].
    rewrite (map_of_contains _ _ _ _ on Hbody') in *; [done|by rewrite map_id].
Qed.
End served.
