(* ===== verification/QueryRoundTrip.v ===== *)
(** * Queries are executed as they are printed

    The executor on a rendering of a query that is valid for the document its schema
    was parsed from: nothing is reported, and the result describes the query. *)
From S2P Require Import Prelude Monad Character Cstring Diagnostic StdMap Syntaxes.
From S2P Require Import TextWriter Scanner Parser Schema SchemaChecks LexerText SchemaText Reading.
From S2P Require Import SchemaFrames SchemaTypes SchemaFields SchemaParts SchemaRoundTrip SchemaVerdict.
From S2P Require Import Executor QueryText QueryReading.

#[local] Arguments u : simpl never.

(** ** Selections *)

(** A spread is on the stack of the type it is in; the value token is that of the
    last value. *)
Definition moved (token : GraphQlToken.t) (refs : list (Name * root)) (v : GraphQlExecutor) :
    GraphQlExecutor :=
  set_forward_fragment_references (forward_fragment_references v ++ refs) (with_token token v).

Definition pushed (r : root) (v : GraphQlExecutor) : GraphQlExecutor :=
  set_current_object_types (r :: current_object_types v) v.

Lemma moved_moved token token' refs refs' v :
  moved token' refs' (moved token refs v) = moved token' (refs ++ refs') v.
Proof. unfold moved. cbn. by rewrite <- (assoc_L (++)). Qed.

Lemma moved_token token token' refs v : with_token token' (moved token refs v) = moved token' refs v.
Proof. done. Qed.

Lemma moved_none v : moved (current_value_token (parser v)) [] v = v.
Proof. unfold moved. cbn. rewrite app_nil_r. by destruct v as [[] ]. Qed.

(** What may follow a field. *)
Record follows (ls : list lexeme) : Prop := {
  fo_colon : next_token false ls ≠ GraphQlToken.Colon;
  fo_paren : next_token false ls ≠ GraphQlToken.OpenParen;
  fo_at : next_token false ls ≠ GraphQlToken.At;
  fo_brace : next_token false ls ≠ GraphQlToken.OpenBrace
}.

Lemma selection_follows l ls :
  follows (flat_map selection_lexemes l ++ Punct Character.CloseBrace :: ls).
Proof.
  destruct l as [|[[a|] name arguments_ set_|name|on set_] l]; [by split|..];
    cbn [flat_map selection_lexemes alias_lexemes app]; first [by split|split; by apply word_not].
Qed.

Definition set_part (set_ : option (list query_selection)) : list lexeme :=
  match set_ with
  | Some l => Punct Character.OpenBrace :: set_lexemes l
  | None => []
  end.

Lemma set_part_next set_ ls token :
  token ≠ GraphQlToken.OpenBrace → next_token false ls ≠ token →
  next_token false (set_part set_ ++ ls) ≠ token.
Proof. intros Ht Hls. destruct set_; [|done]. cbn. congruence. Qed.

Lemma call_next l ls token :
  token ≠ GraphQlToken.OpenParen → next_token false ls ≠ token →
  next_token false (call_lexemes l ++ ls) ≠ token.
Proof. intros Ht Hls. destruct l; [done|]. cbn. congruence. Qed.

Lemma field_lexemes_next alias_ name arguments_ set_ ls :
  selection_lexemes (FieldOf alias_ name arguments_ set_) ++ ls
  = Word (default name alias_)
    :: match alias_ with Some _ => [Punct Character.Colon; Word name] | None => [] end
    ++ call_lexemes arguments_ ++ set_part set_ ++ ls.
Proof. destruct alias_, set_; cbn; unfold set_lexemes; by rewrite <- ?app_assoc; cbn; rewrite <- ?app_assoc. Qed.

Section executed.
Context (doc : list definition) (ok : document_ok doc).
Context (h0 : list Node) (table : std_map ustring Symbol) (fragments_ : list (ustring * ustring)).

Abbreviation serves := (serves doc h0 table).
Abbreviation declared_as := (declared_as h0 table).

(** The executor between the values of a query. *)
Record ready_for (v : GraphQlExecutor) : Prop := {
  rf_serves : serves false (heap v);
  rf_symbols : symbols v = table;
  rf_fields : duplicate_fields v = []
}.

Lemma ready_moved token refs v : ready_for v → ready_for (moved token refs v).
Proof. by intros []. Qed.

Lemma ready_token token v : ready_for v → ready_for (with_token token v).
Proof. by intros []. Qed.

Lemma ready_pushed r v : ready_for v → ready_for (pushed r v).
Proof. by intros []. Qed.

(** What the stack has of a type. *)
Definition points (n : ustring) (r : root) : Prop :=
  ∃ symbol, find n table = Some symbol ∧ r = Assigned (Some (declaration symbol)).

(** A spread of a fragment that is defined and applies where it is. *)
Definition reference_fits (x : Name * root) : Prop :=
  ∃ parent on, fragment_on (identifier x.1) fragments_ = Some on ∧ applies doc on parent = true ∧
    points parent x.2.

(** *** The stack *)

Section stack.
Context {B : Type} (Q : B → GraphQlExecutor → Prop).

Lemma push_step r w ls v k s :
  at_lexemes w ls v s → (∀ s', at_lexemes w ls (pushed r v) s' → reads (k tt) Q s') →
  reads (push_object_type r ≫= k) Q s.
Proof.
  intros Hat Hk. unfold push_object_type.
  eapply (modify_step _ (λ s, set_current_object_types (r :: current_object_types s) s)); [exact Hat|done..].
Qed.

Lemma top_step r rest w ls v k s :
  at_lexemes w ls v s → current_object_types v = r :: rest → reads (k r) Q s →
  reads (top_object_type ≫= k) Q s.
Proof.
  intros Hat Hv Hk. wp_step. unfold top_object_type. do 2 wp_step.
  rewrite (at_lexemes_view current_object_types _ _ _ _ Hat), Hv by done. cbn [head deref]. by wp_step.
Qed.

Lemma pop_step r rest w ls v k s :
  at_lexemes w ls v s → current_object_types v = r :: rest →
  (∀ s', at_lexemes w ls (set_current_object_types rest v) s' → reads (k tt) Q s') →
  reads (pop_object_type ≫= k) Q s.
Proof.
  intros Hat Hv Hk. wp_step. unfold pop_object_type. do 2 wp_step.
  rewrite (at_lexemes_view current_object_types _ _ _ _ Hat), Hv by done. apply wp_unbind.
  by eapply (modify_step _ (set_current_object_types rest)).
Qed.

Lemma object_at_step p d w ls v k s :
  at_lexemes w ls v s → heap v !! p = Some (NDecl d) → reads (k d) Q s →
  reads (object_type_at (Assigned (Some p)) ≫= k) Q s.
Proof.
  intros Hat Hp Hk. wp_step. unfold object_type_at. cbn [read_root]. do 2 wp_step. cbn [deref]. do 2 wp_step.
  apply wp_unbind. by eapply read_decl_at_step.
Qed.
End stack.

(** *** Selection sets *)

(** What a call with the given fuel does behind an opening brace. *)
Definition reads_set (fuel : nat) : Prop :=
  ∀ B (Q : B → GraphQlExecutor → Prop) parent r v l ls k w s,
    ready_for v → points parent r →
    (length (set_lexemes l ++ ls) < fuel)%nat → at_lexemes w (set_lexemes l ++ ls) (pushed r v) s →
    forallb selection_words l = true → forallb (selection_valid doc fragments_ parent) l = true →
    (∀ x token refs s', set_is l x → Forall reference_fits refs →
      at_lexemes None ls (moved token refs v) s' → reads (k (Some x)) Q s') →
    reads (parse_selection_set_after_open_brace fuel ≫= k) Q s.

(** What a selection does inside of a set. *)
Definition selection_read {B} (Q : B → GraphQlExecutor → Prop) (q : query_selection)
    (xs : list Selection) (ls : list lexeme) (v : GraphQlExecutor)
    (k : list Selection + option (list Selection) → M GraphQlExecutor B) : Prop :=
  ∀ x token refs s', selection_is q x → Forall reference_fits refs →
    at_lexemes None ls (moved token refs v) s' → reads (k (inl (xs ++ [x]))) Q s'.

Lemma expected_name_step {B} (Q : B → GraphQlExecutor → Prop) name ls w v k s :
  at_lexemes w (Word name :: ls) v s → lexeme_token false (Word name) = GraphQlToken.G_Name →
  (∀ n s', identifier n = name → at_lexemes None ls v s' → reads (k (Some n)) Q s') →
  reads (parse_expected_name ≫= k) Q s.
Proof.
  intros Hat Hname Hk. wp_step. unfold parse_expected_name.
  eapply expect_step; [exact Hat|exact Hname|]. intros s1 Hs1. cbn [negb].
  eapply value_step; [exact Hs1|]. apply name_step. intros n Hn. wp_step.
  by eapply Hk, at_lexemes_forget.
Qed.

Section selection.
Context (fuel : nat) (IH : reads_set fuel).
Context (ls : list lexeme) (behind : follows ls).

Lemma field_names_step {B} (Q : B → GraphQlExecutor → Prop) alias_ name rest w v k s :
  at_lexemes w (match alias_ with Some _ => [Punct Character.Colon; Word name] | None => [] end ++ rest) v s →
  match alias_ with Some _ => plain_wordb name | None => true end = true →
  next_token false rest ≠ GraphQlToken.Colon →
  ∀ key, identifier key = default name alias_ →
  (∀ names s', identifier <$> names.1 = alias_ → identifier <$> names.2 = Some name →
    at_lexemes None rest v s' → reads (k names) Q s') →
  reads (⟨scan_optional GraphQlToken.Colon⟩ ≫= λ colon : bool,
    (if colon then aliased ← parse_expected_name; mret (Some key, aliased)
     else mret (None, Some key)) ≫= k) Q s.
Proof.
  intros Hat Hwords Hnext key Hkey Hk. destruct alias_ as [a|]; cbn [app] in Hat.
  - eapply scan_optional_step; [exact Hat| |done]. intros _ s1 Hs1. cbn [tail] in Hs1.
    apply bool_decide_eq_true in Hwords as [_ Hname]. wp_step.
    eapply expected_name_step; [exact Hs1|exact Hname|]. intros n s2 Hn Hs2. wp_step.
    apply Hk; [by cbn; rewrite Hkey|by cbn; rewrite Hn|done].
  - eapply scan_optional_step; [exact Hat|done|]. intros _ s1 Hs1. do 2 wp_step.
    apply Hk; [done|by cbn; rewrite Hkey|by eapply at_lexemes_forget].
Qed.

Lemma field_call_step {B} (Q : B → GraphQlExecutor → Prop) l rest w v f fd target k s :
  at_lexemes w (call_lexemes l ++ rest) v s → ready_for v →
  next_token false rest ≠ GraphQlToken.OpenParen →
  arguments_words l = true → arguments_valid doc (def_arguments f) l = true →
  NoDup (map fst (def_arguments f)) → map_of fst (argument_is h0) (def_arguments f) (fd_arguments fd) →
  (∀ parsed token s', arguments_are l (fst <$> parsed) → at_lexemes None rest (with_token token v) s' →
    reads (k parsed) Q s') →
  reads (⟨scan_optional GraphQlToken.OpenParen⟩ ≫= λ paren : bool,
    (if paren then parse_arguments_ (fd_arguments fd) target else mret None) ≫= k) Q s.
Proof.
  intros Hat [Hserves Hsym Hfields] Hnext Hwords Hvalid Hdistinct Hmap Hk. destruct l as [|x l].
  - eapply scan_optional_step; [exact Hat|done|]. intros _ s1 Hs1. do 2 wp_step.
    eapply (Hk None (current_value_token (parser v))); [done|].
    replace (with_token _ v) with v by by destruct v as [[] ]. by eapply at_lexemes_forget.
  - cbn [call_lexemes app] in Hat. rewrite <- (assoc_L (++)) in Hat.
    eapply scan_optional_step; [exact Hat| |done]. intros _ s1 Hs1. cbn [tail] in Hs1.
    eapply (call_step doc ok h0 table (def_arguments f)); try done.
    intros args target' token s2 Hargs Hs2. by eapply Hk.
Qed.

Lemma field_set_step {B} (Q : B → GraphQlExecutor → Prop) set_ w v f p k s :
  at_lexemes w (set_part set_ ++ ls) v s → ready_for v →
  type_at h0 false (def_type f) p → (length (set_part set_ ++ ls) ≤ fuel)%nat →
  match set_ with Some l => forallb selection_words l | None => true end = true →
  match set_ with
  | Some l =>
      match ref_base (def_type f) with
      | NamedTypeOf n => is_selectable doc n && forallb (selection_valid doc fragments_ n) l
      | _ => false
      end
  | None => true
  end = true →
  (∀ sel token refs s', match set_, sel with
      | Some l, Some x => set_is l x
      | None, None => True
      | _, _ => False
      end → Forall reference_fits refs → at_lexemes None ls (moved token refs v) s' →
    reads (k (true, sel)) Q s') →
  reads (parse_field_selection_set (parse_selection_set_after_open_brace fuel) (Some p) ≫= k) Q s.
Proof.
  intros Hat Hready Hp Hlen Hwords Hvalid Hk. wp_step. unfold parse_field_selection_set.
  destruct set_ as [l|]; cbn [set_part app] in Hat, Hlen.
  - eapply scan_optional_step; [exact Hat| |done]. intros _ s1 Hs1. cbn [negb tail] in *. destruct (ref_base (def_type f)) as [| | | | |n] eqn:Hr; try done.
    apply andb_true_iff in Hvalid as [Hsel Hvalid]. pose proof (rf_serves _ Hready) as Hserves.
    destruct (sv_type _ _ _ _ _ Hserves _ _ _ Hp) as (t & Ht & Hnow & _).
    destruct (selectable_declared doc h0 table n _ t _ Hserves Hr Hnow Hsel) as (Hin & name & symbol & Hname & Hf & Hid).
    eapply read_type_at_step; [exact Hs1|exact Ht|]. rewrite Hin.
    eapply deref_step; [exact Hname|]. do 2 wp_step. rewrite (at_lexemes_view symbols _ _ _ _ Hs1) by done.
    eapply deref_step; [rewrite (rf_symbols _ Hready); exact Hf|].
    eapply push_step; [exact Hs1|]. intros s2 Hs2. eapply (IH _ _ n _ v l ls); [done| |cbn [length] in Hlen; lia|exact Hs2|done|done|].
    { exists symbol. by rewrite <- Hid. }
    intros x token refs s3 Hx Hrefs Hs3. wp_step. by eapply Hk.
  - eapply scan_optional_step; [exact Hat|intros E; by destruct (fo_brace _ behind)|].
    intros _ s1 Hs1. cbn [negb]. wp_step.
    eapply (Hk None (current_value_token (parser v)) []); [done|constructor|]. rewrite moved_none.
    by eapply at_lexemes_forget.
Qed.

(** A field behind its alias or its name. *)
Lemma query_field_step {B} (Q : B → GraphQlExecutor → Prop) parent r rest alias_ name arguments_ set_ xs v k s :
  at_lexemes (Some (default name alias_))
    (match alias_ with Some _ => [Punct Character.Colon; Word name] | None => [] end
      ++ call_lexemes arguments_ ++ set_part set_ ++ ls) v s →
  ready_for v → current_object_types v = r :: rest → points parent r →
  (length (set_part set_ ++ ls) ≤ fuel)%nat →
  selection_words (FieldOf alias_ name arguments_ set_) = true →
  selection_valid doc fragments_ parent (FieldOf alias_ name arguments_ set_) = true →
  selection_read Q (FieldOf alias_ name arguments_ set_) xs ls v k →
  reads (parse_field (parse_selection_set_after_open_brace fuel) xs ≫= k) Q s.
Proof.
  intros Hat Hready Hstack (symbol & Hparent & ->) Hlen [[Hname Hargs]%andb_true_iff Hset]%andb_true_iff Hvalid Hk.
  cbn [selection_valid] in Hvalid. destruct (field_of doc parent (default name alias_)) as [f|] eqn:Hf; [|done].
  apply andb_true_iff in Hvalid as [Hvargs Hvset].
  destruct (field_declared doc ok h0 table parent _ f _ (rf_serves _ Hready) Hf) as
    (symbol' & decl & o & m & fd & Hsym & Hl & Ho & Hm & Hfd & Hdistinct & Hmap & Ht).
  assert (symbol' = symbol) as -> by congruence. wp_step. unfold parse_field.
  eapply value_step; [exact Hat|]. eapply top_step; [exact Hat|exact Hstack|].
  eapply object_at_step; [exact Hat|exact Hl|]. eapply deref_step; [exact Ho|]. eapply deref_step; [exact Hm|].
  rewrite Hfd. unfold parse_defined_field. apply syntax_step. intros syntax _.
  apply name_step. intros key Hkey. eapply field_names_step; [exact Hat|exact Hname| |exact Hkey|].
  { apply call_next, set_part_next; [done..|apply behind]. }
  intros names s1 Halias Hid Hs1. eapply field_call_step; [exact Hs1|done| |done..|].
  { apply set_part_next; [done|apply behind]. }
  intros parsed token s2 Hparsed Hs2.
  eapply no_directives_any; [exact Hs2|apply set_part_next; [done|apply behind]|]. intros s3 Hs3.
  eapply field_set_step; [exact Hs3|by apply ready_token|exact Ht|done|exact Hset|exact Hvset|].
  intros sel token' refs s4 Hsel Hrefs Hs4. cbn [fst snd negb]. wp_step.
  eapply (Hk _ token' refs); [|exact Hrefs|exact Hs4].
  cbn [selection_is]. split_and!; [done..|]. destruct set_, sel; done.
Qed.

Lemma spread_step {B} (Q : B → GraphQlExecutor → Prop) parent r rest name xs v k s :
  at_lexemes (Some name) ls v s → current_object_types v = r :: rest → points parent r →
  selection_valid doc fragments_ parent (SpreadOf name) = true →
  selection_read Q (SpreadOf name) xs ls v k → reads (parse_fragment_spread xs ≫= k) Q s.
Proof.
  intros Hat Hstack Hparent Hvalid Hk. cbn [selection_valid] in Hvalid.
  destruct (fragment_on name fragments_) as [on|] eqn:Hon; [|done]. wp_step. unfold parse_fragment_spread.
  apply syntax_step. intros syntax _. eapply value_step; [exact Hat|]. apply name_step. intros n Hn.
  eapply top_step; [exact Hat|exact Hstack|].
  eapply (modify_step _ (λ s, set_forward_fragment_references (forward_fragment_references s ++ [(n, r)]) s));
    [exact Hat|done..|]. intros s1 Hs1.
  eapply no_directives_any; [exact Hs1|apply behind|]. intros s2 Hs2. wp_step.
  eapply (Hk _ (current_value_token (parser v)) [(n, r)]); [done| |].
  - constructor; [|constructor]. exists parent, on. cbn [fst snd]. by rewrite Hn.
  - apply at_lexemes_forget in Hs2. by destruct v as [[] ].
Qed.

(** What is on both sides of a fragment that applies. *)
Lemma applies_declared on parent h :
  serves false h → applies doc on parent = true → ∃ d d' symbol symbol' object current,
    definition_of doc on = Some d ∧ definition_of doc parent = Some d' ∧
    declared_as on d symbol object ∧ declared_as parent d' symbol' current ∧
    h !! declaration symbol = Some (NDecl object) ∧ h !! declaration symbol' = Some (NDecl current) ∧
    kind (decl_syntax object) = S_Object.
Proof.
  intros Hserves Happ. unfold applies in Happ. destruct (definition_of doc on) as [d|] eqn:Hon; [|done].
  destruct (definition_of doc parent) as [d'|] eqn:Hparent; [|by destruct d].
  destruct (sv_symbol _ _ _ _ _ Hserves on d Hon) as (symbol & object & Hd & Hl).
  destruct (sv_symbol _ _ _ _ _ Hserves parent d' Hparent) as (symbol' & current & Hd' & Hl').
  exists d, d', symbol, symbol', object, current. split_and!; try done.
  destruct Hd as (_ & _ & _ & Hkind & Hbody). rewrite Hkind. destruct d; try done. by destruct (body object).
Qed.

Lemma inline_selections_step {B} (Q : B → GraphQlExecutor → Prop) on symbol l w v k s :
  at_lexemes w (Punct Character.OpenBrace :: set_lexemes l ++ ls) v s → ready_for v →
  find on table = Some symbol → (length (set_lexemes l ++ ls) < fuel)%nat →
  forallb selection_words l = true → forallb (selection_valid doc fragments_ on) l = true →
  (∀ x token refs s', set_is l x → Forall reference_fits refs →
    at_lexemes None ls (moved token refs v) s' → reads (k ([], Some x)) Q s') →
  reads (parse_inline_selections (parse_selection_set_after_open_brace fuel) (declaration symbol) ≫= k) Q s.
Proof.
  intros Hat Hready Hon Hlen Hwords Hvalid Hk. wp_step. unfold parse_inline_selections.
  eapply push_step; [exact Hat|]. intros s1 Hs1.
  eapply no_directives_any; [exact Hs1|done|]. intros s2 Hs2. wp_step. unfold parse_selection_set_with.
  eapply expect_step; [exact Hs2|done|]. intros s3 Hs3. cbn [negb].
  apply wp_unbind. eapply (IH _ _ on _ v l ls); [done|by exists symbol|done|exact Hs3|done|done|].
  intros x token refs s4 Hx Hrefs Hs4. wp_step. by eapply Hk.
Qed.

Lemma inline_step {B} (Q : B → GraphQlExecutor → Prop) parent r rest start_ on l xs w v k s :
  at_lexemes w (Word on :: Punct Character.OpenBrace :: set_lexemes l ++ ls) v s →
  ready_for v → current_object_types v = r :: rest → points parent r →
  (length (set_lexemes l ++ ls) < fuel)%nat → selection_words (InlineOf on l) = true →
  selection_valid doc fragments_ parent (InlineOf on l) = true →
  selection_read Q (InlineOf on l) xs ls v k →
  reads (parse_inline_fragment (parse_selection_set_after_open_brace fuel) start_ xs ≫= k) Q s.
Proof.
  intros Hat Hready Hstack (symbol0 & Hparent & ->) Hlen [Hname Hwords]%andb_true_iff Hvalid Hk.
  apply bool_decide_eq_true in Hname as [_ Hname]. cbn [selection_valid] in Hvalid.
  apply andb_true_iff in Hvalid as [Happ Hvalid].
  destruct (applies_declared on parent _ (rf_serves _ Hready) Happ) as
    (d & d' & symbol & symbol' & object & current & Hd & Hd' & Hon & Hcurrent & Hl & Hl' & Hkind).
  assert (symbol' = symbol0) as -> by (destruct Hcurrent; congruence). wp_step. unfold parse_inline_fragment.
  eapply expect_step; [exact Hat|exact Hname|]. intros s1 Hs1. cbn [negb lexeme_text] in *.
  eapply value_step; [exact Hs1|]. apply name_step. intros n _. do 2 wp_step.
  rewrite (at_lexemes_view symbols _ _ _ _ Hs1), (rf_symbols _ Hready), (proj1 Hon) by done.
  apply syntax_step. intros syntax _. eapply read_decl_at_step; [exact Hs1|exact Hl|].
  rewrite decide_False by (intros Hne; by apply Hne). eapply top_step; [exact Hs1|exact Hstack|].
  eapply object_at_step; [exact Hs1|exact Hl'|]. eapply (assignment_step doc h0 table _ on parent); [done..|].
  eapply inline_selections_step; [exact Hs1|done|apply Hon|done..|].
  intros x token refs s2 Hx Hrefs Hs2. apply finish_step. intros syntax' _. wp_step. cbn [fst snd].
  eapply (Hk _ token refs); [|done..]. destruct x. by split.
Qed.
End selection.

(** *** The loop over selections *)

Section set.
Context (fuel : nat) (IH : reads_set fuel).
Context (parent : ustring) (r : root) (parent_ : points parent r) (v : GraphQlExecutor) (ready_ : ready_for v).
Context (l : list query_selection) (ls : list lexeme).
Context (words : forallb selection_words l = true).
Context (valid_ : forallb (selection_valid doc fragments_ parent) l = true).

Definition selections_read (xs : list Selection) (ls' : list lexeme) (v' : GraphQlExecutor) : Prop :=
  ∃ done_ todo token refs, l = done_ ++ todo ∧
    ls' = flat_map selection_lexemes todo ++ Punct Character.CloseBrace :: ls ∧
    v' = moved token refs (pushed r v) ∧ Forall reference_fits refs ∧ all2 selection_is done_ xs.

Lemma selection_kept (Q : option (list Selection) → GraphQlExecutor → Prop) done_ q todo xs token refs :
  l = done_ ++ q :: todo → Forall reference_fits refs → all2 selection_is done_ xs →
  let rest := flat_map selection_lexemes todo ++ Punct Character.CloseBrace :: ls in
  (length (selection_lexemes q ++ rest) ≤ fuel)%nat →
  selection_read (λ x s', match x with
      | inl xs' => ∃ ls' v', at_lexemes None ls' v' s' ∧
          (selections_read xs' ls' v' ∧ (length ls' ≤ fuel)%nat) ∧
          (length ls' < length (selection_lexemes q ++ rest))%nat
      | inr b => Q b s'
      end) q xs rest (moved token refs (pushed r v)) mret.
Proof.
  intros Hl Hrefs Hdone rest Hlen x token' refs' s' Hx Hrefs' Hs'. wp_step.
  assert (Hless : (length rest < length (selection_lexemes q ++ rest))%nat)
    by (rewrite length_app; destruct q as [[a|] ? ? ?|?|? ?]; cbn; lia).
  eexists _, _. split; [exact Hs'|]. split; [|exact Hless]. split; [|lia].
  exists (done_ ++ [q]), todo, token', (refs ++ refs'). split_and!; [by rewrite <- (assoc_L (++))|done| |..].
  - apply moved_moved.
  - by apply list.Forall_app.
  - by apply all2_snoc.
Qed.

Lemma selections_step {B} (Q : B → GraphQlExecutor → Prop) w k s :
  (length (set_lexemes l ++ ls) ≤ fuel)%nat → at_lexemes w (set_lexemes l ++ ls) (pushed r v) s →
  (∀ xs token refs s', all2 selection_is l xs → Forall reference_fits refs →
    at_lexemes None ls (moved token refs v) s' → reads (k (Some xs)) Q s') →
  reads (parse_selections (parse_selection_set_after_open_brace fuel) ≫= k) Q s.
Proof.
  intros Hlen Hat Hk. unfold set_lexemes in Hat, Hlen. rewrite <- (assoc_L (++)) in Hat, Hlen. cbn [app] in Hat, Hlen.
  unfold parse_selections.
  eapply (executor_loop_step (λ xs ls' v', selections_read xs ls' v' ∧ (length ls' ≤ fuel)%nat)); [exact Hat|..].
  { split; [|exact Hlen]. exists [], l, (current_value_token (parser v)), [].
    split_and!; [done..| |constructor|done]. symmetry. exact (moved_none (pushed r v)). }
  clear dependent s w. intros xs ? ? s Hat [(done_ & todo & token & refs & Hl & -> & -> & Hrefs & Hdone) Hlen'].
  do 2 wp_step. destruct todo as [|q todo].
  - eapply take_lexeme_step; [exact Hat|]. intros s1 Hs1. cbn [lexeme_token]. cbv iota.
    change (from_option id GraphQlToken.Unknown (punctuation Character.CloseBrace)) with GraphQlToken.CloseBrace.
    cbv iota. eapply (pop_step _ r (current_object_types v)); [exact Hs1|done|]. intros s2 Hs2. wp_step.
    rewrite app_nil_r in Hl. subst done_. eapply (Hk xs token refs); [done..|].
    apply at_lexemes_forget in Hs2. by destruct v.
  - pose proof words as Hwords. pose proof valid_ as Hvalid. cbn [flat_map] in Hat, Hlen' |- *.
    rewrite <- (assoc_L (++)) in Hat, Hlen' |- *.
    rewrite Hl, forallb_app in Hwords, Hvalid. apply andb_true_iff in Hwords as [_ [Hw _]%andb_true_iff].
    apply andb_true_iff in Hvalid as [_ [Hq _]%andb_true_iff].
    assert (Hready : ready_for (moved token refs (pushed r v))) by by apply ready_moved, ready_pushed.
    pose proof (selection_follows todo ls) as Hfollows.
    pose proof (selection_kept (λ b s', reads (k b) Q s') done_ q todo xs token refs Hl Hrefs Hdone Hlen') as Hkept.
    destruct q as [alias_ name arguments_ set_|name|on set_].
    + rewrite field_lexemes_next in Hat.
      eapply take_lexeme_step; [exact Hat|]. intros s1 Hs1. cbn [lexeme_token]. cbv iota.
      eapply wp_eq; [apply run_bind_ret|].
      eapply (query_field_step fuel IH _ Hfollows _ parent r (current_object_types v)); [exact Hs1|done..| |done|done|exact Hkept].
      rewrite field_lexemes_next in Hlen'. cbn [length] in Hlen'. repeat rewrite length_app in Hlen'. rewrite !length_app. lia.
    + cbn [selection_lexemes app] in Hat. eapply take_lexeme_step; [exact Hat|]. intros s1 Hs1.
      cbn [lexeme_token]. cbv iota. unfold parse_ellipses.
      apply bool_decide_eq_true in Hw as [_ Hname].
      eapply take_lexeme_step; [exact Hs1|]. intros s2 Hs2. rewrite Hname. cbv iota.
      eapply wp_eq; [apply run_bind_ret|].
      by eapply (spread_step _ Hfollows _ parent r (current_object_types v)).
    + cbn [selection_lexemes app] in Hat, Hlen'. eapply take_lexeme_step; [exact Hat|]. intros s1 Hs1.
      cbn [lexeme_token]. cbv iota. unfold parse_ellipses.
      eapply take_lexeme_step; [exact Hs1|]. intros s2 Hs2.
      change (lexeme_token false (Word (u "on"))) with GraphQlToken.OnKeyword. cbv iota.
      eapply wp_eq; [apply run_bind_ret|].
      eapply (inline_step fuel IH _ _ parent r (current_object_types v)); try done.
      cbn [length] in Hlen'. unfold set_lexemes. lia.
Qed.
End set.

Lemma sets_read fuel : reads_set fuel.
Proof.
  induction fuel as [|fuel IH]; intros B Q parent r v l ls k w s Hready Hparent Hlen Hat Hwords Hvalid Hk; [lia|].
  cbn [parse_selection_set_after_open_brace]. wp_step. apply syntax_step. intros syntax _.
  eapply (selections_step fuel IH parent r Hparent v Hready l ls Hwords Hvalid); [lia|exact Hat|].
  intros xs token refs s1 Hxs Hrefs Hs1. apply finish_step. intros syntax' _. wp_step. by eapply Hk.
Qed.

Lemma set_step {B} (Q : B → GraphQlExecutor → Prop) parent r v l ls k w s :
  ready_for v → points parent r → at_lexemes w (set_lexemes l ++ ls) (pushed r v) s →
  forallb selection_words l = true → forallb (selection_valid doc fragments_ parent) l = true →
  (∀ x token refs s', set_is l x → Forall reference_fits refs →
    at_lexemes None ls (moved token refs v) s' → reads (k (Some x)) Q s') →
  reads (parse_selection_set_after_open_brace_ ≫= k) Q s.
Proof.
  intros Hready Hparent Hat Hwords Hvalid Hk. wp_step. unfold parse_selection_set_after_open_brace_.
  do 2 wp_step. apply wp_unbind. eapply (sets_read (executor_fuel s)); [done..| |done|done|done|done].
  exact (reading_fuel _ _ (al_reading _ _ _ _ Hat)).
Qed.

Lemma braced_set_step {B} (Q : B → GraphQlExecutor → Prop) parent r v l ls k w s :
  ready_for v → points parent r →
  at_lexemes w (Punct Character.OpenBrace :: set_lexemes l ++ ls) (pushed r v) s →
  forallb selection_words l = true → forallb (selection_valid doc fragments_ parent) l = true →
  (∀ x token refs s', set_is l x → Forall reference_fits refs →
    at_lexemes None ls (moved token refs v) s' → reads (k (Some x)) Q s') →
  reads (parse_selection_set ≫= k) Q s.
Proof.
  intros Hready Hparent Hat Hwords Hvalid Hk. wp_step. unfold parse_selection_set, parse_selection_set_with.
  eapply expect_step; [exact Hat|done|]. intros s1 Hs1. cbn [negb]. apply wp_unbind.
  by eapply set_step.
Qed.

(** ** Operations *)

Definition executor_root (o : OperationType) (v : GraphQlExecutor) : root :=
  match o with
  | Query => query v
  | Mutation => mutation v
  | Subscription => subscription v
  end.

(** The roots the executor took from the schema. *)
Definition roots_for (v : GraphQlExecutor) : Prop :=
  ∀ o, let n := document_root doc (operation_root o) in
    is_selectable doc n = true → points n (executor_root o v).

Lemma optional_name_step {B} (Q : B → GraphQlExecutor → Prop) name ls w v k s :
  at_lexemes w (match name with Some n => [Word n] | None => [] end ++ Punct Character.OpenBrace :: ls) v s →
  (∀ n, name = Some n → ∀ s', at_lexemes (Some n) (Punct Character.OpenBrace :: ls) v s' →
    reads (k true) Q s') →
  (name = None → ∀ s', at_lexemes None (Punct Character.OpenBrace :: ls) v s' → reads (k false) Q s') →
  reads (⟨scan_optional_name GraphQlToken.G_Name true⟩ ≫= k) Q s.
Proof.
  intros Hat Hyes Hno. do 2 wp_step. unfold scan_optional_name. do 2 wp_step.
  eapply wp_mono; [apply (try_scan_reading true GraphQlToken.G_Name), Hat| |done].
  intros r sc (-> & Hr). wp_step. destruct name as [n|]; cbn in Hr.
  - eapply (Hyes n eq_refl), at_lexemes_taken; [exact Hat|apply Hr|]. intros x [= <-]. by apply Hr.
  - apply (Hno eq_refl). eapply at_lexemes_taken; [exact Hat|apply Hr|done].
Qed.

Lemma operation_name_step {B} (Q : B → GraphQlExecutor → Prop) name ls w v k s :
  at_lexemes w (match name with Some n => [Word n] | None => [] end ++ Punct Character.OpenBrace :: ls) v s →
  (∀ n s', identifier <$> n = name → at_lexemes None (Punct Character.OpenBrace :: ls) v s' →
    reads (k (n, None)) Q s') →
  reads (parse_operation_name ≫= k) Q s.
Proof.
  intros Hat Hk. wp_step. unfold parse_operation_name. eapply optional_name_step; [exact Hat|..].
  - intros n -> s1 Hs1. cbn [negb]. eapply value_step; [exact Hs1|]. apply name_step. intros x Hx.
    eapply scan_optional_step; [exact Hs1|done|]. intros _ s2 Hs2. cbn [negb]. wp_step.
    apply Hk; [by cbn; rewrite Hx|by eapply at_lexemes_forget].
  - intros -> s1 Hs1. cbn [negb]. wp_step. by apply Hk.
Qed.

(** An operation behind its keyword. *)
Lemma operation_step {B} (Q : B → GraphQlExecutor → Prop) o name l ls w v r k s :
  at_lexemes w (match name with Some n => [Word n] | None => [] end
    ++ Punct Character.OpenBrace :: set_lexemes l ++ ls) (pushed r v) s →
  ready_for v → points (document_root doc (operation_root o)) r →
  forallb selection_words l = true →
  forallb (selection_valid doc fragments_ (document_root doc (operation_root o))) l = true →
  (∀ x token refs s', operation_is (OperationOf o name l) x → Forall reference_fits refs →
    at_lexemes None ls (moved token refs v) s' → reads (k (Some (OperationPart x))) Q s') →
  reads (parse_operation_definition o ≫= k) Q s.
Proof.
  intros Hat Hready Hpoints Hwords Hvalid Hk. wp_step. unfold parse_operation_definition.
  apply syntax_step. intros syntax _. eapply operation_name_step; [exact Hat|]. intros n s1 Hn Hs1.
  eapply no_directives_any; [exact Hs1|done|]. intros s2 Hs2. unfold parse_operation_definition_body.
  eapply braced_set_step; [exact Hready|exact Hpoints|exact Hs2|exact Hwords|exact Hvalid|].
  intros x token refs s3 Hx Hrefs Hs3. wp_step. by eapply Hk.
Qed.

(** *** Fragments *)

(** The executor between definitions: [F] are the fragments it has met. *)
Section between.
Context (v0 : GraphQlExecutor) (ready_ : ready_for v0) (roots_ : roots_for v0).

Definition reached (token : GraphQlToken.t) (refs : list (Name * root))
    (F : std_map ustring FragmentDefinition) : GraphQlExecutor :=
  set_fragments F (moved token refs v0).

Lemma ready_reached token refs F : ready_for (reached token refs F).
Proof. by destruct ready_. Qed.

Lemma reached_moved token refs F token' refs' :
  moved token' refs' (reached token refs F) = reached token' (refs ++ refs') F.
Proof. unfold reached, moved. cbn. by rewrite <- (assoc_L (++)). Qed.

Lemma register_fragment_step {B} (Q : B → GraphQlExecutor → Prop) x token refs F ls w k s :
  at_lexemes w ls (reached token refs F) s → find (identifier (fragment_name x)) F = None →
  (∀ s', at_lexemes w ls (reached token refs (emplace (identifier (fragment_name x)) x F)) s' →
    reads (k tt) Q s') →
  reads (register_fragment x ≫= k) Q s.
Proof.
  intros Hat Hnew Hk. wp_step. unfold register_fragment. cbv zeta. do 2 wp_step.
  rewrite (at_lexemes_view fragments _ _ _ _ Hat) by done. cbn [reached set_fragments fragments]. rewrite Hnew.
  apply wp_unbind.
  eapply (modify_step _ (λ s, set_fragments (emplace (identifier (fragment_name x)) x (fragments s)) s));
    [exact Hat|done..].
Qed.

Lemma fragment_selections_step {B} (Q : B → GraphQlExecutor → Prop) fragment on symbol l v ls w k s :
  at_lexemes w (Punct Character.OpenBrace :: set_lexemes l ++ ls) v s → ready_for v →
  find on table = Some symbol → forallb selection_words l = true →
  forallb (selection_valid doc fragments_ on) l = true →
  (∀ x type_ token refs s', set_is l x → identifier type_ = on → Forall reference_fits refs →
    at_lexemes None ls (moved token refs v) s' →
    reads (k (Some (FragmentPart (mkFragmentDefinition (fragment_syntax fragment)
      (fragment_name fragment) (Some type_) [] (Some x))))) Q s') →
  reads (parse_fragment_selections fragment on (declaration symbol) ≫= k) Q s.
Proof.
  intros Hat Hready Hon Hwords Hvalid Hk. wp_step. unfold parse_fragment_selections.
  eapply push_step; [exact Hat|]. intros s1 Hs1. apply name_step. intros type_ Htype.
  eapply no_directives_any; [exact Hs1|done|]. intros s2 Hs2.
  eapply (braced_set_step _ on); [exact Hready|by exists symbol|exact Hs2|exact Hwords|exact Hvalid|].
  intros x token refs s3 Hx Hrefs Hs3. wp_step. by eapply Hk.
Qed.

(** A fragment behind its keyword. *)
Lemma fragment_step {B} (Q : B → GraphQlExecutor → Prop) name on l token refs F ls w k s :
  at_lexemes w (Word name :: Word (u "on") :: Word on
    :: Punct Character.OpenBrace :: set_lexemes l ++ ls) (reached token refs F) s →
  query_definition_words (FragmentOf name on l) = true →
  query_definition_valid doc fragments_ (FragmentOf name on l) = true → find name F = None →
  (∀ x y token' refs' s', fragment_is (FragmentOf name on l) x → Forall reference_fits refs' →
    at_lexemes None ls (reached token' (refs ++ refs') (emplace name y F)) s' →
    reads (k (Some (FragmentPart x))) Q s') →
  reads (parse_fragment_definition_after_fragment_keyword ≫= k) Q s.
Proof.
  intros Hat [[[_ Hname]%bool_decide_eq_true [_ Hon]%bool_decide_eq_true]%andb_true_iff Hwords]%andb_true_iff
    [Happ Hvalid]%andb_true_iff Hnew Hk.
  destruct (applies_declared on on _ (rf_serves _ ready_) Happ) as
    (d & _ & symbol & _ & object & _ & _ & _ & (Hfind & _) & _ & Hl & _ & Hkind).
  wp_step. unfold parse_fragment_definition_after_fragment_keyword.
  apply syntax_step. intros syntax _. eapply expect_step; [exact Hat|exact Hname|]. intros s1 Hs1. cbn [negb].
  eapply value_step; [exact Hs1|]. apply name_step. intros n Hn. cbv zeta.
  eapply register_fragment_step; [exact Hs1|cbn [fragment_name]; by rewrite Hn|]. cbn [fragment_name].
  rewrite Hn. intros s2 Hs2. cbn [lexeme_text] in Hs2.
  eapply expect_step; [exact Hs2|done|]. intros s3 Hs3. cbn [negb]. unfold parse_fragment_type.
  eapply expect_step; [exact Hs3|exact Hon|]. intros s4 Hs4. cbn [negb].
  eapply value_step; [exact Hs4|]. do 2 wp_step.
  rewrite (at_lexemes_view symbols _ _ _ _ Hs4) by done. cbn [lexeme_text].
  change (symbols (reached _ _ _)) with (symbols v0). rewrite (rf_symbols _ ready_), Hfind.
  eapply read_decl_at_step; [exact Hs4|exact Hl|]. apply silent_step; [by rewrite Hkind|].
  eapply wp_eq; [apply run_bind_ret|].
  eapply fragment_selections_step; [exact Hs4|apply ready_reached|exact Hfind|exact Hwords|exact Hvalid|].
  intros x type_ token' refs' s5 Hx Htype Hrefs Hs5. wp_step. rewrite reached_moved in Hs5.
  eapply Hk; [|exact Hrefs|exact Hs5]. split; [done|]. cbn. by rewrite Htype.
Qed.

(** *** Any definition *)

Definition part_is (d : query_definition) (x : ExecutablePart) : Prop :=
  match x with
  | OperationPart x => is_fragment d = false ∧ operation_is d x
  | FragmentPart x => is_fragment d = true ∧ fragment_is d x
  end.

Definition name_of (d : query_definition) : option ustring :=
  match d with FragmentOf name _ _ => Some name | _ => None end.

(** The fragments behind a definition are those in front of it and its own. *)
Definition adds (d : query_definition) (F F' : std_map ustring FragmentDefinition) : Prop :=
  ∀ n, find n F' ≠ None → find n F ≠ None ∨ name_of d = Some n.

Definition definition_read {B} (Q : B → GraphQlExecutor → Prop) (d : query_definition)
    (refs : list (Name * root)) (F : std_map ustring FragmentDefinition) (ls : list lexeme)
    (k : option ExecutablePart → M GraphQlExecutor B) : Prop :=
  ∀ x token refs' F' s', part_is d x → Forall reference_fits refs' → adds d F F' →
    at_lexemes None ls (reached token (refs ++ refs') F') s' → reads (k (Some x)) Q s'.

Lemma adds_none d F : adds d F F.
Proof. by left. Qed.

(** An operation, in front of which its root is pushed. *)
Lemma rooted_step {B} (Q : B → GraphQlExecutor → Prop) o name l token refs F ls w k s :
  at_lexemes w (match name with Some n => [Word n] | None => [] end
    ++ Punct Character.OpenBrace :: set_lexemes l ++ ls) (reached token refs F) s →
  query_definition_words (OperationOf o name l) = true →
  query_definition_valid doc fragments_ (OperationOf o name l) = true →
  definition_read Q (OperationOf o name l) refs F ls k →
  reads (push_object_type (executor_root o v0);; parse_operation_definition o)
    (λ a s', reads (k a) Q s') s.
Proof.
  intros Hat Hwords [Hsel Hvalid]%andb_true_iff Hk.
  eapply push_step; [exact Hat|]. intros s1 Hs1. apply wp_unbind.
  eapply operation_step; [exact Hs1|apply ready_reached|by apply roots_|exact Hwords|exact Hvalid|].
  intros x token' refs' s2 Hx Hrefs Hs2. rewrite reached_moved in Hs2.
  eapply (Hk (OperationPart x)); [by split|exact Hrefs|apply adds_none|exact Hs2].
Qed.

(** The query of a document without a keyword. *)
Lemma shorthand_step {B} (Q : B → GraphQlExecutor → Prop) l token refs F ls w k s :
  at_lexemes w (set_lexemes l ++ ls) (reached token refs F) s →
  query_definition_words (ShorthandOf l) = true →
  query_definition_valid doc fragments_ (ShorthandOf l) = true →
  definition_read Q (ShorthandOf l) refs F ls k →
  reads (parse_primary_token GraphQlToken.OpenBrace ≫= k) Q s.
Proof.
  intros Hat Hwords [Hsel Hvalid]%andb_true_iff Hk. wp_step. unfold parse_primary_token. do 2 wp_step.
  rewrite (at_lexemes_view query _ _ _ _ Hat) by done.
  eapply push_step; [exact Hat|]. intros s1 Hs1. apply syntax_step. intros syntax _.
  unfold parse_operation_definition_body.
  eapply set_step; [apply (ready_reached token refs F)|by apply (roots_ Query)|exact Hs1|exact Hwords|exact Hvalid|].
  intros x token' refs' s2 Hx Hrefs Hs2. rewrite reached_moved in Hs2. wp_step.
  eapply (Hk (OperationPart _)); [|exact Hrefs|apply adds_none|exact Hs2]. by split.
Qed.

Lemma root_assigned o :
  is_selectable doc (document_root doc (operation_root o)) = true →
  ∃ p, executor_root o v0 = Assigned (Some p).
Proof. intros H. destruct (roots_ o H) as (symbol & _ & ->). eauto. Qed.

Lemma optional_operation_step not_supported o p Q s :
  executor_root o v0 = Assigned (Some p) →
  reads (push_object_type (executor_root o v0);; parse_operation_definition o) Q s →
  reads (parse_optional_operation (executor_root o v0) not_supported o) Q s.
Proof. intros E H. unfold parse_optional_operation. rewrite E in H |- *. cbn [read_root]. by do 2 wp_step. Qed.

Lemma query_definition_step {B} (Q : B → GraphQlExecutor → Prop) d token refs F ls w k s :
  at_lexemes w (tail (query_definition_lexemes d) ++ ls) (reached token refs F) s →
  query_definition_words d = true → query_definition_valid doc fragments_ d = true →
  (∀ n, name_of d = Some n → find n F = None) → definition_read Q d refs F ls k →
  reads (parse_primary_token (next_token false (query_definition_lexemes d)) ≫= k) Q s.
Proof.
  intros Hat Hwords Hvalid Hnew Hk. destruct d as [o name l|l|name on l].
  - cbn [query_definition_lexemes tail] in Hat. rewrite <- (assoc_L (++)) in Hat. cbn [app] in Hat.
    wp_step. unfold parse_primary_token. do 2 wp_step.
    destruct (root_assigned o) as [p Hp]; [by apply andb_true_iff in Hvalid as [? _]|].
    pose proof (rooted_step Q o name l token refs F ls w k s Hat Hwords Hvalid Hk) as Hstep.
    destruct o;
      [change (next_token false _) with GraphQlToken.QueryKeyword
      |change (next_token false _) with GraphQlToken.MutationKeyword
      |change (next_token false _) with GraphQlToken.SubscriptionKeyword]; cbv iota.
    + by rewrite (at_lexemes_view query _ _ _ _ Hat).
    + rewrite (at_lexemes_view mutation _ _ _ _ Hat) by done. by apply (optional_operation_step _ Mutation p).
    + rewrite (at_lexemes_view subscription _ _ _ _ Hat) by done. by apply (optional_operation_step _ Subscription p).
  - change (next_token false _) with GraphQlToken.OpenBrace. eapply shorthand_step; [exact Hat|exact Hwords|exact Hvalid|exact Hk].
  - cbn [query_definition_lexemes tail app] in Hat.
    change (next_token false _) with GraphQlToken.FragmentKeyword. wp_step. unfold parse_primary_token. do 2 wp_step.
    apply wp_unbind. eapply fragment_step; [exact Hat|exact Hwords|exact Hvalid|by apply Hnew|].
    intros x y token' refs' s1 Hx Hrefs Hs1.
    eapply (Hk (FragmentPart x)); [by split|exact Hrefs| |exact Hs1].
    intros n. rewrite find_emplace. case_decide; [subst; by right|by left].
Qed.
End between.
End executed.

(** ** Queries *)

Lemma query_fragments_app q q' : query_fragments (q ++ q') = query_fragments q ++ query_fragments q'.
Proof. unfold query_fragments. by rewrite omap_app. Qed.

(** A spread finds the fragment the query has of its name. *)
Lemma named_in_result q fs name on :
  Forall2 fragment_is (base.filter (λ d, is_fragment d = true) q) fs →
  fragment_on (identifier name) (query_fragments q) = Some on →
  ∃ x type_, named_fragment name fs = Some x ∧ fragment_type x = Some type_ ∧ identifier type_ = on.
Proof.
  revert fs. induction q as [|d q IH]; intros fs Hfs Hon; [done|]. unfold query_fragments in *.
  rewrite filter_cons in Hfs. destruct d as [o n l|l|n on' l]; [by apply IH..|].
  rewrite decide_True in Hfs by done. inversion Hfs as [|? x ? fs' Hx Hfs']; subst.
  destruct Hx as [_ Hx]. destruct (fragment_selection_set x); [|done]. destruct Hx as (Hname & Htype & _).
  unfold fragment_on, named_fragment in *. cbn [omap list_omap List.find fst] in *. rewrite Hname.
  destruct (decide (n = identifier name)) as [E|E].
  2: { rewrite bool_decide_false in Hon |- * by congruence. by apply IH. }
  rewrite bool_decide_true in Hon |- * by done.
  injection Hon as <-. destruct (fragment_type x) as [type_|] eqn:Ht; [|done]. injection Htype as Htype. eauto.
Qed.

Section queried.
Context (doc : list definition) (ok : document_ok doc) (h0 : list Node) (table : std_map ustring Symbol).
Context (q : list query_definition) (words : query_ok q = true) (valid_ : query_valid doc q = true).
Context (v0 : GraphQlExecutor) (ready_ : ready_for doc h0 table v0) (roots_ : roots_for doc table v0).

Abbreviation fits := (reference_fits doc table (query_fragments q)).

Definition met (done_ : list query_definition) (F : std_map ustring FragmentDefinition) : Prop :=
  ∀ n, find n F ≠ None → n ∈ map fst (query_fragments done_).

Definition query_read (e : executing) (ls : list lexeme) (v : GraphQlExecutor) : Prop :=
  ∃ done_ todo token refs F, q = done_ ++ todo ∧ e.1.1 = next_token false (query_lexemes todo) ∧
    ls = tail (query_lexemes todo) ∧ v = reached v0 token refs F ∧ Forall fits refs ∧
    query_is done_ e.1.2 e.2 ∧ met done_ F.

Lemma query_next d todo :
  next_token false (query_lexemes (d :: todo)) = next_token false (query_definition_lexemes d) ∧
  tail (query_lexemes (d :: todo)) = tail (query_definition_lexemes d) ++ query_lexemes todo ∧
  (0 < length (tail (query_definition_lexemes d)))%nat.
Proof.
  unfold query_lexemes. cbn [flat_map].
  destruct d as [o [n|] l|l|n on l]; cbn [query_definition_lexemes app tail length next_token];
    (split; [done|]); (split; [done|]); unfold set_lexemes; rewrite ?length_app; simpl; lia.
Qed.

Lemma query_is_snoc done_ d ops fs x :
  query_is done_ ops fs → part_is d x →
  let e := match x with FragmentPart f => (ops, fs ++ [f]) | OperationPart o => (ops ++ [o], fs) end in
  query_is (done_ ++ [d]) e.1 e.2.
Proof.
  intros [Ho Hf] Hx. unfold query_is. rewrite !list.filter_app, !filter_cons, !filter_nil.
  destruct x as [x|x]; destruct Hx as [Hkind Hx]; cbv zeta; cbn [fst snd]; rewrite Hkind.
  - rewrite decide_True, decide_False, app_nil_r by done. split; [|done].
    apply Forall2_app; [done|by constructor].
  - rewrite decide_False, decide_True, app_nil_r by done. split; [done|].
    apply Forall2_app; [done|by constructor].
Qed.

(** The names of the fragments of a query are distinct. *)
Lemma next_unmet done_ d todo n F :
  q = done_ ++ d :: todo → name_of d = Some n →
  met done_ F → find n F = None.
Proof.
  intros Hq Hd HF. destruct (find n F) as [x|] eqn:E; [|done]. exfalso.
  assert (Hin : n ∈ map fst (query_fragments done_)) by (apply HF; by rewrite E).
  pose proof valid_ as [_ Hdistinct%bool_decide_eq_true]%andb_true_iff.
  rewrite Hq, query_fragments_app, map_app in Hdistinct. apply list.NoDup_app in Hdistinct as (_ & Hno & _).
  apply (Hno n Hin). destruct d as [| |n' on l]; try done. injection Hd as ->. left.
Qed.

Lemma met_next done_ d F F' :
  met done_ F → adds d F F' → met (done_ ++ [d]) F'.
Proof.
  intros HF Hadds n Hn. rewrite query_fragments_app, map_app, elem_of_app.
  destruct (Hadds n Hn) as [?|Hd]; [left; by apply HF|right].
  destruct d as [| |n' on l]; try done. injection Hd as ->. left.
Qed.

Lemma query_step d todo done_ token ops fs refs F s :
  q = done_ ++ d :: todo → Forall fits refs → query_is done_ ops fs →
  met done_ F →
  at_lexemes None (tail (query_lexemes (d :: todo))) (reached v0 token refs F) s →
  reads (execute_body (next_token false (query_lexemes (d :: todo)), ops, fs)) (λ r s', ∃ e v',
    r = inl e ∧ at_lexemes None (tail (query_lexemes todo)) v' s' ∧
    query_read e (tail (query_lexemes todo)) v') s.
Proof.
  intros Hq Hrefs His HF Hat. unfold execute_body. destruct (query_next d todo) as (Htoken & Htail & _).
  rewrite Htail in Hat. rewrite Htoken. rewrite decide_False.
  2: { by destruct d as [[]| |]. }
  pose proof words as Hwords. unfold query_ok in Hwords.
  pose proof valid_ as [Hvalid _]%andb_true_iff. rewrite Hq, forallb_app in Hwords, Hvalid.
  apply andb_true_iff in Hwords as [_ [Hwords _]%andb_true_iff].
  apply andb_true_iff in Hvalid as [_ [Hvalid _]%andb_true_iff]. rewrite <- Hq in Hvalid.
  eapply (query_definition_step doc ok h0 table _ v0 ready_ roots_ _ d); [exact Hat|exact Hwords|exact Hvalid| |].
  { intros n Hn. by eapply next_unmet. }
  intros x token' refs' F' s1 Hx Hrefs' Hadds Hs1.
  eapply take_any_step; [exact Hs1|]. intros s2 Hs2. wp_step.
  eexists _, _. split; [done|]. split; [exact Hs2|].
  exists (done_ ++ [d]), todo, token', (refs ++ refs'), F'.
  pose proof (query_is_snoc _ _ _ _ _ His Hx) as Hsnoc.
  rewrite <- (assoc_L (++)). split_and!; [done|by destruct x|done|done|by apply list.Forall_app| |by eapply met_next].
  by destruct x.
Qed.

Lemma checked_references {B} (Q : B → GraphQlExecutor → Prop) ops fs token refs F ls w k s :
  query_is q ops fs → Forall fits refs → forward_fragment_references v0 = [] →
  at_lexemes w ls (reached v0 token refs F) s → reads (k tt) Q s →
  reads (check_forward_fragment_references fs ≫= k) Q s.
Proof.
  intros [_ Hfs] Hrefs Hnone Hat Hk. wp_step. unfold check_forward_fragment_references. do 2 wp_step.
  rewrite (at_lexemes_view forward_fragment_references _ _ _ _ Hat) by done.
  cbn [reached moved set_fragments set_forward_fragment_references forward_fragment_references]. rewrite Hnone.
  apply wp_unbind. apply still_for_each; [|exact Hk].
  intros [name r] Hin. apply (Forall_elem _ _ _ Hrefs) in Hin as (parent & on & Hon & Happ & symbol' & Hparent & Hr).
  cbn [fst snd] in Hon, Hr. subst r.
  destruct (named_in_result _ _ _ _ Hfs Hon) as (x & type_ & -> & Htype & Hid).
  destruct (applies_declared doc h0 table on parent _ (rf_serves _ _ _ _ ready_) Happ) as
    (d & d' & symbol & symbol'' & object & current & Hd & Hd' & Hdon & Hdcurrent & Hl & Hl' & _).
  assert (symbol'' = symbol') as -> by (destruct Hdcurrent; congruence).
  do 2 wp_step. eapply deref_step; [exact Htype|].
  rewrite (at_lexemes_view symbols _ _ _ _ Hat) by done.
  change (symbols (reached _ _ _ _)) with (symbols v0). rewrite (rf_symbols _ _ _ _ ready_), Hid.
  eapply deref_step; [exact (proj1 Hdon)|]. eapply read_decl_at_step; [exact Hat|exact Hl|].
  eapply object_at_step; [exact Hat|exact Hl'|].
  eapply wp_eq; [apply run_bind_ret|]. eapply (assignment_step doc h0 table _ on parent); [done..|]. by wp_step.
Qed.

Lemma reached_start :
  forward_fragment_references v0 = [] → fragments v0 = [] →
  reached v0 (current_value_token (parser v0)) [] [] = v0.
Proof. intros H1 H2. unfold reached. rewrite moved_none, <- H2. by destruct v0. Qed.

Lemma query_executed text s :
  rendering (query_lexemes q) text → view s = v0 → forward_fragment_references v0 = [] → fragments v0 = [] →
  reads (Execute text) (λ x _, query_is q (operation_definitions x) (fragment_definitions x) ∧
    executable_diagnostics x = diagnostics (parser v0)) s.
Proof.
  intros Hr Hview Hnone Hmet. unfold Execute. do 3 wp_step. set (s0 := put_sub _ s).
  assert (Hat : at_lexemes None (query_lexemes q) v0 s0).
  { split; [rewrite <- Hview; apply (view_put_scanner (T := GraphQlExecutor))| |done].
    exists text. split; [done|]. split; [split; simpl; lia|done|done]. }
  clearbody s0. clear dependent s. do 2 wp_step.
  pose proof (reading_fuel _ _ (al_reading _ _ _ _ Hat)) as Hfuel.
  change (scan_fuel (scanner (sub s0))) with (executor_fuel s0) in Hfuel.
  eapply take_any_step; [exact Hat|]. intros s1 Hs1. apply syntax_step. intros syntax _.
  eapply (loop_step query_read); [|exact Hs1| |].
  { destruct (query_lexemes q); cbn [tail length] in Hfuel |- *; lia. }
  { exists [], q, (current_value_token (parser v0)), [], [].
    split_and!; [done..|by rewrite reached_start|constructor|by split; constructor|by intros n ?]. }
  clear dependent s1. intros [[token ops] fs] ? ? s2 Hs2 (done_ & todo & token' & refs & F & Hq & Htoken & -> & -> & Hrefs & His & HF).
  cbn [fst snd] in *. subst token. destruct todo as [|d todo].
  - unfold execute_body. cbn [query_lexemes flat_map next_token]. rewrite decide_True by done. wp_step.
    rewrite app_nil_r in Hq. subst done_. eapply checked_references; [exact His|exact Hrefs|done|exact Hs2|].
    do 3 wp_step. split; [done|]. cbn [executable_diagnostics].
    exact (at_lexemes_view (λ v, diagnostics (parser v)) _ _ _ _ Hs2 (λ _, eq_refl)).
  - eapply wp_mono; [by eapply (query_step d todo)| |done].
    intros r s3 (e & v' & -> & Hs3 & Hread). eexists _, _. split_and!; [exact Hs3|exact Hread|].
    destruct (query_next d todo) as (_ & -> & Hpos). rewrite length_app.
    destruct (query_lexemes todo); simpl; lia.
Qed.
End queried.

(** ** On a schema that was constructed *)

Section on_schema.
Context (doc : list definition) (ok : document_ok doc) (s0 s : GraphQlSchema).
Context (parsed : parsed_as doc s0) (after : settled s0 s).

Lemma constructed_symbol n d :
  definition_of doc n = Some d → ∃ symbol decl,
    declared_as (Schema.heap s0) (Schema.symbols s0) n d symbol decl ∧
    Schema.heap s !! declaration symbol = Some (NDecl decl).
Proof.
  intros [Hd [k Hk]]%definition_of_some. pose proof (pa_symbols _ _ parsed n) as Hn.
  destruct (find n (Schema.symbols s0)) as [symbol|] eqn:Hf; [|destruct Hn; by eapply defined_names_elem].
  destruct Hn as (i & d' & Hi & Hp & Hsym).
  assert (d' = d) as ->.
  { eapply (definitions_unique doc (proj1 (proj2 ok))); [by eapply list_elem_of_lookup_2|exact Hd|exact Hsym|exact Hk]. }
  destruct (definition_at doc s0 parsed i d _ Hi Hp) as (decl & Hl & Hname & Hkind & Hbody).
  exists symbol, decl. rewrite Hsym in Hname. split; [by split_and!|].
  apply (kp_decls _ _ (proj1 after)); [done|]. by destruct d, (body decl).
Qed.

Lemma constructed_serves : serves doc (Schema.heap s0) (Schema.symbols s0) false (Schema.heap s).
Proof.
  split; [apply constructed_symbol|]. intros input r p Hp.
  destruct (settled_type doc s0 parsed s after input r p Hp) as (t & Ht & Htype & Hname).
  exists t. split; [done|]. destruct Hp as (t0 & Hp & _ & Hn & Hl & Hnl & _).
  pose proof (proj2 after p t0 Hp) as E. rewrite Ht in E. injection E as ->.
  assert (Hflags : ∀ t', t' = t0 ∨ t' = resolve (Schema.symbols s0) t0 →
    is_non_null t' = is_non_null t0 ∧ is_list_type t' = is_list_type t0 ∧
    is_non_null_list t' = is_non_null_list t0).
  { intros t' [-> | ->]; [done|]. unfold resolve. by repeat case_match. }
  revert Htype Hname. edestruct Hflags as (E1 & E2 & E3).
  2: { intros Htype Hname. split; [split; [exact Htype|exact Hname|by rewrite E1|by rewrite E3]|by left; rewrite E2]. }
  case_decide; [by right|by left].
Qed.

(** The executor the query is run on, but for the scanner. *)
Definition started : GraphQlExecutor :=
  set_directive_definitions (Parser.directive_definitions (Schema.parser s))
    (set_symbols (Schema.symbols s) (set_subscription (Schema.subscription s)
      (set_mutation (Schema.mutation s) (set_query (Schema.query s)
        (set_heap (Schema.heap s) new_GraphQlExecutor))))).

Lemma started_ready : ready_for doc (Schema.heap s0) (Schema.symbols s0) started.
Proof. split; [exact constructed_serves|exact (kp_symbols _ _ (proj1 after))|done]. Qed.

Lemma started_roots : judged doc s → valid_document doc → roots_for doc (Schema.symbols s0) started.
Proof.
  intros (_ & _ & _ & Hroots) [Hvalid _] o n Hsel. unfold is_selectable in Hsel.
  destruct (definition_of doc n) as [d|] eqn:Hd; [|done].
  destruct (constructed_symbol n d Hd) as (symbol & decl & (Hf & _) & _).
  exists symbol. split; [done|]. specialize (Hroots (operation_root o)).
  rewrite (kp_symbols _ _ (proj1 after)) in Hroots. fold n in Hroots. rewrite Hf in Hroots.
  etrans; [|apply Hroots]; [by destruct o|]. apply (Forall_elem _ _ _ Hvalid).
  destruct o; repeat first [by left|right].
Qed.
End on_schema.

(** A query on the schema of a valid document. *)
Lemma query_on_schema doc q text s :
  document_ok doc → valid_document doc → query_ok q = true → query_valid doc q = true →
  rendering (query_lexemes q) text → constructed doc s → judged doc s →
  ∃ x e, execute_on_schema s text = Ok x e ∧ executable_diagnostics x = [] ∧
    query_is q (operation_definitions x) (fragment_definitions x).
Proof.
  intros Hok Hvalid Hwords Hq Hr (s0 & Hparsed & Hsettled) Hjudged.
  destruct (wp_total (add_schema s;; Execute text) (λ x _,
    query_is q (operation_definitions x) (fragment_definitions x) ∧
    executable_diagnostics x = diagnostics (parser (started s))) new_GraphQlExecutor)
    as (x & e & Hrun & His & Hd).
  - wp_step. unfold add_schema. repeat wp_step.
    eapply (query_executed doc Hok (Schema.heap s0) (Schema.symbols s0) q Hwords Hq (started s)); try done.
    + by apply started_ready.
    + by apply (started_roots doc Hok s0).
  - by exists x, e.
Qed.

(** C4: a printed query that is valid for a printed document of type definitions is
    executed as it is printed -- with any white space, line feeds, commas and comments
    between the lexemes of both.  Queries have operations and fragments with aliases,
    spreads, inline fragments and arguments whose values are null, integers, strings,
    booleans, enum values, input objects of any depth and lists (none inside of another).
    They are valid when the fields, the arguments, the types of the values, the required
    arguments and input fields and the types fragments are on are those the document
    allows, where a field with an alias is the one of its alias, as the code has it.  The
    constructor throws nothing, and the executor on its schema returns without a
    diagnostic: the operations and the fragments of the result are those of the query in
    its order, with the same names, types, selections, arguments and values. *)
Theorem printed_query_executed doc text q query_text :
  document_ok doc → valid_document doc → rendering (document_lexemes doc) text →
  query_ok q = true → query_valid doc q = true → rendering (query_lexemes q) query_text →
  wp False parse_schema_document (λ _ s, ∃ x e, execute_on_schema s query_text = Ok x e ∧
      executable_diagnostics x = [] ∧
      query_is q (operation_definitions x) (fragment_definitions x))
    (λ _ _, False) (new_GraphQlSchema text).
Proof.
  intros Hok Hvalid Hr Hwords Hq Hr'.
  eapply wp_mono; [by apply schema_constructed| |by intros e ? [_ Hno]].
  intros _ s [Hc Hj]. by apply (query_on_schema doc).
Qed.

Definition queried_document : list definition :=
  [InterfaceDef (u "Node") [mkFieldDef (u "id") [] (mkTypeRef IDType true None)];
   ObjectDef (u "Query") [u "Node"]
     [mkFieldDef (u "id") [] (mkTypeRef IDType true None);
      mkFieldDef (u "node") [(u "id", mkTypeRef IDType true None)] (plain_type (NamedTypeOf (u "Node")));
      mkFieldDef (u "pets") [(u "near", plain_type (NamedTypeOf (u "Place")));
          (u "sizes", mkTypeRef (NamedTypeOf (u "Size")) false (Some false))]
        (mkTypeRef (NamedTypeOf (u "Pet")) true (Some true))];
   ObjectDef (u "Mutation") [] [mkFieldDef (u "rename") [(u "to", plain_type StringType)] (plain_type BooleanType)];
   InputDef (u "Place") [(u "lat", mkTypeRef IntType true None); (u "tags", mkTypeRef StringType false (Some false));
     (u "next", plain_type (NamedTypeOf (u "Place")))];
   UnionDef (u "Pet") (u "Query") [u "Mutation"];
   EnumDef (u "Size") [u "SMALL"; u "LARGE"]].

Definition example_query : list query_definition :=
  [OperationOf Query (Some (u "First"))
     [FieldOf None (u "id") [] None;
      FieldOf (Some (u "node")) (u "renamed") [(u "id", IntegerOf Character._1 (u "2"))]
        (Some [FieldOf None (u "id") [] None; InlineOf (u "Query") [FieldOf None (u "id") [] None]]);
      FieldOf None (u "pets")
        [(u "near", ObjectOf [(u "lat", IntegerOf Character._7 []); (u "tags", ListOf [StringOf (u "a"); NullOf]);
            (u "next", ObjectOf [(u "lat", IntegerOf Character._1 [])])]);
         (u "sizes", ListOf [EnumOf (u "SMALL"); EnumOf (u "LARGE")])]
        (Some [InlineOf (u "Mutation") [FieldOf None (u "rename") [] None]; SpreadOf (u "Later")])];
   OperationOf Mutation None [FieldOf None (u "rename") [(u "to", StringOf (u "x y"))] None];
   FragmentOf (u "Later") (u "Query") [FieldOf None (u "id") [] None];
   ShorthandOf [SpreadOf (u "Later")]].

Lemma printed_query_executed_witness :
  document_ok queried_document ∧ query_valid queried_document example_query = true ∧
  wp False parse_schema_document (λ _ s, ∃ x e,
      execute_on_schema s (spaced (query_lexemes example_query)) = Ok x e ∧
      executable_diagnostics x = [] ∧
      query_is example_query (operation_definitions x) (fragment_definitions x))
    (λ _ _, False) (new_GraphQlSchema (spaced (document_lexemes queried_document))).
Proof.
  assert (Hok : document_ok queried_document) by (apply (bool_decide_unpack _); vm_compute; exact I).
  assert (Hq : query_valid queried_document example_query = true) by (vm_compute; reflexivity).
  split; [exact Hok|]. split; [exact Hq|].
  apply (printed_query_executed queried_document _ example_query); [exact Hok|..|exact Hq|].
  - apply (bool_decide_unpack _). vm_compute. exact I.
  - apply rendering_spaced. vm_compute. reflexivity.
  - vm_compute. reflexivity.
  - apply rendering_spaced. vm_compute. reflexivity.
Defined.
