(* ===== verification/WriterProperties.v ===== *)
(** * The theorems about printing

    The text writer: margins, saved texts and placeholders; the texts of values
    and types in diagnostics. *)
From S2P Require Import Prelude Monad Character Cstring StdMap Syntaxes Scanner Parser.
From S2P Require Import TextWriter ValueText.

#[local] Arguments u : simpl never.

(** Writers whose indentation fits the counter of [print_indentation]. *)
Definition indented (w : TextWriter) : Prop := (0 ≤ indentation w < 2 ^ 31)%Z.

Lemma indented_appended t w : indented w → indented (appended t w).
Proof. done. Qed.

Lemma margin_appended t w : t ≠ [] → margin (appended t w) = [].
Proof.
  intros Ht. unfold margin. simpl. destruct t; [done|]. simpl.
  by rewrite Nat.add_succ_r.
Qed.

(** Lines of text, each of them not empty. *)
Fixpoint write_lines (lines : list ustring) : M TextWriter unit :=
  match lines with
  | [] => mret tt
  | l :: lines' => write_line l;; write_lines lines'
  end.

(** The lines at an indentation. *)
Definition block (n : Z) (lines : list ustring) : ustring :=
  concat (map (λ l, spaces (Z.to_nat n) ++ l ++ [Character.NewLine]) lines).

Lemma write_line_run l w :
  indented w → column w = 0%nat →
  write_line l w = Ok tt (set_column 0 (appended (spaces (Z.to_nat (indentation w)) ++ l
    ++ [Character.NewLine]) w)).
Proof.
  intros Hi Hc. unfold write_line. erewrite run_bind by by apply write_appended.
  unfold newline, mbind, M_bind, modify, margin, appended. rewrite Hc. simpl.
  destruct w; simpl in *. unfold set_column, set_position, set_text. simpl.
  rewrite !length_app, <- !app_assoc. simpl. do 2 f_equal. lia.
Qed.

(** At the start of a line, [write_line] puts the indentation in front of
    the line and a line feed after it: a block of lines comes out indented. *)
Theorem write_lines_indented lines w :
  (0 ≤ indentation w < 2 ^ 31)%Z → column w = 0%nat →
  ∃ w', write_lines lines w = Ok tt w' ∧ text w' = text w ++ block (indentation w) lines ∧
    position w' = (position w + length (block (indentation w) lines))%nat ∧ column w' = 0%nat ∧
    indentation w' = indentation w.
Proof.
  revert w. induction lines as [|l lines IH]; intros w Hi Hc; simpl.
  - exists w. unfold block. simpl. by rewrite app_nil_r, Nat.add_0_r.
  - erewrite run_bind by by apply write_line_run.
    destruct (IH (set_column 0 (appended (spaces (Z.to_nat (indentation w)) ++ l
      ++ [Character.NewLine]) w)) Hi eq_refl) as (w' & Hrun & Ht & Hp & Hc' & Hi').
    exists w'. split; [exact Hrun|]. rewrite Ht, Hp. unfold block. simpl.
    split_and!; [by rewrite <- !app_assoc|rewrite ?length_app; simpl; rewrite ?length_app; simpl; unfold ustring, char32 in *; lia|done|done].
Qed.

Lemma write_lines_indented_witness :
  let w := set_indentation 4 new_TextWriter in
  ∃ w', write_lines [u "a"; u "b"] w = Ok tt w' ∧
    text w' = text w ++ block 4 [u "a"; u "b"] ∧
    position w' = (position w + length (block 4 [u "a"; u "b"]))%nat ∧ column w' = 0%nat ∧
    indentation w' = 4%Z.
Proof.
  intros w. apply (write_lines_indented [u "a"; u "b"] w); [simpl; lia|reflexivity].
Defined.

(** What is written between [save] and [restore] is taken back: the text,
    the position and the column are those of the [save], and so are the texts
    saved before it.  The indentation is not: it stays as it was left. *)
Theorem save_restore_bracket (m : M TextWriter unit) w w' :
  let saved := set_saved_text_cursors
    (mkTextAndTextCursor (cursor w) (text w) :: saved_text_cursors w) w in
  m saved = Ok tt w' → saved_text_cursors w' = saved_text_cursors saved →
  ∃ w'', (save;; m;; restore) w = Ok tt w'' ∧ text w'' = text w ∧ position w'' = position w ∧
    column w'' = column w ∧ saved_text_cursors w'' = saved_text_cursors w ∧
    indentation w'' = indentation w' ∧ placeholders w'' = placeholders w'.
Proof.
  intros saved Hm Hs. eexists. split.
  - erewrite run_bind by done. fold saved. erewrite run_bind by done.
    unfold restore, mbind, M_bind, get. rewrite Hs. reflexivity.
  - by split_and!.
Qed.

Lemma save_restore_bracket_witness :
  ∃ w'', (save;; write (u "abc");; restore) new_TextWriter = Ok tt w'' ∧
    text w'' = [] ∧ position w'' = 0%nat ∧ column w'' = 0%nat ∧ saved_text_cursors w'' = [] ∧
    indentation w'' = 0%Z ∧ placeholders w'' = [].
Proof.
  exact (save_restore_bracket (write (u "abc")) new_TextWriter _ eq_refl eq_refl).
Defined.

(** The writer while it writes to the placeholder [m], added at [c]. *)
Definition begun (m : ustring) (c : TextCursor) (w : TextWriter) : TextWriter :=
  mkTextWriter (take (tc_position c) (text w)) (tc_position c) (tc_column c) (tc_indentation c)
    (tabs w) (current_placeholders w ++ [m]) (placeholders w)
    (mkPlaceholderTextCursor (cursor w) m (drop (tc_position c) (text w))
      :: saved_placeholder_text_cursors w) (saved_text_cursors w).

Lemma begin_write_run m c w :
  find m (placeholders w) = Some c → (tc_position c ≤ length (text w))%nat →
  current_placeholders w = [] → begin_write_on_placeholder m w = Ok tt (begun m c w).
Proof.
  intros Hf Hlen Hcur. unfold begin_write_on_placeholder, mbind, M_bind, get. rewrite Hf, Hcur. simpl.
  destruct (Nat.ltb_spec (length (text w)) (tc_position c)); [lia|].
  unfold begun. rewrite Hcur. unfold modify. simpl. by rewrite Hcur.
Qed.

Lemma end_write_run m c t w :
  find m (placeholders w) = Some c → (tc_position c ≤ position w)%nat → current_placeholders w = [] →
  end_write_on_placeholder (appended t (begun m c w)) =
    Ok tt (mkTextWriter (take (tc_position c) (text w) ++ t ++ drop (tc_position c) (text w))
      (position w + length t) (column w) (indentation w) (tabs w) [] (erase m (placeholders w))
      (saved_placeholder_text_cursors w) (saved_text_cursors w)).
Proof.
  intros Hf Hp Hcur. unfold end_write_on_placeholder, mbind, M_bind, get. simpl. rewrite Hf. simpl.
  destruct (Nat.leb_spec (tc_position c) (position w)); [|lia]. unfold restore_placeholder_text_cursor.
  unfold mbind, M_bind, get, modify. simpl.
  rewrite Hcur. simpl app. rewrite filter_cons_False by tauto.
  by rewrite <- app_assoc, Nat.add_sub'.
Qed.

(** C23: a text written to a placeholder is inserted at the place where the
    placeholder was added, at the indentation of that place; writing goes on
    behind what had been written since, and the placeholder is gone. *)
Theorem placeholder_inserts m c x pre post w :
  find m (placeholders w) = Some c → text w = pre ++ post → tc_position c = length pre →
  (tc_position c ≤ position w)%nat → current_placeholders w = [] →
  (0 ≤ tc_indentation c < 2 ^ 31)%Z →
  let x' := (if (tc_column c =? 0)%nat then spaces (Z.to_nat (tc_indentation c)) else []) ++ x in
  ∃ w', (begin_write_on_placeholder m;; write x;; end_write_on_placeholder) w = Ok tt w' ∧
    text w' = pre ++ x' ++ post ∧ position w' = (position w + length x')%nat ∧
    column w' = column w ∧ indentation w' = indentation w ∧
    placeholders w' = erase m (placeholders w) ∧ current_placeholders w' = [] ∧
    saved_placeholder_text_cursors w' = saved_placeholder_text_cursors w.
Proof.
  intros Hf Ht Hc Hp Hcur Hi x'. eexists. split.
  - erewrite run_bind by (apply begin_write_run; [done|rewrite Ht, Hc, length_app; lia|done]).
    erewrite run_bind by by apply write_appended. by apply end_write_run.
  - cbn [text position column indentation placeholders current_placeholders
      saved_placeholder_text_cursors]. rewrite Ht, Hc, take_app_length, drop_app_length. by split_and!.
Qed.

Lemma placeholder_inserts_witness :
  let w := match (write (u "ac");; add_placeholder (u "p");; write (u "d")) new_TextWriter with
    | Ok _ w => w | _ => new_TextWriter end in
  ∃ w', (begin_write_on_placeholder (u "p");; write (u "bb");; end_write_on_placeholder) w = Ok tt w' ∧
    text w' = u "ac" ++ u "bb" ++ u "d" ∧ position w' = 5%nat ∧
    column w' = 3%nat ∧ indentation w' = 0%Z ∧
    placeholders w' = [] ∧ current_placeholders w' = [] ∧ saved_placeholder_text_cursors w' = [].
Proof.
  intros w. apply (placeholder_inserts (u "p") (mkTextCursor 2 2 0) (u "bb") (u "ac") (u "d") w);
    vm_compute; try reflexivity; [lia|split; congruence].
Defined.

(** C24: the text of a value without objects is its literal text, lists in
    brackets with commas between the elements.  An empty list anywhere in it
    makes the run throw instead. *)
Theorem get_value_string_text v (w : TextWriter) :
  flat v = true →
  wp False (get_value_string v)
    (λ x w', w' = w ∧ x = value_text v ∧ printable v = true)
    (λ e w', w' = w ∧ e = no_saves ∧ printable v = false) w.
Proof. intros Hv. by apply get_value_string_spec. Qed.

Lemma get_value_string_text_witness :
  let x := new_Syntax S_IntValue 0 0 in
  let v := ListValue x [IntValue x 1; ListValue x [BooleanValue x true; EnumValue x (u "A")]] in
  wp False (get_value_string v)
    (λ t w', w' = new_TextWriter ∧ t = u "[1, [true, A]]" ∧ true = true)
    (λ e w', w' = new_TextWriter ∧ e = no_saves ∧ true = false) new_TextWriter.
Proof. intros x v. exact (get_value_string_text v new_TextWriter eq_refl). Defined.
