(* ===== verification/HttpSafety.v ===== *)
(** * What the HTTP scanner promises

    On a buffer with a margin of eight bytes behind the request, every
    operation of the scanner terminates, reads inside the buffer and throws
    nothing but a [std::logic_error]; the position stays inside the request.
    [reaches] is the frame of the operations inside one token. *)
From S2P Require Import Prelude Monad StdMap Character Cstring HttpHeaders HttpScanner HttpParser.

(** [scan_http_version] moves the position seven bytes without a check and
    reads there, so the buffer has to be that much longer than the request;
    the sizes of tokens are [int]s. *)
Record http_ok (s : HttpScanner) : Prop := {
  ok_margin : (size s + 8 ≤ length (text s))%nat;
  ok_int : (Z.of_nat (size s) < 2 ^ 31 - 1)%Z;
  ok_position : (position s ≤ size s)%nat;
  ok_start : (start_position s ≤ position s)%nat
}.

Definition failure (e : exn) (_ : HttpScanner) : Prop := ∃ what, e = std_logic_error what.

(** Only the position moved, forward, and cursors were left on the stack. *)
Definition reaches (s s' : HttpScanner) : Prop :=
  ∃ p l, s' = set_saved_text_cursors (l ++ saved_text_cursors s) (set_position p s) ∧
    (position s ≤ p ≤ size s)%nat.

(** Tokens were taken. *)
Record takes (s s' : HttpScanner) : Prop := {
  takes_text : text s' = text s;
  takes_size : size s' = size s;
  takes_position : (position s ≤ position s')%nat;
  takes_ok : http_ok s'
}.

Lemma set_position_id s : set_position (position s) s = s.
Proof. by destruct s. Qed.

Lemma reaches_refl s : http_ok s → reaches s s.
Proof.
  intros []. exists (position s), []. split; [by destruct s|lia].
Qed.

Lemma reaches_trans s1 s2 s3 : reaches s1 s2 → reaches s2 s3 → reaches s1 s3.
Proof.
  intros (p & l & -> & Hp) (q & k & -> & Hq). simpl in *.
  exists q, (k ++ l). split; [by rewrite <- app_assoc|lia].
Qed.

Lemma reaches_ok s s' : http_ok s → reaches s s' → http_ok s'.
Proof. intros [] (p & l & -> & Hp). split; simpl; lia. Qed.

Lemma reaches_le s s' : reaches s s' → (position s ≤ position s' ≤ size s)%nat.
Proof. by intros (p & l & -> & Hp). Qed.

Lemma reaches_size s s' : reaches s s' → size s' = size s.
Proof. by intros (p & l & -> & _). Qed.

Lemma reaches_step s : (position s < size s)%nat → reaches s (set_position (S (position s)) s).
Proof. intros. exists (S (position s)), []. split; [by destruct s|lia]. Qed.

Lemma http_takes_refl s : http_ok s → takes s s.
Proof. by split. Qed.

Lemma http_takes_trans s1 s2 s3 : takes s1 s2 → takes s2 s3 → takes s1 s3.
Proof. intros [] []. split; [congruence..|lia|done]. Qed.

Lemma takes_reaches s s' : http_ok s → reaches s s' → takes s s'.
Proof.
  intros Hok Hr. split; [..|by eapply reaches_ok]; destruct Hr as (p & l & -> & Hp); simpl; done || lia.
Qed.

Lemma takes_then s s' s'' : takes s s' → reaches s' s'' → takes s s''.
Proof. intros Ht Hr. eapply http_takes_trans; [done|]. apply takes_reaches; [by destruct Ht|done]. Qed.

(** ** Characters *)

Section http_rules.
Context (ub : Prop).

Lemma wp_text_at i ch Q X s : text s !! i = Some ch → Q ch s → wp ub (text_at i) Q X s.
Proof.
  intros Hch HQ. unfold text_at. wp_step. wp_step. apply wp_deref; [|congruence].
  intros a. rewrite Hch. by intros [= ->].
Qed.

(** Any character in the buffer. *)
Lemma wp_buffer_any Q X s :
  (position s < length (text s))%nat →
  (∀ ch, text s !! position s = Some ch → Q ch s) → wp ub current_char Q X s.
Proof.
  intros Hp HQ. unfold current_char. wp_step. wp_step.
  destruct (lookup_lt_is_Some_2 _ _ Hp) as [ch Hch]. by eapply wp_text_at; eauto.
Qed.

Lemma wp_buffer_char Q X s :
  http_ok s → (∀ ch, text s !! position s = Some ch → Q ch s) → wp ub current_char Q X s.
Proof. intros [] HQ. apply wp_buffer_any; [lia|done]. Qed.

Lemma wp_step_position (Q : unit → HttpScanner → Prop) (X : exn → HttpScanner → Prop) s :
  (∀ e, failure e s → X e s) →
  ((position s < size s)%nat → Q tt (set_position (S (position s)) s)) →
  wp ub increment_position Q X s.
Proof.
  intros HX HQ. unfold increment_position. wp_step. wp_step.
  destruct (Nat.leb_spec (size s) (position s)); wp_step; [|by apply HQ].
  apply HX. by eexists.
Qed.

(** Loops of the scanner: every further iteration moves the position. *)
Lemma wp_http_loop {A B} (I : A → HttpScanner → Prop) (body : A → M HttpScanner (A + B)) Q X a s :
  I a s →
  (∀ a s, I a s → wp ub (body a) (λ r s',
    match r with
    | inl a' => I a' s' ∧ size s' = size s ∧ (position s < position s' ≤ S (size s))%nat
    | inr b => Q b s'
    end) X s) →
  wp ub (scan_loop body a) Q X s.
Proof.
  intros HI Hbody. unfold scan_loop. wp_step. wp_step.
  apply (wp_loop _ I (λ _ s, S (size s) - position s)%nat); [done|unfold scan_fuel; lia|].
  intros a' s' HI'. eapply wp_mono; [by apply Hbody| |done].
  intros [a''|b] s''; [|done]. intros (? & ? & ?). split; [done|lia].
Qed.

Lemma wp_increment_inside (Q : unit → HttpScanner → Prop) X s :
  (position s < size s)%nat → Q tt (set_position (S (position s)) s) →
  wp ub increment_position Q X s.
Proof.
  intros Hp HQ. unfold increment_position. wp_step. wp_step.
  destruct (Nat.leb_spec (size s) (position s)); [lia|]. by wp_step.
Qed.

Lemma wp_scan_expected ch Q (X : exn → HttpScanner → Prop) s :
  (position s < length (text s))%nat → (∀ e, failure e s → X e s) →
  (text s !! position s = Some ch → (position s < size s)%nat →
    Q tt (set_position (S (position s)) s)) →
  wp ub (scan_expected ch) Q X s.
Proof.
  intros Hp HX HQ. unfold scan_expected. wp_step. apply wp_buffer_any; [done|]. intros c Hc.
  destruct (Z.eqb_spec c ch) as [->|]; [apply wp_step_position; auto|].
  wp_step. apply HX. by eexists.
Qed.

(** ** The values of tokens *)

Lemma wp_copy_text start n Q X s :
  (start + n ≤ length (text s))%nat → (0 < n)%nat →
  Q (c_string (substr start (n - 1) (text s))) s → wp ub (copy_text start n) Q X s.
Proof.
  intros Hl Hn HQ. unfold copy_text. wp_step. wp_step. cbv zeta.
  rewrite length_take, length_drop, orb_comm.
  destruct (Nat.leb_spec n (n `min` (length (text s) - start))); [|lia]. simpl. wp_step.
  unfold substr in HQ. rewrite take_take. by replace ((n - 1) `min` n)%nat with (n - 1)%nat by lia.
Qed.

(** The text between the start of the token and the position. *)
Definition token_text (s : HttpScanner) : list Z :=
  substr (start_position s) (position s - start_position s) (text s).

Lemma token_size s : http_ok s →
  to_signed 32 (Z.of_nat (position s) - Z.of_nat (start_position s) + 1)
  = Z.of_nat (S (position s - start_position s)).
Proof. intros []. rewrite to_signed_small by (simpl; lia). lia. Qed.

Lemma wp_get_token_value Q X s :
  http_ok s → Q (c_string (token_text s)) s → wp ub get_token_value Q X s.
Proof.
  intros Hok HQ. unfold get_token_value. wp_step. wp_step. rewrite token_size by done.
  destruct (Z.ltb_spec (Z.of_nat (S (position s - start_position s))) 0); [lia|].
  destruct (Z.eqb_spec (Z.of_nat (S (position s - start_position s))) 0); [lia|].
  rewrite Nat2Z.id. apply wp_copy_text; [destruct Hok; lia|lia|]. simpl. by rewrite Nat.sub_0_r.
Qed.

Lemma wp_get_lower_cased_value Q X s :
  http_ok s → Q (c_string (map tolower (token_text s))) s → wp ub get_lower_cased_value Q X s.
Proof.
  intros Hok HQ. unfold get_lower_cased_value. wp_step. wp_step. cbv zeta.
  pose proof (ok_start _ Hok). pose proof (ok_margin _ Hok). pose proof (ok_position _ Hok).
  replace (Z.of_nat (position s) - Z.of_nat (start_position s) + 1)%Z
    with (Z.of_nat (S (position s - start_position s))) by lia.
  destruct (Z.ltb_spec (Z.of_nat (S (position s - start_position s))) 0); [lia|].
  destruct (Z.eqb_spec (Z.of_nat (S (position s - start_position s))) 0); [lia|].
  rewrite Nat2Z.id, length_take, length_drop.
  destruct (Nat.ltb_spec (S (position s - start_position s)
    `min` (length (text s) - start_position s)) (S (position s - start_position s))); [lia|].
  wp_step. unfold token_text, substr in HQ. rewrite take_take.
  by replace ((S (position s - start_position s) - 1) `min` S (position s - start_position s))%nat
    with (position s - start_position s)%nat by lia.
Qed.
End http_rules.

(** ** Operations inside a token *)

(** One step: a rule, or a case of a condition. *)
Ltac http_step :=
  lazymatch goal with
  | |- wp _ (_ ≫= _) _ _ _ => apply wp_bind
  | |- wp _ increment_position _ _ _ => apply wp_step_position; [by auto|intros ?]
  | |- wp _ current_char _ _ _ => apply wp_buffer_char; [|intros ? ?]
  | |- wp _ (scan_expected _) _ _ _ => apply wp_scan_expected; [|by auto|intros ? ?]
  | |- wp _ (let _ := _ in _) _ _ _ => cbv zeta
  | |- wp _ (if decide _ then _ else _) _ _ _ => case_decide
  | _ => wp_step
  end.

Section token_specs.
Context (ub : Prop).

Lemma save_revert s : 
  wp ub (save;; revert) (λ _ s', s' = s) failure s.
Proof. unfold save, revert. repeat http_step. by destruct s. Qed.

Lemma scan_optional_spec ch s :
  http_ok s →
  wp ub (scan_optional ch) (λ (b : bool) s', reaches s s' ∧
    if b then text s !! position s = Some ch ∧ position s' = S (position s) else s' = s) failure s.
Proof.
  intros Hok. unfold scan_optional, save, revert. repeat http_step; [by destruct Hok| |].
  - split; [|split; [|done]].
    + exists (S (position s)), [mkSavedTextCursor (position s) (start_position s) (end_position s)].
      simpl in *. split; [done|lia].
    + match goal with H : (_ =? _)%Z = true |- _ => apply Z.eqb_eq in H; subst end. done.
  - simpl. repeat http_step. simpl. destruct s. split; [|done]. by apply reaches_refl.
Qed.

Lemma scan_hex_digit_spec s :
  http_ok s →
  wp ub scan_hex_digit (λ _ s', reaches s s' ∧ (position s < position s')%nat) failure s.
Proof.
  intros Hok. unfold scan_hex_digit. repeat http_step.
  - by eapply reaches_ok, reaches_step.
  - split; [by apply reaches_step|]. simpl; lia.
  - by eexists.
Qed.

Lemma is_pchar_spec ch s :
  http_ok s → wp ub (is_pchar ch) (λ _ s', reaches s s') failure s.
Proof.
  intros Hok. pose proof (reaches_refl s Hok) as Hs. unfold is_pchar.
  do 5 (apply wp_if; intros ?; [try (by wp_step)|]); [|by wp_step].
  wp_call scan_hex_digit_spec; [done| |done]. intros _ s1 [Hr1 _].
  wp_call scan_hex_digit_spec; [by eapply reaches_ok| |done]. intros _ s2 [Hr2 _].
  wp_step. by eapply reaches_trans.
Qed.

(** A loop that reads the next character at the end of its body. *)
Lemma scan_pchars_spec extra s :
  http_ok s → wp ub (scan_pchars extra) (λ _ s', reaches s s') failure s.
Proof.
  intros Hok. unfold scan_pchars. repeat http_step; [done|].
  apply (wp_http_loop _ (λ _ s', reaches s s')); [by apply reaches_refl|].
  intros c s1 Hr1. pose proof (reaches_ok _ _ Hok Hr1) as Hok1. repeat http_step; [done|].
  wp_call is_pchar_spec; [done| |done]. intros b s2 Hr2.
  pose proof (reaches_ok _ _ Hok1 Hr2) as Hok2. pose proof (reaches_le _ _ Hr2).
  pose proof (reaches_size _ _ Hr2). assert (Hr3 : reaches s s2) by (by eapply reaches_trans).
  repeat http_step; [|split; [|split]|done]; try done.
  - eapply reaches_ok; [done|]. by apply reaches_step.
  - eapply reaches_trans; [done|]. by apply reaches_step.
  - simpl. lia.
Qed.

Lemma skip_blanks_spec s :
  http_ok s →
  wp ub skip_blanks (λ _ s', ∃ p, s' = set_position p s ∧ (position s < p ≤ size s)%nat) failure s.
Proof.
  intros Hok. pose proof Hok as []. unfold skip_blanks. repeat http_step.
  { by eapply reaches_ok, reaches_step. }
  apply (wp_http_loop _ (λ _ s', ∃ p, s' = set_position p s ∧ (position s < p ≤ size s)%nat)).
  { exists (S (position s)). split; [done|lia]. }
  intros c s1 (p & -> & Hp). repeat http_step.
  - split; simpl in *; lia.
  - split; [|simpl in *; lia]. exists (S p). simpl in *. split; [done|lia].
  - by exists p.
Qed.

Lemma scan_field_content_spec s :
  http_ok s →
  wp ub scan_field_content (λ (b : bool) s', reaches s s' ∧
    if b then (position s < position s')%nat else s' = s) failure s.
Proof.
  intros Hok. pose proof Hok as []. pose proof (reaches_refl s Hok) as Hs.
  set (c := mkSavedTextCursor (position s) (start_position s) (end_position s)).
  assert (Hr : ∀ p, (position s ≤ p ≤ size s)%nat →
    reaches s (set_position p (set_saved_text_cursors (c :: saved_text_cursors s) s))).
  { intros p Hp. by exists p, [c]. }
  assert (Hrevert : ∀ p, wp ub (revert;; mret false) (λ (b : bool) s', reaches s s' ∧
    if b then (position s < position s')%nat else s' = s) failure
    (set_position p (set_saved_text_cursors (c :: saved_text_cursors s) s))).
  { intros p. unfold revert. repeat http_step. simpl. repeat http_step. by destruct s. }
  unfold scan_field_content, save. repeat http_step.
  - eapply (reaches_ok s); [done|]. by apply (Hr (position s)).
  - by apply wp_unbind, (Hrevert (position s)).
  - eapply reaches_ok; [done|]. apply Hr. simpl in *; lia.
  - split; [apply Hr; simpl in *; lia|simpl; lia].
  - wp_call skip_blanks_spec; [|intros _ s1 (p & -> & Hp); simpl in *|done].
    { eapply reaches_ok; [done|]. apply Hr. simpl in *; lia. }
    repeat http_step.
    + eapply reaches_ok; [done|]. apply Hr. simpl in *; lia.
    + by apply wp_unbind, Hrevert.
    + simpl in *. split; [apply Hr; lia|simpl; lia].
Qed.

Lemma scan_header_value_spec s :
  http_ok s → wp ub scan_header_value (λ _ s', reaches s s') failure s.
Proof.
  intros Hok. apply (wp_http_loop _ (λ _ s', reaches s s')); [by apply reaches_refl|].
  intros _ s1 Hr1. pose proof (reaches_ok _ _ Hok Hr1) as Hok1. repeat http_step; [done|].
  wp_call scan_field_content_spec; [done| |done]. intros [] s2 [Hr2 Hs2]; simpl.
  - wp_step. pose proof (reaches_le _ _ Hr2). pose proof (reaches_size _ _ Hr2).
    split; [by eapply reaches_trans|lia].
  - subst s2. repeat http_step; [done| |done]. split; [|simpl; lia].
    eapply reaches_trans; [done|]. by apply reaches_step.
Qed.

Lemma scan_while_spec p s :
  http_ok s → wp ub (scan_while p) (λ _ s', reaches s s') failure s.
Proof.
  intros Hok. apply (wp_http_loop _ (λ _ s', reaches s s')); [by apply reaches_refl|].
  intros _ s1 Hr1. pose proof (reaches_ok _ _ Hok Hr1) as Hok1. repeat http_step; try done.
  split; [|simpl; lia]. eapply reaches_trans; [done|]. by apply reaches_step.
Qed.

Lemma scan_request_target_spec s :
  http_ok s → wp ub scan_request_target (λ _ s', reaches s s') failure s.
Proof.
  intros Hok. apply (wp_http_loop _ (λ _ s', reaches s s')); [by apply reaches_refl|].
  intros _ s1 Hr1. pose proof (reaches_ok _ _ Hok Hr1) as Hok1.
  assert (Hr2 : (position s1 < size s1)%nat → reaches s1 (set_position (S (position s1)) s1))
    by (by apply reaches_step).
  repeat http_step; try done; try (by eexists); try (eapply reaches_trans; [done|by apply Hr2]).
  - split; [eapply reaches_trans; [done|by apply Hr2]|simpl; lia].
  - specialize (Hr2 ltac:(lia)). wp_call is_pchar_spec; [by eapply reaches_ok| |done]. intros b s2 Hr3.
    pose proof (reaches_le _ _ Hr3). pose proof (reaches_size _ _ Hr3).
    assert (reaches s s2) by (eapply reaches_trans; [done|]; by eapply reaches_trans).
    simpl in *. repeat http_step; (split; [done|lia]) || done.
Qed.
End token_specs.

(** ** Operations that take tokens *)

Lemma start_token s : http_ok s → http_ok (set_start_position (position s) s).
Proof. intros []. by split; simpl. Qed.

Lemma reaches_started s s' :
  http_ok s → reaches (set_start_position (position s) s) s' → takes s s'.
Proof.
  intros Hok Hr. pose proof (reaches_ok _ _ (start_token s Hok) Hr) as Hok'.
  destruct Hr as (p & l & -> & Hp). simpl in *. split; simpl; done || lia.
Qed.

Lemma takes_step s s' : takes s s' → (position s' < size s')%nat →
  takes s (set_position (S (position s')) s').
Proof. intros Ht Hp. eapply takes_then; [done|]. by apply reaches_step. Qed.

(** A test of the specification of an operation that takes the tokens after
    [s0]: a token scanned with [reaches] extends the frame. *)
Lemma takes_reached s0 s s' : takes s0 s → reaches s s' → takes s0 s'.
Proof. apply takes_then. Qed.

Section take_specs.
Context (ub : Prop).

Lemma scan_method_name_spec s :
  http_ok s →
  wp ub scan_method_name
    (λ _ s', ∃ p, s' = set_position p s ∧ (position s ≤ p)%nat) failure s.
Proof.
  intros Hok. unfold scan_method_name, advance_position.
  repeat http_step; try done;
    try (eexists; split; [reflexivity|simpl; lia]);
    try (by eapply reaches_ok, reaches_step).
  exists (position s). by rewrite set_position_id.
Qed.

Lemma scan_method_spec s :
  http_ok s → wp ub scan_method (λ _ s', takes s s') failure s.
Proof.
  intros Hok. unfold scan_method. wp_call scan_method_name_spec; [done| |done].
  intros token s1 (p & -> & Hp). repeat http_step; [by eexists|].
  apply takes_reaches; [done|]. exists p, []. split; [by destruct s|]. bool_hyps. simpl in *. lia.
Qed.

Lemma scan_absolute_path_spec s :
  http_ok s → wp ub scan_absolute_path (λ _ s', takes s s') failure s.
Proof.
  intros Hok. pose proof (start_token s Hok) as Hst. pose proof Hok as [].
  unfold scan_absolute_path, set_token_start_position. repeat http_step; [simpl; lia|].
  match goal with H : (_ < _)%nat |- _ => pose proof (reaches_step _ H) as Hr1 end.
  wp_call scan_pchars_spec; [by eapply reaches_ok| |done]. intros _ s2 Hr2.
  assert (Hr : reaches (set_start_position (position s) s) s2) by (by eapply reaches_trans).
  apply wp_get_token_value; [by eapply reaches_ok|]. by apply reaches_started.
Qed.

Lemma scan_query_spec s :
  http_ok s → wp ub scan_query (λ _ s', takes s s') failure s.
Proof.
  intros Hok. pose proof (start_token s Hok) as Hst.
  unfold scan_query, set_token_start_position, next_char_is. repeat http_step.
  eapply wp_mono; [by apply scan_optional_spec| |done]. intros b s1 [Hr1 _].
  assert (Hif : wp ub (if b then scan_pchars (λ ch, is_slash ch || is_question ch) else mret tt)
    (λ _ s', reaches (set_start_position (position s) s) s') failure s1).
  { apply wp_if; intros _; [|by wp_step].
    eapply wp_mono; [apply scan_pchars_spec; by eapply reaches_ok| |done].
    intros ? s2 Hr2. by eapply reaches_trans. }
  apply wp_bind. eapply wp_mono; [exact Hif| |done].
  intros ? s2 Hr2. apply wp_get_token_value; [by eapply reaches_ok|]. by apply reaches_started.
Qed.

Lemma scan_http_version_spec s :
  http_ok s →
  wp ub scan_http_version
    (λ _ s', ∃ p, s' = set_position p s ∧ (position s ≤ p < length (text s))%nat) failure s.
Proof.
  intros Hok. pose proof Hok as []. unfold scan_http_version, advance_position.
  http_step. http_step; [lia|]. wp_step. wp_step. wp_step.
  apply wp_buffer_any; [simpl in *; lia|]. intros ch _. wp_step.
  eexists. split; [reflexivity|]. simpl in *. lia.
Qed.

Lemma ParseRequestLine_spec s :
  http_ok s → wp ub ParseRequestLine (λ _ s', takes s s') failure s.
Proof.
  intros Hok. unfold ParseRequestLine.
  wp_call scan_method_spec; [done| |done]. intros method_ s1 Ht1.
  pose proof (takes_ok _ _ Ht1) as Hok1. pose proof Hok1 as []. http_step.
  http_step; [lia|]. apply (takes_step _ _ Ht1) in H0. clear H.
  wp_call scan_absolute_path_spec; [by destruct H0| |done]. intros path_ s2 Ht2.
  pose proof (http_takes_trans _ _ _ H0 Ht2) as Ht3.
  wp_call scan_query_spec; [by destruct Ht3| |done]. intros query_ s3 Ht4.
  pose proof (http_takes_trans _ _ _ Ht3 Ht4) as Ht5. pose proof (takes_ok _ _ Ht5) as Hok3.
  pose proof Hok3 as [].
  http_step. http_step; [lia|]. apply (takes_step _ _ Ht5) in H1. clear H.
  wp_call scan_http_version_spec; [by destruct H1| |done]. intros _ s4 (p & -> & Hp).
  simpl in Hp. http_step. http_step; [simpl; lia|]. simpl in *.
  assert (Ht6 : takes s (set_position (S p) s3)).
  { eapply takes_then; [exact Ht5|]. exists (S p), []. split; [by destruct s3|lia]. }
  http_step. http_step; [destruct (takes_ok _ _ Ht6); simpl in *; lia|]. wp_step.
  by apply (takes_step _ _ Ht6).
Qed.
End take_specs.

(** ** Headers and the body *)

Section request_specs.
Context (ub : Prop).

Lemma set_header_takes v s s' : takes s s' → takes s (set_current_header v s').
Proof. by intros [?? ? []]; split; [..|split]. Qed.

(** [scan_expected (ch)] after tokens. *)
Lemma expected_takes ch s s' Q :
  takes s s' →
  (takes s (set_position (S (position s')) s') → Q tt (set_position (S (position s')) s')) →
  wp ub (scan_expected ch) Q failure s'.
Proof.
  intros Ht HQ. apply wp_scan_expected; [destruct (takes_ok _ _ Ht); lia|done|].
  intros _ Hp. apply HQ. by apply takes_step.
Qed.

Lemma scan_header_spec s :
  http_ok s →
  wp ub scan_header (λ _ s', takes s s' ∧ (position s < position s')%nat) failure s.
Proof.
  intros Hok. pose proof (start_token s Hok) as Hst.
  assert (Ht0 : takes s (set_start_position (position s) s)) by (by split).
  unfold scan_header, set_token_start_position. repeat http_step; [done|..].
  - wp_call scan_optional_spec; [done| |done]. intros [] s1 [Hr1 Hs1]; [|wp_step; by eexists].
    pose proof (takes_then _ _ _ Ht0 Hr1) as Ht1. destruct Hs1 as [_ Hp1]. simpl in Hp1.
    http_step. apply (expected_takes _ s); [done|]. intros Ht2. wp_step. simpl. split; [done|lia].
  - wp_call scan_while_spec; [done| |done]. intros _ s1 Hr1.
    pose proof (takes_then _ _ _ Ht0 Hr1) as Ht1. pose proof (takes_ok _ _ Ht1) as Hok1.
    http_step. apply wp_get_lower_cased_value; [done|]. cbv zeta. http_step.
    apply (expected_takes _ s); [done|]. intros Ht2.
    wp_call scan_optional_spec; [by destruct Ht2| |done]. intros b s2 [Hr2 _].
    pose proof (takes_then _ _ _ Ht2 Hr2) as Ht3. pose proof (takes_position _ _ Ht3).
    pose proof (reaches_le _ _ Hr2) as Hle. simpl in Hle. pose proof (reaches_le _ _ Hr1) as Hle1.
    simpl in Hle1. http_step. http_step.
    pose proof (takes_ok _ _ Ht3) as Hok3. pose proof (start_token _ Hok3) as Hok4.
    wp_call scan_header_value_spec; [done| |done]. intros _ s3 Hr3.
    pose proof (http_takes_trans _ _ _ Ht3 (reaches_started _ _ Hok3 Hr3)) as Ht4.
    pose proof (reaches_le _ _ Hr3) as Hle3. simpl in Hle3.
    http_step. apply wp_get_token_value; [by destruct Ht4|]. http_step. http_step.
    apply (set_header_takes (Some (c_string (token_text s3)))) in Ht4.
    wp_call scan_optional_spec; [by destruct Ht4| |done]. intros b' s4 [Hr4 _].
    pose proof (takes_then _ _ _ Ht4 Hr4) as Ht5. pose proof (reaches_le _ _ Hr4) as Hle4.
    simpl in Hle4. http_step. apply (expected_takes _ s); [done|]. intros Ht6.
    http_step. apply (expected_takes _ s); [done|]. intros Ht7. wp_step. split; [done|].
    simpl. lia.
Qed.

Lemma parse_headers_spec s :
  http_ok s → wp ub parse_headers (λ _ s', takes s s') failure s.
Proof.
  intros Hok. apply (wp_http_loop _ (λ _ s', takes s s')); [by apply http_takes_refl|].
  intros headers_ s1 Ht1. wp_call scan_header_spec; [by destruct Ht1| |done].
  intros header s2 [Ht2 Hp]. pose proof (http_takes_trans _ _ _ Ht1 Ht2).
  pose proof (takes_size _ _ Ht2). destruct (takes_ok _ _ Ht2).
  unfold get_header_value. repeat http_step; [done|]. split; [done|lia].
Qed.

Lemma scan_body_spec X n s :
  http_ok s →
  wp ub (scan_body n) (λ value s', takes s s' ∧
    position s' = (position s + n `min` (size s - position s))%nat ∧
    value = c_string (substr (position s) n (take (size s) (text s)))) X s.
Proof.
  intros Hok. pose proof (start_token s Hok) as Hst. pose proof Hok as [].
  unfold scan_body, set_token_start_position. http_step. http_step.
  apply wp_bind. apply (wp_http_loop _ (λ i s', (i ≤ n)%nat ∧ (position s + i ≤ size s)%nat ∧
    s' = set_position (position s + i) (set_start_position (position s) s))).
  { split; [lia|split; [lia|]]. rewrite Nat.add_0_r. by destruct s. }
  intros i s1 (Hi & His & ->). http_step. http_step. http_step.
  - http_step. bool_hyps. apply wp_increment_inside; [done|]. http_step. simpl in *. split; [|lia]. split; [lia|split; [lia|]].
    by replace (position s + S i)%nat with (S (position s + i)) by lia.
  - http_step. assert (Hi' : i = (n `min` (size s - position s))%nat).
    { match goal with H : (_ && _) = false |- _ => apply andb_false_iff in H as [?|?] end;
        bool_hyps; simpl in *; lia. }
    apply wp_get_token_value; [by split; simpl; lia|]. split; [|split; [simpl; lia|]].
    + split; simpl; [done..|lia|]. split; simpl; lia.
    + unfold token_text, substr. simpl. f_equal.
      replace (position s + i - position s)%nat with i by lia.
      rewrite skipn_firstn_comm, take_take. by rewrite Hi'.
Qed.

Lemma Parse_spec s : http_ok s → wp ub Parse (λ _ s', takes s s') failure s.
Proof.
  intros Hok. unfold Parse. wp_call ParseRequestLine_spec; [done| |done]. intros line_ s1 Ht1.
  wp_call parse_headers_spec; [by destruct Ht1| |done]. intros headers_ s2 Ht2.
  pose proof (http_takes_trans _ _ _ Ht1 Ht2) as Ht. cbv zeta. http_step; [by wp_step|].
  destruct (subscript HttpHeader.ContentLength headers_) as [[value|] headers_']; [|by wp_step].
  unfold parse_body. wp_call scan_body_spec; [by destruct Ht2| |done]. intros body_ s3 [Ht3 _].
  wp_step. by eapply http_takes_trans.
Qed.
End request_specs.
