(* ===== verification/HttpText.v ===== *)
(** * Requests as text

    What the HTTP scanner returns on a request whose text is known:
    [unread t s] says that [t] is what is left of the request. *)
From S2P Require Import Prelude Monad StdMap Character Cstring HttpHeaders HttpScanner HttpParser.
From S2P Require Import HttpSafety.

#[local] Arguments u : simpl never.

(** ** What is left of the request *)

Record unread (t : list Z) (s : HttpScanner) : Prop := {
  unread_ok : http_ok s;
  unread_size : size s = (position s + length t)%nat;
  unread_text : ∃ tail, drop (position s) (text s) = t ++ tail
}.

(** The state [n] characters further. *)
Definition skip (n : nat) (s : HttpScanner) : HttpScanner := set_position (position s + n) s.

Lemma skip_0 s : skip 0 s = s.
Proof. unfold skip. rewrite Nat.add_0_r. by destruct s. Qed.

Lemma skip_skip m n s : skip n (skip m s) = skip (m + n) s.
Proof. unfold skip. simpl. by rewrite Nat.add_assoc. Qed.

Lemma skip_1 s : set_position (S (position s)) s = skip 1 s.
Proof. unfold skip. by rewrite Nat.add_1_r. Qed.

Lemma unread_skip w t s : unread (w ++ t) s → unread t (skip (length w) s).
Proof.
  intros [[] Hs [tail Ht]]. rewrite length_app in Hs. split; simpl; [split; simpl; lia|lia|].
  exists tail. by rewrite <- drop_drop, Ht, <- app_assoc, drop_app_length.
Qed.

Lemma unread_cons c t s : unread (c :: t) s → unread t (skip 1 s).
Proof. apply (unread_skip [c]). Qed.

Lemma unread_char c t s : unread (c :: t) s → text s !! position s = Some c.
Proof.
  intros [_ _ [tail Ht]]. rewrite <- (Nat.add_0_r (position s)), <- lookup_drop. by rewrite Ht.
Qed.

Lemma unread_lt c t s : unread (c :: t) s → (position s < size s)%nat.
Proof. intros [_ Hs _]. simpl in Hs. lia. Qed.

(** A state that differs only in its saved cursors and its token start. *)
Lemma unread_same t s s' :
  unread t s → position s' = position s → text s' = text s → size s' = size s →
  (start_position s' ≤ position s')%nat → unread t s'.
Proof.
  intros [[] Hs Ht] Hp Htx Hsz Hst. rewrite Hp in Hst.
  split; [split|..]; rewrite ?Hp, ?Htx, ?Hsz; done.
Qed.

Section text_rules.
Context (ub : Prop) (X : exn → HttpScanner → Prop).

Lemma wp_unread_char c t Q s : unread (c :: t) s → Q c s → wp ub current_char Q X s.
Proof.
  intros Hu HQ. apply wp_buffer_char; [by destruct Hu|]. intros c'.
  rewrite (unread_char _ _ _ Hu). by intros [= <-].
Qed.

Lemma wp_next c t (Q : unit → HttpScanner → Prop) s :
  unread (c :: t) s → Q tt (skip 1 s) → wp ub increment_position Q X s.
Proof.
  intros Hu HQ. unfold increment_position. wp_step. wp_step.
  pose proof (unread_lt _ _ _ Hu). destruct (Nat.leb_spec (size s) (position s)); [lia|].
  wp_step. by rewrite skip_1.
Qed.

Lemma wp_expected c t (Q : unit → HttpScanner → Prop) s :
  unread (c :: t) s → Q tt (skip 1 s) → wp ub (scan_expected c) Q X s.
Proof.
  intros Hu HQ. unfold scan_expected. wp_step. eapply wp_unread_char; [done|].
  rewrite Z.eqb_refl. by eapply wp_next.
Qed.

(** [scan_optional]: what it leaves on the stack does not matter. *)
Lemma wp_optional c d t (Q : bool → HttpScanner → Prop) s :
  unread (d :: t) s →
  (d = c → ∀ l, Q true (set_saved_text_cursors l (skip 1 s))) → (d ≠ c → Q false s) →
  wp ub (scan_optional c) Q X s.
Proof.
  intros Hu Ht Hf. unfold scan_optional, save, revert. wp_step. wp_step. wp_step.
  eapply (wp_unread_char d t); [by eapply unread_same; [done|done|done|done|destruct Hu as [[]]]|].
  destruct (Z.eqb_spec d c) as [->|Hne].
  - wp_step. eapply (wp_next c t).
    { by eapply unread_same; [done|done|done|done|destruct Hu as [[]]]. }
    wp_step. by apply (Ht eq_refl).
  - repeat wp_step. simpl. repeat wp_step. specialize (Hf Hne). by destruct s.
Qed.
End text_rules.

(** A value without NUL is the text of the token. *)
Lemma no_nul_c_string w : Forall (λ c, c ≠ 0%Z) w → c_string w = w.
Proof.
  intros Hw. unfold c_string, c_str. apply forallb_take_while. apply forallb_forall.
  intros x Hx. apply negb_true_iff, Z.eqb_neq. intros <-.
  by eapply list.Forall_forall in Hw; [|by apply list_elem_of_In].
Qed.

(** A token of [w], started where it begins. *)
Lemma token_text_skip w t s :
  unread (w ++ t) s →
  token_text (skip (length w) (set_start_position (position s) s)) = w.
Proof.
  intros [_ _ [tail Ht]]. unfold token_text, substr. simpl.
  replace (position s + length w - position s)%nat with (length w) by lia.
  by rewrite Ht, <- app_assoc, take_app_length.
Qed.

(** ** Paths and queries *)

(** The characters that stand for themselves. *)
Definition plain_pchar (c : Z) : bool :=
  is_unreserverd_char c || is_sub_delimiter c || (c =? Character.Colon)%Z || (c =? Character.At)%Z.

(** A text of such characters, percent-encoded ones and some [extra] ones. *)
Fixpoint pchars (extra : Z → bool) (w : list Z) : bool :=
  match w with
  | [] => true
  | c :: w' =>
      if (c =? Character.Percent)%Z then
        match w' with
        | h1 :: h2 :: w'' => isxdigit h1 && isxdigit h2 && pchars extra w''
        | _ => false
        end
      else (plain_pchar c || extra c) && pchars extra w'
  end.

(** A character that ends such a text. *)
Definition ends_pchars (extra : Z → bool) (c : Z) : bool :=
  negb (plain_pchar c || extra c) && negb (c =? Character.Percent)%Z.

Lemma plain_not_percent c : plain_pchar c = true → (c =? Character.Percent)%Z = false.
Proof. intros Hc. apply Z.eqb_neq. intros ->. done. Qed.

Section pchar_rules.
Context (ub : Prop) (X : exn → HttpScanner → Prop).

Lemma wp_plain c (Q : bool → HttpScanner → Prop) s :
  (c =? Character.Percent)%Z = false → Q (plain_pchar c) s → wp ub (is_pchar c) Q X s.
Proof.
  intros Hc HQ. unfold is_pchar, plain_pchar in *. rewrite Hc.
  destruct (is_unreserverd_char c), (is_sub_delimiter c), (c =? Character.Colon)%Z,
    (c =? Character.At)%Z; by wp_step.
Qed.

Lemma wp_hex c h t (Q : unit → HttpScanner → Prop) s :
  unread (c :: h :: t) s → isxdigit h = true → Q tt (skip 1 s) → wp ub scan_hex_digit Q X s.
Proof.
  intros Hu Hh HQ. unfold scan_hex_digit. wp_step. eapply wp_next; [done|]. wp_step.
  eapply wp_unread_char; [by eapply unread_cons|]. rewrite Hh. by wp_step.
Qed.

Lemma wp_percent c h1 h2 t (Q : bool → HttpScanner → Prop) s :
  unread (c :: h1 :: h2 :: t) s → (c =? Character.Percent)%Z = true →
  isxdigit h1 = true → isxdigit h2 = true → Q true (skip 2 s) → wp ub (is_pchar c) Q X s.
Proof.
  intros Hu ->%Z.eqb_eq Hh1 Hh2 HQ. unfold is_pchar. simpl. wp_step.
  eapply wp_hex; [done..|]. wp_step. eapply wp_hex; [by eapply unread_cons|done|].
  wp_step. by rewrite skip_skip.
Qed.
End pchar_rules.

Section pchars_text.
Context (ub : Prop) (X : exn → HttpScanner → Prop) (extra : Z → bool).

(** The character at the position, when [c] follows [w]. *)
Lemma unread_head w c t s :
  unread (w ++ c :: t) s → ∃ t', unread (default c (head w) :: t') s.
Proof. destruct w as [|d w]; by eexists. Qed.

(** The end of an iteration: the next character is read. *)
Lemma next_pchar {B} d w c t (K : Z + B → HttpScanner → Prop) s :
  unread (d :: w ++ c :: t) s → K (inl (default c (head w))) (skip 1 s) →
  wp ub (increment_position;; ch ← current_char; mret (inl ch)) K X s.
Proof.
  intros Hu HK. wp_step. eapply wp_next; [done|]. wp_step.
  destruct (unread_head _ _ _ _ (unread_cons _ _ _ Hu)) as [t' Ht']. eapply wp_unread_char; [done|].
  by wp_step.
Qed.

Lemma scan_pchars_text w c t (Q : unit → HttpScanner → Prop) s :
  unread (w ++ c :: t) s → pchars extra w = true → ends_pchars extra c = true →
  Q tt (skip (length w) s) → wp ub (scan_pchars extra) Q X s.
Proof.
  intros Hu Hw Hc HQ. unfold scan_pchars, scan_loop. wp_step.
  destruct (unread_head _ _ _ _ Hu) as [t0 Ht0]. eapply wp_unread_char; [done|]. wp_step. wp_step.
  assert (Hf : (length w < scan_fuel s)%nat).
  { destruct Hu as [_ Hs _]. unfold scan_fuel. rewrite Hs, length_app. simpl. lia. }
  clear t0 Ht0. revert Hf. generalize (scan_fuel s). intros fuel.
  revert w s Hu Hw HQ. induction fuel as [|fuel IH]; intros w s Hu Hw HQ Hf; [lia|].
  cbn [loop]. wp_step. wp_step. wp_step.
  destruct (unread_head _ _ _ _ Hu) as [t1 Ht1]. pose proof (unread_lt _ _ _ Ht1).
  destruct (Nat.ltb_spec (position s) (size s)); [cbn [negb]|lia]. wp_step.
  destruct w as [|d w]; [|simpl in Hw; destruct (d =? Character.Percent)%Z eqn:Hd].
  - unfold ends_pchars in Hc. apply andb_prop in Hc as [Hc Hp]. bool_hyps.
    apply wp_plain; [by apply Z.eqb_neq|]. simpl.
    replace (plain_pchar c || extra c) with false by (symmetry; by apply orb_false_intro).
    repeat wp_step. simpl in HQ. by rewrite skip_0 in HQ.
  - destruct w as [|h1 [|h2 w]]; try done. bool_hyps. simpl.
    eapply wp_percent; [exact Hu|by apply Z.eqb_eq|done..|]. simpl.
    apply (next_pchar h2 w c t); [by do 2 apply unread_cons in Hu; rewrite skip_skip in Hu|].
    rewrite skip_skip. apply IH; [|done| |simpl in Hf; lia].
    + do 3 apply unread_cons in Hu. by rewrite !skip_skip in Hu.
    + by rewrite skip_skip.
  - apply andb_prop in Hw as [Hdx Hw]. simpl. apply wp_plain; [done|]. rewrite Hdx.
    apply (next_pchar d w c t); [done|].
    apply IH; [by apply unread_cons in Hu|done|by rewrite skip_skip|simpl in Hf; lia].
Qed.
End pchars_text.

(** ** The request line *)

Definition method_texts : list (HttpMethod.t * ustring) :=
  [(HttpMethod.Get, u "GET"); (HttpMethod.Post, u "POST"); (HttpMethod.Put, u "PUT");
   (HttpMethod.Delete, u "DELETE"); (HttpMethod.Patch, u "PATCH"); (HttpMethod.Head, u "HEAD");
   (HttpMethod.Connect, u "CONNECT"); (HttpMethod.Options, u "OPTIONS");
   (HttpMethod.Trace, u "TRACE")].

Definition path_ok (w : list Z) : Prop := ∃ w', w = Character.Slash :: w' ∧ pchars is_slash w' = true.

Definition is_query_extra (c : Z) : bool := is_slash c || is_question c.

Definition query_ok (w : list Z) : Prop :=
  w = [] ∨ ∃ w', w = Character.Question :: w' ∧ pchars is_query_extra w' = true.

Lemma in_method_texts m w :
  (m, w) ∈ method_texts → ∃ c w', w = c :: w' ∧ ∀ ub (X : exn → HttpScanner → Prop) Q t s,
    unread (w ++ t) s → Q m (skip (length w) s) → wp ub scan_method_name Q X s.
Proof.
  intros Hin. unfold method_texts in Hin.
  repeat (apply elem_of_cons in Hin as [[= -> ->]|Hin]); [..|by apply not_elem_of_nil in Hin];
    (eexists; eexists; split; [reflexivity|]); intros ub X Q t s Hu HQ;
    unfold scan_method_name; wp_step; (eapply wp_unread_char; [exact Hu|]); simpl;
    unfold advance_position; repeat wp_step; try exact HQ;
    (eapply wp_next; [exact Hu|]); wp_step; (eapply wp_unread_char; [by apply unread_cons in Hu|]); simpl;
    repeat wp_step;
    (eapply (eq_ind _ (Q _)); [exact HQ|]); unfold skip; simpl; by rewrite <- Nat.add_assoc.
Qed.

Lemma isxdigit_not_nul c : isxdigit c = true → c ≠ 0%Z.
Proof. by intros ? ->. Qed.

Lemma pchars_no_nul extra w :
  extra 0%Z = false → pchars extra w = true → Forall (λ c, c ≠ 0%Z) w.
Proof.
  intros He. remember (length w) as n eqn:Hn. revert w Hn.
  induction (lt_wf n) as [n _ IH]. intros [|c w] -> Hw; [done|]. simpl in Hw.
  destruct (Z.eqb_spec c Character.Percent) as [->|].
  - destruct w as [|h1 [|h2 w]]; try done. bool_hyps.
    do 2 (constructor; [done || by apply isxdigit_not_nul|]).
    constructor; [by apply isxdigit_not_nul|]. eapply IH; [|done|done]. simpl; lia.
  - apply andb_prop in Hw as [Hc Hw]. constructor; [|eapply IH; [|done|done]; simpl; lia].
    intros ->. simpl in Hc. by rewrite He in Hc.
Qed.

Section request_line.
Context (ub : Prop) (X : exn → HttpScanner → Prop).

Lemma scan_method_text m w c t (Q : HttpMethod.t → HttpScanner → Prop) s :
  (m, w) ∈ method_texts → unread (w ++ c :: t) s → Q m (skip (length w) s) →
  wp ub scan_method Q X s.
Proof.
  intros (? & ? & _ & Hm)%in_method_texts Hu HQ. unfold scan_method. wp_step.
  eapply Hm; [done|]. wp_step. wp_step. pose proof (unread_lt _ _ _ (unread_skip _ _ _ Hu)).
  destruct (Nat.leb_spec (size (skip (length w) s)) (position (skip (length w) s))); [lia|].
  by wp_step.
Qed.

(** The text scanned since the start of the token, behind it [t]. *)
Lemma token_value w t (Q : ustring → HttpScanner → Prop) s s' :
  unread (w ++ t) s → Forall (λ c, c ≠ 0%Z) w →
  position s' = (position s + length w)%nat → start_position s' = position s →
  text s' = text s → size s' = size s →
  (unread t s' → Q w s') → wp ub get_token_value Q X s'.
Proof.
  intros Hu Hw Hp Hst Htx Hsz HQ.
  assert (Hu' : unread t s').
  { eapply unread_same; [by eapply unread_skip|..]; simpl; try done. lia. }
  apply wp_get_token_value; [by destruct Hu'|].
  assert (token_text s' = w) as ->; [|rewrite no_nul_c_string by done; by apply HQ].
  etrans; [|by apply (token_text_skip _ t)]. unfold token_text. by rewrite Hp, Hst, Htx.
Qed.

Lemma unread_start t s : unread t s → unread t (set_start_position (position s) s).
Proof. intros Hu. by eapply unread_same. Qed.

Lemma scan_absolute_path_text w c t (Q : ustring → HttpScanner → Prop) s :
  path_ok w → ends_pchars is_slash c = true → unread (w ++ c :: t) s →
  (∀ s', unread (c :: t) s' → Q w s') → wp ub scan_absolute_path Q X s.
Proof.
  intros (w' & -> & Hw) Hc Hu HQ. pose proof (unread_start _ _ Hu) as Hst.
  unfold scan_absolute_path, set_token_start_position. wp_step. wp_step. wp_step.
  eapply wp_expected; [exact Hst|]. wp_step.
  eapply scan_pchars_text; [by apply unread_cons in Hst|done|done|].
  rewrite skip_skip. eapply token_value; [exact Hu|..]; try done; [|by apply HQ].
  constructor; [done|]. by apply (pchars_no_nul is_slash).
Qed.

Lemma scan_query_text w c t (Q : ustring → HttpScanner → Prop) s :
  query_ok w → ends_pchars is_query_extra c = true → c ≠ Character.Question →
  unread (w ++ c :: t) s →
  (∀ s', unread (c :: t) s' → Q w s') → wp ub scan_query Q X s.
Proof.
  intros Hw Hc Hq Hu HQ. pose proof (unread_start _ _ Hu) as Hst.
  unfold scan_query, set_token_start_position, next_char_is. wp_step. wp_step. wp_step.
  destruct Hw as [->|(w' & -> & Hw)].
  - eapply wp_optional; [exact Hst|done|intros _]. do 2 wp_step.
    eapply (token_value []); [exact Hu|..]; try done; by apply HQ.
  - eapply wp_optional; [exact Hst|intros _ l|done]. wp_step.
    apply unread_cons in Hst. eapply scan_pchars_text; [|done|done|].
    { eapply unread_same; [exact Hst|done..|]. simpl; lia. }
    eapply token_value; [exact Hu|..]; try done; [|simpl; lia|by apply HQ].
    constructor; [done|]. by apply (pchars_no_nul is_query_extra).
Qed.

Lemma scan_http_version_text (v : list Z) c t (Q : RequestLineToken.t → HttpScanner → Prop) s :
  length v = 7%nat → unread (Character.H :: v ++ c :: t) s →
  (∀ s', unread (c :: t) s' → Q RequestLineToken.HttpVersion1_1 s') →
  wp ub scan_http_version Q X s.
Proof.
  intros Hv Hu HQ. unfold scan_http_version, advance_position. wp_step.
  eapply wp_expected; [exact Hu|]. apply unread_cons in Hu. apply (unread_skip v) in Hu. rewrite Hv in Hu.
  wp_step. wp_step. wp_step. eapply wp_unread_char; [exact Hu|]. wp_step. by apply HQ.
Qed.
End request_line.

(** ** Header lines *)

(** A field value as the scanner reads it: visible characters, and blanks
    between two of them; the second of the two does not count as the first of
    the next pair. *)
Inductive field_value : list Z → Prop :=
  | field_value_nil : field_value []
  | field_value_char c l : is_vchar c = true → field_value l → field_value (c :: l)
  | field_value_blanks c b bs d l :
      is_vchar c = true → is_blank b = true → forallb is_blank bs = true → is_vchar d = true →
      field_value l → field_value (c :: b :: bs ++ d :: l).

Lemma field_value_chars w v :
  forallb is_vchar w = true → field_value v → field_value (w ++ v).
Proof.
  induction w as [|c w IH]; simpl; [done|]. intros [Hc Hw]%andb_prop Hv.
  apply field_value_char; auto.
Qed.

Lemma vchar_range c : is_vchar c = true → (33 ≤ c ≤ 126)%Z.
Proof. unfold is_vchar, Character.Exclamation, Character.Tilde. intros Hc. bool_hyps. lia. Qed.

Lemma vchar_not_blank c : is_vchar c = true → is_blank c = false.
Proof.
  intros Hc%vchar_range. unfold is_blank, Character.Space, Character.HorizontalTab.
  apply orb_false_intro; apply Z.eqb_neq; lia.
Qed.

Lemma blank_range c : is_blank c = true → (c = 32 ∨ c = 9)%Z.
Proof.
  unfold is_blank, Character.Space, Character.HorizontalTab. rewrite orb_true_iff, !Z.eqb_eq. lia.
Qed.

Section blanks.
Context (ub : Prop) (X : exn → HttpScanner → Prop).

Lemma scan_while_text p w c t (Q : unit → HttpScanner → Prop) s :
  unread (w ++ c :: t) s → forallb p w = true → p c = false →
  Q tt (skip (length w) s) → wp ub (scan_while p) Q X s.
Proof.
  intros Hu Hw Hc HQ. unfold scan_while, scan_loop. wp_step. wp_step.
  assert (Hf : (length w < scan_fuel s)%nat).
  { destruct Hu as [_ Hs _]. unfold scan_fuel. rewrite Hs, length_app. simpl. lia. }
  revert Hf. generalize (scan_fuel s). intros fuel.
  revert w s Hu Hw HQ. induction fuel as [|fuel IH]; intros w s Hu Hw HQ Hf; [lia|].
  cbn [loop]. wp_step. wp_step. wp_step.
  destruct (unread_head _ _ _ _ Hu) as [t1 Ht1]. pose proof (unread_lt _ _ _ Ht1).
  destruct (Nat.ltb_spec (position s) (size s)); [cbn [negb]|lia]. wp_step.
  eapply wp_unread_char; [exact Ht1|]. destruct w as [|d w]; simpl in *.
  - rewrite Hc. repeat wp_step. by rewrite skip_0 in HQ.
  - apply andb_prop in Hw as [-> Hw]. wp_step. eapply wp_next; [exact Hu|]. wp_step.
    apply (IH w); [by apply unread_cons in Hu|done|by rewrite skip_skip|lia].
Qed.

Lemma skip_blanks_text b bs d t (Q : unit → HttpScanner → Prop) s :
  unread (b :: bs ++ d :: t) s → forallb is_blank bs = true → is_blank d = false →
  Q tt (skip (S (length bs)) s) → wp ub skip_blanks Q X s.
Proof.
  intros Hu Hbs Hd HQ. unfold skip_blanks, scan_loop. wp_step. eapply wp_next; [exact Hu|].
  apply unread_cons in Hu. rewrite <- (Nat.add_1_l (length bs)), <- skip_skip in HQ.
  revert Hu HQ. generalize (skip 1 s). clear s. intros s Hu HQ.
  destruct (unread_head _ _ _ _ Hu) as [t0 Ht0]. wp_step. eapply wp_unread_char; [exact Ht0|].
  wp_step. wp_step. assert (Hf : (length bs < scan_fuel s)%nat).
  { destruct Hu as [_ Hs _]. unfold scan_fuel. rewrite Hs, length_app. simpl. lia. }
  clear t0 Ht0. revert Hf. generalize (scan_fuel s). intros fuel.
  revert bs s Hu Hbs HQ. induction fuel as [|fuel IH]; intros bs s Hu Hbs HQ Hf; [lia|].
  cbn [loop]. wp_step. wp_step. wp_step.
  destruct (unread_head _ _ _ _ Hu) as [t1 Ht1]. pose proof (unread_lt _ _ _ Ht1).
  destruct (Nat.ltb_spec (position s) (size s)); [cbn [andb]|lia].
  destruct bs as [|e bs]; simpl in *.
  - rewrite Hd. repeat wp_step. by rewrite skip_0 in HQ.
  - apply andb_prop in Hbs as [-> Hbs]. wp_step. eapply wp_next; [exact Hu|]. wp_step.
    apply unread_cons in Hu. destruct (unread_head _ _ _ _ Hu) as [t2 Ht2].
    eapply wp_unread_char; [exact Ht2|]. wp_step. apply (IH bs); [done|done|by rewrite skip_skip|lia].
Qed.
End blanks.

Section field_content.
Context (ub : Prop) (X : exn → HttpScanner → Prop).

(** The state between [save] and [revert]. *)
Lemma unread_saved l t s : unread t s → unread t (set_saved_text_cursors l s).
Proof. intros Hu. eapply unread_same; [done..|]. by destruct Hu as [[]]. Qed.

(** A visible character without a blank behind it. *)
Lemma field_content_char c d t (Q : bool → HttpScanner → Prop) s :
  unread (c :: d :: t) s → is_vchar c = true → is_blank d = false →
  (∀ l, Q true (set_saved_text_cursors l (skip 1 s))) → wp ub scan_field_content Q X s.
Proof.
  intros Hu Hc Hd HQ. unfold scan_field_content, save. wp_step. wp_step. wp_step.
  eapply wp_unread_char; [by apply unread_saved|]. rewrite Hc. cbn [orb negb]. wp_step.
  eapply wp_next; [by apply unread_saved|]. wp_step.
  eapply wp_unread_char; [by eapply unread_cons, unread_saved|]. rewrite Hd. cbn [negb]. wp_step.
  apply HQ.
Qed.

(** Two visible characters with blanks between them. *)
Lemma field_content_blanks c b bs d t (Q : bool → HttpScanner → Prop) s :
  unread (c :: b :: bs ++ d :: t) s → is_vchar c = true → is_blank b = true →
  forallb is_blank bs = true → is_vchar d = true →
  (∀ l, Q true (set_saved_text_cursors l (skip (length bs + 3) s))) →
  wp ub scan_field_content Q X s.
Proof.
  intros Hu Hc Hb Hbs Hd HQ. unfold scan_field_content, save. wp_step. wp_step. wp_step.
  eapply wp_unread_char; [by apply unread_saved|]. rewrite Hc. cbn [orb negb]. wp_step.
  eapply wp_next; [by apply unread_saved|]. wp_step.
  eapply wp_unread_char; [by eapply unread_cons, unread_saved|]. rewrite Hb. cbn [negb]. wp_step.
  apply unread_cons in Hu.
  eapply skip_blanks_text; [exact (unread_saved _ _ _ Hu)|done|by apply vchar_not_blank|].
  apply (unread_skip (b :: bs)) in Hu. wp_step.
  eapply wp_unread_char; [exact (unread_saved _ _ _ Hu)|]. rewrite Hd. cbn [negb]. wp_step.
  eapply wp_next; [exact (unread_saved _ _ _ Hu)|]. wp_step.
  replace (length bs + 3)%nat with (1 + (S (length bs) + 1))%nat in HQ by lia.
  rewrite <- !skip_skip in HQ. exact (HQ
    (mkSavedTextCursor (position s) (start_position s) (end_position s) :: saved_text_cursors s)).
Qed.

(** No field content: the position stays. *)
Lemma field_content_none c t (Q : bool → HttpScanner → Prop) s :
  unread (c :: t) s → is_vchar c = false → is_obs_text c = false → Q false s →
  wp ub scan_field_content Q X s.
Proof.
  intros Hu Hc Ho HQ. unfold scan_field_content, save, revert. wp_step. wp_step. wp_step.
  eapply wp_unread_char; [by apply unread_saved|]. rewrite Hc, Ho. simpl. repeat wp_step.
  simpl. repeat wp_step. by destruct s.
Qed.

(** A value that ends with blanks and one visible character: the scanner stops
    behind it also in front of a blank. *)
Definition closed (v : list Z) : Prop :=
  v = [] ∨ ∃ p b d, v = p ++ [b; d] ∧ is_blank b = true.

Lemma closed_app w d v : closed (w ++ d :: v) → is_blank d = false → v = [] ∨ closed v.
Proof.
  intros [Hv|(p & b & e & Hv & Hb)] Hd; [by destruct w|].
  destruct v as [|x v] using rev_ind; [by left|right]. clear IHv. right.
  change [b; e] with ([b] ++ [e]) in Hv. rewrite app_comm_cons, !app_assoc in Hv.
  apply app_inj_tail in Hv as [Hv ->].
  destruct v as [|y v] using rev_ind; [|clear IHv].
  - apply app_inj_tail in Hv as [_ ->]. congruence.
  - rewrite app_comm_cons, app_assoc in Hv. apply app_inj_tail in Hv as [_ ->].
    exists v, b, e. by rewrite <- app_assoc.
Qed.

Lemma scan_header_value_text v c t (Q : unit → HttpScanner → Prop) s :
  field_value v → unread (v ++ c :: t) s → is_vchar c = false → is_obs_text c = false →
  (closed v ∨ is_blank c = false) →
  (∀ l, Q tt (set_saved_text_cursors l (skip (length v) s))) → wp ub scan_header_value Q X s.
Proof.
  intros Hv Hu Hc Ho Hb HQ. unfold scan_header_value, scan_loop. wp_step. wp_step.
  assert (Hf : (length v < scan_fuel s)%nat).
  { destruct Hu as [_ Hs _]. unfold scan_fuel. rewrite Hs, length_app. simpl. lia. }
  revert Hf. generalize (scan_fuel s). intros fuel.
  revert v s Hv Hu HQ Hb. induction fuel as [|fuel IH]; intros v s Hv Hu HQ Hb Hf; [lia|].
  cbn [loop]. wp_step. wp_step. wp_step.
  destruct (unread_head _ _ _ _ Hu) as [t1 Ht1]. pose proof (unread_lt _ _ _ Ht1).
  destruct (Nat.ltb_spec (position s) (size s)); [cbn [negb]|lia]. wp_step.
  destruct Hv as [|d v Hd Hv|d b bs e v Hd Hbl Hbs He Hv]; simpl in *.
  - eapply field_content_none; [exact Hu|done..|]. wp_step. eapply wp_unread_char; [exact Hu|].
    rewrite Ho. repeat wp_step. specialize (HQ (saved_text_cursors s)). rewrite skip_0 in HQ.
    by destruct s.
  - assert (Hne : v = [] ∨ is_blank (default c (head v)) = false).
    { destruct Hv as [|? ? Hx|]; [by left|right; by apply vchar_not_blank..]. }
    assert (Hcl : (v ≠ [] ∧ closed v) ∨ is_blank c = false).
    { destruct Hb as [Hb|Hb]; [left|by right]. split.
      - intros ->. destruct Hb as [|([|? [|??]] & ? & ? & ? & ?)]; done.
      - apply (closed_app []) in Hb as [->|]; [by left|done|by apply vchar_not_blank]. }
    assert (is_blank (default c (head v)) = false) as Hnb
      by (destruct Hne as [->|]; [by destruct Hcl as [[]|]|done]).
    assert (∃ t2, unread (d :: default c (head v) :: t2) s) as [t2 Ht2].
    { destruct v; eexists; exact Hu. }
    pose proof (unread_cons _ _ _ Hu) as Hu'.
    eapply (field_content_char d (default c (head v))).
    + exact Ht2.
    + done.
    + done.
    + intros l. wp_step.
      apply (IH v); [done|by apply unread_saved| |by destruct Hcl as [[]|]; [left|right]|lia].
      intros l'. specialize (HQ l'). by rewrite <- (skip_skip 1) in HQ.
  - assert (Hcl : closed v ∨ is_blank c = false).
    { destruct Hb as [Hb|Hb]; [left|by right].
      apply (closed_app (d :: b :: bs)) in Hb as [->|]; [by left|done|by apply vchar_not_blank]. }
    eapply field_content_blanks.
    + rewrite <- app_assoc in Hu. exact Hu.
    + done.
    + done.
    + done.
    + done.
    + assert (Hu' : unread (v ++ c :: t) (skip (length bs + 3) s)).
      { replace (length bs + 3)%nat with (length (d :: b :: bs ++ [e]))
          by (simpl; rewrite length_app; simpl; lia).
        apply unread_skip. simpl. by rewrite <- !app_assoc in Hu |- *. }
      intros l. wp_step. apply (IH v); [done|by apply unread_saved| |done|].
      * intros l'. specialize (HQ l'). rewrite length_app in HQ. simpl in HQ.
        replace (S (S (length bs + S (length v)))) with (length bs + 3 + length v)%nat in HQ by lia.
        by rewrite <- skip_skip in HQ.
      * rewrite length_app in Hf. simpl in Hf. lia.
Qed.
End field_content.

Definition crlf : list Z := [Character.CarriageReturn; Character.NewLine].

Definition header_name (n : list Z) : Prop :=
  ∃ c n', n = c :: n' ∧ is_header_field_start c = true ∧ forallb is_header_field_part n' = true.

Definition header_ok (h : list Z * list Z) : Prop := header_name h.1 ∧ field_value h.2.

Definition header_line (h : list Z * list Z) : list Z :=
  h.1 ++ [Character.Colon; Character.Space] ++ h.2 ++ crlf.

Lemma field_start_part c : is_header_field_start c = true → is_header_field_part c = true.
Proof. unfold is_header_field_part, is_header_field_start. by intros ->. Qed.

Lemma field_part_not_nul c : is_header_field_part c = true → c ≠ 0%Z.
Proof. by intros ? ->. Qed.

Lemma forallb_Forall {A} (f : A → bool) (P : A → Prop) l :
  (∀ x, f x = true → P x) → forallb f l = true → Forall P l.
Proof.
  intros HP. induction l as [|x l IH]; simpl; [done|]. intros [??]%andb_prop. constructor; auto.
Qed.

Lemma field_value_no_nul v : field_value v → Forall (λ c, c ≠ 0%Z) v.
Proof.
  assert (Hv : ∀ c, is_vchar c = true → c ≠ 0%Z) by (intros c ?%vchar_range; lia).
  assert (Hb : ∀ c, is_blank c = true → c ≠ 0%Z) by (intros c ?%blank_range; lia).
  induction 1; auto. constructor; [auto|]. constructor; [auto|].
  apply list.Forall_app. split; [by eapply forallb_Forall|]. constructor; auto.
Qed.

Lemma tolower_not_nul c : c ≠ 0%Z → tolower c ≠ 0%Z.
Proof.
  unfold tolower, isupper, Character.A, Character.Z. intros Hc.
  destruct ((_ <=? c) && (c <=? _))%Z eqn:E; [bool_hyps; lia|done].
Qed.

Lemma get_header_not_end ch : get_header ch ≠ HttpHeader.End.
Proof.
  unfold get_header. destruct (find ch string_to_token) as [h|] eqn:E; [|done].
  apply find_Some_elem in E. intros ->.
  assert (Hall : forallb (λ entry, bool_decide (entry.2 ≠ HttpHeader.End)) string_to_token = true)
    by reflexivity.
  rewrite forallb_forall in Hall. apply list_elem_of_In in E. apply Hall in E.
  by apply bool_decide_eq_true in E.
Qed.

Section header_lines.
Context (ub : Prop) (X : exn → HttpScanner → Prop).

Lemma wp_expected_saved c t l (Q : unit → HttpScanner → Prop) s :
  unread (c :: t) s → (∀ s', unread t s' → current_header s' = current_header s → Q tt s') →
  wp ub (scan_expected c) Q X (set_saved_text_cursors l s).
Proof.
  intros Hu HQ. eapply wp_expected; [by apply unread_saved|]. apply HQ; [|done].
  by eapply unread_cons, unread_saved.
Qed.

(** What [scan_header] does behind the name, the colon and a space. *)
Definition scan_value_of (header : HttpHeader.t) : M HttpScanner HttpHeader.t :=
  set_token_start_position;;
  scan_header_value;;
  value ← get_token_value;
  modify (set_current_header (Some value));;
  scan_optional Character.Space;;
  scan_expected Character.CarriageReturn;;
  scan_expected Character.NewLine;;
  mret header.

Lemma scan_header_named n t (Q : HttpHeader.t → HttpScanner → Prop) s :
  header_name n → unread (n ++ [Character.Colon; Character.Space] ++ t) s →
  (∀ s', unread t s' → wp ub (scan_value_of (get_header (map tolower n))) Q X s') →
  wp ub scan_header Q X s.
Proof.
  intros (c & n' & -> & Hc & Hn) Hu HQ.
  unfold scan_header, set_token_start_position. repeat wp_step.
  pose proof (unread_start _ _ Hu) as Hst. eapply wp_unread_char; [exact Hst|]. rewrite Hc. cbn [negb].
  wp_step. eapply (scan_while_text _ _ is_header_field_part (c :: n') Character.Colon);
    [exact Hst|simpl; by rewrite field_start_part|done|].
  pose proof (unread_skip (c :: n') _ _ Hst) as Hcolon. wp_step.
  apply wp_get_lower_cased_value; [by destruct Hcolon|].
  rewrite (token_text_skip (c :: n') ([Character.Colon; Character.Space] ++ t)) by done.
  rewrite no_nul_c_string; [cbv zeta|].
  2: { apply list.Forall_fmap, (forallb_Forall is_header_field_part);
       [intros x Hx; by apply tolower_not_nul, field_part_not_nul|].
       simpl. by rewrite field_start_part. }
  wp_step. eapply wp_expected; [exact Hcolon|]. apply unread_cons in Hcolon. wp_step.
  eapply wp_optional; [exact Hcolon|intros _ l|done]. apply unread_cons in Hcolon.
  apply HQ. by apply unread_saved.
Qed.

Lemma scan_header_text h t (Q : HttpHeader.t → HttpScanner → Prop) s :
  header_ok h → unread (header_line h ++ t) s →
  (∀ s', unread t s' → current_header s' = Some h.2 → Q (get_header (map tolower h.1)) s') →
  wp ub scan_header Q X s.
Proof.
  destruct h as [n v]. unfold header_ok, header_line. cbn [fst snd].
  intros [Hn Hv] Hu HQ. rewrite <- !app_assoc in Hu.
  eapply scan_header_named; [done|exact Hu|]. clear s Hu. intros s1 Hu1.
  unfold scan_value_of, set_token_start_position. repeat wp_step.
  pose proof (unread_start _ _ Hu1) as Hst1.
  eapply scan_header_value_text; [done|exact Hst1|done|done|by right|]. intros l. wp_step.
  eapply token_value; [exact Hu1|by apply field_value_no_nul|done..|]. intros Hu2. do 3 wp_step.
  assert (Hu3 : unread (crlf ++ t) (set_current_header (Some v) (set_saved_text_cursors l
    (skip (length v) (set_start_position (position s1) s1))))).
  { by eapply unread_same; [exact Hu2|done|done|done|destruct Hu2 as [[]]]. }
  eapply wp_optional; [exact Hu3|done|intros _]. wp_step.
  eapply wp_expected; [exact Hu3|]. apply unread_cons in Hu3. wp_step.
  eapply wp_expected; [exact Hu3|]. apply unread_cons in Hu3. wp_step. by apply HQ.
Qed.

Lemma scan_header_end t (Q : HttpHeader.t → HttpScanner → Prop) s :
  unread (crlf ++ t) s → (∀ s', unread t s' → Q HttpHeader.End s') → wp ub scan_header Q X s.
Proof.
  intros Hu HQ. unfold scan_header, set_token_start_position. repeat wp_step.
  pose proof (unread_start _ _ Hu) as Hst. eapply wp_unread_char; [exact Hst|]. simpl. wp_step.
  eapply wp_optional; [exact Hst|intros _ l|done]. wp_step.
  eapply wp_expected_saved; [by apply unread_cons in Hst|]. intros s' Hu' _. wp_step. by apply HQ.
Qed.
End header_lines.

(** ** Requests *)

Definition read_header (m : headers_map) (h : list Z * list Z) : headers_map :=
  insert_or_assign (get_header (map tolower h.1)) (Some h.2) m.

(** The headers of a list of lines: a later line overrides an earlier one. *)
Definition read_headers (hs : list (list Z * list Z)) : headers_map := fold_left read_header hs [].

Record request := mkRequest {
  rq_method : HttpMethod.t;
  rq_name : list Z;
  rq_path : list Z;
  rq_query : list Z;
  rq_headers : list (list Z * list Z);
  rq_body : list Z
}.

Definition request_line_text (r : request) : list Z :=
  rq_name r ++ [Character.Space] ++ rq_path r ++ rq_query r ++ [Character.Space]
  ++ u "HTTP/1.1" ++ crlf.

Definition request_text (r : request) : list Z :=
  request_line_text r ++ flat_map header_line (rq_headers r) ++ crlf ++ rq_body r.

Record request_ok (r : request) : Prop := {
  method_ok : (rq_method r, rq_name r) ∈ method_texts;
  rq_path_ok : path_ok (rq_path r);
  rq_query_ok : query_ok (rq_query r);
  headers_ok : Forall header_ok (rq_headers r)
}.

(** What [Parse] makes of it. *)
Definition request_read (r : request) : HttpRequest :=
  let headers_ := read_headers (rq_headers r) in
  let read h b := mkHttpRequest (rq_method r) (rq_path r) (rq_query r) h b in
  if decide (rq_method r = HttpMethod.Get) then read headers_ None
  else
    let '(value, headers_) := subscript HttpHeader.ContentLength headers_ in
    read headers_ (match value with
      | Some v => Some (c_string (take (Z.to_nat (atoll v mod 2 ^ 32)) (rq_body r)))
      | None => None
      end).

Section requests.
Context (ub : Prop) (X : exn → HttpScanner → Prop).

Lemma query_or_space r :
  query_ok (rq_query r) → ∃ c t, rq_query r ++ [Character.Space] = c :: t ∧
    ends_pchars is_slash c = true.
Proof. intros [->|(w & -> & _)]; by eexists _, _. Qed.

Lemma ParseRequestLine_text r t (Q : RequestLine → HttpScanner → Prop) s :
  request_ok r → unread (request_line_text r ++ t) s →
  (∀ s', unread t s' → Q (mkRequestLine (rq_method r) (rq_path r) (rq_query r)) s') →
  wp ub ParseRequestLine Q X s.
Proof.
  intros [Hm Hp Hq _] Hu HQ. unfold request_line_text in Hu. rewrite <- !app_assoc in Hu.
  unfold ParseRequestLine. wp_step.
  eapply scan_method_text; [done|exact Hu|]. apply unread_skip in Hu. wp_step.
  eapply wp_expected; [exact Hu|]. apply unread_cons in Hu. wp_step.
  destruct (query_or_space r Hq) as (c & t' & Hc & Hend).
  eapply scan_absolute_path_text; [done|exact Hend| |].
  { rewrite (app_assoc (rq_query r)), Hc in Hu. exact Hu. }
  intros s1 Hu1.
  replace (c :: t' ++ _) with (rq_query r ++ Character.Space :: u "HTTP/1.1" ++ crlf ++ t) in Hu1
    by (change (c :: t' ++ u "HTTP/1.1" ++ crlf ++ t) with ((c :: t') ++ u "HTTP/1.1" ++ crlf ++ t);
        rewrite <- Hc, <- app_assoc; reflexivity).
  wp_step. eapply scan_query_text; [done| | |exact Hu1|]; [done|done|]. intros s2 Hu2. wp_step.
  eapply wp_expected; [exact Hu2|]. apply unread_cons in Hu2. wp_step.
  eapply (scan_http_version_text _ _ (u "TTP/1.1")); [done|exact Hu2|]. intros s3 Hu3. wp_step.
  eapply wp_expected; [exact Hu3|]. apply unread_cons in Hu3. wp_step.
  eapply wp_expected; [exact Hu3|]. apply unread_cons in Hu3. wp_step. by apply HQ.
Qed.

Lemma parse_headers_text hs t (Q : headers_map → HttpScanner → Prop) s :
  Forall header_ok hs → unread (flat_map header_line hs ++ crlf ++ t) s →
  (∀ s', unread t s' → Q (read_headers hs) s') → wp ub parse_headers Q X s.
Proof.
  intros Hhs Hu HQ. unfold parse_headers, scan_loop. wp_step. wp_step.
  assert (Hf : (length hs < scan_fuel s)%nat).
  { assert (length hs ≤ length (flat_map header_line hs))%nat.
    { clear. induction hs as [|[n v] hs IH]; simpl; [lia|]. unfold header_line at 1.
      rewrite !length_app. simpl in *. lia. }
    destruct Hu as [_ Hs _]. unfold scan_fuel. rewrite Hs, length_app. lia. }
  unfold read_headers in HQ. revert Hf HQ. generalize (scan_fuel s). intros fuel.
  generalize (@nil (HttpHeader.t * option ustring)). intros m Hf HQ.
  revert hs m s Hf HQ Hhs Hu.
  induction fuel as [|fuel IH]; intros hs m s Hf HQ Hhs Hu; [lia|]. cbn [loop]. do 2 wp_step.
  destruct hs as [|h hs]; simpl in *.
  - eapply scan_header_end; [exact Hu|]. intros s1 Hu1. destruct (decide _); [|done].
    repeat wp_step. by apply HQ.
  - apply list.Forall_cons in Hhs as [Hh Hhs]. rewrite <- app_assoc in Hu.
    eapply scan_header_text; [done|exact Hu|]. intros s1 Hu1 Hv.
    destruct (decide _) as [He|]; [by apply get_header_not_end in He|].
    unfold get_header_value. repeat wp_step. rewrite Hv.
    apply (IH hs); [lia|exact HQ|done|done].
Qed.

Lemma take_unread t s : unread t s → substr (position s) (size s - position s) (text s) = t.
Proof.
  intros [_ Hs [tail Ht]]. unfold substr. rewrite Ht.
  replace (size s - position s)%nat with (length t) by lia. apply take_app_length.
Qed.

Lemma scan_body_text n t (Q : ustring → HttpScanner → Prop) s :
  unread t s → (∀ s', Q (c_string (take n t)) s') → wp ub (scan_body n) Q X s.
Proof.
  intros Hu HQ. eapply wp_mono; [apply (scan_body_spec _ X); by destruct Hu| |done].
  intros v s' (_ & _ & ->).
  assert (substr (position s) n (take (size s) (text s)) = take n t) as ->; [|by apply HQ].
  rewrite <- (take_unread t s Hu). unfold substr.
  rewrite skipn_firstn_comm. done.
Qed.

(** The whole request. *)
Lemma Parse_text r s :
  request_ok r → unread (request_text r) s → wp ub Parse (λ r' _, r' = request_read r) X s.
Proof.
  intros Hr Hu. unfold Parse. wp_step. eapply ParseRequestLine_text; [done|exact Hu|].
  intros s1 Hu1. wp_step. eapply parse_headers_text; [by destruct Hr|exact Hu1|]. intros s2 Hu2.
  unfold request_read. cbn [line_method line_path line_query]. cbv zeta.
  destruct (decide _); [by wp_step|].
  destruct (subscript _ _) as [[value|] headers_]; [|by wp_step].
  wp_step. eapply scan_body_text; [exact Hu2|]. intros s3. by wp_step.
Qed.
End requests.
