(* ===== verification/HttpProperties.v ===== *)
(** * Properties of the HTTP scanner and parser *)
From S2P Require Import Prelude Monad StdMap Character Cstring HttpHeaders HttpScanner HttpParser.
From S2P Require Import HttpSafety HttpText.

#[local] Arguments u : simpl never.

Definition request_buffer (request_ : list Z) (size_ : nat) : Prop :=
  (size_ + 8 ≤ length request_)%nat ∧ (Z.of_nat size_ < 2 ^ 31 - 1)%Z.

Lemma new_scanner_ok text_ size_ : request_buffer text_ size_ → http_ok (new_HttpScanner text_ size_).
Proof. intros []. split; simpl; lia. Qed.

Lemma new_scanner_unread t tail :
  request_buffer (t ++ tail) (length t) → unread t (new_HttpScanner (t ++ tail) (length t)).
Proof. intros Hb. split; [by apply new_scanner_ok|done|by exists tail]. Qed.

(** A buffer with eight bytes behind the request [t]. *)
Lemma padded_buffer t tail :
  (8 ≤ length tail)%nat → (Z.of_nat (length t) < 2 ^ 31 - 1)%Z →
  request_buffer (t ++ tail) (length t).
Proof. intros. split; [rewrite length_app; lia|done]. Qed.

(** C16: in a buffer with eight bytes behind the request, parsing any bytes
    terminates, reads inside the buffer and gives a request or a
    [std::logic_error]; the position stays inside the request. *)
Theorem parse_request_safe text_ size_ :
  request_buffer text_ size_ →
  wp False Parse
    (λ _ s', text s' = text_ ∧ size s' = size_ ∧ (position s' ≤ size_)%nat)
    (λ e _, ∃ what, e = std_logic_error what) (new_HttpScanner text_ size_).
Proof.
  intros Hb. eapply wp_mono; [by apply Parse_spec, new_scanner_ok| |done].
  intros r s' [Ht Hs _ Hok]. destruct Hok. simpl in *. split_and!; [done..|lia].
Qed.

(** Without the margin the scanner reads behind the buffer. *)
Example parse_request_overread :
  Parse (new_HttpScanner (u "GET / H") 7) = Undefined.
Proof. reflexivity. Qed.

Lemma parse_request_safe_witness :
  request_buffer (u "GET / HTTP/2" ++ replicate 8 0%Z) 12 ∧
  wp False Parse
    (λ _ s', text s' = u "GET / HTTP/2" ++ replicate 8 0%Z ∧ size s' = 12%nat ∧ (position s' ≤ 12)%nat)
    (λ e _, ∃ what, e = std_logic_error what)
    (new_HttpScanner (u "GET / HTTP/2" ++ replicate 8 0%Z) 12).
Proof.
  split; [by split; [apply Nat.leb_le|]|].
  apply parse_request_safe. by split; [apply Nat.leb_le|].
Defined.

(** C17: a request printed from a method, a path, a query, header lines and a
    body is parsed back: each header under its lower-cased name with its last
    value, and as the body the number of bytes the content length says. *)
Theorem parse_request_round_trip r tail :
  request_ok r → (8 ≤ length tail)%nat → (Z.of_nat (length (request_text r)) < 2 ^ 31 - 1)%Z →
  wp False Parse (λ r' _, r' = request_read r) (λ _ _, False)
    (new_HttpScanner (request_text r ++ tail) (length (request_text r))).
Proof.
  intros Hr Htail Hlen. apply Parse_text; [done|]. by apply new_scanner_unread, padded_buffer.
Qed.

Definition example_request : request :=
  mkRequest HttpMethod.Post (u "POST") (u "/graphql/%41") (u "?a=b")
    [(u "Host", u "localhost:8000"); (u "Content-Length", u "99"); (u "content-LENGTH", u "13");
     (u "X", u "a bc")] (u "{ query: {  }").

Lemma example_request_ok : request_ok example_request.
Proof.
  split.
  - by apply (list_elem_of_lookup_2 _ 1).
  - eexists. split; reflexivity.
  - right. eexists. split; reflexivity.
  - repeat (apply list.Forall_cons; split); [..|by apply list.Forall_nil];
      (split; [eexists _, _; repeat split|]); cbn [snd];
      try by repeat first [by apply field_value_nil | apply field_value_char; [reflexivity|]].
    apply (field_value_blanks Character.a Character.Space [] Character.b (u "c")); try done.
    by repeat first [by apply field_value_nil | apply field_value_char; [reflexivity|]].
Qed.

Lemma parse_request_round_trip_witness :
  request_read example_request =
    mkHttpRequest HttpMethod.Post (u "/graphql/%41") (u "?a=b")
      [(HttpHeader.Unknown, Some (u "a bc")); (HttpHeader.ContentLength, Some (u "13"));
       (HttpHeader.Host, Some (u "localhost:8000"))] (Some (u "{ query: {  }")) ∧
  wp False Parse (λ r' _, r' = request_read example_request) (λ _ _, False)
    (new_HttpScanner (request_text example_request ++ replicate 8 0%Z)
      (length (request_text example_request))).
Proof.
  split; [reflexivity|].
  apply parse_request_round_trip; [apply example_request_ok|simpl; lia|reflexivity].
Defined.

(** A header whose value has a word of one visible character between
    other words is rejected: the character ends one pair of visible characters
    and is not the start of the next. *)
Theorem lone_word_rejected n w a b1 c b2 x t s :
  header_name n → field_value w → is_vchar a = true → is_blank b1 = true →
  is_vchar c = true → is_blank b2 = true → x ≠ Character.CarriageReturn →
  unread (n ++ [Character.Colon; Character.Space] ++ (w ++ [a; b1; c]) ++ b2 :: x :: t) s →
  wp False scan_header (λ _ _, False)
    (λ e _, e = expected_character Character.CarriageReturn) s.
Proof.
  intros Hn Hw Ha Hb1 Hc Hb2 Hx Hu. set (v := w ++ [a; b1; c]) in *.
  assert (Hv : field_value v).
  { unfold v. clear v Hu. induction Hw as [|d l Hd _ IH|d b bs e l Hd Hb Hbs He _ IH]; simpl.
    - apply (field_value_blanks a b1 [] c []); try done. by apply field_value_nil.
    - by apply field_value_char.
    - rewrite <- app_assoc. by apply (field_value_blanks d b bs e). }
  assert (Hcl : closed v).
  { right. exists (w ++ [a]), b1, c. unfold v. by rewrite <- app_assoc. }
  eapply scan_header_named; [done|exact Hu|]. clear s Hu. intros s1 Hu1.
  unfold scan_value_of, set_token_start_position. repeat wp_step.
  pose proof (unread_start _ _ Hu1) as Hst1.
  assert (Hb2' : is_vchar b2 = false ∧ is_obs_text b2 = false ∧ b2 ≠ Character.CarriageReturn).
  { by apply blank_range in Hb2 as [-> | ->]. }
  destruct Hb2' as (Hv2 & Ho2 & Hcr2).
  eapply scan_header_value_text; [done|exact Hst1|done|done|by left|]. intros l. wp_step.
  eapply token_value; [exact Hu1|by apply field_value_no_nul|done..|]. intros Hu2. do 3 wp_step.
  assert (Hu3 : unread (b2 :: x :: t) (set_current_header (Some v) (set_saved_text_cursors l
    (skip (length v) (set_start_position (position s1) s1))))).
  { by eapply unread_same; [exact Hu2|done|done|done|destruct Hu2 as [[]]]. }
  eapply wp_optional; [exact Hu3|intros _ l'|intros _]; wp_step; unfold scan_expected; wp_step.
  - eapply wp_unread_char; [by apply unread_saved, (unread_cons b2)|].
    apply Z.eqb_neq in Hx as ->. by wp_step.
  - eapply wp_unread_char; [exact Hu3|]. apply Z.eqb_neq in Hcr2 as ->. by wp_step.
Qed.

Lemma lone_word_rejected_witness :
  wp False scan_header (λ _ _, False) (λ e _, e = expected_character Character.CarriageReturn)
    (new_HttpScanner (u "X: a b c" ++ crlf ++ replicate 8 0%Z) 10).
Proof.
  apply (lone_word_rejected (u "X") [] Character.a Character.Space Character.b Character.Space
    Character.c crlf); try done.
  - eexists _, _. by split.
  - by apply field_value_nil.
  - split; [by apply new_scanner_ok; split; [apply Nat.leb_le|]|done|by eexists].
Defined.

(** ** The names of headers *)

Definition websocket_headers : list HttpHeader.t :=
  [HttpHeader.SecWebSocketAccept; HttpHeader.SecWebSocketExtensions; HttpHeader.SecWebSocketKey;
   HttpHeader.SecWebSocketProtocol; HttpHeader.SecWebSocketVersion].

Lemma tolower_not_upper c : isupper (tolower c) = false.
Proof.
  unfold tolower. destruct (isupper c) eqn:E; [|done].
  unfold isupper, Character.A, Character.Z in *. apply andb_prop in E as [??]. bool_hyps.
  apply andb_false_intro2, Z.leb_gt. lia.
Qed.

Lemma map_tolower_not_upper n : existsb isupper (map tolower n) = false.
Proof. induction n as [|c n IH]; simpl; [done|]. by rewrite tolower_not_upper, IH. Qed.

(** Every name of the table finds its own entry, and the names of the
    [Sec-WebSocket] headers are not in lower case. *)
Lemma string_to_token_entries entry :
  entry ∈ string_to_token → find entry.1 string_to_token = Some entry.2 ∧
    (entry.2 ∈ websocket_headers ↔ existsb isupper entry.1 = true) ∧ entry.2 ≠ HttpHeader.Unknown.
Proof.
  intros Hin%list_elem_of_In.
  assert (Hall : forallb (λ entry,
    bool_decide (find entry.1 string_to_token = Some entry.2) &&
    Bool.eqb (bool_decide (entry.2 ∈ websocket_headers)) (existsb isupper entry.1) &&
    bool_decide (entry.2 ≠ HttpHeader.Unknown)) string_to_token = true) by (by vm_compute).
  rewrite forallb_forall in Hall. apply Hall in Hin. apply andb_prop in Hin as [Hin Hne].
  apply andb_prop in Hin as [Hf Hw]. apply bool_decide_eq_true in Hf, Hne.
  apply Bool.eqb_prop in Hw. split_and!; [done| |done]. rewrite <- Hw.
  by rewrite bool_decide_eq_true.
Qed.

(** A header name is looked up in lower case, and finds the header of
    that name in the table, except that no spelling finds one of the
    [Sec-WebSocket] headers, whose names in the table have a capital letter. *)
Theorem get_header_names n h :
  h ≠ HttpHeader.Unknown →
  get_header (map tolower n) = h ↔
    (map tolower n, h) ∈ string_to_token ∧ h ∉ websocket_headers.
Proof.
  intros Hh. unfold get_header. split.
  - destruct (find _ _) as [h'|] eqn:E; [intros <-|congruence].
    apply find_Some_elem in E. split; [done|]. intros Hw.
    apply string_to_token_entries in E as (_ & Hup & _). cbn [fst snd] in Hup.
    apply Hup in Hw. by rewrite map_tolower_not_upper in Hw.
  - intros [Hin _]. apply string_to_token_entries in Hin as (Hf & _). cbn [fst snd] in Hf.
    by rewrite Hf.
Qed.

Lemma get_header_names_witness :
  (get_header (map tolower (u "Sec-WebSocket-Key")) = HttpHeader.SecWebSocketKey ↔
    (map tolower (u "Sec-WebSocket-Key"), HttpHeader.SecWebSocketKey) ∈ string_to_token ∧
    HttpHeader.SecWebSocketKey ∉ websocket_headers) ∧
  get_header (map tolower (u "Sec-WebSocket-Key")) = HttpHeader.Unknown.
Proof. split; [by apply get_header_names|reflexivity]. Defined.
