(* ===== verification/HttpWriterProperties.v ===== *)
(** * Properties of the HTTP writer

    [stream] is the abstract view of a writer: the bytes its socket was given
    and the bytes in its buffer.  Every call appends its text to the stream,
    whatever the number of flushes. *)
From S2P Require Import Prelude Monad Character Cstring HttpHeaders HttpWriter.

#[local] Arguments u : simpl never.

(** The calls of a client of the writer. *)
Inductive call :=
  | CallWrite (texts : list (list Z))
  | CallWriteLine (texts : list (list Z))
  | CallWriteRequest (method : HttpMethod.t) (path : list Z).

Definition run_call {T} `{Transport T} (c : call) : M (HttpWriter T) unit :=
  match c with
  | CallWrite texts => WriteAll texts
  | CallWriteLine texts => WriteLine texts
  | CallWriteRequest method path => WriteRequest method path
  end.

Definition call_text (c : call) : list Z :=
  match c with
  | CallWrite texts => flat_map c_string texts
  | CallWriteLine texts => flat_map c_string texts ++ line_end
  | CallWriteRequest method path =>
      method_text method ++ c_string path ++ u " HTTP/1.1" ++ line_end
  end.

Section plain_writer.
Context {T : Type} `{Transport T}.

(** What the writer relies on: the socket takes every buffer while [uv_write]
    runs.  (libuv promises it only for a buffer that is left alone until the
    write is finished.) *)
Context (sent : T → list Z).
Context (uv_write_takes : ∀ bytes t,
  (0 ≤ (uv_write bytes t).1)%Z ∧ sent (uv_write bytes t).2 = sent t ++ bytes).

Record writer_ok (w : HttpWriter T) : Prop := {
  ok_plain : use_ssl w = false;
  ok_buffer : length (write_buffer w) = buffer_size;
  ok_position : (position w ≤ buffer_size)%nat
}.

Definition stream (w : HttpWriter T) : list Z :=
  sent (tcp_handle w) ++ take (position w) (write_buffer w).

Section rules.
Context (X : exn → HttpWriter T → Prop).

Lemma flush_spec (Q : unit → HttpWriter T → Prop) w :
  writer_ok w →
  (∀ w', writer_ok w' → position w' = 0%nat → stream w' = stream w → is_end w' = is_end w →
    Q tt w') → wp False FlushBuffer Q X w.
Proof.
  intros [Hp Hb Hpos] HQ. unfold FlushBuffer, WriteToSocket. wp_step. wp_step.
  destruct (Nat.eqb_spec (position w) 0) as [H0|H0]; [wp_step; by apply HQ|].
  rewrite Hp. do 4 wp_step.
  destruct (uv_write (take (position w) (write_buffer w)) (tcp_handle w)) as [r t] eqn:E.
  eapply wp_intro_ok; [unfold send; by rewrite E|]. do 2 wp_step.
  pose proof (uv_write_takes (take (position w) (write_buffer w)) (tcp_handle w)) as [_ Hs].
  rewrite E in Hs. simpl in Hs.
  apply HQ; [by split; simpl; [..|lia]|done| |done]. unfold stream. simpl.
  by rewrite Hs, app_nil_r.
Qed.

Lemma put_spec c (Q : unit → HttpWriter T → Prop) w :
  writer_ok w → (position w < buffer_size)%nat →
  (∀ w', writer_ok w' → stream w' = stream w ++ [c] → is_end w' = is_end w → Q tt w') →
  wp False (put c) Q X w.
Proof.
  intros [Hp Hb _] Hpos HQ. unfold put. wp_step. wp_step. rewrite Hb.
  destruct (Nat.ltb_spec (position w) buffer_size); [|lia]. repeat wp_step.
  apply HQ; [split; simpl; [done|by rewrite length_insert|lia]| |done].
  unfold stream. simpl. rewrite <- app_assoc. f_equal.
  rewrite (take_S_r _ _ c) by (apply list_lookup_insert_eq; lia). by rewrite take_insert_ge by lia.
Qed.

Lemma Write_spec text (Q : unit → HttpWriter T → Prop) w :
  writer_ok w →
  (∀ w', writer_ok w' → stream w' = stream w ++ c_string text → is_end w' = is_end w → Q tt w') →
  wp False (Write text) Q X w.
Proof.
  intros Hok HQ. unfold Write.
  apply (wp_for_each _ (λ l w', writer_ok w' ∧ is_end w' = is_end w ∧
    stream w ++ c_string text = stream w' ++ l)); [done| |].
  - intros c l w1 (Hok1 & He & Hs). wp_step. wp_step. apply wp_bind, wp_when; intros Hfull.
    + apply flush_spec; [done|]. intros w2 Hok2 H0 Hs2 He2.
      apply put_spec; [done|rewrite H0; unfold buffer_size; lia|]. intros w3 Hok3 Hs3 He3.
      split; [done|split; [congruence|]]. by rewrite Hs, Hs3, Hs2, <- app_assoc.
    + apply Nat.eqb_neq in Hfull. apply put_spec; [done|destruct Hok1; lia|].
      intros w3 Hok3 Hs3 He3. split; [done|split; [congruence|]].
      by rewrite Hs, Hs3, <- app_assoc.
  - intros w' (Hok' & He & Hs). apply HQ; [done| |done]. by rewrite Hs, app_nil_r.
Qed.

Lemma WriteAll_spec texts (Q : unit → HttpWriter T → Prop) w :
  writer_ok w →
  (∀ w', writer_ok w' → stream w' = stream w ++ flat_map c_string texts → is_end w' = is_end w →
    Q tt w') →
  wp False (WriteAll texts) Q X w.
Proof.
  intros Hok HQ. unfold WriteAll.
  apply (wp_for_each _ (λ l w', writer_ok w' ∧ is_end w' = is_end w ∧
    stream w ++ flat_map c_string texts = stream w' ++ flat_map c_string l)); [done| |].
  - intros text l w1 (Hok1 & He & Hs). apply Write_spec; [done|]. intros w2 Hok2 Hs2 He2.
    split; [done|split; [congruence|]]. by rewrite Hs, Hs2, <- app_assoc.
  - intros w' (Hok' & He & Hs). apply HQ; [done| |done]. by rewrite Hs, app_nil_r.
Qed.

Lemma c_string_method method : c_string (method_text method) = method_text method.
Proof. by destruct method. Qed.

Lemma run_call_spec c (Q : unit → HttpWriter T → Prop) w :
  writer_ok w →
  (∀ w', writer_ok w' → stream w' = stream w ++ call_text c → is_end w' = is_end w → Q tt w') →
  wp False (run_call c) Q X w.
Proof.
  intros Hok HQ. destruct c as [texts|texts|method path]; simpl.
  - by apply WriteAll_spec.
  - unfold WriteLine. wp_step. apply WriteAll_spec; [done|]. intros w1 Hok1 Hs1 He1.
    apply Write_spec; [done|]. intros w2 Hok2 Hs2 He2. apply HQ; [done| |congruence].
    by rewrite Hs2, Hs1, <- app_assoc.
  - unfold WriteRequest. wp_step. apply Write_spec; [done|]. intros w1 Hok1 Hs1 He1. wp_step.
    apply Write_spec; [done|]. intros w2 Hok2 Hs2 He2. apply Write_spec; [done|].
    intros w3 Hok3 Hs3 He3. apply HQ; [done| |congruence].
    rewrite Hs3, Hs2, Hs1, c_string_method, <- !app_assoc. reflexivity.
Qed.
End rules.

End plain_writer.

(** A socket that records what it is given. *)
#[local] Instance recording : Transport (list Z) := {|
  uv_write bytes t := (0%Z, t ++ bytes);
  SSL_write _ t := t;
  BIO_read _ t := ([], t);
  bio_pending _ := 0%nat
|}.


(** ** A failing socket *)

Lemma run_for_each_app {S A} (body : A → M S unit) l k s s' :
  iter_list body l s = Ok tt s' → iter_list body (l ++ k) s = iter_list body k s'.
Proof.
  revert s. induction l as [|x l IH]; intros s; simpl; [by intros [= ->]|].
  unfold mbind, M_bind. destruct (body x s); try done. apply IH.
Qed.

Section failing_socket.
Context {T : Type} `{Transport T}.

(** Every [uv_write] fails, and a write BIO that was written to is not empty. *)
Context (uv_write_fails : ∀ bytes t, ((uv_write bytes t).1 < 0)%Z).
Context (BIO_read_some : ∀ bytes t, (BIO_read bio_buffer_size (SSL_write bytes t)).1 ≠ []).

Let write_char (c : Z) : M (HttpWriter T) unit :=
  w ← get;
  when (position w =? buffer_size)%nat FlushBuffer;;
  put c.

Lemma fill_buffer l (w : HttpWriter T) :
  length (write_buffer w) = buffer_size → (position w + length l ≤ buffer_size)%nat →
  ∃ w', iter_list write_char l w = Ok tt w' ∧ use_ssl w' = use_ssl w ∧
    length (write_buffer w') = buffer_size ∧ position w' = (position w + length l)%nat.
Proof.
  revert w. induction l as [|c l IH]; intros w Hb Hl; simpl in *; [by exists w|].
  set (w1 := set_position (S (position w)) (set_write_buffer (<[position w:=c]> (write_buffer w)) w)).
  assert (Hrun : write_char c w = Ok tt w1).
  { unfold write_char, put, get, modify, mbind, M_bind.
    destruct (Nat.eqb_spec (position w) buffer_size); [lia|]. unfold when, mret, M_ret. simpl.
    rewrite Hb. by destruct (Nat.ltb_spec (position w) buffer_size); [|lia]. }
  destruct (IH w1) as (w' & Hw' & Hssl & Hb' & Hp'); simpl.
  { by rewrite length_insert. } { lia. }
  exists w'. split_and!; [by rewrite (run_bind _ _ _ _ _ Hrun)|done|done|simpl in *; lia].
Qed.

(** A failed flush leaves the position at the end of the array. *)
Lemma full_buffer_overflows c (w : HttpWriter T) :
  use_ssl w = true → length (write_buffer w) = buffer_size → position w = buffer_size →
  write_char c w = Undefined.
Proof.
  intros Hssl Hb Hp.
  assert (Hflush : ∃ t, FlushBuffer w = Ok tt (set_tcp_handle t w)).
  { unfold FlushBuffer, write_bio, get, gets, modify, mbind, M_bind, mret, M_ret.
    rewrite Hp, Hssl. cbn [Nat.eqb buffer_size]. simpl.
    pose proof (BIO_read_some (take (position w) (write_buffer w)) (tcp_handle w)) as Hsome.
    unfold get, mbind, M_bind, modify, mret, M_ret. simpl in *.
    destruct (BIO_read _ _) as [[|b bytes] t] eqn:E; [done|]. unfold send. simpl.
    pose proof (uv_write_fails (b :: bytes) t) as Hf.
    destruct (uv_write (b :: bytes) t) as [r t'] eqn:E'. simpl in *.
    destruct (Z.ltb_spec r 0); [|lia]. by eexists. }
  destruct Hflush as [t Ht]. unfold write_char, get, mbind, M_bind. rewrite Hp, Nat.eqb_refl.
  cbn [when]. rewrite Ht. unfold put, get, mbind, M_bind. simpl.
  rewrite Hb, Hp. by rewrite Nat.ltb_irrefl.
Qed.

(** Over TLS, when the socket refuses a write, a text longer than the
    buffer makes the writer write behind its buffer. *)
Theorem ssl_write_overflows text handle :
  (buffer_size < length (c_string text))%nat →
  Write text (new_HttpWriter true handle) = Undefined.
Proof.
  intros Hlen. unfold Write.
  change (iter_list write_char (c_string text) (new_HttpWriter true handle) = Undefined).
  rewrite <- (take_drop buffer_size (c_string text)).
  destruct (fill_buffer (take buffer_size (c_string text)) (new_HttpWriter true handle))
    as (w' & Hrun & Hssl & Hb & Hp); [apply length_replicate|simpl; rewrite length_take; lia|].
  rewrite (run_for_each_app _ _ _ _ _ Hrun).
  destruct (drop buffer_size (c_string text)) as [|c rest] eqn:E.
  { apply (f_equal length) in E. rewrite length_drop in E. simpl in E. lia. }
  simpl. unfold mbind, M_bind. rewrite full_buffer_overflows; [done..|].
  rewrite Hp. simpl. rewrite length_take. lia.
Qed.
End failing_socket.

(** A socket that refuses every write; the BIO holds what was encrypted. *)
#[local] Instance refusing : Transport (list Z) := {|
  uv_write _ t := ((-1)%Z, t);
  SSL_write bytes t := 0%Z :: t;
  BIO_read _ t := (t, []);
  bio_pending t := length t
|}.

Lemma ssl_write_overflows_witness :
  @Write _ refusing (replicate 4097 Character.a) (@new_HttpWriter (list Z) true []) = Undefined.
Proof.
  apply (@ssl_write_overflows _ refusing); [done|done|]. vm_compute. lia.
Defined.
