(* ===== verification/HttpServerProperties.v ===== *)
(** * Properties of the gateway

    The components composed: what a request becomes, which fields are forwarded for
    the bytes of a client, what is sent for them, how the pool is used up, and which
    signals are watched. *)
From S2P Require Import Prelude Monad Character Cstring Utils Files.
From S2P Require Import LexerText SchemaText SchemaVerdict QueryText QueryRoundTrip.
From S2P Require Import StdMap HttpHeaders HttpScanner HttpParser.
From S2P Require Import HttpWriter MemoryPool Diagnostic Syntaxes Scanner Parser Schema SchemaChecks.
From S2P Require Import Executor HttpServer HttpSafety HttpText HttpProperties HttpWriterProperties.

#[local] Arguments u : simpl never.

(** The schema every request is executed on. *)
Definition gateway_schema : GraphQlSchema :=
  match construct_GraphQlSchema gateway_schema_source with
  | Ok _ schema => schema
  | _ => new_GraphQlSchema []
  end.

Lemma gateway_schema_constructed :
  construct_GraphQlSchema gateway_schema_source = Ok tt gateway_schema.
Proof. vm_compute. reflexivity. Qed.

(** The document the schema is printed from. *)
Definition gateway_document : list definition :=
  [ObjectDef (u "Query") [] [mkFieldDef (u "field") [] (mkTypeRef IntType false None)]].

Lemma gateway_source_rendered : rendering (document_lexemes gateway_document) gateway_schema_source.
Proof.
  assert (Hspace : ignored (u " ")) by by apply (ignored_blank Character.Space), ignored_nil.
  refine (rendering_next [] (Word (u "type")) _ (u " Query { field: Int }") ignored_nil eq_refl _ _); [done|].
  refine (rendering_next (u " ") (Word (u "Query")) _ (u " { field: Int }") Hspace eq_refl _ _); [done|].
  refine (rendering_next (u " ") (Punct Character.OpenBrace) _ (u " field: Int }") Hspace eq_refl _ _); [done|].
  refine (rendering_next (u " ") (Word (u "field")) _ (u ": Int }") Hspace eq_refl _ _); [done|].
  refine (rendering_next [] (Punct Character.Colon) _ (u " Int }") ignored_nil eq_refl _ _); [done|].
  refine (rendering_next (u " ") (Word (u "Int")) _ (u " }") Hspace eq_refl _ _); [done|].
  refine (rendering_next (u " ") (Punct Character.CloseBrace) _ [] Hspace eq_refl _ _); [done|].
  apply rendering_end, ignored_nil.
Qed.

(** A printed query on a schema that was constructed from the text of a document. *)
Lemma executed_on_constructed doc source_ schema q text :
  document_ok doc → valid_document doc → rendering (document_lexemes doc) source_ →
  construct_GraphQlSchema source_ = Ok tt schema →
  QueryText.query_ok q = true → query_valid doc q = true → rendering (query_lexemes q) text →
  ∃ x e, execute_on_schema schema text = Ok x e ∧ executable_diagnostics x = [] ∧
    query_is q (operation_definitions x) (fragment_definitions x).
Proof.
  intros Hok Hdoc Hsource Hrun Hwords Hvalid Hr.
  destruct (wp_ok _ _ _ _ _ _ _ (schema_constructed _ _ Hok Hsource) Hrun) as [Hc Hj].
  exact (query_on_schema doc q text schema Hok Hdoc Hwords Hvalid Hr Hc Hj).
Qed.

Lemma gateway_executes q text :
  QueryText.query_ok q = true → query_valid gateway_document q = true → rendering (query_lexemes q) text →
  ∃ x e, execute_on_schema gateway_schema text = Ok x e ∧ executable_diagnostics x = [] ∧
    query_is q (operation_definitions x) (fragment_definitions x).
Proof.
  apply (executed_on_constructed gateway_document gateway_schema_source).
  - apply (bool_decide_unpack _). vm_compute. exact I.
  - apply (bool_decide_unpack _). vm_compute. exact I.
  - exact gateway_source_rendered.
  - exact gateway_schema_constructed.
Qed.

(** ** Headers *)

Lemma json_type_value : field_value (u "application/json; charset=utf-8").
Proof.
  change (field_value (u "application/json" ++ Character.Semicolon :: Character.Space :: []
    ++ Character.c :: u "harset=utf-8")).
  apply field_value_chars; [reflexivity|]. apply field_value_blanks; try done.
  rewrite <- (app_nil_r (u "harset=utf-8")). apply field_value_chars; [reflexivity|].
  by apply field_value_nil.
Qed.

(** Headers that are given, with values without blanks or the one above. *)
Ltac solve_headers :=
  repeat (apply list.Forall_cons; split); [..|by apply list.Forall_nil];
  (split; [eexists _, _; repeat split|]); cbn [snd];
  first [exact json_type_value
    | by repeat first [by apply field_value_nil | apply field_value_char; [reflexivity|]]].

Section gateway.
Context {W Address : Type} `{Platform W Address}.

(** ** Requests *)

(** The pool after a ticket was taken. *)
Definition with_ticket (s : Server W) : Server W :=
  match TakeTicket (memory_pool s) with
  | Ok _ pool => set_memory_pool pool s
  | _ => s
  end.

Lemma take_ticket_run x rest (pool : MemoryPool) :
  free_blocks pool = x :: rest →
  ∃ ticket pool', TakeTicket pool = Ok ticket pool' ∧ free_blocks pool' = rest.
Proof.
  intros Hx. unfold TakeTicket, AllocateBlock, mbind, M_bind, get. rewrite Hx. by do 2 eexists.
Qed.

Lemma run_ticket {A} (k : Z → M (Server W) A) (s : Server W) :
  free_blocks (memory_pool s) ≠ [] → ∃ ticket, (⟨TakeTicket⟩ ≫= k) s = k ticket (with_ticket s).
Proof.
  intros Hs. destruct (free_blocks (memory_pool s)) as [|x rest] eqn:E; [done|].
  destruct (take_ticket_run x rest _ E) as (ticket & pool & Hrun & _). exists ticket.
  unfold with_ticket, zoom, mbind, M_bind. simpl. by rewrite Hrun.
Qed.

(** What [ParseRequest] makes of a request, and the result of its query. *)
Definition query_result (query_ : ustring) (s : Server W) :
    outcome (Server W) (option ExecutableDefinition) :=
  match execute_on_schema gateway_schema query_ with
  | Ok x _ => Ok (Some x) s
  | Throw e _ => Throw e s
  | Undefined => Undefined
  | OutOfFuel => OutOfFuel
  end.

Lemma ParseRequest_query r body_ query_ tail s :
  request_ok r → (8 ≤ length tail)%nat → (Z.of_nat (length (request_text r)) < 2 ^ 31 - 1)%Z →
  HttpParser.body (request_read r) = Some body_ → json_query body_ = inr query_ →
  free_blocks (memory_pool s) ≠ [] →
  ParseRequest (request_text r ++ tail) (length (request_text r)) s
  = query_result query_ (with_ticket s).
Proof.
  intros Hr Htail Hlen Hbody Hjson Hfree. unfold ParseRequest.
  pose proof (new_scanner_unread _ _ (padded_buffer _ _ Htail Hlen)) as Hu.
  destruct (wp_total _ _ _ (Parse_text False (λ _ _, False) _ _ Hr Hu)) as (r' & s1 & Hrun & ->).
  erewrite run_bind by (unfold local_object, parse_request; by rewrite Hrun).
  cbv beta. cbn [fst].
  destruct (run_ticket (λ _, execute_request (request_read r)) s Hfree) as [ticket ->].
  unfold execute_request.
  erewrite run_bind by (unfold local_object; by rewrite gateway_schema_constructed).
  rewrite Hbody, Hjson. unfold query_result, local_object, mbind, M_bind. simpl.
  by destruct (execute_on_schema gateway_schema query_).
Qed.


(** ** The memory pool *)

Lemma execute_request_state request r s s' : execute_request request s = Ok r s' → s' = s.
Proof.
  unfold execute_request. intros ([[] schema] & s1 & Hl & Hrun)%run_bind_ok.
  apply run_local_ok in Hl as [_ ->]. destruct (HttpParser.body request) as [body_|]; [|by injection Hrun].
  destruct (json_query body_) as [e|query_]; [done|].
  apply run_bind_ok in Hrun as ([x t] & s2 & Hl & Hrun). apply run_local_ok in Hl as [_ ->].
  by injection Hrun.
Qed.

Lemma ParseRequest_ticket buffer n s r s' :
  ParseRequest buffer n s = Ok r s' →
  length (free_blocks (memory_pool s)) = S (length (free_blocks (memory_pool s'))).
Proof.
  unfold ParseRequest. intros ([request_ t] & s1 & Hl & Hrun)%run_bind_ok.
  apply run_local_ok in Hl as [_ ->]. apply run_bind_ok in Hrun as (ticket & s2 & Ht & Hrun).
  apply execute_request_state in Hrun as ->. revert Ht. unfold zoom. simpl.
  unfold TakeTicket, AllocateBlock, mbind, M_bind, get.
  destruct (free_blocks (memory_pool s)) as [|x rest] eqn:E; [done|]. simpl.
  by intros [= _ <-].
Qed.

(** The requests the gateway has parsed, one after the other. *)
Definition parse_requests (requests : list (list Z * nat)) : M (Server W) unit :=
  for_each requests (λ '(buffer, n), ParseRequest buffer n;; mret tt).

Lemma parse_requests_tickets requests s s' :
  parse_requests requests s = Ok tt s' →
  (length requests + length (free_blocks (memory_pool s')))%nat
  = length (free_blocks (memory_pool s)).
Proof.
  unfold parse_requests. revert s. induction requests as [|[buffer n] requests IH]; intros s.
  - by intros [= ->].
  - intros ([] & s1 & Hrun & Hrest)%run_bind_ok. apply IH in Hrest.
    apply run_bind_ok in Hrun as (r & s2 & Hr & [= ->]). apply ParseRequest_ticket in Hr. simpl. lia.
Qed.

Lemma new_pool_blocks total block_size_ start pool :
  (block_size_ =? 0)%Z = false → new_MemoryPool total block_size_ start = Ok tt pool →
  length (free_blocks pool) = Z.to_nat (total / block_size_).
Proof.
  intros Hb. unfold new_MemoryPool, Reset, mbind, M_bind, get. cbn [block_size]. rewrite Hb.
  intros [= <-]. cbn [free_blocks set_free_blocks total_size block_size]. unfold all_blocks.
  by rewrite app_nil_r, length_rev, length_map, length_seq.
Qed.

(** ** Forwarding *)

Section forwarding.
(** The lookups that were started, and that starting one always works. *)
Context (lookups : W → list (list Z * ClientRequest)).
Context (lookup_starts : ∀ name service request w,
  (uv_getaddrinfo name service request w).1 = 0%Z ∧
  lookups (uv_getaddrinfo name service request w).2 = lookups w ++ [(name, request)]).

(** The endpoint of a selection: of a field by its name, not its alias. *)
Definition endpoint_of (selection : Selection) : option BackendEndpoint :=
  match selection with
  | Field _ _ (Some name) _ _ _ => find (identifier name) field_to_endpoint
  | _ => None
  end.

Definition has_name (selection : Selection) : Prop :=
  match selection with
  | Field _ _ name _ _ _ => is_Some name
  | _ => True
  end.

(** The endpoints that are asked for: those of the selections in front of the
    first one without an endpoint. *)
Fixpoint forwarded (selections : list Selection) : list BackendEndpoint :=
  match selections with
  | [] => []
  | selection :: rest =>
      match endpoint_of selection with
      | Some endpoint => endpoint :: forwarded rest
      | None => []
      end
  end.

Definition lookup_of (endpoint : BackendEndpoint) : list Z * ClientRequest :=
  (hostname endpoint, mkClientRequest (hostname endpoint) (port endpoint) (host endpoint)
    (endpoint_path endpoint) None).

Lemma wp_call_platform {A} (f : W → A * W) (Q : A → Server W → Prop) X ub s :
  Q (f (platform s)).1 (set_platform (f (platform s)).2 s) → wp ub (invoke f) Q X s.
Proof.
  intros HQ. destruct (f (platform s)) as [a w] eqn:E.
  eapply wp_intro_ok; [unfold invoke; by rewrite E|done].
Qed.

Lemma ForwardRequest_spec request (Q : unit → Server W → Prop) X s :
  (∀ w, lookups w = lookups (platform s) ++ [(request_hostname request, request)] →
    Q tt (set_platform w s)) → wp False (ForwardRequest request) Q X s.
Proof.
  intros HQ. unfold ForwardRequest. wp_step. apply wp_call_platform.
  destruct (lookup_starts (request_hostname request) (u "80") request (platform s)) as [-> Hl].
  simpl. wp_step. by apply HQ.
Qed.

#[local] Opaque field_to_endpoint.

(** The selections of an operation are forwarded in their order up to the
    first one that is no field with an endpoint: for each the lookup of the host of
    its endpoint is started, with its port and path; nothing else is asked of the
    platform and the pool is left as it was. *)
Theorem forward_selections_lookups fragments_ selections s :
  Forall has_name selections →
  wp False (forward_selections fragments_ selections)
    (λ _ s', lookups (platform s') = lookups (platform s) ++ map lookup_of (forwarded selections) ∧
      memory_pool s' = memory_pool s ∧
      ssl_handle (gateway_client s') = ssl_handle (gateway_client s) ∧
      client_handle (gateway_client s') = client_handle (gateway_client s))
    (λ _ _, False) s.
Proof.
  intros Hn. revert s. induction Hn as [|selection rest Hname Hrest IH]; intros s; simpl.
  - wp_step. by rewrite app_nil_r.
  - wp_step. unfold forward_selection, endpoint_of.
    destruct selection as [? ? name ? ? ?| |]; simpl in Hname;
      [|repeat wp_step; simpl; by rewrite app_nil_r..].
    destruct Hname as [n ->]. simpl. wp_step. wp_step.
    destruct (find (identifier n) field_to_endpoint) as [endpoint|];
      [|repeat wp_step; simpl; by rewrite app_nil_r].
    do 3 wp_step. apply ForwardRequest_spec. intros w Hw. wp_step.
    eapply wp_mono; [apply IH| |done]. simpl. intros _ s' (Hl & Hp & Hs & Hc).
    split_and!; [|done..]. by rewrite Hl, Hw, <- app_assoc.
Qed.

(** *** The queries of the gateway *)

(** The endpoint of a selection of a query as it is printed. *)
Definition query_endpoint (x : query_selection) : option BackendEndpoint :=
  match x with
  | FieldOf _ name _ _ => find name field_to_endpoint
  | _ => None
  end.

Fixpoint query_forwarded (l : list query_selection) : list BackendEndpoint :=
  match l with
  | [] => []
  | x :: rest =>
      match query_endpoint x with
      | Some endpoint => endpoint :: query_forwarded rest
      | None => []
      end
  end.

Lemma forwarded_described l xs :
  all2 selection_is l xs → Forall has_name xs ∧ forwarded xs = query_forwarded l.
Proof.
  revert xs. induction l as [|x l IH]; intros [|y xs]; try done. intros [Hx Hl].
  destruct (IH xs Hl) as [Hnames Hforwarded]. cbn [forwarded query_forwarded]. rewrite Hforwarded.
  rewrite list.Forall_cons.
  destruct x as [alias_ name arguments_ set_|name|on set_]; destruct y as [? ? name' ? ? ?| |]; try done.
  destruct Hx as (_ & Hname & _). destruct name' as [n|]; [|done]. injection Hname as Hname.
  split; [by split; [eexists|]|]. cbn [endpoint_of query_endpoint]. by rewrite Hname.
Qed.

(** The operation of the query that is run: the only one, or the first one with the
    default name where those in front of it have names. *)
Fixpoint default_definition (q : list query_definition) : option query_definition :=
  match q with
  | OperationOf o (Some name) l :: rest =>
      if decide (name = default_operation) then Some (OperationOf o (Some name) l)
      else default_definition rest
  | _ => None
  end.

Definition operations_of (q : list query_definition) : list query_definition :=
  filter (λ d, is_fragment d = false) q.

Definition picked (q : list query_definition) : option query_definition :=
  match operations_of q with
  | [d] => Some d
  | l => default_definition l
  end.

Definition selections_of (d : query_definition) : list query_selection :=
  match d with OperationOf _ _ l | ShorthandOf l | FragmentOf _ _ l => l end.

Lemma find_operation_described ops xs d (s : Server W) :
  Forall2 operation_is ops xs → default_definition ops = Some d →
  ∃ x, find_operation xs s = Ok (Some x) s ∧ operation_is d x.
Proof.
  intros Hops. revert d. induction Hops as [|op x ops xs Hx Hops IH]; intros d Hd; [done|].
  destruct op as [o [name|] l| |]; try done. cbn [default_definition] in Hd.
  pose proof Hx as (_ & _ & Hbody). destruct (operation_selection_set x) as [set_|]; [|done].
  destruct Hbody as (_ & Hname & _). cbn [find_operation]. destruct (operation_name x) as [n|]; [|done].
  injection Hname as Hname. erewrite run_bind by reflexivity. rewrite Hname.
  case_decide; [injection Hd as <-; by exists x|by apply IH].
Qed.

Lemma select_operation_described q ops xs d (s : Server W) :
  query_is q ops xs → picked q = Some d →
  ∃ x, select_operation ops s = Ok (Some x) s ∧ operation_is d x.
Proof.
  intros [Hops _] Hd. unfold picked, operations_of in Hd. unfold select_operation.
  pose proof (find_operation_described _ _ d s Hops) as Hfind.
  destruct Hops as [|op x l xs' Hx [|op' x' l' xs'' Hx' Hl]]; [by apply Hfind| |by apply Hfind].
  injection Hd as ->. by exists x.
Qed.

Lemma forward_operation_described q d x (s : Server W) :
  query_is q (operation_definitions x) (fragment_definitions x) → picked q = Some d →
  wp False (forward_operation x)
    (λ _ s', lookups (platform s') = lookups (platform s)
        ++ map lookup_of (query_forwarded (selections_of d)) ∧
      memory_pool s' = memory_pool s)
    (λ _ _, False) s.
Proof.
  intros His Hd. unfold forward_operation. wp_step.
  destruct (select_operation_described q _ _ d s His Hd) as (o & Hrun & _ & _ & Ho).
  eapply wp_intro_ok; [exact Hrun|]. cbv beta iota.
  assert (Hset : ∃ syntax xs, operation_selection_set o = Some (mkSelectionSet syntax xs) ∧
    all2 selection_is (selections_of d) xs).
  { destruct d, (operation_selection_set o) as [ [syntax xs]|]; try done; exists syntax, xs; split; by try apply Ho. }
  destruct Hset as (syntax & xs & -> & Hxs). destruct (forwarded_described _ _ Hxs) as [Hnames <-].
  wp_step. unfold deref. wp_step. eapply wp_mono; [by apply forward_selections_lookups| |done].
  by intros _ s' (? & ? & _).
Qed.

(** The bytes of a client, once they are decrypted, are those of the request: the
    session of the server is set up and gives the request at the front of its buffer. *)
Record received (r : request) (ssl : handle) (length_ : Z) (base tail : list Z) (s : Server W) (w : W) :
    Prop := {
  rc_some : length_ ≠ 0%Z;
  rc_handle : ssl_handle (gateway_client s) = Some ssl;
  rc_finished : SSL_is_init_finished ssl (platform s) = true;
  rc_space : (8 ≤ length tail)%nat;
  rc_read : SSL_read ssl read_buffer_size (BIO_write ssl base length_ (platform s))
    = ((Z.of_nat (length (request_text r)), request_text r ++ tail), w)
}.

(** The request has the text of the query in its body. *)
Record carries (r : request) (q : list query_definition) : Prop := {
  ca_ok : request_ok r;
  ca_size : (Z.of_nat (length (request_text r)) < 2 ^ 31 - 1)%Z;
  ca_query : ∃ body_ text, HttpParser.body (request_read r) = Some body_ ∧
    json_query body_ = inr text ∧ rendering (query_lexemes q) text
}.

(** What the callback does for any query with a result. *)
Lemma on_read_query r ssl length_ base tail body_ text x e (s : Server W) w client_stream Q X :
  received r ssl length_ base tail s w → request_ok r →
  (Z.of_nat (length (request_text r)) < 2 ^ 31 - 1)%Z →
  HttpParser.body (request_read r) = Some body_ → json_query body_ = inr text →
  free_blocks (memory_pool s) ≠ [] → execute_on_schema gateway_schema text = Ok x e →
  wp False (forward_operation x) Q X (with_ticket (set_platform w s)) →
  wp False (on_read client_stream length_ base) Q X s.
Proof.
  intros [Hsome Hssl Hfinished Hspace Hread] Hok Hsize Hbody Hjson Hfree Hrun HQ. unfold on_read.
  rewrite (proj2 (Z.eqb_neq _ _) Hsome). do 2 wp_step. unfold deref. rewrite Hssl. do 2 wp_step.
  rewrite Hfinished. cbn [negb]. unfold invoke_. do 3 wp_step. apply wp_call_platform.
  cbn [platform set_platform]. rewrite Hread. cbn [fst snd].
  destruct (0 <? Z.of_nat (length (request_text r)))%Z eqn:Hpos.
  - rewrite Nat2Z.id. wp_step.
    eapply (wp_intro_ok _ _ _ _ _ (Some x) (with_ticket (set_platform w s))); [|exact HQ].
    etrans; [by apply (ParseRequest_query r body_ text)|]. unfold query_result. by rewrite Hrun.
  - exfalso. apply Z.ltb_ge in Hpos. destruct r. unfold request_text in Hpos.
    repeat rewrite length_app in Hpos. simpl in Hpos. lia.
Qed.

Lemma with_ticket_platform (s : Server W) w :
  platform (with_ticket (set_platform w s)) = w ∧
  memory_pool (with_ticket (set_platform w s)) = memory_pool (with_ticket s).
Proof. unfold with_ticket. cbn [memory_pool set_platform]. by destruct (TakeTicket _). Qed.

End forwarding.
(** ** What is sent *)

Section sending.
(** The bytes a socket was given, and that it takes every buffer. *)
Context (sent : handle → W → list Z).
Context (uv_send_takes : ∀ h bytes w,
  (0 ≤ (uv_send h bytes w).1)%Z ∧ sent h (uv_send h bytes w).2 = sent h w ++ bytes).
Context (uv_read_start_keeps : ∀ h w, sent h (uv_read_start h w).2 = sent h w).

(** The request for an endpoint as a request. *)
Definition upstream_request (endpoint : BackendEndpoint) : request :=
  mkRequest HttpMethod.Post (u "POST") (endpoint_path endpoint) []
    [(u "Host", host endpoint); (u "User-Agent", u "flash"); (u "Accept", u "*/*");
     (u "Content-Type", u "application/json; charset=utf-8"); (u "Content-Length", u "24")]
    request_body.

(** A request to the endpoint, once it is connected. *)
Definition connected_request (endpoint : BackendEndpoint) (h : handle) : ClientRequest :=
  mkClientRequest (hostname endpoint) (port endpoint) (host endpoint) (endpoint_path endpoint)
    (Some h).

(** One call of the writer after the other. *)
Lemma writer_call (c : HttpWriterProperties.call) {A} h (k : unit → M (HttpWriter W) A) Q X w :
  let transport := socket h in
  writer_ok w →
  (∀ w', writer_ok w' → stream (sent h) w' = stream (sent h) w ++ call_text c →
    wp False (k tt) Q X w') →
  wp False (run_call c ≫= k) Q X w.
Proof.
  intros transport Hok HQ. wp_step.
  apply (run_call_spec (sent h)); [intros bytes w0; apply uv_send_takes|done|].
  intros w' Hok' Hs _. by apply HQ.
Qed.

Lemma write_request_spec key endpoint h (w : HttpWriter W) X :
  find key field_to_endpoint = Some endpoint → writer_ok w →
  wp False (write_request (connected_request endpoint h) (H0 := socket h))
    (λ _ w', sent h (tcp_handle w')
      = stream (sent h) w ++ request_text (upstream_request endpoint)) X w.
Proof.
  intros He Hok. assert (Hone : endpoint = mkBackendEndpoint (u "http://localhost:4000/graphql")
    (u "localhost:4000") (u "localhost") 4000 (u "/graphql")).
  { unfold field_to_endpoint in He. simpl in He. case_decide; [|done]. by injection He. }
  unfold write_request.
  apply (writer_call (CallWriteRequest _ _)); [done|]. intros w1 Hok1 Hs1.
  apply (writer_call (CallWriteLine [u "Host: "; host endpoint])); [done|]. intros w2 Hok2 Hs2.
  apply (writer_call (CallWriteLine _)); [done|]. intros w3 Hok3 Hs3.
  apply (writer_call (CallWriteLine _)); [done|]. intros w4 Hok4 Hs4.
  apply (writer_call (CallWriteLine _)); [done|]. intros w5 Hok5 Hs5.
  apply (writer_call (CallWriteLine _)); [done|]. intros w6 Hok6 Hs6.
  apply (writer_call (CallWriteLine [])); [done|]. intros w7 Hok7 Hs7.
  apply (writer_call (CallWrite [request_body])); [done|]. intros w8 Hok8 Hs8. unfold End. wp_step.
  apply (flush_spec (sent h)); [intros bytes w0; apply uv_send_takes|done|].
  intros w9 Hok9 H0 Hs9 _. wp_step. simpl.
  transitivity (stream (sent h) w9); [unfold stream; by rewrite H0, app_nil_r|].
  rewrite Hs9, Hs8, Hs7, Hs6, Hs5, Hs4, Hs3, Hs2, Hs1, <- !app_assoc. f_equal.
  subst endpoint. vm_compute. reflexivity.
Qed.
Lemma upstream_request_ok key endpoint :
  find key field_to_endpoint = Some endpoint →
  request_ok (upstream_request endpoint) ∧
  HttpParser.body (request_read (upstream_request endpoint)) = Some request_body.
Proof.
  intros He. assert (Hone : endpoint = mkBackendEndpoint (u "http://localhost:4000/graphql")
    (u "localhost:4000") (u "localhost") 4000 (u "/graphql")).
  { unfold field_to_endpoint in He. simpl in He. case_decide; [|done]. by injection He. }
  subst endpoint. split; [|vm_compute; reflexivity]. split.
  - by apply (list_elem_of_lookup_2 _ 1).
  - eexists. split; reflexivity.
  - by left.
  - solve_headers.
Qed.

(** C29: for every field that waits for an endpoint, a connection to the endpoint
    is sent one and the same request, which is well formed: the parser of the
    gateway itself reads it as a POST to the path of the endpoint, with a body of
    as many bytes as its content length says. *)
Theorem connect_sends_requests key endpoint h s :
  find key field_to_endpoint = Some endpoint →
  request_ok (upstream_request endpoint) ∧
  HttpParser.body (request_read (upstream_request endpoint)) = Some request_body ∧
  wp False (OnClientConnect (connected_request endpoint h))
    (λ _ s', sent h (platform s') = sent h (platform s)
        ++ concat (replicate (length (fields (gateway_client s)))
             (request_text (upstream_request endpoint))) ∧
      memory_pool s' = memory_pool s ∧ gateway_client s' = gateway_client s)
    (λ _ _, False) s.
Proof.
  intros He. pose proof (upstream_request_ok key endpoint He) as [Hok Hbody].
  split; [exact Hok|]. split; [exact Hbody|]. unfold OnClientConnect. wp_step.
  apply wp_deref; [|discriminate]. intros ? [= <-]. wp_step.
  apply wp_call_platform. do 2 wp_step. cbn [gateway_client set_platform].
  set (s0 := set_platform _ s).
  apply (wp_for_each _ (λ rest s1, ∃ done_, fields (gateway_client s) = done_ ++ rest ∧
    sent h (platform s1) = sent h (platform s)
      ++ concat (replicate (length done_) (request_text (upstream_request endpoint))) ∧
    memory_pool s1 = memory_pool s ∧ gateway_client s1 = gateway_client s)).
  - exists []. split_and!; [done| |done..]. simpl. by rewrite uv_read_start_keeps, app_nil_r.
  - intros entry rest s1 (done_ & Hf & Hs1 & Hp & Hc).
    assert (Hw : writer_ok (new_HttpWriter false (platform s1)))
      by (split; [done|apply length_replicate|simpl; lia]).
    destruct (wp_total _ _ _ (write_request_spec key endpoint h _ _ He Hw)) as ([] & w & Hrun & Hs).
    eapply wp_intro_ok; [unfold with_socket; by rewrite Hrun|].
    exists (done_ ++ [entry]). split; [by rewrite <- app_assoc|].
    split; [|split; [exact Hp|exact Hc]].
    simpl. unfold stream in Hs. simpl in Hs. rewrite app_nil_r in Hs.
    rewrite Hs, Hs1, length_app, replicate_add, concat_app, <- app_assoc. simpl.
    by rewrite app_nil_r.
  - intros s1 (done_ & Hf & Hs1 & Hp & Hc). rewrite app_nil_r in Hf.
    rewrite Hf. split; [exact Hs1|]. split; [exact Hp|exact Hc].
Qed.
End sending.
End gateway.

(** ** Setting up *)

Section setup.
Context {W Address : Type} `{Platform W Address} `{Setup W Address} `{FileSystem W}.

Lemma listening_pool_new start host_ port_ w l w' :
  Listen start host_ port_ w = Ok l w' →
  new_MemoryPool (1024 * 4 * 10000) (1024 * 4) start = Ok tt (listening_pool l).
Proof.
  unfold Listen. intros (? & w1 & _ & Hrun)%run_bind_ok. apply run_bind_ok in Hrun as (? & w2 & _ & Hrun).
  apply run_bind_ok in Hrun as (parent & w3 & _ & Hrun). apply run_bind_ok in Hrun as (ctx & w4 & _ & Hrun).
  apply run_bind_ok in Hrun as ([[] pool] & w5 & Hpool & Hrun). apply run_local_ok in Hpool as [Hpool _].
  apply run_bind_ok in Hrun as (? & w6 & _ & Hrun). apply run_bind_ok in Hrun as (? & w7 & _ & Hrun).
  apply run_bind_ok in Hrun as (? & w8 & _ & Hrun). by injection Hrun as <- _.
Qed.

End setup.

(** ** The callbacks in any order *)

Section events.
Context {W Address : Type} `{Platform W Address} `{Setup W Address} `{FileSystem W}.

(** A selection of a field that has an endpoint, under its name. *)
Definition forwardable (name : ustring) (x : Selection) : Prop :=
  is_Some (find name field_to_endpoint) ∧
  match x with Field _ _ (Some n) _ _ _ => identifier n = name | _ => False end.

(** What every callback does to the server: blocks are only taken, the fields that wait
    keep waiting and those that join them have an endpoint, the two handles of the client
    are set together, and the process and the context stay. *)
Record grows (s s' : Server W) : Prop := {
  gr_blocks : free_blocks (memory_pool s') `suffix_of` free_blocks (memory_pool s);
  gr_kept : ∀ name x, find name (fields (gateway_client s)) = Some x →
    find name (fields (gateway_client s')) = Some x;
  gr_new : ∀ name x, find name (fields (gateway_client s')) = Some x →
    find name (fields (gateway_client s)) = Some x ∨ forwardable name x;
  gr_sorted : sorted (fields (gateway_client s)) → sorted (fields (gateway_client s'));
  gr_handles :
    client_handle (gateway_client s') = client_handle (gateway_client s) ∧
      ssl_handle (gateway_client s') = ssl_handle (gateway_client s) ∨
    is_Some (client_handle (gateway_client s')) ∧ is_Some (ssl_handle (gateway_client s'));
  gr_process : parent_pid s' = parent_pid s ∧ ssl_ctx s' = ssl_ctx s
}.

#[export] Instance grows_preorder : PreOrder grows.
Proof.
  split.
  - intros s. by split; auto.
  - intros s1 s2 s3 [B1 K1 N1 S1 H1' [P1 C1]] [B2 K2 N2 S2 H2' [P2 C2]]. split; auto.
    + by etrans.
    + intros name x [?|?]%N2; [by apply N1|by right].
    + destruct H2' as [[-> ->]|?]; [done|by right].
    + split; congruence.
Qed.

Lemma grows_platform s w : grows s (set_platform w s).
Proof. by split; auto. Qed.

Definition growing {A} (m : M (Server W) A) : Prop := ∀ s a s', m s = Ok a s' → grows s s'.

Lemma growing_bind {A B} (m : M (Server W) A) (k : A → M (Server W) B) :
  growing m → (∀ a, growing (k a)) → growing (m ≫= k).
Proof. intros Hm Hk s b s' (a & s1 & Hm1 & Hk1)%run_bind_ok. etrans; [by eapply Hm|by eapply Hk]. Qed.

Lemma growing_ret {A} (a : A) : growing (mret a).
Proof. by intros s ? ? [= _ <-]. Qed.

Lemma growing_throw {A} e : growing (throw e : M (Server W) A).
Proof. by intros s a s' ?. Qed.

Lemma growing_undefined {A} : growing (undefined : M (Server W) A).
Proof. by intros s a s' ?. Qed.

Lemma growing_get : growing get.
Proof. by intros s a s' [= _ <-]. Qed.

Lemma growing_deref {A} (o : option A) : growing (deref o).
Proof. destruct o; [apply growing_ret|apply growing_undefined]. Qed.

Lemma growing_deref_some {A B} (a : A) (k : A → M (Server W) B) :
  growing (k a) → growing (deref (Some a) ≫= k).
Proof. intros Hk s b s' (a' & s1 & [= <- <-] & Hrun)%run_bind_ok. by eapply Hk. Qed.

Lemma growing_invoke {A} (f : W → A * W) : growing (invoke f).
Proof. intros s a s'. unfold invoke. destruct (f (platform s)). intros [= _ <-]. apply grows_platform. Qed.

Lemma growing_invoke_ (f : W → W) : growing (invoke_ f).
Proof. intros s a s' [= _ <-]. apply grows_platform. Qed.

Lemma growing_local {S A} (m : outcome S A) : growing (local_object m).
Proof. by intros s [a x] s' [_ ->]%run_local_ok. Qed.

Lemma growing_loop {A B} fuel (body : A → M (Server W) (A + B)) a :
  (∀ a, growing (body a)) → growing (loop fuel body a).
Proof.
  intros Hb. revert a. induction fuel as [|fuel IH]; intros a; [by intros s b s' ?|]. cbn [loop].
  apply growing_bind; [apply Hb|]. intros [a'|b]; [apply IH|apply growing_ret].
Qed.

Lemma growing_for_each {A} (l : list A) (body : A → M (Server W) unit) :
  (∀ x, growing (body x)) → growing (for_each l body).
Proof. intros Hb. induction l as [|x l IH]; cbn; [apply growing_ret|by apply growing_bind]. Qed.

Lemma growing_with_socket {A} h (m : M (HttpWriter W) A) : growing (with_socket h m).
Proof.
  intros s a s'. unfold with_socket. destruct (m _); try done. intros [= _ <-]. apply grows_platform.
Qed.

Lemma growing_ticket : growing ⟨TakeTicket⟩.
Proof.
  intros s a s'. unfold zoom, TakeTicket, AllocateBlock, mbind, M_bind, get. cbn.
  destruct (free_blocks (memory_pool s)) as [|x rest] eqn:E; [done|]. cbn. intros [= _ <-].
  split; cbn; auto. rewrite E. by exists [x].
Qed.

Lemma growing_modify (f : Server W → Server W) : (∀ s, grows s (f s)) → growing (modify f).
Proof. intros Hf s a s' [= _ <-]. apply Hf. Qed.

Lemma grows_connected h ssl (s : Server W) :
  grows s (set_gateway_client (mkGatewayClient (Some h) (fields (gateway_client s))
    (client_fragments (gateway_client s)) (Some ssl)) s).
Proof. by split; auto. Qed.

Lemma grows_field name x fragments_ (s : Server W) :
  forwardable name x →
  grows s (set_gateway_client (mkGatewayClient (client_handle (gateway_client s))
    (emplace name x (fields (gateway_client s))) (Some fragments_) (ssl_handle (gateway_client s))) s).
Proof.
  intros Hx. split; cbn; auto.
  - intros n y. apply find_emplace_Some.
  - intros n y [?|(-> & -> & _)]%find_emplace_inv; [by left|by right].
  - apply sorted_emplace.
Qed.

Create HintDb growing.
#[local] Hint Resolve growing_ret growing_throw growing_undefined growing_get growing_deref growing_invoke
  growing_invoke_ growing_local growing_with_socket growing_ticket growing_modify grows_connected : growing.

(** One step through a callback. *)
Ltac growing_step :=
  lazymatch goal with
  | |- growing (_ ≫= _) => apply growing_bind; [|intros ?]
  | |- growing (loop _ _ _) => apply growing_loop; intros ?
  | |- growing (iter_list _ _) => apply growing_for_each; intros ?
  | |- growing (match _ with _ => _ end) => case_match
  | |- growing (local_object _) => apply growing_local
  | |- growing (when _ _) => unfold when
  | _ => solve [auto with growing]
  end.

Lemma WriteToSocket_growing bytes : growing (WriteToSocket bytes).
Proof. unfold WriteToSocket. repeat growing_step. Qed.

Lemma FlushWriteBio_growing : growing FlushWriteBio.
Proof. unfold FlushWriteBio. pose proof WriteToSocket_growing. repeat growing_step. Qed.

Lemma ParseRequest_growing buffer n : growing (ParseRequest buffer n).
Proof. unfold ParseRequest, execute_request. repeat growing_step. Qed.

Lemma ForwardRequest_growing request : growing (ForwardRequest request).
Proof. unfold ForwardRequest. repeat growing_step. Qed.

Lemma forward_selection_growing fragments_ x : growing (forward_selection fragments_ x).
Proof.
  destruct x as [? ? [name|] ? ? ?| |]; unfold forward_selection;
    [|by intros s0 a s' (? & ? & ? & _)%run_bind_ok|apply growing_ret..].
  apply growing_deref_some. destruct (find (identifier name) field_to_endpoint) as [endpoint|] eqn:E; [|by repeat growing_step].
  pose proof ForwardRequest_growing. apply growing_bind; [|intros ?; by repeat growing_step].
  apply growing_modify. intros s0. apply grows_field. split; [by eexists|done].
Qed.

Lemma forward_operation_growing x : growing (forward_operation x).
Proof.
  assert (Hall : ∀ fragments_ l, growing (forward_selections fragments_ l)).
  { intros fragments_. induction l as [|y l IH]; cbn [forward_selections]; [apply growing_ret|].
    pose proof (forward_selection_growing fragments_ y). by repeat growing_step. }
  assert (Hfind : ∀ l, growing (find_operation l)).
  { induction l as [|d l IH]; cbn [find_operation]; by repeat growing_step. }
  unfold forward_operation, select_operation. repeat first [apply Hfind|apply Hall|growing_step].
Qed.

Lemma on_read_growing stream length_ base : growing (on_read stream length_ base).
Proof.
  unfold on_read, accept_handshake. pose proof FlushWriteBio_growing. pose proof ParseRequest_growing.
  pose proof forward_operation_growing. by repeat growing_step.
Qed.

Lemma event_growing e : growing (handle_event e).
Proof.
  destruct e; cbn [handle_event]; [|apply on_read_growing|..];
    unfold OnNewConnection, OnResolvedIpv4, OnClientConnect, OnForwardRequestRead, HandleSignal, OnInterval, Close;
    by repeat growing_step.
Qed.

Lemma run_events_growing events : growing (run_events events).
Proof. apply growing_for_each, event_growing. Qed.

(** A sorted map with one possible name has one entry at most. *)
Lemma one_name {V} (m : std_map ustring V) name :
  sorted m → (∀ n x, find n m = Some x → n = name) → m = [] ∨ ∃ x, m = [(name, x)].
Proof.
  intros Hs Hm. destruct m as [|[n x] [|[n' y] m]]; [by left|right|].
  - exists x. by rewrite (Hm n x) by (simpl; by rewrite decide_True).
  - assert (Hn : n = name) by (apply (Hm n x); simpl; by rewrite decide_True).
    assert (Hn' : n' = name).
    { apply (Hm n' y), (sorted_elem_find None); [exact Hs|by right; left]. }
    subst. destruct Hs as (_ & Hlt & _). by rewrite key_ltb_irrefl in Hlt.
Qed.

(** C11: whatever libuv calls the gateway for, in whatever order -- connections,
    reads of clients, lookups, connections to endpoints, answers, signals, the timer --,
    in every state it gets to no field waits, or the one field that has an endpoint
    does, under its name; the handles of the client's socket and of its session are set
    together; blocks of the pool were only taken, from its top; and what waits in this
    state waits, with the same selection, in every later one. *)
Theorem gateway_invariant events later s0 s s' :
  gateway_client s0 = new_GatewayClient →
  run_events events s0 = Ok tt s → run_events later s = Ok tt s' →
  (fields (gateway_client s) = [] ∨
    ∃ x, fields (gateway_client s) = [(u "field", x)] ∧ forwardable (u "field") x) ∧
  (client_handle (gateway_client s) = None ↔ ssl_handle (gateway_client s) = None) ∧
  free_blocks (memory_pool s) `suffix_of` free_blocks (memory_pool s0) ∧
  ∀ name x, find name (fields (gateway_client s)) = Some x →
    find name (fields (gateway_client s')) = Some x.
Proof.
  intros Hnew Hrun%run_events_growing Hlater%run_events_growing. destruct Hrun as [Hb _ Hf Hs Hh _].
  rewrite Hnew in Hf, Hs, Hh. specialize (Hs I). split_and!.
  - assert (Hone : ∀ name x, find name (fields (gateway_client s)) = Some x → forwardable name x)
      by (intros name x [?|?]%Hf; done).
    destruct (one_name (fields (gateway_client s)) (u "field") Hs) as [?|[x Hx]].
    + intros name x [[e He] _]%Hone. unfold field_to_endpoint in He. simpl in He. by case_decide.
    + by left.
    + right. exists x. split; [done|]. apply Hone. rewrite Hx. reflexivity.
  - destruct Hh as [[-> ->]|[[h ->] [h' ->]]]; done.
  - exact Hb.
  - apply Hlater.
Qed.
End events.

(** *** Signals *)

(** A handle watches one signal, the one it was started with last, and nothing but
    the calls on signals changes what is watched. *)
Class WatchesSignals (W Address : Type) `{Platform W Address} `{Setup W Address} `{FileSystem W} := {
  watched : W → handle → option signal;
  watched_init w h : watched (uv_signal_init w).2 h = watched w h;
  watched_start h n w h' :
    watched (uv_signal_start h n w).2 h' = if decide (h' = h) then Some n else watched w h';
  watched_new_handle w : watched (uv_new_handle w).2 = watched w;
  watched_timer_init w : watched (uv_timer_init w).2 = watched w;
  watched_timer_start h timeout repeat w : watched (uv_timer_start h timeout repeat w).2 = watched w;
  watched_bind h address flags w : watched (uv_tcp_bind h address flags w).2 = watched w;
  watched_listen h backlog w : watched (uv_listen h backlog w).2 = watched w;
  watched_library_init w : watched (SSL_library_init w) = watched w;
  watched_error_strings w : watched (SSL_load_error_strings w) = watched w;
  watched_CTX_new w : watched (SSL_CTX_new w).2 = watched w;
  watched_options ctx option w : watched (SSL_CTX_set_options ctx option w) = watched w;
  watched_key_new c w : watched (EC_KEY_new_by_curve_name c w).2 = watched w;
  watched_set_key ctx key w : watched (SSL_CTX_set_tmp_ecdh ctx key w).2 = watched w;
  watched_key_free key w : watched (EC_KEY_free key w) = watched w;
  watched_certificate ctx file w : watched (SSL_CTX_use_certificate_file ctx file w).2 = watched w;
  watched_private_key ctx file w : watched (SSL_CTX_use_PrivateKey_file ctx file w).2 = watched w;
  watched_ciphers ctx list_ w : watched (SSL_CTX_set_cipher_list ctx list_ w).2 = watched w;
  watched_canonical p w q w' : weakly_canonical p w = Ok q w' → watched w' = watched w;
  watched_location w q w' : program_location w = Ok q w' → watched w' = watched w
}.

Section signals.
Context {W Address : Type} `{WatchesSignals W Address}.

Definition unwatching {A} (m : M W A) : Prop := ∀ w a w', m w = Ok a w' → watched w' = watched w.

Lemma unwatching_bind {A B} (m : M W A) (k : A → M W B) :
  unwatching m → (∀ a, unwatching (k a)) → unwatching (m ≫= k).
Proof.
  intros Hm Hk w b w' (a & w1 & Hm1 & Hk1)%run_bind_ok. by rewrite (Hk _ _ _ _ Hk1), (Hm _ _ _ Hm1).
Qed.

Lemma unwatching_ret {A} (a : A) : unwatching (mret a).
Proof. by intros w ? ? [= _ ->]. Qed.

Lemma unwatching_throw {A} e : unwatching (throw e : M W A).
Proof. by intros w a w' ?. Qed.

Lemma unwatching_call {A} (f : W → A * W) : (∀ w, watched (f w).2 = watched w) → unwatching (HttpServer.call f).
Proof. intros Hf w a w'. unfold HttpServer.call. specialize (Hf w). destruct (f w). by intros [= _ <-]. Qed.

Lemma unwatching_call_ (f : W → W) : (∀ w, watched (f w) = watched w) → unwatching (call_ f).
Proof. by intros Hf w a w' [= _ <-]. Qed.

Lemma unwatching_gets {A} (f : W → A) : unwatching (gets f).
Proof. by intros w a w' [= _ <-]. Qed.

Lemma unwatching_local {S A} (m : outcome S A) : unwatching (local_object m).
Proof. by intros w [a x] w' [_ ->]%run_local_ok. Qed.

Create HintDb unwatching.
#[local] Hint Resolve unwatching_bind unwatching_ret unwatching_throw unwatching_gets unwatching_local
  watched_new_handle watched_timer_init watched_timer_start watched_bind watched_listen
  watched_library_init watched_error_strings watched_CTX_new watched_options watched_key_new
  watched_set_key watched_key_free watched_certificate watched_private_key watched_ciphers : unwatching.

(** One step through a procedure that watches nothing. *)
Ltac unwatching_step :=
  first
    [ apply unwatching_bind; [|intros ?] | apply unwatching_call; auto with unwatching
    | apply unwatching_call_; auto with unwatching | case_match | solve [auto with unwatching] ].

Lemma canonical_unwatching p : unwatching (weakly_canonical p).
Proof. intros w a w'. apply watched_canonical. Qed.

Lemma location_unwatching : unwatching program_location.
Proof. intros w a w'. apply watched_location. Qed.

Lemma resolve_unwatching p q : unwatching (resolve_paths p q).
Proof. apply canonical_unwatching. Qed.

#[local] Hint Resolve canonical_unwatching location_unwatching resolve_unwatching : unwatching.

Lemma SetSecurityContext_unwatching : unwatching SetSecurityContext.
Proof. unfold SetSecurityContext, use_certificates. repeat unwatching_step. Qed.

Lemma start_timer_unwatching : unwatching start_timer.
Proof. unfold start_timer. repeat unwatching_step. Qed.

Lemma listen_on_unwatching host_ port_ : unwatching (listen_on host_ port_).
Proof. unfold listen_on. repeat unwatching_step. Qed.

(** The signal of the last call is the one the handle watches. *)
Lemma watch_signals_watched w w' :
  watch_signals w = Ok tt w' →
  ∃ h, ∀ h', watched w' h' = if decide (h' = h) then Some SIGHUP else watched w h'.
Proof.
  unfold watch_signals, HttpServer.call, mbind, M_bind. pose proof (watched_init w) as Hinit.
  destruct (uv_signal_init w) as [h w1]. cbn [snd] in Hinit.
  pose proof (watched_start h SIGTERM w1) as Hterm. destruct (uv_signal_start h SIGTERM w1) as [r1 w2].
  pose proof (watched_start h SIGINT w2) as Hint. destruct (uv_signal_start h SIGINT w2) as [r2 w3].
  pose proof (watched_start h SIGHUP w3) as Hhup. destruct (uv_signal_start h SIGHUP w3) as [r3 w4].
  intros [= <-]. exists h. intros h'. cbn [snd] in *. rewrite Hhup, Hint, Hterm, Hinit. by repeat case_decide.
Qed.

(** C38: once the gateway listens it is told of [SIGHUP] and of no other signal,
    though [Listen] asks for [SIGTERM] and [SIGINT] as well: the three calls are on
    one handle, which watches the signal it was started with last. *)
Theorem listen_watches_hangup start host_ port_ w l w' :
  (∀ h, watched w h = None) → Listen start host_ port_ w = Ok l w' →
  ∃ h, ∀ h', watched w' h' = if decide (h' = h) then Some SIGHUP else None.
Proof.
  intros Hw HL.
  unfold Listen in HL. apply run_bind_ok in HL as (? & w1 & E1 & HL).
  apply run_bind_ok in HL as (? & w2 & E2 & HL). apply run_bind_ok in HL as (parent & w3 & E3 & HL).
  apply run_bind_ok in HL as (ctx & w4 & E4 & HL). apply run_bind_ok in HL as (pool & w5 & E5 & HL).
  apply run_bind_ok in HL as ([] & w6 & E6 & HL). apply run_bind_ok in HL as (? & w7 & E7 & HL).
  apply run_bind_ok in HL as (? & w8 & E8 & [= _ <-]).
  destruct (watch_signals_watched _ _ E6) as [h Hh]. exists h. intros h'.
  rewrite (listen_on_unwatching _ _ _ _ _ E8), (start_timer_unwatching _ _ _ E7), Hh.
  rewrite (unwatching_local _ _ _ _ E5), (SetSecurityContext_unwatching _ _ _ E4),
    (unwatching_gets _ _ _ _ E3), (unwatching_call_ _ watched_error_strings _ _ _ E2),
    (unwatching_call_ _ watched_library_init _ _ _ E1). by rewrite Hw.
Qed.
End signals.

(** ** A platform *)

(** It records the lookups and what each socket was given; its TLS sessions are
    ready and give the number and the bytes. *)
Record trace := mkTrace {
  trace_lookups : list (list Z * ClientRequest);
  trace_sent : list (handle * list Z);
  trace_signals : list (handle * signal)
}.

Definition sent_to (h : handle) (w : trace) : list Z :=
  concat (map snd (filter (λ e, e.1 = h) (trace_sent w))).

Definition recording (read_size : nat) (buffer : list Z) (read_query : list Z → exn + ustring) :
    Platform trace unit := {|
  uv_new_handle w := (0%nat, w);
  uv_accept _ w := (0%Z, w);
  uv_read_start _ w := (0%Z, w);
  uv_close _ w := w;
  uv_send h bytes w := (0%Z, mkTrace (trace_lookups w) (trace_sent w ++ [(h, bytes)]) (trace_signals w));
  uv_getaddrinfo name _ request w :=
    (0%Z, mkTrace (trace_lookups w ++ [(name, request)]) (trace_sent w) (trace_signals w));
  uv_ip4_name _ := (0%Z, u "127.0.0.1");
  uv_ip4_addr _ _ := (0%Z, tt);
  uv_tcp_connect _ _ _ w := w;
  SSL_new _ w := (0%nat, w);
  SSL_is_init_finished _ _ := true;
  BIO_write _ _ _ w := w;
  SSL_accept _ w := w;
  SSL_read _ _ w := ((Z.of_nat read_size, buffer), w);
  wbio_read _ _ w := ([], w);
  wbio_pending _ _ := 0%nat;
  json_query := read_query
|}.

(** The sessions have nothing to read. *)
#[local] Instance recording_platform : Platform trace unit := recording 0 [] (λ body_,
  if decide (body_ = request_body) then inr (u "{ field }") else inl (std_logic_error body_)).

#[local] Instance trace_paths : Paths := {|
  Files.path := list Z;
  path_of text := text;
  path_string p := p;
  path_div p q := p ++ [Character.Slash] ++ q;
  path_filename p := p
|}.

(** Paths are canonical, and nothing else of the file system is used. *)
#[local] Instance trace_files : FileSystem trace := {|
  exists_ _ := mret false;
  is_directory _ := mret false;
  create_directory _ := mret false;
  create_directories _ := mret tt;
  remove _ := mret tt;
  remove_all _ := mret tt;
  copy_file _ _ := mret tt;
  directory_entries _ := mret [];
  weakly_canonical p := mret p;
  program_location := λ w, Ok (u "/gateway/bin/flash") w;
  stream_content _ := mret None;
  stream_write _ _ := mret tt;
  glob_names _ := mret [];
  popen _ := mret None
|}.

#[local] Instance trace_setup : Setup trace unit := {|
  getppid _ := 1%Z;
  uv_signal_init w := (0%nat, w);
  uv_signal_start h n w :=
    (0%Z, mkTrace (trace_lookups w) (trace_sent w) ((h, n) :: trace_signals w));
  uv_timer_init w := (0%nat, w);
  uv_timer_start _ _ _ w := (0%Z, w);
  uv_tcp_bind _ _ _ w := (0%Z, w);
  uv_listen _ _ w := (0%Z, w);
  uv_loop_close w := (0%Z, w);
  SSL_library_init w := w;
  SSL_load_error_strings w := w;
  SSL_CTX_new w := (0%nat, w);
  SSL_CTX_set_options _ _ w := w;
  EC_KEY_new_by_curve_name _ w := (Some 0%nat, w);
  SSL_CTX_set_tmp_ecdh _ _ w := (1%Z, w);
  EC_KEY_free _ w := w;
  SSL_CTX_use_certificate_file _ _ w := (1%Z, w);
  SSL_CTX_use_PrivateKey_file _ _ w := (1%Z, w);
  SSL_CTX_set_cipher_list _ _ w := (1%Z, w)
|}.

Definition trace_watched (w : trace) (h : handle) : option signal :=
  head (omap (λ x : handle * signal, if decide (h = x.1) then Some x.2 else None) (trace_signals w)).

#[local] Instance trace_watches : WatchesSignals trace unit.
Proof.
  refine {| watched := trace_watched |}; try done.
  - intros h n w h'. unfold trace_watched. cbn. by case_decide.
  - by intros p w q w' [= _ <-].
  - by intros w q w' [= _ <-].
Defined.

Definition idle : trace := mkTrace [] [] [].

(** The state [Listen] leaves of it. *)
Definition listening : trace := mkTrace [] [] [(0%nat, SIGHUP); (0%nat, SIGINT); (0%nat, SIGTERM)].

Lemma idle_listens : ∃ l, Listen 65536 (u "0.0.0.0") 8000 idle = Ok l listening.
Proof.
  assert (Hok : match Listen 65536 (u "0.0.0.0") 8000 idle with Ok _ w => w = listening | _ => False end)
    by (vm_compute; reflexivity).
  destruct (Listen 65536 (u "0.0.0.0") 8000 idle) as [l w| | |]; [|destruct Hok..]. exists l. by subst w.
Qed.

Lemma listen_watches_hangup_witness :
  (∀ h, watched idle h = None) ∧ ∃ l, Listen 65536 (u "0.0.0.0") 8000 idle = Ok l listening ∧
  ∃ h, ∀ h', watched listening h' = if decide (h' = h) then Some SIGHUP else None.
Proof.
  assert (Hw : ∀ h, watched idle h = None) by reflexivity. split; [exact Hw|].
  destruct idle_listens as [l HL]. exists l. split; [exact HL|].
  exact (listen_watches_hangup 65536 (u "0.0.0.0") 8000 idle l listening Hw HL).
Defined.


(** A server whose pool has the given number of blocks left. *)
Definition server_with (n : nat) (w : trace) : Server trace :=
  mkServer w (mkMemoryPool 4096 40960000 65536 (map Z.of_nat (seq 0 n)) ∅) new_GatewayClient
    1 0%nat.

Definition gateway_endpoint : BackendEndpoint :=
  mkBackendEndpoint (u "http://localhost:4000/graphql") (u "localhost:4000") (u "localhost") 4000
    (u "/graphql").


Definition gateway_request : list Z * nat :=
  (request_text (upstream_request gateway_endpoint) ++ replicate 8 0%Z,
   length (request_text (upstream_request gateway_endpoint))).

Lemma gateway_request_parsed s :
  free_blocks (memory_pool s) ≠ [] →
  ∃ r, ParseRequest (fst gateway_request) (snd gateway_request) s = Ok r (with_ticket s).
Proof.
  intros Hs. unfold ParseRequest.
  destruct (parse_request (fst gateway_request) (snd gateway_request)) as [r t| | |] eqn:Hr;
    [|vm_compute in Hr; discriminate..].
  erewrite run_bind by done. cbv beta. cbn [fst].
  destruct (run_ticket (λ _, execute_request r) s Hs) as [ticket ->].
  assert (Hb : HttpParser.body r = Some request_body) by (vm_compute in Hr; by injection Hr as <-).
  unfold execute_request.
  erewrite run_bind by (unfold local_object; by rewrite gateway_schema_constructed).
  assert (Hjson : json_query request_body = inr (u "{ field }")) by (vm_compute; reflexivity).
  rewrite Hb, Hjson. cbn [snd].
  destruct (execute_on_schema gateway_schema (u "{ field }")) as [x e| | |] eqn:He;
    [|vm_compute in He; discriminate..].
  erewrite run_bind by done. by eexists.
Qed.


(** A pool that is used up. *)
Example request_without_block :
  ParseRequest (fst gateway_request) (snd gateway_request) (server_with 0 idle) = Undefined.
Proof. vm_compute. reflexivity. Qed.

(** A request that is no HTTP is an exception in a callback of libuv. *)
Example malformed_request_throws :
  ∃ e, ParseRequest (u "GARBAGE        ") 7 (server_with 1 idle) = Throw e (server_with 1 idle).
Proof. eexists. vm_compute. reflexivity. Qed.

Definition example_fields : list Selection :=
  [Field (new_Syntax S_Field 0 5) None (Some (mkName (new_Syntax S_Name 0 5) (u "field"))) None [] None;
   FragmentSpread (new_Syntax S_FragmentSpread 0 5) (mkName (new_Syntax S_Name 0 5) (u "f")) [];
   Field (new_Syntax S_Field 0 5) None (Some (mkName (new_Syntax S_Name 0 5) (u "field"))) None [] None].

Lemma forward_selections_lookups_witness :
  Forall has_name example_fields ∧ forwarded example_fields = [gateway_endpoint] ∧
  wp False (forward_selections [] example_fields)
    (λ _ s', trace_lookups (platform s') = [] ++ map lookup_of (forwarded example_fields) ∧
      memory_pool s' = memory_pool (server_with 1 idle) ∧ ssl_handle (gateway_client s') = None ∧
      client_handle (gateway_client s') = None)
    (λ _ _, False) (server_with 1 idle).
Proof.
  assert (Hn : Forall has_name example_fields)
    by (repeat (apply list.Forall_cons; split); [by eexists|done|by eexists|by apply list.Forall_nil]).
  split; [exact Hn|]. split; [vm_compute; reflexivity|].
  exact (forward_selections_lookups trace_lookups (λ _ _ _ _, conj eq_refl eq_refl) []
    example_fields (server_with 1 idle) Hn).
Defined.

(** A query with two operations, the second of which has the default name. *)
Definition client_operation : query_definition :=
  OperationOf Query (Some default_operation)
    [FieldOf None (u "field") [] None; FieldOf (Some (u "field")) (u "field") [] None;
     SpreadOf (u "f"); FieldOf None (u "field") [] None].

Definition client_query : list query_definition :=
  [OperationOf Query (Some (u "other")) [FieldOf None (u "field") [] None]; client_operation;
   FragmentOf (u "f") (u "Query") [FieldOf None (u "field") [] None]].

Definition client_text : ustring := spaced (query_lexemes client_query).

Definition client_body : list Z :=
  u "{ " ++ quoted (u "query") ++ u ": " ++ quoted client_text ++ u " }".

(** Its content length is that of the body. *)
Definition client_request : request :=
  mkRequest HttpMethod.Post (u "POST") (u "/graphql") []
    [(u "Host", u "localhost:8000"); (u "Content-Type", u "application/json; charset=utf-8");
     (u "Content-Length", u "127")]
    client_body.

Example client_body_length : length client_body = 127%nat.
Proof. vm_compute. reflexivity. Qed.

Lemma client_carries n buffer :
  carries (H := recording n buffer (λ _, inr client_text)) client_request client_query.
Proof.
  split.
  - split.
    + by apply (list_elem_of_lookup_2 _ 1).
    + eexists. split; reflexivity.
    + by left.
    + solve_headers.
  - vm_compute. reflexivity.
  - exists client_body, client_text. split; [vm_compute; reflexivity|]. split; [reflexivity|].
    apply rendering_spaced. vm_compute. reflexivity.
Qed.

(** Sixteen characters of the buffer are left behind the request. *)
Definition client_platform : Platform trace unit :=
  recording (length (request_text client_request)) (request_text client_request ++ replicate 16 0%Z)
    (λ _, inr client_text).

Definition client_server : Server trace :=
  set_gateway_client (mkGatewayClient (Some 0%nat) [] None (Some 1%nat)) (server_with 1 idle).


(** A client asks for two fields, a backend is resolved and connected to, and another
    client connects. *)
Definition example_events : list (event (Address := unit)) :=
  [NewConnection 0%nat; Read 0%nat 1%Z []; ResolvedIpv4 (connected_request gateway_endpoint 3%nat) (Some tt);
   ClientConnect (connected_request gateway_endpoint 3%nat); Signal SIGHUP; NewConnection 0%nat].

Abbreviation run_example events s := (run_events (H := client_platform) (H0 := trace_setup) events s).

Definition after_events (events : list event) (s : Server trace) : Server trace :=
  match run_example events s with Ok _ s' => s' | _ => s end.

Lemma gateway_invariant_witness :
  let s := after_events example_events (server_with 1 idle) in
  let s' := after_events [Read 0%nat 0%Z []; Interval] s in
  gateway_client (server_with 1 idle) = new_GatewayClient ∧
  run_example example_events (server_with 1 idle) = Ok tt s ∧
  run_example [Read 0%nat 0%Z []; Interval] s = Ok tt s' ∧
  trace_lookups (platform s) = map lookup_of [gateway_endpoint; gateway_endpoint] ∧
  (fields (gateway_client s) = [] ∨
    ∃ x, fields (gateway_client s) = [(u "field", x)] ∧ forwardable (u "field") x) ∧
  (client_handle (gateway_client s) = None ↔ ssl_handle (gateway_client s) = None) ∧
  free_blocks (memory_pool s) `suffix_of` free_blocks (memory_pool (server_with 1 idle)) ∧
  ∀ name x, find name (fields (gateway_client s)) = Some x →
    find name (fields (gateway_client s')) = Some x.
Proof.
  intros s s'. assert (Hrun : run_example example_events (server_with 1 idle) = Ok tt s) by (vm_compute; reflexivity).
  assert (Hlater : run_example [Read 0%nat 0%Z []; Interval] s = Ok tt s') by (vm_compute; reflexivity).
  split; [reflexivity|]. split; [exact Hrun|]. split; [exact Hlater|]. split; [vm_compute; reflexivity|].
  clearbody s' s.
  exact (gateway_invariant (H := client_platform) (H0 := trace_setup) example_events
    [Read 0%nat 0%Z []; Interval] (server_with 1 idle) s s' eq_refl Hrun Hlater).
Defined.

Lemma connect_sends_requests_witness :
  let s := set_gateway_client (mkGatewayClient None [(u "field", FragmentSpread
    (new_Syntax S_FragmentSpread 0 5) (mkName (new_Syntax S_Name 0 5) (u "f")) [])] None None)
    (server_with 1 idle) in
  find (u "field") field_to_endpoint = Some gateway_endpoint ∧
  wp False (OnClientConnect (connected_request gateway_endpoint 3))
    (λ _ s', sent_to 3 (platform s') = [] ++ concat (replicate 1
        (request_text (upstream_request gateway_endpoint))) ∧
      memory_pool s' = memory_pool s ∧ gateway_client s' = gateway_client s)
    (λ _ _, False) s.
Proof.
  intros s. assert (He : find (u "field") field_to_endpoint = Some gateway_endpoint) by reflexivity.
  split; [exact He|].
  assert (Htakes : ∀ (h : handle) bytes (w : trace), (0 ≤ (uv_send h bytes w).1)%Z ∧
    sent_to h (uv_send h bytes w).2 = sent_to h w ++ bytes).
  { intros h bytes w. split; [done|]. unfold sent_to. simpl.
    rewrite list.filter_app, map_app, concat_app. f_equal.
    rewrite filter_cons_True by done. simpl. by rewrite app_nil_r. }
  exact (proj2 (proj2 (connect_sends_requests sent_to Htakes (λ _ _, eq_refl) (u "field")
    gateway_endpoint 3 s He))).
Defined.
