(* ===== verification/MemoryPoolProperties.v ===== *)
(** * Properties of the memory pool

    The functional behaviour of [Allocate], and the safety of the pool as a
    system: whatever tickets are taken, used and returned, the objects of the
    live tickets never overlap. *)
From stdpp Require Import gmap relations.
From S2P Require Import Prelude Monad MemoryPool.
Local Open Scope Z_scope.

(** The pool, whose addresses do not wrap around. *)
Record pool_ok (p : MemoryPool) : Prop := {
  ok_block_size : sizeof_MemoryPoolTicket ≤ block_size p;
  ok_start : 0 ≤ start_address_of_pool p;
  ok_total : 0 ≤ total_size p;
  ok_end : start_address_of_pool p + total_size p < 2 ^ 63
}.

Definition block_ok (p : MemoryPool) (x : Z) : Prop := 0 ≤ x < total_size p / block_size p.

(** The address of block [x], without wrap-around. *)
Definition base (p : MemoryPool) (x : Z) : Z := start_address_of_pool p + x * block_size p.

Definition ticket_ok (p : MemoryPool) (t : MemoryPoolTicket) : Prop :=
  block_ok p (block t) ∧ 0 ≤ offset t ≤ block_size p.

(** Requests that do not wrap around. *)
Definition request_ok (size alignment : Z) : Prop := 0 ≤ size < 2 ^ 62 ∧ 0 ≤ alignment < 2 ^ 62.

Lemma u64_small z : 0 ≤ z < 2 ^ 64 → u64 z = z.
Proof. apply Z.mod_small. Qed.

Section addresses.
Context (p : MemoryPool) (Hp : pool_ok p).

Lemma block_inside x : block_ok p x →
  start_address_of_pool p ≤ base p x ∧
  base p x + block_size p ≤ start_address_of_pool p + total_size p.
Proof.
  destruct Hp as [Hb Hs Ht He]. unfold block_ok, base, sizeof_MemoryPoolTicket in *. intros Hx.
  pose proof (Z.mul_div_le (total_size p) (block_size p) ltac:(lia)). nia.
Qed.

Lemma block_address_base x : block_ok p x → block_address p x = base p x.
Proof.
  intros Hx. destruct (block_inside x Hx) as [Hlo Hhi]. destruct Hp as [Hb Hs Ht He].
  unfold block_address, base, sizeof_MemoryPoolTicket in *.
  rewrite (u64_small (x * _)) by lia. apply u64_small. lia.
Qed.

(** Distinct blocks are apart. *)
Lemma base_apart x y : x ≠ y → base p x + block_size p ≤ base p y ∨ base p y + block_size p ≤ base p x.
Proof. destruct Hp as [Hb _ _ _]. unfold base, sizeof_MemoryPoolTicket in *. nia. Qed.

(** The padding brings the address to the next multiple of the alignment. *)
Lemma padding_bound alignment t a :
  0 ≤ alignment < 2 ^ 62 → 0 ≤ a < 2 ^ 63 → 0 ≤ padding_of alignment t a ≤ alignment.
Proof.
  intros Hal Ha. unfold padding_of.
  destruct (negb (alignment =? 0) && negb (offset t mod alignment =? 0)) eqn:E; [|lia].
  bool_hyps. pose proof (Z.div_mod a alignment ltac:(lia)) as Hdm.
  pose proof (Z.mod_pos_bound a alignment ltac:(lia)).
  assert (0 ≤ a / alignment ≤ a) by (split; [apply Z.div_pos; lia|apply Z.div_le_upper_bound; nia]).
  rewrite (u64_small (a / alignment + 1)) by lia.
  assert ((a / alignment + 1) * alignment = a - a mod alignment + alignment) as -> by lia.
  rewrite (u64_small (a - a mod alignment + alignment)) by lia. rewrite u64_small; lia.
Qed.
End addresses.

(** ** What [Allocate] does *)

(** The padding in front of an allocation through ticket [t]. *)
Definition padding (p : MemoryPool) (alignment : Z) (t : MemoryPoolTicket) : Z :=
  padding_of alignment t (base p (block t) + offset t).

Definition fits (p : MemoryPool) (size alignment : Z) (t : MemoryPoolTicket) : bool :=
  offset t + padding p alignment t + size <=? block_size p.

(** The ticket behind an allocation in its block. *)
Definition bumped (p : MemoryPool) (size alignment : Z) (t : MemoryPoolTicket) : MemoryPoolTicket :=
  mkTicket (offset t + padding p alignment t + size) (block t).

Definition write_tickets (tk : Z) (t : MemoryPoolTicket) (p : MemoryPool) : MemoryPool :=
  set_tickets (<[tk := t]> (tickets p)) p.

(** The specification of [Allocate]: bump the offset, or move to the free
    block on top and start there; undefined when that block is too small or
    missing. *)
Definition allocate_spec (size alignment tk : Z) (t : MemoryPoolTicket) (p : MemoryPool) :
    outcome MemoryPool Z :=
  if fits p size alignment t then
    Ok (base p (block t) + offset t) (write_tickets tk (bumped p size alignment t) p)
  else match free_blocks p with
  | [] => Undefined
  | x :: rest =>
      if size <=? block_size p then
        Ok (base p x) (write_tickets tk (mkTicket size x) (set_free_blocks rest p))
      else Undefined
  end.

Lemma padding_fresh p alignment x : padding p alignment (mkTicket 0 x) = 0.
Proof.
  unfold padding, padding_of. simpl. destruct (Z.eqb_spec alignment 0); done.
Qed.

Lemma fits_fresh p size alignment x : fits p size alignment (mkTicket 0 x) = (size <=? block_size p).
Proof. unfold fits. by rewrite padding_fresh. Qed.

(** One call of the recursion. *)
Lemma Allocate_rec_step fuel size alignment tk t p :
  pool_ok p → ticket_ok p t → request_ok size alignment → tickets p !! tk = Some t →
  Allocate_rec (S fuel) size alignment tk p =
    if fits p size alignment t then
      Ok (base p (block t) + offset t) (write_tickets tk (bumped p size alignment t) p)
    else match free_blocks p with
    | [] => Undefined
    | x :: rest =>
        if x =? 2 ^ 64 - 1
        then Throw out_of_memory (write_tickets tk (mkTicket 0 x) (set_free_blocks rest p))
        else Allocate_rec fuel size alignment tk
          (write_tickets tk (mkTicket 0 x) (set_free_blocks rest p))
    end.
Proof.
  intros Hp [Hb Ho] [Hs Ha] Ht. pose proof (block_inside p Hp _ Hb). pose proof Hp as [].
  simpl. unfold read_ticket, get, mbind, M_bind. rewrite Ht. simpl.
  rewrite block_address_base, (u64_small (base _ _ + _)) by (done || lia).
  fold (padding p alignment t).
  pose proof (padding_bound alignment t (base p (block t) + offset t) Ha ltac:(lia)) as Hpad.
  fold (padding p alignment t) in Hpad.
  rewrite (u64_small (offset t + padding _ _ _)), (u64_small (_ + size)) by lia.
  unfold fits. rewrite Z.leb_antisym.
  destruct (Z.ltb_spec (block_size p) (offset t + padding p alignment t + size)); simpl.
  - unfold AllocateBlock, get, mbind, M_bind. destruct (free_blocks p) as [|x rest]; [done|].
    simpl. by destruct (x =? 2 ^ 64 - 1).
  - rewrite (u64_small (padding _ _ _ + size)), u64_small by lia.
    unfold write_tickets, bumped, write_ticket, modify, mbind, M_bind, mret, M_ret.
    by rewrite Z.add_assoc.
Qed.

(** The state after the ticket moved to the free block [x]. *)
Definition moved (tk x : Z) (rest : list Z) (p : MemoryPool) : MemoryPool :=
  write_tickets tk (mkTicket 0 x) (set_free_blocks rest p).

Lemma moved_lookup tk x rest p : tickets (moved tk x rest p) !! tk = Some (mkTicket 0 x).
Proof. apply lookup_insert_eq. Qed.

Lemma moved_ok tk x rest p : pool_ok p → pool_ok (moved tk x rest p).
Proof. by intros []. Qed.

Lemma fresh_ok tk x rest p : pool_ok p → block_ok p x → ticket_ok (moved tk x rest p) (mkTicket 0 x).
Proof.
  intros [Hb _ _ _] Hx. unfold sizeof_MemoryPoolTicket in Hb. split; simpl; [done|lia].
Qed.

Lemma block_not_max p x : pool_ok p → block_ok p x → (x =? 2 ^ 64 - 1) = false.
Proof.
  intros [Hb Hs Ht He] [Hx Hlt]. unfold sizeof_MemoryPoolTicket in Hb. apply Z.eqb_neq.
  pose proof (Z.div_le_upper_bound (total_size p) (block_size p) (total_size p)
    ltac:(lia) ltac:(nia)). lia.
Qed.

(** A request larger than a block goes through all the free blocks. *)
Lemma oversize_undefined fuel size alignment tk x rest p :
  pool_ok p → block_ok p x → Forall (block_ok p) rest → request_ok size alignment →
  (length rest < fuel)%nat → block_size p < size →
  Allocate_rec fuel size alignment tk (moved tk x rest p) = Undefined.
Proof.
  intros Hp Hx Hrest Hreq. revert x rest p Hp Hx Hrest.
  induction fuel as [|fuel IH]; intros x rest p Hp Hx Hrest Hf Hsize; [lia|].
  rewrite (Allocate_rec_step _ _ _ _ (mkTicket 0 x)); [|by apply moved_ok|by apply fresh_ok|done
    |apply moved_lookup].
  rewrite fits_fresh. destruct (Z.leb_spec size (block_size (moved tk x rest p))); [simpl in *; lia|].
  destruct rest as [|y rest]; [done|]. apply list.Forall_cons in Hrest as [Hy Hrest]. simpl.
  rewrite (block_not_max p) by done.
  apply (IH y rest (moved tk x (y :: rest) p)); [by apply moved_ok|done..|simpl in Hf; lia|done].
Qed.

(** C26: an allocation that fits in the ticket's block gets the address at the
    ticket's offset and bumps the offset behind the padding and the object;
    one that does not fit moves the ticket to the free block on top and gets
    its start.  Without a free block, or for an object larger than a block,
    the call has used up all free blocks and its behaviour is undefined. *)
Theorem allocate_verdict size alignment tk t p :
  pool_ok p → ticket_ok p t → request_ok size alignment → tickets p !! tk = Some t →
  Forall (block_ok p) (free_blocks p) →
  Allocate size alignment tk p = allocate_spec size alignment tk t p.
Proof.
  intros Hp Ht Hreq Htk Hfree. unfold Allocate, gets, mbind, M_bind.
  rewrite (Allocate_rec_step _ _ _ _ t) by done. unfold allocate_spec.
  destruct (fits p size alignment t); [done|].
  destruct (free_blocks p) as [|x rest]; [done|]. apply list.Forall_cons in Hfree as [Hx Hrest].
  rewrite (block_not_max p) by done. fold (moved tk x rest p).
  destruct (Z.leb_spec size (block_size p)) as [Hle|Hgt].
  - rewrite (Allocate_rec_step _ _ _ _ (mkTicket 0 x)); [|by apply moved_ok|by apply fresh_ok|done
      |apply moved_lookup].
    rewrite fits_fresh. destruct (Z.leb_spec size (block_size (moved tk x rest p))) as [_|];
      [|simpl in *; lia].
    unfold bumped. rewrite padding_fresh. simpl. rewrite Z.add_0_r. f_equal.
    unfold moved, write_tickets, set_tickets. simpl. by rewrite insert_insert_eq.
  - apply oversize_undefined; try done. simpl. lia.
Qed.

(** The pool of the HTTP server with three blocks, and one ticket. *)
Definition example_pool : MemoryPool :=
  mkMemoryPool 4096 12288 65536 [1; 0] {[ 73728 := mkTicket 16 2 ]}.

Lemma allocate_verdict_witness :
  allocate_spec 100 8 73728 (mkTicket 16 2) example_pool =
    Ok 73744 (write_tickets 73728 (mkTicket 116 2) example_pool) ∧
  Allocate 100 8 73728 example_pool = allocate_spec 100 8 73728 (mkTicket 16 2) example_pool ∧
  Allocate 5000 8 73728 example_pool = Undefined.
Proof.
  split; [reflexivity|]. split; [|reflexivity].
  apply allocate_verdict; [done|done|done|reflexivity|].
  repeat (apply list.Forall_cons; split); [done|done|by apply list.Forall_nil].
Defined.

(** The padding is reserved, but the address that is returned is the one
    before it: it is aligned exactly when the offset of the ticket already
    was.  (The blocks themselves may well be aligned.) *)
Theorem allocate_alignment size alignment tk t p a p' :
  pool_ok p → ticket_ok p t → request_ok size alignment → tickets p !! tk = Some t →
  Forall (block_ok p) (free_blocks p) → 0 < alignment →
  (∀ x, block_ok p x → (alignment | base p x)) → fits p size alignment t = true →
  Allocate size alignment tk p = Ok a p' →
  (alignment | a) ↔ (alignment | offset t).
Proof.
  intros Hp Ht Hreq Htk Hfree Hal Hbase Hfits. rewrite (allocate_verdict _ _ _ t) by done.
  unfold allocate_spec. rewrite Hfits. intros [= <- _].
  pose proof (Hbase (block t) (proj1 Ht)) as Hb. split; intros Hd.
  - replace (offset t) with (base p (block t) + offset t - base p (block t)) by lia.
    by apply Z.divide_sub_r.
  - by apply Z.divide_add_r.
Qed.

(** Three bytes, then an object that asks for eight: it gets an odd address. *)
Lemma allocate_alignment_witness :
  let p := write_tickets 73728 (mkTicket 19 2) example_pool in
  Allocate 8 8 73728 p = Ok 73747 (write_tickets 73728 (mkTicket 32 2) p) ∧
  ((8 | 73747) ↔ (8 | 19)).
Proof.
  split; [reflexivity|].
  apply (allocate_alignment 8 8 73728 (mkTicket 19 2) (write_tickets 73728 (mkTicket 19 2) example_pool)
    73747 (write_tickets 73728 (mkTicket 32 2) (write_tickets 73728 (mkTicket 19 2) example_pool)));
    try done.
  - repeat (apply list.Forall_cons; split); [done|done|by apply list.Forall_nil].
  - intros x _. unfold base. simpl. exists (8192 + x * 512). lia.
Defined.

(** ** The pool as a system

    A state is the pool and the live tickets, each with the objects it was
    given: address and size, the ticket itself included. *)
Definition object : Type := Z * Z.

Record System := mkSystem {
  pool : MemoryPool;
  live : list (Z * list object)
}.

Inductive step : System → System → Prop :=
  | step_take p l tk p' :
      TakeTicket p = Ok tk p' →
      step (mkSystem p l) (mkSystem p' ((tk, [(tk, sizeof_MemoryPoolTicket)]) :: l))
  | step_allocate p l1 tk objs l2 size alignment a p' :
      request_ok size alignment → Allocate size alignment tk p = Ok a p' →
      step (mkSystem p (l1 ++ (tk, objs) :: l2)) (mkSystem p' (l1 ++ (tk, (a, size) :: objs) :: l2))
  | step_return p l1 tk objs l2 p' :
      ReturnTicket tk p = Ok tt p' →
      step (mkSystem p (l1 ++ (tk, objs) :: l2)) (mkSystem p' (l1 ++ l2)).

Definition apart (o o' : object) : Prop := o.1 + o.2 ≤ o'.1 ∨ o'.1 + o'.2 ≤ o.1.

Definition objects (s : System) : list object := flat_map snd (live s).

(** Object [o] is in block [x]. *)
Definition in_block (p : MemoryPool) (o : object) (x : Z) : Prop :=
  base p x ≤ o.1 ∧ 0 ≤ o.2 ∧ o.1 + o.2 ≤ base p x + block_size p.

(** The blocks a ticket owns: the current one first, its own one last. *)
Record owns (p : MemoryPool) (entry : Z * list object) (t : MemoryPoolTicket) (xs : list Z) : Prop := {
  owns_ticket : tickets p !! entry.1 = Some t;
  owns_ok : ticket_ok p t;
  owns_current : head xs = Some (block t);
  owns_first : ∃ x, list.last xs = Some x ∧ entry.1 = base p x;
  owns_objects : Forall (λ o, ∃ x, x ∈ xs ∧ in_block p o x ∧
    (x = block t → o.1 + o.2 ≤ base p x + offset t)) entry.2;
  owns_apart : ForallOrdPairs apart entry.2
}.

Record system_ok (s : System) : Prop := {
  sys_pool : pool_ok (pool s);
  sys_owned : ∃ owned : list (list Z),
    Forall2 (λ entry xs, ∃ t, owns (pool s) entry t xs) (live s) owned ∧
    NoDup (free_blocks (pool s) ++ concat owned) ∧
    Forall (block_ok (pool s)) (free_blocks (pool s) ++ concat owned)
}.

Lemma apart_sym o o' : apart o o' → apart o' o.
Proof. intros [?|?]; [by right|by left]. Qed.

(** Objects in distinct blocks are apart. *)
Lemma in_blocks_apart p o o' x y :
  pool_ok p → x ≠ y → in_block p o x → in_block p o' y → apart o o'.
Proof.
  intros Hp Hxy (? & ? & ?) (? & ? & ?). destruct (base_apart p Hp x y Hxy); [left|right]; lia.
Qed.

(** What matters of the pool for the objects of a ticket. *)
Lemma owns_frame p p' entry t xs :
  owns p entry t xs → block_size p' = block_size p → total_size p' = total_size p →
  start_address_of_pool p' = start_address_of_pool p →
  tickets p' !! entry.1 = tickets p !! entry.1 → owns p' entry t xs.
Proof.
  intros [Ht Hok Hc Hf Ho Ha] Hb Htot Hs Htk.
  unfold ticket_ok, block_ok, in_block, base in *. split; unfold ticket_ok, block_ok, in_block, base;
    rewrite ?Hb, ?Htot, ?Hs, ?Htk; done.
Qed.

Lemma last_in (xs : list Z) x : list.last xs = Some x → x ∈ xs.
Proof. intros [l ->]%last_Some. set_solver. Qed.

Lemma base_inj p x y : pool_ok p → base p x = base p y → x = y.
Proof.
  intros Hp. pose proof (ok_block_size _ Hp). unfold base, sizeof_MemoryPoolTicket in *. intros.
  apply (Z.mul_cancel_r x y (block_size p)); lia.
Qed.

(** A change to the ticket at block [x] does not touch the owners of other
    blocks. *)
Lemma owners_frame p p' x l owned :
  pool_ok p → Forall2 (λ entry xs, ∃ t, owns p entry t xs) l owned →
  block_size p' = block_size p → total_size p' = total_size p →
  start_address_of_pool p' = start_address_of_pool p → x ∉ concat owned →
  (∀ tk, tk ≠ base p x → tickets p' !! tk = tickets p !! tk) →
  Forall2 (λ entry xs, ∃ t, owns p' entry t xs) l owned.
Proof.
  intros Hp Hl Hb Ht Hs Hx Htk. induction Hl as [|entry xs l owned [t Ho] _ IH]; [constructor|].
  simpl in Hx. constructor; [|apply IH; set_solver]. exists t. eapply owns_frame; [done..|].
  apply Htk. destruct (owns_first _ _ _ _ Ho) as (y & Hy & ->).
  intros <-%base_inj; [|done]. apply last_in in Hy. set_solver.
Qed.

(** The three kinds of steps preserve the invariant. *)
Lemma take_ok p l tk p' :
  system_ok (mkSystem p l) → TakeTicket p = Ok tk p' →
  system_ok (mkSystem p' ((tk, [(tk, sizeof_MemoryPoolTicket)]) :: l)).
Proof.
  intros [Hp (owned & Hl & Hnd & Hall)] Htake. simpl in *.
  unfold TakeTicket, AllocateBlock, get, mbind, M_bind in Htake.
  destruct (free_blocks p) as [|x rest] eqn:Hfree; [done|]. simpl in Htake.
  unfold write_ticket, modify, mbind, M_bind, mret, M_ret in Htake. injection Htake as <- <-.
  simpl in Hall, Hnd. apply list.Forall_cons in Hall as [Hx Hall]. apply list.NoDup_cons in Hnd as [Hxn Hnd].
  change (block_address (set_free_blocks rest p) x) with (block_address p x).
  rewrite block_address_base by done.
  set (t := mkTicket sizeof_MemoryPoolTicket x).
  set (p' := set_tickets (<[base p x:=t]> (tickets (set_free_blocks rest p))) (set_free_blocks rest p)).
  assert (Hnew : owns p' (base p x, [(base p x, sizeof_MemoryPoolTicket)]) t [x]).
  { pose proof (ok_block_size _ Hp). unfold sizeof_MemoryPoolTicket in *. split; simpl.
    - apply lookup_insert_eq.
    - split; simpl; [done|]. unfold sizeof_MemoryPoolTicket. lia.
    - done.
    - by exists x.
    - apply list.Forall_cons. split; [|by apply list.Forall_nil]. exists x.
      unfold in_block, base, sizeof_MemoryPoolTicket. simpl. split_and!; set_solver || lia.
    - repeat constructor. }
  assert (Hperm : rest ++ concat ([x] :: owned) ≡ₚ x :: rest ++ concat owned)
    by (simpl; by rewrite Permutation_middle).
  split; simpl; [by destruct Hp|]. exists ([x] :: owned). rewrite Hperm. split_and!.
  - constructor; [by exists t|]. eapply (owners_frame p p' x); try done; [set_solver|].
    intros tk Htk. by apply lookup_insert_ne.
  - by apply list.NoDup_cons.
  - by apply list.Forall_cons.
Qed.

Lemma concat_middle {A} (o1 : list (list A)) xs o2 :
  concat (o1 ++ xs :: o2) ≡ₚ xs ++ concat (o1 ++ o2).
Proof. rewrite !concat_app. simpl. by rewrite Permutation_app_swap_app. Qed.

(** A new object behind those of a ticket, in its block or in a new one. *)
Lemma owns_push p p' tk objs t t' xs xs' o :
  pool_ok p → owns p (tk, objs) t xs → tickets p' !! tk = Some t' → ticket_ok p t' →
  block_size p' = block_size p → total_size p' = total_size p →
  start_address_of_pool p' = start_address_of_pool p →
  head xs' = Some (block t') → list.last xs' = list.last xs → (∀ x, x ∈ xs → x ∈ xs') →
  in_block p o (block t') → o.1 + o.2 ≤ base p (block t') + offset t' →
  (block t' = block t ∧ base p (block t) + offset t ≤ o.1 ∨ block t' ∉ xs) →
  owns p' (tk, o :: objs) t' xs'.
Proof.
  intros Hp [Ht [Hb Hoff] Hc Hf Ho Ha] Ht' Hok' Hbs Htot Hst Hhd Hlast Hsub Hin Hend Hcase.
  simpl in *.
  assert (Hpush : Forall (λ o, ∃ x, x ∈ xs' ∧ in_block p o x ∧
    (x = block t' → o.1 + o.2 ≤ base p x + offset t')) (o :: objs)).
  { apply list.Forall_cons. split.
    - exists (block t'). split_and!; [|done|done]. destruct xs'; [done|]. injection Hhd as ->. set_solver.
    - eapply list.Forall_impl; [exact Ho|]. intros o' (x & Hx & Hxin & Hxend). exists x.
      split_and!; [auto|done|]. intros ->.
      destruct Hcase as [[Heq Hle]|]; [|done]. specialize (Hxend Heq).
      destruct Hin as (? & ? & ?). rewrite Heq in *. lia. }
  assert (Hapart : ForallOrdPairs apart (o :: objs)).
  { constructor; [|done]. eapply list.Forall_impl; [exact Ho|].
    intros o' (x & Hx & Hxin & Hxend). destruct (decide (x = block t')) as [->|Hne].
    - destruct Hcase as [[Heq Hle]|]; [|done]. specialize (Hxend Heq). right. rewrite Heq in *. lia.
    - apply (in_blocks_apart p _ _ (block t') x); auto. }
  split; simpl; try done.
  - unfold ticket_ok, block_ok in *. by rewrite Hbs, Htot.
  - destruct Hf as (x & Hx & ->). exists x. unfold base. by rewrite Hlast, Hst, Hbs.
  - unfold in_block, base in *. by rewrite Hst, Hbs.
Qed.

(** The owners of a list of entries. *)
Abbreviation owners p := (Forall2 (λ entry xs, ∃ t, owns p entry t xs)) (only parsing).

(** A system, seen from one of its tickets. *)
Record focus (p : MemoryPool) (l1 : list (Z * list object)) (e : Z * list object)
    (l2 : list (Z * list object)) (o1 o2 : list (list Z)) (t : MemoryPoolTicket) (xs : list Z) :
    Prop := {
  focus_pool : pool_ok p;
  focus_left : owners p l1 o1;
  focus_right : owners p l2 o2;
  focus_owns : owns p e t xs;
  focus_distinct : NoDup (free_blocks p ++ xs ++ concat (o1 ++ o2));
  focus_blocks : Forall (block_ok p) (free_blocks p ++ xs ++ concat (o1 ++ o2))
}.

Lemma system_focus p l1 e l2 :
  system_ok (mkSystem p (l1 ++ e :: l2)) → ∃ o1 o2 t xs, focus p l1 e l2 o1 o2 t xs.
Proof.
  intros [Hp (owned & Hl & Hnd & Hall)]. simpl in *.
  apply Forall2_app_inv_l in Hl as (o1 & o2' & Hl1 & Hl2 & ->).
  apply Forall2_cons_inv_l in Hl2 as (xs & o2 & [t Ho] & Hl2 & ->).
  rewrite concat_middle in Hnd, Hall. by exists o1, o2, t, xs.
Qed.

Lemma focus_system p l1 e l2 o1 o2 t xs :
  focus p l1 e l2 o1 o2 t xs → system_ok (mkSystem p (l1 ++ e :: l2)).
Proof.
  intros [Hp Hl1 Hl2 Ho Hnd Hall]. split; [done|]. exists (o1 ++ xs :: o2). simpl.
  rewrite concat_middle. split_and!; [|done..].
  apply Forall2_app; [done|]. constructor; [by exists t|done].
Qed.

(** A step that changes the ticket in focus and the free blocks. *)
Lemma focus_step p l1 e l2 o1 o2 t xs rest t' e' xs' :
  focus p l1 e l2 o1 o2 t xs → e'.1 = e.1 →
  owns (write_tickets e.1 t' (set_free_blocks rest p)) e' t' xs' →
  rest ++ xs' ≡ₚ free_blocks p ++ xs →
  focus (write_tickets e.1 t' (set_free_blocks rest p)) l1 e' l2 o1 o2 t' xs'.
Proof.
  intros [Hp Hl1 Hl2 Ho Hnd Hall] He Ho' Hperm.
  destruct (owns_first _ _ _ _ Ho) as (x & Hx%last_in & Hxb).
  assert (Hx1 : x ∉ concat o1 ∧ x ∉ concat o2).
  { apply list.NoDup_app in Hnd as (_ & _ & Hnd). apply list.NoDup_app in Hnd as (_ & Hnd & _).
    specialize (Hnd x Hx). rewrite concat_app in Hnd. set_solver. }
  destruct Hx1 as [Hx1 Hx2].
  assert (Hrest : rest ++ xs' ++ concat (o1 ++ o2) ≡ₚ free_blocks p ++ xs ++ concat (o1 ++ o2))
    by (by rewrite app_assoc, Hperm, <- app_assoc).
  split; simpl; [by destruct Hp| | |done|by rewrite Hrest|].
  - eapply (owners_frame p); try done. intros tk Htk. simpl. apply lookup_insert_ne. congruence.
  - eapply (owners_frame p); try done. intros tk Htk. simpl. apply lookup_insert_ne. congruence.
  - by rewrite Hrest.
Qed.

Lemma allocate_ok p l1 tk objs l2 size alignment a p' :
  system_ok (mkSystem p (l1 ++ (tk, objs) :: l2)) → request_ok size alignment →
  Allocate size alignment tk p = Ok a p' →
  system_ok (mkSystem p' (l1 ++ (tk, (a, size) :: objs) :: l2)).
Proof.
  intros (o1 & o2 & t & xs & Hf)%system_focus Hreq Hrun.
  pose proof (focus_owns _ _ _ _ _ _ _ _ Hf) as Ho. pose proof (focus_pool _ _ _ _ _ _ _ _ Hf) as Hp.
  pose proof (owns_ok _ _ _ _ Ho) as [Hb Hoff]. pose proof (owns_ticket _ _ _ _ Ho) as Htk.
  pose proof (focus_distinct _ _ _ _ _ _ _ _ Hf) as Hnd.
  pose proof (focus_blocks _ _ _ _ _ _ _ _ Hf) as Hall. apply list.Forall_app in Hall as [Hfree _].
  rewrite (allocate_verdict _ _ _ t) in Hrun by done. unfold allocate_spec in Hrun.
  assert (Hpad : 0 ≤ padding p alignment t).
  { pose proof (block_inside p Hp _ Hb). pose proof Hp as [].
    eapply padding_bound; [apply Hreq|lia]. }
  destruct Hreq as [Hsz _]. destruct (fits p size alignment t) eqn:Hfits.
  - injection Hrun as <- <-. unfold fits in Hfits. bool_hyps. eapply focus_system.
    replace p with (set_free_blocks (free_blocks p) p) at 2 by (by destruct p).
    eapply (focus_step p _ (tk, objs)); [done..| |done].
    eapply (owns_push p _ tk objs t _ xs xs); try done; simpl.
    + apply lookup_insert_eq.
    + split; simpl; [done|lia].
    + by destruct Ho.
    + unfold in_block. simpl. lia.
    + lia.
    + left. split; [done|lia].
  - destruct (free_blocks p) as [|x rest] eqn:Hfr; [done|].
    destruct (Z.leb_spec size (block_size p)); [|done]. injection Hrun as <- <-.
    apply list.Forall_cons in Hfree as [Hx _].
    assert (Hxs : x ∉ xs). { simpl in Hnd. apply list.NoDup_cons in Hnd as [Hnd _]. set_solver. }
    eapply focus_system, (focus_step p _ (tk, objs) _ _ _ _ _ rest (mkTicket size x) _ (x :: xs));
      [done|done| |by rewrite Hfr, <- Permutation_middle].
    eapply (owns_push p _ tk objs t _ xs (x :: xs)); try done; simpl.
    + apply lookup_insert_eq.
    + split; simpl; [done|lia].
    + destruct (owns_first _ _ _ _ Ho) as (y & Hy & _). by destruct xs.
    + set_solver.
    + unfold in_block. simpl. lia.
    + by right.
Qed.

Lemma return_ok p l1 tk objs l2 p' :
  system_ok (mkSystem p (l1 ++ (tk, objs) :: l2)) → ReturnTicket tk p = Ok tt p' →
  system_ok (mkSystem p' (l1 ++ l2)).
Proof.
  intros (o1 & o2 & t & xs & [Hp Hl1 Hl2 Ho Hnd Hall])%system_focus Hrun.
  unfold ReturnTicket, read_ticket, get, mbind, M_bind in Hrun.
  pose proof (owns_ticket _ _ _ _ Ho) as Htk. simpl in Htk. rewrite Htk in Hrun.
  injection Hrun as <-. pose proof (owns_current _ _ _ _ Ho) as Hc.
  destruct xs as [|x xs]; [done|]. injection Hc as ->.
  assert (Hperm : free_blocks p ++ (block t :: xs) ++ concat (o1 ++ o2) ≡ₚ
    xs ++ block t :: free_blocks p ++ concat (o1 ++ o2)).
  { simpl. rewrite <- !Permutation_middle. constructor. apply Permutation_app_swap_app. }
  rewrite Hperm in Hnd, Hall. apply list.NoDup_app in Hnd as (_ & _ & Hnd).
  apply list.Forall_app in Hall as [_ Hall].
  split; simpl; [by destruct Hp|]. exists (o1 ++ o2). split_and!; [|done..].
  eapply list.Forall2_impl; [by apply Forall2_app|]. intros entry ys [t' Ho'].
  exists t'. by eapply owns_frame.
Qed.

Lemma step_system_ok s s' : step s s' → system_ok s → system_ok s'.
Proof. destruct 1; intros; eauto using take_ok, allocate_ok, return_ok. Qed.

Lemma in_all_blocks n x : x ∈ all_blocks n ↔ 0 ≤ x < n.
Proof.
  unfold all_blocks. rewrite list_elem_of_In, in_map_iff. split.
  - intros (y & <- & Hy%in_seq). lia.
  - intros Hx. exists (Z.to_nat x). split; [lia|]. apply in_seq. lia.
Qed.

Lemma initial_ok total size start p :
  new_MemoryPool total size start = Ok tt p → pool_ok p → system_ok (mkSystem p []).
Proof.
  unfold new_MemoryPool, Reset, get, mbind, M_bind. simpl. destruct (size =? 0); [done|].
  intros [= <-] Hp. split; [done|]. exists []. simpl. rewrite !app_nil_r. split_and!; [constructor|..].
  - rewrite <- (Permutation_rev (all_blocks _)). apply (list.NoDup_fmap_2 Z.of_nat), NoDup_seq.
  - apply list.Forall_forall. intros x Hx. rewrite <- (Permutation_rev (all_blocks _)) in Hx.
    by apply in_all_blocks in Hx.
Qed.

(** The objects of the live tickets of a state that satisfies the invariant. *)
Lemma owners_apart p l owned :
  pool_ok p → owners p l owned → NoDup (concat owned) → ForallOrdPairs apart (flat_map snd l).
Proof.
  intros Hp. induction 1 as [|e xs l owned [t Ho] Hl IH]; simpl; [constructor|].
  intros (Hxs & Hd & Hnd)%list.NoDup_app. specialize (IH Hnd).
  pose proof (owns_apart _ _ _ _ Ho) as Ha. pose proof (owns_objects _ _ _ _ Ho) as Hobjs.
  assert (Hothers : Forall (λ o, ∃ x, x ∈ concat owned ∧ in_block p o x) (flat_map snd l)).
  { clear IH Ho Ha Hobjs Hxs Hd Hnd. induction Hl as [|e' ys l owned [t' Ho'] _ IH]; simpl; [done|].
    apply list.Forall_app. split.
    - eapply list.Forall_impl; [apply (owns_objects _ _ _ _ Ho')|]. intros o (x & Hx & Hin & _).
      exists x. split; [set_solver|done].
    - eapply list.Forall_impl; [exact IH|]. intros o (x & Hx & Hin). exists x.
      split; [set_solver|done]. }
  clear Ho. induction Ha as [|o objs Ho Ha IHa]; simpl; [done|].
  apply list.Forall_cons in Hobjs as [(x & Hx & Hin & _) Hobjs]. constructor; [|by apply IHa].
  apply list.Forall_app. split; [done|]. eapply list.Forall_impl; [exact Hothers|].
  intros o' (y & Hy & Hin'). apply (in_blocks_apart p _ _ x y); try done. intros ->. by apply (Hd y).
Qed.

Definition inside_pool (p : MemoryPool) (o : object) : Prop :=
  start_address_of_pool p ≤ o.1 ∧ o.1 + o.2 ≤ start_address_of_pool p + total_size p.

Lemma owners_inside p l owned :
  pool_ok p → owners p l owned → Forall (block_ok p) (concat owned) →
  Forall (inside_pool p) (flat_map snd l).
Proof.
  intros Hp. induction 1 as [|e xs l owned [t Ho] Hl IH]; simpl; [done|].
  intros [Hxs Hall]%list.Forall_app. apply list.Forall_app. split; [|auto].
  eapply list.Forall_impl; [apply (owns_objects _ _ _ _ Ho)|]. intros o (x & Hx & (? & ? & ?) & _).
  pose proof (Forall_elem _ _ _ Hxs Hx) as Hb. pose proof (block_inside p Hp _ Hb).
  unfold inside_pool. lia.
Qed.

(** C27: whatever tickets are taken, whatever is allocated through them and
    whenever they are returned, the objects of the live tickets (and the
    tickets themselves) lie inside the pool and no two of them overlap. *)
Theorem pool_objects_apart total size start p s :
  new_MemoryPool total size start = Ok tt p → pool_ok p → rtc step (mkSystem p []) s →
  ForallOrdPairs apart (objects s) ∧ Forall (inside_pool (pool s)) (objects s).
Proof.
  intros Hnew Hp Hrun. pose proof (initial_ok _ _ _ _ Hnew Hp) as Hok.
  assert (Hs : system_ok s).
  { clear Hp Hnew. induction Hrun as [|s1 s2 s3 Hstep _ IH]; [done|].
    apply IH. by eapply step_system_ok. }
  destruct Hs as [Hps (owned & Hl & Hnd & Hall)]. destruct s as [p' l]. simpl in *.
  apply list.NoDup_app in Hnd as (_ & _ & Hnd). apply list.Forall_app in Hall as [_ Hall].
  split; [by eapply owners_apart|by eapply owners_inside].
Qed.

(** Two tickets are taken; the first gets an object in its block and one that
    moves it to the third block. *)
Definition after {A} (m : M MemoryPool A) (p : MemoryPool) : MemoryPool :=
  match m p with Ok _ p' => p' | _ => p end.

Definition three_blocks : MemoryPool :=
  mkMemoryPool 4096 12288 65536 [2; 1; 0] ∅.

Definition two_tickets : MemoryPool := after TakeTicket (after TakeTicket three_blocks).

Lemma pool_objects_apart_witness :
  let s := mkSystem (after (Allocate 4090 8 73728) (after (Allocate 100 8 73728) two_tickets))
    [(69632, [(69632, 16)]); (73728, [(65536, 4090); (73744, 100); (73728, 16)])] in
  free_blocks (pool s) = [] ∧
  ForallOrdPairs apart (objects s) ∧ Forall (inside_pool (pool s)) (objects s).
Proof.
  intros s. split; [reflexivity|].
  apply (pool_objects_apart 12288 4096 65536 three_blocks); [reflexivity|done|].
  eapply rtc_l; [apply (step_take _ [] 73728 (after TakeTicket three_blocks)); reflexivity|].
  eapply rtc_l; [apply (step_take _ _ 69632 two_tickets); reflexivity|].
  eapply rtc_l; [apply (step_allocate _ [(69632, [(69632, 16)])] 73728 _ [] 100 8 73744
    (after (Allocate 100 8 73728) two_tickets)); [done|reflexivity]|].
  eapply rtc_l; [apply (step_allocate _ [(69632, [(69632, 16)])] 73728 _ [] 4090 8 65536
    (after (Allocate 4090 8 73728) (after (Allocate 100 8 73728) two_tickets))); [done|reflexivity]|].
  apply rtc_refl.
Defined.
